(* ===== verification/_CoqProject ===== *)
-Q . S2P
Prelude.v
Rust.v
Json.v
Http.v
Net.v
Gcra.v
GcraStore.v
ClaimsCache.v
ClientAddress.v
Path.v
Table.v
Status.v
Response.v
ShieldRules.v
LimitService.v
Shield.v
Guard.v
Global.v
Auth.v
Jwks.v
Cors.v
Idle.v
Serve.v
Metadata.v
Protobuf.v
Codec.v
Presence.v
Numbers.v
Slices.v
Request.v
BindPairs.v
BuildRequest.v
HttpBody.v
Rule.v
Details.v
Shape.v
Mount.v
Answer.v
Transcode.v
Config.v
Oidc.v
Edge.v
Upstream.v
Service.v
OpenApi.v
Listen.v
Embed.v
Canonical.v
