(* ===== verification/Prelude.v ===== *)
(** * structured-proxy: a verification development

    structured-proxy is a configurable gRPC/REST proxy: it accepts HTTP requests,
    transcodes REST calls to gRPC by their [google.api.http] rules, and guards
    the upstream with rate limits, concurrency limits, maintenance mode, client
    address resolution, JWT authentication, route policies and external
    authorization. This library models the proxy's own logic as executable
    functions, translated from [src/src], and proves what makes it correct.

    ** The program and its model

    A request first meets the guards. [guard.rs] and [guard/gate.rs] fuse those
    that can be decided as a request arrives into one gate, and stack the others
    around the service; each covers the classes of routes and the requests its
    scope selects. The gate resolves the client's address, refuses under
    maintenance, takes an in-flight slot and charges the pre-auth rate limits;
    the authenticators and the post-auth rate limits follow. What is left is
    routed by the transcoder's tables or forwarded as gRPC.

    - [Prelude]: texts, booleans, options and the lemmas and tactics shared.
    - [Rust]: what the code uses of Rust's standard library: byte strings,
      decimal integers, UTF-8 validity, [Duration] and its panics.
    - [Json]: [serde_json::Value] and the claim paths of [auth/mod.rs].
    - [Http]: the [http] crate's header maps, as an interface with laws and a
      model of it.
    - [Net]: [IpAddr], its parser and its printer, and the [ipnet] crate's
      ranges as an interface.
    - [Gcra]: [shield/gcra.rs]; [GcraStore]: [shield/store.rs], refining a
      limiter that never forgets a key.
    - [ShieldRules]: [shield/rate.rs], [shield/matcher.rs] and the limits of
      [shield/resolve.rs]; [LimitService]: the background-fetched limits of
      [shield/resolve.rs], as a step relation; [Global]: the fleet-wide counters
      of [shield/window.rs] and [shield/global.rs], as a step relation; [Shield]:
      [shield/mod.rs], which composes them. [Shield] sees the fleet counters
      through the class [FleetLib], which [Global] implements.
    - [ClientAddress]: [client_address.rs], the resolver and every header it
      writes.
    - [ClaimsCache]: [auth/cache.rs], its operations run alone and, in
      [Concurrent], cut at their atomic steps and interleaved.
    - [Jwks]: [auth/jwks.rs] and [auth/verifier.rs]; [Auth]: [auth/mod.rs],
      [auth/policy.rs], [auth/forward.rs], [auth/authz.rs] and the decider of
      [embed.rs], as layers of the guard stack.
    - [Guard]: [guard.rs], [guard/gate.rs], [guard/concurrency.rs], [held.rs].
    - [Status]: the codes and bodies of [transcode/error.rs], the rejections of
      [guard.rs] and their gRPC form ([guard/grpc.rs]).
    - [Path]: [transcode/path.rs], the templates as the router mounts them;
      [Shape]: what the router's view of them is made of; [Table]:
      [transcode/table.rs], the index of the routes, the choice of a binding and
      the parameters it captures.
    - [Protobuf]: descriptors and dynamic messages as an interface with its
      laws; [Codec]: [transcode/codec.rs]; [Presence]: [transcode/request/presence.rs];
      [Numbers] and [Slices]: Rust's numbers and sorting;
      [Request], [BindPairs], [BuildRequest]: [transcode/request.rs], the paths
      of fields, the pairs bound at once and the message built.
    - [Metadata]: [transcode/metadata.rs]; [Response]: [transcode/response.rs];
      [HttpBody]: [transcode/httpbody.rs]; [Rule]: [transcode/rule.rs] and
      [transcode/select.rs]; [Details]: the status details of
      [transcode/error.rs] and their scrub.
    - [Mount], [Answer], [Transcode]: [transcode/mod.rs], the tables mounted
      from the descriptors, the answers made of what the upstream does, and the
      handlers between the two. A request goes [Transcode.dispatch] (the
      binding, by [Table.choose]), [Transcode.capture] and [Table.bind_params]
      (its parameters), [BuildRequest.build_message] (its message),
      [Metadata.forwarded_metadata] (its metadata), [Answer.answer_call] (its
      answer).
    - [Cors]: [cors.rs]; [Serve]: the accept loop of [serve.rs] and [Idle]:
      [serve/idle.rs], as step relations over every interleaving.
    - [Config]: [config.rs], its defaults, the deserializers written by hand, the
      unknown keys and the checks across sections; [Oidc]: [oidc/mod.rs], the
      documents of discovery; [Edge]: [lib.rs] and [hooks.rs], the guards and
      the routes made of a configuration, and the check of the whole edge.
    - [Upstream]: the pass-through of [transcode/upstream.rs], polled;
      [Service]: [service.rs], which sends a request the gRPC way or to the
      routes, with the layers of either around it.
    - [OpenApi]: [openapi.rs], the document generated from the descriptors.
    - [Listen]: the options of the listener ([lib.rs]), [tls.rs] up to what
      [rustls] is given, and the size of [runtime.rs]; [Embed]: the endpoints and
      handlers of [embed.rs], [auth/forward.rs] and the check request of
      [auth/authz.rs]; [Canonical]: the pool of [transcode/error.rs] completed
      with the canonical types.

    ** How code becomes definitions

    Methods are functions of the state they take and give back a new one;
    [Result] is the sum type [result] of [Prelude] with the code's error type,
    and a function that can panic returns [option], [None] being the panic.
    Machine integers are [Z] (or [nat] for counts and indices), with saturation,
    wrapping and overflow written where the code has them. Strings and header
    values are lists of bytes. A clock the code reads is an argument. State that
    threads share is a record with one definition per atomic step and a step
    relation, and the theorems about it hold on every run.

    Code outside the repository ([http], [ipnet], [globset], [percent_encoding],
    [matchit], SHA-256, [jsonwebtoken], the HTTP and Redis servers) is a
    parameter: a type class of operations, with its documented laws where a
    theorem needs them. A theorem under such laws has a witness on a concrete
    implementation (the [Model] and [Demo] modules).

    ** What the theorems show

    - Rate limiting. A key is admitted at most its burst plus one per emission
      interval in any span, from the limiter ([GcraStore.rate_bound]) up to the
      built shield over a request trace ([Shield.shield_rate_bound]); the sweeps
      are unobservable ([store_refines_spec]); [remaining] and [retry_after] are
      exact; keys are shared only under one rule, kind and identity; the fleet
      counters publish no admission twice; the limit service fetches once per
      key and stays within its bounds.
    - Guards. The fused gate and the covering-only stack answer as the plain
      pipeline of the scoped guards ([guard_stack_pipeline]); in every run free
      and taken slots add up to the limit ([slots_run]); no request reaches the
      service without meeting its route policy with verified claims
      ([stack_protects]).
    - Client address. A peer outside the trusted proxies cannot influence the
      address resolved nor the headers forwarded; the walk over the header lines
      is the reference client of the flattened chain.
    - Authentication. The gates pass only what they verified and drop what a
      client forged; cached claims are fresh, the cache bounded under every
      interleaving; a key the provider removed stops verifying in bounded time.
    - Routing. The index visits the matching bindings in rank order and
      [choose] answers with the highest; parameters are rebuilt as the template
      says; the allocation-free comparisons equal the plain ones.
    - Requests. Whatever the descriptors and the options, the tables mounted are
      well formed ([mounted_ok]) and listed as mounted ([listings_agree]), and
      a request the router matched is answered without a panic, by at most the
      one call its parts make ([request_served]), the same with a router and
      without ([direct_as_routed]). Building its message never panics; the path
      wins over the body and the query, which only fills what they left open;
      the message is of the RPC's type ([message_typed]) and a raw body arrives
      as sent ([raw_body_received]).
    - Answers. Unary answers carry exactly what the upstream said
      ([unary_answered]), streams read back line by line
      ([ndjson_read_back]), framing is exact ([answer_framed]); no DebugInfo
      reaches a client ([debug_info_withheld]).
    - Connections. No slot of the accept loop is lost, nothing is accepted after
      the signal, and an idle connection closes without a lost wakeup.
    - Assembly. The edge is accepted exactly when no two routes of one shape
      answer a common method ([check_edge_ok]); the guards a configuration turns
      on are there with exactly the scopes it names ([guards_assembled]); the
      service built answers what the contract of each way says ([call_ways]), and
      protects the upstream behind it too ([grpc_protected]).
    - Documents. Every reference of the OpenAPI document names one of its schemas
      ([references_resolve]) and its operations are exactly those the router
      mounts, each with its own id ([operations_documented]).
    - Endpoints. The listener is configured as written or refused
      ([listener_as_configured]); the verify endpoint decides as the inline gate
      does ([verify_as_gate]).
    - Errors. The completed pool defines every canonical type and keeps the
      product's ([completed_defines]). A rejection translated to gRPC keeps its code, message and
      headers; which codes survive the way to HTTP and back.

    ** Bounds and fuel

    Recursion is structural but for these, each with its fuel shown enough:
    [show_digits] (20 steps for a [u64], [show_digits_parse]); the decoding loop
    of [Path] (the length of its input, a byte consumed each step); the walk over
    a forwarding header, whose fuel is the code's own [MAX_HOPS] and which
    answers [TooManyHops] as the code does when it is spent; the search for
    required fields ([work], the types still to visit, [required_search]); the
    schemas and the query parameters of the document (one more than the messages of
    the pool, [schema_total] and [params_total], a level of either naming a message not
    named before) and the ids tried for an operation (two more than are taken,
    [unique_id_some]); the
    walks over a message ([dm_depth] and [dm_weight], which fall into every
    message it holds); [trim_end_matches] (the length of its input). [Gcra]'s
    theorems on admission hold for clock values where the arithmetic does not
    overflow, and say so in their hypotheses; what happens past [u64::MAX]
    nanoseconds is [GcraStore.saturated_key_unlimited].

    ** What is not modelled

    The crypto backend ([auth/crypto.rs]), the command line and the signals
    ([main.rs]), what [rustls] does with the certificates and [tokio] with the
    number of its workers are I/O or calls of other crates. [received.rs] is three
    fields handed on, and the encoder of [transcode/codec.rs] hands a message to the
    protobuf runtime. What [serde] derives, the YAML parser, [axum]'s router, [hyper]
    and the channel of [tonic] are parameters, as are the handlers the endpoints
    only hand to other crates (metrics, health) and those of an embedder. The
    builder methods of [lib.rs] set one field each of a record the model takes
    whole. The page of [openapi.rs] that shows the document is text. *)

From stdpp Require Export base option list list_numbers gmap strings.
From Stdlib Require Export Ascii ZArith Lia.
#[global] Open Scope Z_scope.

(** ** Texts and bytes

    A Rust [&str], [String], [&[u8]] or header value is the list of its bytes. *)

Abbreviation text := (list ascii).

Declare Scope text_scope.
Delimit Scope text_scope with text.

(** A string literal of the source, as a text. *)
Definition txt (s : string) : text := String.list_ascii_of_string s.
Arguments txt : simpl never.

(** The value of a byte. *)
Definition code (c : ascii) : Z := Z.of_N (N_of_ascii c).

Definition ch (s : string) : ascii :=
  match s with String.String c _ => c | String.EmptyString => Ascii.zero end.
Arguments ch !s /.

(** ** Decidable tests as booleans *)

Definition eqb_of {A} `{EqDecision A} (x y : A) : bool := bool_decide (x = y).
Infix "=?t" := (eqb_of (A := text)) (at level 70) : text_scope.

(** ** Results

    [Result<A, E>] of the source. *)
Inductive result (A E : Type) : Type :=
| Ok (a : A)
| Err (e : E).
Arguments Ok {A E} a.
Arguments Err {A E} e.

Definition result_bind {A B E} (r : result A E) (k : A -> result B E) : result B E :=
  match r with Ok a => k a | Err e => Err e end.

(** [iter().map(f).collect::<Result<Vec<_>, _>>()]: the first error wins. *)
Fixpoint collect_results {A B E} (f : A -> result B E) (l : list A) : result (list B) E :=
  match l with
  | [] => Ok []
  | x :: l' => result_bind (f x) (fun y =>
               result_bind (collect_results f l') (fun ys => Ok (y :: ys)))
  end.

Definition ok {A E} (r : result A E) : option A :=
  match r with Ok a => Some a | Err _ => None end.

Definition is_ok {A E} (r : result A E) : bool :=
  match r with Ok _ => true | Err _ => false end.

Notation "'let?' x := e 'in' k" := (result_bind e (fun x => k))
  (at level 10, x name, e at level 100, k at level 200).
(** [?] on an [Option], and the panicking operations of the source, whose
    failure is [None]. *)
Notation "'let!' x := e 'in' k" := (mbind (M := option) (fun x => k) e)
  (at level 10, x name, e at level 100, k at level 200).

(** ** Automation *)

Create HintDb proxy.

(** Split conjunctions and boolean connectives of hypotheses, turn boolean
    comparisons into propositions. *)
Ltac bool_simpl :=
  repeat match goal with
  | H : (_ && _)%bool = true |- _ => apply andb_true_iff in H; destruct H
  | H : (_ || _)%bool = false |- _ => apply orb_false_iff in H; destruct H
  | H : negb _ = true |- _ => apply negb_true_iff in H
  | H : negb _ = false |- _ => apply negb_false_iff in H
  | H : (_ <? _) = true |- _ => apply Z.ltb_lt in H
  | H : (_ <? _) = false |- _ => apply Z.ltb_ge in H
  | H : (_ <=? _) = true |- _ => apply Z.leb_le in H
  | H : (_ <=? _) = false |- _ => apply Z.leb_gt in H
  | H : (_ =? _) = true |- _ => apply Z.eqb_eq in H
  | H : (_ =? _) = false |- _ => apply Z.eqb_neq in H
  | H : bool_decide _ = true |- _ => apply bool_decide_eq_true_1 in H
  | H : bool_decide _ = false |- _ => apply bool_decide_eq_false_1 in H
  end.

(** Case analysis on the scrutinee of the first [match] or [if] of the goal. *)
Ltac case_goal :=
  match goal with
  | |- context [match ?x with _ => _ end] => destruct x eqn:?
  end.

(** [lia] with division and remainder. *)
Ltac div_lia := intros; Z.to_euclidean_division_equations; lia.

(** Every case of a byte, each closed by computation. *)
Ltac byte_cases c := destruct c as [[] [] [] [] [] [] [] []].

(** ** Machine integers *)

Definition U8_MAX : Z := 255.
Definition U16_MAX : Z := 65535.
Definition U32_MAX : Z := 4294967295.
Definition U64_MAX : Z := 18446744073709551615.

Definition in_u64 (n : Z) : Prop := 0 <= n <= U64_MAX.

(** [u64::saturating_sub], [saturating_add], [saturating_mul]. *)
Definition u64_saturating_sub (a b : Z) : Z := Z.max 0 (a - b).
Definition u64_saturating_add (a b : Z) : Z := Z.min U64_MAX (a + b).
Definition u64_saturating_mul (a b : Z) : Z := Z.min U64_MAX (a * b).

(** [u64::try_from(n).unwrap_or(u64::MAX)] of a non-negative [u128]. *)
Definition to_u64_saturating (n : Z) : Z := if n <=? U64_MAX then n else U64_MAX.

Lemma to_u64_saturating_min (n : Z) : to_u64_saturating n = Z.min n U64_MAX.
Proof. unfold to_u64_saturating. destruct (n <=? U64_MAX) eqn:?; lia. Qed.

Lemma to_u64_saturating_range (n : Z) : 0 <= n -> in_u64 (to_u64_saturating n).
Proof. intros. rewrite to_u64_saturating_min. unfold in_u64, U64_MAX. lia. Qed.

(** ** Lists and options *)

(** [Iterator::position]: the first index whose element satisfies [p]. *)
Fixpoint position {A} (p : A -> bool) (l : list A) : option nat :=
  match l with
  | [] => None
  | x :: l' => if p x then Some O else S <$> position p l'
  end.

(** [Iterator::rposition]: the last such index. *)
Definition rposition {A} (p : A -> bool) (l : list A) : option nat :=
  (fun i => length l - 1 - i)%nat <$> position p (reverse l).

Lemma position_Some {A} (p : A -> bool) (l : list A) (i : nat) :
  position p l = Some i <->
  (exists x, l !! i = Some x /\ p x = true) /\
  (forall j y, (j < i)%nat -> l !! j = Some y -> p y = false).
Proof.
  revert i. induction l as [|a l IH]; intros i; simpl.
  { split; [done|]. intros [[x [H _]] _]. by rewrite lookup_nil in H. }
  destruct (p a) eqn:Hp.
  - split.
    + intros [= <-]. split; [by exists a|]. intros; lia.
    + intros [_ H]. destruct i as [|i]; [done|].
      specialize (H O a ltac:(lia) eq_refl). congruence.
  - split.
    + intros (j & Hj & ->)%fmap_Some. apply IH in Hj as [[x [Hx Hpx]] Hlt].
      split; [by exists x|]. intros [|k] y Hk Hy; simpl in Hy; [congruence|].
      apply (Hlt k); [lia|done].
    + intros [[x [Hx Hpx]] Hlt]. destruct i as [|i]; simpl in Hx; [congruence|].
      assert (position p l = Some i) as ->; [|done].
      apply IH. split; [by exists x|]. intros k y Hk Hy. apply (Hlt (S k)); [lia|done].
Qed.

Lemma position_None {A} (p : A -> bool) (l : list A) :
  position p l = None <-> (forall x, x ∈ l -> p x = false).
Proof.
  induction l as [|a l IH]; simpl.
  { split; [|done]. intros _ x Hx. by apply elem_of_nil in Hx. }
  destruct (p a) eqn:Hp.
  - split; [done|]. intros H. specialize (H a (list_elem_of_here _ _)). congruence.
  - rewrite fmap_None, IH. split.
    + intros H x [->|Hx]%elem_of_cons; auto.
    + intros H x Hx. apply H. by right.
Qed.

(** [Iterator::find]. *)
Fixpoint find_first {A} (p : A -> bool) (l : list A) : option A :=
  match l with
  | [] => None
  | x :: l' => if p x then Some x else find_first p l'
  end.

Lemma find_first_Some {A} (p : A -> bool) (l : list A) (x : A) :
  find_first p l = Some x <->
  exists l1 l2, l = l1 ++ x :: l2 /\ p x = true /\ Forall (fun y => p y = false) l1.
Proof.
  induction l as [|a l IH]; simpl.
  { split; [done|]. intros (l1 & l2 & H & _). by destruct l1. }
  destruct (p a) eqn:Hp.
  - split.
    + intros [= <-]. exists [], l. auto.
    + intros (l1 & l2 & H & Hx & HF). destruct l1 as [|b l1]; simpl in H; [congruence|].
      inversion HF; subst. congruence.
  - rewrite IH. split.
    + intros (l1 & l2 & -> & Hx & HF). exists (a :: l1), l2. auto.
    + intros (l1 & l2 & H & Hx & HF). destruct l1 as [|b l1]; simpl in H; [congruence|].
      inversion H; subst. inversion HF; subst. eauto.
Qed.

Lemma find_first_None {A} (p : A -> bool) (l : list A) :
  find_first p l = None <-> Forall (fun y => p y = false) l.
Proof.
  induction l as [|a l IH]; simpl; [by split|].
  rewrite Forall_cons, <- IH. destruct (p a); split; try done; by intros [].
Qed.

Lemma position_split {A} (p : A -> bool) (l1 l2 : list A) (x : A) :
  Forall (fun y => p y = false) l1 -> p x = true ->
  position p (l1 ++ x :: l2) = Some (length l1).
Proof.
  intros HF Hx. induction HF as [|y l1 Hy _ IH]; cbn; [by rewrite Hx|]. by rewrite Hy, IH.
Qed.

Lemma position_none {A} (p : A -> bool) (l : list A) :
  Forall (fun y => p y = false) l -> position p l = None.
Proof. intros HF. apply position_None. by rewrite <- Forall_forall. Qed.

Lemma rposition_split {A} (p : A -> bool) (l1 l2 : list A) (x : A) :
  Forall (fun y => p y = false) l2 -> p x = true ->
  rposition p (l1 ++ x :: l2) = Some (length l1).
Proof.
  intros HF Hx. unfold rposition. rewrite reverse_app, reverse_cons, <- app_assoc. cbn.
  rewrite position_split; [|by apply Forall_reverse|done]. cbn. f_equal.
  rewrite length_reverse, length_app. cbn. lia.
Qed.

Lemma rposition_none {A} (p : A -> bool) (l : list A) :
  Forall (fun y => p y = false) l -> rposition p l = None.
Proof. intros HF. unfold rposition. by rewrite position_none by (by apply Forall_reverse). Qed.

Lemma existsb_false_Forall {A} (p : A -> bool) (l : list A) :
  existsb p l = false <-> Forall (fun x => p x = false) l.
Proof.
  induction l as [|x l IH]; cbn; [by split|]. by rewrite orb_false_iff, Forall_cons, IH.
Qed.

(** A one-bit mask tests its bit. *)
Lemma land_pow2 (z k : Z) : 0 <= k -> negb (Z.land z (2 ^ k) =? 0) = Z.testbit z k.
Proof.
  intros Hk. destruct (Z.testbit z k) eqn:E.
  - apply negb_true_iff, Z.eqb_neq. intros H. apply (f_equal (fun x => Z.testbit x k)) in H.
    rewrite Z.land_spec, Z.pow2_bits_eqb, Z.eqb_refl, Z.bits_0, E in H by lia. done.
  - apply negb_false_iff, Z.eqb_eq. apply Z.bits_inj_0. intros n. rewrite Z.land_spec.
    destruct (Z.ltb_spec n 0); [by rewrite Z.testbit_neg_r by lia|]. rewrite Z.pow2_bits_eqb by lia.
    destruct (Z.eqb_spec k n) as [<-|]; [by rewrite E|]. by rewrite andb_false_r.
Qed.

Lemma lxor_range (a b k : Z) : 0 <= k -> 0 <= a < 2 ^ k -> 0 <= b < 2 ^ k -> 0 <= Z.lxor a b < 2 ^ k.
Proof.
  intros Hk Ha Hb. split; [apply Z.lxor_nonneg; lia|].
  destruct (decide (Z.lxor a b = 0)) as [->|Hne]; [apply Z.pow_pos_nonneg; lia|].
  assert (0 <= Z.lxor a b) by (apply Z.lxor_nonneg; lia).
  apply Z.log2_lt_pow2; [lia|]. eapply Z.le_lt_trans; [apply Z.log2_lxor; lia|].
  apply Z.max_lub_lt; (destruct (Z.eqb_spec k 0); [subst; cbn in *; replace a with 0 in * by lia; replace b with 0 in * by lia; done|]).
  - destruct (decide (a = 0)) as [->|]; [cbn; lia|]. apply Z.log2_lt_pow2; lia.
  - destruct (decide (b = 0)) as [->|]; [cbn; lia|]. apply Z.log2_lt_pow2; lia.
Qed.

Lemma filter_none {A} (P : A -> Prop) `{!forall x, Decision (P x)} (l : list A) :
  (forall x, x ∈ l -> ~ P x) -> filter P l = [].
Proof.
  induction l as [|x l IH]; intros Hl; [done|]. rewrite filter_cons, decide_False by (apply Hl; by left).
  apply IH. intros y Hy. apply Hl. by right.
Qed.

Lemma filter_all {A} (P : A -> Prop) `{!forall x, Decision (P x)} (l : list A) :
  (forall x, x ∈ l -> P x) -> filter P l = l.
Proof.
  induction l as [|x l IH]; intros Hl; [done|]. rewrite filter_cons, decide_True by (apply Hl; by left).
  f_equal. apply IH. intros y Hy. apply Hl. by right.
Qed.

(** What the values of a map weigh together. *)
Section Weigh.
Context {A : Type} (weight : A -> nat).

Definition weigh (m : gmap nat A) : nat := map_fold (fun _ x n => (weight x + n)%nat) O m.

Lemma weigh_empty : weigh ∅ = 0%nat.
Proof. apply map_fold_empty. Qed.

Lemma weigh_insert (m : gmap nat A) (id : nat) (x : A) :
  m !! id = None -> weigh (<[id := x]> m) = (weight x + weigh m)%nat.
Proof. intros H. unfold weigh. rewrite map_fold_insert_L; [done| |done]. intros. lia. Qed.

Lemma weigh_delete (m : gmap nat A) (id : nat) (x : A) :
  m !! id = Some x -> weigh m = (weight x + weigh (delete id m))%nat.
Proof.
  intros H. rewrite <- (insert_delete_id m id x H) at 1. apply weigh_insert. apply lookup_delete_eq.
Qed.

Lemma weigh_update (m : gmap nat A) (id : nat) (x y : A) :
  m !! id = Some x -> (weigh (<[id := y]> m) + weight x = weigh m + weight y)%nat.
Proof.
  intros H. rewrite (weigh_delete m id x H), <- insert_delete_eq.
  rewrite weigh_insert by apply lookup_delete_eq. lia.
Qed.

Lemma weigh_none (m : gmap nat A) :
  weigh m = 0%nat <-> forall id x, m !! id = Some x -> weight x = 0%nat.
Proof.
  split.
  - intros E id x H. rewrite (weigh_delete m id x H) in E. lia.
  - induction m as [|id x m Hid IH] using map_ind; intros H; [apply weigh_empty|].
    rewrite weigh_insert by done. rewrite (H id x), IH; [done| |apply lookup_insert_eq].
    intros j y Hj. apply (H j y). rewrite lookup_insert_ne; [done|]. congruence.
Qed.
End Weigh.
