(* ===== verification/Rust.v ===== *)
(** * The parts of Rust's standard library the proxy uses

    Byte strings ([str] and [[u8]] methods), decimal integers, UTF-8
    validation, and [std::time::Duration] with its panicking arithmetic. None
    of this is the proxy's own code: every definition states what the standard
    library documents. *)

From S2P Require Import Prelude.

(** ** Bytes *)

Definition byte_in (lo hi : Z) (c : ascii) : bool := (lo <=? code c) && (code c <=? hi).

Definition is_ascii_digit (c : ascii) : bool := byte_in 48 57 c.
Definition is_ascii_lowercase (c : ascii) : bool := byte_in 97 122 c.
Definition is_ascii_uppercase (c : ascii) : bool := byte_in 65 90 c.
Definition is_ascii_alphanumeric (c : ascii) : bool :=
  is_ascii_digit c || is_ascii_lowercase c || is_ascii_uppercase c.
Definition is_ascii_hexdigit (c : ascii) : bool :=
  is_ascii_digit c || byte_in 97 102 c || byte_in 65 70 c.
(** [u8::is_ascii_whitespace]: space, tab, line feed, form feed, return. *)
Definition is_ascii_whitespace (c : ascii) : bool :=
  (code c =? 32) || (code c =? 9) || (code c =? 10) || (code c =? 12) || (code c =? 13).

Definition of_code (n : Z) : ascii := ascii_of_N (Z.to_N n).

Definition byte_lower (c : ascii) : ascii :=
  if is_ascii_uppercase c then of_code (code c + 32) else c.
Definition byte_upper (c : ascii) : ascii :=
  if is_ascii_lowercase c then of_code (code c - 32) else c.

Definition to_ascii_lowercase (s : text) : text := byte_lower <$> s.
Definition to_ascii_uppercase (s : text) : text := byte_upper <$> s.
Definition eq_ignore_ascii_case (a b : text) : bool :=
  (to_ascii_lowercase a =?t to_ascii_lowercase b)%text.

(** ** Searching and splitting *)

Fixpoint strip_prefix (p s : text) : option text :=
  match p, s with
  | [], _ => Some s
  | a :: p', b :: s' => if decide (a = b) then strip_prefix p' s' else None
  | _ :: _, [] => None
  end.

Definition strip_suffix (p s : text) : option text :=
  reverse <$> strip_prefix (reverse p) (reverse s).

Definition starts_with (p s : text) : bool := bool_decide (is_Some (strip_prefix p s)).
Definition ends_with (p s : text) : bool := bool_decide (is_Some (strip_suffix p s)).

Definition contains_byte (c : ascii) (s : text) : bool := bool_decide (c ∈ s).

(** [str::split_once]: around the first [c]. *)
Fixpoint split_once (c : ascii) (s : text) : option (text * text) :=
  match s with
  | [] => None
  | a :: s' =>
      if decide (a = c) then Some ([], s')
      else '(l, r) ← split_once c s'; Some (a :: l, r)
  end.

(** [str::split]: the pieces between the [c]s, never an empty list. *)
Fixpoint split (c : ascii) (s : text) : list text :=
  match s with
  | [] => [[]]
  | a :: s' =>
      if decide (a = c) then [] :: split c s'
      else match split c s' with
           | piece :: rest => (a :: piece) :: rest
           | [] => [[a]]
           end
  end.

(** [str::split] at a separator of two bytes. *)
Fixpoint split_pair (a b : ascii) (s : text) : list text :=
  match s with
  | [] => [[]]
  | x :: s' =>
      let go := match split_pair a b s' with
                | piece :: rest => (x :: piece) :: rest
                | [] => [[x]]
                end in
      match s' with
      | y :: s'' => if decide (x = a /\ y = b) then [] :: split_pair a b s'' else go
      | [] => go
      end
  end.

(** [[T]::join]. *)
Fixpoint join (sep : text) (l : list text) : text :=
  match l with
  | [] => []
  | [x] => x
  | x :: l' => x ++ sep ++ join sep l'
  end.

(** ** Trimming

    [str::trim] removes the characters of Unicode's White_Space property, here
    by their UTF-8 encodings of one, two or three bytes. *)

Definition ws1 (a : ascii) : bool := byte_in 9 13 a || (code a =? 32).
Definition ws2 (a b : ascii) : bool :=
  (code a =? 194) && ((code b =? 133) || (code b =? 160)).
Definition ws3 (a b c : ascii) : bool :=
  ((code a =? 225) && (code b =? 154) && (code c =? 128)) ||
  ((code a =? 226) && (code b =? 128) &&
     (byte_in 128 138 c || (code c =? 168) || (code c =? 169) || (code c =? 175))) ||
  ((code a =? 226) && (code b =? 129) && (code c =? 159)) ||
  ((code a =? 227) && (code b =? 128) && (code c =? 128)).

Fixpoint trim_start (s : text) : text :=
  match s with
  | [] => []
  | a :: s1 =>
      if ws1 a then trim_start s1 else
      match s1 with
      | [] => s
      | b :: s2 =>
          if ws2 a b then trim_start s2 else
          match s2 with
          | [] => s
          | c :: s3 => if ws3 a b c then trim_start s3 else s
          end
      end
  end.

(** The same from the end, on the reversed bytes. *)
Fixpoint trim_start_rev (s : text) : text :=
  match s with
  | [] => []
  | a :: s1 =>
      if ws1 a then trim_start_rev s1 else
      match s1 with
      | [] => s
      | b :: s2 =>
          if ws2 b a then trim_start_rev s2 else
          match s2 with
          | [] => s
          | c :: s3 => if ws3 c b a then trim_start_rev s3 else s
          end
      end
  end.

Definition trim (s : text) : text := reverse (trim_start_rev (reverse (trim_start s))).

Fixpoint drop_while {A} (p : A -> bool) (l : list A) : list A :=
  match l with
  | [] => []
  | x :: l' => if p x then drop_while p l' else l
  end.

(** [[u8]::trim_ascii]. *)
Definition trim_ascii (s : text) : text :=
  reverse (drop_while is_ascii_whitespace (reverse (drop_while is_ascii_whitespace s))).

(** ** Unsigned decimal integers: [FromStr] and [Display] *)

Definition digit_value (c : ascii) : option Z :=
  if is_ascii_digit c then Some (code c - 48) else None.

Fixpoint parse_digits (max acc : Z) (s : text) : option Z :=
  match s with
  | [] => Some acc
  | c :: s' =>
      d ← digit_value c;
      let v := acc * 10 + d in
      if max <? v then None else parse_digits max v s'
  end.

(** [str::parse] to an unsigned integer of maximum [max]: an optional [+],
    then one digit or more, without overflow. *)
Definition parse_uint (max : Z) (s : text) : option Z :=
  match s with
  | [] => None
  | c :: r =>
      if decide (c = ch "+") then match r with [] => None | _ => parse_digits max 0 r end
      else parse_digits max 0 s
  end.

Definition parse_u64 : text -> option Z := parse_uint U64_MAX.

Definition digit_char (d : Z) : ascii := of_code (48 + d).

(** The decimal digits of [n], least significant first put in front of [acc].
    [fuel] bounds their number: 20 digits hold every [u64]. *)
Fixpoint show_digits (fuel : nat) (n : Z) (acc : text) : text :=
  match fuel with
  | O => acc
  | S fuel' =>
      let acc' := digit_char (n mod 10) :: acc in
      if n <? 10 then acc' else show_digits fuel' (n / 10) acc'
  end.

Definition show_u64 (n : Z) : text := show_digits 20 n [].

(** ** UTF-8: [std::str::from_utf8] *)

Definition continuation (c : ascii) : bool := byte_in 128 191 c.

Fixpoint utf8_valid (s : text) : bool :=
  match s with
  | [] => true
  | a :: s1 =>
      if code a <? 128 then utf8_valid s1 else
      match s1 with
      | [] => false
      | b :: s2 =>
          if byte_in 194 223 a then continuation b && utf8_valid s2 else
          match s2 with
          | [] => false
          | c :: s3 =>
              if byte_in 224 239 a then
                (if code a =? 224 then byte_in 160 191 b
                 else if code a =? 237 then byte_in 128 159 b
                 else continuation b) && continuation c && utf8_valid s3
              else
              match s3 with
              | [] => false
              | d :: s4 =>
                  byte_in 240 244 a &&
                  (if code a =? 240 then byte_in 144 191 b
                   else if code a =? 244 then byte_in 128 143 b
                   else continuation b) && continuation c && continuation d && utf8_valid s4
              end
          end
      end
  end.

(** [String::from_utf8_lossy]: each maximal ill-formed prefix becomes U+FFFD. *)
Definition REPLACEMENT : text := [of_code 239; of_code 191; of_code 189].

Definition second3 (a b : ascii) : bool :=
  if code a =? 224 then byte_in 160 191 b
  else if code a =? 237 then byte_in 128 159 b
  else continuation b.

Definition second4 (a b : ascii) : bool :=
  if code a =? 240 then byte_in 144 191 b
  else if code a =? 244 then byte_in 128 143 b
  else continuation b.

Fixpoint utf8_lossy (s : text) : text :=
  match s with
  | [] => []
  | a :: s1 =>
      if code a <? 128 then a :: utf8_lossy s1
      else if byte_in 194 223 a then
        match s1 with
        | b :: s2 => if continuation b then a :: b :: utf8_lossy s2 else REPLACEMENT ++ utf8_lossy s1
        | [] => REPLACEMENT
        end
      else if byte_in 224 239 a then
        match s1 with
        | b :: s2 =>
            if second3 a b then
              match s2 with
              | c :: s3 => if continuation c then a :: b :: c :: utf8_lossy s3
                           else REPLACEMENT ++ utf8_lossy s2
              | [] => REPLACEMENT
              end
            else REPLACEMENT ++ utf8_lossy s1
        | [] => REPLACEMENT
        end
      else if byte_in 240 244 a then
        match s1 with
        | b :: s2 =>
            if second4 a b then
              match s2 with
              | c :: s3 =>
                  if continuation c then
                    match s3 with
                    | d :: s4 => if continuation d then a :: b :: c :: d :: utf8_lossy s4
                                 else REPLACEMENT ++ utf8_lossy s3
                    | [] => REPLACEMENT
                    end
                  else REPLACEMENT ++ utf8_lossy s2
              | [] => REPLACEMENT
              end
            else REPLACEMENT ++ utf8_lossy s1
        | [] => REPLACEMENT
        end
      else REPLACEMENT ++ utf8_lossy s1
  end.

(** ** Durations

    A [Duration] is its nanosecond count, from 0 to [DUR_MAX]. Operations that
    panic out of that range return [None]. *)

Definition NANOS_PER_SEC : Z := 1000000000.
Definition DUR_MAX : Z := U64_MAX * NANOS_PER_SEC + 999999999.

Definition is_duration (d : Z) : Prop := 0 <= d <= DUR_MAX.

Definition dur_add (a b : Z) : option Z := if a + b <=? DUR_MAX then Some (a + b) else None.
Definition dur_sub (a b : Z) : option Z := if b <=? a then Some (a - b) else None.
Definition dur_mul (a : Z) (n : Z) : option Z := if a * n <=? DUR_MAX then Some (a * n) else None.
Definition dur_saturating_sub (a b : Z) : Z := Z.max 0 (a - b).

Definition as_secs (d : Z) : Z := d / NANOS_PER_SEC.
Definition subsec_nanos (d : Z) : Z := d mod NANOS_PER_SEC.
Definition as_millis (d : Z) : Z := d / 1000000.
Definition from_secs (s : Z) : Z := s * NANOS_PER_SEC.
Definition from_millis (ms : Z) : Z := ms * 1000000.
Definition from_micros (us : Z) : Z := us * 1000.
(** [Duration / u32], rounding down; the divisors of the source are not 0. *)
Definition dur_div (d n : Z) : Z := d / n.

(** ** Lemmas *)

Lemma code_range (c : ascii) : 0 <= code c < 256.
Proof. unfold code. byte_cases c; vm_compute; split; congruence. Qed.

Lemma code_of_code (n : Z) : 0 <= n < 256 -> code (of_code n) = n.
Proof.
  intros. unfold code, of_code. rewrite N_ascii_embedding by lia. lia.
Qed.

Lemma digit_value_char (d : Z) : 0 <= d < 10 -> digit_value (digit_char d) = Some d.
Proof.
  intros. unfold digit_value, digit_char, is_ascii_digit, byte_in.
  rewrite code_of_code by lia.
  replace (48 <=? 48 + d) with true by lia. replace (48 + d <=? 57) with true by lia.
  simpl. f_equal. lia.
Qed.

Lemma digit_value_range (c : ascii) (d : Z) : digit_value c = Some d -> 0 <= d < 10.
Proof.
  unfold digit_value, is_ascii_digit, byte_in. case_match; [|done].
  intros [= <-]. bool_simpl. lia.
Qed.

Lemma show_digits_parse (max : Z) (fuel : nat) (n : Z) (acc : text) :
  0 <= n < 10 ^ Z.of_nat fuel -> (0 < fuel)%nat ->
  exists k, 0 < k /\ forall a, 0 <= a -> a * 10 ^ k + n <= max ->
  parse_digits max a (show_digits fuel n acc) = parse_digits max (a * 10 ^ k + n) acc.
Proof.
  revert n acc. induction fuel as [|fuel IH]; intros n acc Hn Hf; [lia|].
  cbn [show_digits]. destruct (n <? 10) eqn:Hlt; bool_simpl.
  - exists 1. split; [lia|]. intros a Ha Hmax.
    cbn [parse_digits]. rewrite Z.mod_small by lia. rewrite digit_value_char by lia.
    cbn. rewrite Z.pow_1_r in *. destruct (max <? a * 10 + n) eqn:E; bool_simpl; [lia|done].
  - rewrite Nat2Z.inj_succ, Z.pow_succ_r in Hn by lia.
    assert (0 < fuel)%nat by (destruct fuel; [cbn in Hn; lia|lia]).
    destruct (IH (n / 10) (digit_char (n mod 10) :: acc)) as (k & Hk & Heq); [|done|].
    { split; [apply Z.div_pos; lia|]. apply Z.div_lt_upper_bound; lia. }
    exists (k + 1). split; [lia|]. intros a Ha Hmax.
    pose proof (Z.div_mod n 10 ltac:(lia)) as Hdm.
    pose proof (Z.mod_pos_bound n 10 ltac:(lia)).
    rewrite Z.pow_add_r, Z.pow_1_r in * by lia.
    rewrite Heq by lia. cbn [parse_digits]. rewrite digit_value_char by lia. cbn.
    replace ((a * 10 ^ k + n / 10) * 10 + n mod 10) with (a * (10 ^ k * 10) + n) by lia.
    destruct (max <? _) eqn:E; bool_simpl; [lia|done].
Qed.

Lemma show_digits_nonnil (fuel : nat) (n : Z) (acc : text) :
  (0 < fuel)%nat -> exists c r, show_digits fuel n acc = c :: r.
Proof.
  revert n acc. induction fuel as [|fuel IH]; intros n acc Hf; [lia|].
  cbn [show_digits]. destruct (n <? 10); [eauto|].
  destruct fuel; [cbn; eauto|]. apply IH. lia.
Qed.

Lemma show_digits_all_digits (fuel : nat) (n : Z) (acc : text) :
  0 <= n -> Forall (fun c => is_ascii_digit c = true) acc ->
  Forall (fun c => is_ascii_digit c = true) (show_digits fuel n acc).
Proof.
  revert n acc. induction fuel as [|fuel IH]; intros n acc Hn Hacc; [done|].
  cbn [show_digits].
  assert (is_ascii_digit (digit_char (n mod 10)) = true) as Hd.
  { pose proof (Z.mod_pos_bound n 10 ltac:(lia)) as Hb.
    pose proof (digit_value_char _ Hb) as Hv. unfold digit_value in Hv.
    by destruct (is_ascii_digit _). }
  destruct (n <? 10); [by constructor|].
  apply IH; [apply Z.div_pos; lia|]. by constructor.
Qed.

(** [Display] then [FromStr] of a [u64] is the identity. *)
Lemma parse_show_u64 (n : Z) : in_u64 n -> parse_u64 (show_u64 n) = Some n.
Proof.
  intros [H0 H1]. unfold parse_u64, parse_uint, show_u64.
  assert (0 <= n < 10 ^ Z.of_nat 20) by (unfold U64_MAX in *; lia).
  destruct (show_digits_nonnil 20 n []) as (c & r & E); [lia|].
  destruct (show_digits_parse U64_MAX 20 n []) as (k & Hk & Heq); [done|lia|].
  specialize (Heq 0 ltac:(lia) ltac:(lia)).
  rewrite E in *. destruct (decide (c = ch "+")) as [->|_]; [|exact Heq].
  pose proof (show_digits_all_digits 20 n [] ltac:(lia) ltac:(constructor)) as HF.
  rewrite E in HF. inversion HF as [|? ? Hc]. by vm_compute in Hc.
Qed.

Lemma strip_prefix_Some (p s r : text) : strip_prefix p s = Some r <-> s = p ++ r.
Proof.
  revert s. induction p as [|a p IH]; intros s; simpl.
  { split; congruence. }
  destruct s as [|b s]; simpl; [done|].
  destruct (decide (a = b)) as [->|Hne].
  - rewrite IH. split; congruence.
  - split; [done|]. intros [= -> _]. done.
Qed.

Lemma strip_suffix_Some (p s r : text) : strip_suffix p s = Some r <-> s = r ++ p.
Proof.
  unfold strip_suffix. rewrite fmap_Some. split.
  - intros (x & Hx%strip_prefix_Some & ->).
    rewrite <- (reverse_involutive s), Hx, reverse_app, reverse_involutive. done.
  - intros ->. exists (reverse r). rewrite strip_prefix_Some, reverse_app, reverse_involutive. done.
Qed.

Lemma starts_with_true (p s : text) : starts_with p s = true <-> exists r, s = p ++ r.
Proof.
  unfold starts_with. rewrite bool_decide_eq_true. split.
  - intros [r Hr%strip_prefix_Some]. eauto.
  - intros [r Hr]. exists r. by apply strip_prefix_Some.
Qed.

Lemma ends_with_true (p s : text) : ends_with p s = true <-> exists r, s = r ++ p.
Proof.
  unfold ends_with. rewrite bool_decide_eq_true. split.
  - intros [r Hr%strip_suffix_Some]. eauto.
  - intros [r Hr]. exists r. by apply strip_suffix_Some.
Qed.

Lemma split_once_Some (c : ascii) (s l r : text) :
  split_once c s = Some (l, r) <-> s = l ++ c :: r /\ c ∉ l.
Proof.
  revert l. induction s as [|a s IH]; intros l; simpl.
  { split; [done|]. intros [H _]. by destruct l. }
  destruct (decide (a = c)) as [->|Hne].
  - split; [intros [= <- <-]; split; [done|apply not_elem_of_nil]|].
    intros [H Hl]. destruct l as [|b l]; simpl in H; [congruence|].
    inversion H; subst. destruct Hl. left.
  - destruct (split_once c s) as [[l' r']|] eqn:E; simpl.
    + split.
      * intros [= <- <-]. destruct (proj1 (IH l')) as [-> Hl]; [by f_equal|].
        split; [done|]. rewrite not_elem_of_cons. auto.
      * intros [H Hl]. destruct l as [|b l]; simpl in H; [congruence|].
        injection H as -> Hs. apply not_elem_of_cons in Hl as [_ Hl].
        pose proof (proj2 (IH l) (conj Hs Hl)) as [= -> ->]. done.
    + split; [done|]. intros [H Hl]. destruct l as [|b l]; simpl in H; [congruence|].
      injection H as -> Hs. apply not_elem_of_cons in Hl as [_ Hl].
      by pose proof (proj2 (IH l) (conj Hs Hl)).
Qed.

Lemma split_once_None (c : ascii) (s : text) : split_once c s = None <-> c ∉ s.
Proof.
  induction s as [|a s IH]; simpl; [by split; [intros _; apply not_elem_of_nil|]|].
  rewrite not_elem_of_cons. destruct (decide (a = c)) as [->|Hne].
  - split; [done|]. by intros [[] _].
  - destruct (split_once c s) as [[]|]; simpl; rewrite <- IH; split; try done; by intros [_ ?].
Qed.

Lemma split_nonnil (c : ascii) (s : text) : split c s <> [].
Proof. destruct s as [|a s]; simpl; [done|]. repeat case_match; done. Qed.

Lemma split_cons_sep (c : ascii) (l r : text) :
  c ∉ l -> split c (l ++ c :: r) = l :: split c r.
Proof.
  induction l as [|a l IH]; simpl; intros Hl.
  - by rewrite decide_True.
  - rewrite not_elem_of_cons in Hl. destruct Hl as [Hne Hl].
    rewrite decide_False by congruence. by rewrite IH.
Qed.

Lemma split_no_sep (c : ascii) (s : text) : c ∉ s -> split c s = [s].
Proof.
  induction s as [|a s IH]; simpl; intros Hs; [done|].
  rewrite not_elem_of_cons in Hs. destruct Hs as [Hne Hs].
  rewrite decide_False by congruence. by rewrite IH.
Qed.

(** [split] is read off [split_once], as the loops of the source do it. *)
Lemma split_step (c : ascii) (s : text) :
  split c s = match split_once c s with
              | Some (l, r) => l :: split c r
              | None => [s]
              end.
Proof.
  destruct (split_once c s) as [[l r]|] eqn:E.
  - apply split_once_Some in E as [-> Hl]. by apply split_cons_sep.
  - apply split_once_None in E. by apply split_no_sep.
Qed.

Lemma split_pieces_no_sep (c : ascii) (s : text) : Forall (fun p => c ∉ p) (split c s).
Proof.
  induction s as [|a s IH]; simpl.
  { constructor; [apply not_elem_of_nil|constructor]. }
  destruct (decide (a = c)) as [->|Hne].
  - constructor; [apply not_elem_of_nil|done].
  - destruct (split c s) as [|p l].
    + repeat constructor. rewrite not_elem_of_cons. split; [done|apply not_elem_of_nil].
    + inversion IH; subst. constructor; [|done]. rewrite not_elem_of_cons. split; [congruence|done].
Qed.

Lemma join_split (c : ascii) (s : text) : join [c] (split c s) = s.
Proof.
  induction s as [|a s IH]; simpl; [done|].
  destruct (decide (a = c)) as [->|Hne].
  - destruct (split c s) as [|p l] eqn:E; [by destruct (split_nonnil c s)|].
    simpl in *. by rewrite IH.
  - destruct (split c s) as [|p l] eqn:E; [by destruct (split_nonnil c s)|].
    destruct l; simpl in *; congruence.
Qed.

Lemma split_join (c : ascii) (l : list text) :
  l <> [] -> Forall (fun p => c ∉ p) l -> split c (join [c] l) = l.
Proof.
  induction l as [|p l IH]; intros Hl HF; [done|]. inversion HF; subst. destruct l as [|q l].
  - cbn. by apply split_no_sep.
  - change (join [c] (p :: q :: l)) with (p ++ [c] ++ join [c] (q :: l)). cbn [app].
    rewrite split_cons_sep by done. by rewrite IH.
Qed.

(** Trimming keeps a part of the text. *)
Ltac trim_cases IH :=
  repeat match goal with
  | |- context [if ?b then _ else _] => destruct b
  | |- context [match ?l with [] => _ | _ => _ end] => is_var l; destruct l
  end; try reflexivity; repeat apply suffix_cons_r; apply IH.

Lemma trim_start_suffix (s : text) : trim_start s `suffix_of` s.
Proof. revert s. fix IH 1. intros [|a s1]; [done|]. cbn [trim_start]. trim_cases IH. Qed.

Lemma trim_start_rev_suffix (s : text) : trim_start_rev s `suffix_of` s.
Proof. revert s. fix IH 1. intros [|a s1]; [done|]. cbn [trim_start_rev]. trim_cases IH. Qed.

Lemma elem_of_trim (s : text) (c : ascii) : c ∈ trim s -> c ∈ s.
Proof.
  unfold trim. rewrite elem_of_reverse. intros Hc.
  destruct (trim_start_rev_suffix (reverse (trim_start s))) as [p Hp].
  assert (c ∈ reverse (trim_start s)) as H by (rewrite Hp; apply elem_of_app; by right).
  rewrite elem_of_reverse in H. destruct (trim_start_suffix s) as [q ->]. apply elem_of_app. by right.
Qed.

Lemma dur_add_Some (a b : Z) : a + b <= DUR_MAX -> dur_add a b = Some (a + b).
Proof. intros. unfold dur_add. by destruct (Z.leb_spec (a + b) DUR_MAX); [|lia]. Qed.

Lemma dur_sub_Some (a b : Z) : b <= a -> dur_sub a b = Some (a - b).
Proof. intros. unfold dur_sub. by destruct (Z.leb_spec b a); [|lia]. Qed.

Lemma dur_mul_Some (a n : Z) : a * n <= DUR_MAX -> dur_mul a n = Some (a * n).
Proof. intros. unfold dur_mul. by destruct (Z.leb_spec (a * n) DUR_MAX); [|lia]. Qed.

#[export] Hint Resolve dur_add_Some dur_sub_Some dur_mul_Some code_range split_nonnil : proxy.
