(* ===== verification/Json.v ===== *)
(** * JSON values and claim paths

    [serde_json::Value] as the proxy reads it, and the claim lookups of
    [src/auth/mod.rs], [src/auth/cache.rs] and [src/shield/resolve.rs]. *)

From S2P Require Import Prelude Rust.
From Stdlib Require Import Floats.SpecFloat.

(** A JSON number: [serde_json] keeps unsigned, negative and floating-point
    numbers apart. An [f64] is its IEEE 754 value. *)
Inductive Number : Type :=
| PosInt (n : Z)
| NegInt (n : Z)
| Float (f : spec_float).

Inductive Value : Type :=
| Null
| Bool (b : bool)
| Num (n : Number)
| Str (s : text)
| Array (l : list Value)
| Object (members : list (text * Value)).

(** Induction through the members of objects. *)
Lemma value_members_ind (P : Value -> Prop) :
  (forall v, (forall members, v <> Object members) -> P v) ->
  (forall members, Forall (fun m => P m.2) members -> P (Object members)) -> forall v, P v.
Proof.
  intros Hv Ho. fix IH 1. intros [| | | | |members]; try by apply Hv. apply Ho.
  induction members as [|[k v] members IHm]; constructor; [apply IH|exact IHm].
Qed.

Fixpoint assoc {A} (key : text) (l : list (text * A)) : option A :=
  match l with
  | [] => None
  | (k, v) :: l' => if decide (k = key) then Some v else assoc key l'
  end.

(** [Value::get] with a string: a member of an object. *)
Definition value_get (v : Value) (key : text) : option Value :=
  match v with Object members => assoc key members | _ => None end.

Definition as_u64 (v : Value) : option Z :=
  match v with Num (PosInt n) => Some n | _ => None end.

(** An integer as the nearest [f64]. *)
Definition f64_of_Z (n : Z) : spec_float := binary_normalize 53 1024 n 0 false.

Definition as_f64 (v : Value) : option spec_float :=
  match v with
  | Num (PosInt n) | Num (NegInt n) => Some (f64_of_Z n)
  | Num (Float f) => Some f
  | _ => None
  end.

Definition as_str (v : Value) : option text :=
  match v with Str s => Some s | _ => None end.

Definition as_array (v : Value) : option (list Value) :=
  match v with Array l => Some l | _ => None end.

(** [f as u64] for a finite [f] in [[0, 2^64)]; [None] for the values the
    callers rule out first ([!(f.is_finite() && f >= 0.0 && f < u64::MAX as f64)]). *)
Definition f64_to_u64 (f : spec_float) : option Z :=
  match f with
  | S754_zero _ => Some 0
  | S754_finite false m e =>
      let n := if 0 <=? e then Z.pos m * 2 ^ e else Z.pos m / 2 ^ (- e) in
      if n <=? U64_MAX then Some n else None
  | _ => None
  end.

(** ** Claims *)

(** The value at a (possibly dotted) claim path. *)
Fixpoint claim_walk (cur : Value) (segs : list text) : option Value :=
  match segs with
  | [] => Some cur
  | seg :: segs' => let! next := value_get cur seg in claim_walk next segs'
  end.

Definition claim_at (claims : Value) (path : text) : option Value :=
  claim_walk claims (split (ch ".") path).

(** A JWT NumericDate claim as whole seconds. *)
Definition numeric_date (claims : Value) (name : text) : option Z :=
  let! value := value_get claims name in
  match as_u64 value with
  | Some secs => Some secs
  | None => let! secs := as_f64 value in f64_to_u64 secs
  end.

Definition bool_text (b : bool) : text := if b then txt "true" else txt "false".

(** [Number::to_string]: integers in decimal; [float_text] prints a float. *)
Definition number_text (float_text : spec_float -> text) (n : Number) : text :=
  match n with
  | PosInt n => show_u64 n
  | NegInt n => ch "-" :: show_u64 (- n)
  | Float f => float_text f
  end.

(** A scalar claim as a string ([claim_str]; the claim headers of [auth]
    render the same way). *)
Definition scalar_text (float_text : spec_float -> text) (v : Value) : option text :=
  match v with
  | Str s => Some s
  | Num n => Some (number_text float_text n)
  | Bool b => Some (bool_text b)
  | _ => None
  end.

Definition claim_str (float_text : spec_float -> text) (claims : Value) (path : text)
  : option text :=
  let! v := claim_at claims path in scalar_text float_text v.

Definition claim_u64 (claims : Value) (path : text) : option Z :=
  let! v := claim_at claims path in
  match v with
  | Num (PosInt n) => Some n
  | Str s => parse_u64 (trim s)
  | _ => None
  end.

(** Every number of the value is one [serde_json] holds. *)
Definition wf_number (n : Number) : Prop :=
  match n with
  | PosInt n => in_u64 n
  | NegInt n => - 9223372036854775808 <= n < 0
  | Float _ => True
  end.

Example numeric_date_float :
  numeric_date (Object [(txt "exp", Num (Float (binary_normalize 53 1024 7 (-1) false)))])
    (txt "exp") = Some 3.
Proof. reflexivity. Qed.

Example numeric_date_negative :
  numeric_date (Object [(txt "exp", Num (NegInt (-5)))]) (txt "exp") = None.
Proof. reflexivity. Qed.

Example claim_dotted :
  claim_at (Object [(txt "a", Object [(txt "b", Bool true)])]) (txt "a.b") = Some (Bool true).
Proof. reflexivity. Qed.
