(* ===== verification/Http.v ===== *)
(** * The [http] crate, as an interface

    Header maps, header names and header values are a third-party crate's. The
    development is written against this interface and its laws, which state the
    crate's documentation; [Model] is an implementation the witnesses run on. *)

From S2P Require Import Prelude Rust Json.

(** Names are lower-case texts, as [HeaderName] normalizes them; values are
    bytes. [hm_get_all] gives the values of a name in order; [hm_entries] is the
    order of iteration, each name once with all its values. *)
Class HttpLib : Type := {
  HeaderMap : Type;
  hm_empty : HeaderMap;
  hm_get_all : HeaderMap -> text -> list text;
  hm_insert : HeaderMap -> text -> text -> HeaderMap;
  hm_append : HeaderMap -> text -> text -> HeaderMap;
  hm_remove : HeaderMap -> text -> HeaderMap;
  hm_entries : HeaderMap -> list (text * list text);
  (** [HeaderName::from_bytes]. *)
  header_name : text -> option text;
  (** [HeaderValue::to_str]. *)
  value_str : text -> option text;
  (** [Method::from_bytes]. *)
  method_of : text -> option text;
}.

Class HttpLaws (L : HttpLib) : Prop := {
  get_all_empty n : hm_get_all hm_empty n = [];
  get_all_insert m n n' v :
    hm_get_all (hm_insert m n v) n' = if decide (n = n') then [v] else hm_get_all m n';
  get_all_append m n n' v :
    hm_get_all (hm_append m n v) n' =
    if decide (n = n') then hm_get_all m n' ++ [v] else hm_get_all m n';
  get_all_remove m n n' :
    hm_get_all (hm_remove m n) n' = if decide (n = n') then [] else hm_get_all m n';
  entries_lookup m n vs : (n, vs) ∈ hm_entries m <-> hm_get_all m n = vs /\ vs <> [];
  entries_nodup m : NoDup (hm_entries m).*1;
  header_name_lower s n : header_name s = Some n -> n = to_ascii_lowercase s;
  value_str_same v s : value_str v = Some s -> s = v;
  value_str_visible v :
    Forall (fun c => byte_in 32 126 c = true \/ code c = 9) v -> value_str v = Some v;
  value_str_ascii v s :
    value_str v = Some s -> Forall (fun c => byte_in 32 126 c = true \/ code c = 9) s;
  method_of_same s m : method_of s = Some m -> m = s;
}.

Section Derived.
Context {L : HttpLib}.

(** [HeaderMap::get], [contains_key]. *)
Definition hm_get (m : HeaderMap) (n : text) : option text := head (hm_get_all m n).
Definition hm_contains (m : HeaderMap) (n : text) : bool :=
  match hm_get_all m n with [] => false | _ => true end.

(** [headers.get(name).and_then(|v| v.to_str().ok())]. *)
Definition hm_get_str (m : HeaderMap) (n : text) : option text :=
  let! v := hm_get m n in value_str v.

(** [HeaderMap::into_iter]: a name comes with the first of its values only. *)
Definition key_items (name : text) (values : list text) : list (option text * text) :=
  match values with [] => [] | v :: vs => (Some name, v) :: (pair None <$> vs) end.

Definition into_iter (m : HeaderMap) : list (option text * text) :=
  mjoin ((fun kv => key_items kv.1 kv.2) <$> hm_entries m).

Context {LL : HttpLaws L}.

Lemma get_insert_eq (m : HeaderMap) (n v : text) : hm_get (hm_insert m n v) n = Some v.
Proof. unfold hm_get. rewrite get_all_insert. by rewrite decide_True. Qed.

Lemma get_insert_ne (m : HeaderMap) (n n' v : text) :
  n <> n' -> hm_get (hm_insert m n v) n' = hm_get m n'.
Proof. intros. unfold hm_get. rewrite get_all_insert. by rewrite decide_False. Qed.

Lemma get_remove_eq (m : HeaderMap) (n : text) : hm_get (hm_remove m n) n = None.
Proof. unfold hm_get. rewrite get_all_remove. by rewrite decide_True. Qed.

Lemma get_remove_ne (m : HeaderMap) (n n' : text) :
  n <> n' -> hm_get (hm_remove m n) n' = hm_get m n'.
Proof. intros. unfold hm_get. rewrite get_all_remove. by rewrite decide_False. Qed.

Lemma value_str_show (n : Z) : 0 <= n -> value_str (show_u64 n) = Some (show_u64 n).
Proof.
  intros Hn. apply value_str_visible. unfold show_u64.
  pose proof (show_digits_all_digits 20 n [] Hn ltac:(constructor)) as H.
  eapply Forall_impl; [exact H|]. intros c Hc. left.
  unfold is_ascii_digit, byte_in in *. bool_simpl. apply andb_true_iff. lia.
Qed.
Lemma assoc_not_in {A} (n : text) (es : list (text * A)) : n ∉ es.*1 -> assoc n es = None.
Proof.
  induction es as [|[k v] es IH]; [done|]. cbn [fmap list_fmap fst assoc]. rewrite not_elem_of_cons.
  intros [Hne Hn]. rewrite decide_False by congruence. by apply IH.
Qed.

Lemma append_all_lookup (h : HeaderMap) (name n : text) (vs : list text) :
  hm_get_all (foldl (fun h v => hm_append h name v) h vs) n =
  hm_get_all h n ++ if decide (name = n) then vs else [].
Proof.
  revert h. induction vs as [|v vs IH]; intros h; cbn [foldl]; [case_decide; by rewrite app_nil_r|].
  rewrite IH, get_all_append. case_decide; [by rewrite <- app_assoc|done].
Qed.

Lemma assoc_entries (h : HeaderMap) (n : text) : default [] (assoc n (hm_entries h)) = hm_get_all h n.
Proof.
  pose proof (entries_nodup h) as Hd. pose proof (entries_lookup h n) as Hl.
  destruct (assoc n (hm_entries h)) as [vs|] eqn:E; cbn.
  - assert (Hin : (n, vs) ∈ hm_entries h).
    { clear -E. induction (hm_entries h) as [|[k v] es IH]; [done|]. cbn in E. case_decide; simplify_eq.
      - by left.
      - right. by apply IH. }
    symmetry. by apply Hl.
  - destruct (hm_get_all h n) as [|v vs] eqn:Eg; [done|]. exfalso.
    assert (Hin : (n, v :: vs) ∈ hm_entries h) by (by apply Hl).
    clear -E Hin. induction (hm_entries h) as [|[k w] es IH]; [by apply elem_of_nil in Hin|].
    cbn in E. case_decide as Hk; [done|]. apply elem_of_cons in Hin as [Heq|Hin]; [congruence|]. by apply IH.
Qed.

(** Writing one name at a time is looking the name up. *)
Lemma fold_entries (put : HeaderMap -> text -> list text -> HeaderMap) (out : text -> list text -> list text -> list text)
  (es : list (text * list text)) (h : HeaderMap) (n : text) :
  (forall h m vs, hm_get_all (put h m vs) n = if decide (m = n) then out n vs (hm_get_all h n) else hm_get_all h n) ->
  NoDup es.*1 ->
  hm_get_all (foldl (fun h kv => put h kv.1 kv.2) h es) n =
  match assoc n es with Some vs => out n vs (hm_get_all h n) | None => hm_get_all h n end.
Proof.
  intros Hput. revert h. induction es as [|[m vs] es IH]; intros h Hd; cbn; [done|].
  inversion Hd as [|? ? Hm Hd']; subst. rewrite IH by done. rewrite Hput. cbn.
  destruct (decide (m = n)) as [->|]; [|done]. by rewrite assoc_not_in.
Qed.

Lemma assoc_entries_cases (h : HeaderMap) (n : text) :
  match assoc n (hm_entries h) with
  | Some vs => hm_get_all h n = vs /\ vs <> []
  | None => hm_get_all h n = []
  end.
Proof.
  pose proof (assoc_entries h n) as H. destruct (assoc n (hm_entries h)) as [vs|] eqn:E; cbn in H; [|done].
  split; [done|]. assert (Hin : (n, vs) ∈ hm_entries h).
  { clear H. induction (hm_entries h) as [|[m ws] es IH]; cbn in E; [done|].
    destruct (decide (m = n)) as [->|]; [injection E as ->; by left|right; auto]. }
  by apply entries_lookup in Hin as [_ ?].
Qed.

Lemma foldl_items {S} (f : S -> option text * text -> S) (es : list (text * list text)) (s : S) :
  foldl f s (mjoin ((fun kv => key_items kv.1 kv.2) <$> es)) =
  foldl (fun s kv => foldl f s (key_items kv.1 kv.2)) s es.
Proof. revert s. induction es as [|kv es IH]; intros s; cbn; [done|]. rewrite foldl_app. apply IH. Qed.

End Derived.

(** Rewriting with the laws, and deciding the comparisons of literal names. *)
Ltac header_simpl :=
  repeat first
    [ rewrite get_all_insert | rewrite get_all_append | rewrite get_all_remove
    | rewrite get_all_empty
    | rewrite decide_True by done | rewrite decide_False by done ].

(** ** A model of the interface *)

Module Model.

Abbreviation hmap := (list (text * list text)).

Fixpoint get_all (m : hmap) (n : text) : list text :=
  match m with
  | [] => []
  | (k, vs) :: m' => if decide (k = n) then vs else get_all m' n
  end.

Definition remove (m : hmap) (n : text) : hmap := filter (fun kv => kv.1 <> n) m.

Definition insert (m : hmap) (n v : text) : hmap := remove m n ++ [(n, [v])].

Definition append (m : hmap) (n v : text) : hmap := remove m n ++ [(n, get_all m n ++ [v])].

(** RFC 9110 tokens. *)
Definition token_byte (c : ascii) : bool :=
  is_ascii_alphanumeric c ||
  bool_decide (c ∈ txt "!#$%&'*+-.^_`|~").

Definition name_of (s : text) : option text :=
  match s with
  | [] => None
  | _ => if forallb token_byte s then Some (to_ascii_lowercase s) else None
  end.

Definition token_of (s : text) : option text :=
  match s with
  | [] => None
  | _ => if forallb token_byte s then Some s else None
  end.

Definition str_of (v : text) : option text :=
  if forallb (fun c => byte_in 32 126 c || (code c =? 9)) v then Some v else None.

(** A header map: each name once, with its values. *)
Record headers := mkHeaders {
  h_map : hmap;
  h_ok : bool_decide (NoDup h_map.*1 /\ Forall (fun kv => kv.2 <> []) h_map) = true;
}.

Lemma get_all_remove_list (m : hmap) (n n' : text) :
  get_all (remove m n) n' = if decide (n = n') then [] else get_all m n'.
Proof.
  unfold remove. induction m as [|[k vs] m IH].
  { cbn. by destruct (decide _). }
  rewrite filter_cons. cbn [fst]. destruct (decide (k <> n)) as [Hk|Hk]; cbn.
  - rewrite IH. destruct (decide (k = n')); [|done]. by destruct (decide (n = n')); [congruence|].
  - apply dec_stable in Hk as ->. rewrite IH. by destruct (decide (n = n')).
Qed.

Lemma get_all_app_list (m m' : hmap) (n : text) :
  n ∉ m.*1 -> get_all (m ++ m') n = get_all m' n.
Proof.
  induction m as [|[k vs] m IH]; cbn; [done|]. rewrite not_elem_of_cons. intros [Hk Hm].
  destruct (decide (k = n)); [congruence|]. by apply IH.
Qed.

Lemma get_all_app_ne (m : hmap) (n n' : text) (vs : list text) :
  n <> n' -> get_all (m ++ [(n, vs)]) n' = get_all m n'.
Proof.
  intros Hne. induction m as [|[k ws] m IH]; cbn; [by destruct (decide (n = n'))|].
  by destruct (decide (k = n')).
Qed.

Lemma remove_notin (m : hmap) (n : text) : n ∉ (remove m n).*1.
Proof.
  unfold remove. intros (kv & -> & Hin)%list_elem_of_fmap.
  apply list_elem_of_filter in Hin as [Hin _]. done.
Qed.

Lemma remove_ok (m : hmap) (n : text) :
  NoDup m.*1 /\ Forall (fun kv => kv.2 <> []) m ->
  NoDup (remove m n).*1 /\ Forall (fun kv => kv.2 <> []) (remove m n).
Proof.
  intros [Hd HF]. split.
  - eapply sublist_NoDup; [exact Hd|]. apply fmap_sublist, sublist_filter.
  - apply Forall_forall. intros kv Hin. apply list_elem_of_filter in Hin as [_ Hin].
    rewrite Forall_forall in HF. by apply HF.
Qed.

Lemma put_ok (m : hmap) (n : text) (vs : list text) :
  vs <> [] -> NoDup m.*1 /\ Forall (fun kv => kv.2 <> []) m ->
  NoDup (remove m n ++ [(n, vs)]).*1 /\ Forall (fun kv => kv.2 <> []) (remove m n ++ [(n, vs)]).
Proof.
  intros Hvs H. destruct (remove_ok m n H) as [Hd HF]. split.
  - rewrite fmap_app. apply NoDup_app. split; [done|]. split.
    + intros x Hx ->%list_elem_of_singleton. by apply (remove_notin m n).
    + cbn. apply NoDup_singleton.
  - apply Forall_app. split; [done|]. by repeat constructor.
Qed.

Lemma unpack (m : headers) :
  NoDup (h_map m).*1 /\ Forall (fun kv => kv.2 <> []) (h_map m).
Proof. destruct m as [m H]. exact (bool_decide_eq_true_1 _ H). Qed.

Program Definition hempty : headers := mkHeaders [] _.
Next Obligation. reflexivity. Qed.

Program Definition hinsert (m : headers) (n v : text) : headers :=
  mkHeaders (insert (h_map m) n v) _.
Next Obligation.
  intros m n v. apply bool_decide_eq_true. apply put_ok; [done|apply unpack].
Qed.

Program Definition happend (m : headers) (n v : text) : headers :=
  mkHeaders (append (h_map m) n v) _.
Next Obligation.
  intros m n v. apply bool_decide_eq_true. apply put_ok; [|apply unpack].
  by destruct (get_all _ _).
Qed.

Program Definition hremove (m : headers) (n : text) : headers :=
  mkHeaders (remove (h_map m) n) _.
Next Obligation.
  intros m n. apply bool_decide_eq_true. apply remove_ok, unpack.
Qed.

#[export] Instance lib : HttpLib := {
  HeaderMap := headers;
  hm_empty := hempty;
  hm_get_all m n := get_all (h_map m) n;
  hm_insert := hinsert;
  hm_append := happend;
  hm_remove := hremove;
  hm_entries := h_map;
  header_name := name_of;
  value_str := str_of;
  method_of := token_of;
}.

Lemma entries_get_all (m : hmap) (n : text) (vs : list text) :
  NoDup m.*1 -> Forall (fun kv => kv.2 <> []) m ->
  (n, vs) ∈ m <-> get_all m n = vs /\ vs <> [].
Proof.
  induction m as [|[k ws] m IH]; cbn; intros Hd HF.
  { split; [intros H; by apply elem_of_nil in H|by intros [<- ?]]. }
  inversion Hd as [|? ? Hk Hd']; subst. inversion HF as [|? ? Hw HF']; subst.
  rewrite elem_of_cons. destruct (decide (k = n)) as [->|Hne].
  - split.
    + intros [[= ->]|Hin]; [done|]. destruct Hk. apply list_elem_of_fmap. by exists (n, vs).
    + intros [-> _]. by left.
  - rewrite <- (IH Hd' HF'). split; [|auto]. intros [[= -> _]|?]; done.
Qed.

#[export] Instance laws : HttpLaws lib.
Proof.
  split; cbn.
  - done.
  - intros m n n' v. unfold insert. destruct (decide (n = n')) as [->|Hne].
    + rewrite get_all_app_list by apply remove_notin. cbn. by rewrite decide_True.
    + rewrite get_all_app_ne, get_all_remove_list by done. by rewrite decide_False.
  - intros m n n' v. unfold append. destruct (decide (n = n')) as [->|Hne].
    + rewrite get_all_app_list by apply remove_notin. cbn. by rewrite decide_True.
    + rewrite get_all_app_ne, get_all_remove_list by done. by rewrite decide_False.
  - intros. apply get_all_remove_list.
  - intros m n vs. destruct (unpack m). by apply entries_get_all.
  - intros m. by destruct (unpack m).
  - intros [|c s] n; cbn [name_of]; [done|]. case_match; congruence.
  - intros v s. unfold str_of. case_match; congruence.
  - intros v H. unfold str_of.
    replace (forallb _ v) with true; [done|]. symmetry. apply forallb_forall.
    intros c Hc. rewrite Forall_forall in H. destruct (H c) as [Hb|Hb]; [by apply list_elem_of_In| |].
    + by rewrite Hb.
    + rewrite Hb. apply orb_true_r.
  - intros v s. unfold str_of. destruct (forallb _ v) eqn:E; [|done]. intros [= <-].
    apply Forall_forall. intros c Hc. rewrite forallb_forall in E.
    specialize (E c ltac:(by apply list_elem_of_In)). apply orb_true_iff in E as [E|E]; [by left|right].
    by apply Z.eqb_eq in E.
  - intros [|c s] n; cbn [token_of]; [done|]. case_match; congruence.
Qed.

End Model.
