(* ===== verification/Net.v ===== *)
(** * IP addresses of the standard library

    [IpAddr] and [SocketAddr] with the parser of [core::net] and the [Display]
    of addresses, and the [ipnet] crate's CIDR ranges as an interface. An IPv4
    address is a 32-bit integer, an IPv6 address a 128-bit one. *)

From S2P Require Import Prelude Rust.

Inductive IpAddr : Type :=
| V4 (n : Z)
| V6 (n : Z).

#[export] Instance IpAddr_eq_dec : EqDecision IpAddr.
Proof. solve_decision. Defined.

Record SocketAddr := mkSocket { sa_ip : IpAddr; sa_port : Z }.

#[export] Instance SocketAddr_eq_dec : EqDecision SocketAddr.
Proof. solve_decision. Defined.

(** [Ipv6Addr::to_ipv4_mapped]: an address of [::ffff:0:0/96]. *)
Definition to_ipv4_mapped (n : Z) : option Z :=
  if n / 2 ^ 32 =? 65535 then Some (n mod 2 ^ 32) else None.

(** [IpAddr::to_canonical]. *)
Definition to_canonical (ip : IpAddr) : IpAddr :=
  match ip with
  | V4 n => V4 n
  | V6 n => match to_ipv4_mapped n with Some m => V4 m | None => V6 n end
  end.

(** ** The parser of [core::net::parser]

    A reader takes the rest of the input and gives what it read and what is
    left, or fails having read nothing. *)

Definition reader (A : Type) : Type := text -> option (A * text).

Definition read_given_char (c : ascii) : reader unit := fun s =>
  match s with a :: s' => if decide (a = c) then Some (tt, s') else None | [] => None end.

(** [char::to_digit] in radix 10 or 16. *)
Definition to_digit (radix : Z) (c : ascii) : option Z :=
  let d := if is_ascii_digit c then Some (code c - 48)
           else if byte_in 97 102 c then Some (code c - 87)
           else if byte_in 65 70 c then Some (code c - 55) else None in
  match d with Some n => if n <? radix then Some n else None | None => None end.

(** The digits at the start of the input: how many, their value, the rest. *)
Fixpoint read_digits (radix : Z) (count acc : Z) (s : text) : Z * Z * text :=
  match s with
  | c :: s' =>
      match to_digit radix c with
      | Some d => read_digits radix (count + 1) (acc * radix + d) s'
      | None => (count, acc, s)
      end
  | [] => (count, acc, s)
  end.

(** [read_number(radix, Some(max_digits), allow_zero_prefix)] of a type of
    maximum [max]. *)
Definition read_number (radix max_digits max : Z) (allow_zero_prefix : bool) : reader Z := fun s =>
  let '(count, value, rest) := read_digits radix 0 0 s in
  if (max_digits <? count) || (count =? 0) ||
     (negb allow_zero_prefix && starts_with (txt "0") s && (1 <? count)) || (max <? value)
  then None else Some (value, rest).

(** [read_number(10, None, true)]: no bound on the digits, only on the value. *)
Definition read_decimal (max : Z) : reader Z := fun s =>
  let '(count, value, rest) := read_digits 10 0 0 s in
  if (count =? 0) || (max <? value) then None else Some (value, rest).

Definition read_separator {A} (sep : ascii) (index : nat) (inner : reader A) : reader A := fun s =>
  match index with
  | O => inner s
  | S _ => let! r := read_given_char sep s in inner r.2
  end.

Definition read_octet (index : nat) : reader Z :=
  read_separator (ch ".") index (read_number 10 3 255 false).

Definition read_ipv4_addr : reader Z := fun s =>
  let! a := read_octet 0 s in
  let! b := read_octet 1 a.2 in
  let! c := read_octet 2 b.2 in
  let! d := read_octet 3 c.2 in
  Some (a.1 * 2 ^ 24 + b.1 * 2 ^ 16 + c.1 * 2 ^ 8 + d.1, d.2).

(** [read_groups]: groups [i] on, [left] of them at most; what was read,
    whether it ended in an IPv4 address, and the rest. *)
Fixpoint read_groups (left i : nat) (s : text) : list Z * bool * text :=
  match left with
  | O => ([], false, s)
  | S left' =>
      let embedded :=
        match left' with
        | O => None
        | S _ => read_separator (ch ":") i read_ipv4_addr s
        end in
      match embedded with
      | Some (v4, rest) => ([v4 / 2 ^ 16; v4 mod 2 ^ 16], true, rest)
      | None =>
          match read_separator (ch ":") i (read_number 16 4 65535 true) s with
          | Some (g, rest) =>
              let '(gs, v4, rest') := read_groups left' (S i) rest in (g :: gs, v4, rest')
          | None => ([], false, s)
          end
      end
  end.

Fixpoint groups_value (gs : list Z) (acc : Z) : Z :=
  match gs with [] => acc | g :: gs' => groups_value gs' (acc * 2 ^ 16 + g) end.

Definition read_ipv6_addr : reader Z := fun s =>
  let '(head, head_ipv4, rest) := read_groups 8 0 s in
  let head_size := length head in
  if Nat.eqb head_size 8 then Some (groups_value head 0, rest)
  else if head_ipv4 then None
  else
    let! r1 := read_given_char (ch ":") rest in
    let! r2 := read_given_char (ch ":") r1.2 in
    let '(tail, _, rest') := read_groups (8 - (head_size + 1)) 0 r2.2 in
    let zeros := replicate (8 - head_size - length tail) 0 in
    Some (groups_value (head ++ zeros ++ tail) 0, rest').

Definition read_ip_addr : reader IpAddr := fun s =>
  match read_ipv4_addr s with
  | Some (n, rest) => Some (V4 n, rest)
  | None => let! r := read_ipv6_addr s in Some (V6 r.1, r.2)
  end.

Definition read_port : reader Z := fun s =>
  let! r := read_given_char (ch ":") s in read_decimal U16_MAX r.2.

Definition read_scope_id : reader Z := fun s =>
  let! r := read_given_char (ch "%") s in read_decimal U32_MAX r.2.

Definition read_socket_addr : reader SocketAddr := fun s =>
  match (let! ip := read_ipv4_addr s in
         let! port := read_port ip.2 in Some (mkSocket (V4 ip.1) port.1, port.2)) with
  | Some r => Some r
  | None =>
      let! o := read_given_char (ch "[") s in
      let! ip := read_ipv6_addr o.2 in
      let rest := match read_scope_id ip.2 with Some r => r.2 | None => ip.2 end in
      let! c := read_given_char (ch "]") rest in
      let! port := read_port c.2 in
      Some (mkSocket (V6 ip.1) port.1, port.2)
  end.

(** [parse_with]: the whole input. *)
Definition parse_all {A} (r : reader A) (s : text) : option A :=
  match r s with Some (a, []) => Some a | _ => None end.

Definition parse_ip : text -> option IpAddr := parse_all read_ip_addr.
Definition parse_ipv6 : text -> option Z := parse_all read_ipv6_addr.
Definition parse_socket : text -> option SocketAddr := parse_all read_socket_addr.

(** ** [Display] *)

Definition show_ipv4 (n : Z) : text :=
  show_u64 (n / 2 ^ 24) ++ txt "." ++ show_u64 (n / 2 ^ 16 mod 256) ++ txt "." ++
  show_u64 (n / 2 ^ 8 mod 256) ++ txt "." ++ show_u64 (n mod 256).

Definition hex_char (d : Z) : ascii := if d <? 10 then of_code (48 + d) else of_code (87 + d).

(** Lower-case hexadecimal of a 16-bit group, without leading zeros. *)
Definition show_hex16 (n : Z) : text :=
  let digits := [n / 4096; n / 256 mod 16; n / 16 mod 16; n mod 16] in
  match drop_while (fun d => d =? 0) digits with
  | [] => txt "0"
  | ds => hex_char <$> ds
  end.

Definition segments (n : Z) : list Z :=
  (fun i => n / 2 ^ (16 * (7 - Z.of_nat i)) mod 65536) <$> seq 0 8.

(** The longest run of zero segments: its start and length, the first among
    the longest. *)
Fixpoint longest_zeros (segs : list Z) (i : nat) (cur best : nat * nat) : nat * nat :=
  match segs with
  | [] => best
  | 0 :: segs' =>
      let cur := match cur.2 with O => (i, 1%nat) | S _ => (cur.1, S cur.2) end in
      longest_zeros segs' (S i) cur (if Nat.ltb best.2 cur.2 then cur else best)
  | _ :: segs' => longest_zeros segs' (S i) (O, O) best
  end.

Definition show_ipv6 (n : Z) : text :=
  match to_ipv4_mapped n with
  | Some v4 => txt "::ffff:" ++ show_ipv4 v4
  | None =>
      let segs := segments n in
      let '(start, len) := longest_zeros segs 0 (O, O) (O, O) in
      if Nat.ltb 1 len then
        join (txt ":") (show_hex16 <$> take start segs) ++ txt "::" ++
        join (txt ":") (show_hex16 <$> drop (start + len) segs)
      else join (txt ":") (show_hex16 <$> segs)
  end.

Definition show_ip (ip : IpAddr) : text :=
  match ip with V4 n => show_ipv4 n | V6 n => show_ipv6 n end.

(** ** The [ipnet] crate's ranges, as an interface *)

Class IpNetLib : Type := {
  IpNet : Type;
  (** [str::parse::<IpNet>]. *)
  net_parse : text -> option IpNet;
  (** [IpNet::from(IpAddr)]: the range of one host. *)
  net_host : IpAddr -> IpNet;
  (** [network] and [prefix_len]. *)
  net_network : IpNet -> IpAddr;
  net_prefix_len : IpNet -> Z;
  (** [Ipv4Net::new]. *)
  net_v4 : Z -> Z -> option IpNet;
  net_contains : IpNet -> IpAddr -> bool;
}.

Definition width (ip : IpAddr) : Z := match ip with V4 _ => 32 | V6 _ => 128 end.
Definition bits (ip : IpAddr) : Z := match ip with V4 n | V6 n => n end.
Definition is_v4 (ip : IpAddr) : bool := match ip with V4 _ => true | V6 _ => false end.

Class IpNetLaws (L : IpNetLib) : Prop := {
  (** A range holds the addresses of its family that share its prefix. *)
  contains_spec net ip :
    net_contains net ip =
    Bool.eqb (is_v4 (net_network net)) (is_v4 ip) &&
    (bits (net_network net) / 2 ^ (width ip - net_prefix_len net) =?
     bits ip / 2 ^ (width ip - net_prefix_len net));
  prefix_range net : 0 <= net_prefix_len net <= width (net_network net);
  network_range net : 0 <= bits (net_network net) < 2 ^ width (net_network net);
  network_v4 a p net : net_v4 a p = Some net ->
    net_prefix_len net = p /\ net_network net = V4 (a / 2 ^ (32 - p) * 2 ^ (32 - p));
  net_v4_some a p : 0 <= a < 2 ^ 32 -> 0 <= p <= 32 -> is_Some (net_v4 a p);
}.

(** ** A model of the interface *)

Module NetModel.

(** A range as its family, an address and a prefix length, read as the nearest
    one that exists. *)
Record net := mkNet { n_v4 : bool; n_addr : Z; n_prefix : Z }.

Definition n_width (m : net) : Z := if n_v4 m then 32 else 128.
Definition n_len (m : net) : Z := Z.max 0 (Z.min (n_width m) (n_prefix m)).
Definition n_net (m : net) : Z :=
  let h := 2 ^ (n_width m - n_len m) in (n_addr m mod 2 ^ n_width m) / h * h.
Definition n_network (m : net) : IpAddr := if n_v4 m then V4 (n_net m) else V6 (n_net m).

Definition of_ip (ip : IpAddr) : net := mkNet (is_v4 ip) (bits ip) (width ip).

Definition of_text (s : text) : option net :=
  let! parts := split_once (ch "/") s in
  let! ip := parse_ip parts.1 in
  let! p := parse_uint (width ip) parts.2 in
  Some (mkNet (is_v4 ip) (bits ip) p).

Definition of_v4 (a p : Z) : option net :=
  if (0 <=? a) && (a <? 2 ^ 32) && (0 <=? p) && (p <=? 32) then Some (mkNet true a p) else None.

Definition holds (m : net) (ip : IpAddr) : bool :=
  Bool.eqb (is_v4 (n_network m)) (is_v4 ip) &&
  (bits (n_network m) / 2 ^ (width ip - n_len m) =? bits ip / 2 ^ (width ip - n_len m)).

#[export] Instance netlib : IpNetLib := {
  IpNet := net;
  net_parse := of_text;
  net_host := of_ip;
  net_network := n_network;
  net_prefix_len := n_len;
  net_v4 := of_v4;
  net_contains := holds;
}.

Lemma n_net_range (m : net) : 0 <= n_net m < 2 ^ n_width m.
Proof.
  unfold n_net. set (h := 2 ^ (n_width m - n_len m)).
  assert (0 < h) by (apply Z.pow_pos_nonneg; unfold n_len, n_width; destruct (n_v4 m); lia).
  assert (0 < 2 ^ n_width m) by (apply Z.pow_pos_nonneg; unfold n_width; destruct (n_v4 m); lia).
  pose proof (Z.mod_pos_bound (n_addr m) (2 ^ n_width m) ltac:(lia)).
  pose proof (Z.mul_div_le (n_addr m mod 2 ^ n_width m) h ltac:(lia)).
  pose proof (Z.div_pos (n_addr m mod 2 ^ n_width m) h ltac:(lia) ltac:(lia)). nia.
Qed.

#[export] Instance netlaws : IpNetLaws netlib.
Proof.
  split; cbn.
  - done.
  - intros m. unfold n_network, n_len, n_width. destruct (n_v4 m); cbn; lia.
  - intros m. pose proof (n_net_range m) as Hr. unfold n_network, n_width in *.
    by destruct (n_v4 m).
  - intros a p m. unfold of_v4. case_match eqn:E; [|done]. bool_simpl. intros [= <-].
    assert (Hl : n_len (mkNet true a p) = p) by (unfold n_len, n_width; cbn; lia).
    split; [done|]. unfold n_network, n_net. rewrite Hl. cbn [n_v4 n_addr n_width].
    rewrite Z.mod_small by lia. done.
  - intros a p Ha Hp. unfold of_v4.
    destruct (Z.leb_spec 0 a), (Z.ltb_spec a (2 ^ 32)), (Z.leb_spec 0 p), (Z.leb_spec p 32);
      try lia. cbn. by eexists.
Qed.

End NetModel.

(** ** Examples *)

Example parse_v4 : parse_ip (txt "203.0.113.7") = Some (V4 3405803783).
Proof. vm_compute. reflexivity. Qed.

Example parse_v4_zero_prefix : parse_ip (txt "203.0.113.07") = None.
Proof. vm_compute. reflexivity. Qed.

Example parse_v6_mapped :
  to_canonical <$> parse_ip (txt "::ffff:203.0.113.7") = Some (V4 3405803783).
Proof. vm_compute. reflexivity. Qed.

Example show_v6 : (show_ip <$> parse_ip (txt "2001:DB8:0:0:1:0:0:1")) = Some (txt "2001:db8::1:0:0:1").
Proof. vm_compute. reflexivity. Qed.

Example parse_v6_seven : parse_ip (txt "1:2:3:4:5:6:7") = None.
Proof. vm_compute. reflexivity. Qed.

Example parse_v6_all : (show_ip <$> parse_ip (txt "::")) = Some (txt "::").
Proof. vm_compute. reflexivity. Qed.

Example parse_socket_v6 :
  parse_socket (txt "[2001:db8::1]:443") = Some (mkSocket (V6 (8193 * 2 ^ 112 + 3512 * 2 ^ 96 + 1)) 443).
Proof. vm_compute. reflexivity. Qed.
