(* ===== verification/GcraStore.v ===== *)
(** * The in-process GCRA store ([src/shield/store.rs])

    One TAT per key, updated under the key's lock, with an occasional sweep of
    the drained keys. [Spec] is what the store promises: a limiter that keeps
    every key forever. [store_refines_spec] shows the sweeps unobservable. The
    clock ([base.elapsed()]) is an argument of every operation. *)

From S2P Require Import Prelude Rust Gcra.

Definition SWEEP_INTERVAL_MS : Z := 60000.
Definition SWEEP_HIGH_WATER : Z := 200000.
Definition HW_SWEEP_MIN_MS : Z := 1000.

Record GcraStore := mkStore { tats : gmap text Z; last_sweep_ms : Z }.

Definition new_store : GcraStore := mkStore ∅ 0.

Definition dur_nanos (d : Z) : Z := to_u64_saturating d.

(** [AtomicU64::compare_exchange]: whether it took, and the cell after it. *)
Definition compare_exchange (cell expected new : Z) : bool * Z :=
  if cell =? expected then (true, new) else (false, cell).

Definition evict_drained (s : GcraStore) (now : Z) : GcraStore :=
  let now_nanos := dur_nanos now in
  mkStore (filter (fun kt => now_nanos < kt.2) (tats s)) (last_sweep_ms s).

Definition sweep_due (s : GcraStore) (elapsed : Z) : bool :=
  (SWEEP_INTERVAL_MS <=? elapsed) ||
  ((HW_SWEEP_MIN_MS <=? elapsed) && (SWEEP_HIGH_WATER <? Z.of_nat (size (tats s)))).

Definition maybe_sweep (s : GcraStore) (now : Z) : GcraStore :=
  let now_ms := to_u64_saturating (as_millis now) in
  let last := last_sweep_ms s in
  let elapsed := u64_saturating_sub now_ms last in
  if sweep_due s elapsed then
    match compare_exchange (last_sweep_ms s) last now_ms with
    | (true, cell) => evict_drained (mkStore (tats s) cell) now
    | (false, cell) => mkStore (tats s) cell
    end
  else s.

(** [GcraStore::check]: a key seen before is updated in place; otherwise its
    entry is made when the request is admitted. *)
Definition store_check (s : GcraStore) (key : text) (g : Gcra) (now : Z)
  : option (Verdict * GcraStore) :=
  let s := maybe_sweep s now in
  match tats s !! key with
  | Some tat =>
      let! v := check g (Some tat) now in
      Some (v, if allowed v
               then mkStore (<[key := dur_nanos (new_tat v)]> (tats s)) (last_sweep_ms s)
               else s)
  | None =>
      let! v := check g None now in
      Some (v, if allowed v
               then mkStore (<[key := dur_nanos (new_tat v)]> (tats s)) (last_sweep_ms s)
               else s)
  end.

(** A sequence of requests, each with the limiter its tier resolved to. *)
Record request := mkRequest { r_key : text; r_gcra : Gcra; r_now : Z }.

Fixpoint serve (s : GcraStore) (rs : list request) : option (list Verdict * GcraStore) :=
  match rs with
  | [] => Some ([], s)
  | r :: rs' =>
      let! vs := store_check s (r_key r) (r_gcra r) (r_now r) in
      let! rest := serve vs.2 rs' in
      Some (vs.1 :: rest.1, rest.2)
  end.

(** ** The abstract limiter *)

Module Spec.
(** The TAT of every key ever admitted. *)
Definition state := gmap text Z.

Definition check (m : gmap text Z) (r : request) : Verdict * gmap text Z :=
  let v := verdict_of (r_gcra r) (default (r_now r) (m !! r_key r)) (r_now r) in
  (v, if allowed v then <[r_key r := Z.min (new_tat v) U64_MAX]> m else m).

Fixpoint serve (m : gmap text Z) (rs : list request) : list Verdict :=
  match rs with
  | [] => []
  | r :: rs' => (check m r).1 :: serve (check m r).2 rs'
  end.
End Spec.

(** Requests in the order of a monotonic clock, with well-formed limiters. *)
Definition ok_request (r : request) : Prop :=
  wf (r_gcra r) /\ g_burst (r_gcra r) <= U32_MAX + 1 /\ clock (r_now r).

Fixpoint arrivals (from : Z) (rs : list request) : Prop :=
  match rs with
  | [] => True
  | r :: rs' => from <= r_now r /\ ok_request r /\ arrivals (r_now r) rs'
  end.

(** ** Sweeps *)

(** What a store may have forgotten at [now]: drained keys only. *)
Definition forgets (now : Z) (c m : gmap text Z) : Prop :=
  forall k, (c !! k = m !! k \/ (c !! k = None /\ exists t, m !! k = Some t /\ t <= now)) /\
            (forall t, m !! k = Some t -> in_u64 t).

Lemma forgets_mono (now now' : Z) (c m : gmap text Z) :
  now <= now' -> forgets now c m -> forgets now' c m.
Proof.
  intros Hle H k. destruct (H k) as [[?|(? & t & ? & ?)] ?]; split; auto.
  right. split; [done|]. exists t. split; [done|lia].
Qed.

Lemma evict_lookup (s : GcraStore) (now : Z) (k : text) : clock now ->
  tats (evict_drained s now) !! k =
  match tats s !! k with Some t => if now <? t then Some t else None | None => None end.
Proof.
  intros Hn. cbn.
  assert (dur_nanos now = now) as ->.
  { unfold dur_nanos. rewrite to_u64_saturating_min. gcra_arith. }
  rewrite map_lookup_filter. destruct (tats s !! k) as [t|]; cbn; [|done].
  destruct (Z.ltb_spec now t).
  - by rewrite option_guard_True.
  - by rewrite option_guard_False by lia.
Qed.

Lemma sweep_cases (s : GcraStore) (now : Z) :
  tats (maybe_sweep s now) = tats s \/ tats (maybe_sweep s now) = tats (evict_drained s now).
Proof.
  unfold maybe_sweep, compare_exchange. destruct (sweep_due _ _); [|auto].
  rewrite Z.eqb_refl. auto.
Qed.

Lemma sweep_forgets (s : GcraStore) (m : gmap text Z) (now : Z) :
  clock now -> forgets now (tats s) m -> forgets now (tats (maybe_sweep s now)) m.
Proof.
  intros Hn H. destruct (sweep_cases s now) as [->| ->]; [done|].
  intros k. destruct (H k) as [Hk Hr]. split; [|done].
  rewrite (evict_lookup s now k Hn).
  destruct Hk as [Hk|[Hk ?]]; [|rewrite Hk; auto].
  rewrite Hk. destruct (m !! k) as [t|] eqn:Hm; [|auto].
  destruct (Z.ltb_spec now t); [auto|]. right. eauto.
Qed.

(** ** Refinement *)

Lemma check_forgotten (c m : gmap text Z) (g : Gcra) (k : text) (now : Z) :
  wf g -> g_burst g <= U32_MAX + 1 -> clock now -> forgets now c m ->
  Gcra.check g (c !! k) now = Some (verdict_of g (default now (m !! k)) now).
Proof.
  intros W Hb Hn H. destruct (H k) as [[Hk|(Hk & t & Hm & Ht)] Hr].
  - rewrite Hk. by apply check_verdict.
  - rewrite Hk, Hm. rewrite <- (check_drained g t now) by (try done; by apply Hr).
    apply check_verdict; [done..|]. rewrite <- Hm. done.
Qed.

Lemma step_refines (s : GcraStore) (m : gmap text Z) (r : request) :
  ok_request r -> forgets (r_now r) (tats s) m ->
  exists s', store_check s (r_key r) (r_gcra r) (r_now r) = Some ((Spec.check m r).1, s') /\
             forgets (r_now r) (tats s') (Spec.check m r).2.
Proof.
  intros (W & Hb & Hn) H. pose proof (sweep_forgets s m (r_now r) Hn H) as Hs.
  pose proof (check_forgotten _ m (r_gcra r) (r_key r) (r_now r) W Hb Hn Hs) as Hc.
  unfold store_check, Spec.check. set (s1 := maybe_sweep s (r_now r)) in *.
  set (v := verdict_of _ _ _) in *. cbn.
  assert (Hv : 0 <= new_tat v).
  { unfold v, verdict_of. pose proof (wf_interval _ W).
    destruct (m !! r_key r) as [t|] eqn:Hm; cbn;
      [destruct (Hs (r_key r)) as [_ Hr]; specialize (Hr t Hm)|];
      destruct (_ <? _); cbn; gcra_arith. }
  eexists. split.
  - destruct (tats s1 !! r_key r) as [tat|]; rewrite Hc; reflexivity.
  - cbn. destruct (allowed v); [|done]. cbn. unfold dur_nanos.
    rewrite to_u64_saturating_min. intros k.
    destruct (decide (r_key r = k)) as [<-|Hne].
    + rewrite !lookup_insert_eq. split; [by left|]. intros t [= <-]. gcra_arith.
    + rewrite !lookup_insert_ne by done. apply Hs.
Qed.

Lemma serve_refines (rs : list request) (s : GcraStore) (m : gmap text Z) (from : Z) :
  arrivals from rs -> forgets from (tats s) m ->
  exists s', serve s rs = Some (Spec.serve m rs, s').
Proof.
  revert s m from. induction rs as [|r rs IH]; intros s m from Ha H; cbn.
  { eauto. }
  destruct Ha as (Hle & Hr & Ha).
  destruct (step_refines s m r Hr (forgets_mono _ _ _ _ Hle H)) as (s1 & Hc & H1).
  rewrite Hc. cbn. destruct (IH s1 _ _ Ha H1) as (s2 & Hs). rewrite Hs. cbn. eauto.
Qed.

Lemma forgets_refl_empty (now : Z) : forgets now (tats new_store) ∅.
Proof. intros k. cbn. rewrite lookup_empty. split; [by left|done]. Qed.

(** C23: the store refines a limiter that never forgets a key. Whatever keys and
    tiers the requests of a monotonic clock have, the store answers every one of
    them without a panic and with the verdict of the abstract limiter: dropping
    drained keys, on the timer or past the high-water mark, is unobservable. *)
Theorem store_refines_spec (rs : list request) :
  arrivals 0 rs -> exists s, serve new_store rs = Some (Spec.serve ∅ rs, s).
Proof. intros Ha. exact (serve_refines rs new_store ∅ 0 Ha (forgets_refl_empty 0)). Qed.

(** ** The limits a key gets *)

Definition admitted (k : text) (a b : Z) (rs : list request) (vs : list Verdict) : nat :=
  length (filter (fun rv => r_key rv.1 = k /\ a <= r_now rv.1 <= b /\ allowed rv.2 = true)
            (zip rs vs)).

(** The TAT a key is at, from [a] on. *)
Definition level (a : Z) (o : option Z) : Z := Z.max a (default a o).

Section Bound.
Context (k : text) (g : Gcra) (W : wf g) (a b : Z).
Hypothesis Hab : a <= b.
Hypothesis Hfit : b + tau g + emission_interval g <= U64_MAX.

Lemma spec_level (m : gmap text Z) (rs : list request) :
  (forall t, m !! k = Some t -> t <= U64_MAX) ->
  Forall (fun r => r_key r = k -> r_gcra r = g) rs ->
  (0 < admitted k a b rs (Spec.serve m rs))%nat ->
  level a (m !! k) +
    (Z.of_nat (admitted k a b rs (Spec.serve m rs)) - 1) * emission_interval g <= b + tau g.
Proof.
  pose proof (wf_interval g W) as Hi. pose proof (tau_nonneg g W) as Htau.
  revert m. induction rs as [|r rs IH]; intros m Hm Hg; [cbn; lia|].
  inversion Hg as [|? ? Hr Hg']; subst. unfold admitted. cbn [Spec.serve zip].
  rewrite filter_cons. set (v := (Spec.check m r).1). set (m' := (Spec.check m r).2).
  fold (admitted k a b rs (Spec.serve m' rs)).
  destruct (decide (r_key r = k)) as [Hk|Hk].
  2:{ rewrite decide_False by (cbn; tauto).
      assert (Hm' : m' !! k = m !! k).
      { unfold m', Spec.check. cbn. destruct (allowed _); [|done].
        by rewrite lookup_insert_ne. }
      rewrite <- Hm'. apply IH; [by rewrite Hm'|done]. }
  specialize (Hr Hk). cbn [fst snd].
  assert (Ev : v = verdict_of g (default (r_now r) (m !! k)) (r_now r))
    by (unfold v, Spec.check; cbn; by rewrite Hr, Hk).
  assert (Em : m' = if allowed v then <[k := Z.min (new_tat v) U64_MAX]> m else m)
    by (unfold m', v, Spec.check; cbn; by rewrite Hk).
  clearbody v m'. destruct (allowed v) eqn:Hv.
  2:{ rewrite decide_False by (intros (_ & _ & ?); congruence). subst m'. by apply IH. }
  rewrite Ev in Hv. pose proof (proj1 (verdict_allowed g _ _) Hv) as Hle.
  assert (Hm' : m' !! k = Some (Z.min
             (Z.max (default (r_now r) (m !! k)) (r_now r) + emission_interval g) U64_MAX)).
  { by rewrite Em, lookup_insert_eq, Ev, (verdict_new_tat g _ _ Hv). }
  assert (Hmono : level a (m !! k) <= level a (m' !! k)).
  { rewrite Hm'. unfold level. cbn. destruct (m !! k) as [t|]; cbn in *; [|lia].
    specialize (Hm t eq_refl). lia. }
  assert (IHm' : (0 < admitted k a b rs (Spec.serve m' rs))%nat ->
    level a (m' !! k) + (Z.of_nat (admitted k a b rs (Spec.serve m' rs)) - 1) *
      emission_interval g <= b + tau g).
  { apply IH; [|done]. rewrite Hm'. intros t [= <-]. lia. }
  destruct (decide (a <= r_now r <= b)) as [Hin|Hout].
  - rewrite decide_True by done. cbn [length].
    fold (admitted k a b rs (Spec.serve m' rs)). intros _.
    assert (Hstep : level a (m !! k) + emission_interval g <= level a (m' !! k)).
    { rewrite Hm'. unfold level. cbn. destruct (m !! k) as [t|]; cbn in *; lia. }
    assert (level a (m !! k) <= b + tau g).
    { unfold level. destruct (m !! k) as [t|]; cbn in *; lia. }
    destruct (admitted k a b rs (Spec.serve m' rs)) as [|n]; [lia|].
    specialize (IHm' ltac:(lia)). lia.
  - rewrite decide_False by tauto. fold (admitted k a b rs (Spec.serve m' rs)).
    intros H0. specialize (IHm' H0). lia.
Qed.

Lemma spec_bound (rs : list request) :
  Forall (fun r => r_key r = k -> r_gcra r = g) rs ->
  Z.of_nat (admitted k a b rs (Spec.serve ∅ rs)) <= capacity g + (b - a) / emission_interval g.
Proof.
  intros Hg. pose proof (wf_interval g W) as Hi. pose proof (capacity_pos g W).
  assert (0 <= (b - a) / emission_interval g) by (apply Z.div_pos; lia).
  destruct (decide (0 < admitted k a b rs (Spec.serve ∅ rs))%nat) as [Hpos|]; [|lia].
  pose proof (spec_level ∅ rs ltac:(intros t H1; by rewrite lookup_empty in H1) Hg Hpos) as H1.
  rewrite lookup_empty in H1. unfold level in H1. cbn in H1. rewrite Z.max_id in H1.
  rewrite (wf_tau g W) in H1.
  set (n := Z.of_nat (admitted k a b rs (Spec.serve ∅ rs))) in *.
  assert (n - capacity g <= (b - a) / emission_interval g); [|lia].
  apply Z.div_le_lower_bound; lia.
Qed.
End Bound.

Lemma serve_bound (rs : list request) (vs : list Verdict) (s : GcraStore)
  (k : text) (g : Gcra) (a b : Z) :
  wf g -> arrivals 0 rs -> Forall (fun r => r_key r = k -> r_gcra r = g) rs ->
  a <= b -> b + tau g + emission_interval g <= U64_MAX ->
  serve new_store rs = Some (vs, s) ->
  Z.of_nat (admitted k a b rs vs) <= capacity g + (b - a) / emission_interval g.
Proof.
  intros W Ha Hg Hab Hfit Hs.
  destruct (serve_refines rs new_store ∅ 0 Ha (forgets_refl_empty 0)) as (s' & Hs').
  rewrite Hs' in Hs. injection Hs as <- _. by apply spec_bound.
Qed.

(** The rate limit holds. Among the requests of a key under one limiter, any
    span [[a, b]] of a monotonic clock admits at most the burst plus one request
    per emission interval, whatever arrives, whatever the other keys do and
    whenever the store sweeps; there is no boundary burst. *)
Theorem rate_bound (rs : list request) (vs : list Verdict) (s : GcraStore)
  (k : text) (g : Gcra) (a b : Z) :
  wf g -> arrivals 0 rs -> Forall (fun r => r_key r = k -> r_gcra r = g) rs ->
  a <= b -> b + tau g + emission_interval g <= U64_MAX ->
  serve new_store rs = Some (vs, s) ->
  Z.of_nat (admitted k a b rs vs) <= capacity g + (b - a) / emission_interval g.
Proof. apply serve_bound. Qed.

(** The requests of one instant, from a key at level [j] of the bucket. *)
Lemma spec_burst (k : text) (g : Gcra) (now j : Z) (n : nat) (m : gmap text Z) :
  wf g -> 0 <= j <= capacity g -> default now (m !! k) = now + j * emission_interval g ->
  now + tau g + emission_interval g <= U64_MAX ->
  allowed <$> Spec.serve m (replicate n (mkRequest k g now)) =
  let c := Nat.min n (Z.to_nat (capacity g - j)) in
  replicate c true ++ replicate (n - c) false.
Proof.
  intros W. pose proof (wf_interval g W) as Hi. pose proof (wf_tau g W) as Htau.
  revert j m. induction n as [|n IH]; intros j m Hj Hm Hfit; [done|].
  cbn [replicate Spec.serve fmap list_fmap]. unfold Spec.check at 1. cbn [fst r_gcra r_key r_now].
  rewrite Hm. destruct (decide (j < capacity g)) as [Hlt|Hge].
  - assert (Hal : allowed (verdict_of g (now + j * emission_interval g) now) = true).
    { apply verdict_allowed. nia. }
    rewrite Hal. rewrite (IH (j + 1)); [|lia| |done].
    2:{ unfold Spec.check. cbn. rewrite Hm, Hal, lookup_insert_eq. cbn.
        rewrite (verdict_new_tat g _ _ Hal). nia. }
    replace (Z.to_nat (capacity g - j)) with (S (Z.to_nat (capacity g - (j + 1)))) by lia.
    cbn. reflexivity.
  - assert (Hal : allowed (verdict_of g (now + j * emission_interval g) now) = false).
    { apply not_true_is_false. rewrite verdict_allowed. nia. }
    assert (Hsame : (Spec.check m (mkRequest k g now)).2 = m).
    { unfold Spec.check. cbn. by rewrite Hm, Hal. }
    rewrite Hal, Hsame, (IH j m) by done.
    replace (Z.to_nat (capacity g - j)) with O by lia.
    rewrite !Nat.min_0_r. cbn. by rewrite Nat.sub_0_r.
Qed.

Lemma arrivals_replicate (n : nat) (k : text) (g : Gcra) (now from : Z) :
  from <= now -> ok_request (mkRequest k g now) ->
  arrivals from (replicate n (mkRequest k g now)).
Proof.
  revert from. induction n as [|n IH]; intros from Hle Hr; cbn; [done|].
  split; [done|]. split; [done|]. by apply IH.
Qed.

(** A fresh key admits exactly its burst at one instant. Of [n] requests at
    the same instant the first [burst] are admitted and every later one
    rejected. *)
Theorem burst_exact (k : text) (g : Gcra) (now : Z) (n : nat) :
  wf g -> g_burst g <= U32_MAX + 1 -> clock now ->
  now + tau g + emission_interval g <= U64_MAX ->
  exists vs s, serve new_store (replicate n (mkRequest k g now)) = Some (vs, s) /\
    allowed <$> vs = (let c := Nat.min n (Z.to_nat (g_burst g)) in
                      replicate c true ++ replicate (n - c) false).
Proof.
  intros W Hb Hn Hfit. pose proof (wf_burst g W).
  assert (Ha : arrivals 0 (replicate n (mkRequest k g now))).
  { apply arrivals_replicate; [gcra_arith|]. by split. }
  destruct (serve_refines _ new_store ∅ 0 Ha (forgets_refl_empty 0)) as (s & Hs).
  do 2 eexists. split; [exact Hs|].
  assert (H0 : default now ((∅ : gmap text Z) !! k) = now + 0 * emission_interval g)
    by (rewrite lookup_empty; cbn; lia).
  pose proof (capacity_pos g W).
  rewrite (spec_burst k g now 0 n ∅ W ltac:(lia) H0 Hfit).
  by replace (capacity g - 0) with (g_burst g) by (unfold capacity; lia).
Qed.

(** ** Memory *)

Lemma evict_lookup_Some (s : GcraStore) (now : Z) (k : text) (t : Z) : clock now ->
  tats (evict_drained s now) !! k = Some t <-> tats s !! k = Some t /\ now < t.
Proof.
  intros Hn. rewrite (evict_lookup s now k Hn).
  destruct (tats s !! k) as [t'|]; [|split; [done|by intros [? _]]].
  destruct (Z.ltb_spec now t'); split; try done.
  - by intros [= ->].
  - by intros [[= ->] _].
  - intros [[= ->] ?]; lia.
Qed.

Lemma sweep_keeps_active (s : GcraStore) (now : Z) (k : text) (t : Z) :
  clock now -> now < t ->
  tats (maybe_sweep s now) !! k = Some t <-> tats s !! k = Some t.
Proof.
  intros Hn Ht. destruct (sweep_cases s now) as [->| ->]; [done|].
  rewrite evict_lookup_Some by done. tauto.
Qed.

(** Sweeping reclaims memory without touching a limit. A sweep keeps every
    active key as it is, loses no key that is not drained, and a due one leaves
    only active keys; the next one is at least a second away. *)
Theorem maybe_sweep_sound (s : GcraStore) (now : Z) (k : text) (t : Z) :
  clock now ->
  (now < t -> tats (maybe_sweep s now) !! k = Some t <-> tats s !! k = Some t) /\
  (tats (maybe_sweep s now) !! k = Some t -> tats s !! k = Some t) /\
  (last_sweep_ms (maybe_sweep s now) <> last_sweep_ms s ->
     (tats (maybe_sweep s now) !! k = Some t -> now < t) /\
     last_sweep_ms s + HW_SWEEP_MIN_MS <= last_sweep_ms (maybe_sweep s now)).
Proof.
  intros Hn.
  pose proof (evict_lookup_Some s now k t Hn) as Hev.
  split; [|split].
  - by apply sweep_keeps_active.
  - destruct (sweep_cases s now) as [->| ->]; [done|]. rewrite Hev. tauto.
  - unfold maybe_sweep, compare_exchange. destruct (sweep_due _ _) eqn:Hd; [|done].
    rewrite Z.eqb_refl. cbn -[evict_drained]. intros Hne. split.
    + intros H. change (tats (evict_drained s now) !! k = Some t) in H.
      by apply Hev in H as [_ ?].
    + cbn [last_sweep_ms evict_drained]. unfold sweep_due, SWEEP_INTERVAL_MS, HW_SWEEP_MIN_MS in *.
      unfold u64_saturating_sub in Hd.
      apply orb_true_iff in Hd as [Hd|Hd]; bool_simpl; lia.
Qed.

(** ** Where the limit stops holding *)

(** A tier whose tolerance exceeds what a [u64] of nanoseconds spans: one
    request an hour, bursts of ten million. *)
Definition wide : Gcra := mkGcra (3600 * NANOS_PER_SEC) (3600 * NANOS_PER_SEC * 9999999) 10000000.

(** A stored TAT saturates at [u64::MAX] nanoseconds, and a tier whose
    [(burst - 1) * interval] passes that has no limit left there: such a key is
    admitted and its TAT does not move, so every later request is admitted too. *)
Theorem saturated_key_unlimited (now : Z) (n : nat) (s : GcraStore) (k : text) :
  clock now -> tats s !! k = Some U64_MAX ->
  exists vs s', serve s (replicate n (mkRequest k wide now)) = Some (vs, s') /\
                Forall (fun v => allowed v = true) vs.
Proof.
  intros Hn. revert s. induction n as [|n IH]; intros s Hk; cbn [replicate serve].
  { do 2 eexists. split; [reflexivity|constructor]. }
  assert (W : wf wide) by (constructor; vm_compute; intuition congruence).
  assert (Hm : tats (maybe_sweep s now) !! k = Some U64_MAX).
  { apply (sweep_keeps_active s now k U64_MAX Hn); [gcra_arith|done]. }
  assert (Hc : Gcra.check wide (Some U64_MAX) now =
               Some (verdict_of wide U64_MAX now)).
  { apply (check_verdict wide W (Some U64_MAX) now Hn). apply stored_Some. gcra_arith. }
  assert (Hal : allowed (verdict_of wide U64_MAX now) = true).
  { apply verdict_allowed. unfold wide. cbn [tau]. gcra_arith. }
  unfold store_check. cbn [r_key r_gcra r_now]. rewrite Hm, Hc. cbn [mbind option_bind fst snd].
  rewrite Hal.
  destruct (IH (mkStore (<[k := dur_nanos (new_tat (verdict_of wide U64_MAX now))]>
                  (tats (maybe_sweep s now))) (last_sweep_ms (maybe_sweep s now))))
    as (vs & s' & Hs & HF).
  { cbn. rewrite lookup_insert_eq. rewrite (verdict_new_tat wide _ _ Hal).
    unfold dur_nanos. rewrite to_u64_saturating_min. f_equal.
    unfold wide. cbn [emission_interval]. gcra_arith. }
  cbn [fst snd]. rewrite Hs. cbn. do 2 eexists. split; [reflexivity|]. by constructor.
Qed.

(** ** Witnesses *)

Definition demo_rs : list request :=
  [mkRequest (txt "a") demo 5; mkRequest (txt "b") demo 6; mkRequest (txt "a") demo 6;
   mkRequest (txt "a") demo 7; mkRequest (txt "a") demo 8; mkRequest (txt "a") demo 1000000005].

Lemma demo_arrivals : arrivals 0 demo_rs.
Proof.
  repeat (split; [cbn; lia|]; split;
    [split; [apply demo_wf|]; split; [vm_compute; congruence|apply demo_clock; cbn; lia]|]).
  done.
Qed.

Definition demo_result : option (list Verdict * GcraStore) := serve new_store demo_rs.

Definition demo_verdicts : list Verdict :=
  match demo_result with Some (vs, _) => vs | None => [] end.
Definition demo_store : GcraStore :=
  match demo_result with Some (_, s) => s | None => new_store end.

Example demo_allowed : allowed <$> demo_verdicts = [true; true; true; true; false; true].
Proof. vm_compute. reflexivity. Qed.

Lemma store_refines_spec_witness :
  exists s, serve new_store demo_rs = Some (Spec.serve ∅ demo_rs, s).
Proof. exact (store_refines_spec demo_rs demo_arrivals). Defined.

Lemma rate_bound_witness : Z.of_nat (admitted (txt "a") 0 10 demo_rs demo_verdicts) <= 3 + 10 / 1000000000.
Proof.
  exact (rate_bound demo_rs demo_verdicts demo_store (txt "a") demo 0 10 demo_wf demo_arrivals
           ltac:(repeat constructor) ltac:(lia) ltac:(vm_compute; congruence)
           ltac:(vm_compute; reflexivity)).
Defined.

Lemma burst_exact_witness :
  exists vs s, serve new_store (replicate 5 (mkRequest (txt "a") demo 7)) = Some (vs, s) /\
    allowed <$> vs = [true; true; true; false; false].
Proof.
  exact (burst_exact (txt "a") demo 7 5 demo_wf ltac:(vm_compute; congruence)
           ltac:(apply demo_clock; lia) ltac:(vm_compute; congruence)).
Defined.

Lemma maybe_sweep_sound_witness :
  tats (maybe_sweep (mkStore {[txt "a" := 70000000000; txt "b" := 5]} 0) 60000000000) !! txt "a"
  = Some 70000000000.
Proof.
  exact (proj2 (proj1 (maybe_sweep_sound
           (mkStore {[txt "a" := 70000000000; txt "b" := 5]} 0) 60000000000 (txt "a") 70000000000
           ltac:(apply demo_clock; lia)) ltac:(lia)) ltac:(vm_compute; reflexivity)).
Defined.

Lemma saturated_key_unlimited_witness :
  exists vs s', serve (mkStore {[txt "a" := U64_MAX]} 0)
                  (replicate 4 (mkRequest (txt "a") wide 9)) = Some (vs, s') /\
                Forall (fun v => allowed v = true) vs.
Proof.
  exact (saturated_key_unlimited 9 4 (mkStore {[txt "a" := U64_MAX]} 0) (txt "a")
           ltac:(apply demo_clock; lia) ltac:(vm_compute; reflexivity)).
Defined.
