(* ===== verification/ClaimsCache.v ===== *)
(** * The cache of verified claims ([src/auth/cache.rs])

    [Cache] operations run by one thread, then the same operations cut at their
    atomic steps and interleaved by any number of threads ([Concurrent]), with
    the invariant that keeps the map within [max_entries] and gives every slot
    back. The SHA-256 of a token ([token_key]) is an argument. *)

From stdpp Require Import relations.
From S2P Require Import Prelude Rust Json.

(** A moment on both clocks, in whole seconds. *)
Record Now := mkNow { unix : Z; mono : Z }.

Record Entry := mkEntry { e_claims : Value; e_exp : Z; e_deadline : Z }.

Definition live (e : Entry) (now : Now) : bool :=
  (unix now <? e_exp e) && (mono now <? e_deadline e).

(** [JwtCacheConfig]. *)
Record JwtCacheConfig := mkCacheConfig {
  cc_enabled : bool; cc_max_entries : Z; cc_max_ttl_secs : Z; cc_max_token_bytes : Z;
}.

Record ClaimsCache := mkCache {
  entries : gmap text Entry;
  taken : Z;
  max_entries : Z;
  max_ttl_secs : Z;
  max_token_bytes : Z;
  next_sweep : Z;
}.

Definition cache_build (c : JwtCacheConfig) : result (option ClaimsCache) text :=
  if negb (cc_enabled c) then Ok None
  else if (cc_max_entries c =? 0) || (cc_max_ttl_secs c =? 0) || (cc_max_token_bytes c =? 0)
  then Err (txt "auth.jwt.cache.max_entries, max_ttl_secs and max_token_bytes must be positive; set enabled: false to turn the cache off")
  else Ok (Some (mkCache ∅ 0 (cc_max_entries c) (cc_max_ttl_secs c) (cc_max_token_bytes c) 0)).

Definition admits (c : ClaimsCache) (token : text) : bool :=
  Z.of_nat (length token) <=? max_token_bytes c.

Definition set_entries (c : ClaimsCache) (m : gmap text Entry) : ClaimsCache :=
  mkCache m (taken c) (max_entries c) (max_ttl_secs c) (max_token_bytes c) (next_sweep c).
Definition set_taken (c : ClaimsCache) (n : Z) : ClaimsCache :=
  mkCache (entries c) n (max_entries c) (max_ttl_secs c) (max_token_bytes c) (next_sweep c).
Definition set_next_sweep (c : ClaimsCache) (n : Z) : ClaimsCache :=
  mkCache (entries c) (taken c) (max_entries c) (max_ttl_secs c) (max_token_bytes c) n.

(** [get]: a live entry's claims; a dead entry goes, and gives its slot back. *)
Definition cache_get (c : ClaimsCache) (key : text) (now : Now) : option Value * ClaimsCache :=
  match entries c !! key with
  | None => (None, c)
  | Some e =>
      if live e now then (Some (e_claims e), c)
      else (None, set_taken (set_entries c (delete key (entries c))) (taken c - 1))
  end.

Definition reserve (c : ClaimsCache) : bool * ClaimsCache :=
  if taken c <? max_entries c then (true, set_taken c (taken c + 1)) else (false, c).

Definition claim_sweep (c : ClaimsCache) (m : Z) : bool * ClaimsCache :=
  if next_sweep c <=? m then (true, set_next_sweep c (m + 1)) else (false, c).

Definition dead (now : Now) (ke : text * Entry) : Prop := live ke.2 now = false.
#[export] Instance dead_dec (now : Now) (ke : text * Entry) : Decision (dead now ke).
Proof. unfold dead. apply _. Defined.

Definition sweep (c : ClaimsCache) (now : Now) : ClaimsCache :=
  let kept := filter (fun ke => ~ dead now ke) (entries c) in
  let freed := Z.of_nat (size (entries c)) - Z.of_nat (size kept) in
  set_taken (set_entries c kept) (taken c - freed).

(** What [insert] stores for a token verified at [now]; [None] for a token
    without [exp], one not yet valid, or one that would expire at once. *)
Definition insertable (c : ClaimsCache) (claims : Value) (now : Now) : option Entry :=
  let! exp := numeric_date claims (txt "exp") in
  if (exp <=? unix now) ||
     match numeric_date claims (txt "nbf") with Some nbf => unix now <? nbf | None => false end
  then None
  else Some (mkEntry claims exp (u64_saturating_add (mono now) (max_ttl_secs c))).

Definition store (c : ClaimsCache) (key : text) (e : Entry) : ClaimsCache :=
  let replaced := entries c !! key in
  let c := set_entries c (<[key := e]> (entries c)) in
  if decide (is_Some replaced) then set_taken c (taken c - 1) else c.

Definition cache_insert (c : ClaimsCache) (key : text) (claims : Value) (now : Now) : ClaimsCache :=
  match insertable c claims now with
  | None => c
  | Some e =>
      match reserve c with
      | (true, c) => store c key e
      | (false, c) =>
          match claim_sweep c (mono now) with
          | (false, c) => c
          | (true, c) =>
              match reserve (sweep c now) with
              | (true, c) => store c key e
              | (false, c) => c
              end
          end
      end
  end.

(** ** One thread: the size and the age of the cache *)

Inductive op : Type :=
| OpGet (key : text) (now : Now)
| OpInsert (key : text) (claims : Value) (now : Now).

Definition run_op (c : ClaimsCache) (o : op) : option Value * ClaimsCache :=
  match o with
  | OpGet key now => cache_get c key now
  | OpInsert key claims now => (None, cache_insert c key claims now)
  end.

Fixpoint run_ops (c : ClaimsCache) (os : list op) : ClaimsCache :=
  match os with
  | [] => c
  | o :: os' => run_ops (run_op c o).2 os'
  end.

Definition empty_cache (n ttl bytes : Z) : ClaimsCache := mkCache ∅ 0 n ttl bytes 0.

(** The entries of the cache come from insertions of the history [h]. *)
Definition from_history (h : list op) (c : ClaimsCache) : Prop :=
  forall key e, entries c !! key = Some e ->
  exists now0, OpInsert key (e_claims e) now0 ∈ h /\ insertable c (e_claims e) now0 = Some e.

Definition same_config (c c' : ClaimsCache) : Prop :=
  max_entries c = max_entries c' /\ max_ttl_secs c = max_ttl_secs c' /\
  max_token_bytes c = max_token_bytes c'.

#[export] Instance same_config_equiv : Equivalence same_config.
Proof.
  unfold same_config. split; [by intros ?|intros ? ? ?; intuition congruence|].
  intros ? ? ? ? ?; intuition congruence.
Qed.

Lemma insertable_config (c c' : ClaimsCache) (v : Value) (now : Now) :
  same_config c c' -> insertable c v now = insertable c' v now.
Proof. intros (_ & E & _). unfold insertable. by rewrite E. Qed.

Lemma reserve_entries (c : ClaimsCache) :
  entries (reserve c).2 = entries c /\ same_config (reserve c).2 c.
Proof. unfold reserve. by destruct (_ <? _). Qed.

Lemma claim_sweep_entries (c : ClaimsCache) (m : Z) :
  entries (claim_sweep c m).2 = entries c /\ taken (claim_sweep c m).2 = taken c /\
  same_config (claim_sweep c m).2 c.
Proof. unfold claim_sweep. by destruct (_ <=? _). Qed.

Lemma store_lookup (c : ClaimsCache) (key k : text) (e e' : Entry) :
  entries (store c key e) !! k = Some e' -> (k = key /\ e' = e) \/ entries c !! k = Some e'.
Proof.
  unfold store. intros H.
  assert (H' : <[key := e]> (entries c) !! k = Some e') by (destruct (decide _) in H; exact H).
  destruct (decide (key = k)) as [<-|Hne].
  - rewrite lookup_insert_eq in H'. injection H' as <-. auto.
  - rewrite lookup_insert_ne in H' by done. auto.
Qed.

Lemma store_config (c : ClaimsCache) (key : text) (e : Entry) : same_config (store c key e) c.
Proof. unfold store. by destruct (decide _). Qed.

(** Every insertion stores what it may, or leaves entries of the cache. *)
Lemma insert_entries (c : ClaimsCache) (key : text) (v : Value) (now : Now) (k : text) (e : Entry) :
  entries (cache_insert c key v now) !! k = Some e ->
  entries c !! k = Some e \/ (k = key /\ insertable c v now = Some e).
Proof.
  unfold cache_insert. destruct (insertable c v now) as [e0|]; [|auto].
  pose proof (reserve_entries c) as [Hr _]. destruct (reserve c) as [[] c1]; cbn in Hr.
  { intros [[-> ->]|H]%store_lookup; [auto|]. rewrite Hr in H. auto. }
  pose proof (claim_sweep_entries c1 (mono now)) as (Hc & _ & _).
  destruct (claim_sweep c1 (mono now)) as [[] c2]; cbn in Hc.
  2:{ rewrite Hc, Hr. auto. }
  pose proof (reserve_entries (sweep c2 now)) as [Hs _].
  assert (Hkept : forall k e, entries (sweep c2 now) !! k = Some e -> entries c !! k = Some e).
  { intros k' e' H. cbn in H. apply map_lookup_filter_Some in H as [H _]. congruence. }
  destruct (reserve (sweep c2 now)) as [[] c3]; cbn in Hs.
  - intros [[-> ->]|H]%store_lookup; [auto|]. rewrite Hs in H. auto.
  - rewrite Hs. auto.
Qed.

Lemma insert_config (c : ClaimsCache) (key : text) (v : Value) (now : Now) :
  same_config (cache_insert c key v now) c.
Proof.
  unfold cache_insert. destruct (insertable c v now) as [e0|]; [|done].
  pose proof (reserve_entries c) as [_ Hr]. destruct (reserve c) as [[] c1]; cbn in Hr.
  { by rewrite store_config. }
  pose proof (claim_sweep_entries c1 (mono now)) as (_ & _ & Hc).
  destruct (claim_sweep c1 (mono now)) as [[] c2]; cbn in Hc.
  2:{ by rewrite Hc. }
  pose proof (reserve_entries (sweep c2 now)) as [_ Hs].
  assert (Hw : same_config (sweep c2 now) c2) by done.
  destruct (reserve (sweep c2 now)) as [[] c3]; cbn in Hs; rewrite ?store_config, Hs, Hw, Hc; done.
Qed.

Lemma get_config (c : ClaimsCache) (key : text) (now : Now) : same_config (cache_get c key now).2 c.
Proof. unfold cache_get. destruct (entries c !! key); [|done]. by destruct (live _ _). Qed.

Lemma get_entries (c : ClaimsCache) (key k : text) (now : Now) (e : Entry) :
  entries (cache_get c key now).2 !! k = Some e -> entries c !! k = Some e.
Proof.
  unfold cache_get. destruct (entries c !! key) as [e0|]; [|done].
  destruct (live _ _); [done|]. cbn. intros H. by apply lookup_delete_Some in H as [_ ?].
Qed.

Lemma from_history_run (os h : list op) (c : ClaimsCache) :
  from_history h c -> from_history (h ++ os) (run_ops c os).
Proof.
  revert h c. induction os as [|o os IH]; intros h c H; cbn.
  { by rewrite app_nil_r. }
  replace (h ++ o :: os) with ((h ++ [o]) ++ os) by (rewrite <- app_assoc; done).
  apply IH. intros k e He. destruct o as [key now|key v now]; cbn in He.
  - apply get_entries in He. destruct (H k e He) as (now0 & Hin & Hi). exists now0.
    split; [apply elem_of_app; auto|]. by rewrite (insertable_config _ c) by apply get_config.
  - pose proof (insert_config c key v now) as Hcfg. cbn.
    destruct (insert_entries c key v now k e He) as [He'|[-> Hi]].
    + destruct (H k e He') as (now0 & Hin & Hi). exists now0.
      split; [apply elem_of_app; auto|]. by rewrite (insertable_config _ c).
    + assert (e_claims e = v) as Hv.
      { unfold insertable in Hi. destruct (numeric_date v (txt "exp")); [|done].
        cbn in Hi. destruct (_ || _); [done|]. by injection Hi as <-. }
      exists now. rewrite Hv. split; [apply elem_of_app; right; by left|].
      by rewrite (insertable_config _ c).
Qed.

(** A cache hit is fresh. Whatever was looked up and inserted before, claims
    served for a key at [now] were inserted for that very key, carry an [exp]
    still in the future, were not stored before their [nbf], and are served less
    than [max_ttl_secs] after they were verified. *)
Theorem cache_hit_fresh (os : list op) (n ttl bytes : Z) (key : text) (now : Now) (v : Value) :
  (cache_get (run_ops (empty_cache n ttl bytes) os) key now).1 = Some v ->
  exists now0 exp, OpInsert key v now0 ∈ os /\
    numeric_date v (txt "exp") = Some exp /\ unix now < exp /\ unix now0 < exp /\
    mono now < mono now0 + ttl /\
    (forall nbf, numeric_date v (txt "nbf") = Some nbf -> nbf <= unix now0).
Proof.
  intros H. assert (Hh : from_history os (run_ops (empty_cache n ttl bytes) os)).
  { apply (from_history_run os []). intros k e He. cbn in He. by rewrite lookup_empty in He. }
  assert (Hcfg : max_ttl_secs (run_ops (empty_cache n ttl bytes) os) = ttl).
  { assert (G : forall os c, same_config (run_ops c os) c).
    { clear. induction os as [|o os IH]; intros c; cbn; [done|]. rewrite IH.
      destruct o; [apply get_config|apply insert_config]. }
    by destruct (G os (empty_cache n ttl bytes)) as (_ & -> & _). }
  set (c := run_ops _ os) in *. clearbody c.
  unfold cache_get in H. destruct (entries c !! key) as [e|] eqn:He; [|done].
  destruct (live e now) eqn:Hl; [|done]. injection H as <-.
  destruct (Hh key e He) as (now0 & Hin & Hi). unfold insertable in Hi.
  destruct (numeric_date (e_claims e) (txt "exp")) as [exp|] eqn:Hexp; [|done]. cbn in Hi.
  destruct ((exp <=? unix now0) || _) eqn:Hg; [done|].
  apply orb_false_iff in Hg as [Hg Hnbf].
  assert (Ee : e_exp e = exp /\ e_deadline e = u64_saturating_add (mono now0) (max_ttl_secs c)).
  { by injection Hi as <-. }
  destruct Ee as [Ee Ed]. unfold live, u64_saturating_add in *. bool_simpl.
  exists now0, exp. rewrite Ee, Ed, Hcfg in *.
  split; [done|]. split; [done|]. split; [lia|]. split; [lia|]. split; [lia|].
  intros nbf Hn. rewrite Hn in Hnbf. bool_simpl. lia.
Qed.

(** ** Many threads

    The operations cut at their atomic steps: a map operation locks one shard,
    [taken] and [next_sweep] are atomics. [retain] visits the shards in turn, so
    the entries it drops go one at a time, with other threads in between. *)

Module Concurrent.

Inductive pc : Type :=
| Idle
| GetDead (key : text) (now : Now)            (* read a dead entry; [remove_if] next *)
| GiveBack (freed : Z)                        (* [taken.fetch_sub(freed)] next, then done *)
| InsReserve (key : text) (e : Entry) (now : Now)
| InsClaim (key : text) (e : Entry) (now : Now)
| InsSweep (key : text) (e : Entry) (now : Now) (freed : Z)   (* inside [retain] *)
| InsRetry (key : text) (e : Entry)           (* the second [reserve] next *)
| InsStore (key : text) (e : Entry).          (* a slot is held; [entries.insert] next *)

(** One atomic step of a thread on the shared cache. *)
Inductive step : ClaimsCache -> pc -> ClaimsCache -> pc -> Prop :=
| s_get_hit c key now e :
    entries c !! key = Some e -> live e now = true -> step c Idle c Idle
| s_get_miss c key : entries c !! key = None -> step c Idle c Idle
| s_get_dead c key now e :
    entries c !! key = Some e -> live e now = false -> step c Idle c (GetDead key now)
| s_remove c key now e :
    entries c !! key = Some e -> live e now = false ->
    step c (GetDead key now) (set_entries c (delete key (entries c))) (GiveBack 1)
| s_remove_none c key now :
    (forall e, entries c !! key = Some e -> live e now = true) ->
    step c (GetDead key now) c Idle
| s_give_back c freed : step c (GiveBack freed) (set_taken c (taken c - freed)) Idle
| s_insert_skip c claims now : insertable c claims now = None -> step c Idle c Idle
| s_insert c key claims now e :
    insertable c claims now = Some e -> step c Idle c (InsReserve key e now)
| s_reserve c key e now c' :
    reserve c = (true, c') -> step c (InsReserve key e now) c' (InsStore key e)
| s_reserve_full c key e now c' :
    reserve c = (false, c') -> step c (InsReserve key e now) c' (InsClaim key e now)
| s_claim c key e now c' :
    claim_sweep c (mono now) = (true, c') -> step c (InsClaim key e now) c' (InsSweep key e now 0)
| s_claim_late c key e now c' :
    claim_sweep c (mono now) = (false, c') -> step c (InsClaim key e now) c' Idle
| s_sweep_drop c key e now freed k d :
    entries c !! k = Some d -> live d now = false ->
    step c (InsSweep key e now freed)
      (set_entries c (delete k (entries c))) (InsSweep key e now (freed + 1))
| s_sweep_done c key e now freed :
    step c (InsSweep key e now freed) (set_taken c (taken c - freed)) (InsRetry key e)
| s_retry c key e c' : reserve c = (true, c') -> step c (InsRetry key e) c' (InsStore key e)
| s_retry_full c key e c' : reserve c = (false, c') -> step c (InsRetry key e) c' Idle
| s_store_new c key e :
    entries c !! key = None ->
    step c (InsStore key e) (set_entries c (<[key := e]> (entries c))) Idle
| s_store_replace c key e old :
    entries c !! key = Some old ->
    step c (InsStore key e) (set_entries c (<[key := e]> (entries c))) (GiveBack 1).

(** The steps of one thread that nobody interrupts. *)
Definition run : relation (ClaimsCache * pc) :=
  rtc (fun x y => step x.1 x.2 y.1 y.2).

(** The threads of the process on one cache. *)
Record sys := mkSys { cache : ClaimsCache; threads : list pc }.

Inductive sys_step : sys -> sys -> Prop :=
| sys_thread c ts i p c' p' :
    ts !! i = Some p -> step c p c' p' -> sys_step (mkSys c ts) (mkSys c' (<[i := p']> ts))
| sys_spawn c ts : sys_step (mkSys c ts) (mkSys c (ts ++ [Idle])).

Inductive reachable (n ttl bytes : Z) : sys -> Prop :=
| r_init : reachable n ttl bytes (mkSys (empty_cache n ttl bytes) [])
| r_step s s' : reachable n ttl bytes s -> sys_step s s' -> reachable n ttl bytes s'.

(** The slots a thread holds beyond the entries of the map. *)
Definition owed (p : pc) : Z :=
  match p with
  | GiveBack freed => freed
  | InsSweep _ _ _ freed => freed
  | InsStore _ _ => 1
  | _ => 0
  end.

Fixpoint owed_all (ts : list pc) : Z :=
  match ts with [] => 0 | p :: ts' => owed p + owed_all ts' end.

Definition counts_nonneg (p : pc) : Prop :=
  match p with GiveBack freed | InsSweep _ _ _ freed => 0 <= freed | _ => True end.

(** Every slot is an entry's or a thread's, and none is past the limit. *)
Definition inv (n : Z) (s : sys) : Prop :=
  taken (cache s) = Z.of_nat (size (entries (cache s))) + owed_all (threads s) /\
  taken (cache s) <= n /\ max_entries (cache s) = n /\ Forall counts_nonneg (threads s).

Lemma owed_all_insert (ts : list pc) (i : nat) (p p' : pc) :
  ts !! i = Some p -> owed_all (<[i := p']> ts) = owed_all ts - owed p + owed p'.
Proof.
  revert i. induction ts as [|q ts IH]; intros [|i] H; simplify_eq/=; [lia|].
  rewrite (IH i H). lia.
Qed.

Lemma owed_all_app (ts ts' : list pc) : owed_all (ts ++ ts') = owed_all ts + owed_all ts'.
Proof. induction ts as [|p ts IH]; cbn; [done|lia]. Qed.

Lemma owed_nonneg (p : pc) : counts_nonneg p -> 0 <= owed p.
Proof. destruct p; cbn; lia. Qed.

Lemma owed_all_nonneg (ts : list pc) : Forall counts_nonneg ts -> 0 <= owed_all ts.
Proof. induction 1 as [|p ts Hp _ IH]; cbn; [lia|]. pose proof (owed_nonneg p Hp). lia. Qed.

Lemma size_delete_Some (m : gmap text Entry) (k : text) (e : Entry) :
  m !! k = Some e -> Z.of_nat (size (delete k m)) = Z.of_nat (size m) - 1.
Proof.
  intros H. rewrite map_size_delete, H. cbn.
  assert (size m <> O); [|lia]. intros Hs. apply map_size_empty_inv in Hs. subst.
  by rewrite lookup_empty in H.
Qed.

(** Each step moves as many slots between the map and the thread as it takes. *)
Lemma step_accounts (c c' : ClaimsCache) (p p' : pc) :
  step c p c' p' -> counts_nonneg p -> taken c <= max_entries c ->
  taken c' - taken c =
    (Z.of_nat (size (entries c')) + owed p') - (Z.of_nat (size (entries c)) + owed p) /\
  taken c' <= max_entries c' /\ max_entries c' = max_entries c /\ counts_nonneg p'.
Proof.
  intros Hs Hp Hle.
  destruct Hs; unfold reserve, claim_sweep in *; cbn in *;
    repeat match goal with H : context [if ?b then _ else _] |- _ => destruct b eqn:? end;
    simplify_eq/=; bool_simpl; try lia.
  - erewrite size_delete_Some by done. lia.
  - erewrite size_delete_Some by done. lia.
  - rewrite map_size_insert_None by done. lia.
  - rewrite map_size_insert_Some by eauto. lia.
Qed.

Lemma reachable_inv (n ttl bytes : Z) (s : sys) : 0 <= n -> reachable n ttl bytes s -> inv n s.
Proof.
  intros Hn. induction 1 as [|s s' _ IH Hs].
  { unfold inv. cbn. rewrite map_size_empty. auto with lia. }
  destruct IH as (Ht & Hle & Hm & HF).
  destruct Hs as [c ts i p c' p' Hi Hs|c ts]; unfold inv; cbn in *.
  - pose proof (Forall_lookup_1 _ _ _ _ HF Hi) as Hp. cbn in Hp.
    destruct (step_accounts c c' p p' Hs Hp ltac:(lia)) as (Ha & Hb & Hc & Hd).
    rewrite (owed_all_insert _ _ _ _ Hi).
    split; [lia|]. split; [lia|]. split; [lia|]. by apply Forall_insert.
  - rewrite owed_all_app. cbn. split; [lia|]. split; [done|]. split; [done|].
    apply Forall_app. split; [done|]. by repeat constructor.
Qed.

(** Uninterrupted, the steps are the operations above. *)

#[local] Instance run_preorder : PreOrder run.
Proof. unfold run. apply _. Qed.

Lemma run_cons (c c' c'' : ClaimsCache) (p p' p'' : pc) :
  step c p c' p' -> run (c', p') (c'', p'') -> run (c, p) (c'', p'').
Proof. intros Hs Hr. eapply rtc_l; [|exact Hr]. done. Qed.

Lemma sweep_run (k : nat) (c : ClaimsCache) (key : text) (e : Entry) (now : Now) (freed : Z) :
  size (entries c) = k ->
  let kept := filter (fun ke => ~ dead now ke) (entries c) in
  run (c, InsSweep key e now freed)
      (set_entries c kept,
       InsSweep key e now (freed + (Z.of_nat k - Z.of_nat (size kept)))).
Proof.
  revert c freed. induction k as [k IH] using lt_wf_ind. intros c freed Hk. cbn.
  destruct (map_choose_or_empty (filter (dead now) (entries c))) as [(d & x & Hd)|Hnone].
  - apply map_lookup_filter_Some in Hd as [Hd Hx].
    eapply run_cons; [by apply (s_sweep_drop _ _ _ _ _ d x)|].
    pose proof (size_delete_Some _ _ _ Hd) as Hsz.
    set (c' := set_entries c (delete d (entries c))).
    assert (Hf : filter (fun ke => ~ dead now ke) (entries c') =
                 filter (fun ke => ~ dead now ke) (entries c)).
    { cbn. rewrite map_filter_delete, delete_id; [done|]. apply map_lookup_filter_None. right.
      intros y Hy Hn. apply Hn. by simplify_eq. }
    pose proof (IH (k - 1)%nat ltac:(lia) c' (freed + 1) ltac:(cbn; lia)) as H.
    cbv zeta in H. rewrite Hf in H.
    replace (freed + 1 + (Z.of_nat (k - 1) - _)) with
      (freed + (Z.of_nat k - Z.of_nat (size (filter (fun ke => ~ dead now ke) (entries c)))))
      in H by lia.
    exact H.
  - assert (Hf : filter (fun ke => ~ dead now ke) (entries c) = entries c).
    { apply map_filter_id. intros i x Hx Hd.
      assert (H : filter (dead now) (entries c) !! i = Some x) by by apply map_lookup_filter_Some.
      rewrite Hnone in H. by rewrite lookup_empty in H. }
    rewrite Hf, Hk, Z.sub_diag, Z.add_0_r. destruct c. apply rtc_refl.
Qed.

(** Run by one thread without interruption, the atomic steps of [insert]
    lead to the state [cache_insert] computes, the sweep included. *)
Theorem insert_run (c : ClaimsCache) (key : text) (v : Value) (now : Now) :
  run (c, Idle) (cache_insert c key v now, Idle).
Proof.
  assert (Hstore : forall c0 e0, run (c0, InsStore key e0) (store c0 key e0, Idle)).
  { intros c0 e0. unfold store. destruct (entries c0 !! key) as [old|] eqn:Hk; case_decide as Hd.
    - eapply run_cons; [by eapply s_store_replace|]. eapply run_cons; [constructor|]. apply rtc_refl.
    - by destruct Hd.
    - by destruct Hd.
    - eapply run_cons; [by constructor|]. apply rtc_refl. }
  unfold cache_insert. destruct (insertable c v now) as [e|] eqn:Hi.
  2:{ apply rtc_refl. }
  eapply run_cons; [by eapply s_insert|].
  destruct (reserve c) as [[] c1] eqn:Hr.
  { eapply run_cons; [by eapply s_reserve|]. apply Hstore. }
  eapply run_cons; [by eapply s_reserve_full|].
  destruct (claim_sweep c1 (mono now)) as [[] c2] eqn:Hc.
  2:{ eapply run_cons; [by eapply s_claim_late|]. apply rtc_refl. }
  eapply run_cons; [by eapply s_claim|].
  etrans; [apply (sweep_run _ c2 key e now 0 eq_refl)|].
  eapply run_cons; [by eapply s_sweep_done|]. rewrite Z.add_0_l.
  change (set_taken _ _) with (sweep c2 now).
  destruct (reserve (sweep c2 now)) as [[] c3] eqn:Hr2.
  - eapply run_cons; [by eapply s_retry|]. apply Hstore.
  - eapply run_cons; [by eapply s_retry_full|]. apply rtc_refl.
Qed.

(** C28: the cache stays within its bound under any interleaving. Whatever
    threads look up, insert, sweep and replace entries at once, the map never
    holds more than [max_entries], the slot counter never goes below zero (no
    [usize] underflow), and every slot counts an entry or one a thread is about
    to fill or give back: with all threads idle, none has leaked. *)
Theorem concurrent_bounded (n ttl bytes : Z) (s : sys) :
  0 <= n -> reachable n ttl bytes s ->
  Z.of_nat (size (entries (cache s))) <= n /\ 0 <= taken (cache s) <= n /\
  (Forall (fun p => p = Idle) (threads s) ->
   taken (cache s) = Z.of_nat (size (entries (cache s)))).
Proof.
  intros Hn Hr. destruct (reachable_inv n ttl bytes s Hn Hr) as (Ht & Hle & Hm & HF).
  pose proof (owed_all_nonneg _ HF). split; [lia|]. split; [lia|].
  intros Hidle. rewrite Ht. cut (owed_all (threads s) = 0); [lia|].
  clear -Hidle. induction Hidle as [|p ts -> _ IH]; cbn; [done|lia].
Qed.

(** ** Witnesses *)

Definition demo_claims : Value := Object [(txt "exp", Num (PosInt 100))].
Definition demo_now : Now := mkNow 50 7.

Definition demo_ops : list op := [OpInsert (txt "k") demo_claims demo_now].

Lemma cache_hit_fresh_witness :
  exists now0 exp, OpInsert (txt "k") demo_claims now0 ∈ demo_ops /\
    numeric_date demo_claims (txt "exp") = Some exp /\ 60 < exp /\ unix now0 < exp /\
    17 < mono now0 + 30 /\
    (forall nbf, numeric_date demo_claims (txt "nbf") = Some nbf -> nbf <= unix now0).
Proof.
  exact (cache_hit_fresh demo_ops 2 30 4096 (txt "k") (mkNow 60 17) demo_claims
           ltac:(vm_compute; reflexivity)).
Defined.

(** One slot, two threads inserting at once: the second finds it reserved. *)
Definition demo_entry : Entry := mkEntry demo_claims 100 37.
Definition demo_sys : sys :=
  mkSys (mkCache {[txt "k" := demo_entry]} 1 1 30 4096 0)
        [Idle; InsClaim (txt "j") demo_entry demo_now].

Lemma demo_reachable : reachable 1 30 4096 demo_sys.
Proof.
  assert (Hi : insertable (empty_cache 1 30 4096) demo_claims demo_now = Some demo_entry)
    by reflexivity.
  assert (R0 : reachable 1 30 4096 (mkSys (empty_cache 1 30 4096) [Idle; Idle])).
  { eapply r_step; [eapply r_step; [apply r_init|apply sys_spawn]|].
    apply (sys_spawn _ [Idle]). }
  assert (R1 : reachable 1 30 4096 (mkSys (empty_cache 1 30 4096)
                 [InsReserve (txt "k") demo_entry demo_now; Idle])).
  { eapply r_step; [exact R0|].
    exact (sys_thread _ [Idle; Idle] 0 Idle _ _ eq_refl (s_insert _ _ _ _ _ Hi)). }
  assert (R2 : reachable 1 30 4096 (mkSys (empty_cache 1 30 4096)
                 [InsReserve (txt "k") demo_entry demo_now;
                  InsReserve (txt "j") demo_entry demo_now])).
  { eapply r_step; [exact R1|].
    exact (sys_thread _ [_; Idle] 1 Idle _ _ eq_refl (s_insert _ _ _ _ _ Hi)). }
  assert (R3 : reachable 1 30 4096 (mkSys (mkCache ∅ 1 1 30 4096 0)
                 [InsStore (txt "k") demo_entry; InsReserve (txt "j") demo_entry demo_now])).
  { eapply r_step; [exact R2|].
    exact (sys_thread _ [_; _] 0 _ _ _ eq_refl (s_reserve (empty_cache 1 30 4096) _ _ _
             (mkCache ∅ 1 1 30 4096 0) eq_refl)). }
  assert (R4 : reachable 1 30 4096 (mkSys (mkCache ∅ 1 1 30 4096 0)
                 [InsStore (txt "k") demo_entry; InsClaim (txt "j") demo_entry demo_now])).
  { eapply r_step; [exact R3|].
    exact (sys_thread _ [_; _] 1 _ _ _ eq_refl (s_reserve_full (mkCache ∅ 1 1 30 4096 0) _ _ _
             (mkCache ∅ 1 1 30 4096 0) eq_refl)). }
  eapply r_step; [exact R4|].
  exact (sys_thread _ [_; _] 0 _ _ _ eq_refl (s_store_new (mkCache ∅ 1 1 30 4096 0) (txt "k") demo_entry eq_refl)).
Qed.

Lemma concurrent_bounded_witness :
  Z.of_nat (size (entries (cache demo_sys))) <= 1 /\ 0 <= taken (cache demo_sys) <= 1 /\
  (Forall (fun p => p = Idle) (threads demo_sys) ->
   taken (cache demo_sys) = Z.of_nat (size (entries (cache demo_sys)))).
Proof. exact (concurrent_bounded 1 30 4096 demo_sys ltac:(lia) demo_reachable). Defined.

End Concurrent.
