(* ===== verification/ClientAddress.v ===== *)
(** * The client's address ([src/client_address.rs])

    Resolution of the client behind trusted proxies, and the rewriting of the
    forwarding headers. The [http] and [ipnet] crates are the interfaces
    [HttpLib] and [IpNetLib]. *)

From S2P Require Import Prelude Rust Http Net.

Definition X_FORWARDED_FOR : text := txt "x-forwarded-for".
Definition X_REAL_IP : text := txt "x-real-ip".
Definition FORWARDED : text := txt "forwarded".

(** Whether [name] is a header carrying a client's address. *)
Definition owns (name : text) : bool :=
  eq_ignore_ascii_case name (txt "x-forwarded-for")
  || eq_ignore_ascii_case name (txt "x-real-ip")
  || eq_ignore_ascii_case name (txt "forwarded").

(** [is_grpc_key] of [src/transcode/metadata.rs]. *)
Definition is_grpc_key (name : text) : bool :=
  match name with [] => false | _ => true end &&
  forallb (fun b => let b := byte_lower b in
             is_ascii_digit b || is_ascii_lowercase b ||
             bool_decide (b = ch "_") || bool_decide (b = ch "-") || bool_decide (b = ch ".")) name.

Definition MAX_HOPS : nat := 32.
Definition MAX_ELEMENT : nat := 128.

(** ** Data *)

Inductive InvalidForwarding := Malformed | TooManyHops | Repeated | Conflicting.

Inductive Resolution :=
| Peer (ip : IpAddr)
| Forwarded (ip : IpAddr)
| Invalid (why : InvalidForwarding)
| Unavailable.

Record ClientAddress := mkClient {
  ca_peer : option SocketAddr;
  ca_resolution : Resolution;
  ca_value : option text;
}.

#[export] Instance InvalidForwarding_eq_dec : EqDecision InvalidForwarding.
Proof. solve_decision. Defined.
#[export] Instance Resolution_eq_dec : EqDecision Resolution.
Proof. solve_decision. Defined.

(** [Display] of [InvalidForwarding]. *)
Definition invalid_text (e : InvalidForwarding) : text :=
  match e with
  | Malformed => txt "malformed"
  | TooManyHops => txt "beyond too many trusted hops"
  | Repeated => txt "repeated"
  | Conflicting => txt "in conflict with itself"
  end.

Inductive XForwardedFor := XVerified | XResolved | XAppend | XPreserve | XRemove.
Inductive ForwardingHeader := FXForwardedFor | FXRealIp | FCleanedReport.

#[export] Instance XForwardedFor_eq_dec : EqDecision XForwardedFor.
Proof. solve_decision. Defined.

Record ForwardConfig := mkForwardConfig {
  f_x_forwarded_for : XForwardedFor;
  f_client_header : option text;
  f_audit_header : option text;
}.

Record ClientAddressConfig := mkAddressConfig {
  cf_trusted_proxies : list text;
  cf_header : ForwardingHeader;
  cf_required : bool;
  cf_forward : ForwardConfig;
}.

(** [ClientAddress::new], [from_peer] and [ip]. *)
Definition resolved_ip (r : Resolution) : option IpAddr :=
  match r with Peer ip | Forwarded ip => Some ip | Invalid _ | Unavailable => None end.

Definition client_new (peer : option SocketAddr) (r : Resolution) : ClientAddress :=
  mkClient peer r (show_ip <$> resolved_ip r).

Definition from_peer (peer : option SocketAddr) : ClientAddress :=
  client_new peer match peer with
                  | Some p => Peer (to_canonical (sa_ip p))
                  | None => Unavailable
                  end.

Definition client_ip (c : ClientAddress) : option IpAddr := resolved_ip (ca_resolution c).

(** ** Reading forwarding headers *)

Definition is_ows (b : ascii) : bool := bool_decide (b = ch " ") || (code b =? 9).

Definition trim_whitespace (bytes : text) : text :=
  let start := default (length bytes) (position (fun b => negb (is_ows b)) bytes) in
  let end_ := match rposition (fun b => negb (is_ows b)) bytes with
              | Some e => S e
              | None => start
              end in
  drop start (take end_ bytes).

(** The last element of a list header, and what precedes its comma. *)
Definition last_element (bytes : text) : result (text * option text) InvalidForwarding :=
  let window := (length bytes - (MAX_ELEMENT + 1))%nat in
  match rposition (fun b => bool_decide (b = ch ",")) (drop window bytes) with
  | Some comma => Ok (trim_whitespace (drop (window + comma + 1) bytes),
                      Some (take (window + comma) bytes))
  | None => if Nat.eqb window 0 then Ok (trim_whitespace bytes, None) else Err Malformed
  end.

Definition parse_address (bytes : text) : option IpAddr :=
  if negb (utf8_valid bytes) then None else
  match parse_ip bytes with
  | Some ip => Some ip
  | None =>
      match parse_socket bytes with
      | Some socket => Some (sa_ip socket)
      | None =>
          let! r := strip_prefix (txt "[") bytes in
          let! v6 := strip_suffix (txt "]") r in
          V6 <$> parse_ipv6 v6
      end
  end.

Definition real_ip (lines : list text) : result (option IpAddr) InvalidForwarding :=
  match lines with
  | [] => Ok None
  | [raw] =>
      if Nat.ltb MAX_ELEMENT (length raw) then Err Malformed
      else match parse_address (trim_whitespace raw) with
           | Some ip => Ok (Some (to_canonical ip))
           | None => Err Malformed
           end
  | _ :: _ :: _ => Err Repeated
  end.

(** ** The walk through the trusted proxies *)

Section Walk.
Context (trusts : IpAddr -> bool).

(** Where the walk is between two elements: the reads left of [MAX_HOPS], the
    leftmost address so far, and the hops noted, nearest first. *)
Record walk_state := mkWalk {
  w_left : nat;
  w_leftmost : option IpAddr;
  w_hops : option (list IpAddr);
}.

(** The walk ends with an answer, or goes on to the next line. *)
Inductive walk_result :=
| Stop (r : result (option IpAddr) InvalidForwarding) (hops : option (list IpAddr))
| Next (s : walk_state).

Definition push_hop (hops : option (list IpAddr)) (ip : IpAddr) : option (list IpAddr) :=
  (fun l => l ++ [ip]) <$> hops.

(** The inner loop on one line, its last element first. Each turn takes one of
    the reads left, so the guard on [MAX_HOPS] bounds it. *)
Fixpoint walk_line (left : nat) (leftmost : option IpAddr) (hops : option (list IpAddr))
  (rest : text) : walk_result :=
  match left with
  | O => Stop (Err TooManyHops) hops
  | S left' =>
      match last_element rest with
      | Err e => Stop (Err e) hops
      | Ok (element, before) =>
          let continue leftmost hops :=
            match before with
            | Some before => walk_line left' leftmost hops before
            | None => Next (mkWalk left' leftmost hops)
            end in
          match element with
          | [] => continue leftmost hops
          | _ =>
              match parse_address element with
              | None => Stop (Err Malformed) hops
              | Some ip =>
                  let ip := to_canonical ip in
                  if trusts ip then continue (Some ip) (push_hop hops ip)
                  else Stop (Ok (Some ip)) hops
              end
          end
      end
  end.

(** The lines, last first. *)
Fixpoint walk_lines (s : walk_state) (lines : list text) : walk_result :=
  match lines with
  | [] => Next s
  | line :: lines' =>
      match walk_line (w_left s) (w_leftmost s) (w_hops s) line with
      | Stop r hops => Stop r hops
      | Next s' => walk_lines s' lines'
      end
  end.

(** [Vec::pop]. *)
Definition pop_hop (hops : option (list IpAddr)) : option (list IpAddr) :=
  (fun l => take (length l - 1) l) <$> hops.

(** [Resolver::walk] on the lines in wire order. *)
Definition walk (lines : list text) (hops : option (list IpAddr))
  : result (option IpAddr) InvalidForwarding * option (list IpAddr) :=
  match walk_lines (mkWalk MAX_HOPS None hops) (reverse lines) with
  | Stop r hops => (r, hops)
  | Next s =>
      (Ok (w_leftmost s),
       match w_leftmost s with Some _ => pop_hop (w_hops s) | None => w_hops s end)
  end.
End Walk.

(** ** The resolver *)

Section Resolver.
Context {H : HttpLib} {N : IpNetLib}.

(** Why [Resolver::build] refuses a configuration. *)
Inductive build_error :=
| BadTrusted (entry : text)
| NotMetadataKey (setting name : text)
| BinaryKey (setting name : text)
| AlreadyWritten (setting name : text).

(** A range inside the IPv4-mapped block becomes the IPv4 range it maps. The
    [expect] on [Ipv4Net::new] is [None]. *)
Definition canonical_net (net : IpNet) : option IpNet :=
  match net_network net with
  | V6 network =>
      match to_ipv4_mapped network with
      | Some v4 => if 96 <=? net_prefix_len net then net_v4 v4 (net_prefix_len net - 96)
                   else Some net
      | None => Some net
      end
  | V4 _ => Some net
  end.

Definition parse_trusted (entry : text) : result (option IpNet) build_error :=
  match net_parse entry with
  | Some net => Ok (canonical_net net)
  | None =>
      match parse_ip entry with
      | Some ip => Ok (canonical_net (net_host ip))
      | None => Err (BadTrusted entry)
      end
  end.

Definition forward_header (setting name : text) (taken : list text) : result text build_error :=
  match header_name name with
  | Some header =>
      if is_grpc_key header then
        if ends_with (txt "-bin") header then Err (BinaryKey setting name)
        else if bool_decide (header ∈ taken) then Err (AlreadyWritten setting name)
        else Ok header
      else Err (NotMetadataKey setting name)
  | None => Err (NotMetadataKey setting name)
  end.

Record Resolver := mkResolver {
  r_trusted : list IpNet;
  r_header : ForwardingHeader;
  r_required : bool;
  r_forward : XForwardedFor;
  r_client_header : option text;
  r_audit_header : option text;
}.

(** [Option::map(f).transpose()]. *)
Definition transpose_map {A B E} (f : A -> result B E) (o : option A) : result (option B) E :=
  match o with
  | None => Ok None
  | Some a => let? b := f a in Ok (Some b)
  end.

(** [Resolver::build]; [None] is the [expect] of [canonical_net]. *)
Definition resolver_build (config : ClientAddressConfig) : result (option Resolver) build_error :=
  let? nets := collect_results parse_trusted (cf_trusted_proxies config) in
  let forward := cf_forward config in
  let? client_header := transpose_map
    (fun name => forward_header (txt "client_header") name
                   [txt "x-forwarded-for"; txt "forwarded"]) (f_client_header forward) in
  let? audit_header := transpose_map
    (fun name => forward_header (txt "audit_header") name
                   ([txt "x-forwarded-for"; txt "x-real-ip"; txt "forwarded"] ++
                    option_list client_header)) (f_audit_header forward) in
  Ok (trusted ← mapM id nets;
      Some (mkResolver trusted (cf_header config) (cf_required config)
              (f_x_forwarded_for forward) client_header audit_header)).

Definition configured_headers (r : Resolver) : list text :=
  option_list (r_client_header r) ++ option_list (r_audit_header r).

Definition reserves (r : Resolver) (name : text) : bool :=
  owns name || existsb (fun own => eq_ignore_ascii_case name own) (configured_headers r).

Definition forwarded_headers (r : Resolver) : list text :=
  [txt "x-forwarded-for"; txt "x-real-ip"; txt "forwarded"] ++ configured_headers r.

Definition r_trusts (r : Resolver) (ip : IpAddr) : bool :=
  existsb (fun net => net_contains net ip) (r_trusted r).

Definition cleaned_report (headers : HeaderMap) : result (option IpAddr) InvalidForwarding :=
  let? reported := real_ip (hm_get_all headers X_REAL_IP) in
  let agrees :=
    negb (hm_contains headers FORWARDED) &&
    match reported, hm_get_all headers X_FORWARDED_FOR with
    | _, _ :: _ :: _ => false
    | None, [_] => false
    | _, [] => true
    | Some ip, [line] =>
        match real_ip [line] with Ok (Some other) => bool_decide (other = ip) | _ => false end
    end in
  if agrees then Ok reported else Err Conflicting.

(** [resolve_noting]: the address, and the hops noted. *)
Definition resolve_noting (r : Resolver) (peer : option SocketAddr) (headers : HeaderMap)
  (hops : option (list IpAddr)) : ClientAddress * option (list IpAddr) :=
  match peer with
  | None => (client_new None Unavailable, hops)
  | Some p =>
      let peer_ip := to_canonical (sa_ip p) in
      if negb (r_trusts r peer_ip) then (client_new peer (Peer peer_ip), hops)
      else
        let '(forwarded, hops) :=
          match r_header r with
          | FXForwardedFor => walk (r_trusts r) (hm_get_all headers X_FORWARDED_FOR) hops
          | FXRealIp => (real_ip (hm_get_all headers X_REAL_IP), hops)
          | FCleanedReport => (cleaned_report headers, hops)
          end in
        let resolution :=
          match forwarded with
          | Ok (Some ip) => Forwarded ip
          | Ok None => if r_required r then Unavailable else Peer peer_ip
          | Err invalid => Invalid invalid
          end in
        (client_new peer resolution, hops)
  end.

(** ** What the upstream receives *)

Definition verified_chain (client : ClientAddress) (hops : list IpAddr) : option text :=
  let! value := ca_value client in
  match ca_resolution client with
  | Forwarded ip =>
      let! p := ca_peer client in
      let peer := to_canonical (sa_ip p) in
      Some (foldl (fun chain hop => chain ++ txt ", " ++ show_ip hop)
              (show_ip ip) (reverse hops ++ [peer]))
  | _ => Some value
  end.

Definition appended_chain (headers : HeaderMap) (peer : option SocketAddr) : option text :=
  let lines := hm_get_all headers X_FORWARDED_FOR in
  match peer with
  | None =>
      match lines with
      | [] => None
      | first :: more => Some (foldl (fun joined line => joined ++ txt ", " ++ line) first more)
      end
  | Some p =>
      Some (foldl (fun chain line => chain ++ line ++ txt ", ") [] lines ++
            show_ip (to_canonical (sa_ip p)))
  end.

Definition remove_opt_insert (h : HeaderMap) (name : text) (value : option text) : HeaderMap :=
  let h := hm_remove h name in
  match value with Some v => hm_insert h name v | None => h end.

(** The blocks of [apply]: the audit header, ... *)
Definition write_audit (r : Resolver) (headers : HeaderMap) : HeaderMap :=
  match r_audit_header r with
  | Some audit =>
      let arrived := hm_get_all headers X_FORWARDED_FOR in
      foldl (fun h line => hm_append h audit line) (hm_remove headers audit) arrived
  | None => headers
  end.

(** ... the value of [X-Forwarded-For], ... *)
Definition chain_of (r : Resolver) (headers : HeaderMap) (client : ClientAddress)
  (hops : list IpAddr) : option text :=
  match r_forward r with
  | XVerified => verified_chain client hops
  | XResolved => ca_value client
  | XAppend => appended_chain headers (ca_peer client)
  | XPreserve | XRemove => None
  end.

(** ... and the three headers the proxy owns. *)
Definition write_chain (r : Resolver) (headers : HeaderMap) (xff : option text) : HeaderMap :=
  if decide (r_forward r = XPreserve) then headers else
    let h := hm_remove headers X_FORWARDED_FOR in
    let h := hm_remove h X_REAL_IP in
    let h := hm_remove h FORWARDED in
    match xff with Some v => hm_insert h X_FORWARDED_FOR v | None => h end.

Definition noting (r : Resolver) : option (list IpAddr) :=
  if decide (r_forward r = XVerified) then Some [] else None.

(** [apply]: the request's headers rewritten, and the address put on it. *)
Definition apply (r : Resolver) (headers : HeaderMap) (peer : option SocketAddr)
  : HeaderMap * ClientAddress :=
  let '(client, noted) := resolve_noting r peer headers (noting r) in
  let hops := default [] noted in
  let headers := write_audit r headers in
  let xff := chain_of r headers client hops in
  let headers := write_chain r headers xff in
  let headers :=
    match r_client_header r with
    | Some name => remove_opt_insert headers name (ca_value client)
    | None => headers
    end in
  (headers, client).
End Resolver.

(** ** The walk, element by element *)

(** The last comma of a text, when it has one. *)
Lemma last_comma (c : ascii) (s : text) :
  c ∉ s \/ exists l r, s = l ++ c :: r /\ c ∉ r.
Proof.
  induction s as [|a s IH]; [left; apply not_elem_of_nil|].
  destruct IH as [Hn|(l & r & -> & Hr)].
  - destruct (decide (a = c)) as [->|Hne].
    + right. by exists [], s.
    + left. rewrite not_elem_of_cons. auto.
  - right. by exists (a :: l), r.
Qed.

Lemma no_comma_Forall (c : ascii) (s : text) :
  c ∉ s -> Forall (fun b => bool_decide (b = c) = false) s.
Proof.
  intros Hn. apply Forall_forall. intros b Hb. apply bool_decide_eq_false. by intros ->.
Qed.

Lemma last_element_comma (l r : text) :
  ch "," ∉ r ->
  last_element (l ++ ch "," :: r) =
  if Nat.leb (length r) MAX_ELEMENT then Ok (trim_whitespace r, Some l) else Err Malformed.
Proof.
  intros Hr%no_comma_Forall. unfold last_element. rewrite length_app. cbn [length].
  set (w := (length l + S (length r) - (MAX_ELEMENT + 1))%nat).
  destruct (Nat.leb_spec (length r) MAX_ELEMENT) as [Hle|Hgt].
  - assert (Hw : (w <= length l)%nat) by (unfold w; lia).
    rewrite drop_app_le by done. rewrite rposition_split by done.
    rewrite length_drop. do 3 f_equal.
    + f_equal. rewrite drop_app_ge by lia.
      replace (w + (length l - w) + 1 - length l)%nat with 1%nat by lia. done.
    + f_equal. rewrite take_app_le by lia. apply take_ge. lia.
  - assert (Hw : (length l < w)%nat) by (unfold w; lia).
    rewrite drop_app_ge by lia.
    replace (w - length l)%nat with (S (w - length l - 1)) by lia. cbn [drop].
    rewrite rposition_none by by apply Forall_drop.
    destruct (Nat.eqb_spec w 0); [lia|done].
Qed.

Lemma last_element_single (s : text) :
  ch "," ∉ s ->
  last_element s =
  if Nat.leb (length s) (MAX_ELEMENT + 1) then Ok (trim_whitespace s, None) else Err Malformed.
Proof.
  intros Hs%no_comma_Forall. unfold last_element.
  rewrite rposition_none by by apply Forall_drop.
  destruct (Nat.leb_spec (length s) (MAX_ELEMENT + 1)), (Nat.eqb_spec (length s - (MAX_ELEMENT + 1)) 0);
    done || lia.
Qed.

Lemma split_snoc (c : ascii) (l r : text) :
  c ∉ r -> split c (l ++ c :: r) = split c l ++ [r].
Proof.
  intros Hr. induction l as [|a l IH]; cbn.
  - rewrite decide_True by done. by rewrite split_no_sep.
  - rewrite IH. destruct (decide (a = c)); [done|].
    destruct (split c l) as [|p q] eqn:E; [by destruct (split_nonnil c l)|]. done.
Qed.

(** The elements of a line in wire order, each with the bytes it may hold: one
    after a comma [MAX_ELEMENT], the first of the line one more. *)
Definition raw_elements (line : text) : list (nat * text) :=
  match split (ch ",") line with
  | [] => []
  | r :: rs => (S MAX_ELEMENT, r) :: (pair MAX_ELEMENT <$> rs)
  end.

(** The elements of a list header sent in several lines. *)
Definition raws (lines : list text) : list (nat * text) := mjoin (raw_elements <$> lines).

Lemma raw_elements_snoc (l r : text) :
  ch "," ∉ r -> raw_elements (l ++ ch "," :: r) = raw_elements l ++ [(MAX_ELEMENT, r)].
Proof.
  intros Hr. unfold raw_elements. rewrite split_snoc by done.
  destruct (split (ch ",") l) as [|x xs] eqn:E; [by destruct (split_nonnil _ _ E)|].
  cbn [app]. by rewrite fmap_app.
Qed.

Lemma raw_elements_single (s : text) : ch "," ∉ s -> raw_elements s = [(S MAX_ELEMENT, s)].
Proof. intros Hs. unfold raw_elements. by rewrite split_no_sep. Qed.

Lemma raw_elements_nonnil (s : text) : raw_elements s <> [].
Proof.
  unfold raw_elements. destruct (split (ch ",") s) eqn:E; [|done]. by destruct (split_nonnil _ _ E).
Qed.

(** The address of an element. *)
Definition address (e : nat * text) : option IpAddr :=
  to_canonical <$> parse_address (trim_whitespace e.2).

Section Reference.
Context (trusts : IpAddr -> bool).

Definition passes (e : nat * text) : Prop :=
  (length e.2 <= e.1)%nat /\
  (trim_whitespace e.2 = [] \/ exists ip, address e = Some ip /\ trusts ip = true).

(** The walk over elements, nearest first. *)
Fixpoint scan (left : nat) (leftmost : option IpAddr) (hops : option (list IpAddr))
  (es : list (nat * text)) {struct es} : walk_result :=
  match es with
  | [] => Next (mkWalk left leftmost hops)
  | e :: es' =>
      match left with
      | O => Stop (Err TooManyHops) hops
      | S left' =>
          if Nat.leb (length e.2) e.1 then
            match trim_whitespace e.2 with
            | [] => scan left' leftmost hops es'
            | _ =>
                match address e with
                | None => Stop (Err Malformed) hops
                | Some ip =>
                    if trusts ip then scan left' (Some ip) (push_hop hops ip) es'
                    else Stop (Ok (Some ip)) hops
                end
            end
          else Stop (Err Malformed) hops
      end
  end.

Lemma walk_line_scan (left : nat) (leftmost : option IpAddr) (hops : option (list IpAddr))
  (line : text) :
  walk_line trusts left leftmost hops line = scan left leftmost hops (reverse (raw_elements line)).
Proof.
  revert leftmost hops line. induction left as [|left IH]; intros leftmost hops line.
  { destruct (reverse (raw_elements line)) as [|r rs] eqn:E; [|done].
    apply (f_equal reverse) in E. rewrite reverse_involutive in E. by destruct (raw_elements_nonnil _ E). }
  cbn [walk_line]. destruct (last_comma (ch ",") line) as [Hn|(l & r & -> & Hr)].
  - rewrite last_element_single, raw_elements_single, reverse_singleton by done. cbn [scan fst snd].
    rewrite Nat.add_1_r. destruct (Nat.leb _ _); [|done]. unfold address. cbn [snd].
    destruct (trim_whitespace line); [done|]. destruct (parse_address _); [|done].
    cbn. by destruct (trusts _).
  - rewrite last_element_comma, raw_elements_snoc, reverse_app, reverse_singleton by done.
    cbn [app scan fst snd]. destruct (Nat.leb _ _); [|done]. unfold address. cbn [snd].
    destruct (trim_whitespace r); [by rewrite IH|]. destruct (parse_address _); [|done].
    cbn. destruct (trusts _); [by rewrite IH|done].
Qed.

Lemma scan_app (left : nat) (leftmost : option IpAddr) (hops : option (list IpAddr))
  (xs ys : list (nat * text)) :
  scan left leftmost hops (xs ++ ys) =
  match scan left leftmost hops xs with
  | Stop r h => Stop r h
  | Next s => scan (w_left s) (w_leftmost s) (w_hops s) ys
  end.
Proof.
  revert left leftmost hops. induction xs as [|x xs IH]; intros left leftmost hops; [done|].
  cbn [app scan]. destruct left; [done|]. destruct (Nat.leb _ _); [|done].
  destruct (trim_whitespace _); [apply IH|]. destruct (address x); [|done].
  destruct (trusts _); [apply IH|done].
Qed.

Lemma walk_lines_scan (s : walk_state) (lines : list text) :
  walk_lines trusts s lines =
  scan (w_left s) (w_leftmost s) (w_hops s) (mjoin ((reverse ∘ raw_elements) <$> lines)).
Proof.
  revert s. induction lines as [|l lines IH]; intros [left lm hops]; [done|].
  cbn [walk_lines fmap list_fmap mjoin list_join compose w_left w_leftmost w_hops].
  rewrite scan_app, walk_line_scan. by destruct (scan _ _ _ _).
Qed.

Lemma reverse_raws (lines : list text) :
  reverse (raws lines) = mjoin ((reverse ∘ raw_elements) <$> reverse lines).
Proof.
  unfold raws. induction lines as [|l lines IH]; [done|].
  rewrite reverse_cons, fmap_app, join_app, <- IH.
  change (mjoin (raw_elements <$> l :: lines)) with (raw_elements l ++ mjoin (raw_elements <$> lines)).
  rewrite reverse_app. cbn. by rewrite app_nil_r.
Qed.

Lemma walk_scan (lines : list text) (hops : option (list IpAddr)) :
  walk trusts lines hops =
  match scan MAX_HOPS None hops (reverse (raws lines)) with
  | Stop r hops => (r, hops)
  | Next s => (Ok (w_leftmost s),
               match w_leftmost s with Some _ => pop_hop (w_hops s) | None => w_hops s end)
  end.
Proof. unfold walk. rewrite walk_lines_scan, reverse_raws. done. Qed.

(** Noting several hops. *)
Definition push_hops (hops : option (list IpAddr)) (ips : list IpAddr) : option (list IpAddr) :=
  (fun l => l ++ ips) <$> hops.

Lemma push_hops_nil (hops : option (list IpAddr)) : push_hops hops [] = hops.
Proof. destruct hops; cbn; [by rewrite app_nil_r|done]. Qed.

Lemma push_hops_cons (hops : option (list IpAddr)) (ip : IpAddr) (ips : list IpAddr) :
  push_hops (push_hop hops ip) ips = push_hops hops (ip :: ips).
Proof. destruct hops; cbn; [by rewrite <- app_assoc|done]. Qed.

Lemma address_nil (e : nat * text) : trim_whitespace e.2 = [] -> address e = None.
Proof. unfold address. by intros ->. Qed.

(** The elements that pass only use up reads and note their addresses. *)
Lemma scan_passes (left : nat) (leftmost : option IpAddr) (hops : option (list IpAddr))
  (xs : list (nat * text)) :
  Forall passes xs -> (length xs <= left)%nat ->
  scan left leftmost hops xs =
  Next (mkWalk (left - length xs)
          (match last (omap address xs) with Some ip => Some ip | None => leftmost end)
          (push_hops hops (omap address xs))).
Proof.
  intros HF. revert left leftmost hops. induction HF as [|x xs [Hlen Hx] _ IH];
    intros left leftmost hops Hle; cbn [length] in *.
  { cbn. by rewrite push_hops_nil, Nat.sub_0_r. }
  destruct left as [|left]; [lia|]. cbn [scan]. rewrite leb_correct by done.
  destruct Hx as [Hnil|(ip & Hip & Ht)].
  - rewrite Hnil. cbn [omap list_omap]. rewrite (address_nil x Hnil). apply IH. lia.
  - cbn [omap list_omap]. rewrite Hip. rewrite <- push_hops_cons.
    destruct (trim_whitespace x.2) eqn:E; [by rewrite address_nil in Hip|].
    rewrite Ht, IH by lia. cbn [Nat.sub]. do 2 f_equal.
    rewrite last_cons. unfold omap. by destruct (last _).
Qed.

Lemma scan_next (left : nat) (leftmost : option IpAddr) (hops : option (list IpAddr))
  (xs : list (nat * text)) (s : walk_state) :
  scan left leftmost hops xs = Next s -> Forall passes xs /\ (length xs <= left)%nat.
Proof.
  revert left leftmost hops. induction xs as [|x xs IH]; intros left leftmost hops; cbn [scan length].
  { intros _. split; [constructor|lia]. }
  destruct left as [|left]; [done|]. destruct (Nat.leb_spec (length x.2) x.1); [|done].
  destruct (trim_whitespace x.2) eqn:E.
  - intros [HF Hl]%IH. split; [|lia]. constructor; [|done]. split; [done|by left].
  - destruct (address x) as [ip|] eqn:Ha; [|done]. destruct (trusts ip) eqn:Ht; [|done].
    intros [HF Hl]%IH. split; [|lia]. constructor; [|done]. split; [done|]. right. eauto.
Qed.

Lemma scan_stop_ok (left : nat) (leftmost : option IpAddr) (hops hops' : option (list IpAddr))
  (xs : list (nat * text)) (r : option IpAddr) :
  scan left leftmost hops xs = Stop (Ok r) hops' <->
  exists near e far ip, xs = near ++ e :: far /\ (length near < left)%nat /\ Forall passes near /\
    (length e.2 <= e.1)%nat /\ address e = Some ip /\ trusts ip = false /\ r = Some ip /\
    hops' = push_hops hops (omap address near).
Proof.
  split.
  - revert left leftmost hops. induction xs as [|x xs IH]; intros left leftmost hops; cbn [scan]; [done|].
    destruct left as [|left]; [done|]. destruct (Nat.leb_spec (length x.2) x.1); [|done].
    destruct (trim_whitespace x.2) eqn:E.
    + intros (near & e & far & ip & -> & Hl & HF & Hrest)%IH. exists (x :: near), e, far, ip.
      split; [done|]. cbn [length omap list_omap]. rewrite (address_nil x E).
      split; [lia|]. split; [|done]. constructor; [|done]. split; [done|by left].
    + destruct (address x) as [ip|] eqn:Ha; [|done]. destruct (trusts ip) eqn:Ht.
      * intros (near & e & far & ip' & -> & Hl & HF & He & Hip & Htr & Hr & ->)%IH.
        exists (x :: near), e, far, ip'. cbn [length omap list_omap]. rewrite Ha.
        split; [done|]. split; [lia|]. rewrite <- push_hops_cons. split; [|done].
        constructor; [|done]. split; [done|]. right. eauto.
      * intros [= <- <-]. exists [], x, xs, ip. cbn. rewrite push_hops_nil.
        split_and!; try done. lia.
  - intros (near & e & far & ip & -> & Hl & HF & He & Hip & Ht & -> & ->).
    rewrite scan_app, scan_passes by (done || lia). cbn [scan w_left w_leftmost w_hops].
    destruct (left - length near)%nat eqn:E; [lia|]. rewrite leb_correct by done.
    destruct (trim_whitespace e.2) eqn:En; [by rewrite address_nil in Hip|]. by rewrite Hip, Ht.
Qed.

Lemma passing_trusted (xs : list (nat * text)) (ip : IpAddr) :
  Forall passes xs -> last (omap address xs) = Some ip -> trusts ip = true.
Proof.
  intros HF Hl. apply last_Some in Hl as [l Hl].
  assert (Hin : ip ∈ omap address xs) by (rewrite Hl; apply elem_of_app; right; by left).
  apply list_elem_of_omap in Hin as (e & He & Hip). rewrite Forall_forall in HF.
  destruct (HF e He) as [_ [Hn|(ip' & Hip' & Ht)]]; [by rewrite address_nil in Hip|congruence].
Qed.
End Reference.

(** The walk of [X-Forwarded-For] finds the client exactly as documented.
    It answers [ip] in two cases. Either some element [e] names [ip], which is
    not trusted, and each of the fewer than [MAX_HOPS] elements after it is
    empty or a trusted proxy: whatever stands before [e], which the client
    controls, has no influence. Or every element passes, at most [MAX_HOPS] of
    them, and [ip] is the leftmost address. The hops noted are the trusted
    addresses passed, nearest first, without the client. *)
Theorem walk_client (trusts : IpAddr -> bool) (lines : list text)
  (hops hops' : option (list IpAddr)) (ip : IpAddr) :
  walk trusts lines hops = (Ok (Some ip), hops') <->
  (exists far e near,
     raws lines = far ++ e :: near /\ (length near < MAX_HOPS)%nat /\
     Forall (passes trusts) near /\ (length e.2 <= e.1)%nat /\
     address e = Some ip /\ trusts ip = false /\
     hops' = push_hops hops (omap address (reverse near))) \/
  (Forall (passes trusts) (raws lines) /\ (length (raws lines) <= MAX_HOPS)%nat /\
   last (omap address (reverse (raws lines))) = Some ip /\
   hops' = pop_hop (push_hops hops (omap address (reverse (raws lines))))).
Proof.
  rewrite walk_scan. split.
  - destruct (scan _ _ _ _ _) as [r h|s] eqn:E.
    + intros [= -> ->]. left.
      apply scan_stop_ok in E as (near & e & far & ip' & Hx & Hl & HF & He & Ha & Ht & [= <-] & ->).
      apply (f_equal reverse) in Hx. rewrite reverse_involutive, reverse_app, reverse_cons in Hx.
      exists (reverse far), e, (reverse near).
      rewrite length_reverse, reverse_involutive, Hx, <- app_assoc.
      split_and!; try done. by apply Forall_reverse.
    + destruct (scan_next _ _ _ _ _ _ E) as [HF Hl]. rewrite scan_passes in E by done.
      injection E as <-. cbn [w_leftmost w_hops]. rewrite length_reverse in Hl.
      destruct (last _) as [ip'|] eqn:Hlast; [|done]. intros [= -> <-]. right.
      apply Forall_reverse in HF. rewrite reverse_involutive in HF. done.
  - intros [(far & e & near & Hx & Hl & HF & He & Ha & Ht & ->)|(HF & Hl & Hlast & ->)].
    + replace (scan _ _ _ _ _) with
        (Stop (Ok (Some ip)) (push_hops hops (omap address (reverse near)))); [done|].
      symmetry. apply scan_stop_ok. exists (reverse near), e, (reverse far), ip.
      rewrite Hx, reverse_app, reverse_cons, <- app_assoc, length_reverse.
      split_and!; try done. by apply Forall_reverse.
    + rewrite scan_passes by (by apply Forall_reverse || rewrite ?length_reverse).
      cbn [w_leftmost w_hops]. by rewrite Hlast.
Qed.

(** ** What the upstream receives *)

Section Applied.
Context {H : HttpLib} {HL : HttpLaws H} {N : IpNetLib}.

Lemma audit_lines (h : HeaderMap) (audit n : text) (lines : list text) :
  hm_get_all (foldl (fun h line => hm_append h audit line) h lines) n =
  hm_get_all h n ++ if decide (audit = n) then lines else [].
Proof.
  revert h. induction lines as [|l lines IH]; intros h; cbn [foldl].
  { destruct (decide _); by rewrite app_nil_r. }
  rewrite IH, get_all_append. destruct (decide (audit = n)); [by rewrite <- app_assoc|done].
Qed.

(** The headers the upstream may read an address from, after [apply]. *)
Definition address_headers (r : Resolver) : list text :=
  [X_FORWARDED_FOR; X_REAL_IP; FORWARDED] ++ option_list (r_client_header r).

Lemma get_all_remove_opt_insert (h : HeaderMap) (name n : text) (v : option text) :
  hm_get_all (remove_opt_insert h name v) n =
  if decide (name = n) then option_list v else hm_get_all h n.
Proof.
  unfold remove_opt_insert. destruct v as [v|]; rewrite ?get_all_insert, get_all_remove;
    by destruct (decide (name = n)).
Qed.

(** The headers of a built resolver are distinct: the client header may only
    be [X-Real-IP] of the three the proxy owns, the audit header none of them. *)
Definition distinct_headers (r : Resolver) : Prop :=
  (forall n, r_client_header r = Some n -> n <> X_FORWARDED_FOR /\ n <> FORWARDED) /\
  (forall n, r_audit_header r = Some n ->
     n ∉ [X_FORWARDED_FOR; X_REAL_IP; FORWARDED] ++ option_list (r_client_header r)).

Lemma forward_header_taken (setting name n : text) (taken : list text) :
  forward_header setting name taken = Ok n -> n ∉ taken.
Proof.
  unfold forward_header. destruct (header_name name); [|done].
  repeat case_match; try done. intros [= <-]. by bool_simpl.
Qed.

Lemma transpose_map_ok {A B E} (f : A -> result B E) (o : option A) (b : B) (r : option B) :
  transpose_map f o = Ok r -> r = Some b -> exists a, f a = Ok b.
Proof.
  destruct o as [a|]; cbn; [|by intros [= <-]].
  destruct (f a) eqn:E1; cbn; [|done]. intros [= <-] [= ->]. eauto.
Qed.

Lemma build_fields (config : ClientAddressConfig) (r : Resolver) :
  resolver_build config = Ok (Some r) ->
  distinct_headers r /\ r_forward r = f_x_forwarded_for (cf_forward config) /\
  r_header r = cf_header config /\ r_required r = cf_required config.
Proof.
  unfold resolver_build. destruct (collect_results _ _) as [nets|]; cbn; [|done].
  destruct (transpose_map _ (f_client_header _)) as [ch|] eqn:Hc; cbn; [|done].
  destruct (transpose_map _ (f_audit_header _)) as [au|] eqn:Ha; cbn; [|done].
  destruct (mapM id nets) as [trusted|]; cbn; [|done]. intros [= <-]. split; [|done]. split; cbn.
  - intros n ->. destruct (transpose_map_ok _ _ n _ Hc eq_refl) as [name Hn].
    apply forward_header_taken in Hn. rewrite !not_elem_of_cons in Hn. tauto.
  - intros n ->. destruct (transpose_map_ok _ _ n _ Ha eq_refl) as [name Hn].
    exact (forward_header_taken _ _ _ _ Hn).
Qed.

Lemma get_all_write_audit (r : Resolver) (headers : HeaderMap) (n : text) :
  hm_get_all (write_audit r headers) n =
  if decide (r_audit_header r = Some n) then hm_get_all headers X_FORWARDED_FOR
  else hm_get_all headers n.
Proof.
  unfold write_audit. destruct (r_audit_header r) as [audit|]; [|done].
  rewrite audit_lines, get_all_remove. destruct (decide (audit = n)) as [->|Hne].
  - by rewrite decide_True.
  - rewrite decide_False by congruence. by rewrite app_nil_r.
Qed.

Lemma get_all_write_chain (r : Resolver) (headers : HeaderMap) (xff : option text) (n : text) :
  hm_get_all (write_chain r headers xff) n =
  if decide (r_forward r <> XPreserve /\ n = X_FORWARDED_FOR) then option_list xff
  else if decide (r_forward r <> XPreserve /\ n ∈ [X_REAL_IP; FORWARDED]) then []
  else hm_get_all headers n.
Proof.
  unfold write_chain. destruct (decide (r_forward r = XPreserve)) as [Hp|Hp].
  { rewrite !decide_False by tauto. done. }
  destruct (decide (_ /\ n = X_FORWARDED_FOR)) as [[_ ->]|Hx].
  { destruct xff; header_simpl; done. }
  assert (X_FORWARDED_FOR <> n) by (intros <-; tauto).
  destruct (decide (_ /\ n ∈ _)) as [[_ Hin]|Hin]; rewrite !elem_of_cons, elem_of_nil in Hin.
  - destruct Hin as [->|[->|[]]]; destruct xff; header_simpl; done.
  - assert (X_REAL_IP <> n /\ FORWARDED <> n) as [] by (split; intros <-; tauto).
    destruct xff; header_simpl; done.
Qed.

Lemma chain_of_audit (r : Resolver) (headers : HeaderMap) (client : ClientAddress)
  (hops : list IpAddr) :
  distinct_headers r -> chain_of r (write_audit r headers) client hops = chain_of r headers client hops.
Proof.
  intros [_ Ha]. unfold chain_of, appended_chain. destruct (r_forward r); try done.
  rewrite get_all_write_audit, decide_False; [done|]. intros Hau. specialize (Ha _ Hau).
  rewrite not_elem_of_app, !not_elem_of_cons in Ha. tauto.
Qed.

(** Every header after [apply]. *)
Lemma apply_lookup (r : Resolver) (headers : HeaderMap) (peer : option SocketAddr) (n : text) :
  distinct_headers r ->
  let client := (resolve_noting r peer headers (noting r)).1 in
  let hops := default [] (resolve_noting r peer headers (noting r)).2 in
  (apply r headers peer).2 = client /\
  hm_get_all (apply r headers peer).1 n =
    if decide (r_client_header r = Some n) then option_list (ca_value client)
    else if decide (r_audit_header r = Some n) then hm_get_all headers X_FORWARDED_FOR
    else if decide (r_forward r <> XPreserve /\ n = X_FORWARDED_FOR) then
      option_list (chain_of r headers client hops)
    else if decide (r_forward r <> XPreserve /\ n ∈ [X_REAL_IP; FORWARDED]) then []
    else hm_get_all headers n.
Proof.
  intros Hd. unfold apply.
  destruct (resolve_noting r peer headers (noting r)) as [client noted]. cbn [fst snd].
  split; [done|]. rewrite chain_of_audit by done. destruct Hd as [_ Ha].
  assert (Hdis : r_audit_header r = Some n ->
                 n <> X_FORWARDED_FOR /\ (n ∉ [X_REAL_IP; FORWARDED]) /\ r_client_header r <> Some n).
  { intros Hau. specialize (Ha _ Hau). rewrite not_elem_of_app, !not_elem_of_cons in Ha.
    destruct Ha as [(? & ? & ? & _) Hn]. rewrite !not_elem_of_cons. split_and!; try done.
    - apply not_elem_of_nil.
    - intros Hcl. rewrite Hcl in Hn. by apply Hn, list_elem_of_singleton. }
  destruct (r_client_header r) as [name|].
  - rewrite get_all_remove_opt_insert. destruct (decide (name = n)) as [->|Hne].
    + by rewrite (decide_True (P := Some n = Some n)).
    + rewrite (decide_False (P := Some name = Some n)) by congruence.
      rewrite get_all_write_chain, get_all_write_audit. repeat destruct (decide _); try tauto.
  - rewrite (decide_False (P := None = Some n)) by done.
    rewrite get_all_write_chain, get_all_write_audit. repeat destruct (decide _); try tauto.
Qed.

Lemma resolve_untrusted (r : Resolver) (p : SocketAddr) (headers : HeaderMap)
  (hops : option (list IpAddr)) :
  r_trusts r (to_canonical (sa_ip p)) = false ->
  resolve_noting r (Some p) headers hops = (from_peer (Some p), hops).
Proof. intros Ht. unfold resolve_noting. by rewrite Ht. Qed.


(** What the upstream receives under each header the proxy writes, for any
    resolver that was built. The audit header holds the [X-Forwarded-For] lines
    exactly as they arrived; the client header holds the resolved address and
    nothing else; unless the policy is [preserve], [X-Forwarded-For] is the
    policy's one value and [X-Real-IP] and [Forwarded] are absent; every other
    header passes through. *)
Theorem apply_headers (config : ClientAddressConfig) (r : Resolver) (headers : HeaderMap)
  (peer : option SocketAddr) :
  resolver_build config = Ok (Some r) ->
  let result := apply r headers peer in
  let hops := default [] (resolve_noting r peer headers (noting r)).2 in
  let own := [X_FORWARDED_FOR; X_REAL_IP; FORWARDED] in
  (forall n, r_audit_header r = Some n ->
     hm_get_all result.1 n = hm_get_all headers X_FORWARDED_FOR) /\
  (forall n, r_client_header r = Some n ->
     hm_get_all result.1 n = option_list (show_ip <$> resolved_ip (ca_resolution result.2))) /\
  (r_forward r <> XPreserve ->
     hm_get_all result.1 X_FORWARDED_FOR = option_list (chain_of r headers result.2 hops) /\
     hm_get_all result.1 FORWARDED = [] /\
     (r_client_header r <> Some X_REAL_IP -> hm_get_all result.1 X_REAL_IP = [])) /\
  (forall n, n ∉ configured_headers r -> (r_forward r <> XPreserve -> n ∉ own) ->
     hm_get_all result.1 n = hm_get_all headers n).
Proof.
  intros (Hd & _)%build_fields result hops own. unfold result, hops.
  assert (Hval : forall peer h ho, ca_value (resolve_noting r peer h ho).1 =
                   show_ip <$> resolved_ip (ca_resolution (resolve_noting r peer h ho).1)).
  { intros [q|] h ho; [|done]. cbn [resolve_noting]. destruct (negb _); [done|].
    by destruct (match r_header r with FXForwardedFor => _ | _ => _ end). }
  pose proof (fun n => apply_lookup r headers peer n Hd) as L. cbn beta in L.
  destruct (L []) as [-> _]. pose proof (fun n => proj2 (L n)) as L'. clear L.
  destruct Hd as [Hc Ha]. split_and!.
  - intros n Hau. rewrite L', decide_False, decide_True by
      (done || (intros Hcl; destruct (Ha n Hau); rewrite Hcl; apply elem_of_app; right; by left)).
    done.
  - intros n Hcl. rewrite L', decide_True by done. by rewrite Hval.
  - intros Hp.
    assert (Hna : forall n, n ∈ own -> r_audit_header r <> Some n).
    { intros n Hin Hau. destruct (Ha n Hau). apply elem_of_app. by left. }
    unfold own in Hna. split_and!.
    + rewrite L', decide_False, decide_False, decide_True; [done|done| |].
      * apply Hna. by left.
      * intros Hcl. by destruct (Hc _ Hcl).
    + rewrite L', decide_False, decide_False, decide_False, decide_True; [done| |by intros []| |].
      * split; [done|]. by right; left.
      * apply Hna. by right; right; left.
      * intros Hcl. by destruct (Hc _ Hcl).
    + intros Hcl. rewrite L', decide_False, decide_False, decide_False, decide_True;
        [done| |by intros []| |done].
      * split; [done|by left].
      * apply Hna. by right; left.
  - intros n Hn Hown. rewrite L'. unfold configured_headers in Hn.
    rewrite not_elem_of_app in Hn. destruct Hn as [Hn1 Hn2].
    rewrite decide_False by (intros E; rewrite E in Hn1; apply Hn1; by left).
    rewrite decide_False by (intros E; rewrite E in Hn2; apply Hn2; by left).
    unfold own in Hown. rewrite !not_elem_of_cons in Hown.
    rewrite decide_False by (intros [Hp ->]; by destruct (Hown Hp)).
    rewrite decide_False; [done|]. intros [Hp Hin]. destruct (Hown Hp) as (_ & ? & ? & _).
    repeat (apply elem_of_cons in Hin as [?|Hin]; [done|]). by apply elem_of_nil in Hin.
Qed.
End Applied.

(** ** Trusted ranges *)

Section Ranges.
Context {N : IpNetLib} {NL : IpNetLaws N}.

(** The IPv4-mapped form of an IPv4 address. *)
Definition mapped (n : Z) : Z := 65535 * 2 ^ 32 + n.

Lemma to_ipv4_mapped_Some (n m : Z) : to_ipv4_mapped n = Some m -> n = mapped m /\ 0 <= m < 2 ^ 32.
Proof.
  unfold to_ipv4_mapped, mapped. destruct (Z.eqb_spec (n / 2 ^ 32) 65535) as [E|]; [|done].
  intros [= <-]. split; [|by apply Z.mod_pos_bound]. rewrite <- E.
  rewrite Z.mul_comm. apply Z.div_mod. lia.
Qed.

Lemma shared_prefix_mapped (a n k : Z) :
  0 <= k <= 32 -> a / 2 ^ k = n / 2 ^ k -> n / 2 ^ 32 = 65535 -> a / 2 ^ 32 = 65535.
Proof.
  intros Hk E Hn. replace (2 ^ 32) with (2 ^ k * 2 ^ (32 - k)) in *
    by (rewrite <- Z.pow_add_r by lia; f_equal; lia).
  rewrite <- Z.div_div in * by (apply Z.pow_nonzero || apply Z.pow_pos_nonneg; lia).
  by rewrite E.
Qed.

Lemma mapped_prefix (a n k : Z) :
  0 <= k <= 32 ->
  (mapped a / 2 ^ k =? mapped n / 2 ^ k) = (a / 2 ^ k * 2 ^ k / 2 ^ k =? n / 2 ^ k).
Proof.
  intros Hk. assert (0 < 2 ^ k) by (apply Z.pow_pos_nonneg; lia). unfold mapped.
  replace (65535 * 2 ^ 32) with (65535 * 2 ^ (32 - k) * 2 ^ k)
    by (rewrite <- Z.mul_assoc, <- Z.pow_add_r by lia; do 2 f_equal; lia).
  rewrite !Z.div_add_l by lia. rewrite Z.div_mul by lia.
  destruct (Z.eqb_spec (a / 2 ^ k) (n / 2 ^ k)), (Z.eqb_spec (65535 * 2 ^ (32 - k) + a / 2 ^ k)
    (65535 * 2 ^ (32 - k) + n / 2 ^ k)); lia.
Qed.

Lemma mapped_div (n : Z) : 0 <= n < 2 ^ 32 -> mapped n / 2 ^ 32 = 65535.
Proof. intros. unfold mapped. rewrite Z.div_add_l, Z.div_small by lia. done. Qed.

(** The canonical form of a trusted range never fails (the [expect] on its
    prefix is dead) and trusts exactly what the operator wrote, in the canonical
    addresses peers have: an IPv4 address is in it when it is in the IPv4 range
    written, or its IPv4-mapped form is in an IPv6 range inside the mapped block;
    a wider IPv6 range, [::/0] among them, trusts no IPv4 peer. A genuine IPv6
    address is in it exactly when it is in the range written. *)
Theorem canonical_net_trusts (net : IpNet) :
  exists net', canonical_net net = Some net' /\
  (forall n, 0 <= n < 2 ^ 32 ->
     net_contains net' (V4 n) =
     if is_v4 (net_network net) then net_contains net (V4 n)
     else (96 <=? net_prefix_len net) && net_contains net (V6 (mapped n))) /\
  (forall n, to_ipv4_mapped n = None -> net_contains net' (V6 n) = net_contains net (V6 n)).
Proof.
  pose proof (prefix_range net) as Hp. pose proof (network_range net) as Hn.
  unfold canonical_net. destruct (net_network net) as [a|a] eqn:Enet; cbn in *.
  { exists net. split_and!; done. }
  assert (Hplain : forall n, 0 <= n < 2 ^ 32 -> net_contains net (V4 n) = false).
  { intros n _. rewrite contains_spec, Enet. done. }
  destruct (to_ipv4_mapped a) as [v4|] eqn:Em.
  - apply to_ipv4_mapped_Some in Em as [-> Hv]. destruct (Z.leb_spec 96 (net_prefix_len net)) as [Hl|Hl].
    + destruct (net_v4_some v4 (net_prefix_len net - 96) Hv ltac:(lia)) as [net' E].
      exists net'. split; [done|]. apply network_v4 in E as [El Ew].
      split; intros n Hr; rewrite !contains_spec, El, Ew, Enet; cbn [is_v4 Bool.eqb andb bits width].
      * replace (32 - (net_prefix_len net - 96)) with (128 - net_prefix_len net) by lia.
        symmetry. apply mapped_prefix. lia.
      * symmetry. apply Z.eqb_neq. intros Heq. unfold to_ipv4_mapped in Hr.
        rewrite (shared_prefix_mapped n (mapped v4) (128 - net_prefix_len net)) in Hr;
          [done|lia|done|by apply mapped_div].
    + exists net. by split_and!; try done; intros; rewrite Hplain.
  - exists net. split_and!; try done. intros n Hr. rewrite Hplain by done.
    destruct (Z.leb_spec 96 (net_prefix_len net)); [|done]. cbn [andb].
    rewrite contains_spec, Enet. cbn. symmetry. apply Z.eqb_neq. intros Heq.
    unfold to_ipv4_mapped in Em.
    rewrite (shared_prefix_mapped a (mapped n) (128 - net_prefix_len net)) in Em;
      [done|lia|done|by apply mapped_div].
Qed.
End Ranges.

(** ** A configured proxy *)

Module Demo.
Import Model NetModel.

Definition config : ClientAddressConfig :=
  mkAddressConfig [txt "10.0.0.0/8"; txt "::ffff:192.0.2.0/120"] FXForwardedFor false
    (mkForwardConfig XVerified (Some (txt "x-real-ip")) (Some (txt "X-Original-Forwarded-For"))).

Definition built : option Resolver :=
  match resolver_build config with Ok o => o | Err _ => None end.

Definition resolver : Resolver :=
  default (mkResolver [] FXForwardedFor false XRemove None None) built.

Lemma resolver_built : resolver_build config = Ok (Some resolver).
Proof. vm_cast_no_check (eq_refl (Ok (E := build_error) (Some resolver))). Qed.

(** A request with a forged chain. *)
Definition forged : HeaderMap :=
  hm_append (hm_insert hm_empty X_FORWARDED_FOR (txt "198.51.100.1"))
    X_FORWARDED_FOR (txt "203.0.113.7, 10.1.2.3").

Definition outsider : SocketAddr := mkSocket (V4 3405803784) 40000.
Definition proxy : SocketAddr := mkSocket (V4 167837955) 40000.

(** Through a trusted proxy, the forged part left of the client is not read,
    and the chain is rewritten with what was verified. *)
Example resolve_forged :
  hm_get_all (apply resolver forged (Some proxy)).1 X_FORWARDED_FOR =
    [txt "203.0.113.7, 10.1.2.3, 10.1.1.3"] /\
  ca_resolution (apply resolver forged (Some proxy)).2 = Forwarded (V4 3405803783).
Proof. vm_compute. done. Qed.


Lemma apply_headers_witness :
  hm_get_all (apply resolver forged (Some proxy)).1 (txt "x-original-forwarded-for") =
  hm_get_all forged X_FORWARDED_FOR.
Proof.
  exact (proj1 (apply_headers config resolver forged (Some proxy) resolver_built)
           (txt "x-original-forwarded-for") ltac:(vm_compute; reflexivity)).
Defined.

Lemma canonical_net_trusts_witness :
  exists net', canonical_net (mkNet false 0 0) = Some net' /\ net_contains net' (V4 1) = false.
Proof.
  destruct (canonical_net_trusts (N := netlib) (mkNet false 0 0)) as (net' & E & H4 & _).
  exists net'. split; [exact E|]. rewrite (H4 1 ltac:(lia)). reflexivity.
Defined.

(** [last_element] lets the first element of a line hold one byte more than
    [MAX_ELEMENT]: 129 bytes are read there, and refused after a comma. *)
Definition padded : text := txt "203.0.113.7" ++ replicate 118 (ch " ").

Example first_element_limit :
  length padded = S MAX_ELEMENT /\
  (walk (fun _ => false) [padded] None).1 = Ok (Some (V4 3405803783)) /\
  (walk (fun _ => false) [ch "," :: padded] None).1 = Err Malformed.
Proof. vm_compute. done. Qed.
End Demo.
