(* ===== verification/Path.v ===== *)
(** * Path templates ([src/transcode/path.rs])

    A [google.api.http] path template in the form the router mounts it. The
    router ([matchit]) and the [percent_encoding] crate are parameters. *)

From Stdlib Require Import Sorting.Sorted.
From S2P Require Import Prelude Rust.

(** ** The crates *)

(** [percent_encoding::percent_decode], as documented: a [%] followed by two
    hex digits is one byte, every other byte stands for itself. *)
Class PercentLib : Type := { percent_decode : text -> text }.

Definition hex_value (c : ascii) : option Z :=
  if is_ascii_digit c then Some (code c - 48)
  else if byte_in 97 102 c then Some (code c - 87)
  else if byte_in 65 70 c then Some (code c - 55) else None.

(** The byte an escape at the start of the text stands for, and what follows. *)
Definition escape (s : text) : option (ascii * text) :=
  match s with
  | a :: h :: l :: s' =>
      if decide (a = ch "%") then
        let! x := hex_value h in let! y := hex_value l in Some (of_code (16 * x + y), s')
      else None
  | _ => None
  end.

Class PercentLaws (L : PercentLib) : Prop := {
  decode_nil : percent_decode [] = [];
  decode_escape s b s' : escape s = Some (b, s') -> percent_decode s = b :: percent_decode s';
  decode_plain a s : escape (a :: s) = None -> percent_decode (a :: s) = a :: percent_decode s;
}.

(** ** Data *)

(** One segment of a [Composite]: a literal, or the capture at a position. *)
Inductive Part :=
| PLiteral (s : text)
| PCapture (position : nat).

Record Composite := mkComposite { co_field : text; co_parts : list Part }.

Record MountedPath := mkMounted {
  m_axum : text;
  m_shape : text;
  m_captures : list text;
  m_unbound : list bool;
  m_multi_segment : list bool;
  m_verb : option text;
  m_empty_last : bool;
  m_last_template : option (list text);
  m_last_segment : nat;
  m_unsupported : option text;
  m_composites : list Composite;
  m_literals : list (nat * text);
}.

(** [enum Segment]. *)
Inductive Segment :=
| Literal (s : text)
| Capture (name : text) (catch_all : bool).

(** ** Splitting templates *)

(** The loop of [closing_brace] from index [i] at depth [depth]. *)
Fixpoint closing_brace_from (depth i : nat) (s : text) : option nat :=
  match s with
  | [] => None
  | c :: s' =>
      if decide (c = ch "{") then closing_brace_from (S depth) (S i) s'
      else if decide (c = ch "}") then
        match depth with
        | O => None
        | S O => Some i
        | S d => closing_brace_from d (S i) s'
        end
      else closing_brace_from depth (S i) s'
  end.
Definition closing_brace (segment : text) : option nat := closing_brace_from 0 0 segment.

(** The loop of [split_top_level]: [current] holds the bytes since [start]. *)
Fixpoint split_top_level_from (depth : nat) (current s : text) : list text :=
  match s with
  | [] => [current]
  | c :: s' =>
      if decide (c = ch "{") then split_top_level_from (S depth) (current ++ [c]) s'
      else if decide (c = ch "}") then split_top_level_from (pred depth) (current ++ [c]) s'
      else if decide (c = ch "/" /\ depth = O) then current :: split_top_level_from O [] s'
      else split_top_level_from depth (current ++ [c]) s'
  end.
Definition split_top_level (path : text) : list text := split_top_level_from 0 [] path.

(** What a braced segment holds. *)
Definition inner (segment : text) : option text :=
  let! s := strip_prefix (txt "{") segment in strip_suffix (txt "}") s.

Definition field_template (segment : text) : option text :=
  let! i := inner segment in snd <$> split_once (ch "=") i.

Definition is_double_wildcard (segment : text) : bool :=
  bool_decide (segment = txt "**") || bool_decide (field_template segment = Some (txt "**")).

Definition ends_in_double_wildcard (segment : text) : bool :=
  is_double_wildcard segment ||
  match field_template segment with
  | Some template => ends_with (txt "/**") template
  | None => false
  end.

Definition spans_segments (segment : text) : bool :=
  bool_decide (segment = txt "**") ||
  match field_template segment with
  | Some template => contains_byte (ch "/") template || bool_decide (template = txt "**")
  | None => false
  end.

Definition last_of (l : list text) : text := default [] (last l).

(** [split_verb] of a template. *)
Definition split_verb_template (template : text) : text * option text :=
  let last := last_of (split_top_level template) in
  let start := (length template - length last)%nat in
  let colon :=
    if starts_with (txt "{") last then S <$> closing_brace last
    else if starts_with (txt "**") last then Some 2%nat
    else if starts_with (txt "*") last then Some 1%nat
    else None in
  match colon with
  | Some colon =>
      if starts_with (txt ":") (drop colon last) && Nat.ltb (colon + 1) (length last) then
        let at_ := (start + colon)%nat in (take at_ template, Some (drop at_ template))
      else (template, None)
  | None => (template, None)
  end.

(** ** Converting segments *)

Definition convert_segment (segment : text) (idx : nat) (is_last : bool) : Segment :=
  match inner segment with
  | Some i =>
      match split_once (ch "=") i with
      | Some (name, template) =>
          if decide (template = txt "*") then Capture name false
          else if decide (template = txt "**") then Capture name is_last
          else if contains_byte (ch "/") template then Capture name is_last
          else Capture name false
      | None => Capture i false
      end
  | None =>
      if decide (segment = txt "**") then Capture (show_u64 (Z.of_nat idx)) is_last
      else if decide (segment = txt "*") then Capture (show_u64 (Z.of_nat idx)) false
      else Literal segment
  end.

(** ** Mounting a template

    The loop of [MountedPath::new] as steps on what it has written so far. *)

Record Mounting := mkMounting {
  g_axum : text;
  g_shape : text;
  g_captures : list text;
  g_unbound : list bool;
  g_multi : list bool;
  g_composites : list Composite;
  g_literals : list (nat * text);
  g_unsupported : option text;
  g_written : nat;
  g_last_segment : nat;
}.

Definition mounting0 : Mounting := mkMounting [] [] [] [] [] [] [] None 0 0.

(** The closure [push_segment]. *)
Definition push_segment (g : Mounting) : Mounting :=
  let slash := if Nat.ltb 0 (g_written g) then txt "/" else [] in
  mkMounting (g_axum g ++ slash) (g_shape g ++ slash) (g_captures g) (g_unbound g) (g_multi g)
    (g_composites g) (g_literals g) (g_unsupported g) (S (g_written g)) (g_last_segment g).

Definition push_literal (g : Mounting) (s : text) : Mounting :=
  mkMounting (g_axum g ++ s) (g_shape g ++ s) (g_captures g) (g_unbound g) (g_multi g)
    (g_composites g) (g_literals g) (g_unsupported g) (g_written g) (g_last_segment g).

Definition push_capture (g : Mounting) (name : text) (catch_all unbound multi : bool) : Mounting :=
  let open := if catch_all then txt "{*" else txt "{" in
  mkMounting (g_axum g ++ open ++ name ++ txt "}") (g_shape g ++ open ++ txt "}")
    (g_captures g ++ [name]) (g_unbound g ++ [unbound]) (g_multi g ++ [multi])
    (g_composites g) (g_literals g) (g_unsupported g) (g_written g) (g_last_segment g).

Definition unsupported (g : Mounting) (why : text) : Mounting :=
  mkMounting (g_axum g) (g_shape g) (g_captures g) (g_unbound g) (g_multi g)
    (g_composites g) (g_literals g) (Some why) (g_written g) (g_last_segment g).

Definition note_last (g : Mounting) : Mounting :=
  mkMounting (g_axum g) (g_shape g) (g_captures g) (g_unbound g) (g_multi g)
    (g_composites g) (g_literals g) (g_unsupported g) (g_written g) (g_written g).

Definition push_composite (g : Mounting) (c : Composite) : Mounting :=
  mkMounting (g_axum g) (g_shape g) (g_captures g) (g_unbound g) (g_multi g)
    (g_composites g ++ [c]) (g_literals g) (g_unsupported g) (g_written g) (g_last_segment g).

Definition slashes (s : text) : nat := length (filter (fun c => c = ch "/") s).
Arguments slashes : simpl never.

(** An escaped literal, with the index of its segment. *)
Definition note_literal (g : Mounting) (part : text) : Mounting :=
  mkMounting (g_axum g) (g_shape g) (g_captures g) (g_unbound g) (g_multi g)
    (g_composites g) (g_literals g ++ [(slashes (g_axum g), part)]) (g_unsupported g)
    (g_written g) (g_last_segment g).

(** One segment of a field template written out: the turn for part [k] of the
    inner loop. *)
Definition mount_part (field : text) (multi : bool) (acc : Mounting * list Part) (kp : nat * text)
  : Mounting * list Part :=
  let '(g, parts) := acc in
  let '(k, part) := kp in
  let g := push_segment g in
  let escaped := contains_byte (ch "%") part in
  if bool_decide (part = txt "*") || escaped then
    let g := push_capture g (field ++ txt "." ++ show_u64 (Z.of_nat k)) false true multi in
    let g := if escaped then note_literal g part else g in
    (g, parts ++ [PCapture (length (g_captures g) - 1)])
  else (push_literal g part, parts ++ [PLiteral part]).

Definition quoted (s : text) : text := txt "`" ++ s ++ txt "`".

Definition enumerate {A} (l : list A) : list (nat * A) := zip (seq 0 (length l)) l.

(** The checks before a segment is written. *)
Definition check_nested (segment : text) (g : Mounting) : Mounting :=
  match field_template segment with
  | Some template =>
      if contains_byte (ch "{") template || contains_byte (ch "}") template then
        unsupported g (quoted segment ++
          txt " nests a variable in a field template, which holds none")
      else g
  | None => g
  end.

Definition check_double_last (segment : text) (g : Mounting) : Mounting :=
  match field_template segment with
  | Some template =>
      if existsb (fun p => bool_decide (p = txt "**"))
           (drop 1 (reverse (split (ch "/") template))) then
        unsupported g (quoted segment ++
          txt " puts `**` before another segment; it must be the last one")
      else g
  | None => g
  end.

(** The segment as a whole: [push_segment] and the [match] on
    [convert_segment]. *)
Definition mount_whole (segment : text) (idx : nat) (is_last : bool) (g : Mounting) : Mounting :=
  let g := push_segment g in
  match convert_segment segment idx is_last with
  | Literal literal => push_literal g literal
  | Capture name catch_all =>
      push_capture g name catch_all
        (bool_decide (segment = txt "*") || bool_decide (segment = txt "**"))
        (catch_all && spans_segments segment)
  end.

(** One turn of the loop over the segments. *)
Definition mount_segment (last : nat) (g : Mounting) (ip : nat * text) : Mounting :=
  let '(idx, segment) := ip in
  let g := if Nat.eqb idx last then note_last g else g in
  let g := check_nested segment g in
  let g := if Nat.eqb idx last then check_double_last segment g else g in
  let spelled :=
    let! i := inner segment in
    let! ft := split_once (ch "=") i in
    if negb (Nat.eqb idx last) && negb (bool_decide (ft.2 = txt "*")) then Some ft else None in
  match spelled with
  | Some (field, template) =>
      if existsb (fun part => bool_decide (part = txt "**")) (split (ch "/") template) then
        mount_whole segment idx (Nat.eqb idx last)
          (unsupported g (txt "`**` in " ++ quoted segment ++
             txt " before the last segment matches any number of segments, which the router cannot hold there"))
      else
        let multi := contains_byte (ch "/") template in
        let '(g, parts) :=
          foldl (mount_part field multi) (g, []) (enumerate (split (ch "/") template)) in
        push_composite g (mkComposite field parts)
  | None =>
      let g :=
        if negb (Nat.eqb idx last) && is_double_wildcard segment then
          unsupported g (quoted segment ++
            txt " before the last segment matches any number of segments, which the router cannot hold there")
        else g in
      mount_whole segment idx (Nat.eqb idx last) g
  end.

(** [MountedPath::new]. *)
Definition mounted_new (template : text) : MountedPath :=
  let '(base, verb) := split_verb_template template in
  let segments := split_top_level base in
  let last := (length segments - 1)%nat in
  let last_seg := last_of segments in
  let g := foldl (mount_segment last) mounting0 (enumerate segments) in
  mkMounted (g_axum g) (g_shape g) (g_captures g) (g_unbound g) (g_multi g) verb
    (ends_in_double_wildcard last_seg)
    (let! t := field_template last_seg in
     if bool_decide (t = txt "*") || bool_decide (t = txt "**") then None
     else Some (split_top_level t))
    (g_last_segment g) (g_unsupported g) (g_composites g) (g_literals g).

Definition proto_path_to_axum (path : text) : text := m_axum (mounted_new path).

(** [MountedPath::display]. *)
Definition display (m : MountedPath) : text :=
  match m_verb m with None => m_axum m | Some verb => m_axum m ++ verb end.

(** ** What the router can hold *)

Section Mountable.
(** [matchit::Router::new().insert(path, ())]: [None] when accepted. *)
Context (matchit_insert : text -> option text).

(** The scan of the segments for text around a variable: the captures that are
    no catch-all, or the segment refused. *)
Fixpoint count_captures (segments : list text) : result Z text :=
  match segments with
  | [] => Ok 0
  | segment :: rest =>
      match position (fun c => bool_decide (c = ch "{") || bool_decide (c = ch "}")) segment with
      | None => count_captures rest
      | Some at_ =>
          let bad :=
            negb (Nat.eqb at_ 0) ||
            match inner segment with
            | None => true
            | Some i => contains_byte (ch "{") i || contains_byte (ch "}") i
            end in
          if bad then Err (quoted segment ++ txt " is not a whole-segment variable")
          else let? n := count_captures rest in
               Ok (if starts_with (txt "{*") segment then n else n + 1)
      end
  end.

Definition mountable (axum_path : text) : result unit text :=
  if negb (starts_with (txt "/") axum_path) then Err (txt "a path template must start with '/'")
  else if existsb (fun s => starts_with (txt ":") s || starts_with (txt "*") s) (split (ch "/") axum_path)
  then Err (txt "a path segment must not start with ':' or '*'")
  else
    let? captures := count_captures (split (ch "/") axum_path) in
    if 25 <? captures then
      Err (show_u64 captures ++ txt " variables; the router holds at most 25 before the last")
    else match matchit_insert axum_path with Some e => Err e | None => Ok tt end.

Definition routable (m : MountedPath) : result unit text :=
  match m_unsupported m with
  | Some reason => Err reason
  | None => mountable (m_axum m)
  end.
End Mountable.

(** ** Decoding captured values *)

Section Decode.
Context {P : PercentLib}.

(** The closure [is_slash] on the three bytes at the start. *)
Definition is_slash (s : text) : bool :=
  match s with
  | a :: b :: c :: _ => bool_decide (a = ch "%") && bool_decide (b = ch "2") &&
                        (Z.lor (code c) 32 =? 102)
  | _ => false
  end.

(** [windows(3).position(is_slash)]. *)
Fixpoint slash_at (s : text) : option nat :=
  if is_slash s then Some O
  else match s with [] => None | _ :: s' => S <$> slash_at s' end.

(** The loop: each turn takes an escape off, so the length bounds the turns. *)
Fixpoint decode_loop (fuel : nat) (rest : text) : text :=
  match fuel with
  | O => percent_decode rest
  | S fuel' =>
      match slash_at rest with
      | Some at_ =>
          percent_decode (take at_ rest) ++ take 3 (drop at_ rest) ++
          decode_loop fuel' (drop (at_ + 3) rest)
      | None => percent_decode rest
      end
  end.

Definition decode_multi_segment (raw : text) : text :=
  match slash_at raw with
  | None => percent_decode raw
  | Some _ => decode_loop (length raw) raw
  end.
End Decode.

Example mount_books :
  let m := mounted_new (txt "/v1/{parent=publishers/*}/books/{name=**}:read") in
  m_axum m = txt "/v1/publishers/{parent.1}/books/{*name}" /\ m_verb m = Some (txt ":read") /\
  m_composites m = [mkComposite (txt "parent") [PLiteral (txt "publishers"); PCapture 0]] /\
  m_unsupported m = None.
Proof. vm_compute. done. Qed.

(** ** Splitting loses nothing *)

Lemma join_cons (sep x : text) (l : list text) :
  l <> [] -> join sep (x :: l) = x ++ sep ++ join sep l.
Proof. by destruct l. Qed.

Lemma split_top_level_from_nonnil (depth : nat) (current s : text) :
  split_top_level_from depth current s <> [].
Proof.
  revert depth current. induction s as [|c s IH]; intros depth current; cbn; [done|].
  repeat case_decide; try apply IH. done.
Qed.

Lemma split_top_level_from_join (depth : nat) (current s : text) :
  join (txt "/") (split_top_level_from depth current s) = current ++ s.
Proof.
  revert depth current. induction s as [|c s IH]; intros depth current; cbn [split_top_level_from].
  { cbn. by rewrite app_nil_r. }
  repeat case_decide; rewrite ?IH, <- ?app_assoc; try done.
  rewrite join_cons by apply split_top_level_from_nonnil. rewrite IH.
  by destruct H1 as [-> _].
Qed.

Lemma join_snoc (sep x : text) (l : list text) :
  l <> [] -> join sep (l ++ [x]) = join sep l ++ sep ++ x.
Proof.
  induction l as [|y l IH]; [done|]. intros _. destruct l as [|z l].
  - done.
  - change ((y :: z :: l) ++ [x]) with (y :: (z :: l) ++ [x]).
    rewrite !join_cons by done. rewrite IH by done. by rewrite <- !app_assoc.
Qed.

Lemma last_of_suffix (l : list text) : exists r, join (txt "/") l = r ++ last_of l.
Proof.
  destruct l as [|x l] using rev_ind; [by exists []|].
  unfold last_of. rewrite last_snoc. cbn [default].
  destruct l as [|y l]; [by exists []|]. rewrite join_snoc by done.
  exists (join (txt "/") (y :: l) ++ txt "/"). by rewrite <- app_assoc.
Qed.

(** Mounting splits a template without loss: the segments joined are the
    base, and the base followed by the verb is the template. A verb is [:] and at
    least one byte. *)
Lemma split_verb_template_app (template : text) :
  let '(base, verb) := split_verb_template template in
  join (txt "/") (split_top_level base) = base /\
  base ++ default [] verb = template /\
  match verb with
  | Some v => exists c v', v = ch ":" :: c :: v'
  | None => True
  end.
Proof.
  unfold split_verb_template. set (l := last_of (split_top_level template)).
  destruct (match _ with Some colon => _ | None => _ end) as [base verb] eqn:E.
  split; [apply (split_top_level_from_join 0 [])|].
  revert E. case_match; [|intros [= <- <-]; cbn; by rewrite app_nil_r].
  destruct (starts_with _ _ && _) eqn:Hc; [|intros [= <- <-]; cbn; by rewrite app_nil_r]. intros [= <- <-]. cbn [default].
  split; [apply take_drop|]. bool_simpl.
  destruct (last_of_suffix (split_top_level template)) as [r Hr]. fold l in Hr.
  unfold split_top_level in Hr. rewrite split_top_level_from_join in Hr. cbn [app] in Hr.
  rewrite <- drop_drop, Hr, length_app, Nat.add_sub, drop_app_length.
  destruct (drop n l) as [|a t] eqn:Ed; [done|].
  match goal with H : starts_with _ _ = true |- _ => apply starts_with_true in H as [x Hx] end.
  change (txt ":" ++ x) with (ch ":" :: x) in Hx. injection Hx as -> Hx.
  apply (f_equal length) in Ed. rewrite length_drop in Ed. cbn in Ed.
  match goal with H : Nat.ltb _ _ = true |- _ => apply Nat.ltb_lt in H end.
  destruct t as [|c v']; [cbn in Ed; lia|]. eauto.
Qed.

(** ** What a mounted path satisfies *)

(** Positions strictly increasing. *)
Definition increasing (l : list nat) : Prop := StronglySorted lt l.

(** A part of a composite refers to a capture that binds no field of its own. *)
Definition part_ok (g : Mounting) (p : Part) : Prop :=
  match p with
  | PLiteral _ => True
  | PCapture i => g_unbound g !! i = Some true
  end.

(** What holds of the loop's accumulators: one flag per capture, the parts of
    composites refer to unbound captures, and the literals come in path order,
    none past the segments written. *)
Record mounting_ok (g : Mounting) : Prop := {
  ok_unbound : length (g_unbound g) = length (g_captures g);
  ok_multi : length (g_multi g) = length (g_captures g);
  ok_parts : Forall (fun c => Forall (part_ok g) (co_parts c)) (g_composites g);
  ok_literals : increasing ((g_literals g).*1);
  ok_bound : Forall (fun at_ => (at_ <= slashes (g_axum g))%nat /\ g_written g <> O) (g_literals g).*1;
}.

Lemma slashes_app (a b : text) : slashes (a ++ b) = (slashes a + slashes b)%nat.
Proof. unfold slashes. by rewrite filter_app, length_app. Qed.

Lemma increasing_snoc (l : list nat) (n : nat) :
  increasing l -> Forall (fun m => (m < n)%nat) l -> increasing (l ++ [n]).
Proof.
  unfold increasing. induction 1 as [|x l Hs IH HF]; intros Hn; cbn; [repeat constructor|].
  inversion Hn; subst. constructor; [by apply IH|]. apply Forall_app. auto.
Qed.

(** Every step keeps the flags already written. *)
Definition extends (g g' : Mounting) : Prop := exists more, g_unbound g' = g_unbound g ++ more.

Lemma extends_trans (g1 g2 g3 : Mounting) : extends g1 g2 -> extends g2 g3 -> extends g1 g3.
Proof. intros [a Ha] [b Hb]. exists (a ++ b). by rewrite Hb, Ha, app_assoc. Qed.

Lemma part_ok_extends (g g' : Mounting) (p : Part) : extends g g' -> part_ok g p -> part_ok g' p.
Proof. intros [more E]. destruct p; cbn; [done|]. rewrite E. apply lookup_app_l_Some. Qed.

Lemma push_segment_ok (g : Mounting) :
  mounting_ok g ->
  mounting_ok (push_segment g) /\ extends g (push_segment g) /\
  Forall (fun at_ => (at_ < slashes (g_axum (push_segment g)))%nat) (g_literals g).*1.
Proof.
  intros [H1 H2 H3 H4 H5]. split; [|split].
  - split; cbn; try done. eapply Forall_impl; [exact H5|]. cbn. intros x [Hx _].
    rewrite slashes_app. lia.
  - exists []. cbn. by rewrite app_nil_r.
  - eapply Forall_impl; [exact H5|]. cbn. intros x [Hx Hw]. rewrite slashes_app.
    destruct (g_written g); [done|]. change (slashes (txt "/")) with 1%nat. lia.
Qed.

Lemma push_literal_ok (g : Mounting) (s : text) :
  mounting_ok g -> mounting_ok (push_literal g s) /\ extends g (push_literal g s).
Proof.
  intros [H1 H2 H3 H4 H5]. split; [|exists []; cbn; by rewrite app_nil_r].
  split; cbn; try done. eapply Forall_impl; [exact H5|]. cbn. intros x [Hx Hw].
  rewrite slashes_app. split; [lia|done].
Qed.

Lemma push_capture_ok (g : Mounting) (name : text) (c u m : bool) :
  mounting_ok g -> mounting_ok (push_capture g name c u m) /\ extends g (push_capture g name c u m).
Proof.
  intros [H1 H2 H3 H4 H5].
  assert (He : extends g (push_capture g name c u m)) by (by exists [u]). split; [|done].
  split; cbn; rewrite ?length_app, ?H1, ?H2; try done.
  - eapply Forall_impl; [exact H3|]. cbn. intros x Hx. eapply Forall_impl; [exact Hx|].
    intros p. by apply part_ok_extends.
  - eapply Forall_impl; [exact H5|]. cbn. intros x [Hx Hw]. rewrite slashes_app. split; [lia|done].
Qed.

Lemma unsupported_ok (g : Mounting) (why : text) : mounting_ok g -> mounting_ok (unsupported g why).
Proof. by intros []. Qed.

Lemma note_last_ok (g : Mounting) : mounting_ok g -> mounting_ok (note_last g).
Proof. by intros []. Qed.

Lemma push_composite_ok (g : Mounting) (c : Composite) :
  mounting_ok g -> Forall (part_ok g) (co_parts c) -> mounting_ok (push_composite g c).
Proof. intros [] Hc. split; cbn; try done. apply Forall_app. auto. Qed.

Lemma check_nested_ok (s : text) (g : Mounting) : mounting_ok g -> mounting_ok (check_nested s g).
Proof. unfold check_nested. repeat case_match; auto using unsupported_ok. Qed.

Lemma check_double_last_ok (s : text) (g : Mounting) :
  mounting_ok g -> mounting_ok (check_double_last s g).
Proof. unfold check_double_last. repeat case_match; auto using unsupported_ok. Qed.

Lemma note_literal_ok (g : Mounting) (part : text) :
  mounting_ok g -> g_written g <> O ->
  Forall (fun at_ => (at_ < slashes (g_axum g))%nat) (g_literals g).*1 ->
  mounting_ok (note_literal g part).
Proof.
  intros [H1 H2 H3 H4 H5] Hw Hlt. split; cbn; try done; rewrite fmap_app; cbn.
  - by apply increasing_snoc.
  - apply Forall_app. split; [done|]. constructor; [|constructor]. split; [lia|done].
Qed.

Lemma mount_part_ok (field : text) (multi : bool) (g : Mounting) (parts : list Part) (kp : nat * text) :
  mounting_ok g -> Forall (part_ok g) parts ->
  let r := mount_part field multi (g, parts) kp in
  mounting_ok r.1 /\ Forall (part_ok r.1) r.2.
Proof.
  intros Hg Hp. destruct kp as [k part]. cbn [mount_part].
  destruct (push_segment_ok g Hg) as (Hs & He & Hlt).
  destruct (bool_decide _ || _).
  - set (name := field ++ _).
    destruct (push_capture_ok (push_segment g) name false true multi Hs) as [Hc He'].
    set (g' := push_capture _ _ _ _ _) in *.
    assert (He2 : extends g g') by exact (extends_trans _ _ _ He He').
    set (g'' := if contains_byte _ _ then _ else g').
    assert (Hg'' : mounting_ok g'' /\ g_unbound g'' = g_unbound g' /\ g_captures g'' = g_captures g').
    { unfold g''. destruct (contains_byte _ _); [|done]. split; [|done].
      apply note_literal_ok; [done|done|]. eapply Forall_impl; [exact Hlt|].
      intros x Hx. unfold g'. cbn. rewrite slashes_app. cbn in Hx. lia. }
    destruct Hg'' as (Hok & Hu & Hcap). cbn. split; [done|]. apply Forall_app. split.
    + eapply Forall_impl; [exact Hp|]. intros p. apply part_ok_extends.
      destruct He2 as [more Hm]. exists more. by rewrite Hu.
    + repeat constructor. cbn. rewrite Hu, Hcap. unfold g'. cbn.
      rewrite length_app. destruct Hs as [Hs1 _]. cbn in Hs1. rewrite <- Hs1.
      cbn. rewrite Nat.add_sub. by rewrite list_lookup_middle.
  - destruct (push_literal_ok (push_segment g) part Hs) as [Hl He']. cbn [fst snd].
    split; [done|]. apply Forall_app. split; [|by repeat constructor].
    eapply Forall_impl; [exact Hp|]. intros p. apply part_ok_extends. exact (extends_trans _ _ _ He He').
Qed.

Lemma mount_parts_ok (field : text) (multi : bool) (kps : list (nat * text)) (g : Mounting)
  (parts : list Part) :
  mounting_ok g -> Forall (part_ok g) parts ->
  let r := foldl (mount_part field multi) (g, parts) kps in
  mounting_ok r.1 /\ Forall (part_ok r.1) r.2.
Proof.
  revert g parts. induction kps as [|kp kps IH]; intros g parts Hg Hp; [done|]. cbn [foldl].
  destruct (mount_part_ok field multi g parts kp Hg Hp) as [Hg' Hp'].
  destruct (mount_part field multi (g, parts) kp). by apply IH.
Qed.

Lemma mount_whole_ok (segment : text) (idx : nat) (l : bool) (g : Mounting) :
  mounting_ok g -> mounting_ok (mount_whole segment idx l g).
Proof.
  intros Hg. unfold mount_whole. destruct (push_segment_ok g Hg) as (Hs & _).
  destruct (convert_segment _ _ _); [by apply push_literal_ok|by apply push_capture_ok].
Qed.

Lemma mount_segment_ok (last : nat) (g : Mounting) (ip : nat * text) :
  mounting_ok g -> mounting_ok (mount_segment last g ip).
Proof.
  intros Hg. destruct ip as [idx segment]. unfold mount_segment.
  set (g1 := if Nat.eqb idx last then note_last g else g).
  assert (H1 : mounting_ok g1) by (unfold g1; destruct (Nat.eqb _ _); auto using note_last_ok).
  set (g2 := if Nat.eqb idx last then check_double_last _ _ else _).
  assert (H2 : mounting_ok g2)
    by (unfold g2; destruct (Nat.eqb _ _); auto using check_double_last_ok, check_nested_ok).
  clearbody g2. clear Hg H1. destruct (mbind _ (inner segment)) as [[field template]|].
  - destruct (existsb _ _); [apply mount_whole_ok, unsupported_ok, H2|].
    set (kps := enumerate _). set (m := contains_byte _ _).
    destruct (mount_parts_ok field m kps g2 [] H2 ltac:(constructor)) as [Ho Hp].
    destruct (foldl _ _ _). by apply push_composite_ok.
  - destruct (negb _ && _); auto using mount_whole_ok, unsupported_ok.
Qed.

Lemma mount_segments_ok (last : nat) (ips : list (nat * text)) (g : Mounting) :
  mounting_ok g -> mounting_ok (foldl (mount_segment last) g ips).
Proof.
  revert g. induction ips as [|ip ips IH]; intros g Hg; [done|]. by apply IH, mount_segment_ok.
Qed.

(** Every mounted path is well formed, whatever the template: each capture
    has its two flags; a composite only refers to captures of the path, and to
    ones that bind no field of their own; the escaped literals come in strictly
    increasing path order, which the one pass that compares a request with them
    relies on. *)
Lemma mounted_new_ok (template : text) :
  let m := mounted_new template in
  length (m_unbound m) = length (m_captures m) /\
  length (m_multi_segment m) = length (m_captures m) /\
  (forall c i, c ∈ m_composites m -> PCapture i ∈ co_parts c -> m_unbound m !! i = Some true) /\
  increasing (m_literals m).*1.
Proof.
  unfold mounted_new. destruct (split_verb_template template) as [base verb]. cbn.
  set (g := foldl _ _ _).
  assert (Hg : mounting_ok g) by (apply mount_segments_ok; split; cbn; auto; constructor).
  destruct Hg as [H1 H2 H3 H4 _]. split_and!; try done.
  intros c i Hc Hi. rewrite Forall_forall in H3. specialize (H3 c Hc).
  rewrite Forall_forall in H3. exact (H3 _ Hi).
Qed.

(** ** Plain templates mount as written *)

(** A literal, or a [{name}] without a field template. *)
Definition plain_segment (segment : text) : Prop :=
  segment <> txt "*" /\ segment <> txt "**" /\
  match inner segment with Some i => ch "=" ∉ i | None => True end.

Lemma inner_Some (segment i : text) : inner segment = Some i -> segment = txt "{" ++ i ++ txt "}".
Proof.
  unfold inner. destruct (strip_prefix _ _) as [r|] eqn:E; cbn; [|done].
  apply strip_prefix_Some in E as ->. by intros ->%strip_suffix_Some.
Qed.

Lemma mount_segment_plain (last : nat) (g : Mounting) (idx : nat) (segment : text) :
  plain_segment segment ->
  let g' := mount_segment last g (idx, segment) in
  g_axum g' = g_axum g ++ (if Nat.ltb 0 (g_written g) then txt "/" else []) ++ segment /\
  g_written g' = S (g_written g).
Proof.
  intros (H1 & H2 & Hi). unfold mount_segment.
  assert (Hft : field_template segment = None).
  { unfold field_template. destruct (inner segment) as [i|]; cbn [mbind option_bind]; [|done].
    by rewrite (proj2 (split_once_None _ _) Hi). }
  unfold check_nested, check_double_last, is_double_wildcard. rewrite Hft.
  rewrite (bool_decide_eq_false_2 _ H2). cbn [orb bool_decide]. rewrite andb_false_r.
  replace (if Nat.eqb idx last then if Nat.eqb idx last then note_last g else g
           else if Nat.eqb idx last then note_last g else g)
    with (if Nat.eqb idx last then note_last g else g) by (by destruct (Nat.eqb idx last)).
  set (g1 := if Nat.eqb idx last then note_last g else g).
  assert (Hg1 : g_axum g1 = g_axum g /\ g_written g1 = g_written g)
    by (unfold g1; by destruct (Nat.eqb idx last)).
  destruct Hg1 as [Ha Hw]. unfold mount_whole, convert_segment.
  destruct (inner segment) as [i|] eqn:Ei; cbn [mbind option_bind].
  - rewrite (proj2 (split_once_None _ _) Hi). cbn.
    rewrite (inner_Some _ _ Ei), Ha, Hw. split; [|done]. by rewrite <- app_assoc.
  - rewrite !decide_False by done. cbn. rewrite Ha, Hw. split; [|done]. by rewrite <- app_assoc.
Qed.

Lemma mount_segments_plain (last : nat) (segs : list text) (k : nat) (g : Mounting) :
  Forall plain_segment segs ->
  g_axum (foldl (mount_segment last) g (zip (seq k (length segs)) segs)) =
  match segs with
  | [] => g_axum g
  | _ => g_axum g ++ (if Nat.ltb 0 (g_written g) then txt "/" else []) ++ join (txt "/") segs
  end.
Proof.
  intros HF. revert k g. induction HF as [|s segs Hs HF IH]; intros k g; [done|].
  cbn [length seq zip zip_with foldl]. destruct (mount_segment_plain last g k s Hs) as [Ha Hw].
  rewrite IH, Ha, Hw. destruct segs as [|s' segs]; [done|].
  change (Nat.ltb 0 (S (g_written g))) with true. rewrite (join_cons _ s) by done.
  by rewrite <- !app_assoc.
Qed.

(** A template of literals and plain variables is the router's path as
    written: only a verb after its last variable comes off, and [display] is the
    template. *)
Theorem plain_template_verbatim (template : text) :
  Forall plain_segment (split_top_level (split_verb_template template).1) ->
  proto_path_to_axum template = (split_verb_template template).1 /\
  display (mounted_new template) = template.
Proof.
  intros HF. assert (Hax : proto_path_to_axum template = (split_verb_template template).1).
  { unfold proto_path_to_axum, mounted_new.
    destruct (split_verb_template template) as [base verb]. cbn [fst m_axum] in *.
    unfold enumerate. rewrite mount_segments_plain by done. unfold split_top_level in *.
    destruct (split_top_level_from 0 [] base) eqn:E; [by destruct (split_top_level_from_nonnil 0 [] base)|].
    rewrite <- E, split_top_level_from_join. done. }
  split; [done|]. unfold display. fold (proto_path_to_axum template). rewrite Hax.
  pose proof (split_verb_template_app template) as Happ. unfold mounted_new.
  destruct (split_verb_template template) as [base verb]. cbn [m_verb fst] in *.
  destruct Happ as (_ & Happ & _). destruct verb; cbn in Happ; [done|].
  by rewrite app_nil_r in Happ.
Qed.

Lemma plain_template_verbatim_witness :
  proto_path_to_axum (txt "/v1/nodes/{id}:cancel") = txt "/v1/nodes/{id}" /\
  display (mounted_new (txt "/v1/nodes/{id}:cancel")) = txt "/v1/nodes/{id}:cancel".
Proof.
  refine (plain_template_verbatim (txt "/v1/nodes/{id}:cancel") _).
  assert (H : forallb (fun s => negb (bool_decide (s = txt "*")) && negb (bool_decide (s = txt "**")) &&
    match inner s with Some i => negb (contains_byte (ch "=") i) | None => true end)
    (split_top_level (split_verb_template (txt "/v1/nodes/{id}:cancel")).1) = true)
    by (vm_compute; reflexivity).
  apply Forall_forall. intros s Hs. rewrite forallb_forall in H.
  specialize (H s (proj1 (list_elem_of_In _ _) Hs)). bool_simpl. split; [done|]. split; [done|].
  destruct (inner s); [|done]. unfold contains_byte in *. by bool_simpl.
Defined.

(** ** Multi-segment values *)

Section DecodeKeep.
Context {P : PercentLib} {PL : PercentLaws P}.

(** The reference: one pass that decodes every escape but an encoded slash. *)
Fixpoint decode_keep (s : text) : text :=
  match s with
  | [] => []
  | a :: t =>
      match t with
      | h :: (l :: s') =>
          if is_slash s then a :: h :: l :: decode_keep s'
          else match escape s with
               | Some (b, _) => b :: decode_keep s'
               | None => a :: decode_keep t
               end
      | _ => a :: decode_keep t
      end
  end.

Lemma escape_Some (s s' : text) (b : ascii) :
  escape s = Some (b, s') ->
  exists h l, s = ch "%" :: h :: l :: s' /\ h <> ch "%" /\ l <> ch "%".
Proof.
  destruct s as [|a [|h [|l t]]]; try done. cbn. case_decide as Ha; [|done]. subst a.
  destruct (hex_value h) as [x|] eqn:Hh; [|done]. destruct (hex_value l) as [y|] eqn:Hl; [|done].
  cbn. intros [= <- <-]. exists h, l. split; [done|]. split; intros ->; done.
Qed.

Lemma is_slash_head (s : text) : is_slash s = true -> exists t, s = ch "%" :: t.
Proof. destruct s as [|a [|b [|c t]]]; try done. cbn. intros H. bool_simpl. subst. eauto. Qed.

Lemma slash_at_cons (a : ascii) (s : text) :
  slash_at (a :: s) = if is_slash (a :: s) then Some O else S <$> slash_at s.
Proof. done. Qed.

Lemma slash_at_skip (a : ascii) (s : text) : a <> ch "%" -> slash_at (a :: s) = S <$> slash_at s.
Proof.
  intros Ha. cbn [slash_at]. destruct (is_slash (a :: s)) eqn:E; [|done].
  apply is_slash_head in E as [t [= ->]]. done.
Qed.

(** One step of the reference, by what the text starts with. *)
Lemma decode_keep_escape (s s' : text) (b : ascii) :
  is_slash s = false -> escape s = Some (b, s') -> decode_keep s = b :: decode_keep s'.
Proof.
  intros Hs He. destruct (escape_Some _ _ _ He) as (h & l & -> & _).
  cbn [decode_keep]. by rewrite Hs, He.
Qed.

Lemma decode_keep_plain (a : ascii) (s : text) :
  is_slash (a :: s) = false -> escape (a :: s) = None -> decode_keep (a :: s) = a :: decode_keep s.
Proof.
  intros Hs He. destruct s as [|h [|l s']]; try done. cbn [decode_keep]. by rewrite Hs, He.
Qed.

Lemma escape_take (n : nat) (s s' : text) (b : ascii) :
  escape (take n s) = Some (b, s') -> exists s'', escape s = Some (b, s'').
Proof.
  intros He. destruct (escape_Some _ _ _ He) as (h & l & Ht & _). rewrite Ht in He.
  rewrite <- (take_drop n s), Ht. cbn in *. destruct (hex_value h), (hex_value l); try done.
  cbn in *. injection He as <-. eauto.
Qed.

Lemma decode_none (s : text) : slash_at s = None -> percent_decode s = decode_keep s.
Proof.
  remember (length s) as n eqn:Hn. revert s Hn.
  induction n as [n IH] using lt_wf_ind. intros [|a s] Hn Hs; [apply decode_nil|].
  assert (Hslash : is_slash (a :: s) = false) by (cbn [slash_at] in Hs; by destruct (is_slash (a :: s))).
  destruct (escape (a :: s)) as [[b s']|] eqn:He.
  - rewrite (decode_escape _ _ _ He), (decode_keep_escape _ _ _ Hslash He). f_equal.
    destruct (escape_Some _ _ _ He) as (h & l & [= -> ->] & Hh & Hl).
    apply (IH (length s')); [cbn in Hn; lia|done|].
    rewrite slash_at_cons, Hslash, fmap_None, !slash_at_skip, !fmap_None in Hs by done. done.
  - rewrite (decode_plain _ _ He), (decode_keep_plain _ _ Hslash He). f_equal.
    apply (IH (length s)); [cbn in Hn; lia|done|].
    cbn [slash_at] in Hs. rewrite Hslash in Hs. by apply fmap_None in Hs.
Qed.

Lemma decode_some (s : text) (at_ : nat) :
  slash_at s = Some at_ ->
  decode_keep s = percent_decode (take at_ s) ++ take 3 (drop at_ s) ++ decode_keep (drop (at_ + 3) s) /\
  (at_ + 3 <= length s)%nat.
Proof.
  remember (length s) as n eqn:Hn. revert s at_ Hn.
  induction n as [n IH] using lt_wf_ind. intros s at_ Hn Hs.
  destruct (is_slash s) eqn:Hslash.
  { destruct s as [|a [|b [|c s]]]; try done. cbn [slash_at] in Hs. rewrite Hslash in Hs.
    injection Hs as <-. cbn [take drop Nat.add]. rewrite decode_nil.
    cbn [decode_keep app]. rewrite Hslash. cbn in Hn. split; [done|lia]. }
  destruct s as [|a s]; [done|].
  assert (Hs' : exists k, slash_at s = Some k /\ at_ = S k).
  { cbn [slash_at] in Hs. rewrite Hslash in Hs. destruct (slash_at s); [|done].
    injection Hs as <-. eauto. }
  destruct Hs' as (k & Hk & ->). destruct (escape (a :: s)) as [[b s']|] eqn:He.
  - destruct (escape_Some _ _ _ He) as (h & l & [= -> ->] & Hh & Hl).
    rewrite !slash_at_skip in Hk by done. destruct (slash_at s') as [j|] eqn:Hj; [|done].
    injection Hk as <-. rewrite (decode_keep_escape _ _ _ Hslash He).
    destruct (IH (length s') ltac:(cbn in Hn; lia) s' j eq_refl Hj) as [-> Hlen].
    split; [|cbn in Hn; lia]. cbn [take drop Nat.add].
    assert (Hx : escape (ch "%" :: h :: l :: take j s') = Some (b, take j s')).
    { cbn in *. destruct (hex_value h), (hex_value l); try done. cbn in *. by injection He as <-. }
    by rewrite (decode_escape _ _ _ Hx).
  - rewrite (decode_keep_plain _ _ Hslash He).
    destruct (IH (length s) ltac:(cbn in Hn; lia) s k eq_refl Hk) as [-> Hlen].
    split; [|cbn in Hn; lia]. cbn [take drop Nat.add].
    assert (Hx : escape (a :: take k s) = None).
    { change (a :: take k s) with (take (S k) (a :: s)).
      destruct (escape (take (S k) (a :: s))) as [[b s']|] eqn:Ht; [|done].
      apply escape_take in Ht as [s'' Ht]. congruence. }
    by rewrite (decode_plain _ _ Hx).
Qed.

(** The value of a variable over several segments is decoded as
    google/api/http.proto says: the loop over the encoded slashes is one pass
    that decodes every escape and keeps each [%2F] and [%2f] as written. *)
Theorem decode_multi_segment_ref (raw : text) : decode_multi_segment raw = decode_keep raw.
Proof.
  unfold decode_multi_segment. destruct (slash_at raw) as [at_|] eqn:E; [|by apply decode_none].
  clear at_ E. assert (Hf : (length raw <= length raw)%nat) by lia. revert Hf.
  generalize (length raw) at 2 3. intros fuel. revert raw.
  induction fuel as [|fuel IH]; intros raw Hf; cbn [decode_loop].
  - destruct raw; [apply decode_nil|cbn in Hf; lia].
  - destruct (slash_at raw) as [at_|] eqn:E; [|by apply decode_none].
    destruct (decode_some raw at_ E) as [-> Hlen]. rewrite IH; [done|].
    rewrite length_drop. lia.
Qed.
End DecodeKeep.

(** ** A model of the crate *)

Module PercentModel.

Fixpoint decode (s : text) : text :=
  match s with
  | [] => []
  | a :: t =>
      match t with
      | h :: (l :: s') =>
          match escape s with Some (b, _) => b :: decode s' | None => a :: decode t end
      | _ => a :: decode t
      end
  end.

#[export] Instance percentlib : PercentLib := { percent_decode := decode }.

#[export] Instance percentlaws : PercentLaws percentlib.
Proof.
  split; cbn [percent_decode percentlib].
  - done.
  - intros s b s' He. destruct (escape_Some _ _ _ He) as (h & l & -> & _).
    cbn [decode]. by rewrite He.
  - intros a s He. destruct s as [|h [|l s']]; try done. cbn [decode]. by rewrite He.
Qed.

Lemma decode_multi_segment_ref_witness :
  decode_multi_segment (txt "a%20b%2fc%41") = txt "a b%2fcA".
Proof. exact (decode_multi_segment_ref (PL := percentlaws) (txt "a%20b%2fc%41")). Defined.
End PercentModel.
