(* ===== verification/Table.v ===== *)
(** * The transcoded routes ([src/transcode/table.rs], [RouteMethod] of
    [src/transcode/rule.rs])

    The bindings mounted at each router path, the index that ranks the paths a
    request matches, and the choice among the bindings. *)

From Stdlib Require Import Sorting.Sorted.
From S2P Require Import Prelude Rust Path.

(** ** Data *)

Inductive RouteMethod :=
| One (method : text)
| Any.

#[export] Instance RouteMethod_eq_dec : EqDecision RouteMethod.
Proof. solve_decision. Defined.

Definition method_str (m : RouteMethod) : text :=
  match m with One method => method | Any => txt "*" end.

Definition GET : text := txt "GET".
Definition HEAD : text := txt "HEAD".

Section Routing.
(** What a route holds for the handler, which routing does not read. *)
Context {Rpc : Type}.

(** [RouteEntry] of [src/transcode/mod.rs]. *)
Record RouteEntry := mkEntry {
  e_http_path : text;
  e_http_method : RouteMethod;
  e_grpc_path : text;
  e_rpc : Rpc;
}.

Record Verb := mkVerb {
  v_raw : text;
  v_decoded : text;
  v_multi_segment : text;
  v_empty_ok : bool;
}.

Record Template := mkTemplate {
  t_raw : list text;
  t_segments : list text;
  t_start : nat;
}.

Record Binding := mkBinding {
  b_entry : RouteEntry;
  b_names : option (list text);
  b_verb : option Verb;
  b_template : option Template;
  b_unbound : list nat;
  b_multi_segment : list nat;
  b_composites : list Composite;
  b_literals : list (nat * text);
}.

Record PathTable := mkTable {
  p_path : text;
  p_captures : list text;
  p_bindings : list Binding;
  p_plain : bool;
}.

Inductive Choice :=
| Route (table index : nat)
| MethodNotAllowed (table : nat) (allow : text)
| NotFound.

(** ** Escapes *)

(** [normalized_bytes]: [digits] is how many bytes of an escape are to come. *)
Fixpoint normalized_bytes (digits : nat) (s : text) : text :=
  match s with
  | [] => []
  | byte :: s' =>
      match digits with
      | S d => (if is_ascii_hexdigit byte then byte_upper byte else byte) :: normalized_bytes d s'
      | O => byte :: normalized_bytes (if decide (byte = ch "%") then 2 else 0) s'
      end
  end.

Definition normalize_escapes (s : text) : text := normalized_bytes 0 s.

Definition same_octets (received normalized : text) : bool :=
  Nat.eqb (length received) (length normalized) &&
  bool_decide (normalized_bytes 0 received = normalized).

(** ** The index of router paths *)

Record Node := mkNode {
  n_literals : gmap text nat;
  n_variable : option nat;
  n_rest : option nat;
  n_table : option nat;
}.

Definition node0 : Node := mkNode ∅ None None None.

(** [Index]: the arena of nodes. The answer of [empty_last_matches], a property
    of the router's version, is a parameter of what reads it. *)
Abbreviation Index := (list Node).
Definition index_default : Index := [node0].

Definition node_at (nodes : Index) (n : nat) : Node := default node0 (nodes !! n).

(** Which field of a node a slot is. *)
Inductive slot_kind := KTable | KRest.

#[export] Instance slot_kind_eq_dec : EqDecision slot_kind.
Proof. solve_decision. Defined.

(** The child of [node] for [segment], made when there is none. *)
Definition descend (nodes : Index) (node : nat) (segment : text) : Index * nat :=
  let next := length nodes in
  let nd := node_at nodes node in
  if starts_with (txt "{") segment then
    match n_variable nd with
    | Some child => (nodes, child)
    | None => (<[node := mkNode (n_literals nd) (Some next) (n_rest nd) (n_table nd)]> nodes ++ [node0], next)
    end
  else
    match n_literals nd !! segment with
    | Some child => (nodes, child)
    | None => (<[node := mkNode (<[segment := next]> (n_literals nd)) (n_variable nd)
                           (n_rest nd) (n_table nd)]> nodes ++ [node0], next)
    end.

Fixpoint slot_from (nodes : Index) (node : nat) (segments : list text) : Index * (nat * slot_kind) :=
  match segments with
  | [] => (nodes, (node, KTable))
  | segment :: rest =>
      if starts_with (txt "{*") segment then (nodes, (node, KRest))
      else let '(nodes, child) := descend nodes node segment in slot_from nodes child rest
  end.

Definition path_segments (path : text) : list text :=
  split (ch "/") (default path (strip_prefix (txt "/") path)).

Definition slot (nodes : Index) (path : text) : Index * (nat * slot_kind) :=
  slot_from nodes 0 (path_segments path).

Definition get_slot (nodes : Index) (s : nat * slot_kind) : option nat :=
  match s.2 with KTable => n_table (node_at nodes s.1) | KRest => n_rest (node_at nodes s.1) end.

Definition set_slot (nodes : Index) (s : nat * slot_kind) (v : option nat) : Index :=
  let nd := node_at nodes s.1 in
  <[s.1 := match s.2 with
           | KTable => mkNode (n_literals nd) (n_variable nd) (n_rest nd) v
           | KRest => mkNode (n_literals nd) (n_variable nd) v (n_table nd)
           end]> nodes.

Definition index_insert (nodes : Index) (path : text) (table : nat) : Index :=
  let '(nodes, s) := slot nodes path in set_slot nodes s (Some table).

(** [Index::holds]. *)
Fixpoint holds_segments (segments : list text) : bool :=
  match segments with
  | [] => true
  | segment :: rest =>
      let last := match rest with [] => true | _ => false end in
      match inner segment with
      | Some name =>
          negb (starts_with (txt "*") name && negb last) &&
          negb (contains_byte (ch "{") name || contains_byte (ch "}") name)
      | None => negb (contains_byte (ch "{") segment || contains_byte (ch "}") segment)
      end && holds_segments rest
  end.

Definition index_holds (path : text) : bool :=
  match strip_prefix (txt "/") path with
  | None => false
  | Some segments => holds_segments (split (ch "/") segments)
  end.

(** ** The choice of one table *)

(** The request path without its verb, and the verb: the last segment from its
    first colon. *)
Definition split_verb (path : text) : option (text * text) :=
  let start := match rposition (fun c => bool_decide (c = ch "/")) path with
               | Some slash => S slash
               | None => O
               end in
  let! colon := position (fun c => bool_decide (c = ch ":")) (drop start path) in
  Some (take (start + colon) path, drop (start + colon) path).

(** [follows] on the segments of a value, [[]] past the last one. *)
Fixpoint follows_segments (template value : list text) {struct template} : bool :=
  match template with
  | [] => match value with [] => true | _ => false end
  | first :: rest =>
      if decide (first = txt "**") then
        (fix skip left := follows_segments rest left ||
           match left with [] => false | _ :: tail => skip tail end) value
      else
        match value with
        | [] => false
        | segment :: tail =>
            (if decide (first = txt "*") then match segment with [] => false | _ => true end
             else same_octets segment first) && follows_segments rest tail
        end
  end.

Definition follows (template : list text) (value : option text) : bool :=
  follows_segments template (match value with Some v => split (ch "/") v | None => [] end).

Definition template_of (mount : MountedPath) : option Template :=
  let! raw := m_last_template mount in
  Some (mkTemplate raw (normalize_escapes <$> raw) (m_last_segment mount)).

Definition constrained (b : Binding) : bool :=
  negb (bool_decide (b_literals b = [])) || bool_decide (is_Some (b_template b)).

(** The pass over the segments: [next] is the index of the first one left. *)
Fixpoint fits_literals (literals : list (nat * text)) (next : nat) (segments : list text) : bool :=
  match literals with
  | [] => true
  | (at_, literal) :: literals' =>
      match drop (at_ - next) segments with
      | [] => false
      | segment :: segments' =>
          same_octets segment literal && fits_literals literals' (S at_) segments'
      end
  end.

(** What follows the [n]-th slash. *)
Fixpoint after_slashes (n : nat) (path : text) : option nat :=
  match n with
  | O => Some O
  | S n' =>
      let! slash := position (fun c => bool_decide (c = ch "/")) path in
      let! at_ := after_slashes n' (drop (S slash) path) in
      Some (S slash + at_)%nat
  end.

Definition fits (b : Binding) (path : text) : bool :=
  fits_literals (b_literals b) 0 (split (ch "/") path) &&
  match b_template b with
  | None => true
  | Some template =>
      match after_slashes (t_start template) path with
      | None => false
      | Some at_ =>
          let end_ := match b_verb b, split_verb path with
                      | Some _, Some (rest, _) => Some (length rest)
                      | Some _, None => None
                      | None, _ => Some (length path)
                      end in
          match end_ with
          | None => false
          | Some end_ =>
              if Nat.leb at_ end_ then
                let value := take (end_ - at_) (drop at_ path) in
                follows (t_segments template) (match value with [] => None | _ => Some value end)
              else false
          end
      end
  end.

Definition normalized_literals (literals : list (nat * text)) : list (nat * text) :=
  (fun al => (al.1, normalize_escapes al.2)) <$> literals.

Definition positions (marked : list bool) : list nat :=
  fst <$> filter (fun ib => ib.2 = true) (enumerate marked).

Record Claim := mkClaim {
  cl_method : RouteMethod;
  cl_verb : option text;
  cl_template : option (list text);
  cl_literals : list (nat * text);
}.

(** [normalized], and the verb likewise. *)
Definition normalized_verb (verb : option text) : option text := option_map normalize_escapes verb.
Definition normalized (template : option (list text)) : option (list text) :=
  option_map (map normalize_escapes) template.

Definition clash (claim other : Claim) : bool :=
  bool_decide (normalized_verb (cl_verb claim) = normalized_verb (cl_verb other)) &&
  bool_decide (normalized (cl_template claim) = normalized (cl_template other)) &&
  Nat.eqb (length (cl_literals claim)) (length (cl_literals other)) &&
  forallb (fun ab => Nat.eqb ab.1.1 ab.2.1 &&
                     bool_decide (normalize_escapes ab.1.2 = normalize_escapes ab.2.2))
    (zip (cl_literals claim) (cl_literals other)) &&
  (bool_decide (cl_method claim = cl_method other) ||
   bool_decide (cl_method claim = Any) || bool_decide (cl_method other = Any)).

Section Percent.
Context {P : PercentLib}.

Definition verb_new (raw : text) (empty_ok : bool) : Verb :=
  mkVerb (normalize_escapes raw) (utf8_lossy (percent_decode raw))
    (normalize_escapes (utf8_lossy (decode_multi_segment raw))) empty_ok.

(** [PathTable::new]. *)
Definition table_new (mount : MountedPath) (entry : RouteEntry) : PathTable :=
  mkTable (m_axum mount) (m_captures mount)
    [mkBinding entry None ((fun raw => verb_new raw (m_empty_last mount)) <$> m_verb mount)
       (template_of mount) (positions (m_unbound mount)) (positions (m_multi_segment mount))
       (m_composites mount) (normalized_literals (m_literals mount))]
    (bool_decide (m_verb mount = None)).

Definition binding_claim (b : Binding) : Claim :=
  mkClaim (e_http_method (b_entry b)) (v_raw <$> b_verb b) (t_raw <$> b_template b) (b_literals b).

(** [PathTable::add]. *)
Definition table_add (t : PathTable) (mount : MountedPath) (entry : RouteEntry) : PathTable :=
  let claim := mkClaim (e_http_method entry) (m_verb mount) (m_last_template mount) (m_literals mount) in
  if existsb (fun existing => clash (binding_claim existing) claim) (p_bindings t) then t
  else
    let binding :=
      mkBinding entry
        (if decide (m_captures mount = p_captures t) then None else Some (m_captures mount))
        ((fun raw => verb_new raw (m_empty_last mount)) <$> m_verb mount)
        (template_of mount) (positions (m_unbound mount)) (positions (m_multi_segment mount))
        (m_composites mount) (normalized_literals (m_literals mount)) in
    let at_ :=
      if constrained binding then
        default (length (p_bindings t))
          (position (fun existing => negb (constrained existing)) (p_bindings t))
      else length (p_bindings t) in
    mkTable (p_path t) (p_captures t)
      (take at_ (p_bindings t) ++ binding :: drop at_ (p_bindings t))
      (p_plain t || bool_decide (b_verb binding = None)).
End Percent.

Definition binds_head (t : PathTable) : bool :=
  existsb (fun b => bool_decide (e_http_method (b_entry b) = One HEAD)) (p_bindings t).

Definition literal_end (t : PathTable) : bool := negb (ends_with (txt "}") (p_path t)).

(** [PathTable::allow]: the loop over the bindings with their indexes;
    [earlier] are the ones before. *)
Record Allowing := mkAllowing { al_value : text; al_get : bool; al_head : bool }.

Fixpoint allow_loop (admitted : nat -> bool) (earlier : list Binding) (later : list Binding)
  (s : Allowing) : Allowing :=
  match later with
  | [] => s
  | binding :: later' =>
      let index := length earlier in
      let method := method_str (e_http_method (b_entry binding)) in
      let listed := existsb (fun eb => bool_decide (method_str (e_http_method (b_entry eb.2)) = method) &&
                                       admitted eb.1) (enumerate earlier) in
      let s' :=
        if negb (admitted index) then s
        else if listed then s
        else mkAllowing
               ((match al_value s with [] => [] | v => v ++ txt ", " end) ++ method)
               (al_get s || bool_decide (method = GET)) (al_head s || bool_decide (method = HEAD)) in
      allow_loop admitted (earlier ++ [binding]) later' s'
  end.

Definition table_allow (t : PathTable) (admitted : nat -> bool) : text :=
  let s := allow_loop admitted [] (p_bindings t) (mkAllowing [] false false) in
  if al_get s && negb (al_head s) then al_value s ++ txt ", HEAD" else al_value s.

(** The loop of [PathTable::choose] from index [i]: a binding that answers at
    once, or the state it ends in. *)
Record Choosing := mkChoosing { c_head : option nat; c_admitted : Z; c_answered : bool }.

Fixpoint choose_loop (method : text) (answers : Binding -> bool) (i : nat) (bs : list Binding)
  (s : Choosing) : nat + Choosing :=
  match bs with
  | [] => inr s
  | binding :: bs' =>
      if negb (answers binding) then choose_loop method answers (S i) bs' s
      else
        let s := mkChoosing (c_head s)
                   (if Nat.ltb i 64 then Z.lor (c_admitted s) (Z.shiftl 1 (Z.of_nat i))
                    else c_admitted s) true in
        match e_http_method (b_entry binding) with
        | Any => inl i
        | One bound =>
            if decide (bound = method) then inl i
            else
              let s := if decide (bound = GET /\ method = HEAD)
                       then mkChoosing (match c_head s with Some h => Some h | None => Some i end)
                              (c_admitted s) (c_answered s)
                       else s in
              choose_loop method answers (S i) bs' s
        end
  end.

Definition table_choose (t : PathTable) (table : nat) (method : text) (answers : Binding -> bool)
  : option Choice :=
  match choose_loop method answers 0 (p_bindings t) (mkChoosing None 0 false) with
  | inl index => Some (Route table index)
  | inr s =>
      match c_head s with
      | Some index => Some (Route table index)
      | None =>
          if c_answered s then
            Some (MethodNotAllowed table
              (table_allow t (fun index =>
                 if Nat.ltb index 64 then negb (Z.land (c_admitted s) (Z.shiftl 1 (Z.of_nat index)) =? 0)
                 else match p_bindings t !! index with Some b => answers b | None => false end)))
          else None
      end
  end.

(** ** The tables a path matches *)

(** What a [ControlFlow] callback does with each table, threading its state:
    break with a value, or go on. *)
Inductive flow (B S : Type) :=
| Break (b : B)
| Continue (s : S).
Arguments Break {B S} b.
Arguments Continue {B S} s.

Fixpoint run_each {B S} (found : S -> nat -> flow B S) (s : S) (tables : list nat) : flow B S :=
  match tables with
  | [] => Continue s
  | table :: tables' =>
      match found s table with
      | Break b => Break b
      | Continue s' => run_each found s' tables'
      end
  end.

Section Visit.
(** [empty_last_matches]: whether the router lets a variable take an empty last
    segment, which its version decides. *)
Context (empty_last : bool).

(** [Index::visit]: the tables it hands out, in order. [segments] are those of
    [rest], [[]] past the last one. *)
Fixpoint visit (nodes : Index) (segments : list text) (node : nat) {struct segments} : list nat :=
  let nd := node_at nodes node in
  match segments with
  | [] => option_list (n_table nd)
  | segment :: tail =>
      (match n_literals nd !! segment with
       | Some next => visit nodes tail next
       | None => []
       end) ++
      (match n_variable nd with
       | Some next =>
           if negb (bool_decide (segment = [])) || negb (bool_decide (tail = [])) || empty_last
           then visit nodes tail next else []
       | None => []
       end) ++
      (if negb (bool_decide (segment :: tail = [[]])) then option_list (n_rest nd) else [])
  end.

Definition each_table (nodes : Index) (path : text) : list nat :=
  match strip_prefix (txt "/") path with
  | Some rest => visit nodes (split (ch "/") rest) 0
  | None => []
  end.

(** [Index::each] and [Index::first]. *)
Definition each {B S} (nodes : Index) (path : text) (found : S -> nat -> flow B S) (s : S) : flow B S :=
  run_each found s (each_table nodes path).

Definition index_first (nodes : Index) (path : text) : option nat :=
  match each nodes path (fun (s : unit) table => Break table) tt with
  | Break table => Some table
  | Continue _ => None
  end.

(** ** Every route *)

Record Routes := mkRoutes {
  r_tables : list PathTable;
  r_verbs : gmap text Index;
  r_plain : Index;
  r_by_path : gmap text nat;
}.

(** The verbs of a table, each once, in binding order. *)
Definition table_verbs (t : PathTable) : list text :=
  foldl (fun seen b => match b_verb b with
                       | Some verb => if decide (v_raw verb ∈ seen) then seen else seen ++ [v_raw verb]
                       | None => seen
                       end) [] (p_bindings t).

(** One turn of the loop of [Routes::new]; the single-path routers are the
    router crate's. *)
Definition routes_step (acc : gmap text Index * Index * gmap text nat) (it : nat * PathTable)
  : gmap text Index * Index * gmap text nat :=
  let '(verbs, plain, by_path) := acc in
  let '(index, table) := it in
  (foldl (fun verbs verb =>
            <[verb := index_insert (default index_default (verbs !! verb)) (p_path table) index]> verbs)
     verbs (table_verbs table),
   if p_plain table then index_insert plain (p_path table) index else plain,
   <[p_path table := index]> by_path).

Definition routes_new (tables : list PathTable) : Routes :=
  let '(verbs, plain, by_path) := foldl routes_step (∅, index_default, ∅) (enumerate tables) in
  mkRoutes tables verbs plain by_path.

Definition table_at (r : Routes) (router_path : text) : option nat := r_by_path r !! router_path.

(** [self.tables[table]]. *)
Definition get_table (r : Routes) (table : nat) : PathTable :=
  default (mkTable [] [] [] false) (r_tables r !! table).

(** The closure of [answer] on each table after [first]. *)
Definition answer_step (r : Routes) (first : nat) (method : text) (admits : Binding -> bool)
  (ranks : nat -> bool) (not_allowed : option Choice) (table : nat)
  : flow (option Choice * option Choice) (option Choice) :=
  if Nat.eqb table first then Continue not_allowed
  else if negb (ranks table) then Break (None, not_allowed)
  else match table_choose (get_table r table) table method admits with
       | Some (MethodNotAllowed t a) =>
           Continue (match not_allowed with Some c => Some c | None => Some (MethodNotAllowed t a) end)
       | Some choice => Break (Some choice, not_allowed)
       | None => Continue not_allowed
       end.

(** [Routes::answer]. *)
Definition answer (r : Routes) (index : Index) (first : nat) (method path : text)
  (admits : Binding -> bool) (ranks : nat -> bool) : option Choice :=
  let rest not_allowed :=
    match each index path (answer_step r first method admits ranks) not_allowed with
    | Break (Some choice, _) => Some choice
    | Break (None, not_allowed) => not_allowed
    | Continue not_allowed => not_allowed
    end in
  match table_choose (get_table r first) first method admits with
  | Some (MethodNotAllowed t a) => rest (Some (MethodNotAllowed t a))
  | Some choice => Some choice
  | None => rest None
  end.

(** The closures [plain] and [bound] of [choose_ranked]. *)
Definition plain_admits (path : text) (b : Binding) : bool :=
  bool_decide (b_verb b = None) && fits b path.

Definition bound_admits (path rest verb : text) (b : Binding) : bool :=
  match b_verb b with
  | Some own => bool_decide (v_raw own = verb) && (v_empty_ok own || negb (ends_with (txt "/") rest))
  | None => false
  end && fits b path.

Definition choose_verb (r : Routes) (table : nat) (method path : text) (ranks : nat -> bool)
  : option Choice :=
  let! sv := split_verb path in
  let '(rest, verb) := sv in
  let verb := normalize_escapes verb in
  let! index := r_verbs r !! verb in
  let! first := index_first index path in
  if Nat.eqb first table || ranks first then
    answer r index first method path (bound_admits path rest verb) ranks
  else None.

Definition choose_plain (r : Routes) (table : nat) (method path : text) (ranks : nat -> bool) : Choice :=
  let first :=
    if p_plain (get_table r table) then Some table
    else match index_first (r_plain r) path with
         | Some first => if ranks first then Some first else None
         | None => None
         end in
  match first with
  | None => NotFound
  | Some first =>
      default NotFound (answer r (r_plain r) first method path (plain_admits path) ranks)
  end.

Definition choose_ranked (r : Routes) (table : nat) (method path : text) (ranks : nat -> bool) : Choice :=
  let literal :=
    if literal_end (get_table r table) then
      table_choose (get_table r table) table method (plain_admits path)
    else None in
  match literal with
  | Some choice => choice
  | None =>
      match choose_verb r table method path ranks with
      | Some choice => choice
      | None => choose_plain r table method path ranks
      end
  end.

Definition choose (r : Routes) (table : nat) (method path : text) : Choice :=
  choose_ranked r table method path (fun _ => true).

(** ** Among the other routes of the proxy *)

Record Ranked := mkRanked {
  k_index : Index;
  k_tables : nat;
  k_shared : list (list text);
  k_head : list bool;
}.

(** One turn over [others]; [None] is the early [return None]. *)
Definition ranked_step (tables : nat) (acc : option (Index * list (list text)))
  (other : option text * text) : option (Index * list (list text)) :=
  let! a := acc in
  let '(index, shared) := a in
  let '(method, path) := other in
  if negb (index_holds path) then None
  else
    let '(index, s) := slot index path in
    match get_slot index s with
    | None => Some (set_slot index s (Some tables), shared)
    | Some table =>
        if Nat.ltb table tables then
          match method with
          | Some method => Some (index, alter (fun ms => ms ++ [method]) table shared)
          | None => None
          end
        else Some (index, shared)
    end.

Definition ranked_new (routes : Routes) (others : list (option text * text)) : option Ranked :=
  let tables := length (r_tables routes) in
  let index := foldl (fun index it => index_insert index (p_path it.2) it.1) index_default
                 (enumerate (r_tables routes)) in
  let! a := foldl (ranked_step tables) (Some (index, replicate tables [])) others in
  Some (mkRanked a.1 tables a.2 (binds_head <$> r_tables routes)).

Definition theirs (k : Ranked) (table : nat) (method : text) : bool :=
  let shared := default [] (k_shared k !! table) in
  bool_decide (method ∈ shared) ||
  (bool_decide (method = HEAD) && negb (default false (k_head k !! table)) && bool_decide (GET ∈ shared)).

Definition ranked_table (k : Ranked) (method path : text) : option nat :=
  let! table := index_first (k_index k) path in
  if Nat.leb (k_tables k) table then None
  else if theirs k table method then None
  else Some table.

Definition listed_in (value method : text) : bool :=
  existsb (fun listed => bool_decide (listed = method)) (split_pair (ch ",") (ch " ") value).

Definition add_method (value method : text) : text :=
  if listed_in value method then value
  else (match value with [] => [] | v => v ++ txt ", " end) ++ method.

Definition ranked_allow (k : Ranked) (table : nat) (allow : text) : text :=
  match default [] (k_shared k !! table) with
  | [] => allow
  | shared =>
      let value := foldl add_method allow shared in
      if decide (GET ∈ shared) then add_method value HEAD else value
  end.

Definition ranks_first (k : Ranked) (table : nat) (method path : text) : bool :=
  match each (k_index k) path
    (fun (s : unit) id =>
       if Nat.leb (k_tables k) id || theirs k id method then Break false
       else if Nat.eqb id table then Break true
       else Continue s) tt with
  | Break b => b
  | Continue _ => false
  end.
End Visit.

(** ** The parameters of the chosen binding *)

Abbreviation params := (list (text * text)).

(** The bytes of the last value that are left without the verb. *)
Definition verb_off (verb : Verb) (multi : bool) (value : text) : text :=
  if multi then
    let suffix := length (v_multi_segment verb) in
    if Nat.leb suffix (length value) &&
       same_octets (drop (length value - suffix) value) (v_multi_segment verb)
    then take (length value - suffix) value else value
  else default value (strip_suffix (v_decoded verb) value).

(** The value of a composite; [None] is an index out of range. *)
Definition composite_value (base : nat) (ps : params) (c : Composite) : option text :=
  join (txt "/") <$>
  mapM (fun part => match part with
                    | PLiteral literal => Some literal
                    | PCapture position => snd <$> ps !! (base + position)%nat
                    end) (co_parts c).

(** [slice::swap]. *)
Definition swap {A} (i j : nat) (l : list A) : list A :=
  match l !! i, l !! j with
  | Some x, Some y => <[i := y]> (<[j := x]> l)
  | _, _ => l
  end.

(** The loop that keeps the named captures in place, from [at_]. *)
Fixpoint keep_loop (base : nat) (unbound : list nat) (name_of : nat -> option text)
  (todo at_ kept : nat) (ps : params) : option (nat * params) :=
  match todo with
  | O => Some (kept, ps)
  | S todo' =>
      let next keep ps :=
        if (keep : bool) then keep_loop base unbound name_of todo' (S at_) (S kept) (swap kept at_ ps)
        else keep_loop base unbound name_of todo' (S at_) kept ps in
      if Nat.ltb at_ base then next true ps
      else
        let position := (at_ - base)%nat in
        if decide (position ∈ unbound) then next false ps
        else
          let! name := name_of position in
          next true (alter (fun nv => (name, nv.2)) at_ ps)
  end.

(** [PathTable::bind_params]; [None] is a panic. *)
Definition bind_params (t : PathTable) (index : nat) (ps : params) : option params :=
  let! binding := p_bindings t !! index in
  let captures := length (p_captures t) in
  let! base := if Nat.leb captures (length ps) then Some (length ps - captures)%nat else None in
  let ps :=
    match b_verb binding, captures with
    | Some verb, S last =>
        alter (fun nv => (nv.1, verb_off verb (bool_decide (last ∈ b_multi_segment binding)) nv.2))
          (base + last)%nat ps
    | _, _ => ps
    end in
  let matched := length ps in
  let! values := mapM (fun c => pair (co_field c) <$> composite_value base ps c) (b_composites binding) in
  let ps := ps ++ values in
  let name_of position :=
    match b_names binding with
    | None => p_captures t !! position
    | Some names => names !! position
    end in
  let! kp := keep_loop base (b_unbound binding) name_of matched 0 0 ps in
  let '(kept, ps) := kp in
  Some (take kept ps ++ drop matched ps).

(** ** The index is a map of router paths *)

(** A router path as the router reads it: whole-segment literals and variables,
    and whether a catch-all ends it. *)
Inductive key := KLit (s : text) | KVar.

#[export] Instance key_eq_dec : EqDecision key.
Proof. solve_decision. Defined.

Abbreviation pattern := (list key * slot_kind)%type.

Fixpoint pattern_of_segments (segments : list text) : pattern :=
  match segments with
  | [] => ([], KTable)
  | segment :: rest =>
      if starts_with (txt "{*") segment then ([], KRest)
      else
        let p := pattern_of_segments rest in
        ((if starts_with (txt "{") segment then KVar else KLit segment) :: p.1, p.2)
  end.

Definition pattern_of (path : text) : pattern := pattern_of_segments (path_segments path).

(** The node at the end of some keys, and what the index holds for a pattern. *)
Definition child (nd : Node) (k : key) : option nat :=
  match k with KLit s => n_literals nd !! s | KVar => n_variable nd end.

Fixpoint walk_keys (nodes : Index) (node : nat) (ks : list key) : option nat :=
  match ks with
  | [] => Some node
  | k :: ks' => let! c := child (node_at nodes node) k in walk_keys nodes c ks'
  end.

Definition content_from (nodes : Index) (node : nat) (p : pattern) : option nat :=
  let! n := walk_keys nodes node p.1 in get_slot nodes (n, p.2).

Definition content (nodes : Index) (p : pattern) : option nat := content_from nodes 0 p.

(** A labelling of the nodes by the keys that lead there: what makes the arena
    a tree. *)
Record labelled (nodes : Index) (labels : list (list key)) : Prop := {
  lab_length : length labels = length nodes;
  lab_root : labels !! 0%nat = Some [];
  lab_child : forall n l k c, labels !! n = Some l ->
    child (node_at nodes n) k = Some c -> labels !! c = Some (l ++ [k]);
}.

Lemma labelled_default : labelled index_default [[]].
Proof.
  split; [done|done|]. intros [|n] l k c Hl Hc; [|done].
  destruct k; cbn in Hc; [|done]. by rewrite lookup_empty in Hc.
Qed.

Lemma walk_label (nodes : Index) (labels : list (list key)) (ks : list key) (n m : nat) (l : list key) :
  labelled nodes labels -> labels !! n = Some l -> walk_keys nodes n ks = Some m ->
  labels !! m = Some (l ++ ks).
Proof.
  intros Hlab. revert n l. induction ks as [|k ks IH]; intros n l Hl; cbn.
  { intros [= <-]. by rewrite app_nil_r. }
  destruct (child _ k) as [c|] eqn:Hc; cbn; [|done]. intros Hw.
  rewrite (IH c (l ++ [k]) (lab_child _ _ Hlab n l k c Hl Hc) Hw). by rewrite <- app_assoc.
Qed.

Lemma walk_app (nodes : Index) (n : nat) (ks ks' : list key) :
  walk_keys nodes n (ks ++ ks') = (let! m := walk_keys nodes n ks in walk_keys nodes m ks').
Proof.
  revert n. induction ks as [|k ks IH]; intros n; cbn; [done|].
  destruct (child _ k); cbn; [apply IH|done].
Qed.

(** The key a segment stands for. *)
Definition key_of (segment : text) : key :=
  if starts_with (txt "{") segment then KVar else KLit segment.

Definition add_child (nd : Node) (k : key) (c : nat) : Node :=
  match k with
  | KLit s => mkNode (<[s := c]> (n_literals nd)) (n_variable nd) (n_rest nd) (n_table nd)
  | KVar => mkNode (n_literals nd) (Some c) (n_rest nd) (n_table nd)
  end.

Lemma descend_eq (nodes : Index) (node : nat) (segment : text) :
  descend nodes node segment =
  match child (node_at nodes node) (key_of segment) with
  | Some c => (nodes, c)
  | None => (<[node := add_child (node_at nodes node) (key_of segment) (length nodes)]> nodes ++ [node0],
             length nodes)
  end.
Proof. unfold descend, key_of. destruct (starts_with _ _); cbn; by repeat case_match. Qed.

Lemma child_add (nd : Node) (k k' : key) (c : nat) :
  child (add_child nd k c) k' = if decide (k = k') then Some c else child nd k'.
Proof.
  destruct k as [s|], k' as [s'|]; cbn; repeat case_decide; try congruence.
  - simplify_eq. by rewrite lookup_insert_eq.
  - rewrite lookup_insert_ne; [done|congruence].
Qed.

(** The arena after a child was made at [node]. *)
Lemma node_at_made (nodes : Index) (node m : nat) (nd : Node) :
  (node < length nodes)%nat ->
  node_at (<[node := nd]> nodes ++ [node0]) m =
  if decide (m = node) then nd else node_at nodes m.
Proof.
  intros Hn. unfold node_at. destruct (decide (m = node)) as [->|Hne].
  - rewrite lookup_app_l by (by rewrite length_insert). by rewrite list_lookup_insert_eq.
  - destruct (decide (m < length nodes)%nat) as [Hm|Hm].
    + rewrite lookup_app_l by (by rewrite length_insert). by rewrite list_lookup_insert_ne.
    + rewrite (lookup_ge_None_2 nodes) by lia. rewrite lookup_app_r by (rewrite length_insert; lia).
      rewrite length_insert. by destruct (m - length nodes)%nat.
Qed.

Lemma label_range (nodes : Index) (labels : list (list key)) (n : nat) (l : list key) :
  labelled nodes labels -> labels !! n = Some l -> (n < length nodes)%nat.
Proof. intros Hlab Hl. rewrite <- (lab_length _ _ Hlab). by apply lookup_lt_Some in Hl. Qed.

Lemma get_slot_made (nodes : Index) (node m : nat) (k : key) (c : nat) (kind : slot_kind) :
  (node < length nodes)%nat ->
  get_slot (<[node := add_child (node_at nodes node) k c]> nodes ++ [node0]) (m, kind) =
  get_slot nodes (m, kind).
Proof.
  intros Hn. unfold get_slot. cbn. rewrite node_at_made by done.
  destruct (decide (m = node)) as [->|]; [|done]. by destruct kind, k.
Qed.

(** Making one child: the arena stays a tree, the node has the child, and no
    path reads anything else than before. *)
Lemma descend_ok (nodes : Index) (labels : list (list key)) (node : nat) (l : list key) (segment : text) :
  labelled nodes labels -> labels !! node = Some l ->
  let '(nodes', c) := descend nodes node segment in
  exists labels', labelled nodes' labels' /\ labels' !! c = Some (l ++ [key_of segment]) /\
    (forall n l', labels !! n = Some l' -> labels' !! n = Some l') /\
    child (node_at nodes' node) (key_of segment) = Some c /\
    (forall n k m, child (node_at nodes n) k = Some m -> child (node_at nodes' n) k = Some m) /\
    (forall n kind, get_slot nodes' (n, kind) = get_slot nodes (n, kind)) /\
    (forall n k m, child (node_at nodes' n) k = Some m ->
       child (node_at nodes n) k = Some m \/ m = length nodes) /\
    (forall k, child (node_at nodes' (length nodes)) k = None).
Proof.
  intros Hlab Hl. rewrite descend_eq.
  assert (Hfresh : forall k, child (node_at nodes (length nodes)) k = None).
  { intros k. unfold node_at. rewrite lookup_ge_None_2 by lia. destruct k; cbn; [apply lookup_empty|done]. }
  destruct (child _ _) as [c|] eqn:Hc.
  { exists labels. split_and!; auto. by eapply lab_child. }
  pose proof (label_range _ _ _ _ Hlab Hl) as Hr. pose proof (lab_length _ _ Hlab) as Hlen.
  set (k := key_of segment) in *.
  exists (labels ++ [l ++ [k]]). split_and!.
  - split.
    + rewrite !length_app, length_insert, Hlen. done.
    + rewrite lookup_app_l by (rewrite Hlen; lia). apply (lab_root _ _ Hlab).
    + intros n l' k' c'. rewrite node_at_made by done. intros Hn Hch.
      destruct (decide (n = node)) as [->|Hne].
      * rewrite lookup_app_l in Hn by lia. rewrite Hl in Hn. injection Hn as <-.
        rewrite child_add in Hch. destruct (decide (k = k')) as [->|].
        -- injection Hch as <-. rewrite <- Hlen. by rewrite list_lookup_middle.
        -- apply lookup_app_l_Some. by eapply lab_child.
      * destruct (decide (n < length labels)%nat).
        -- rewrite lookup_app_l in Hn by done. apply lookup_app_l_Some. by eapply lab_child.
        -- unfold node_at in Hch. rewrite lookup_ge_None_2 in Hch by lia.
           destruct k'; cbn in Hch; [by rewrite lookup_empty in Hch|done].
  - rewrite <- Hlen. by rewrite list_lookup_middle.
  - intros n l' Hn. by apply lookup_app_l_Some.
  - rewrite node_at_made, decide_True by done. by rewrite child_add, decide_True.
  - intros n k' m Hm. rewrite node_at_made by done. destruct (decide (n = node)) as [->|]; [|done].
    rewrite child_add. destruct (decide (k = k')) as [<-|]; [congruence|done].
  - intros n kind. by apply get_slot_made.
  - intros n k' m. rewrite node_at_made by done. destruct (decide (n = node)) as [->|]; [|auto].
    rewrite child_add. destruct (decide (k = k')); [|auto]. intros [= <-]. auto.
  - intros k'. rewrite node_at_made, decide_False by (done || lia). apply Hfresh.
Qed.

Lemma get_slot_fresh (nodes : Index) (n : nat) (kind : slot_kind) :
  (length nodes <= n)%nat -> get_slot nodes (n, kind) = None.
Proof.
  intros Hn. unfold get_slot, node_at. cbn. rewrite lookup_ge_None_2 by done. by destruct kind.
Qed.

Lemma descend_walk (nodes : Index) (labels : list (list key)) (node : nat) (l : list key)
  (segment : text) (ks : list key) (n : nat) :
  labelled nodes labels -> labels !! node = Some l ->
  let nodes' := (descend nodes node segment).1 in
  walk_keys nodes' n ks = walk_keys nodes n ks \/
  (walk_keys nodes n ks = None /\ walk_keys nodes' n ks = Some (length nodes)) \/
  (walk_keys nodes n ks = None /\ walk_keys nodes' n ks = None).
Proof.
  intros Hlab Hl. pose proof (descend_ok nodes labels node l segment Hlab Hl) as H.
  destruct (descend nodes node segment) as [nodes' c]. cbn [fst].
  destruct H as (labels' & _ & _ & _ & _ & Hold & _ & Hnew & Hfresh).
  revert n. induction ks as [|k ks IH]; intros n; cbn; [by left|].
  destruct (child (node_at nodes n) k) as [m|] eqn:Hc; cbn.
  { rewrite (Hold _ _ _ Hc). apply IH. }
  right. destruct (child (node_at nodes' n) k) as [m|] eqn:Hc'; cbn; [|auto].
  destruct (Hnew _ _ _ Hc') as [Hx| ->]; [congruence|].
  destruct ks as [|k' ks]; cbn; [auto|]. rewrite Hfresh. auto.
Qed.

Lemma descend_content (nodes : Index) (labels : list (list key)) (node : nat) (l : list key)
  (segment : text) (p : pattern) :
  labelled nodes labels -> labels !! node = Some l ->
  content (descend nodes node segment).1 p = content nodes p.
Proof.
  intros Hlab Hl. unfold content, content_from.
  pose proof (descend_ok nodes labels node l segment Hlab Hl) as H.
  pose proof (descend_walk nodes labels node l segment p.1 0 Hlab Hl) as Hw. cbn zeta in Hw.
  destruct (descend nodes node segment) as [nodes' c]. cbn [fst] in *.
  destruct H as (labels' & _ & _ & _ & _ & _ & Hslot & _).
  destruct Hw as [->|[(-> & ->)|(-> & ->)]]; cbn; [|by rewrite Hslot, get_slot_fresh|done].
  destruct (walk_keys nodes 0 p.1); cbn; [apply Hslot|done].
Qed.

(** The entry of a path: the arena stays a tree, holds what it held, and the
    slot is the path's. *)
Lemma slot_from_ok (segments : list text) (nodes : Index) (labels : list (list key)) (node : nat)
  (l : list key) :
  labelled nodes labels -> labels !! node = Some l ->
  let '(nodes', (n, kind)) := slot_from nodes node segments in
  exists labels', labelled nodes' labels' /\
    (forall m l', labels !! m = Some l' -> labels' !! m = Some l') /\
    (forall m k c, child (node_at nodes m) k = Some c -> child (node_at nodes' m) k = Some c) /\
    (forall p, content nodes' p = content nodes p) /\
    walk_keys nodes' node (pattern_of_segments segments).1 = Some n /\
    kind = (pattern_of_segments segments).2.
Proof.
  revert nodes labels node l. induction segments as [|s segs IH]; intros nodes labels node l Hlab Hl.
  { cbn. exists labels. auto 8. }
  cbn [slot_from pattern_of_segments]. destruct (starts_with (txt "{*") s); [exists labels; auto 8|].
  pose proof (descend_ok nodes labels node l s Hlab Hl) as H.
  pose proof (fun p => descend_content nodes labels node l s p Hlab Hl) as Hcont.
  destruct (descend nodes node s) as [nodes1 c]. cbn [fst] in Hcont.
  destruct H as (labels1 & Hlab1 & Hc & Hkeep & Hch & Hold & _ & _ & _).
  specialize (IH nodes1 labels1 c _ Hlab1 Hc).
  destruct (slot_from nodes1 c segs) as [nodes2 [n kind]].
  destruct IH as (labels2 & Hlab2 & Hkeep2 & Hold2 & Hcont2 & Hwalk & Hkind).
  exists labels2. split_and!; auto.
  - intros p. by rewrite Hcont2, Hcont.
  - cbn [fst walk_keys]. fold (key_of s). by rewrite (Hold2 _ _ _ Hch).
Qed.

(** Writing a slot. *)
Lemma node_at_insert (nodes : Index) (n m : nat) (nd : Node) :
  (n < length nodes)%nat ->
  node_at (<[n := nd]> nodes) m = if decide (m = n) then nd else node_at nodes m.
Proof.
  intros Hn. unfold node_at. destruct (decide (m = n)) as [->|Hne].
  - by rewrite list_lookup_insert_eq.
  - by rewrite list_lookup_insert_ne.
Qed.

Lemma child_set_slot (nodes : Index) (s : nat * slot_kind) (v : option nat) (n : nat) (k : key) :
  child (node_at (set_slot nodes s v) n) k = child (node_at nodes n) k.
Proof.
  unfold set_slot. set (nd := match s.2 with KTable => _ | KRest => _ end).
  assert (Hnd : child nd k = child (node_at nodes s.1) k) by (unfold nd; by destruct s.2, k).
  clearbody nd. destruct (decide (n = s.1)) as [->|Hne].
  - unfold node_at at 1. destruct (decide (s.1 < length nodes)%nat).
    + by rewrite list_lookup_insert_eq.
    + by rewrite list_insert_ge by lia.
  - unfold node_at. by rewrite list_lookup_insert_ne.
Qed.

Lemma walk_set_slot (nodes : Index) (s : nat * slot_kind) (v : option nat) (n : nat) (ks : list key) :
  walk_keys (set_slot nodes s v) n ks = walk_keys nodes n ks.
Proof.
  revert n. induction ks as [|k ks IH]; intros n; cbn; [done|]. rewrite child_set_slot.
  destruct (child _ k); cbn; [apply IH|done].
Qed.

Lemma get_set_slot (nodes : Index) (s s' : nat * slot_kind) (v : option nat) :
  (s.1 < length nodes)%nat ->
  get_slot (set_slot nodes s v) s' = if decide (s = s') then v else get_slot nodes s'.
Proof.
  intros Hs. destruct s as [n kind], s' as [n' kind']. cbn in Hs. unfold get_slot, set_slot. cbn.
  rewrite node_at_insert by done. destruct (decide (n' = n)) as [->|Hne].
  - destruct kind, kind'; cbn; case_decide; congruence || done.
  - rewrite decide_False by congruence. done.
Qed.

Lemma labelled_set_slot (nodes : Index) (labels : list (list key)) (s : nat * slot_kind) (v : option nat) :
  labelled nodes labels -> labelled (set_slot nodes s v) labels.
Proof.
  intros [H1 H2 H3]. split; [unfold set_slot; by rewrite length_insert|done|].
  intros n l k c Hl Hc. rewrite child_set_slot in Hc. by eapply H3.
Qed.

(** An arena built by insertions. *)
Definition index_ok (nodes : Index) : Prop := exists labels, labelled nodes labels.

Lemma index_default_ok : index_ok index_default.
Proof. exists [[]]. apply labelled_default. Qed.

Lemma slot_ok (nodes : Index) (path : text) :
  index_ok nodes ->
  let '(nodes', s) := slot nodes path in
  index_ok nodes' /\ (s.1 < length nodes')%nat /\ (forall p, content nodes' p = content nodes p) /\
  get_slot nodes' s = content nodes (pattern_of path) /\
  (forall v p, content (set_slot nodes' s v) p =
               if decide (p = pattern_of path) then v else content nodes p).
Proof.
  intros [labels Hlab]. unfold slot, pattern_of.
  pose proof (slot_from_ok (path_segments path) nodes labels 0 [] Hlab (lab_root _ _ Hlab)) as H.
  destruct (slot_from nodes 0 (path_segments path)) as [nodes' [n kind]].
  destruct H as (labels' & Hlab' & _ & _ & Hcont & Hwalk & ->).
  set (p0 := pattern_of_segments (path_segments path)) in *.
  pose proof (walk_label _ _ _ _ _ _ Hlab' (lab_root _ _ Hlab') Hwalk) as Hn. cbn in Hn.
  pose proof (label_range _ _ _ _ Hlab' Hn) as Hr.
  split; [by exists labels'|]. split; [done|]. split; [done|]. split.
  - rewrite <- Hcont. unfold content, content_from. by rewrite Hwalk.
  - intros v p. rewrite <- (Hcont p). unfold content, content_from.
    rewrite walk_set_slot. destruct (walk_keys nodes' 0 p.1) as [m|] eqn:Hm; cbn [mbind option_bind].
    + rewrite get_set_slot by done. pose proof (walk_label _ _ _ _ _ _ Hlab' (lab_root _ _ Hlab') Hm) as Hm'.
      cbn in Hm'. destruct (decide ((n, p0.2) = (m, p.2))) as [[= -> E]|Hne].
      * rewrite decide_True; [done|]. rewrite Hn in Hm'. injection Hm' as E'.
        destruct p, p0; cbn in *; congruence.
      * rewrite decide_False; [done|]. intros ->. congruence.
    + rewrite decide_False; [done|]. intros ->. congruence.
Qed.

Lemma index_insert_ok (nodes : Index) (path : text) (t : nat) :
  index_ok nodes ->
  index_ok (index_insert nodes path t) /\
  forall p, content (index_insert nodes path t) p =
            if decide (p = pattern_of path) then Some t else content nodes p.
Proof.
  intros Hok. unfold index_insert. pose proof (slot_ok nodes path Hok) as H.
  destruct (slot nodes path) as [nodes' s]. destruct H as ([labels Hlab] & _ & _ & _ & Hset).
  split; [exists labels; by apply labelled_set_slot|]. apply Hset.
Qed.

(** ** What a request matches, and in which order *)

Section Matching.
Context (empty_last : bool).

(** A path matches segment by segment: a literal itself, a variable a segment
    (an empty last one when the router's version lets it), a catch-all a
    non-empty rest. *)
Fixpoint matches_keys (ks : list key) (kind : slot_kind) (segments : list text) : bool :=
  match ks, segments with
  | [], [] => bool_decide (kind = KTable)
  | [], _ :: _ => bool_decide (kind = KRest) && negb (bool_decide (segments = [[]]))
  | _ :: _, [] => false
  | k :: ks', segment :: tail =>
      match k with
      | KLit s => bool_decide (s = segment)
      | KVar => negb (bool_decide (segment = [])) || negb (bool_decide (tail = [])) || empty_last
      end && matches_keys ks' kind tail
  end.

Definition path_matches (path req : text) : bool :=
  match strip_prefix (txt "/") req with
  | Some rest => matches_keys (pattern_of path).1 (pattern_of path).2 (split (ch "/") rest)
  | None => false
  end.

(** The router's ranking: at the first segment where two paths differ, a
    literal before a variable before a catch-all. *)
Fixpoint precedes_keys (ks ks' : list key) (kind' : slot_kind) : Prop :=
  match ks, ks' with
  | KLit _ :: _, KVar :: _ => True
  | _ :: _, [] => kind' = KRest
  | k :: ks1, k' :: ks1' => k = k' /\ precedes_keys ks1 ks1' kind'
  | [], _ => False
  end.

Definition precedes (p q : pattern) : Prop := precedes_keys p.1 q.1 q.2.

Lemma precedes_cons (k : key) (p q : pattern) :
  precedes p q -> precedes (k :: p.1, p.2) (k :: q.1, q.2).
Proof. by destruct k. Qed.

(** What [visit] hands out from a node: each pattern held below it that matches,
    with its table, in rank order. *)
Definition found_from (nodes : Index) (node : nat) (segments : list text)
  (found : list (pattern * nat)) : Prop :=
  (forall p t, (p, t) ∈ found <->
     content_from nodes node p = Some t /\ matches_keys p.1 p.2 segments = true) /\
  StronglySorted (fun a b => precedes a.1 b.1) found.

Lemma content_from_cons (nodes : Index) (node : nat) (k : key) (p : pattern) :
  content_from nodes node (k :: p.1, p.2) =
  (let! c := child (node_at nodes node) k in content_from nodes c p).
Proof. unfold content_from. cbn [fst snd walk_keys]. by destruct (child _ k). Qed.

Definition under (k : key) (found : list (pattern * nat)) : list (pattern * nat) :=
  (fun pt => ((k :: pt.1.1, pt.1.2), pt.2)) <$> found.

Lemma under_elem (k : key) (found : list (pattern * nat)) (q : pattern) (t : nat) :
  (q, t) ∈ under k found <-> exists p, q = (k :: p.1, p.2) /\ (p, t) ∈ found.
Proof.
  unfold under. rewrite list_elem_of_fmap. split.
  - intros ([p t'] & [= -> ->] & Hin). eauto.
  - intros (p & -> & Hin). by exists (p, t).
Qed.

Lemma under_sorted (k : key) (found : list (pattern * nat)) :
  StronglySorted (fun a b => precedes a.1 b.1) found ->
  StronglySorted (fun a b => precedes a.1 b.1) (under k found).
Proof.
  induction 1 as [|x l Hs IH HF]; cbn; constructor; [done|].
  apply Forall_fmap. eapply Forall_impl; [exact HF|]. intros y. cbn. apply precedes_cons.
Qed.

Lemma under_snd (k : key) (found : list (pattern * nat)) : (under k found).*2 = found.*2.
Proof. unfold under. rewrite <- list_fmap_compose. by apply list_fmap_ext. Qed.

Lemma sorted_app {A} (R : A -> A -> Prop) (l1 l2 : list A) :
  StronglySorted R l1 -> StronglySorted R l2 -> (forall x y, x ∈ l1 -> y ∈ l2 -> R x y) ->
  StronglySorted R (l1 ++ l2).
Proof.
  intros H1 H2 Hx. induction H1 as [|x l Hs IH HF]; cbn; [done|]. constructor.
  - apply IH. intros a b Ha. apply Hx. by right.
  - apply Forall_app. split; [done|]. apply Forall_forall. intros y Hy. apply Hx; [by left|done].
Qed.

(** A branch of [visit]: the tables under one child, when the segment passes. *)
Lemma branch_found (nodes : Index) (node : nat) (k : key) (segment : text) (tail : list text)
  (pass : bool) :
  (forall ks kind, matches_keys (k :: ks) kind (segment :: tail) = pass && matches_keys ks kind tail) ->
  (forall c, exists found, visit empty_last nodes tail c = found.*2 /\ found_from nodes c tail found) ->
  exists found,
    match child (node_at nodes node) k with
    | Some c => if pass then visit empty_last nodes tail c else []
    | None => []
    end = found.*2 /\
    StronglySorted (fun a b => precedes a.1 b.1) found /\
    (forall q t, (q, t) ∈ found <-> exists p, q = (k :: p.1, p.2) /\
       content_from nodes node q = Some t /\ matches_keys q.1 q.2 (segment :: tail) = true).
Proof.
  intros Hm IH.
  assert (Hnil : (forall p t, content_from nodes node (k :: p.1, p.2) = Some t ->
                    matches_keys (k :: p.1) p.2 (segment :: tail) = false) ->
          exists found : list (pattern * nat), [] = found.*2 /\
            StronglySorted (fun a b => precedes a.1 b.1) found /\
            (forall q t, (q, t) ∈ found <-> exists p, q = (k :: p.1, p.2) /\
               content_from nodes node q = Some t /\ matches_keys q.1 q.2 (segment :: tail) = true)).
  { intros Hno. exists []. split; [done|]. split; [constructor|]. intros q t. split.
    - intros H. by apply elem_of_nil in H.
    - intros (p & -> & Hc & Hmt). specialize (Hno p t Hc). cbn [fst snd] in Hmt. congruence. }
  destruct (child (node_at nodes node) k) as [c|] eqn:Hc.
  2:{ apply Hnil. intros p t. rewrite content_from_cons, Hc. done. }
  destruct pass.
  2:{ apply Hnil. intros p t _. apply Hm. }
  destruct (IH c) as (found & -> & Hin & Hs). exists (under k found).
  rewrite under_snd. split; [done|]. split; [by apply under_sorted|].
  intros q t. rewrite under_elem. split; intros (p & -> & H); exists p; (split; [done|]); cbn [fst snd] in *.
  - apply Hin in H as [Hcf Hmt]. rewrite content_from_cons, Hc, Hm. done.
  - rewrite content_from_cons, Hc, Hm in H. apply Hin. done.
Qed.

Lemma visit_found (nodes : Index) (segments : list text) (node : nat) :
  exists found, visit empty_last nodes segments node = found.*2 /\ found_from nodes node segments found.
Proof.
  revert node. induction segments as [|segment tail IH]; intros node.
  - cbn. exists (match n_table (node_at nodes node) with Some t => [(([], KTable), t)] | None => [] end).
    split; [by destruct (n_table _)|]. split.
    + intros [[|k ks] kind] t; cbn.
      * unfold content_from. cbn. unfold get_slot. cbn. rewrite bool_decide_eq_true.
        destruct (n_table (node_at nodes node)) as [t'|] eqn:E.
        -- rewrite list_elem_of_singleton. split; [by intros [= -> ->]|].
           intros [H ->]. by injection H as ->.
        -- rewrite elem_of_nil. split; [done|]. by intros [H ->].
      * split; [|by intros []]. destruct (n_table _); [|by rewrite elem_of_nil].
        by rewrite list_elem_of_singleton.
    + destruct (n_table _); repeat constructor.
  - destruct (branch_found nodes node (KLit segment) segment tail true) as (f1 & E1 & S1 & I1).
    { intros ks kind. cbn. by rewrite bool_decide_eq_true_2. } { done. }
    set (pass := negb (bool_decide (segment = [])) || negb (bool_decide (tail = [])) || empty_last).
    destruct (branch_found nodes node KVar segment tail pass) as (f2 & E2 & S2 & I2); [done|done|].
    set (f3 := if negb (bool_decide (segment :: tail = [[]])) then
                 match n_rest (node_at nodes node) with Some t => [(([], KRest) : pattern, t)] | None => [] end
               else []).
    assert (I3 : forall q t, (q, t) ∈ f3 <->
        q = ([], KRest) /\ content_from nodes node q = Some t /\ matches_keys q.1 q.2 (segment :: tail) = true).
    { intros q t. unfold f3. split.
      - destruct (negb (bool_decide (segment :: tail = [[]]))) eqn:Hb; [|by rewrite elem_of_nil].
        destruct (n_rest _) as [t'|] eqn:Er; [|by rewrite elem_of_nil].
        rewrite list_elem_of_singleton. intros [= -> ->]. split; [done|].
        unfold content_from, get_slot. cbn -[bool_decide]. rewrite Er, Hb. done.
      - intros (-> & Hc & Hm). unfold content_from, get_slot in Hc. cbn -[bool_decide] in Hc, Hm.
        apply andb_true_iff in Hm as [_ Hm]. rewrite Hm, Hc. by left. }
    exists (f1 ++ f2 ++ f3). split.
    { cbn [visit]. rewrite !fmap_app. cbn [child] in E1, E2. rewrite E1. fold pass. rewrite E2.
      do 2 f_equal. unfold f3. destruct (negb (bool_decide (segment :: tail = [[]]))); [|done]. by destruct (n_rest _). }
    split.
    + intros q t. rewrite !elem_of_app, I1, I2, I3. split.
      * intros [(p & _ & H)|[(p & _ & H)|(_ & H)]]; done.
      * intros [Hc Hm]. destruct q as [[|[s|] ks] kind].
        -- right; right. split; [|done]. cbn in Hm. bool_simpl. by subst.
        -- left. exists (ks, kind). cbn [fst snd]. cbn -[bool_decide] in Hm. bool_simpl. subst s.
           split; [done|]. split; [done|]. cbn -[bool_decide]. by rewrite bool_decide_eq_true_2.
        -- right; left. by exists (ks, kind).
    + apply sorted_app; [done| |].
      * apply sorted_app; [done| |].
        -- unfold f3. destruct (negb (bool_decide (segment :: tail = [[]]))); [|constructor]. destruct (n_rest _); repeat constructor.
        -- intros [q t] [q' t'] (p & -> & _)%I2 (-> & _)%I3. done.
      * intros [q t] [q' t'] (p & -> & _)%I1. rewrite elem_of_app, I2, I3.
        intros [(p' & -> & _)|(-> & _)]; done.
Qed.

(** An index built from router paths and their tables. *)
Definition build (paths : list (text * nat)) : Index :=
  foldl (fun nodes pt => index_insert nodes pt.1 pt.2) index_default paths.

Definition shapes (paths : list (text * nat)) : list pattern := pattern_of <$> paths.*1.

Lemma build_snoc (paths : list (text * nat)) (pt : text * nat) :
  build (paths ++ [pt]) = index_insert (build paths) pt.1 pt.2.
Proof. unfold build. by rewrite foldl_snoc. Qed.

Lemma build_ok (paths : list (text * nat)) : index_ok (build paths).
Proof.
  induction paths as [|pt paths IH] using rev_ind; [apply index_default_ok|].
  rewrite build_snoc. by apply index_insert_ok.
Qed.

Lemma content_default (p : pattern) : content index_default p = None.
Proof.
  destruct p as [[|[s|] ks] kind]; unfold content, content_from; cbn; [by destruct kind| |done].
  by rewrite lookup_empty.
Qed.

Lemma content_build (paths : list (text * nat)) (p : pattern) (t : nat) :
  NoDup (shapes paths) ->
  content (build paths) p = Some t <-> exists path, (path, t) ∈ paths /\ pattern_of path = p.
Proof.
  unfold shapes. induction paths as [|[path u] paths IH] using rev_ind; intros Hd.
  { rewrite content_default. split; [done|]. intros (path & H & _). by apply elem_of_nil in H. }
  rewrite !fmap_app in Hd. apply NoDup_app in Hd as (Hd & Hnew & _).
  rewrite build_snoc. cbn [fst snd].
  destruct (index_insert_ok (build paths) path u (build_ok paths)) as [_ ->].
  destruct (decide (p = pattern_of path)) as [->|Hne].
  - split.
    + intros [= ->]. exists path. split; [|done]. apply elem_of_app. right. by left.
    + intros (path' & [Hin|Hin]%elem_of_app & E).
      * destruct (Hnew (pattern_of path)); [|by left]. rewrite <- E. apply list_elem_of_fmap.
        exists path'. split; [done|]. apply list_elem_of_fmap. by exists (path', t).
      * apply list_elem_of_singleton in Hin. congruence.
  - rewrite (IH Hd). split; intros (path' & Hin & E); exists path'; (split; [|done]).
    + apply elem_of_app. by left.
    + apply elem_of_app in Hin as [Hin|Hin]; [done|]. apply list_elem_of_singleton in Hin. congruence.
Qed.

Lemma choose_list {A B} (R : A -> B -> Prop) (l : list A) :
  (forall x, x ∈ l -> exists y, R x y) -> exists l', Forall2 R l l'.
Proof.
  induction l as [|x l IH]; intros H; [by exists []|].
  destruct (H x (list_elem_of_here _ _)) as [y Hy].
  destruct IH as [l' Hl']; [intros z Hz; apply H; by right|]. exists (y :: l'). by constructor.
Qed.

Lemma shapes_inj (paths : list (text * nat)) (a b : text * nat) :
  NoDup (shapes paths) -> a ∈ paths -> b ∈ paths -> pattern_of a.1 = pattern_of b.1 -> a = b.
Proof.
  unfold shapes. rewrite <- list_fmap_compose. intros Hd Ha Hb E.
  apply list_elem_of_lookup in Ha as [i Hi]. apply list_elem_of_lookup in Hb as [j Hj].
  assert (i = j) as ->.
  { eapply (NoDup_lookup _ i j (pattern_of a.1)); [exact Hd| |].
    - by rewrite list_lookup_fmap, Hi.
    - rewrite list_lookup_fmap, Hj. cbn. by rewrite E. }
  congruence.
Qed.

Lemma sorted_Forall2 {A B} (R : A -> A -> Prop) (S : B -> B -> Prop) (Q : A -> B -> Prop)
  (l : list A) (l' : list B) :
  (forall a a' b b', Q a b -> Q a' b' -> R a a' -> S b b') ->
  Forall2 Q l l' -> StronglySorted R l -> StronglySorted S l'.
Proof.
  intros HQ HF. induction HF as [|a b l l' Hab HF IH]; intros Hs; [constructor|].
  inversion Hs as [|? ? Hs' Hall]; subst. constructor; [by apply IH|].
  clear IH Hs Hs'. induction HF; [constructor|]. inversion Hall; subst. constructor; eauto.
Qed.

(** What the index hands out for a request: each of its paths that matches, in
    the router's ranking. *)
Lemma each_table_found (paths : list (text * nat)) (req : text) :
  NoDup (shapes paths) ->
  exists found, each_table empty_last (build paths) req = found.*2 /\
    (forall pt, pt ∈ found <-> pt ∈ paths /\ path_matches pt.1 req = true) /\
    StronglySorted (fun a b => precedes (pattern_of a.1) (pattern_of b.1)) found.
Proof.
  intros Hd. unfold each_table, path_matches. destruct (strip_prefix (txt "/") req) as [rest|].
  2:{ exists []. split; [done|]. split; [|constructor]. intros pt. rewrite elem_of_nil. by split; [|intros []]. }
  destruct (visit_found (build paths) (split (ch "/") rest) 0) as (found & -> & Hin & Hs).
  fold (content (build paths)) in Hin.
  destruct (choose_list (fun (a : pattern * nat) (b : text * nat) =>
              b ∈ paths /\ pattern_of b.1 = a.1 /\ b.2 = a.2) found) as [l Hl].
  { intros [p t] Hp. apply Hin in Hp as [Hc _]. apply (content_build paths p t Hd) in Hc as (path & Hp & E).
    by exists (path, t). }
  exists l. split; [|split].
  - clear -Hl. induction Hl as [|a b l l' (_ & _ & E) _ IH]; [done|]. cbn. by rewrite E, IH.
  - intros pt. split.
    + intros Hpt. apply list_elem_of_lookup in Hpt as [i Hi].
      destruct (Forall2_lookup_r _ _ _ _ _ Hl Hi) as ([p t] & Hp & Hpaths & Ep & Et). cbn in *.
      split; [done|]. rewrite Ep. apply (Hin p t). by eapply list_elem_of_lookup_2.
    + intros [Hpt Hm]. assert (Hf : (pattern_of pt.1, pt.2) ∈ found).
      { apply Hin. split; [|done]. apply content_build; [done|]. exists pt.1. by destruct pt. }
      apply list_elem_of_lookup in Hf as [i Hi].
      destruct (Forall2_lookup_l _ _ _ _ _ Hl Hi) as (b & Hb & Hpaths & Ep & Et). cbn in *.
      rewrite (shapes_inj paths pt b Hd Hpt Hpaths) by done. by eapply list_elem_of_lookup_2.
  - eapply (sorted_Forall2 (fun a b => precedes a.1 b.1)); [|exact Hl|exact Hs].
    intros a a' b b' (_ & E & _) (_ & E' & _). by rewrite E, E'.
Qed.

(** The routing index is correct and keeps the router's ranking. Built from
    router paths of distinct shapes, it hands out for a request exactly the
    tables whose path the request matches, each once, a literal before a variable
    before a catch-all at the first segment where two paths differ; [first] is the
    best of them, and [None] exactly when no path matches. *)
Theorem index_ranks_matches (paths : list (text * nat)) (req : text) :
  NoDup (shapes paths) ->
  exists found, each_table empty_last (build paths) req = found.*2 /\
    (forall pt, pt ∈ found <-> pt ∈ paths /\ path_matches pt.1 req = true) /\
    StronglySorted (fun a b => precedes (pattern_of a.1) (pattern_of b.1)) found /\
    index_first empty_last (build paths) req = head found.*2 /\
    (index_first empty_last (build paths) req = None <->
     forall pt, pt ∈ paths -> path_matches pt.1 req = false).
Proof.
  intros Hd. destruct (each_table_found paths req Hd) as (found & E & Hin & Hs).
  exists found. assert (Hf : index_first empty_last (build paths) req = head found.*2).
  { unfold index_first, each. rewrite E. by destruct found. }
  split_and!; try done. rewrite Hf. destruct found as [|pt found]; cbn.
  - split; [|done]. intros _ pt Hpt. apply not_true_is_false. intros Hm.
    by destruct (proj1 (elem_of_nil pt) (proj2 (Hin pt) (conj Hpt Hm))).
  - split; [done|]. intros Hno. destruct (proj1 (Hin pt) (list_elem_of_here _ _)) as [Hp Hm].
    by rewrite Hno in Hm.
Qed.
End Matching.

Definition demo_paths : list (text * nat) :=
  [(txt "/v1/{name}", 0%nat); (txt "/v1/nodes", 1%nat); (txt "/{*rest}", 2%nat); (txt "/v1/{a}/{b}", 3%nat)].

Lemma index_ranks_matches_witness :
  exists found : list (text * nat), each_table false (build demo_paths) (txt "/v1/nodes") = found.*2 /\
                found.*2 = [1%nat; 0%nat; 2%nat].
Proof.
  destruct (index_ranks_matches false demo_paths (txt "/v1/nodes")
    ltac:(apply (bool_decide_eq_true_1 _); vm_compute; reflexivity)) as (found & E & _).
  exists found. split; [exact E|]. rewrite <- E. vm_compute. reflexivity.
Defined.

(** ** The choice among the bindings of a table *)

(** The texts of a list, each once, in order of first occurrence. *)
Definition nub (l : list text) : list text :=
  foldl (fun acc m => if decide (m ∈ acc) then acc else acc ++ [m]) [] l.

Lemma nub_snoc (l : list text) (m : text) :
  nub (l ++ [m]) = if decide (m ∈ nub l) then nub l else nub l ++ [m].
Proof. unfold nub. by rewrite foldl_snoc. Qed.

Lemma elem_of_nub (l : list text) (m : text) : m ∈ nub l <-> m ∈ l.
Proof.
  induction l as [|x l IH] using rev_ind; [done|]. rewrite nub_snoc, elem_of_app, list_elem_of_singleton.
  case_decide as Hx.
  - rewrite IH. split; [auto|]. intros [?| ->]; [done|]. by apply IH.
  - rewrite elem_of_app, list_elem_of_singleton. tauto.
Qed.

Definition binding_method (b : Binding) : text := method_str (e_http_method (b_entry b)).

(** [Allow] (RFC 9110 15.5.6): the methods of the bindings, each once, and HEAD
    when a GET answers it. *)
Definition allow_value (methods : list text) : text :=
  join (txt ", ")
    (nub methods ++ if decide (GET ∈ methods /\ HEAD ∉ methods) then [HEAD] else []).

Lemma enumerate_snoc {A} (l : list A) (x : A) : enumerate (l ++ [x]) = enumerate l ++ [(length l, x)].
Proof.
  unfold enumerate. rewrite length_app, Nat.add_1_r, seq_S, zip_with_app by by rewrite length_seq. done.
Qed.

Section Allow.
Context (admitted : nat -> bool).

Definition admitted_methods (bs : list Binding) : list text :=
  (fun ib => binding_method ib.2) <$> filter (fun ib => admitted ib.1 = true) (enumerate bs).

Lemma admitted_methods_snoc (bs : list Binding) (b : Binding) :
  admitted_methods (bs ++ [b]) =
  if admitted (length bs) then admitted_methods bs ++ [binding_method b] else admitted_methods bs.
Proof.
  unfold admitted_methods. rewrite enumerate_snoc, filter_app, fmap_app.
  destruct (admitted (length bs)) eqn:E.
  - by rewrite filter_cons_True.
  - rewrite filter_cons_False by (cbn; congruence). by rewrite filter_nil, app_nil_r.
Qed.

Lemma listed_admitted (bs : list Binding) (m : text) :
  existsb (fun eb => bool_decide (method_str (e_http_method (b_entry eb.2)) = m) && admitted eb.1)
    (enumerate bs) = bool_decide (m ∈ nub (admitted_methods bs)).
Proof.
  apply eq_true_iff_eq. rewrite existsb_exists, bool_decide_eq_true, elem_of_nub.
  unfold admitted_methods. rewrite list_elem_of_fmap. split.
  - intros (ib & Hin & Hb). bool_simpl. exists ib. split; [done|].
    apply list_elem_of_filter. split; [done|]. by apply list_elem_of_In.
  - intros (ib & -> & Hin). apply list_elem_of_filter in Hin as [Ha Hin]. exists ib.
    split; [by apply list_elem_of_In|]. rewrite bool_decide_eq_true_2 by done. by rewrite Ha.
Qed.

Lemma join_nonnil (l : list text) (m : text) : m <> [] -> m ∈ l -> join (txt ", ") l <> [].
Proof.
  intros Hm. induction l as [|x l IH]; intros Hin; [by apply elem_of_nil in Hin|].
  destruct l as [|y l].
  - apply list_elem_of_singleton in Hin as <-. done.
  - rewrite join_cons by done. by destruct x.
Qed.

Lemma allow_loop_value (later earlier : list Binding) :
  Forall (fun b => binding_method b <> []) (earlier ++ later) ->
  let ms := admitted_methods earlier in
  let ms' := admitted_methods (earlier ++ later) in
  allow_loop admitted earlier later
    (mkAllowing (join (txt ", ") (nub ms)) (bool_decide (GET ∈ ms)) (bool_decide (HEAD ∈ ms))) =
  mkAllowing (join (txt ", ") (nub ms')) (bool_decide (GET ∈ ms')) (bool_decide (HEAD ∈ ms')).
Proof.
  revert earlier. induction later as [|b later IH]; intros earlier HF.
  { cbn. by rewrite app_nil_r. }
  cbn [allow_loop al_value al_get al_head]. cbn zeta.
  rewrite listed_admitted. fold (binding_method b).
  specialize (IH (earlier ++ [b])). rewrite <- app_assoc in IH. specialize (IH HF).
  cbn zeta in IH. cbn [app] in IH. rewrite <- IH. f_equal. rewrite admitted_methods_snoc.
  destruct (admitted (length earlier)); cbn [negb]; [|done]. rewrite nub_snoc.
  destruct (decide (binding_method b ∈ nub (admitted_methods earlier))) as [Hin|Hin].
  - rewrite bool_decide_eq_true_2 by done. f_equal; apply bool_decide_ext; rewrite elem_of_app,
      list_elem_of_singleton; (split; [auto|]); intros [?|E]; try done; apply elem_of_nub; by rewrite E.
  - rewrite bool_decide_eq_false_2 by done. f_equal.
    + destruct (nub (admitted_methods earlier)) as [|m l] eqn:E; [done|].
      rewrite join_snoc by done.
      destruct (join (txt ", ") (m :: l)) as [|c v] eqn:Ej; [|by rewrite <- app_assoc].
      exfalso. apply (join_nonnil (m :: l) m); [|by left|done].
      assert (Hm : m ∈ admitted_methods earlier) by (apply elem_of_nub; rewrite E; by left).
      unfold admitted_methods in Hm. apply list_elem_of_fmap in Hm as ([i b'] & -> & Hb').
      apply list_elem_of_filter in Hb' as [_ Hb']. rewrite Forall_app in HF. destruct HF as [HF _].
      rewrite Forall_forall in HF. apply HF. unfold enumerate in Hb'. by apply elem_of_zip_r in Hb'.
    + rewrite <- bool_decide_or. apply bool_decide_ext. rewrite elem_of_app, list_elem_of_singleton.
      intuition congruence.
    + rewrite <- bool_decide_or. apply bool_decide_ext. rewrite elem_of_app, list_elem_of_singleton.
      intuition congruence.
Qed.

Lemma table_allow_value (t : PathTable) :
  Forall (fun b => binding_method b <> []) (p_bindings t) ->
  table_allow t admitted = allow_value (admitted_methods (p_bindings t)).
Proof.
  intros HF. unfold table_allow. pose proof (allow_loop_value (p_bindings t) [] HF) as E.
  cbn zeta in E. change (admitted_methods []) with (@nil text) in E.
  rewrite !bool_decide_eq_false_2 in E by apply not_elem_of_nil. cbn [app nub foldl join] in E.
  rewrite E. cbn [al_get al_head al_value]. unfold allow_value.
  set (ms := admitted_methods (p_bindings t)).
  destruct (decide (GET ∈ ms /\ HEAD ∉ ms)) as [[Hg Hh]|Hn].
  - rewrite bool_decide_eq_true_2, bool_decide_eq_false_2 by done. cbn [andb negb].
    rewrite join_snoc; [done|]. intros En. apply elem_of_nub in Hg. rewrite En in Hg.
    by apply elem_of_nil in Hg.
  - rewrite app_nil_r. destruct (decide (GET ∈ ms)); [|by rewrite bool_decide_eq_false_2].
    rewrite (bool_decide_eq_true_2 (HEAD ∈ ms)); [by rewrite andb_false_r|].
    destruct (decide (HEAD ∈ ms)); tauto.
Qed.
End Allow.

Section Choose.
Context (method : text) (answers : Binding -> bool).

(** A binding of the method, or of every method; and a GET binding, for HEAD. *)
Definition serves (b : Binding) : bool :=
  match e_http_method (b_entry b) with Any => true | One bound => bool_decide (bound = method) end.
Definition answers_head (b : Binding) : bool :=
  bool_decide (method = HEAD) && bool_decide (e_http_method (b_entry b) = One GET).

(** The bindings admitted, with their indexes. *)
Definition admitted_from (i : nat) (bs : list Binding) : list (nat * Binding) :=
  filter (fun ib => answers ib.2 = true) (zip (seq i (length bs)) bs).

Definition mask (z : Z) (adm : list (nat * Binding)) : Z :=
  foldl (fun z ib => if Nat.ltb ib.1 64 then Z.lor z (Z.shiftl 1 (Z.of_nat ib.1)) else z) z adm.

Lemma admitted_from_cons (i : nat) (b : Binding) (bs : list Binding) :
  admitted_from i (b :: bs) =
  if answers b then (i, b) :: admitted_from (S i) bs else admitted_from (S i) bs.
Proof.
  unfold admitted_from. cbn [length seq zip zip_with]. destruct (answers b) eqn:E.
  - by rewrite filter_cons_True.
  - by rewrite filter_cons_False by (cbn; congruence).
Qed.

Lemma choose_loop_spec (bs : list Binding) (i : nat) (s : Choosing) :
  let adm := admitted_from i bs in
  choose_loop method answers i bs s =
  match find_first (fun ib => serves ib.2) adm with
  | Some ib => inl ib.1
  | None => inr (mkChoosing
      (match c_head s with
       | Some h => Some h
       | None => fst <$> find_first (fun ib => answers_head ib.2) adm
       end)
      (mask (c_admitted s) adm)
      (c_answered s || negb (bool_decide (adm = []))))
  end.
Proof.
  cbn zeta. revert i s. induction bs as [|b bs IH]; intros i s.
  { cbn. destruct s as [[h|] z a]; cbn; by rewrite orb_false_r. }
  rewrite admitted_from_cons. cbn [choose_loop].
  destruct (answers b); cbn [negb]; [|apply IH].
  cbn [find_first snd]. unfold serves at 1. unfold answers_head at 1.
  destruct (e_http_method (b_entry b)) as [bound|]; [|done].
  destruct (decide (bound = method)) as [->|Hne]; [by rewrite bool_decide_eq_true_2|].
  rewrite (bool_decide_eq_false_2 (bound = method)) by done.
  rewrite IH. destruct (find_first (fun ib => serves ib.2) _); [done|].
  destruct (decide (bound = GET /\ method = HEAD)) as [[-> Hm]|Hn].
  - rewrite (bool_decide_eq_true_2 (method = HEAD)) by done.
    rewrite (bool_decide_eq_true_2 (One GET = One GET)) by done. cbn. rewrite orb_true_r. do 2 f_equal. by destruct (c_head s).
  - replace (bool_decide (method = HEAD) && bool_decide (One bound = One GET)) with false.
    + cbn. by rewrite orb_true_r.
    + symmetry. apply andb_false_iff. rewrite !bool_decide_eq_false.
      destruct (decide (method = HEAD)); [right|by left]. intros [= ->]. tauto.
Qed.

(** The bits of the mask are the indexes below 64 that were admitted. *)
Lemma mask_testbit (adm : list (nat * Binding)) (z : Z) (k : nat) :
  (k < 64)%nat ->
  Z.testbit (mask z adm) (Z.of_nat k) = Z.testbit z (Z.of_nat k) || existsb (fun ib => Nat.eqb ib.1 k) adm.
Proof.
  intros Hk. revert z. induction adm as [|[i b] adm IH]; intros z; cbn [mask foldl existsb fst].
  { by rewrite orb_false_r. }
  fold (mask (if Nat.ltb i 64 then Z.lor z (Z.shiftl 1 (Z.of_nat i)) else z) adm). rewrite IH, orb_assoc.
  f_equal. destruct (Nat.ltb_spec i 64) as [Hi|Hi].
  - rewrite Z.lor_spec, Z.shiftl_1_l, Z.pow2_bits_eqb by lia. f_equal.
    destruct (Nat.eqb_spec i k), (Z.eqb_spec (Z.of_nat i) (Z.of_nat k)); done || lia.
  - destruct (Nat.eqb_spec i k); [lia|]. by rewrite orb_false_r.
Qed.

Lemma admitted_from_index (bs : list Binding) (i k : nat) :
  existsb (fun ib => Nat.eqb ib.1 (i + k)) (admitted_from i bs) =
  match bs !! k with Some b => answers b | None => false end.
Proof.
  revert i k. induction bs as [|b bs IH]; intros i k; [by rewrite lookup_nil|].
  rewrite admitted_from_cons. destruct k as [|k].
  - cbn [lookup list_lookup]. rewrite Nat.add_0_r.
    assert (Hno : existsb (fun ib => Nat.eqb ib.1 i) (admitted_from (S i) bs) = false).
    { apply not_true_is_false. rewrite existsb_exists. intros ([j b'] & Hin & E%Nat.eqb_eq). cbn in E.
      apply list_elem_of_In in Hin. unfold admitted_from in Hin. apply list_elem_of_filter in Hin as [_ Hin].
      apply elem_of_zip_l, elem_of_seq in Hin. lia. }
    destruct (answers b); cbn [existsb fst]; rewrite Hno; [|done]. by rewrite Nat.eqb_refl.
  - change ((b :: bs) !! S k) with (bs !! k). rewrite <- (IH (S i) k). replace (S i + k)%nat with (i + S k)%nat by lia.
    destruct (answers b); [|done]. cbn [existsb fst]. destruct (Nat.eqb_spec i (i + S k)); [lia|done].
Qed.

(** What a table answers, read off its admitted bindings. *)
Definition reference_choose (t : PathTable) (table : nat) : option Choice :=
  let adm := admitted_from 0 (p_bindings t) in
  match find_first (fun ib => serves ib.2) adm with
  | Some ib => Some (Route table ib.1)
  | None =>
      match find_first (fun ib => answers_head ib.2) adm with
      | Some ib => Some (Route table ib.1)
      | None =>
          match adm with
          | [] => None
          | _ => Some (MethodNotAllowed table (allow_value ((fun ib => binding_method ib.2) <$> adm)))
          end
      end
  end.

Lemma filter_ext_in {A} (P Q : A -> Prop) `{!forall x, Decision (P x)} `{!forall x, Decision (Q x)}
  (l : list A) :
  (forall x, x ∈ l -> P x <-> Q x) -> filter P l = filter Q l.
Proof.
  induction l as [|x l IH]; intros Hx; [done|]. rewrite !filter_cons.
  rewrite IH by (intros y Hy; apply Hx; by right).
  pose proof (Hx x (list_elem_of_here _ _)). repeat case_decide; tauto.
Qed.

Lemma table_choose_reference (t : PathTable) (table : nat) :
  Forall (fun b => binding_method b <> []) (p_bindings t) ->
  table_choose t table method answers = reference_choose t table.
Proof.
  intros HF. unfold table_choose, reference_choose. rewrite choose_loop_spec.
  set (adm := admitted_from 0 (p_bindings t)). destruct (find_first _ adm); [done|]. cbn [c_head c_answered c_admitted].
  destruct (find_first (fun ib => answers_head ib.2) adm); [done|]. cbn [fmap option_fmap option_map].
  destruct adm as [|ib adm'] eqn:Eadm; [done|]. rewrite bool_decide_eq_false_2 by done. cbn [negb orb].
  rewrite <- Eadm. do 2 f_equal. rewrite table_allow_value by done. f_equal.
  unfold admitted_methods. f_equal. unfold adm at 2. unfold admitted_from, enumerate.
  apply filter_ext_in. intros [k b] Hin. cbn [fst snd].
  assert (Hk : p_bindings t !! k = Some b).
  { apply list_elem_of_lookup in Hin as [j Hj]. apply lookup_zip_Some in Hj as [H1 H2].
    apply lookup_seq in H1 as [-> _]. done. }
  destruct (Nat.ltb_spec k 64); [|by rewrite Hk].
  rewrite Z.shiftl_1_l, land_pow2, mask_testbit, Z.bits_0 by (done || lia). cbn [orb].
  pose proof (admitted_from_index (p_bindings t) 0 k) as E. cbn [Nat.add] in E. fold adm in E.
  rewrite E, Hk. done.
Qed.
End Choose.

(** Within a table, the choice is the documented one: the first admitted
    binding of the request's method or of every method; else, for HEAD, the first
    admitted GET; else 405 whose [Allow] lists each admitted method once, in
    order, with HEAD after a GET; and nothing when no binding is admitted. The 64
    admitted bindings kept as bits, and asking the later ones again, give the same
    [Allow]. *)
Theorem table_choose_correct (t : PathTable) (table : nat) (method : text) (answers : Binding -> bool) :
  Forall (fun b => binding_method b <> []) (p_bindings t) ->
  table_choose t table method answers = reference_choose method answers t table.
Proof. apply table_choose_reference. Qed.

(** ** The choice among the tables *)

Lemma admitted_from_elem (answers : Binding -> bool) (bs : list Binding) (i k : nat) (b : Binding) :
  (k, b) ∈ admitted_from answers i bs <-> (i <= k)%nat /\ bs !! (k - i)%nat = Some b /\ answers b = true.
Proof.
  unfold admitted_from. rewrite list_elem_of_filter. cbn [snd]. split.
  - intros [Ha Hin]. apply list_elem_of_lookup in Hin as [j Hj]. apply lookup_zip_Some in Hj as [H1 H2].
    apply lookup_seq in H1 as [-> _]. replace (i + j - i)%nat with j by lia. split; [lia|done].
  - intros (Hle & Hb & Ha). split; [done|]. apply list_elem_of_lookup. exists (k - i)%nat.
    apply lookup_zip_Some. split; [|done]. apply lookup_seq. split; [lia|]. by apply lookup_lt_Some in Hb.
Qed.

Definition methods_ok (t : PathTable) : Prop := Forall (fun b => binding_method b <> []) (p_bindings t).

(** What the answer of one table says of its bindings. *)
Definition justified (method : text) (answers : Binding -> bool) (t : PathTable) (c : option Choice)
  (table : nat) : Prop :=
  match c with
  | Some (Route t' i) => t' = table /\ exists b, p_bindings t !! i = Some b /\ answers b = true /\
      (serves method b || answers_head method b) = true
  | Some (MethodNotAllowed t' allow) => t' = table /\
      let adm := snd <$> admitted_from answers 0 (p_bindings t) in
      adm <> [] /\ allow = allow_value (binding_method <$> adm) /\
      Forall (fun b => (serves method b || answers_head method b) = false) adm
  | Some NotFound => False
  | None => forall b, b ∈ p_bindings t -> answers b = false
  end.

Lemma table_choose_justified (method : text) (answers : Binding -> bool) (t : PathTable) (table : nat) :
  methods_ok t -> justified method answers t (table_choose t table method answers) table.
Proof.
  intros Hm. rewrite table_choose_reference by done. unfold reference_choose.
  set (adm := admitted_from answers 0 (p_bindings t)).
  assert (Hsel : forall p ib, (forall b, p b = true -> (serves method b || answers_head method b) = true) ->
            find_first (fun ib => p ib.2) adm = Some ib ->
            justified method answers t (Some (Route table ib.1)) table).
  { intros p [k b] Hp Hf. apply find_first_Some in Hf as (l1 & l2 & E & Hs & _). cbn in Hs.
    split; [done|]. exists b.
    assert (Hin : (k, b) ∈ adm) by (rewrite E; apply elem_of_app; right; by left).
    apply admitted_from_elem in Hin as (_ & Hb & Ha). rewrite Nat.sub_0_r in Hb. auto. }
  destruct (find_first (fun ib => serves method ib.2) adm) as [ib|] eqn:E1.
  { apply (Hsel (serves method)); [|done]. by intros b ->. }
  destruct (find_first (fun ib => answers_head method ib.2) adm) as [ib|] eqn:E2.
  { apply (Hsel (answers_head method)); [|done]. intros b ->. apply orb_true_r. }
  apply find_first_None in E1, E2. destruct adm as [|ib adm'] eqn:Eadm.
  - intros b Hb. apply not_true_is_false. intros Ha. apply list_elem_of_lookup in Hb as [k Hk].
    assert (Hin : (k, b) ∈ adm) by (apply admitted_from_elem; rewrite Nat.sub_0_r; split; [lia|done]).
    rewrite Eadm in Hin. by apply elem_of_nil in Hin.
  - rewrite <- Eadm in *. cbn. fold adm. split; [done|]. split; [by rewrite Eadm|].
    split; [by rewrite <- list_fmap_compose|]. apply Forall_fmap.
    rewrite Forall_forall in E1, E2. apply Forall_forall. intros x Hx. cbn. by rewrite E1, E2.
Qed.

Section Answer.
Context (empty_last : bool) (tables : list PathTable) (method path : text).

(** The tables of [paths] that [admits] and the request make relevant. *)
Definition admits_none (admits : Binding -> bool) (t : nat) : Prop :=
  forall b, b ∈ p_bindings (default (mkTable [] [] [] false) (tables !! t)) -> admits b = false.

Definition tables_ok : Prop := Forall methods_ok tables.

Lemma get_table_ok (r : Routes) (t : nat) : r_tables r = tables -> tables_ok -> methods_ok (get_table r t).
Proof.
  intros Hr Hok. unfold get_table. rewrite Hr. destruct (tables !! t) eqn:E; [|constructor].
  unfold tables_ok in Hok. rewrite Forall_forall in Hok. apply Hok. by eapply list_elem_of_lookup_2.
Qed.

Lemma no_choice_admits_none (r : Routes) (admits : Binding -> bool) (t : nat) :
  r_tables r = tables -> justified method admits (get_table r t) None t -> admits_none admits t.
Proof. intros Hr Hj b Hb. apply Hj. unfold get_table. by rewrite Hr. Qed.

(** The loop from a pending 405, when [ranks] admits every table: it breaks with
    a justified choice, ends with the 405 it had, or with the first one it met. *)
Lemma answer_loop (r : Routes) (first : nat) (admits : Binding -> bool) (l : list nat) (na : option Choice) :
  r_tables r = tables -> tables_ok ->
  match run_each (answer_step r first method admits (fun _ => true)) na l with
  | Break (Some c, _) => exists t, t ∈ l /\ justified method admits (get_table r t) (Some c) t
  | Break (None, _) => False
  | Continue na' =>
      (na' = na /\ (na = None -> forall t, t ∈ l -> t <> first -> admits_none admits t)) \/
      (na = None /\ exists c t, na' = Some c /\ t ∈ l /\ justified method admits (get_table r t) (Some c) t)
  end.
Proof.
  intros Hr Hok. revert na. induction l as [|t l IH]; intros na; cbn [run_each].
  { left. split; [done|]. intros _ t Ht. by apply elem_of_nil in Ht. }
  unfold answer_step at 1. destruct (Nat.eqb_spec t first) as [->|Hne].
  - specialize (IH na). destruct (run_each _ na l) as [[[c|] ?]|na']; [|done|].
    + destruct IH as (t & Ht & Hj). exists t. split; [by right|done].
    + destruct IH as [[-> Hn]|(-> & c & t & -> & Ht & Hj)]; [left|right]; (split; [done|]).
      * intros E t [->|Ht]%elem_of_cons Htf; [done|auto].
      * exists c, t. split; [done|]. split; [by right|done].
  - cbn [negb]. pose proof (table_choose_justified method admits _ t (get_table_ok r t Hr Hok)) as Hj0.
    destruct (table_choose (get_table r t) t method admits) as [[t' i|t' a|]|] eqn:Ec; [| |done|].
    + exists t. split; [by left|done].
    + specialize (IH (match na with Some c => Some c | None => Some (MethodNotAllowed t' a) end)).
      destruct (run_each _ _ l) as [[[c|] ?]|na']; [|done|].
      * destruct IH as (t0 & Ht & Hj). exists t0. split; [by right|done].
      * destruct na as [c0|]; destruct IH as [[-> _]|[? _]]; try done; [by left|]. right.
        split; [done|]. exists (MethodNotAllowed t' a), t. split; [done|]. split; [by left|done].
    + specialize (IH na). destruct (run_each _ na l) as [[[c|] ?]|na']; [|done|].
      * destruct IH as (t0 & Ht & Hj). exists t0. split; [by right|done].
      * destruct IH as [[-> Hn]|(-> & c & t0 & -> & Ht & Hj)]; [left|right]; (split; [done|]).
        -- intros E t0 [->|Ht]%elem_of_cons Htf; [by eapply no_choice_admits_none|auto].
        -- exists c, t0. split; [done|]. split; [by right|done].
Qed.

(** [answer] with every table admitted by [ranks]: some table among [first] and
    those the index hands out answers, or none of them admits a binding. *)
Lemma answer_justified (r : Routes) (index : Index) (first : nat) (admits : Binding -> bool) :
  r_tables r = tables -> tables_ok ->
  match answer empty_last r index first method path admits (fun _ => true) with
  | Some c => exists t, (t = first \/ t ∈ each_table empty_last index path) /\
                justified method admits (get_table r t) (Some c) t
  | None => admits_none admits first /\ forall t, t ∈ each_table empty_last index path -> admits_none admits t
  end.
Proof.
  intros Hr Hok. unfold answer, each.
  pose proof (fun na => answer_loop r first admits (each_table empty_last index path) na Hr Hok) as Hloop.
  pose proof (table_choose_justified method admits _ first (get_table_ok r first Hr Hok)) as Hj0.
  destruct (table_choose (get_table r first) first method admits) as [[t' i|t' a|]|] eqn:Ec; [| |done|].
  - by exists first; auto.
  - specialize (Hloop (Some (MethodNotAllowed t' a))). destruct (run_each _ _ _) as [[[c|] ?]|na']; [|done|].
    + destruct Hloop as (t & Ht & Hj). exists t. auto.
    + destruct Hloop as [[-> _]|[? _]]; [|done]. exists first. auto.
  - specialize (Hloop None). destruct (run_each _ _ _) as [[[c|] ?]|na']; [|done|].
    + destruct Hloop as (t & Ht & Hj). exists t. auto.
    + apply no_choice_admits_none in Hj0; [|done].
      destruct Hloop as [[-> Hn]|(_ & c & t & -> & Ht & Hj)]; [|exists t; auto].
      split; [done|]. intros t Ht. destruct (decide (t = first)) as [->|]; auto.
Qed.
End Answer.

(** ** The indexes of [Routes::new] *)

(** The paths of some tables, with their numbers. *)
Definition paths_where (p : PathTable -> bool) (tables : list PathTable) : list (text * nat) :=
  (fun it => (p_path it.2, it.1)) <$> filter (fun it => p it.2 = true) (enumerate tables).

Definition has_verb (v : text) (t : PathTable) : bool := bool_decide (v ∈ table_verbs t).

Lemma paths_where_snoc (p : PathTable -> bool) (tables : list PathTable) (t : PathTable) :
  paths_where p (tables ++ [t]) =
  paths_where p tables ++ if p t then [(p_path t, length tables)] else [].
Proof.
  unfold paths_where. rewrite enumerate_snoc, filter_app, fmap_app. f_equal.
  destruct (p t) eqn:E; [by rewrite filter_cons_True|].
  by rewrite filter_cons_False by (cbn; congruence).
Qed.

Lemma paths_where_elem (p : PathTable -> bool) (tables : list PathTable) (path : text) (i : nat) :
  (path, i) ∈ paths_where p tables <-> exists t, tables !! i = Some t /\ p t = true /\ p_path t = path.
Proof.
  unfold paths_where. rewrite list_elem_of_fmap. split.
  - intros ([k t] & [= -> ->] & Hin). apply list_elem_of_filter in Hin as [Hp Hin]. exists t.
    unfold enumerate in Hin. apply list_elem_of_lookup in Hin as [j Hj].
    apply lookup_zip_Some in Hj as [H1 H2]. by apply lookup_seq in H1 as [-> _].
  - intros (t & Ht & Hp & <-). exists (i, t). split; [done|]. apply list_elem_of_filter. split; [done|].
    apply list_elem_of_lookup. exists i. apply lookup_zip_Some. split; [|done]. apply lookup_seq.
    split; [lia|]. by apply lookup_lt_Some in Ht.
Qed.

Lemma paths_where_sublist (p : PathTable -> bool) (tables : list PathTable) :
  sublist (paths_where p tables) (paths_where (fun _ => true) tables).
Proof.
  induction tables as [|t tables IH] using rev_ind; [done|]. rewrite !paths_where_snoc.
  apply sublist_app; [done|]. destruct (p t); [done|]. by apply sublist_nil_l.
Qed.

Lemma shapes_where (p : PathTable -> bool) (tables : list PathTable) :
  NoDup (shapes (paths_where (fun _ => true) tables)) -> NoDup (shapes (paths_where p tables)).
Proof.
  intros Hd. eapply sublist_NoDup; [exact Hd|]. unfold shapes.
  do 2 apply fmap_sublist. apply paths_where_sublist.
Qed.

Lemma table_verbs_elem (t : PathTable) (v : text) :
  v ∈ table_verbs t <-> exists b verb, b ∈ p_bindings t /\ b_verb b = Some verb /\ v_raw verb = v.
Proof.
  unfold table_verbs. induction (p_bindings t) as [|b bs IH] using rev_ind.
  { cbn. split; [intros H; by apply elem_of_nil in H|]. intros (b & ? & H & _). by apply elem_of_nil in H. }
  rewrite foldl_snoc. set (seen := foldl _ [] bs) in *.
  assert (Hold : (exists b' verb, b' ∈ bs ++ [b] /\ b_verb b' = Some verb /\ v_raw verb = v) <->
                 v ∈ seen \/ exists verb, b_verb b = Some verb /\ v_raw verb = v).
  { rewrite IH. split.
    - intros (b' & verb & [Hin|Hin]%elem_of_app & H); [left; eauto|].
      apply list_elem_of_singleton in Hin as ->. eauto.
    - intros [(b' & verb & Hin & H)|(verb & H)]; [exists b'|exists b]; exists verb; (split; [|done]);
        apply elem_of_app; [by left|right; by left]. }
  rewrite Hold. destruct (b_verb b) as [verb|].
  - case_decide as Hs.
    + split; [auto|]. intros [?|(? & [= <-] & <-)]; done.
    + rewrite elem_of_app, list_elem_of_singleton. split; [intros [?| ->]; eauto|].
      intros [?|(? & [= <-] & <-)]; auto.
  - split; [auto|]. intros [?|(? & ? & _)]; done.
Qed.

Lemma table_verbs_nodup (t : PathTable) : NoDup (table_verbs t).
Proof.
  unfold table_verbs. induction (p_bindings t) as [|b bs IH] using rev_ind; [constructor|].
  rewrite foldl_snoc. destruct (b_verb b) as [verb|]; [|done]. case_decide as Hs; [done|].
  apply NoDup_app. split; [done|]. split; [|apply NoDup_singleton].
  by intros x Hx ->%list_elem_of_singleton.
Qed.

Lemma insert_verbs_lookup (vs : list text) (verbs : gmap text Index) (path : text) (i : nat) (v : text) :
  NoDup vs ->
  foldl (fun verbs verb =>
           <[verb := index_insert (default index_default (verbs !! verb)) path i]> verbs) verbs vs !! v =
  if decide (v ∈ vs) then Some (index_insert (default index_default (verbs !! v)) path i)
  else verbs !! v.
Proof.
  intros Hd. induction vs as [|w vs IH] using rev_ind.
  { rewrite decide_False by apply not_elem_of_nil. done. }
  apply NoDup_app in Hd as (Hd & Hw & _). rewrite foldl_snoc.
  specialize (IH Hd). destruct (decide (v = w)) as [->|Hne].
  - rewrite lookup_insert_eq, IH, decide_False by (intros Hin; apply (Hw w Hin); by left).
    rewrite decide_True; [done|]. apply elem_of_app. right. by left.
  - rewrite lookup_insert_ne, IH by done. destruct (decide (v ∈ vs)).
    + rewrite decide_True; [done|]. apply elem_of_app. by left.
    + rewrite decide_False; [done|]. rewrite elem_of_app, list_elem_of_singleton. tauto.
Qed.

(** The indexes hold exactly the tables with a plain binding, and those with
    each verb. *)
Lemma routes_new_indexes (tables : list PathTable) :
  r_tables (routes_new tables) = tables /\
  r_plain (routes_new tables) = build (paths_where p_plain tables) /\
  forall v, default index_default (r_verbs (routes_new tables) !! v) =
              build (paths_where (has_verb v) tables) /\
            (r_verbs (routes_new tables) !! v = None <-> paths_where (has_verb v) tables = []).
Proof.
  unfold routes_new. induction tables as [|t tables IH] using rev_ind.
  { cbn. split; [done|]. split; [done|]. intros v. by rewrite lookup_empty. }
  rewrite enumerate_snoc, foldl_snoc.
  destruct (foldl routes_step _ (enumerate tables)) as [[verbs plain] by_path].
  cbn [r_tables r_plain r_verbs routes_step] in *. destruct IH as (_ & -> & IH).
  split; [done|]. split.
  { rewrite paths_where_snoc. destruct (p_plain t); [by rewrite build_snoc|by rewrite app_nil_r]. }
  intros v. rewrite insert_verbs_lookup by apply table_verbs_nodup.
  destruct (IH v) as [Hdef Hnone]. rewrite paths_where_snoc. unfold has_verb at 2 4.
  destruct (decide (v ∈ table_verbs t)) as [Hin|Hin].
  - rewrite bool_decide_eq_true_2 by done. rewrite build_snoc. cbn [default fst snd]. rewrite Hdef.
    split; [done|]. split; [done|]. intros E. by apply app_nil in E as [_ E].
  - rewrite bool_decide_eq_false_2, app_nil_r by done. done.
Qed.

(** ** The choice is right *)

(** Whether a binding answers the URL at all: it fits the path, and has no verb
    or the verb the path ends in. *)
Definition answers_url (path : text) (b : Binding) : bool :=
  plain_admits path b ||
  match split_verb path with
  | Some (rest, verb) => bound_admits path rest (normalize_escapes verb) b
  | None => false
  end.

(** What the tables a router serves satisfy: method tokens, the [plain] flag,
    and paths of distinct shapes. *)
Record routes_ok (tables : list PathTable) : Prop := {
  rt_methods : tables_ok tables;
  rt_plain : Forall (fun t => p_plain t = true <-> exists b, b ∈ p_bindings t /\ b_verb b = None) tables;
  rt_shapes : NoDup (shapes (paths_where (fun _ => true) tables));
}.

Section ChooseCorrect.
Context (empty_last : bool) (tables : list PathTable) (Hok : routes_ok tables).
Context (table : nat) (method path : text).

Definition url_table (t : nat) : Prop :=
  exists tb, tables !! t = Some tb /\ path_matches empty_last (p_path tb) path = true.

Lemma each_where (p : PathTable -> bool) (t : nat) :
  t ∈ each_table empty_last (build (paths_where p tables)) path <->
  exists tb, tables !! t = Some tb /\ p tb = true /\ path_matches empty_last (p_path tb) path = true.
Proof.
  destruct (each_table_found empty_last (paths_where p tables) path (shapes_where _ _ (rt_shapes _ Hok)))
    as (found & -> & Hin & _).
  rewrite list_elem_of_fmap. split.
  - intros ([q i] & -> & Hq). apply Hin in Hq as [Hq Hm]. apply paths_where_elem in Hq as (tb & ? & ? & <-).
    eauto.
  - intros (tb & Ht & Hp & Hm). exists (p_path tb, t). split; [done|]. apply Hin. split; [|done].
    apply paths_where_elem. eauto.
Qed.

Lemma index_first_each (index : Index) :
  index_first empty_last index path = head (each_table empty_last index path).
Proof. unfold index_first, each. by destruct (each_table _ _ _). Qed.

(** What one of the two passes, over the tables [p] picks, may answer. *)
Definition pass_ok (p : PathTable -> bool) (admits : Binding -> bool) (c : option Choice) : Prop :=
  match c with
  | Some c => exists t, url_table t /\ justified method admits (get_table (routes_new tables) t) (Some c) t
  | None => forall t tb, tables !! t = Some tb -> p tb = true ->
              path_matches empty_last (p_path tb) path = true ->
              forall b, b ∈ p_bindings tb -> admits b = false
  end.

Lemma answer_pass_ok (p : PathTable -> bool) (admits : Binding -> bool) (first : nat) :
  url_table first ->
  pass_ok p admits (answer empty_last (routes_new tables) (build (paths_where p tables)) first method path
                      admits (fun _ => true)).
Proof.
  intros Hf. destruct (routes_new_indexes tables) as (Hr & _).
  pose proof (answer_justified empty_last tables method path (routes_new tables)
    (build (paths_where p tables)) first admits Hr (rt_methods _ Hok)) as H.
  unfold pass_ok. destruct (answer _ _ _ _ _ _ _ _) as [c|].
  - destruct H as (t & Ht & Hj). exists t. split; [|done]. destruct Ht as [->|Ht]; [done|].
    apply each_where in Ht as (tb & ? & _ & ?). by exists tb.
  - intros t tb Ht Hp Hm b Hb. apply (proj2 H t); [apply each_where; eauto|]. by rewrite Ht.
Qed.

Lemma choose_verb_ok :
  url_table table ->
  match split_verb path with
  | Some (rest, verb) =>
      pass_ok (has_verb (normalize_escapes verb)) (bound_admits path rest (normalize_escapes verb))
        (choose_verb empty_last (routes_new tables) table method path (fun _ => true))
  | None => choose_verb empty_last (routes_new tables) table method path (fun _ => true) = None
  end.
Proof.
  intros Ht. unfold choose_verb. destruct (split_verb path) as [[rest verb]|]; [|done].
  cbn [mbind option_bind]. set (v := normalize_escapes verb).
  destruct (routes_new_indexes tables) as (_ & _ & Hv). destruct (Hv v) as [Hdef Hnone].
  destruct (r_verbs (routes_new tables) !! v) as [index|]; cbn [mbind option_bind].
  - cbn [from_option id] in Hdef. subst index. rewrite index_first_each.
    destruct (each_table _ _ _) as [|first l] eqn:E; cbn.
    + intros t tb Htb Hp Hm. exfalso. eapply elem_of_nil. rewrite <- E. apply each_where. eauto.
    + rewrite orb_true_r. apply answer_pass_ok.
      assert (Hin : first ∈ first :: l) by by left. rewrite <- E in Hin.
      apply each_where in Hin as (tb & ? & _ & ?). by exists tb.
  - intros t tb Htb Hp Hm. exfalso. apply (elem_of_nil (p_path tb, t)).
    rewrite <- (proj1 Hnone eq_refl). apply paths_where_elem. eauto.
Qed.

Definition unless_not_found (c : Choice) : option Choice :=
  match c with NotFound => None | c => Some c end.

Lemma choose_plain_ok :
  url_table table ->
  pass_ok p_plain (plain_admits path)
    (unless_not_found (choose_plain empty_last (routes_new tables) table method path (fun _ => true))).
Proof.
  intros Ht. unfold choose_plain. destruct (routes_new_indexes tables) as (_ & -> & _).
  rewrite index_first_each.
  assert (Hans : forall first, url_table first ->
    pass_ok p_plain (plain_admits path)
      (unless_not_found (default NotFound (answer empty_last (routes_new tables)
         (build (paths_where p_plain tables)) first method path (plain_admits path) (fun _ => true))))).
  { intros first Hf. pose proof (answer_pass_ok p_plain (plain_admits path) first Hf) as H.
    destruct (answer _ _ _ _ _ _ _ _) as [[| |]|]; try done. cbn in H. by destruct H as (? & _ & ?). }
  destruct (p_plain (get_table (routes_new tables) table)); [by apply Hans|].
  destruct (each_table _ _ _) as [|first l] eqn:E; cbn [head].
  - intros t tb Htb Hp Hm. exfalso. eapply elem_of_nil. rewrite <- E. apply each_where. eauto.
  - apply Hans. assert (Hin : first ∈ first :: l) by by left. rewrite <- E in Hin.
    apply each_where in Hin as (tb & ? & _ & ?). by exists tb.
Qed.

(** The answer of a pass, for the bindings that answer the URL. *)
Definition choice_ok (c : Choice) : Prop :=
  match c with
  | Route t i => exists tb b, tables !! t = Some tb /\ p_bindings tb !! i = Some b /\
      path_matches empty_last (p_path tb) path = true /\ answers_url path b = true /\
      (serves method b || answers_head method b) = true
  | MethodNotAllowed t allow => exists tb bs, tables !! t = Some tb /\
      path_matches empty_last (p_path tb) path = true /\ sublist bs (p_bindings tb) /\ bs <> [] /\
      Forall (fun b => answers_url path b = true /\ (serves method b || answers_head method b) = false) bs /\
      allow = allow_value (binding_method <$> bs)
  | NotFound => forall t tb b, tables !! t = Some tb -> path_matches empty_last (p_path tb) path = true ->
      b ∈ p_bindings tb -> answers_url path b = false
  end.

Lemma pass_choice_ok (p : PathTable -> bool) (admits : Binding -> bool) (c : Choice) :
  (forall b, admits b = true -> answers_url path b = true) ->
  pass_ok p admits (Some c) -> choice_ok c.
Proof.
  intros Hadm (t & (tb & Htb & Hm) & Hj). unfold get_table in Hj.
  destruct (routes_new_indexes tables) as (Hr & _). rewrite Hr, Htb in Hj. cbn in Hj.
  destruct c as [t' i|t' a|]; [| |done].
  - destruct Hj as (-> & b & Hb & Ha & Hs). exists tb, b. auto 6.
  - destruct Hj as (-> & Hne & -> & HF). eexists tb, _. split; [done|]. split; [done|]. split.
    2:{ split; [exact Hne|]. split; [|done]. apply Forall_forall. intros b Hb. rewrite Forall_forall in HF.
        split; [|by apply HF]. apply Hadm. apply list_elem_of_fmap in Hb as ([k b'] & -> & Hin).
        by apply admitted_from_elem in Hin as (_ & _ & ?). }
    clear. unfold admitted_from.
    replace (p_bindings tb) with ((zip (seq 0 (length (p_bindings tb))) (p_bindings tb)).*2) at 3
      by (apply snd_zip; rewrite length_seq; lia).
    apply fmap_sublist, sublist_filter.
Qed.

Lemma plain_answers_url (b : Binding) : plain_admits path b = true -> answers_url path b = true.
Proof. unfold answers_url. by intros ->. Qed.

Lemma choose_correct_aux :
  url_table table -> choice_ok (choose empty_last (routes_new tables) table method path).
Proof.
  intros Ht. unfold choose, choose_ranked. destruct (routes_new_indexes tables) as (Hr & _).
  destruct (if literal_end _ then _ else None) as [c|] eqn:El.
  { apply (pass_choice_ok (fun _ => true) (plain_admits path)); [apply plain_answers_url|].
    destruct (literal_end _); [|done]. exists table. split; [done|]. rewrite <- El.
    apply table_choose_justified. by eapply get_table_ok; [|apply (rt_methods _ Hok)]. }
  pose proof (choose_verb_ok Ht) as Hv. pose proof (choose_plain_ok Ht) as Hp.
  destruct (choose_verb _ _ _ _ _ _) as [c|].
  { destruct (split_verb path) as [[rest verb]|] eqn:Es; [|done].
    eapply pass_choice_ok; [|exact Hv]. intros b Hb. unfold answers_url. rewrite Es, Hb. apply orb_true_r. }
  destruct (choose_plain _ _ _ _ _ _) as [t i|t a|] eqn:Ep.
  1, 2: eapply pass_choice_ok; [apply plain_answers_url|exact Hp].
  intros t tb b Htb Hm Hb. apply orb_false_iff. split.
  - destruct (b_verb b) as [own|] eqn:Eb.
    { unfold plain_admits. rewrite bool_decide_eq_false_2 by congruence. done. }
    apply (Hp t tb); try done. pose proof (rt_plain _ Hok) as HF. rewrite Forall_forall in HF.
    apply (HF tb); [by eapply list_elem_of_lookup_2|]. eauto.
  - destruct (split_verb path) as [[rest verb]|]; [|done].
    destruct (bound_admits path rest (normalize_escapes verb) b) eqn:Hba; [|done].
    rewrite (Hv t tb Htb) in Hba; [done| |done|done].
    unfold has_verb. apply bool_decide_eq_true, table_verbs_elem.
    unfold bound_admits in Hba. destruct (b_verb b) as [own|] eqn:Eb; [|done].
    exists b, own. bool_simpl. auto.
Qed.
End ChooseCorrect.


(** ** Escapes and field templates *)

Lemma normalized_bytes_length (d : nat) (s : text) : length (normalized_bytes d s) = length s.
Proof. revert d. induction s as [|a s IH]; intros [|d]; cbn; auto. Qed.

Lemma byte_upper_hex (c : ascii) : is_ascii_hexdigit c = true -> is_ascii_hexdigit (byte_upper c) = true.
Proof. byte_cases c; vm_compute; congruence. Qed.

Lemma byte_upper_idem (c : ascii) : byte_upper (byte_upper c) = byte_upper c.
Proof. byte_cases c; vm_compute; reflexivity. Qed.

Lemma normalized_bytes_idem (d : nat) (s : text) :
  normalized_bytes d (normalized_bytes d s) = normalized_bytes d s.
Proof.
  revert d. induction s as [|a s IH]; intros [|d]; cbn [normalized_bytes]; [done|done|by rewrite IH|].
  rewrite IH. f_equal. destruct (is_ascii_hexdigit a) eqn:E; [|by rewrite E].
  rewrite byte_upper_hex by done. apply byte_upper_idem.
Qed.

(** Comparing a received text with a normalized one byte by byte, without
    building the normalized text, is equality of the normalized texts: two
    spellings of an octet compare equal and nothing else does. *)
Theorem same_octets_normalize (received other : text) :
  same_octets received (normalize_escapes other) = true <->
  normalize_escapes received = normalize_escapes other.
Proof.
  unfold same_octets, normalize_escapes. rewrite andb_true_iff, bool_decide_eq_true, Nat.eqb_eq.
  split; [by intros [_ ?]|]. intros E. split; [|done].
  apply (f_equal length) in E. by rewrite !normalized_bytes_length in *.
Qed.

(** The grammar of google/api/http.proto: [*] is one non-empty segment, [**]
    any number of segments, a literal itself up to the case of its escapes. *)
Inductive follows_rel : list text -> list text -> Prop :=
| F_nil : follows_rel [] []
| F_deep_none rest v : follows_rel rest v -> follows_rel (txt "**" :: rest) v
| F_deep_more rest s v : follows_rel (txt "**" :: rest) v -> follows_rel (txt "**" :: rest) (s :: v)
| F_star rest s v : s <> [] -> follows_rel rest v -> follows_rel (txt "*" :: rest) (s :: v)
| F_literal l rest s v : l <> txt "*" -> l <> txt "**" -> same_octets s l = true ->
    follows_rel rest v -> follows_rel (l :: rest) (s :: v).

Lemma follows_deep (rest v : list text) :
  follows_segments (txt "**" :: rest) v =
  follows_segments rest v || match v with [] => false | _ :: tail => follows_segments (txt "**" :: rest) tail end.
Proof. by destruct v. Qed.

(** [follows] decides the template grammar: its search over the splits a
    [**] allows accepts a value exactly when some split follows the template. *)
Theorem follows_decides (template : list text) (value : option text) :
  follows template value = true <->
  follows_rel template (match value with Some v => split (ch "/") v | None => [] end).
Proof.
  unfold follows. generalize (match value with Some v => split (ch "/") v | None => [] end). clear value.
  intros v. split.
  - revert v. induction template as [|first rest IH]; intros v.
    { destruct v; [constructor|done]. }
    destruct (decide (first = txt "**")) as [->|Hd].
    + induction v as [|s v IHv]; rewrite follows_deep, orb_true_iff.
      * intros [H|H]; [|done]. apply F_deep_none. by apply IH.
      * intros [H|H]; [by apply F_deep_none, IH|by apply F_deep_more, IHv].
    + cbn [follows_segments]. rewrite decide_False by done. destruct v as [|s v]; [done|].
      rewrite andb_true_iff. intros [Hf Hr]. destruct (decide (first = txt "*")) as [->|Hs].
      * destruct s; [done|]. apply F_star; [done|by apply IH].
      * apply F_literal; auto.
  - induction 1 as [|rest v _ IH|rest s v _ IH|rest s v Hs _ IH|l rest s v H1 H2 H3 _ IH].
    + done.
    + by rewrite follows_deep, IH.
    + rewrite follows_deep, IH. apply orb_true_r.
    + cbn [follows_segments]. rewrite decide_False, decide_True by done. by destruct s.
    + cbn [follows_segments]. rewrite !decide_False by done. by rewrite H3, IH.
Qed.

(** The one pass that compares a request with the escaped literals of a
    binding reads each literal at its own segment: [at - next] never underflows
    for literals in path order, and the pass is a comparison at each index. *)
Theorem fits_literals_random_access (literals : list (nat * text)) (next : nat) (path : list text) :
  increasing literals.*1 -> Forall (fun at_ => (next <= at_)%nat) literals.*1 ->
  fits_literals literals next (drop next path) = true <->
  Forall (fun al => exists segment, path !! al.1 = Some segment /\ same_octets segment al.2 = true) literals.
Proof.
  revert next. induction literals as [|[at_ l] literals IH]; intros next Hinc Hge; [done|].
  cbn [fmap list_fmap fst] in *. inversion Hinc as [|? ? Hs HF]; subst.
  inversion Hge as [|? ? Hn Hge']; subst. cbn [fits_literals].
  rewrite drop_drop. replace (next + (at_ - next))%nat with at_ by lia. rewrite Forall_cons. cbn [fst snd].
  destruct (drop at_ path) as [|s rest] eqn:Ed.
  - split; [done|]. intros [(s & Hs' & _) _]. apply lookup_lt_Some in Hs'.
    apply (f_equal length) in Ed. rewrite length_drop in Ed. cbn in Ed. lia.
  - assert (Hat : path !! at_ = Some s /\ drop (S at_) path = rest).
    { split.
      - rewrite <- (Nat.add_0_r at_), <- lookup_drop, Ed. done.
      - rewrite <- Nat.add_1_r, <- drop_drop, Ed. done. }
    destruct Hat as [Hat <-]. rewrite andb_true_iff.
    rewrite (IH (S at_)); [|done|].
    + rewrite Hat. split; [intros [? ?]; eauto|]. intros [(x & [= <-] & ?) ?]. auto.
    + eapply Forall_impl; [exact HF|]. intros x Hx. cbn in Hx. lia.
Qed.

(** ** Parameters *)

Section Keep.
Context (base : nat) (unbound : list nat) (name_of : nat -> option text).

(** The parameters kept among those at [at_] on, in order, the captures under
    the binding's names. *)
Fixpoint kept_from (at_ : nat) (ps : params) : params :=
  match ps with
  | [] => []
  | nv :: ps' =>
      if Nat.ltb at_ base then nv :: kept_from (S at_) ps'
      else if decide ((at_ - base)%nat ∈ unbound) then kept_from (S at_) ps'
      else (default [] (name_of (at_ - base)%nat), nv.2) :: kept_from (S at_) ps'
  end.

Lemma swap_kept {A} (K G T : list A) (x : A) :
  exists G', swap (length K) (length K + length G) (K ++ G ++ x :: T) = K ++ x :: G' ++ T /\
             length G' = length G.
Proof.
  unfold swap. destruct G as [|g G].
  - exists []. cbn [app length]. rewrite Nat.add_0_r, list_lookup_middle by done.
    by rewrite !list_insert_id by (by rewrite ?list_insert_id; rewrite list_lookup_middle).
  - exists (G ++ [g]). split; [|rewrite length_app; cbn; lia]. cbn [app].
    rewrite (list_lookup_middle K) by done.
    replace (length K + length (g :: G))%nat with (length (K ++ g :: G)) by (by rewrite length_app).
    rewrite app_comm_cons, app_assoc, list_lookup_middle by done.
    rewrite <- (Nat.add_0_r (length (K ++ g :: G))), insert_app_r. cbn [insert list_insert].
    rewrite <- app_assoc. rewrite <- (Nat.add_0_r (length K)), insert_app_r.
    cbn [app insert list_insert]. by rewrite <- app_assoc.
Qed.

(** The loop: what is kept moves to the front in order, what follows the
    matched parameters does not move. *)
Lemma keep_loop_spec (T : params) (at_ kept : nat) (K G C : params) :
  length K = kept -> (length K + length G = at_)%nat ->
  (forall i, (at_ <= i < at_ + length T)%nat -> (base <= i)%nat -> (i - base)%nat ∉ unbound ->
     is_Some (name_of (i - base)%nat)) ->
  exists G', keep_loop base unbound name_of (length T) at_ kept (K ++ G ++ T ++ C) =
    Some (length (K ++ kept_from at_ T), K ++ kept_from at_ T ++ G' ++ C) /\
    (length (K ++ kept_from at_ T) + length G' = at_ + length T)%nat.
Proof.
  revert at_ kept K G. induction T as [|[n v] T IH]; intros at_ kept K G HK HG Hname.
  { exists G. cbn. rewrite app_nil_r, HK. split; [done|]. rewrite Nat.add_0_r. lia. }
  cbn [length keep_loop kept_from].
  (* keeping the parameter as [nv] *)
  assert (Hkeep : forall nv, exists G',
    keep_loop base unbound name_of (length T) (S at_) (S kept) (swap kept at_ (K ++ G ++ (nv :: T) ++ C)) =
      Some (length (K ++ nv :: kept_from (S at_) T), K ++ (nv :: kept_from (S at_) T) ++ G' ++ C) /\
    (length (K ++ nv :: kept_from (S at_) T) + length G' = at_ + S (length T))%nat).
  { intros nv. destruct (swap_kept K G (T ++ C) nv) as (G1 & E & HG1). rewrite HG, HK in E.
    change ((nv :: T) ++ C) with (nv :: T ++ C). rewrite E.
    destruct (IH (S at_) (S kept) (K ++ [nv]) G1) as (G' & E' & Hlen).
    - rewrite length_app. cbn. lia.
    - rewrite length_app. cbn. lia.
    - intros i Hi. apply Hname. cbn. lia.
    - rewrite <- !app_assoc in E'. cbn [app] in E'. rewrite E'. exists G'.
      rewrite <- app_assoc in Hlen. cbn [app] in *. split; [done|lia]. }
  destruct (Nat.ltb_spec at_ base); [apply Hkeep|].
  case_decide as Hu.
  - destruct (IH (S at_) kept K (G ++ [(n, v)])) as (G' & E & Hlen).
    + done.
    + rewrite length_app. cbn. lia.
    + intros i Hi. apply Hname. cbn. lia.
    + rewrite <- !app_assoc in E. cbn [app] in *. rewrite E. exists G'. split; [done|lia].
  - destruct (Hname at_ ltac:(cbn; lia) ltac:(lia) Hu) as [name Hn]. rewrite Hn. cbn [mbind option_bind].
    replace (alter (fun nv => (name, nv.2)) at_ (K ++ G ++ ((n, v) :: T) ++ C))
      with (K ++ G ++ ((name, v) :: T) ++ C).
    2:{ symmetry. rewrite app_assoc, <- (Nat.add_0_r at_), <- HG, <- length_app.
        rewrite alter_app_r. by rewrite <- app_assoc. }
    apply Hkeep.
Qed.

Lemma kept_from_app (at_ : nat) (l l' : params) :
  kept_from at_ (l ++ l') = kept_from at_ l ++ kept_from (at_ + length l) l'.
Proof.
  revert at_. induction l as [|nv l IH]; intros at_; cbn [app kept_from length]; [by rewrite Nat.add_0_r|].
  rewrite IH. replace (S at_ + length l)%nat with (at_ + S (length l))%nat by lia.
  destruct (Nat.ltb at_ base); [done|]. by destruct (decide _).
Qed.

Lemma kept_from_prefix (at_ : nat) (l : params) : (at_ + length l <= base)%nat -> kept_from at_ l = l.
Proof.
  revert at_. induction l as [|nv l IH]; intros at_ Hl; cbn [kept_from length] in *; [done|].
  destruct (Nat.ltb_spec at_ base); [|lia]. by rewrite IH by lia.
Qed.
End Keep.

Lemma kept_from_shift (base k : nat) (unbound : list nat) (name_of : nat -> option text) (l : params) :
  kept_from base unbound name_of (base + k) l = kept_from 0 unbound name_of k l.
Proof.
  revert k. induction l as [|nv l IH]; intros k; cbn [kept_from]; [done|].
  destruct (Nat.ltb_spec (base + k) base); [lia|]. destruct (Nat.ltb_spec k 0); [lia|].
  replace (base + k - base)%nat with (k - 0)%nat by lia. replace (S (base + k)) with (base + S k)%nat by lia.
  by rewrite IH.
Qed.

(** A binding of a table: a name for each capture, composites of captures of
    the path. *)
Definition binding_ok (t : PathTable) (b : Binding) : Prop :=
  (forall names, b_names b = Some names -> length names = length (p_captures t)) /\
  (forall c i, c ∈ b_composites b -> PCapture i ∈ co_parts c -> (i < length (p_captures t))%nat).

Lemma mapM_is_Some {A B} (f : A -> option B) (l : list A) :
  (forall x, x ∈ l -> is_Some (f x)) -> is_Some (mapM f l).
Proof. intros H. apply mapM_is_Some_2. by apply Forall_forall. Qed.

Lemma bind_params_ok (t : PathTable) (index : nat) (b : Binding) (prefix caps : params) :
  p_bindings t !! index = Some b -> binding_ok t b -> length caps = length (p_captures t) ->
  let caps' :=
    match b_verb b, length (p_captures t) with
    | Some verb, S last =>
        alter (fun nv => (nv.1, verb_off verb (bool_decide (last ∈ b_multi_segment b)) nv.2)) last caps
    | _, _ => caps
    end in
  let names := default (p_captures t) (b_names b) in
  exists values,
    mapM (fun c => pair (co_field c) <$> composite_value 0 caps' c) (b_composites b) = Some values /\
    bind_params t index (prefix ++ caps) =
      Some (prefix ++ kept_from 0 (b_unbound b) (fun i => names !! i) 0 caps' ++ values).
Proof.
  intros Hb [Hnames Hcomp] Hlen caps' names. unfold bind_params. rewrite Hb. cbn [mbind option_bind].
  rewrite length_app, leb_correct by lia. cbn [mbind option_bind].
  replace (length prefix + length caps - length (p_captures t))%nat with (length prefix) by lia.
  remember (length prefix) as base eqn:Hbase.
  assert (Hps : (match b_verb b, length (p_captures t) with
    | Some verb, S last => alter (fun nv => (nv.1, verb_off verb (bool_decide (last ∈ b_multi_segment b)) nv.2))
                             (base + last)%nat (prefix ++ caps)
    | _, _ => prefix ++ caps end) = prefix ++ caps').
  { unfold caps'. rewrite Hbase. destruct (b_verb b), (length (p_captures t)); try done.
    by rewrite alter_app_r. }
  rewrite Hps.
  assert (Hlen' : length caps' = length (p_captures t)).
  { unfold caps'. destruct (b_verb b), (length (p_captures t)) eqn:E; rewrite ?length_alter; lia. }
  assert (Hcv : forall c, c ∈ b_composites b ->
            composite_value base (prefix ++ caps') c = composite_value 0 caps' c /\
            is_Some (composite_value 0 caps' c)).
  { intros c Hc. unfold composite_value. split.
    - f_equal. apply Forall_mapM_ext, Forall_forall. intros [l|i] Hp; [done|].
      rewrite lookup_app_r by lia. do 2 f_equal. lia.
    - apply fmap_is_Some, mapM_is_Some. intros [l|i] Hp; [done|]. apply fmap_is_Some, lookup_lt_is_Some_2.
      rewrite Hlen'. cbn. eauto. }
  destruct (mapM_is_Some (fun c => pair (co_field c) <$> composite_value 0 caps' c) (b_composites b))
    as [values Hv].
  { intros c Hc. apply fmap_is_Some. by apply Hcv. }
  exists values. split; [done|].
  rewrite (Forall_mapM_ext _ (fun c => pair (co_field c) <$> composite_value 0 caps' c)), Hv.
  2:{ apply Forall_forall. intros c Hc. by rewrite (proj1 (Hcv c Hc)). }
  cbn [mbind option_bind]. rewrite <- app_assoc.
  replace (fun position => match b_names b with None => p_captures t !! position | Some ns => ns !! position end)
    with (fun i => names !! i) by (unfold names; by destruct (b_names b)).
  destruct (keep_loop_spec base (b_unbound b) (fun i => names !! i) (prefix ++ caps') 0 0 [] [] values)
    as (G' & E & Hl); [done|done| |].
  { intros i Hi Hge _. apply lookup_lt_is_Some_2. rewrite length_app, Hlen' in Hi.
    assert (length names = length (p_captures t)).
    { unfold names. destruct (b_names b) eqn:En; [by apply Hnames|done]. }
    cbn in *. lia. }
  assert (Hkf : kept_from base (b_unbound b) (fun i => names !! i) 0 (prefix ++ caps') =
                prefix ++ kept_from 0 (b_unbound b) (fun i => names !! i) 0 caps').
  { rewrite kept_from_app, kept_from_prefix, Nat.add_0_l, <- Hbase by lia.
    by rewrite <- (kept_from_shift base 0), Nat.add_0_r. }
  cbn [app] in E, Hl. rewrite <- app_assoc, Hkf in E. rewrite Hkf in Hl. rewrite E.
  cbn [mbind option_bind]. rewrite take_app_length, <- app_assoc. do 3 f_equal.
  rewrite Nat.add_0_l in Hl. rewrite <- Hl, app_assoc, <- length_app. apply drop_app_length.
Qed.

(** C30: binding the parameters of a matched request never indexes out of range,
    and gives exactly: the parameters of the prefixes the router is nested under,
    untouched; then each capture that binds a field, in path order, under the
    binding's own name for it, the custom verb taken off the last; then the fields
    put together from several segments. The in-place compaction by swaps loses
    and reorders nothing. *)
Theorem bind_params_correct (t : PathTable) (index : nat) (b : Binding) (prefix caps : params) :
  p_bindings t !! index = Some b -> binding_ok t b -> length caps = length (p_captures t) ->
  let caps' :=
    match b_verb b, length (p_captures t) with
    | Some verb, S last =>
        alter (fun nv => (nv.1, verb_off verb (bool_decide (last ∈ b_multi_segment b)) nv.2)) last caps
    | _, _ => caps
    end in
  let names := default (p_captures t) (b_names b) in
  exists values,
    mapM (fun c => pair (co_field c) <$> composite_value 0 caps' c) (b_composites b) = Some values /\
    bind_params t index (prefix ++ caps) =
      Some (prefix ++ kept_from 0 (b_unbound b) (fun i => names !! i) 0 caps' ++ values).
Proof. apply bind_params_ok. Qed.

(** ** Building a table *)

(** The bindings of a table: constrained ones before open ones, none claiming
    what another claims, each well formed. *)
Record table_ok (t : PathTable) : Prop := {
  tk_methods : methods_ok t;
  tk_plain : p_plain t = true <-> exists b, b ∈ p_bindings t /\ b_verb b = None;
  tk_bindings : Forall (fun b => binding_ok t b /\ increasing (b_literals b).*1) (p_bindings t);
  tk_order : exists front back, p_bindings t = front ++ back /\
    Forall (fun b => constrained b = true) front /\ Forall (fun b => constrained b = false) back;
  tk_claims : StronglySorted (fun a b => clash (binding_claim a) (binding_claim b) = false) (p_bindings t);
}.

Lemma clash_sym (a b : Claim) : clash a b = clash b a.
Proof.
  unfold clash. destruct (decide (length (cl_literals a) = length (cl_literals b))) as [E|Hne].
  2:{ replace (Nat.eqb (length (cl_literals a)) (length (cl_literals b))) with false
        by (symmetry; by apply Nat.eqb_neq).
      replace (Nat.eqb (length (cl_literals b)) (length (cl_literals a))) with false
        by (symmetry; apply Nat.eqb_neq; congruence).
      rewrite !andb_false_r. done. }
  f_equal; [f_equal; [f_equal; [f_equal|]|]|].
  - apply bool_decide_ext. split; congruence.
  - apply bool_decide_ext. split; congruence.
  - by rewrite E.
  - revert E. generalize (cl_literals b). induction (cl_literals a) as [|x l IH]; intros [|y l'] E; try done.
    cbn [zip zip_with forallb fst snd]. rewrite IH by (cbn in E; lia). f_equal. f_equal.
    + apply Nat.eqb_sym.
    + apply bool_decide_ext. split; congruence.
  - rewrite (bool_decide_ext (cl_method a = cl_method b) (cl_method b = cl_method a)) by (split; congruence).
    destruct (bool_decide (cl_method a = Any)), (bool_decide (cl_method b = Any)),
      (bool_decide (cl_method b = cl_method a)); done.
Qed.

Lemma normalize_idem (s : text) : normalize_escapes (normalize_escapes s) = normalize_escapes s.
Proof. apply normalized_bytes_idem. Qed.

Section Building.
Context {P : PercentLib}.

(** The binding [new] and [add] make of a mounted path. *)
Definition mounted_binding (mount : MountedPath) (entry : RouteEntry) (names : option (list text)) : Binding :=
  mkBinding entry names ((fun raw => verb_new raw (m_empty_last mount)) <$> m_verb mount)
    (template_of mount) (positions (m_unbound mount)) (positions (m_multi_segment mount))
    (m_composites mount) (normalized_literals (m_literals mount)).

Definition mount_claim (mount : MountedPath) (entry : RouteEntry) : Claim :=
  mkClaim (e_http_method entry) (m_verb mount) (m_last_template mount) (m_literals mount).

(** What a binding claims once mounted is what its template claimed: both are
    compared with their escapes normalized. *)
Lemma clash_mounted (c : Claim) (mount : MountedPath) (entry : RouteEntry) (names : option (list text)) :
  clash c (binding_claim (mounted_binding mount entry names)) = clash c (mount_claim mount entry).
Proof.
  unfold clash, binding_claim, mounted_binding, mount_claim.
  cbn [cl_method cl_verb cl_template cl_literals b_entry b_verb b_template b_literals].
  f_equal. f_equal; [f_equal; [f_equal|]|].
  - apply bool_decide_ext. destruct (m_verb mount); cbn; [by rewrite normalize_idem|done].
  - apply bool_decide_ext. unfold template_of. by destruct (m_last_template mount).
  - unfold normalized_literals. by rewrite length_fmap.
  - unfold normalized_literals. generalize (m_literals mount).
    induction (cl_literals c) as [|x l IH]; intros [|y l']; try done.
    rewrite fmap_cons. cbn [zip zip_with forallb fst snd]. by rewrite IH, normalize_idem.
Qed.

Lemma mounted_binding_ok (t : PathTable) (template : text) (entry : RouteEntry) :
  let mount := mounted_new template in
  length (m_captures mount) = length (p_captures t) ->
  let b := mounted_binding mount entry
             (if decide (m_captures mount = p_captures t) then None else Some (m_captures mount)) in
  binding_ok t b /\ increasing (b_literals b).*1.
Proof.
  intros mount Hlen b. destruct (mounted_new_ok template) as (Hu & _ & Hc & Hi). fold mount in Hu, Hc, Hi.
  split; [split|].
  - cbn. intros names. case_decide; [done|]. by intros [= <-].
  - cbn. intros c i Hin Hp. specialize (Hc c i Hin Hp). apply lookup_lt_Some in Hc. lia.
  - cbn. unfold normalized_literals. rewrite <- list_fmap_compose. exact Hi.
Qed.

Lemma sorted_insert {A} (R : A -> A -> Prop) (l1 l2 : list A) (x : A) :
  StronglySorted R (l1 ++ l2) -> Forall (fun a => R a x) l1 -> Forall (R x) l2 ->
  StronglySorted R (l1 ++ x :: l2).
Proof.
  induction l1 as [|a l1 IH]; cbn; intros Hs H1 H2; [by constructor|].
  inversion Hs as [|? ? Hs' HF]; subst. inversion H1; subst. constructor; [by apply IH|].
  apply Forall_app in HF as [HF1 HF2]. apply Forall_app. split; [done|]. by constructor.
Qed.

Lemma table_add_keeps (t : PathTable) (template : text) (entry : RouteEntry) :
  table_ok t -> length (m_captures (mounted_new template)) = length (p_captures t) ->
  method_str (e_http_method entry) <> [] ->
  table_ok (table_add t (mounted_new template) entry).
Proof.
  intros Hok Hlen Hmeth. unfold table_add. set (mount := mounted_new template) in *.
  fold (mount_claim mount entry).
  destruct (existsb _ (p_bindings t)) eqn:Hcl; [done|].
  pose proof (mounted_binding_ok t template entry Hlen) as Hb. fold mount in Hb. cbn zeta in Hb.
  fold (mounted_binding mount entry (if decide (m_captures mount = p_captures t) then None
                                     else Some (m_captures mount))).
  set (b := mounted_binding _ _ _) in *. destruct Hok as [Hm Hp HB (front & back & Ef & Hf & Hk) Hs].
  assert (Hno : Forall (fun a => clash (binding_claim a) (binding_claim b) = false) (p_bindings t)).
  { apply existsb_false_Forall in Hcl. eapply Forall_impl; [exact Hcl|].
    intros a Ha. unfold b. by rewrite clash_mounted. }
  set (at_ := if constrained b then _ else _).
  assert (Hat : exists l1 l2, p_bindings t = l1 ++ l2 /\ at_ = length l1 /\
     ((constrained b = true /\ l1 = front /\ l2 = back) \/ (constrained b = false /\ l2 = []))).
  { unfold at_. destruct (constrained b) eqn:Ec.
    - exists front, back. split; [done|]. split; [|auto]. rewrite Ef. destruct back as [|x back].
      + rewrite app_nil_r, position_none; [done|]. eapply Forall_impl; [exact Hf|]. by intros x ->.
      + rewrite position_split; [done| |].
        * eapply Forall_impl; [exact Hf|]. by intros y ->.
        * inversion Hk as [|? ? Hx _]; subst. by rewrite Hx.
    - exists (p_bindings t), []. rewrite app_nil_r. auto. }
  destruct Hat as (l1 & l2 & El & -> & Hcase). rewrite El, take_app_length, drop_app_length.
  unfold methods_ok in Hm. rewrite El in Hm, Hp, HB, Hs, Hno. apply Forall_app in Hno as [Hno1 Hno2].
  split; cbn [p_bindings p_plain].
  - unfold methods_ok. cbn [p_bindings]. apply Forall_app in Hm as [? ?].
    apply Forall_app. split; [done|]. by constructor.
  - rewrite orb_true_iff, Hp, bool_decide_eq_true. setoid_rewrite elem_of_app. setoid_rewrite elem_of_cons.
    split.
    + intros [(x & Hx & ?)|?]; [exists x; tauto|exists b; tauto].
    + intros (x & [Hx|[->|Hx]] & ?); [left; exists x; tauto|by right|left; exists x; tauto].
  - apply Forall_app in HB as [? ?]. apply Forall_app. split; [done|]. by constructor.
  - destruct Hcase as [(Hc & -> & ->)|(Hc & ->)].
    + exists (front ++ [b]), back. rewrite <- app_assoc. split; [done|]. split; [|done].
      apply Forall_app. split; [done|]. by constructor.
    + rewrite app_nil_r in El. exists front, (back ++ [b]). rewrite app_assoc, <- Ef, El. split; [done|].
      split; [done|]. apply Forall_app. split; [done|]. by constructor.
  - apply sorted_insert; [done|done|]. eapply Forall_impl; [exact Hno2|]. intros x Hx. by rewrite clash_sym.
Qed.

Lemma table_new_ok (template : text) (entry : RouteEntry) :
  method_str (e_http_method entry) <> [] -> table_ok (table_new (mounted_new template) entry).
Proof.
  intros Hm. set (mount := mounted_new template).
  pose proof (mounted_binding_ok (table_new mount entry) template entry eq_refl) as Hb.
  fold mount in Hb. cbn zeta in Hb. rewrite decide_True in Hb by done. unfold table_new in *.
  fold (mounted_binding mount entry None) in *. set (b := mounted_binding mount entry None) in *.
  split; cbn [p_bindings p_plain].
  - by repeat constructor.
  - rewrite bool_decide_eq_true. split.
    + intros E. exists b. split; [by left|]. cbn. by rewrite E.
    + intros (x & ->%list_elem_of_singleton & E). cbn in E. by destruct (m_verb mount).
  - constructor; [exact Hb|constructor].
  - destruct (constrained b) eqn:Ec; [exists [b], []|exists [], [b]]; repeat constructor; done.
  - repeat constructor.
Qed.

(** A table keeps its invariant as bindings are added. Adding the binding
    of any template with the captures of the table's path leaves it with method
    tokens, the [plain] flag telling whether some binding has no verb, bindings
    whose names and composites are in range and whose literals come in path order,
    constrained bindings before open ones, and no two bindings with the same claim;
    a binding that would clash is not added. *)
Theorem table_add_ok (t : PathTable) (template : text) (entry : RouteEntry) :
  table_ok t -> length (m_captures (mounted_new template)) = length (p_captures t) ->
  method_str (e_http_method entry) <> [] ->
  table_ok (table_add t (mounted_new template) entry).
Proof. apply table_add_keeps. Qed.
End Building.
End Routing.

(** ** Witnesses *)

Module Demo.
Import PercentModel.

Definition entry (method path rpc : string) : RouteEntry := mkEntry (txt path) (One (txt method)) (txt rpc) tt.
Definition book : text := txt "/v1/{name=shelves/*/books/*}".

Definition books : PathTable :=
  table_new (mounted_new book) (entry "GET" "/v1/{name=shelves/*/books/*}" "/lib.v1.Library/GetBook").
Definition books2 : PathTable :=
  table_add books (mounted_new (txt "/v1/{parent=**}:list"))
    (entry "POST" "/v1/{parent=**}:list" "/lib.v1.Library/List").
Definition tables : list PathTable :=
  [books2; table_new (mounted_new (txt "/v1/shelves")) (entry "GET" "/v1/shelves" "/lib.v1.Library/Shelves")].

Definition list_entry : RouteEntry := entry "POST" "/v1/{parent=**}:list" "/lib.v1.Library/List".
Definition shelves_entry : RouteEntry := entry "GET" "/v1/shelves" "/lib.v1.Library/Shelves".

Lemma books_ok : table_ok books.
Proof. by apply table_new_ok. Qed.

Lemma books2_ok : table_ok books2.
Proof. apply table_add_keeps; [apply books_ok|vm_compute; reflexivity|done]. Qed.

Lemma table_add_ok_witness : table_ok books2.
Proof.
  exact (table_add_ok books (txt "/v1/{parent=**}:list") list_entry books_ok
           ltac:(vm_compute; reflexivity) ltac:(done)).
Defined.

Lemma tables_routes_ok : routes_ok tables.
Proof.
  pose proof books2_ok as H1.
  pose proof (table_new_ok (txt "/v1/shelves") shelves_entry ltac:(done)) as H2.
  split.
  - constructor; [apply (tk_methods _ H1)|]. constructor; [apply (tk_methods _ H2)|constructor].
  - constructor; [apply (tk_plain _ H1)|]. constructor; [apply (tk_plain _ H2)|constructor].
  - apply (bool_decide_eq_true_1 _). vm_compute. reflexivity.
Qed.

Definition request : text := txt "/v1/shelves/1/books/2".

Example choose_book : choose false (routes_new tables) 0 GET request = Route 0 0.
Proof. vm_compute. reflexivity. Qed.

Lemma request_url : url_table false tables request 0.
Proof. exists books2. split; vm_compute; reflexivity. Qed.


Lemma table_choose_correct_witness :
  table_choose books2 0 (txt "PUT") (fun _ => true) = Some (MethodNotAllowed 0 (txt "GET, POST, HEAD")).
Proof.
  rewrite (table_choose_correct books2 0 (txt "PUT") (fun _ => true)
             (tk_methods _ books2_ok)).
  vm_compute. reflexivity.
Defined.

Lemma fits_literals_random_access_witness :
  fits_literals [(1, txt "a%2Fb")]%nat 0 (drop 0 [txt "v1"; txt "a%2fb"]) = true <->
  Forall (fun al => exists segment, [txt "v1"; txt "a%2fb"] !! al.1 = Some segment /\
                                    same_octets segment al.2 = true) [(1, txt "a%2Fb")]%nat.
Proof.
  exact (fits_literals_random_access [(1, txt "a%2Fb")]%nat 0 [txt "v1"; txt "a%2fb"]
           ltac:(repeat constructor) ltac:(repeat constructor)).
Defined.

Definition book_binding : Binding := default (mkBinding list_entry None None None [] [] [] []) (p_bindings books2 !! 0%nat).

Lemma bind_params_correct_witness :
  bind_params books2 0 [(txt "tenant", txt "t"); (txt "name", txt "shelves/1/books/2")] =
  Some [(txt "tenant", txt "t"); (txt "name", txt "shelves/1/books/2")].
Proof.
  destruct (bind_params_correct books2 0 book_binding [(txt "tenant", txt "t")]
    [(txt "name", txt "shelves/1/books/2")] ltac:(vm_compute; reflexivity)
    ltac:(split; [intros names H; vm_compute in H; discriminate|
                  intros c i H; vm_compute in H; by apply elem_of_nil in H])
    ltac:(vm_compute; reflexivity)) as (values & Hv & E).
  refine (eq_trans E _). vm_compute in Hv. injection Hv as <-. vm_compute. reflexivity.
Defined.
End Demo.
