(* ===== verification/Status.v ===== *)
(** * gRPC statuses, their HTTP form, and guard rejections

    The code tables and error bodies of [src/transcode/error.rs], the rejections
    of [src/guard.rs] and [src/guard/grpc.rs], the gRPC content types of
    [src/upstream.rs], and the error-details policy. The globs ([globset]) and
    the answers [tonic] and [axum] build are parameters. *)

From S2P Require Import Prelude Rust Json Http.

(** ** Codes *)

(** [tonic::Code]. *)
Inductive Code :=
| COk | CCancelled | CUnknown | CInvalidArgument | CDeadlineExceeded | CNotFound
| CAlreadyExists | CPermissionDenied | CResourceExhausted | CFailedPrecondition | CAborted
| COutOfRange | CUnimplemented | CInternal | CUnavailable | CDataLoss | CUnauthenticated.

#[export] Instance Code_eq_dec : EqDecision Code.
Proof. solve_decision. Defined.

(** [code as i32]. *)
Definition code_number (c : Code) : Z :=
  match c with
  | COk => 0 | CCancelled => 1 | CUnknown => 2 | CInvalidArgument => 3 | CDeadlineExceeded => 4
  | CNotFound => 5 | CAlreadyExists => 6 | CPermissionDenied => 7 | CResourceExhausted => 8
  | CFailedPrecondition => 9 | CAborted => 10 | COutOfRange => 11 | CUnimplemented => 12
  | CInternal => 13 | CUnavailable => 14 | CDataLoss => 15 | CUnauthenticated => 16
  end.

(** [StatusCode::from_u16(499)] is a valid status, so its fallback is dead. *)
Definition grpc_to_http_status (code : Code) : Z :=
  match code with
  | COk => 200
  | CCancelled => 499
  | CUnknown => 500
  | CInvalidArgument => 400
  | CDeadlineExceeded => 504
  | CNotFound => 404
  | CAlreadyExists => 409
  | CPermissionDenied => 403
  | CResourceExhausted => 429
  | CFailedPrecondition => 400
  | CAborted => 409
  | COutOfRange => 400
  | CUnimplemented => 501
  | CInternal => 500
  | CUnavailable => 503
  | CDataLoss => 500
  | CUnauthenticated => 401
  end.

Definition grpc_code_name (code : Code) : text :=
  match code with
  | COk => txt "OK"
  | CCancelled => txt "CANCELLED"
  | CUnknown => txt "UNKNOWN"
  | CInvalidArgument => txt "INVALID_ARGUMENT"
  | CDeadlineExceeded => txt "DEADLINE_EXCEEDED"
  | CNotFound => txt "NOT_FOUND"
  | CAlreadyExists => txt "ALREADY_EXISTS"
  | CPermissionDenied => txt "PERMISSION_DENIED"
  | CResourceExhausted => txt "RESOURCE_EXHAUSTED"
  | CFailedPrecondition => txt "FAILED_PRECONDITION"
  | CAborted => txt "ABORTED"
  | COutOfRange => txt "OUT_OF_RANGE"
  | CUnimplemented => txt "UNIMPLEMENTED"
  | CInternal => txt "INTERNAL"
  | CUnavailable => txt "UNAVAILABLE"
  | CDataLoss => txt "DATA_LOSS"
  | CUnauthenticated => txt "UNAUTHENTICATED"
  end.

(** [http_to_grpc_code] of [guard.rs]. *)
Definition http_to_grpc_code (status : Z) : Code :=
  if status =? 400 then CInvalidArgument
  else if status =? 401 then CUnauthenticated
  else if status =? 403 then CPermissionDenied
  else if status =? 404 then CNotFound
  else if status =? 409 then CAborted
  else if status =? 429 then CResourceExhausted
  else if status =? 499 then CCancelled
  else if status =? 501 then CUnimplemented
  else if status =? 503 then CUnavailable
  else if status =? 504 then CDeadlineExceeded
  else if (500 <=? status) && (status <=? 599) then CInternal
  else CUnknown.

(** ** Error bodies *)

Record RenderedDetails := mkRendered { d_details : list Value; d_opaque : list Value }.
Definition no_details : RenderedDetails := mkRendered [] [].

Definition body (code : Code) (message : text) (details : option RenderedDetails) : Value :=
  Object ([(txt "error", Str (grpc_code_name code)); (txt "message", Str message);
           (txt "code", Num (PosInt (code_number code)))] ++
          match details with
          | None => []
          | Some rendered =>
              (txt "details", Array (d_details rendered)) ::
              match d_opaque rendered with
              | [] => []
              | opaque => [(txt "opaqueDetails", Array opaque)]
              end
          end).

Definition guard_error_body (code : Code) (message : text) : Value := body code message (Some no_details).

Definition MALFORMED_STATUS_MESSAGE : text := txt "upstream returned a malformed error status".

(** [render]: [rendered] is what [StatusDetails::render] made of the status's
    trailer, [None] its [MalformedStatus]; the outer [option] is whether the route
    renders details at all. *)
Definition render (code : Code) (message : text) (details : option (option RenderedDetails))
  : Code * Value * bool :=
  match details with
  | None => (code, body code message None, true)
  | Some (Some rendered) => (code, body code message (Some rendered), true)
  | Some None => (CInternal, body CInternal MALFORMED_STATUS_MESSAGE (Some no_details), false)
  end.

(** [usize] into a JSON number. *)
Definition opaque_entry (base64 : text -> text) (index : Z) (type_url value : text) : Value :=
  Object [(txt "index", Num (PosInt index)); (txt "typeUrl", Str type_url);
          (txt "bytes", Str (base64 value))].

(** ** Type names *)

Definition is_ascii_alphabetic (c : ascii) : bool := is_ascii_lowercase c || is_ascii_uppercase c.

Definition is_identifier (part : text) : bool :=
  match part with
  | [] => false
  | c :: cs => (is_ascii_alphabetic c || bool_decide (c = ch "_")) &&
               forallb (fun c => is_ascii_alphanumeric c || bool_decide (c = ch "_")) cs
  end.

Definition is_full_name (name : text) : bool :=
  match name with [] => false | _ => forallb is_identifier (split (ch ".") name) end.

(** [str::rsplit_once]. *)
Definition rsplit_once (c : ascii) (s : text) : option (text * text) :=
  let! i := rposition (fun b => bool_decide (b = c)) s in
  Some (take i s, drop (S i) s).

Definition any_type_name (type_url : text) : option text :=
  let! parts := rsplit_once (ch "/") type_url in
  if is_full_name parts.2 then Some parts.2 else None.

(** ** Globs, and the policy for error details *)

(** [globset], with [literal_separator(true)] and [*] within a segment. *)
Class GlobLib : Type := {
  Glob : Type;
  glob_build : text -> result Glob text;
  glob_match : Glob -> text -> bool;
}.

Section Policy.
Context {GL : GlobLib}.

(** Why a route pattern is refused: it is relative, or no glob. *)
Inductive pattern_error :=
| Relative (pattern : text)
| BadGlob (pattern reason : text).

(** [path_glob] of [src/shield/matcher.rs]. *)
Definition path_glob (pattern : text) : result Glob pattern_error :=
  match glob_build pattern with Ok g => Ok g | Err e => Err (BadGlob pattern e) end.

Record RouteRule := mkRouteRule {
  rr_matcher : Glob;
  rr_enabled : option bool;
  rr_opaque : option bool;
}.

Record ErrorDetailsPolicy := mkPolicy {
  pl_enabled : bool;
  pl_opaque : bool;
  pl_routes : list RouteRule;
}.

Definition policy_disabled : ErrorDetailsPolicy := mkPolicy false false [].
Definition policy_default : ErrorDetailsPolicy := mkPolicy true false [].

Definition with_opaque_details (p : ErrorDetailsPolicy) (enabled : bool) : ErrorDetailsPolicy :=
  mkPolicy (pl_enabled p) enabled (pl_routes p).

Definition policy_rule (p : ErrorDetailsPolicy) (pattern : text) (enabled opaque : option bool)
  : result ErrorDetailsPolicy pattern_error :=
  if negb (starts_with (txt "/") pattern) then Err (Relative pattern)
  else
    let? m := path_glob pattern in
    Ok (mkPolicy (pl_enabled p) (pl_opaque p) (pl_routes p ++ [mkRouteRule m enabled opaque])).

Definition policy_decide (p : ErrorDetailsPolicy) (route_path : text) (switch : RouteRule -> option bool)
  : option bool :=
  snd <$> find_first (fun rv => glob_match (rr_matcher rv.1) route_path)
            (omap (fun rule => pair rule <$> switch rule) (pl_routes p)).

Definition enabled_for (p : ErrorDetailsPolicy) (route_path : text) : bool :=
  default (pl_enabled p) (policy_decide p route_path rr_enabled).

Definition opaque_for (p : ErrorDetailsPolicy) (route_path : text) : bool :=
  default (pl_opaque p) (policy_decide p route_path rr_opaque).

(** The first rule that matches the route and sets the switch decides it. *)
Lemma policy_decide_first (p : ErrorDetailsPolicy) (route_path : text) (switch : RouteRule -> option bool)
  (b : bool) :
  policy_decide p route_path switch = Some b <->
  exists before rule after, pl_routes p = before ++ rule :: after /\ switch rule = Some b /\
    glob_match (rr_matcher rule) route_path = true /\
    Forall (fun r => switch r = None \/ glob_match (rr_matcher r) route_path = false) before.
Proof.
  unfold policy_decide. induction (pl_routes p) as [|r rs IH].
  { cbn. split; [done|]. intros (before & ? & ? & E & _). by destruct before. }
  cbn [omap list_omap]. destruct (switch r) as [v|] eqn:Es; cbn [fmap option_fmap option_map find_first fst].
  - destruct (glob_match (rr_matcher r) route_path) eqn:Em.
    + cbn. split.
      * intros [= <-]. exists [], r, rs. auto.
      * intros (before & rule & after & E & Hs & Hm & HF). destruct before as [|x before].
        -- injection E as -> _. congruence.
        -- injection E as <- _. inversion HF as [|? ? Hx]; subst. destruct Hx; congruence.
    + rewrite IH. split.
      * intros (before & rule & after & -> & Hs & Hm & HF). exists (r :: before), rule, after. auto 6.
      * intros (before & rule & after & E & Hs & Hm & HF). destruct before as [|x before].
        -- injection E as -> _. congruence.
        -- injection E as <- ->. inversion HF; subst. eauto 8.
  - rewrite IH. split.
    + intros (before & rule & after & -> & Hs & Hm & HF). exists (r :: before), rule, after. auto 6.
    + intros (before & rule & after & E & Hs & Hm & HF). destruct before as [|x before].
      * injection E as -> _. congruence.
      * injection E as <- ->. inversion HF; subst. eauto 8.
Qed.
End Policy.

(** ** Responses and rejections *)

Record Rejection := mkRejection { rj_code : Code; rj_message : text }.

(** [BStream]: what a reader gets of a streamed body, chunk by chunk; [None] aborts
    it. *)
Inductive Body :=
| BJson (v : Value)
| BBytes (b : text)
| BStream (chunks : list (option text)).

Section Responses.
Context {HT : HttpLib}.

(** A response: its status, its headers, its body and the [Rejection] of its
    extensions. *)
Record Response := mkResponse {
  rs_status : Z;
  rs_headers : HeaderMap;
  rs_body : Body;
  rs_rejection : option Rejection;
}.

Definition with_headers (r : Response) (h : HeaderMap) : Response :=
  mkResponse (rs_status r) h (rs_body r) (rs_rejection r).

(** The headers [axum]'s [Json] gives a response. *)
Context (json_headers : HeaderMap).

Definition json_response (status : Z) (v : Value) : Response :=
  mkResponse status json_headers (BJson v) None.

Definition mark_rejection (response : Response) (code : Code) (message : text) : Response :=
  mkResponse (rs_status response) (rs_headers response) (rs_body response)
    (Some (mkRejection code message)).

Definition reject (code : Code) (message : text) : Response :=
  mark_rejection (json_response (grpc_to_http_status code) (guard_error_body code message)) code message.

Definition render_response (code : Code) (message : text) (details : option (option RenderedDetails))
  : Response * bool :=
  let '(code, v, faithful) := render code message details in
  (json_response (grpc_to_http_status code) v, faithful).

Definition malformed_response (details : bool) : Response :=
  json_response 500 (body CInternal (txt "upstream returned a malformed response")
                       (if details then Some no_details else None)).

(** ** The gRPC protocols ([src/upstream.rs]) *)

Inductive GrpcProtocol := Grpc | Web | WebText.

#[export] Instance GrpcProtocol_eq_dec : EqDecision GrpcProtocol.
Proof. solve_decision. Defined.

Definition CONTENT_TYPE : text := txt "content-type".

Definition protocol_content_type (p : GrpcProtocol) : text :=
  match p with
  | Grpc => txt "application/grpc"
  | Web => txt "application/grpc-web+proto"
  | WebText => txt "application/grpc-web-text+proto"
  end.

Fixpoint strip_prefix_ignore_case (p s : text) : option text :=
  match p, s with
  | [], _ => Some s
  | a :: p', b :: s' =>
      if decide (byte_lower a = byte_lower b) then strip_prefix_ignore_case p' s' else None
  | _ :: _, [] => None
  end.

Definition codec_suffix (rest : text) : bool :=
  match rest with [] => true | c :: _ => bool_decide (c = ch "+") end.

Definition web_protocol (rest : text) : option GrpcProtocol :=
  let '(protocol, rest) :=
    match strip_prefix_ignore_case (txt "-text") rest with
    | Some rest => (WebText, rest)
    | None => (Web, rest)
    end in
  if codec_suffix rest then Some protocol else None.

Definition grpc_protocol (headers : HeaderMap) : option GrpcProtocol :=
  let! value := hm_get headers CONTENT_TYPE in
  let media := trim_ascii (match position (fun b => bool_decide (b = ch ";")) value with
                           | Some end_ => take end_ value
                           | None => value
                           end) in
  let! rest := strip_prefix_ignore_case (txt "application/grpc") media in
  if codec_suffix rest then Some Grpc
  else let! rest := strip_prefix_ignore_case (txt "-web") rest in web_protocol rest.

Definition is_grpc_web_preflight (method : text) (headers : HeaderMap) : bool :=
  bool_decide (method = txt "OPTIONS") && hm_contains headers (txt "origin") &&
  hm_contains headers (txt "access-control-request-method") &&
  existsb (fun name => eq_ignore_ascii_case (trim_ascii name) (txt "x-grpc-web"))
    (mjoin (split (ch ",") <$> hm_get_all headers (txt "access-control-request-headers"))).

(** ** Rejections in gRPC ([src/guard/grpc.rs]) *)

(** [tonic::Status::into_http], and [StatusCode::canonical_reason]. *)
Context (status_into_http : Code -> text -> Response) (canonical_reason : Z -> option text).

(** A trailers-only answer under the content type of [protocol]. *)
Definition in_protocol (response : Response) (protocol : GrpcProtocol) : Response :=
  if decide (protocol = Grpc) then response
  else with_headers response (hm_insert (rs_headers response) CONTENT_TYPE (protocol_content_type protocol)).

Definition trailers_only (code : Code) (message : text) (protocol : GrpcProtocol) : Response :=
  in_protocol (status_into_http code message) protocol.

Definition BODY_HEADERS : list text := [CONTENT_TYPE; txt "content-length"; txt "transfer-encoding"].

(** The headers of a rejection become metadata, those of its body apart. *)
Definition carry_headers (answer : HeaderMap) (parts : HeaderMap) : HeaderMap :=
  foldl (fun h kv => if decide (kv.1 ∈ BODY_HEADERS) then h
                     else foldl (fun h v => hm_append h kv.1 v) h kv.2)
    answer (hm_entries parts).

Definition in_grpc (response : Response) (protocol : GrpcProtocol) : Response :=
  let answer code message :=
    let a := trailers_only code message protocol in
    with_headers a (carry_headers (rs_headers a) (rs_headers response)) in
  match rs_rejection response with
  | Some rejection => answer (rj_code rejection) (rj_message rejection)
  | None =>
      match grpc_protocol (rs_headers response) with
      | Some _ => response
      | None => answer (http_to_grpc_code (rs_status response))
                  (default [] (canonical_reason (rs_status response)))
      end
  end.
End Responses.

(** ** Correctness *)

(** The codes with an HTTP status of their own. *)
Definition faithful_code (c : Code) : bool :=
  match c with
  | COk | CUnknown | CAlreadyExists | CFailedPrecondition | COutOfRange | CDataLoss => false
  | _ => true
  end.

(** The two status tables agree. Going to HTTP and back keeps the HTTP status
    of every error code, and keeps the code itself exactly for the eleven codes
    with an HTTP status of their own; ALREADY_EXISTS, FAILED_PRECONDITION,
    OUT_OF_RANGE, UNKNOWN and DATA_LOSS come back as another code. *)
Theorem code_round_trip (c : Code) :
  (c = COk \/ grpc_to_http_status (http_to_grpc_code (grpc_to_http_status c)) = grpc_to_http_status c) /\
  (http_to_grpc_code (grpc_to_http_status c) = c <-> faithful_code c = true).
Proof. split; [destruct c; first [right; vm_compute; reflexivity | left; reflexivity]|destruct c; by split]. Qed.

(** Names and numbers tell the codes apart. *)
Lemma grpc_code_name_inj (c d : Code) : grpc_code_name c = grpc_code_name d -> c = d.
Proof. by destruct c, d. Qed.

Section InGrpc.
Context {HT : HttpLib} {HL : HttpLaws HT}.

Lemma carry_entries_lookup (es : list (text * list text)) (h : HeaderMap) (n : text) :
  NoDup es.*1 ->
  hm_get_all (foldl (fun h kv => if decide (kv.1 ∈ BODY_HEADERS) then h
                                 else foldl (fun h v => hm_append h kv.1 v) h kv.2) h es) n =
  hm_get_all h n ++
  if decide (n ∈ BODY_HEADERS) then [] else default [] (assoc n es).
Proof.
  revert h. induction es as [|[k vs] es IH]; intros h Hd; cbn [foldl assoc fst snd].
  { case_decide; by rewrite app_nil_r. }
  inversion Hd as [|? ? Hk Hd']; subst. rewrite (IH _ Hd').
  destruct (decide (k = n)) as [->|Hne].
  - rewrite assoc_not_in by done. cbn [default from_option]. destruct (decide (n ∈ BODY_HEADERS)); [done|].
    rewrite append_all_lookup, decide_True, app_nil_r by done. done.
  - f_equal. destruct (decide (k ∈ BODY_HEADERS)); [done|].
    rewrite append_all_lookup, decide_False by done. by rewrite app_nil_r.
Qed.

Lemma carry_headers_lookup (answer parts : HeaderMap) (n : text) :
  hm_get_all (carry_headers answer parts) n =
  hm_get_all answer n ++ if decide (n ∈ BODY_HEADERS) then [] else hm_get_all parts n.
Proof.
  unfold carry_headers. rewrite carry_entries_lookup by apply entries_nodup. by rewrite assoc_entries.
Qed.

(** A guard's rejection reaches a gRPC client as its own status. The answer
    is the trailers-only answer of the rejection's code and message, followed by
    every header of the rejection ([Retry-After], [RateLimit-*],
    [WWW-Authenticate], [Location]) as metadata, all values in order, except the
    headers that describe the HTTP body; the HTTP body is gone. *)
Theorem rejection_in_grpc (status_into_http : Code -> text -> Response)
  (canonical_reason : Z -> option text) (response : Response) (r : Rejection) (protocol : GrpcProtocol)
  (n : text) :
  rs_rejection response = Some r ->
  let trailers := trailers_only status_into_http (rj_code r) (rj_message r) protocol in
  let answer := in_grpc status_into_http canonical_reason response protocol in
  rs_status answer = rs_status trailers /\ rs_body answer = rs_body trailers /\
  hm_get_all (rs_headers answer) n =
    hm_get_all (rs_headers trailers) n ++
    if decide (n ∈ BODY_HEADERS) then [] else hm_get_all (rs_headers response) n.
Proof.
  intros Hr. unfold in_grpc. rewrite Hr. cbn. split; [done|]. split; [done|]. apply carry_headers_lookup.
Qed.
End InGrpc.

Module Demo.
Import Model.

Definition answer (c : Code) (message : text) : Response :=
  mkResponse 200 (hm_insert (hm_insert hm_empty CONTENT_TYPE (txt "application/grpc"))
                    (txt "grpc-status") (show_u64 (code_number c))) (BBytes []) None.

Definition refused : Response :=
  let r := reject (hm_insert hm_empty CONTENT_TYPE (txt "application/json")) CUnavailable (txt "down") in
  with_headers r (hm_insert (rs_headers r) (txt "retry-after") (txt "300")).

Lemma rejection_in_grpc_witness :
  hm_get_all (rs_headers (in_grpc answer (fun _ => None) refused Web)) (txt "retry-after") = [txt "300"] /\
  hm_get_all (rs_headers (in_grpc answer (fun _ => None) refused Web)) CONTENT_TYPE =
    [txt "application/grpc-web+proto"].
Proof.
  pose proof (fun n => proj2 (proj2 (rejection_in_grpc answer (fun _ => None) refused
    (mkRejection CUnavailable (txt "down")) Web n eq_refl))) as H.
  split; refine (eq_trans (H _) _); reflexivity.
Defined.
End Demo.
