(* ===== verification/Response.v ===== *)
(** * Response headers ([src/transcode/response.rs])

    What of the upstream's response metadata becomes HTTP response headers, the
    status its [x-http-code] sets, and the response they go on. A
    [tonic::metadata::MetadataMap] is a header map. *)

From S2P Require Import Prelude Rust Json Http Status.

Definition HTTP_CODE_KEY : text := txt "x-http-code".

Definition WITHHELD : list text :=
  [txt "content-type"; txt "connection"; txt "keep-alive"; txt "proxy-connection"; txt "te"; txt "trailer";
   txt "transfer-encoding"; txt "upgrade"; txt "content-length"].

Definition is_withheld (name : text) : bool :=
  starts_with (txt "grpc-") name || ends_with (txt "-bin") name || bool_decide (name ∈ WITHHELD).

Inductive HttpCode :=
| HAbsent
| HSet (status : Z)
| HInvalid.

#[export] Instance HttpCode_eq : EqDecision HttpCode.
Proof. solve_decision. Defined.

(** The [u16] fold over three digits stays below 1000, which [StatusCode::from_u16]
    takes from 100 on. *)
Definition parse_http_code (value : text) : option Z :=
  if negb (length value =? 3)%nat || negb (forallb is_ascii_digit value) then None
  else
    let n := foldl (fun n digit => n * 10 + (code digit - 48)) 0 value in
    if negb ((200 <=? n) && (n <=? 599)) then None else Some n.

Definition record_http_code (slot : HttpCode) (value : text) : HttpCode :=
  match slot, parse_http_code value with
  | HAbsent, Some status => HSet status
  | _, _ => HInvalid
  end.

Section Upstream.
Context {HT : HttpLib}.

Record UpstreamHeaders := mkUpstream { up_headers : HeaderMap; up_http_code : HttpCode }.

Definition upstream_default : UpstreamHeaders := mkUpstream hm_empty HAbsent.

(** How [absorb] treats the values of the key it is on: the entry it appends to, or
    [x-http-code], or nothing. *)
Inductive Current :=
| CForward (name : text)
| CHttpCode
| CDrop.

(** One item of the iteration. *)
Definition absorb_item (deny : list text) (s : UpstreamHeaders * Current) (item : option text * text)
    : UpstreamHeaders * Current :=
  let '(u, current) := s in
  let '(name, value) := item in
  match name with
  | Some name =>
      if decide (name = HTTP_CODE_KEY) then
        (mkUpstream (up_headers u) (record_http_code (up_http_code u) value), CHttpCode)
      else if negb (is_withheld name) && negb (bool_decide (name ∈ deny)) then
        (mkUpstream (if hm_contains (up_headers u) name then hm_append (up_headers u) name value
                     else hm_insert (up_headers u) name value) (up_http_code u), CForward name)
      else (u, CDrop)
  | None =>
      match current with
      | CForward name => (mkUpstream (hm_append (up_headers u) name value) (up_http_code u), current)
      | CHttpCode => (mkUpstream (up_headers u) (record_http_code (up_http_code u) value), current)
      | CDrop => (u, current)
      end
  end.

(** [UpstreamHeaders::absorb]. *)
Definition absorb (u : UpstreamHeaders) (metadata : HeaderMap) (deny : list text) : UpstreamHeaders :=
  (foldl (absorb_item deny) (u, CDrop) (into_iter metadata)).1.

(** [UpstreamHeaders::status]; the error is [InvalidHttpCode]. *)
Definition upstream_status (u : UpstreamHeaders) : result (option Z) unit :=
  match up_http_code u with
  | HAbsent => Ok None
  | HSet status => Ok (Some status)
  | HInvalid => Err tt
  end.

(** One header of the response over those of the upstream; the name of the values
    that follow it. *)
Definition own_item (s : HeaderMap * option text) (item : option text * text) : HeaderMap * option text :=
  let '(h, last) := s in
  let '(name, value) := item in
  match name with
  | Some name => (hm_insert h name value, Some name)
  | None => (match last with Some name => hm_append h name value | None => h end, last)
  end.

Definition hm_is_empty (m : HeaderMap) : bool := match hm_entries m with [] => true | _ => false end.

Definition with_upstream_headers (response : Response) (upstream : HeaderMap) : Response :=
  if hm_is_empty upstream then response
  else with_headers response (foldl own_item (upstream, None) (into_iter (rs_headers response))).1.

(** [build] of [response.rs]. *)
Definition build_response (status : Z) (headers : HeaderMap) (content_type : option text) (b : Body) : Response :=
  let no_content := (status =? 204) || (status =? 205) || (status =? 304) in
  let b := if no_content then BBytes [] else b in
  let headers := match content_type with
                 | Some content_type => if no_content then headers else hm_insert headers CONTENT_TYPE content_type
                 | None => headers
                 end in
  mkResponse status headers b None.
End Upstream.

(** * Laws *)

Section Laws.
Context {HT : HttpLib} {HL : HttpLaws HT}.

Lemma is_empty_get (m : HeaderMap) : hm_is_empty m = true -> forall n, hm_get_all m n = [].
Proof.
  unfold hm_is_empty. intros H n. pose proof (assoc_entries m n) as E. by destruct (hm_entries m).
Qed.

(** Whether the values of a key become response headers. *)
Definition forwards (deny : list text) (name : text) : bool :=
  bool_decide (name <> HTTP_CODE_KEY) && negb (is_withheld name) && negb (bool_decide (name ∈ deny)).

Lemma absorb_rest (deny : list text) (u : UpstreamHeaders) (current : Current) (vs : list text) :
  foldl (absorb_item deny) (u, current) (pair None <$> vs) =
  match current with
  | CForward name =>
      (mkUpstream (foldl (fun h v => hm_append h name v) (up_headers u) vs) (up_http_code u), current)
  | CHttpCode => (mkUpstream (up_headers u) (foldl record_http_code (up_http_code u) vs), current)
  | CDrop => (u, current)
  end.
Proof.
  revert u. induction vs as [|v vs IH]; intros [h c]; [by destruct current|].
  cbn [fmap list_fmap foldl absorb_item]. by destruct current; rewrite IH.
Qed.

(** The values of one key. *)
Lemma absorb_key (deny : list text) (s : UpstreamHeaders * Current) (name : text) (vs : list text) :
  let u := (foldl (absorb_item deny) s (key_items name vs)).1 in
  (forall n, hm_get_all (up_headers u) n =
     hm_get_all (up_headers s.1) n ++ if decide (name = n) then if forwards deny n then vs else [] else []) /\
  up_http_code u = if decide (name = HTTP_CODE_KEY) then foldl record_http_code (up_http_code s.1) vs
                   else up_http_code s.1.
Proof.
  destruct s as [[h c] current]. destruct vs as [|v vs]; cbn [key_items foldl absorb_item].
  { split; [intros n|by case_decide]. cbn. rewrite Tauto.if_same. by case_decide; rewrite app_nil_r. }
  unfold forwards. case_decide as Hk; [subst name|].
  { rewrite absorb_rest. cbn. split; [|done]. intros n. destruct (decide (HTTP_CODE_KEY = n)) as [<-|].
    - rewrite bool_decide_eq_false_2 by tauto. cbn. by rewrite app_nil_r.
    - by rewrite app_nil_r. }
  destruct (is_withheld name) eqn:Ew; [|destruct (bool_decide (name ∈ deny)) eqn:Ed]; cbn [negb andb];
    rewrite absorb_rest; cbn; split; try done; intros n.
  - destruct (decide (name = n)) as [<-|]; [|by rewrite app_nil_r].
    rewrite Ew, bool_decide_eq_true_2 by done. cbn. by rewrite app_nil_r.
  - destruct (decide (name = n)) as [<-|]; [|by rewrite app_nil_r].
    rewrite Ew, Ed, bool_decide_eq_true_2 by done. cbn. by rewrite app_nil_r.
  - rewrite append_all_lookup. destruct (decide (name = n)) as [<-|Hne].
    + rewrite Ew, Ed, bool_decide_eq_true_2 by done. cbn. unfold hm_contains.
      destruct (hm_get_all h name) eqn:E; header_simpl; [done|]. rewrite E. by rewrite <- app_assoc.
    + destruct (hm_contains h name); header_simpl; by rewrite app_nil_r.
Qed.

Lemma absorb_entries (deny : list text) (es : list (text * list text)) (s : UpstreamHeaders * Current) :
  NoDup es.*1 ->
  let u := (foldl (fun s kv => foldl (absorb_item deny) s (key_items kv.1 kv.2)) s es).1 in
  (forall n, hm_get_all (up_headers u) n =
     hm_get_all (up_headers s.1) n ++ if forwards deny n then default [] (assoc n es) else []) /\
  up_http_code u = foldl record_http_code (up_http_code s.1) (default [] (assoc HTTP_CODE_KEY es)).
Proof.
  revert s. induction es as [|[k vs] es IH]; intros s Hd; cbn [foldl fst snd].
  { cbn. split; [|done]. intros n. by rewrite Tauto.if_same, app_nil_r. }
  inversion Hd as [|? ? Hk Hd']; subst. destruct (IH (foldl (absorb_item deny) s (key_items k vs)) Hd') as [IH1 IH2].
  pose proof (absorb_key deny s k vs) as [K1 K2]. cbn zeta in *. split.
  - intros n. rewrite IH1, K1, <- app_assoc. f_equal. cbn [assoc].
    destruct (decide (k = n)) as [->|]; [|done]. rewrite (assoc_not_in n es) by done. cbn.
    destruct (forwards deny n); by rewrite ?app_nil_r.
  - rewrite IH2, K2. cbn [assoc]. destruct (decide (k = HTTP_CODE_KEY)) as [->|]; [|done].
    by rewrite (assoc_not_in _ es).
Qed.

(** Absorbing metadata appends the forwarded values of every key, all of them in
    order, and folds the values of [x-http-code] into the status. *)
Lemma absorb_ok (u : UpstreamHeaders) (metadata : HeaderMap) (deny : list text) :
  (forall n, hm_get_all (up_headers (absorb u metadata deny)) n =
     hm_get_all (up_headers u) n ++ if forwards deny n then hm_get_all metadata n else []) /\
  up_http_code (absorb u metadata deny) =
    foldl record_http_code (up_http_code u) (hm_get_all metadata HTTP_CODE_KEY).
Proof.
  unfold absorb, into_iter. rewrite foldl_items.
  destruct (absorb_entries deny (hm_entries metadata) (u, CDrop) (entries_nodup _)) as [H1 H2]. cbn zeta in *.
  rewrite H2, assoc_entries. split; [|done]. intros n. by rewrite H1, assoc_entries.
Qed.

(** What the values of [x-http-code] in an answer, in order, say of its status:
    nothing, a status, or an error. *)
Definition status_of (values : list text) : result (option Z) unit :=
  match values with
  | [] => Ok None
  | [v] => match parse_http_code v with Some status => Ok (Some status) | None => Err tt end
  | _ => Err tt
  end.

Lemma record_invalid (vs : list text) : foldl record_http_code HInvalid vs = HInvalid.
Proof. by induction vs. Qed.

Lemma recorded_status (u : UpstreamHeaders) (vs : list text) :
  up_http_code u = foldl record_http_code HAbsent vs -> upstream_status u = status_of vs.
Proof.
  unfold upstream_status. intros ->. destruct vs as [|v vs]; [done|]. cbn [foldl record_http_code status_of].
  destruct (parse_http_code v) as [status|]; destruct vs as [|w vs]; try done; cbn [foldl].
  - cbn. by rewrite record_invalid.
  - by rewrite record_invalid.
Qed.

Lemma parse_http_code_range (v : text) (status : Z) : parse_http_code v = Some status -> 200 <= status <= 599.
Proof.
  unfold parse_http_code. destruct (negb _ || negb _); [done|]. destruct (negb _) eqn:E; [done|].
  intros [= <-]. apply negb_false_iff, andb_true_iff in E. lia.
Qed.

Lemma own_key (s : HeaderMap * option text) (name : text) (vs : list text) :
  vs <> [] ->
  forall n, hm_get_all (foldl own_item s (key_items name vs)).1 n = if decide (name = n) then vs else hm_get_all s.1 n.
Proof.
  destruct s as [h last], vs as [|v vs]; [done|]. intros _ n. cbn [key_items foldl own_item].
  assert (H : forall h', (foldl own_item (h', Some name) (pair None <$> vs)).1 =
                         foldl (fun h v => hm_append h name v) h' vs).
  { clear. induction vs as [|v vs IH]; intros h'; [done|]. cbn. apply IH. }
  rewrite H, append_all_lookup. cbn [fst]. case_decide; header_simpl; [done|]. by rewrite app_nil_r.
Qed.

Lemma own_entries (es : list (text * list text)) (s : HeaderMap * option text) (n : text) :
  NoDup es.*1 -> Forall (fun kv => kv.2 <> []) es ->
  hm_get_all (foldl (fun s kv => foldl own_item s (key_items kv.1 kv.2)) s es).1 n =
  match assoc n es with Some vs => vs | None => hm_get_all s.1 n end.
Proof.
  revert s. induction es as [|[k vs] es IH]; intros s Hd HF; cbn [foldl assoc fst snd]; [done|].
  inversion Hd as [|? ? Hk Hd']; subst. inversion HF as [|? ? Hv HF']; subst.
  rewrite (IH _ Hd' HF'), own_key by done. destruct (decide (k = n)) as [->|]; [|done]. by rewrite assoc_not_in.
Qed.

Lemma entries_values (m : HeaderMap) : Forall (fun kv => kv.2 <> []) (hm_entries m).
Proof. apply Forall_forall. intros [k vs] Hin. by apply entries_lookup in Hin as [_ ?]. Qed.

(** What the proxy writes replaces what the upstream says under the same name. *)
Lemma with_upstream_ok (response : Response) (upstream : HeaderMap) :
  let r := with_upstream_headers response upstream in
  rs_status r = rs_status response /\ rs_body r = rs_body response /\
  forall n, hm_get_all (rs_headers r) n =
    match hm_get_all (rs_headers response) n with [] => hm_get_all upstream n | own => own end.
Proof.
  cbn. unfold with_upstream_headers. destruct (hm_is_empty upstream) eqn:E.
  { split; [done|]. split; [done|]. intros n. rewrite (is_empty_get upstream E). by destruct (hm_get_all _ n). }
  split; [done|]. split; [done|]. intros n. cbn [with_headers rs_headers]. unfold into_iter.
  rewrite foldl_items, own_entries by (apply entries_nodup || apply entries_values). cbn [fst].
  pose proof (assoc_entries_cases (rs_headers response) n) as H.
  destruct (assoc n (hm_entries (rs_headers response))) as [vs|]; [|by rewrite H].
  destruct H as [-> Hne]. by destruct vs.
Qed.

Lemma build_response_headers (status : Z) (h : HeaderMap) (content_type : option text) (b : Body) (n : text) :
  hm_get_all (rs_headers (build_response status h content_type b)) n =
  match content_type with
  | Some value =>
      if bool_decide (status ∈ [204; 205; 304]) then hm_get_all h n
      else if decide (n = CONTENT_TYPE) then [value] else hm_get_all h n
  | None => hm_get_all h n
  end.
Proof.
  unfold build_response. cbn [rs_headers]. destruct content_type as [value|]; [|done].
  replace ((status =? 204) || (status =? 205) || (status =? 304)) with (bool_decide (status ∈ [204; 205; 304])).
  - case_bool_decide; [done|]. rewrite get_all_insert. case_decide; case_decide; congruence || done.
  - apply eq_true_iff_eq. rewrite bool_decide_eq_true, !orb_true_iff, !Z.eqb_eq, !elem_of_cons, elem_of_nil. tauto.
Qed.
End Laws.
