(* ===== verification/ShieldRules.v ===== *)
(** * Rate-limit rules and tiers ([src/shield/rate.rs], [src/shield/matcher.rs],
    the limit resolution of [src/shield/resolve.rs])

    The globs, SHA-256 and the header names are parameters ([GlobLib], [ShaLib],
    [HttpLib]). [None] inside a compiled profile stands for a panic of the
    [Duration] arithmetic of [Gcra::from_profile]. *)

From Stdlib Require Import Floats.SpecFloat.
From S2P Require Import Prelude Rust Json Http Gcra Status.

(** ** Rates *)

Record Rate := mkRate { rt_limit : Z; rt_window : Z }.

Inductive rate_error :=
| BadCount (raw : text)
| BadUnit (unit : text).

Definition parse_unit (unit : text) : result Z rate_error :=
  let u := to_ascii_lowercase unit in
  if decide (u ∈ [txt "s"; txt "sec"; txt "secs"; txt "second"; txt "seconds"]) then Ok (from_secs 1)
  else if decide (u ∈ [txt "m"; txt "min"; txt "mins"; txt "minute"; txt "minutes"]) then Ok (from_secs 60)
  else if decide (u ∈ [txt "h"; txt "hr"; txt "hour"; txt "hours"]) then Ok (from_secs 3600)
  else Err (BadUnit u).

(** [Rate::parse]. *)
Definition rate_parse (raw : text) (default_window : Z) : result Rate rate_error :=
  let raw := trim raw in
  match split_once (ch "/") raw with
  | None =>
      match parse_u64 raw with
      | Some limit => Ok (mkRate limit default_window)
      | None => Err (BadCount raw)
      end
  | Some (count, unit) =>
      match parse_u64 (trim count) with
      | Some limit => let? window := parse_unit (trim unit) in Ok (mkRate limit window)
      | None => Err (BadCount count)
      end
  end.

(** ** Tiers *)

Definition BARE_COUNT_WINDOW : Z := from_secs 60.

Record CompiledProfile := mkCompiled { cp_gcra : Gcra; cp_limit : Z; cp_window : Z }.

Record LimitProfileConfig := mkProfileConfig { lp_rate : text; lp_burst : option Z }.

Inductive profile_error :=
| BadRate (e : rate_error)
| ZeroRate (rate : text)
| ZeroBurst.

Definition compile_profile (cfg : LimitProfileConfig) : result (option CompiledProfile) profile_error :=
  match rate_parse (lp_rate cfg) BARE_COUNT_WINDOW with
  | Err e => Err (BadRate e)
  | Ok rate =>
      if rt_limit rate =? 0 then Err (ZeroRate (lp_rate cfg))
      else if decide (lp_burst cfg = Some 0) then Err ZeroBurst
      else
        let burst := default (rt_limit rate) (lp_burst cfg) in
        Ok (let! gcra := from_profile (mkProfile (rt_limit rate) (rt_window rate) burst) in
            Some (mkCompiled gcra (rt_limit rate) (rt_window rate)))
  end.

(** The profiles by name, in the order the map iterates them. *)
Definition compile_profiles (configs : list (text * LimitProfileConfig))
  : result (option (gmap text CompiledProfile)) profile_error :=
  let? compiled := collect_results
    (fun nc => let? p := compile_profile nc.2 in Ok (pair nc.1 <$> p)) configs in
  Ok (list_to_map <$> mapM id compiled).

(** ** Rules *)

(** [sha2::Sha256::digest]. *)
Class ShaLib : Type := { sha256 : text -> text }.
Class ShaLaws (L : ShaLib) : Prop := { sha256_length s : length (sha256 s) = 32%nat }.

Inductive KeySource :=
| KIp
| KHeader (name : text)
| KJwtClaim (claim : text).

Inductive Phase := PreAuth | PostAuth.

#[export] Instance KeySource_eq_dec : EqDecision KeySource.
Proof. solve_decision. Defined.
#[export] Instance Phase_eq_dec : EqDecision Phase.
Proof. solve_decision. Defined.

(** [KeySourceConfig] has the same sources. *)
Record RateRuleConfig := mkRuleConfig {
  rc_pattern : text;
  rc_key : KeySource;
  rc_profile : option text;
}.

Inductive rule_error :=
| RelativeRule (pattern : text)
| UnknownProfile (pattern name : text)
| BadHeader (pattern name : text)
| BadPattern (e : pattern_error).

Section Rules.
Context {HT : HttpLib} {GL : GlobLib} {SH : ShaLib}.

Record CompiledRule := mkRule {
  cr_matcher : Glob;
  cr_key : KeySource;
  cr_profile : option text;
  cr_phase : Phase;
  cr_fingerprint : text;
}.

Definition hex_digit (d : Z) : ascii := if d <? 10 then of_code (48 + d) else of_code (87 + d).

(** The first 16 bytes of the digest as 32 hex digits. *)
Definition short_hash_hex (input : text) : text :=
  mjoin ((fun b => [hex_digit (Z.shiftr (code b) 4); hex_digit (Z.land (code b) 15)])
           <$> take 16 (sha256 input)).

Definition short_hash (input : text) : text := short_hash_hex input.

Definition UNIT_SEPARATOR : text := [of_code 31].

Definition key_repr (key : KeySource) : text :=
  match key with
  | KIp => txt "ip"
  | KHeader name => txt "hdr:" ++ name
  | KJwtClaim claim => txt "jwt:" ++ claim
  end.

Definition compile_rule (profiles : gmap text CompiledProfile) (c : RateRuleConfig)
  : result CompiledRule rule_error :=
  if negb (starts_with (txt "/") (rc_pattern c)) then Err (RelativeRule (rc_pattern c)) else
  let unknown := match rc_profile c with
                 | Some name => if decide (is_Some (profiles !! name)) then None else Some name
                 | None => None
                 end in
  match unknown with
  | Some name => Err (UnknownProfile (rc_pattern c) name)
  | None =>
      let? key := match rc_key c with
                  | KIp => Ok KIp
                  | KHeader name =>
                      match header_name name with
                      | Some hn => Ok (KHeader hn)
                      | None => Err (BadHeader (rc_pattern c) name)
                      end
                  | KJwtClaim claim => Ok (KJwtClaim claim)
                  end in
      let phase := match key with KJwtClaim _ => PostAuth | KIp | KHeader _ => PreAuth end in
      let fingerprint :=
        short_hash (rc_pattern c ++ UNIT_SEPARATOR ++ key_repr key ++ UNIT_SEPARATOR ++
                    default [] (rc_profile c)) in
      match path_glob (rc_pattern c) with
      | Err e => Err (BadPattern e)
      | Ok matcher => Ok (mkRule matcher key (rc_profile c) phase fingerprint)
      end
  end.

Definition compile_rules (configs : list RateRuleConfig) (profiles : gmap text CompiledProfile)
  : result (list CompiledRule) rule_error :=
  collect_results (compile_rule profiles) configs.
End Rules.

(** ** Limits from claims and from the limit service *)

Definition PER_MINUTE : Z := from_secs 60.

(** [profile_from_numbers]; the outer [option] is its result, the inner one a
    panic of [from_profile]. *)
Definition profile_from_numbers (rpm burst : Z) : option (option CompiledProfile) :=
  if rpm =? 0 then None
  else Some (let! gcra := from_profile (mkProfile rpm PER_MINUTE (Z.max burst 1)) in
             Some (mkCompiled gcra rpm PER_MINUTE)).

Record JwtLimits := mkJwtLimits { jl_tier : text; jl_rpm : text; jl_burst : text }.

(** [JwtLimits::resolve]. *)
Definition jwt_resolve (float_text : spec_float -> text) (j : JwtLimits) (claims : Value)
  (profiles : gmap text CompiledProfile) : option (option CompiledProfile) :=
  match (let! tier := claim_str float_text claims (jl_tier j) in profiles !! tier) with
  | Some profile => Some (Some profile)
  | None =>
      match claim_u64 claims (jl_rpm j) with
      | Some rpm => profile_from_numbers rpm (default rpm (claim_u64 claims (jl_burst j)))
      | None => None
      end
  end.

Record LimitResponse := mkLimitResponse {
  lr_tier : option text;
  lr_rate_per_min : option Z;
  lr_burst : option Z;
}.

Definition map_response (profiles : gmap text CompiledProfile) (b : LimitResponse)
  : option (option CompiledProfile) :=
  match (let! tier := lr_tier b in profiles !! tier) with
  | Some profile => Some (Some profile)
  | None =>
      let! rpm := lr_rate_per_min b in
      profile_from_numbers rpm (default rpm (lr_burst b))
  end.

(** ** Compiled tiers are well formed *)

(** A usable tier: a positive limit, its window, a well-formed limiter. *)
Definition profile_ok (p : CompiledProfile) : Prop :=
  0 < cp_limit p <= U64_MAX /\ 0 < cp_window p <= from_secs 3600 /\ wf (cp_gcra p).

Lemma parse_uint_range (max : Z) (s : text) (n : Z) : 0 <= max -> parse_uint max s = Some n -> 0 <= n <= max.
Proof.
  intros Hmax. assert (Hd : forall s acc n, 0 <= acc <= max -> parse_digits max acc s = Some n -> 0 <= n <= max).
  { clear s n. intros s. induction s as [|c s IH]; intros acc n Hacc; cbn [parse_digits].
    { by intros [= <-]. }
    destruct (digit_value c) as [d|] eqn:Hdv; cbn; [|done]. apply digit_value_range in Hdv.
    destruct (Z.ltb_spec max (acc * 10 + d)); [done|]. apply IH. lia. }
  unfold parse_uint. destruct s as [|c s]; [done|]. case_decide.
  - destruct s; [done|]. apply Hd. lia.
  - apply Hd. lia.
Qed.

Lemma parse_unit_window (unit : text) (w : Z) : parse_unit unit = Ok w -> 0 < w <= from_secs 3600.
Proof.
  unfold parse_unit, from_secs, NANOS_PER_SEC. repeat case_decide; intros [= <-]; lia.
Qed.

Lemma rate_parse_range (raw : text) (r : Rate) :
  rate_parse raw BARE_COUNT_WINDOW = Ok r -> 0 <= rt_limit r <= U64_MAX /\ 0 < rt_window r <= from_secs 3600.
Proof.
  unfold rate_parse. destruct (split_once _ _) as [[count unit]|].
  - destruct (parse_u64 _) as [limit|] eqn:E; [|done]. apply parse_uint_range in E; [|done].
    destruct (parse_unit _) as [w|] eqn:Eu; cbn; [|done]. apply parse_unit_window in Eu.
    by intros [= <-].
  - destruct (parse_u64 _) as [limit|] eqn:E; [|done]. apply parse_uint_range in E; [|done].
    intros [= <-]. cbn. split; [done|]. unfold BARE_COUNT_WINDOW, from_secs, NANOS_PER_SEC. lia.
Qed.

(** Compiling a tier never panics, and what it compiles is what was written:
    a positive limit, a burst that defaults to one window of the rate, and a
    well-formed limiter of exactly that burst whose interval is the window over
    the limit. A zero rate or burst is refused. *)
Lemma compile_profile_ok (cfg : LimitProfileConfig) (o : option CompiledProfile) :
  (forall b, lp_burst cfg = Some b -> 0 <= b <= U64_MAX) ->
  compile_profile cfg = Ok o ->
  exists p r, o = Some p /\ profile_ok p /\ rate_parse (lp_rate cfg) BARE_COUNT_WINDOW = Ok r /\
    cp_limit p = rt_limit r /\ cp_window p = rt_window r /\
    g_burst (cp_gcra p) = default (rt_limit r) (lp_burst cfg) /\
    emission_interval (cp_gcra p) = Z.max (rt_window r / rt_limit r) 1.
Proof.
  intros Hb. unfold compile_profile. destruct (rate_parse _ _) as [r|] eqn:Er; [|done].
  destruct (rate_parse_range _ _ Er) as [Hl Hw]. destruct (Z.eqb_spec (rt_limit r) 0); [done|].
  case_decide as Hz; [done|]. intros [= <-]. set (burst := default (rt_limit r) (lp_burst cfg)).
  assert (Hburst : 1 <= burst <= U64_MAX).
  { unfold burst. destruct (lp_burst cfg) as [b|]; cbn; [|lia]. specialize (Hb b eq_refl).
    assert (b <> 0) by congruence. lia. }
  destruct (from_profile_wf (mkProfile (rt_limit r) (rt_window r) burst)) as (g & Hg & Hwf & Hgb & Hgi);
    cbn; try lia.
  { unfold from_secs in Hw. lia. }
  rewrite Hg. cbn. exists (mkCompiled g (rt_limit r) (rt_window r)), r.
  split; [done|]. split; [unfold profile_ok; cbn; split_and!; (lia || done)|].
  cbn in *. rewrite Hgb, Hgi. split_and!; try done; [lia|].
  by rewrite (Z.max_l (rt_window r)), (Z.max_l (rt_limit r)) by lia.
Qed.

(** Numbers from claims or from the limit service make a usable tier, or none. *)
Lemma profile_from_numbers_ok (rpm burst : Z) (o : option CompiledProfile) :
  0 <= rpm <= U64_MAX -> 0 <= burst <= U64_MAX -> profile_from_numbers rpm burst = Some o ->
  exists p, o = Some p /\ profile_ok p /\ cp_limit p = rpm /\ g_burst (cp_gcra p) = Z.max burst 1.
Proof.
  intros Hr Hb. unfold profile_from_numbers. destruct (Z.eqb_spec rpm 0); [done|]. intros [= <-].
  destruct (from_profile_wf (mkProfile rpm PER_MINUTE (Z.max burst 1))) as (g & Hg & Hwf & Hgb & _);
    cbn; try (unfold PER_MINUTE, from_secs, NANOS_PER_SEC, U64_MAX in *; lia).
  rewrite Hg. eexists. split; [done|]. cbn in *. split.
  - unfold profile_ok. cbn. split; [lia|]. split; [|done].
    unfold PER_MINUTE, from_secs, NANOS_PER_SEC. lia.
  - split; [done|]. lia.
Qed.

(** ** Compiled rules *)

Section RuleLemmas.
Context {HT : HttpLib} {GL : GlobLib} {SH : ShaLib}.

Lemma collect_results_ok {A B E} (f : A -> result B E) (l : list A) (ys : list B) :
  collect_results f l = Ok ys -> Forall2 (fun x y => f x = Ok y) l ys.
Proof.
  revert ys. induction l as [|x l IH]; intros ys; cbn; [by intros [= <-]|].
  destruct (f x) as [y|] eqn:Ef; cbn; [|done]. destruct (collect_results f l) as [ys'|]; cbn; [|done].
  intros [= <-]. constructor; auto.
Qed.

Lemma compile_rule_ok (profiles : gmap text CompiledProfile) (c : RateRuleConfig) (r : CompiledRule) :
  compile_rule profiles c = Ok r ->
  path_glob (rc_pattern c) = Ok (cr_matcher r) /\ starts_with (txt "/") (rc_pattern c) = true /\
  cr_profile r = rc_profile c /\ (forall name, cr_profile r = Some name -> is_Some (profiles !! name)) /\
  (cr_phase r = PostAuth <-> exists claim, rc_key c = KJwtClaim claim) /\
  match rc_key c with
  | KIp => cr_key r = KIp
  | KHeader name => exists hn, header_name name = Some hn /\ cr_key r = KHeader hn
  | KJwtClaim claim => cr_key r = KJwtClaim claim
  end.
Proof.
  unfold compile_rule. destruct (starts_with _ _); [|done]. cbn [negb].
  destruct (match rc_profile c with Some name => _ | None => None end) as [|] eqn:Eu; [done|].
  assert (Hprof : forall name, rc_profile c = Some name -> is_Some (profiles !! name)).
  { intros name E. rewrite E in Eu. by case_decide. }
  destruct (rc_key c) as [|name|claim]; [|destruct (header_name name) as [hn|]; [|done]|]; cbn;
    (destruct (path_glob _) as [m|]; [|done]); intros [= <-]; cbn; split_and!; try done; eauto.
  all: naive_solver.
Qed.

(** Compiled rules are the configured ones, in order. Each keeps its
    pattern's glob, names only tiers that exist, keys by the source written (a
    header under its normalized name), and runs after auth exactly when its key
    is a JWT claim. *)
Lemma compile_rules_ok (profiles : gmap text CompiledProfile) (configs : list RateRuleConfig)
  (rules : list CompiledRule) :
  compile_rules configs profiles = Ok rules ->
  Forall2 (fun c r => path_glob (rc_pattern c) = Ok (cr_matcher r) /\ cr_profile r = rc_profile c /\
    (forall name, cr_profile r = Some name -> is_Some (profiles !! name)) /\
    (cr_phase r = PostAuth <-> exists claim, rc_key c = KJwtClaim claim) /\
    match rc_key c with
    | KIp => cr_key r = KIp
    | KHeader name => exists hn, header_name name = Some hn /\ cr_key r = KHeader hn
    | KJwtClaim claim => cr_key r = KJwtClaim claim
    end) configs rules.
Proof.
  intros H. apply collect_results_ok in H. eapply Forall2_impl; [exact H|].
  intros c r Hr. apply compile_rule_ok in Hr. tauto.
Qed.
End RuleLemmas.
