(* ===== verification/LimitService.v ===== *)
(** * The limit service's cache ([LimitService] of [src/shield/resolve.rs])

    A cache of limits fetched in the background: a request reads it and may start
    a fetch, a fetch that ends writes it. The clock (time since the service was
    built) is an argument of every operation; what a fetch answered is the event
    that ends it. *)

From stdpp Require Import sorting.
From S2P Require Import Prelude Rust Gcra Status ShieldRules.

Definition SWEEP_INTERVAL : Z := from_secs 60.
Definition MAX_CACHE_ENTRIES : nat := Z.to_nat 100000.
Definition MAX_CONCURRENT_FETCHES : nat := 32.
#[global] Opaque MAX_CACHE_ENTRIES.

Record Cached := mkCached {
  ca_profile : option CompiledProfile;
  ca_at : Z;
  ca_last_access : Z;
}.

Record LimitService := mkService {
  ls_ttl : Z;
  ls_evict_after : Z;
  ls_cache : gmap text Cached;
  ls_inflight : gset text;
  ls_slots : nat;
  ls_last_sweep_ms : Z;
}.

(** The settings [build] derives; [None] is the panic of [ttl * 4]. *)
Definition service_new (ttl_secs : Z) : option LimitService :=
  let ttl := from_secs (Z.max ttl_secs 1) in
  let! four := dur_mul ttl 4 in
  Some (mkService ttl (Z.max four (from_secs 300)) ∅ ∅ MAX_CONCURRENT_FETCHES 0).

Definition set_cache (s : LimitService) (m : gmap text Cached) : LimitService :=
  mkService (ls_ttl s) (ls_evict_after s) m (ls_inflight s) (ls_slots s) (ls_last_sweep_ms s).

Definition older (a b : text * Cached) : Prop := ca_last_access a.2 <= ca_last_access b.2.

#[export] Instance older_dec (a b : text * Cached) : Decision (older a b).
Proof. unfold older. apply _. Defined.

(** [Instant::elapsed]. *)
Definition elapsed (now at_ : Z) : Z := dur_saturating_sub now at_.

Definition service_sweep (s : LimitService) (now : Z) : LimitService :=
  let kept := filter (fun kc => elapsed now (ca_last_access kc.2) < ls_evict_after s) (ls_cache s) in
  if Nat.ltb MAX_CACHE_ENTRIES (size kept) then
    let ages := merge_sort older (map_to_list kept) in
    set_cache s (foldl (fun m kc => delete kc.1 m) kept (take (size kept - MAX_CACHE_ENTRIES) ages))
  else set_cache s kept.

Definition service_maybe_sweep (s : LimitService) (now : Z) : LimitService :=
  let now_ms := to_u64_saturating (as_millis now) in
  if u64_saturating_sub now_ms (ls_last_sweep_ms s) <? as_millis SWEEP_INTERVAL then s
  else service_sweep (mkService (ls_ttl s) (ls_evict_after s) (ls_cache s) (ls_inflight s) (ls_slots s) now_ms) now.

(** [trigger_refresh] up to the spawn: whether a fetch starts. *)
Definition trigger_refresh (s : LimitService) (key : text) : LimitService * bool :=
  if decide (key ∈ ls_inflight s) then (s, false)
  else match ls_slots s with
       | O => (s, false)
       | S slots =>
           (mkService (ls_ttl s) (ls_evict_after s) (ls_cache s) ({[key]} ∪ ls_inflight s) slots
              (ls_last_sweep_ms s), true)
       end.

(** [LimitService::resolve]: the limit served, and whether a fetch starts. *)
Definition service_resolve (s : LimitService) (key : text) (now : Z)
  : option CompiledProfile * LimitService * bool :=
  let s := service_maybe_sweep s now in
  match ls_cache s !! key with
  | Some c =>
      let c := mkCached (ca_profile c) (ca_at c) now in
      let s := set_cache s (<[key := c]> (ls_cache s)) in
      if elapsed now (ca_at c) <? ls_ttl s then (ca_profile c, s, false)
      else let '(s, spawned) := trigger_refresh s key in (ca_profile c, s, spawned)
  | None => let '(s, spawned) := trigger_refresh s key in (None, s, spawned)
  end.

Definition insert_capped (s : LimitService) (key : text) (c : Cached) : LimitService :=
  let over_cap := Nat.leb MAX_CACHE_ENTRIES (size (ls_cache s)) in
  match ls_cache s !! key with
  | Some _ => set_cache s (<[key := c]> (ls_cache s))
  | None => if over_cap then s else set_cache s (<[key := c]> (ls_cache s))
  end.

(** The end of the task: the key leaves [inflight], its permit is free again. *)
Definition fetch_done (s : LimitService) (key : text) : LimitService :=
  mkService (ls_ttl s) (ls_evict_after s) (ls_cache s) (ls_inflight s ∖ {[key]}) (S (ls_slots s))
    (ls_last_sweep_ms s).

(** The spawned task once [fetch] answered. *)
Definition fetch_ended (s : LimitService) (key : text) (answer : result (option CompiledProfile) unit)
  (now : Z) : LimitService :=
  let s :=
    match answer with
    | Ok resolved => insert_capped s key (mkCached resolved now now)
    | Err _ =>
        match ls_cache s !! key with
        | Some c => set_cache s (<[key := mkCached (ca_profile c) now (ca_last_access c)]> (ls_cache s))
        | None => insert_capped s key (mkCached None now now)
        end
    end in
  fetch_done s key.

(** ** Runs of the service *)

(** What happens to it: a request resolves a key, a fetch in flight ends. *)
Inductive event :=
| Resolved (key : text) (now : Z) (answer : option CompiledProfile)
| Fetched (key : text) (now : Z) (answer : result (option CompiledProfile) unit).

Inductive service_step : LimitService -> event -> LimitService -> Prop :=
| SResolve s key now answer s' spawned :
    service_resolve s key now = (answer, s', spawned) ->
    service_step s (Resolved key now answer) s'
| SFetched s key now answer :
    key ∈ ls_inflight s -> service_step s (Fetched key now answer) (fetch_ended s key answer now).

(** The events so far, the latest first. *)
Inductive service_run (ttl_secs : Z) : list event -> LimitService -> Prop :=
| RNew s : service_new ttl_secs = Some s -> service_run ttl_secs [] s
| RStep h s e s' : service_run ttl_secs h s -> service_step s e s' -> service_run ttl_secs (e :: h) s'.

(** What the service last answered for a key, its failures aside. *)
Fixpoint last_answer (key : text) (h : list event) : option (option CompiledProfile) :=
  match h with
  | [] => None
  | Fetched k _ (Ok resolved) :: h' => if decide (k = key) then Some resolved else last_answer key h'
  | _ :: h' => last_answer key h'
  end.

(** The invariant of a run. *)
Record service_inv (h : list event) (s : LimitService) : Prop := {
  si_slots : (size (ls_inflight s) + ls_slots s)%nat = MAX_CONCURRENT_FETCHES;
  si_cap : (size (ls_cache s) <= MAX_CACHE_ENTRIES)%nat;
  si_origin : forall key c p, ls_cache s !! key = Some c -> ca_profile c = Some p ->
    last_answer key h = Some (Some p);
}.

(** ** The steps keep it *)

Lemma sweep_cache (s : LimitService) (now : Z) :
  (size (ls_cache s) <= MAX_CACHE_ENTRIES)%nat ->
  ls_cache (service_sweep s now) =
    filter (fun kc => elapsed now (ca_last_access kc.2) < ls_evict_after s) (ls_cache s).
Proof.
  intros Hcap. unfold service_sweep. set (kept := filter _ (ls_cache s)).
  assert (Hs : (size kept <= size (ls_cache s))%nat).
  { apply map_subseteq_size, map_filter_subseteq. }
  destruct (Nat.ltb_spec MAX_CACHE_ENTRIES (size kept)); [lia|done].
Qed.

Lemma sweep_inv (h : list event) (s : LimitService) (now : Z) :
  service_inv h s -> service_inv h (service_sweep s now).
Proof.
  intros [H1 H2 H3].
  assert (Hf : ls_inflight (service_sweep s now) = ls_inflight s /\ ls_slots (service_sweep s now) = ls_slots s).
  { unfold service_sweep. by destruct (Nat.ltb _ _). }
  destruct Hf as [E1 E2]. split.
  - by rewrite E1, E2.
  - rewrite sweep_cache by done. etransitivity; [|exact H2].
    apply map_subseteq_size, map_filter_subseteq.
  - intros key c p. rewrite sweep_cache by done. intros Hc. apply map_lookup_filter_Some in Hc as [Hc _].
    by apply (H3 key c).
Qed.

Lemma maybe_sweep_inv (h : list event) (s : LimitService) (now : Z) :
  service_inv h s -> service_inv h (service_maybe_sweep s now).
Proof.
  intros Hs. unfold service_maybe_sweep. case_match; [done|]. apply sweep_inv. destruct Hs. by split.
Qed.

Lemma trigger_inv (h : list event) (s : LimitService) (key : text) :
  service_inv h s -> service_inv h (trigger_refresh s key).1 /\
  ls_cache (trigger_refresh s key).1 = ls_cache s.
Proof.
  intros Hs. unfold trigger_refresh. case_decide as Hin; [done|]. destruct (ls_slots s) as [|slots] eqn:E; [done|].
  cbn. split; [|done]. destruct Hs as [H1 H2 H3]. split; cbn; [|done|done].
  rewrite size_union by set_solver. rewrite size_singleton. lia.
Qed.

Lemma update_inv (h : list event) (s : LimitService) (key : text) (c c' : Cached) :
  service_inv h s -> ls_cache s !! key = Some c -> ca_profile c' = ca_profile c ->
  service_inv h (set_cache s (<[key := c']> (ls_cache s))).
Proof.
  intros [H1 H2 H3] Hc Hp. split; cbn; [done| |].
  - rewrite map_size_insert_Some by eauto. done.
  - intros k x p. destruct (decide (k = key)) as [->|Hne].
    + rewrite lookup_insert_eq. intros [= <-]. rewrite Hp. by apply H3.
    + rewrite lookup_insert_ne by done. by apply H3.
Qed.

Lemma resolve_inv (h : list event) (s : LimitService) (key : text) (now : Z) :
  service_inv h s ->
  let '(answer, s', _) := service_resolve s key now in
  service_inv h s' /\ (forall p, answer = Some p -> last_answer key h = Some (Some p)).
Proof.
  intros Hs. apply (maybe_sweep_inv h s now) in Hs. unfold service_resolve.
  set (s1 := service_maybe_sweep s now) in *. destruct (ls_cache s1 !! key) as [c|] eqn:Hc.
  - cbn [ca_profile ca_at].
    pose proof (update_inv h s1 key c (mkCached (ca_profile c) (ca_at c) now) Hs Hc eq_refl) as Hu.
    assert (Ho : forall p, ca_profile c = Some p -> last_answer key h = Some (Some p)).
    { intros p Hp. by apply (si_origin _ _ Hs key c). }
    destruct (_ <? _); [done|]. pose proof (trigger_inv h _ key Hu) as [Ht _].
    destruct (trigger_refresh _ key). done.
  - pose proof (trigger_inv h s1 key Hs) as [Ht _]. destruct (trigger_refresh s1 key). done.
Qed.

Lemma last_answer_mono (key k : text) (now : Z) (a : option CompiledProfile) (h : list event) :
  last_answer key (Resolved k now a :: h) = last_answer key h.
Proof. done. Qed.

Lemma insert_capped_inv (h h' : list event) (s : LimitService) (key : text) (c : Cached) :
  service_inv h s -> (forall k, k <> key -> last_answer k h' = last_answer k h) ->
  (forall p, ca_profile c = Some p -> last_answer key h' = Some (Some p)) ->
  service_inv h' (insert_capped s key c) \/
  (ls_cache s !! key = None /\ service_inv h' s /\ insert_capped s key c = s).
Proof.
  intros [H1 H2 H3] Hk Hp. unfold insert_capped. destruct (ls_cache s !! key) as [c0|] eqn:Hc.
  - left. split; cbn; [done| |].
    + rewrite map_size_insert_Some by eauto. done.
    + intros k x p. destruct (decide (k = key)) as [->|Hne].
      * rewrite lookup_insert_eq. intros [= <-]. apply Hp.
      * rewrite lookup_insert_ne, Hk by done. by apply H3.
  - destruct (Nat.leb_spec MAX_CACHE_ENTRIES (size (ls_cache s))).
    + right. split; [done|]. split; [|done]. split; [done|done|].
      intros k x p Hx. destruct (decide (k = key)) as [->|Hne]; [congruence|]. rewrite Hk by done. by apply H3.
    + left. split; cbn; [done| |].
      * rewrite map_size_insert_None by done. lia.
      * intros k x p. destruct (decide (k = key)) as [->|Hne].
        -- rewrite lookup_insert_eq. intros [= <-]. apply Hp.
        -- rewrite lookup_insert_ne, Hk by done. by apply H3.
Qed.

Lemma fetch_done_inv (h : list event) (s : LimitService) (key : text) :
  service_inv h s -> key ∈ ls_inflight s -> service_inv h (fetch_done s key).
Proof.
  intros [H1 H2 H3] Hin. split; cbn; [|done|done].
  rewrite size_difference by set_solver. rewrite size_singleton.
  assert (size (ls_inflight s) <> 0)%nat by (intros E%size_empty_inv; set_solver). lia.
Qed.

Lemma fetched_inv (h : list event) (s : LimitService) (key : text) (now : Z)
  (answer : result (option CompiledProfile) unit) :
  service_inv h s -> key ∈ ls_inflight s ->
  service_inv (Fetched key now answer :: h) (fetch_ended s key answer now).
Proof.
  intros Hs Hin. unfold fetch_ended.
  assert (Hins : forall c, ls_inflight (insert_capped s key c) = ls_inflight s).
  { intros c. unfold insert_capped. by repeat case_match. }
  destruct answer as [resolved|e].
  - apply fetch_done_inv; [|by rewrite Hins].
    destruct (insert_capped_inv h (Fetched key now (Ok resolved) :: h) s key (mkCached resolved now now) Hs)
      as [Hi|(_ & Hi & ->)]; [| |done|done].
    + intros k Hne. cbn. by rewrite decide_False.
    + cbn. intros p ->. by rewrite decide_True.
  - assert (Hs' : service_inv (Fetched key now (Err e) :: h) s) by (destruct Hs; by split).
    destruct (ls_cache s !! key) as [c|] eqn:Hc.
    + apply fetch_done_inv; [|done]. by apply (update_inv _ s key c).
    + apply fetch_done_inv; [|by rewrite Hins].
      destruct (insert_capped_inv (Fetched key now (Err e) :: h) (Fetched key now (Err e) :: h) s key
        (mkCached None now now) Hs') as [Hi|(_ & Hi & ->)]; done.
Qed.

Lemma run_inv (ttl_secs : Z) (h : list event) (s : LimitService) :
  service_run ttl_secs h s -> service_inv h s.
Proof.
  induction 1 as [s Hn|h s e s' _ IH Hstep].
  - unfold service_new in Hn. destruct (dur_mul _ _); [|done]. injection Hn as <-. split; cbn.
    + by rewrite size_empty.
    + rewrite map_size_empty. lia.
    + intros key c p. by rewrite lookup_empty.
  - destruct Hstep as [s key now answer s' spawned E|s key now answer Hin].
    + pose proof (resolve_inv h s key now IH) as H. rewrite E in H. destruct H as [[H1 H2 H3] _]. by split.
    + by apply fetched_inv.
Qed.


(** A [ttl_secs] beyond a quarter of the [u64] seconds makes [build] panic on
    [ttl * 4] instead of returning its error. *)
Lemma service_new_panics (ttl_secs : Z) :
  U64_MAX / 4 < ttl_secs <= U64_MAX -> service_new ttl_secs = None.
Proof.
  intros H. change (U64_MAX / 4) with 4611686018427387903 in H.
  unfold service_new, dur_mul. rewrite Z.max_l by lia.
  destruct (Z.leb_spec (from_secs ttl_secs * 4) DUR_MAX) as [Hle|]; [|done]. exfalso.
  unfold from_secs, DUR_MAX, NANOS_PER_SEC, U64_MAX in *. lia.
Qed.

Module Demo.
Definition tier : CompiledProfile := mkCompiled Gcra.demo 3 (from_secs 3).
Definition s0 : LimitService := mkService (from_secs 300) (from_secs 1200) ∅ ∅ MAX_CONCURRENT_FETCHES 0.
Definition s1 : LimitService := (service_resolve s0 (txt "u") 5).1.2.
Definition s2 : LimitService := fetch_ended s1 (txt "u") (Ok (Some tier)) 6.
Definition run : list event := [Fetched (txt "u") 6 (Ok (Some tier)); Resolved (txt "u") 5 None].

Lemma s2_run : service_run 300 run s2.
Proof.
  eapply RStep; [eapply RStep; [apply (RNew _ s0); reflexivity|]|].
  - apply (SResolve s0 (txt "u") 5 None s1 true). vm_compute. reflexivity.
  - apply (SFetched s1). apply (bool_decide_eq_true_1 _). vm_compute. reflexivity.
Qed.

End Demo.
