(* ===== verification/Shield.v ===== *)
(** * Shield: request rate limiting ([src/shield/mod.rs])

    A phase's rule for a request, the key it charges, the limit it resolves to,
    and the budget reported on the response. The local store, the tiers and the
    limit service are the components of their own files; the fleet-wide counters
    are behind the interface [FleetLib]. [None] stands for a panic. *)

From Stdlib Require Import Floats.SpecFloat.
From S2P Require Import Prelude Rust Json Http Net ClientAddress Gcra GcraStore Status ShieldRules LimitService.

(** When a request is decided: since the store, since the limit service were
    built, since the Unix epoch, and since the process started. *)
Record Clock := mkClock { ck_store : Z; ck_service : Z; ck_unix : Z; ck_instant : Z }.

(** What the counters of the fleet offer the request path: the budget left for a
    key, and the record of an admitted request. *)
Class FleetLib : Type := {
  Fleet : Type;
  fleet_remaining : Fleet -> Clock -> text -> Z -> Z -> option (Z * Fleet);
  fleet_record : Fleet -> Clock -> text -> Z -> Fleet;
}.

Section Shield.
Context {HT : HttpLib} {GL : GlobLib} {SH : ShaLib} {FL : FleetLib}.
Context (float_text : spec_float -> text) (json_headers : HeaderMap).

(** The part of a request the guards read: its method, path and headers, and, of
    its extensions, the resolved client address, the peer an axum server records
    and the validated claims. *)
Record Request := mkReq {
  q_method : text;
  q_path : text;
  q_headers : HeaderMap;
  q_client : option ClientAddress;
  q_connect_info : option SocketAddr;
  q_claims : option Value;
}.

Record Shield := mkShield {
  sh_rules : list CompiledRule;
  sh_profiles : gmap text CompiledProfile;
  sh_default_profile : option CompiledProfile;
  sh_jwt_limits : option JwtLimits;
  sh_limit_service : option LimitService;
  sh_global : option Fleet;
  sh_store : GcraStore;
}.

Definition set_service (s : Shield) (ls : option LimitService) : Shield :=
  mkShield (sh_rules s) (sh_profiles s) (sh_default_profile s) (sh_jwt_limits s) ls (sh_global s) (sh_store s).
Definition set_store (s : Shield) (st : GcraStore) : Shield :=
  mkShield (sh_rules s) (sh_profiles s) (sh_default_profile s) (sh_jwt_limits s) (sh_limit_service s)
    (sh_global s) st.
Definition set_global (s : Shield) (g : option Fleet) : Shield :=
  mkShield (sh_rules s) (sh_profiles s) (sh_default_profile s) (sh_jwt_limits s) (sh_limit_service s)
    g (sh_store s).

(** ** Building *)

Record ShieldConfig := mkShieldConfig {
  sc_enabled : bool;
  sc_profiles : list (text * LimitProfileConfig);
  sc_rules : list RateRuleConfig;
  sc_default_profile : option text;
  sc_jwt_limits : option JwtLimits;
  sc_limit_service : option Z;
  sc_sync : option Fleet;
}.

Inductive shield_error :=
| NoRules
| ProfileError (e : profile_error)
| RuleError (e : rule_error)
| UnknownDefault (name : text).

(** [Shield::build], past the construction of the HTTP client: [sc_limit_service]
    is the service's [ttl_secs], [sc_sync] the counters when reconciliation
    started. The outer [option] is disabled or not, the inner one a panic. *)
Definition shield_build (c : ShieldConfig) : result (option (option Shield)) shield_error :=
  if negb (sc_enabled c) then Ok None
  else match sc_rules c with
  | [] => Err NoRules
  | _ =>
      match compile_profiles (sc_profiles c) with
      | Err e => Err (ProfileError e)
      | Ok None => Ok (Some None)
      | Ok (Some profiles) =>
          match compile_rules (sc_rules c) profiles with
          | Err e => Err (RuleError e)
          | Ok rules =>
              let? default_profile :=
                match sc_default_profile c with
                | None => Ok None
                | Some name => match profiles !! name with
                               | Some p => Ok (Some p)
                               | None => Err (UnknownDefault name)
                               end
                end in
              Ok (Some (
                let! service := match sc_limit_service c with
                                | None => Some None
                                | Some ttl => Some <$> service_new ttl
                                end in
                Some (mkShield rules profiles default_profile (sc_jwt_limits c) service (sc_sync c) new_store)))
          end
      end
  end.

(** ** The rule and the limit *)

Definition match_rule (s : Shield) (path : text) (phase : Phase) : option CompiledRule :=
  find_first (fun r => bool_decide (cr_phase r = phase) && glob_match (cr_matcher r) path) (sh_rules s).

Definition enforces (s : Shield) (phase : Phase) : bool :=
  existsb (fun r => bool_decide (cr_phase r = phase)) (sh_rules s).

Definition static_profile (s : Shield) (rule : CompiledRule) : option CompiledProfile :=
  match (let! name := cr_profile rule in sh_profiles s !! name) with
  | Some p => Some p
  | None => sh_default_profile s
  end.

(** [resolve_limit]: the outer [option] is a panic, the inner one its answer. *)
Definition resolve_limit (s : Shield) (rule : CompiledRule) (claims : option Value) (identity : text)
  (now : Z) : option (option CompiledProfile * Shield) :=
  let from_jwt :=
    match sh_jwt_limits s, claims with
    | Some jwt, Some claims => jwt_resolve float_text jwt claims (sh_profiles s)
    | _, _ => None
    end in
  match from_jwt with
  | Some None => None
  | Some (Some p) => Some (Some p, s)
  | None =>
      match sh_limit_service s with
      | Some service =>
          let '(p, service, _) := service_resolve service identity now in
          let s := set_service s (Some service) in
          match p with
          | Some p => Some (Some p, s)
          | None => Some (static_profile s rule, s)
          end
      | None => Some (static_profile s rule, s)
      end
  end.

(** ** Keys *)

(** [StoreKey::new]: 72 bytes hold the key. *)
Definition store_key (fingerprint tag hash : text) : option text :=
  let key := fingerprint ++ txt ":" ++ tag ++ txt ":" ++ hash in
  if Nat.leb (length key) 72 then Some key else None.

(** [AddressText::new]: 45 bytes hold the address. *)
Definition address_text (ip : IpAddr) : option text :=
  let t := show_ip ip in if Nat.leb (length t) 45 then Some t else None.

Definition address_identity (client : ClientAddress) : option text :=
  match ca_resolution client with
  | Peer ip | Forwarded ip => address_text ip
  | Invalid _ => Some (txt "invalid")
  | Unavailable => Some (txt "unknown")
  end.

Definition header_str (headers : HeaderMap) (name : text) : option text :=
  let! v := hm_get_str headers name in
  match trim v with [] => None | t => Some t end.

Definition rule_key (fingerprint : text) (key : KeySource) (client : ClientAddress) (headers : HeaderMap)
  (claims : option Value) : option (text * text) :=
  let address := pair (txt "ip") <$> address_identity client in
  let! ti :=
    match key with
    | KIp => address
    | KHeader name => match header_str headers name with
                      | Some v => Some (txt "hdr", v)
                      | None => address
                      end
    | KJwtClaim claim => match (let! c := claims in claim_str float_text c claim) with
                         | Some v => Some (txt "jwt", v)
                         | None => address
                         end
    end in
  let '(tag, identity) := ti in
  let! store := store_key fingerprint tag (short_hash_hex identity) in
  Some (store, identity).

(** ** The response *)

Definition RATELIMIT_LIMIT : text := txt "ratelimit-limit".
Definition RATELIMIT_REMAINING : text := txt "ratelimit-remaining".
Definition RATELIMIT_RESET : text := txt "ratelimit-reset".
Definition RETRY_AFTER : text := txt "retry-after".

(** [u128::div_ceil]. *)
Definition secs_ceil (d : Z) : Z := to_u64_saturating ((d + 999999999) / 1000000000).

Definition attach_rate_headers (h : HeaderMap) (limit remaining : Z) (v : Verdict) : HeaderMap :=
  let h := hm_insert h RATELIMIT_LIMIT (show_u64 limit) in
  let h := hm_insert h RATELIMIT_REMAINING (show_u64 remaining) in
  hm_insert h RATELIMIT_RESET (show_u64 (secs_ceil (reset_after v))).

Definition too_many_requests (limit remaining : Z) (v : Verdict) : Response :=
  let r := reject json_headers CResourceExhausted (txt "rate limit exceeded") in
  let h := attach_rate_headers (rs_headers r) limit remaining v in
  with_headers r (hm_insert h RETRY_AFTER (show_u64 (secs_ceil (retry_after v)))).

Definition fleet_backoff (window : Z) : Z := Z.max (dur_div window 10) (from_secs 1).

Definition global_reject (limit window : Z) : Response :=
  let backoff := fleet_backoff window in
  too_many_requests limit 0 (mkVerdict false 0 0 backoff backoff).

Definition reconciled_headers (v : Verdict) (fleet : option Z) (window : Z) : Z * Verdict :=
  match fleet with
  | Some fr =>
      let fleet_r := u64_saturating_sub fr 1 in
      if fleet_r <=? remaining v then
        let backoff := fleet_backoff window in
        (fleet_r, mkVerdict (allowed v) (new_tat v) (remaining v)
                    (Z.max (retry_after v) backoff) (Z.max (reset_after v) backoff))
      else (remaining v, v)
  | None => (remaining v, v)
  end.

Definition header_u64 (h : HeaderMap) (name : text) : option Z :=
  let! v := hm_get_str h name in parse_u64 v.

Definition maybe_tighten_rate_headers (h : HeaderMap) (limit remaining : Z) (v : Verdict) : HeaderMap :=
  let keep_inner :=
    match header_u64 h RATELIMIT_REMAINING with
    | Some inner =>
        if inner <? remaining then true
        else if inner =? remaining then
          secs_ceil (reset_after v) <=? default 0 (header_u64 h RATELIMIT_RESET)
        else false
    | None => false
    end in
  if keep_inner then h
  else
    let h := attach_rate_headers h limit remaining v in
    match header_u64 h RETRY_AFTER with
    | Some current =>
        let reset := secs_ceil (reset_after v) in
        if current <? reset then hm_insert h RETRY_AFTER (show_u64 reset) else h
    | None => h
    end.

Record Report := mkReport { rp_limit : Z; rp_remaining : Z; rp_verdict : Verdict }.

(** [Report::apply]. *)
Definition report_apply (r : Report) (response : Response) : Response :=
  with_headers response
    (maybe_tighten_rate_headers (rs_headers response) (rp_limit r) (rp_remaining r) (rp_verdict r)).

(** ** Charging *)

Inductive Decision :=
| DPass
| DReject (response : Response)
| DReport (report : Report).

Definition charge (s : Shield) (rule : CompiledRule) (q : Request) (now : Clock)
  : option (Decision * Shield) :=
  let client := match q_client q with
                | Some client => client
                | None => from_peer (q_connect_info q)
                end in
  let! key := rule_key (cr_fingerprint rule) (cr_key rule) client (q_headers q) (q_claims q) in
  let '(store, identity) := key in
  let! limit := resolve_limit s rule (q_claims q) identity (ck_service now) in
  let '(profile, s) := limit in
  match profile with
  | None => Some (DPass, s)
  | Some p =>
      let! gated := match sh_global s with
                    | Some g => let! left := fleet_remaining g now store (cp_limit p) (cp_window p) in
                                Some (Some left.1, set_global s (Some left.2))
                    | None => Some (None, s)
                    end in
      let '(fleet, s) := gated in
      if decide (fleet = Some 0) then Some (DReject (global_reject (cp_limit p) (cp_window p)), s)
      else
        let! vs := store_check (sh_store s) store (cp_gcra p) (ck_store now) in
        let '(v, st) := vs in
        let s := set_store s st in
        if negb (allowed v) then Some (DReject (too_many_requests (cp_limit p) (remaining v) v), s)
        else
          let s := match fleet with
                   | Some _ => set_global s ((fun g => fleet_record g now store (cp_window p)) <$> sh_global s)
                   | None => s
                   end in
          let '(reported, hv) := reconciled_headers v fleet (cp_window p) in
          Some (DReport (mkReport (cp_limit p) reported hv), s)
  end.

Definition decide_phase (s : Shield) (phase : Phase) (q : Request) (now : Clock)
  : option (Decision * Shield) :=
  match match_rule s (q_path q) phase with
  | None => Some (DPass, s)
  | Some rule => charge s rule q now
  end.

End Shield.

(** ** Keys: no panic, no confusion *)

Definition ip_ok (ip : IpAddr) : Prop := 0 <= bits ip < 2 ^ width ip.

Lemma show_digits_length (fuel k : nat) (n : Z) (acc : text) :
  0 <= n < 10 ^ Z.of_nat (S k) -> (length (show_digits fuel n acc) <= S k + length acc)%nat.
Proof.
  revert k n acc. induction fuel as [|fuel IH]; intros k n acc Hn; cbn [show_digits]; [lia|].
  destruct (Z.ltb_spec n 10); [cbn; lia|].
  destruct k as [|k]; [cbn in Hn; lia|].
  etransitivity; [apply (IH k)|cbn; lia].
  rewrite (Nat2Z.inj_succ (S k)), Z.pow_succ_r in Hn by lia.
  split; [apply Z.div_pos; lia|]. apply Z.div_lt_upper_bound; lia.
Qed.

Lemma show_octet_length (n : Z) : 0 <= n < 256 -> (length (show_u64 n) <= 3)%nat.
Proof. intros. apply (show_digits_length 20 2 n []). change (10 ^ Z.of_nat 3) with 1000. lia. Qed.

Lemma show_ipv4_length (n : Z) : 0 <= n < 2 ^ 32 -> (length (show_ipv4 n) <= 15)%nat.
Proof.
  intros Hn. unfold show_ipv4. rewrite !length_app.
  assert (0 <= n / 2 ^ 24 < 256) by (split; [apply Z.div_pos; lia|apply Z.div_lt_upper_bound; lia]).
  pose proof (show_octet_length (n / 2 ^ 24) ltac:(lia)).
  pose proof (show_octet_length (n / 2 ^ 16 mod 256) ltac:(apply Z.mod_pos_bound; lia)).
  pose proof (show_octet_length (n / 2 ^ 8 mod 256) ltac:(apply Z.mod_pos_bound; lia)).
  pose proof (show_octet_length (n mod 256) ltac:(apply Z.mod_pos_bound; lia)).
  change (length (txt ".")) with 1%nat. lia.
Qed.

Lemma drop_while_length {A} (p : A -> bool) (l : list A) : (length (drop_while p l) <= length l)%nat.
Proof. induction l as [|x l IH]; cbn; [lia|]. destruct (p x); cbn; lia. Qed.

Lemma show_hex16_length (n : Z) : (length (show_hex16 n) <= 4)%nat.
Proof.
  unfold show_hex16. set (ds := [_; _; _; _]).
  pose proof (drop_while_length (fun d => d =? 0) ds) as H. cbn [length ds] in H.
  destruct (drop_while _ ds); [change (1 <= 4)%nat; lia|]. by rewrite length_fmap.
Qed.

Lemma join_length (k : nat) (l : list text) :
  Forall (fun s => (length s <= k)%nat) l -> (length (join (txt ":") l) <= S k * length l)%nat.
Proof.
  induction 1 as [|x l Hx HF IH]; [cbn; lia|].
  cbn [join]. destruct l as [|y l]; [cbn; lia|].
  rewrite !length_app. change (length (txt ":")) with 1%nat. cbn [length] in *. lia.
Qed.

Lemma groups_length (segs : list Z) : (length (join (txt ":") (show_hex16 <$> segs)) <= 5 * length segs)%nat.
Proof.
  pose proof (join_length 4 (show_hex16 <$> segs)) as H. rewrite length_fmap in H. apply H.
  apply Forall_fmap, Forall_true. intros n. apply show_hex16_length.
Qed.

(** 45 bytes hold every address: [AddressText] never panics. *)
Lemma show_ip_length (ip : IpAddr) : ip_ok ip -> (length (show_ip ip) <= 45)%nat.
Proof.
  destruct ip as [n|n]; unfold ip_ok; cbn [bits width show_ip]; intros Hn.
  { pose proof (show_ipv4_length n Hn). lia. }
  unfold show_ipv6, to_ipv4_mapped. destruct (n / 2 ^ 32 =? 65535).
  - rewrite length_app. pose proof (show_ipv4_length (n mod 2 ^ 32) ltac:(apply Z.mod_pos_bound; lia)).
    change (length (txt "::ffff:")) with 7%nat. lia.
  - assert (Hs : length (segments n) = 8%nat) by done.
    destruct (longest_zeros _ _ _ _) as [start len]. destruct (Nat.ltb 1 len).
    + rewrite !length_app. change (length (txt "::")) with 2%nat.
      pose proof (groups_length (take start (segments n))) as H1.
      pose proof (groups_length (drop (start + len) (segments n))) as H2.
      rewrite length_take, Hs in H1. rewrite length_drop, Hs in H2. lia.
    + pose proof (groups_length (segments n)) as H1. rewrite Hs in H1. lia.
Qed.

Section Keys.
Context {HT : HttpLib} {GL : GlobLib} {SH : ShaLib} {SL : ShaLaws SH}.
Context (float_text : spec_float -> text).

Lemma mjoin_pairs_length (l : list text) :
  Forall (fun s => length s = 2%nat) l -> length (mjoin l) = (2 * length l)%nat.
Proof.
  induction 1 as [|x l Hx _ IH]; [done|].
  change (mjoin (x :: l)) with (x ++ mjoin l). rewrite length_app. cbn [length] in *. lia.
Qed.

Lemma short_hash_length (s : text) : length (short_hash_hex s) = 32%nat.
Proof.
  unfold short_hash_hex. rewrite mjoin_pairs_length.
  - rewrite length_fmap, length_take, sha256_length. done.
  - apply Forall_fmap, Forall_true. done.
Qed.

Definition client_ok (c : ClientAddress) : Prop := forall ip, client_ip c = Some ip -> ip_ok ip.

Lemma address_identity_total (c : ClientAddress) :
  client_ok c -> exists id, address_identity c = Some id.
Proof.
  intros Hc. unfold address_identity, address_text, client_ok, client_ip in *.
  destruct (ca_resolution c) as [ip|ip| |]; cbn in *; eauto.
  all: rewrite (proj2 (Nat.leb_le _ 45) (show_ip_length ip (Hc ip eq_refl))); eauto.
Qed.

Lemma store_key_total (fp tag h : text) :
  length fp = 32%nat -> length tag = 2%nat \/ length tag = 3%nat -> length h = 32%nat ->
  store_key fp tag h = Some (fp ++ txt ":" ++ tag ++ txt ":" ++ h).
Proof.
  intros H1 H2 H3. unfold store_key. rewrite (proj2 (Nat.leb_le _ 72)); [done|].
  rewrite !length_app. change (length (txt ":")) with 1%nat. lia.
Qed.

(** What [rule_key] chooses: the tag of the identity and the identity. *)
Definition key_choice (key : KeySource) (client : ClientAddress) (headers : HeaderMap) (claims : option Value)
  : option (text * text) :=
  let address := pair (txt "ip") <$> address_identity client in
  match key with
  | KIp => address
  | KHeader name => match header_str headers name with
                    | Some v => Some (txt "hdr", v)
                    | None => address
                    end
  | KJwtClaim claim => match (let! c := claims in claim_str float_text c claim) with
                       | Some v => Some (txt "jwt", v)
                       | None => address
                       end
  end.

Lemma rule_key_choice (fp : text) (key : KeySource) (client : ClientAddress) (headers : HeaderMap)
  (claims : option Value) :
  rule_key float_text fp key client headers claims =
  let! ti := key_choice key client headers claims in
  let! store := store_key fp ti.1 (short_hash_hex ti.2) in Some (store, ti.2).
Proof. unfold rule_key, key_choice. by destruct (match key with KIp => _ | _ => _ end) as [[]|]. Qed.

Lemma key_choice_tag (key : KeySource) (client : ClientAddress) (headers : HeaderMap) (claims : option Value)
  (tag id : text) :
  key_choice key client headers claims = Some (tag, id) -> tag ∈ [txt "ip"; txt "hdr"; txt "jwt"].
Proof.
  unfold key_choice. destruct (address_identity client) as [a|], key as [|n|c]; cbn;
    repeat case_match; intros [= <- _]; set_solver.
Qed.

Lemma tag_length (tag : text) :
  tag ∈ [txt "ip"; txt "hdr"; txt "jwt"] -> length tag = 2%nat \/ length tag = 3%nat.
Proof. rewrite !elem_of_cons, elem_of_nil. intros [->|[->|[->|[]]]]; cbn; auto. Qed.

Lemma store_key_inj (fp fp' tag tag' h h' k : text) :
  length fp = 32%nat -> length fp' = 32%nat -> length h = length h' ->
  store_key fp tag h = Some k -> store_key fp' tag' h' = Some k -> fp = fp' /\ tag = tag' /\ h = h'.
Proof.
  unfold store_key. intros H1 H2 H3. do 2 (case_match; [|done]). intros [= <-] [= E].
  apply app_inj_1 in E as [-> E]; [|congruence]. split; [done|].
  apply (app_inj_1 (txt ":") (txt ":")) in E as [_ E]; [|done].
  apply (app_inj_2 tag' tag) in E as [-> E]; [|cbn; lia]. split; [done|]. congruence.
Qed.

(** The key a rule charges a request to. Computing it never overruns its
    fixed buffers: for every header, every claim and every client address there
    is a key, of at most 69 bytes. Two requests share a key only under the same
    rule fingerprint, with identities of the same kind and the same hash, so an
    address never collides with a header or a claim of the same text. *)
Theorem rule_key_separates (fp1 fp2 : text) (k1 k2 : KeySource) (c1 c2 : ClientAddress)
  (h1 h2 : HeaderMap) (cl1 cl2 : option Value) :
  length fp1 = 32%nat -> length fp2 = 32%nat -> client_ok c1 -> client_ok c2 ->
  exists s1 t1 i1 s2 t2 i2,
    key_choice k1 c1 h1 cl1 = Some (t1, i1) /\ rule_key float_text fp1 k1 c1 h1 cl1 = Some (s1, i1) /\
    key_choice k2 c2 h2 cl2 = Some (t2, i2) /\ rule_key float_text fp2 k2 c2 h2 cl2 = Some (s2, i2) /\
    (length s1 <= 69)%nat /\
    (s1 = s2 <-> fp1 = fp2 /\ t1 = t2 /\ short_hash_hex i1 = short_hash_hex i2).
Proof.
  assert (Ht : forall fp k c h cl, length fp = 32%nat -> client_ok c ->
    exists s t i, key_choice k c h cl = Some (t, i) /\ rule_key float_text fp k c h cl = Some (s, i) /\
      (length s <= 69)%nat /\ store_key fp t (short_hash_hex i) = Some s).
  { intros fp k c h cl Hfp Hc. destruct (address_identity_total c Hc) as [a Ha].
    assert (exists t i, key_choice k c h cl = Some (t, i)) as (t & i & E).
    { unfold key_choice. rewrite Ha. cbn. destruct k; repeat case_match; eauto. }
    pose proof (tag_length t (key_choice_tag _ _ _ _ _ _ E)) as Hl.
    pose proof (store_key_total fp t _ Hfp Hl (short_hash_length i)) as Hs.
    eexists _, t, i. rewrite rule_key_choice, E. cbn. rewrite Hs. split_and!; try done.
    rewrite !length_app, short_hash_length. change (length (txt ":")) with 1%nat. lia. }
  intros H1 H2 H3 H4.
  destruct (Ht fp1 k1 c1 h1 cl1 H1 H3) as (s1 & t1 & i1 & E1 & R1 & L1 & S1).
  destruct (Ht fp2 k2 c2 h2 cl2 H2 H4) as (s2 & t2 & i2 & E2 & R2 & L2 & S2).
  exists s1, t1, i1, s2, t2, i2. split_and!; try done. split.
  - intros <-. eapply store_key_inj; [exact H1|exact H2| |exact S1|exact S2].
    by rewrite !short_hash_length.
  - intros (-> & -> & E). congruence.
Qed.
End Keys.

(** ** The reported budget *)

(** Whole seconds, rounded up: the fewest that cover the duration. *)
Lemma secs_ceil_least (d n : Z) :
  is_duration d -> 0 <= n <= U64_MAX -> (secs_ceil d <= n <-> d <= from_secs n \/ n = U64_MAX).
Proof.
  unfold is_duration, secs_ceil, from_secs, DUR_MAX, NANOS_PER_SEC. intros Hd Hn.
  rewrite to_u64_saturating_min.
  pose proof (Z.div_mod (d + 999999999) 1000000000 ltac:(lia)).
  pose proof (Z.mod_pos_bound (d + 999999999) 1000000000 ltac:(lia)). unfold U64_MAX in *. lia.
Qed.

Lemma secs_ceil_range (d : Z) : 0 <= d -> in_u64 (secs_ceil d).
Proof. intros. apply to_u64_saturating_range. apply Z.div_pos; lia. Qed.

Section Reports.
Context {HT : HttpLib} {HL : HttpLaws HT}.

Lemma header_u64_insert_eq (h : HeaderMap) (name : text) (n : Z) :
  in_u64 n -> header_u64 (hm_insert h name (show_u64 n)) name = Some n.
Proof.
  intros Hn. unfold header_u64, hm_get_str. rewrite get_insert_eq. cbn [mbind option_bind].
  rewrite value_str_show by (unfold in_u64 in Hn; lia). cbn [mbind option_bind]. by apply parse_show_u64.
Qed.

Lemma header_u64_insert_ne (h : HeaderMap) (name n : text) (v : text) :
  name <> n -> header_u64 (hm_insert h name v) n = header_u64 h n.
Proof. intros Hne. unfold header_u64, hm_get_str. by rewrite get_insert_ne. Qed.

(** Whether the outer phase's budget replaces the inner one: it is tighter. *)
Definition tighter (h : HeaderMap) (remaining reset : Z) : Prop :=
  match header_u64 h RATELIMIT_REMAINING with
  | Some inner => remaining < inner \/
      (remaining = inner /\ default 0 (header_u64 h RATELIMIT_RESET) < reset)
  | None => True
  end.

(** Across phases the response reports the tightest budget, whole: when this
    phase has less remaining than the inner one reported, or as little for
    longer, its limit, remaining and reset replace the three headers and a
    [Retry-After] already there is raised to at least the new reset; otherwise
    the headers are left untouched. Either way the remaining reported is the
    smaller one, and a [Retry-After] never appears or shrinks. *)
Theorem maybe_tighten_tightest (h : HeaderMap) (limit remaining : Z) (v : Verdict) :
  in_u64 limit -> in_u64 remaining -> 0 <= reset_after v ->
  let reset := secs_ceil (reset_after v) in
  let h' := maybe_tighten_rate_headers h limit remaining v in
  (tighter h remaining reset ->
     header_u64 h' RATELIMIT_LIMIT = Some limit /\ header_u64 h' RATELIMIT_REMAINING = Some remaining /\
     header_u64 h' RATELIMIT_RESET = Some reset /\
     header_u64 h' RETRY_AFTER = Z.max reset <$> header_u64 h RETRY_AFTER) /\
  (~ tighter h remaining reset -> h' = h) /\
  header_u64 h' RATELIMIT_REMAINING =
    Some (Z.min remaining (default remaining (header_u64 h RATELIMIT_REMAINING))).
Proof.
  intros Hl Hr Hd reset h'. pose proof (secs_ceil_range _ Hd) as Hs. fold reset in Hs.
  assert (Hout : forall h0, let a := attach_rate_headers h0 limit remaining v in
    header_u64 a RATELIMIT_LIMIT = Some limit /\ header_u64 a RATELIMIT_REMAINING = Some remaining /\
    header_u64 a RATELIMIT_RESET = Some reset /\ header_u64 a RETRY_AFTER = header_u64 h0 RETRY_AFTER).
  { intros h0. unfold attach_rate_headers. fold reset.
    split_and!; repeat first [rewrite header_u64_insert_eq by done | rewrite header_u64_insert_ne by done]; done. }
  assert (Hcase : (tighter h remaining reset /\ h' =
      let a := attach_rate_headers h limit remaining v in
      match header_u64 a RETRY_AFTER with
      | Some current => if current <? reset then hm_insert a RETRY_AFTER (show_u64 reset) else a
      | None => a
      end) \/ (~ tighter h remaining reset /\ h' = h)).
  { unfold h', maybe_tighten_rate_headers, tighter. fold reset.
    destruct (header_u64 h RATELIMIT_REMAINING) as [inner|]; [|by left].
    destruct (Z.ltb_spec inner remaining); [right; split; [lia|done]|].
    destruct (Z.eqb_spec inner remaining); [|left; split; [lia|done]].
    destruct (Z.leb_spec reset (default 0 (header_u64 h RATELIMIT_RESET))); [right|left]; (split; [lia|done]). }
  assert (Hnew : tighter h remaining reset ->
     header_u64 h' RATELIMIT_LIMIT = Some limit /\ header_u64 h' RATELIMIT_REMAINING = Some remaining /\
     header_u64 h' RATELIMIT_RESET = Some reset /\
     header_u64 h' RETRY_AFTER = Z.max reset <$> header_u64 h RETRY_AFTER).
  { intros Ht. destruct Hcase as [[_ ->]|[? _]]; [|done]. cbn zeta.
    destruct (Hout h) as (H1 & H2 & H3 & H4). rewrite H4.
    destruct (header_u64 h RETRY_AFTER) as [current|] eqn:Er; [|rewrite H4; done].
    destruct (Z.ltb_spec current reset); cbn [fmap option_fmap option_map].
    - repeat first [rewrite header_u64_insert_eq by done | rewrite header_u64_insert_ne by done].
      split_and!; try done. f_equal. lia.
    - rewrite H4. split_and!; try done. f_equal. lia. }
  split_and!; [done| |].
  - intros Ht. by destruct Hcase as [[? _]|[_ ->]].
  - destruct Hcase as [[Ht _]|[Ht ->]].
    + destruct (Hnew Ht) as (_ & -> & _). unfold tighter in Ht.
      destruct (header_u64 h RATELIMIT_REMAINING); cbn [default from_option id]; f_equal; lia.
    + unfold tighter in Ht. destruct (header_u64 h RATELIMIT_REMAINING); [|tauto]. cbn. f_equal. lia.
Qed.
End Reports.

(** ** The limit a phase enforces, end to end *)

Section Runs.
Context {HT : HttpLib} {GL : GlobLib} {SH : ShaLib} {SL : ShaLaws SH} {FL : FleetLib}.
Context (float_text : spec_float -> text) (json_headers : HeaderMap).

(** Requests decided in order, each at its time. *)
Fixpoint decide_all (s : Shield) (phase : Phase) (qs : list (Request * Clock)) : option (list Decision * Shield) :=
  match qs with
  | [] => Some ([], s)
  | (q, now) :: qs' =>
      let! ds := decide_phase float_text json_headers s phase q now in
      let! rest := decide_all ds.2 phase qs' in
      Some (ds.1 :: rest.1, rest.2)
  end.

Definition client_of (q : Request) : ClientAddress :=
  match q_client q with Some client => client | None => from_peer (q_connect_info q) end.

(** The key a phase charges a request to, if one of its rules matches. *)
Definition charged_key (s : Shield) (phase : Phase) (q : Request) : option text :=
  let! rule := match_rule s (q_path q) phase in
  fst <$> rule_key float_text (cr_fingerprint rule) (cr_key rule) (client_of q) (q_headers q) (q_claims q).

Definition forwarded (d : Decision) : bool := match d with DReject _ => false | _ => true end.

(** How many of a key's requests of the span [[a, b]] reached the handler. *)
Definition passed (s : Shield) (phase : Phase) (k : text) (a b : Z)
  (qs : list (Request * Clock)) (ds : list Decision) : nat :=
  length (filter (fun qd => charged_key s phase qd.1.1 = Some k /\
                            a <= ck_store qd.1.2 <= b /\ forwarded qd.2 = true) (zip qs ds)).

Fixpoint clocked (from : Z) (qs : list (Request * Clock)) : Prop :=
  match qs with
  | [] => True
  | (_, now) :: qs' => from <= ck_store now /\ clock (ck_store now) /\ clocked (ck_store now) qs'
  end.

(** What deciding requests leaves alone, and a shield of static tiers. *)
Definition same_rules (s s' : Shield) : Prop :=
  sh_rules s' = sh_rules s /\ sh_profiles s' = sh_profiles s /\
  sh_default_profile s' = sh_default_profile s /\ sh_jwt_limits s' = sh_jwt_limits s /\
  sh_limit_service s' = sh_limit_service s.

Definition static (s : Shield) : Prop := sh_jwt_limits s = None /\ sh_limit_service s = None.

Lemma charge_static (s s' : Shield) (rule : CompiledRule) (q : Request) (now : Clock) (d : Decision) :
  static s -> charge float_text json_headers s rule q now = Some (d, s') ->
  exists k id, rule_key float_text (cr_fingerprint rule) (cr_key rule) (client_of q) (q_headers q) (q_claims q)
               = Some (k, id) /\ same_rules s s' /\
  match static_profile s rule with
  | None => d = DPass /\ s' = s
  | Some p =>
      (forwarded d = false /\ sh_store s' = sh_store s) \/
      exists v, store_check (sh_store s) k (cp_gcra p) (ck_store now) = Some (v, sh_store s') /\
                forwarded d = allowed v
  end.
Proof.
  intros [Hj Hs]. unfold charge. fold (client_of q).
  destruct (rule_key _ _ _ _ _ _) as [[k id]|]; cbn [mbind option_bind]; [|done].
  unfold resolve_limit. rewrite Hj, Hs. cbn [mbind option_bind].
  destruct (static_profile s rule) as [p|].
  2:{ intros [= <- <-]. by exists k, id. }
  destruct (match sh_global s with Some g => _ | None => _ end) as [[fleet s1]|] eqn:Eg;
    cbn [mbind option_bind]; [|done].
  assert (Hs1 : same_rules s s1 /\ sh_store s1 = sh_store s).
  { destruct (sh_global s); [|by injection Eg as <- <-].
    destruct (fleet_remaining _ _ _ _ _) as [left|]; cbn in Eg; [|done]. by injection Eg as <- <-. }
  clear Eg. destruct Hs1 as [(E1 & E2 & E3 & E4 & E5) Est].
  assert (Hsame : forall st g, same_rules s (mkShield (sh_rules s1) (sh_profiles s1) (sh_default_profile s1)
                               (sh_jwt_limits s1) (sh_limit_service s1) g st)) by (by intros st g).
  case_decide. { intros [= <- <-]. exists k, id. split_and!; try done. by left. }
  rewrite Est.
  destruct (store_check _ _ _ _) as [[v st]|] eqn:Ec; cbn [mbind option_bind]; [|done].
  destruct (allowed v) eqn:Ea; cbn [negb].
  - destruct (reconciled_headers _ _ _) as [n hv]. intros [= <- <-].
    exists k, id. destruct fleet; cbn; (split_and!; [done|apply Hsame|]); right; exists v; by rewrite Ea.
  - intros [= <- <-]. exists k, id. split_and!; [done|apply Hsame|]. right. exists v. by rewrite Ea.
Qed.

Lemma same_rules_match (s s' : Shield) (path : text) (phase : Phase) :
  same_rules s s' -> match_rule s' path phase = match_rule s path phase.
Proof. intros (E1 & _). unfold match_rule. by rewrite E1. Qed.

Lemma same_rules_profile (s s' : Shield) (rule : CompiledRule) :
  same_rules s s' -> static_profile s' rule = static_profile s rule.
Proof. intros (_ & E2 & E3 & _). unfold static_profile. by rewrite E2, E3. Qed.

Lemma same_rules_charged (s s' : Shield) (phase : Phase) (q : Request) :
  same_rules s s' -> charged_key s' phase q = charged_key s phase q.
Proof. intros H. unfold charged_key. by rewrite (same_rules_match s s' _ _ H). Qed.

(** The rules a request may be charged under, from [shield_build]. *)
Record good (s : Shield) : Prop := {
  gd_static : static s;
  gd_fingerprint : forall r, r ∈ sh_rules s -> length (cr_fingerprint r) = 32%nat;
  gd_profile : forall r p, r ∈ sh_rules s -> static_profile s r = Some p ->
    wf (cp_gcra p) /\ g_burst (cp_gcra p) <= U32_MAX + 1;
}.

Lemma same_rules_good (s s' : Shield) : same_rules s s' -> good s -> good s'.
Proof.
  intros H [[Hj Hs] Hf Hp]. pose proof H as (E1 & _ & _ & E4 & E5). split.
  - split; congruence.
  - rewrite E1. done.
  - intros r p. rewrite E1, (same_rules_profile s s' r H). apply Hp.
Qed.

Lemma match_rule_in (s : Shield) (path : text) (phase : Phase) (r : CompiledRule) :
  match_rule s path phase = Some r -> r ∈ sh_rules s /\ cr_phase r = phase /\ glob_match (cr_matcher r) path = true.
Proof.
  unfold match_rule. intros (l1 & l2 & -> & Hp & _)%find_first_Some. bool_simpl.
  split; [set_solver|done].
Qed.

(** The requests of [k] are limited by [g]. *)
Definition limited_by (s : Shield) (phase : Phase) (k : text) (g : Gcra) : Prop :=
  forall q r, charged_key s phase q = Some k -> match_rule s (q_path q) phase = Some r ->
    exists p, static_profile s r = Some p /\ cp_gcra p = g.

Lemma same_rules_limited (s s' : Shield) (phase : Phase) (k : text) (g : Gcra) :
  same_rules s s' -> limited_by s phase k g -> limited_by s' phase k g.
Proof.
  intros H HL q r. rewrite (same_rules_charged s s' _ _ H), (same_rules_match s s' _ _ H),
    (same_rules_profile s s' r H). apply HL.
Qed.

Lemma same_rules_passed (s s' : Shield) (phase : Phase) (k : text) (a b : Z) qs ds :
  same_rules s s' -> passed s' phase k a b qs ds = passed s phase k a b qs ds.
Proof.
  intros H. unfold passed. f_equal. apply list_filter_iff. intros x.
  by rewrite (same_rules_charged s s' _ _ H).
Qed.

Lemma arrivals_weaken (rs : list request) (from from' : Z) :
  from' <= from -> arrivals from rs -> arrivals from' rs.
Proof. destruct rs as [|r rs]; cbn; [done|]. intros ? (? & ? & ?). split_and!; try done. lia. Qed.

(** One decision as a run of the store of at most one check. *)
Lemma decide_store (s s1 : Shield) (phase : Phase) (k : text) (g : Gcra) (a b : Z) (q : Request)
  (now : Clock) (d : Decision) :
  good s -> clock (ck_store now) -> limited_by s phase k g ->
  decide_phase float_text json_headers s phase q now = Some (d, s1) ->
  same_rules s s1 /\
  ((sh_store s1 = sh_store s /\ ~ (charged_key s phase q = Some k /\ forwarded d = true)) \/
   exists k' g' v, store_check (sh_store s) k' g' (ck_store now) = Some (v, sh_store s1) /\
     ok_request (mkRequest k' g' (ck_store now)) /\ (k' = k -> g' = g) /\
     (charged_key s phase q = Some k -> k' = k) /\ forwarded d = allowed v).
Proof.
  intros Hg Hn HL. unfold decide_phase. destruct (match_rule s (q_path q) phase) as [r|] eqn:Em.
  2:{ intros [= <- <-]. split; [done|]. left. split; [done|]. unfold charged_key. rewrite Em. cbn. naive_solver. }
  intros Hc. destruct (charge_static s s1 r q now d (gd_static s Hg) Hc) as (k' & id & Hk & Hsame & Hd).
  split; [done|]. assert (Ek : charged_key s phase q = Some k').
  { unfold charged_key. rewrite Em. cbn [mbind option_bind]. by rewrite Hk. }
  rewrite Ek. destruct (static_profile s r) as [p|] eqn:Ep.
  - destruct Hd as [[Hd Hst]|(v & Hv & Hd)].
    { left. split; [done|]. intros [_ ?]. congruence. }
    right. exists k', (cp_gcra p), v. destruct (gd_profile s Hg r p (proj1 (match_rule_in _ _ _ _ Em)) Ep) as [W Hb]. split_and!; try done.
    + intros ->. destruct (HL q r Ek Em) as (p' & Ep' & <-). congruence.
    + congruence.
  - destruct Hd as [-> ->]. left. split; [done|]. intros [[= ->] _].
    destruct (HL q r Ek Em) as (p' & Ep' & _). congruence.
Qed.

(** A run of the phase is a run of the store that admits what is forwarded. *)
Lemma run_store (k : text) (g : Gcra) (phase : Phase) (a b : Z) (qs : list (Request * Clock)) :
  forall s s' ds from, good s -> clocked from qs -> limited_by s phase k g ->
  decide_all s phase qs = Some (ds, s') ->
  exists rs vs, serve (sh_store s) rs = Some (vs, sh_store s') /\ arrivals from rs /\
    Forall (fun r => r_key r = k -> r_gcra r = g) rs /\
    (passed s phase k a b qs ds <= admitted k a b rs vs)%nat.
Proof.
  induction qs as [|[q now] qs IH]; intros s s' ds from Hg Hq HL; cbn [decide_all].
  { intros [= <- <-]. exists [], []. by repeat constructor. }
  destruct Hq as (Hfrom & Hn & Hq).
  destruct (decide_phase _ _ s phase q now) as [[d s1]|] eqn:Ed; cbn [mbind option_bind fst snd]; [|done].
  destruct (decide_all s1 phase qs) as [[ds' s2]|] eqn:Er; cbn [mbind option_bind fst snd]; [|done].
  intros [= <- <-].
  destruct (decide_store s s1 phase k g a b q now d Hg Hn HL Ed) as [Hsame Hcase].
  destruct (IH s1 s2 ds' (ck_store now) (same_rules_good _ _ Hsame Hg) Hq
              (same_rules_limited _ _ _ _ _ Hsame HL) Er) as (rs & vs & Hs & Ha & HF & Hle).
  rewrite (same_rules_passed s s1) in Hle by done.
  destruct Hcase as [[Hst Hno]|(k' & g' & v & Hc & Hok & Hkg & Hk & Hd)].
  - exists rs, vs. split_and!; [congruence|by eapply arrivals_weaken|done|].
    unfold passed in *. cbn [zip zip_with]. rewrite filter_cons_False; [done|]. cbn. tauto.
  - exists (mkRequest k' g' (ck_store now) :: rs), (v :: vs). split_and!.
    + cbn [serve r_key r_gcra r_now]. rewrite Hc. cbn [mbind option_bind fst snd]. by rewrite Hs.
    + cbn. done.
    + by constructor.
    + unfold passed, admitted in *. cbn [zip zip_with]. rewrite !filter_cons. cbn [fst snd r_key r_now].
      destruct (decide (charged_key s phase q = Some k /\ _)) as [(E1 & E2 & E3)|_].
      * rewrite decide_True; [cbn; lia|]. rewrite <- Hd. auto.
      * case_decide; cbn; lia.
Qed.

Lemma compile_profiles_ok (configs : list (text * LimitProfileConfig)) (m : gmap text CompiledProfile)
  (name : text) (p : CompiledProfile) :
  Forall (fun nc => forall b, lp_burst nc.2 = Some b -> 0 <= b <= U64_MAX) configs ->
  compile_profiles configs = Ok (Some m) -> m !! name = Some p -> profile_ok p.
Proof.
  intros HF. unfold compile_profiles. destruct (collect_results _ configs) as [l|] eqn:El; cbn; [|done].
  destruct (mapM id l) as [nps|] eqn:Em; cbn; [|done]. intros [= <-] Hl.
  apply elem_of_list_to_map_2 in Hl. apply collect_results_ok in El. apply mapM_Some_1 in Em.
  apply list_elem_of_lookup in Hl as (i & Hi).
  destruct (Forall2_lookup_r _ _ _ _ _ Em Hi) as (o & Ho & Hoi). cbn in Hoi. subst o.
  destruct (Forall2_lookup_r _ _ _ _ _ El Ho) as (nc & Hnc & Hc). cbn in Hc.
  destruct (compile_profile nc.2) as [op|] eqn:Ec; cbn in Hc; [|done]. injection Hc as Hc.
  rewrite Forall_forall in HF.
  destruct (compile_profile_ok _ _ (HF nc (list_elem_of_lookup_2 _ _ _ Hnc)) Ec) as (p' & r & -> & Hok & _).
  cbn in Hc. by injection Hc as _ <-.
Qed.

(** Reading [shield_build]. *)
Lemma shield_build_ok (c : ShieldConfig) (s : Shield) :
  Forall (fun nc => forall b, lp_burst nc.2 = Some b -> 0 <= b <= U64_MAX) (sc_profiles c) ->
  shield_build c = Ok (Some (Some s)) ->
  compile_rules (sc_rules c) (sh_profiles s) = Ok (sh_rules s) /\
  sh_jwt_limits s = sc_jwt_limits c /\ (sc_limit_service c = None -> sh_limit_service s = None) /\
  sh_store s = new_store /\
  (forall r p, static_profile s r = Some p -> profile_ok p).
Proof.
  intros HF. unfold shield_build. destruct (sc_enabled c); cbn [negb]; [|done].
  destruct (sc_rules c) as [|rc rcs] eqn:Erc; [done|]. rewrite <- Erc. clear Erc.
  destruct (compile_profiles _) as [[m|]|] eqn:Ep; [|done|done].
  destruct (compile_rules (sc_rules c) m) as [rules|] eqn:Er; [|done].
  destruct (match sc_default_profile c with Some name => _ | None => Ok None end) as [dp|] eqn:Ed;
    cbn [result_bind]; [|done].
  destruct (match sc_limit_service c with Some ttl => _ | None => Some None end) as [sv|] eqn:Es;
    cbn [mbind option_bind]; [|done].
  intros [= <-]. cbn. split_and!; try done.
  - intros E. rewrite E in Es. congruence.
  - intros r p. unfold static_profile. cbn.
    destruct (cr_profile r ≫= (fun name => m !! name)) as [p'|] eqn:E1.
    + intros [= ->]. apply bind_Some in E1 as (name & _ & E). by eapply compile_profiles_ok.
    + intros ->. destruct (sc_default_profile c) as [name|]; [|done].
      destruct (m !! name) as [p'|] eqn:E; [|done]. injection Ed as ->. by eapply compile_profiles_ok.
Qed.

Lemma compile_rules_fingerprint (profiles : gmap text CompiledProfile) (cs : list RateRuleConfig)
  (rules : list CompiledRule) (r : CompiledRule) :
  compile_rules cs profiles = Ok rules -> r ∈ rules -> length (cr_fingerprint r) = 32%nat.
Proof.
  intros H (i & Hi)%list_elem_of_lookup. apply collect_results_ok in H.
  destruct (Forall2_lookup_r _ _ _ _ _ H Hi) as (c & _ & Hc). revert Hc. unfold compile_rule.
  destruct (starts_with _ _); [|done]. cbn [negb].
  destruct (match rc_profile c with Some name => _ | None => None end); [done|].
  destruct (match rc_key c with KHeader _ => _ | _ => _ end) as [key|]; cbn; [|done].
  destruct (path_glob _); [|done]. intros [= <-]. apply short_hash_length.
Qed.

(** C1: Shield enforces the configured limit, end to end. Take a shield built
    from its configuration, with limits from the tiers alone, and any sequence of
    requests decided by one phase in the order of a monotonic clock, whatever
    their paths, headers and addresses and whatever the fleet's counters answer.
    Of the requests charged to one key of a rule, those that reach the handler in
    any span [[a, b]] number at most the tier's burst plus one per emission
    interval. (Rules with equal 128-bit fingerprints are assumed to name the same
    tier: no hash collision among the rules configured.) *)
Theorem shield_rate_bound (c : ShieldConfig) (s s' : Shield) (phase : Phase) (rule : CompiledRule)
  (p : CompiledProfile) (tag h k : text) (qs : list (Request * Clock)) (ds : list Decision) (a b : Z) :
  Forall (fun nc => forall b, lp_burst nc.2 = Some b -> 0 <= b <= U64_MAX) (sc_profiles c) ->
  shield_build c = Ok (Some (Some s)) -> sc_jwt_limits c = None -> sc_limit_service c = None ->
  (forall r p, r ∈ sh_rules s -> static_profile s r = Some p -> g_burst (cp_gcra p) <= U32_MAX + 1) ->
  (forall r1 r2, r1 ∈ sh_rules s -> r2 ∈ sh_rules s -> cr_fingerprint r1 = cr_fingerprint r2 ->
     cr_profile r1 = cr_profile r2) ->
  rule ∈ sh_rules s -> static_profile s rule = Some p ->
  length h = 32%nat -> store_key (cr_fingerprint rule) tag h = Some k ->
  clocked 0 qs -> a <= b -> b + tau (cp_gcra p) + emission_interval (cp_gcra p) <= U64_MAX ->
  decide_all s phase qs = Some (ds, s') ->
  Z.of_nat (passed s phase k a b qs ds) <= g_burst (cp_gcra p) + (b - a) / emission_interval (cp_gcra p).
Proof.
  intros HF Hb Hj Hsv Hburst Hfp Hr Hp Hh Hk Hq Hab Hfit Hd.
  destruct (shield_build_ok c s HF Hb) as (Hrules & Hj' & Hsv' & Hst & Hprof).
  assert (Hg : good s).
  { split; [split; [congruence|by apply Hsv']|intros r; by apply (compile_rules_fingerprint _ _ _ r Hrules)|].
    intros r p0 Hin Hp0. split; [apply (Hprof r p0 Hp0)|by eapply Hburst]. }
  assert (HL : limited_by s phase k (cp_gcra p)).
  { intros q r Ek Em. destruct (match_rule_in _ _ _ _ Em) as [Hin _]. revert Ek. unfold charged_key.
    rewrite Em. cbn [mbind option_bind]. rewrite rule_key_choice.
    destruct (key_choice _ _ _ _ _) as [[t i]|]; cbn; [|done].
    destruct (store_key (cr_fingerprint r) t (short_hash_hex i)) as [k'|] eqn:Ek; cbn; [|done]. intros [= ->].
    destruct (store_key_inj _ _ _ _ _ _ _ (gd_fingerprint s Hg r Hin) (gd_fingerprint s Hg rule Hr)
                ltac:(by rewrite short_hash_length) Ek Hk) as [E _].
    exists p. split; [|done]. rewrite <- Hp. unfold static_profile. by rewrite (Hfp r rule Hin Hr E). }
  destruct (run_store k (cp_gcra p) phase a b qs s s' ds 0 Hg Hq HL Hd) as (rs & vs & Hs & Ha & HFr & Hle).
  rewrite Hst in Hs. pose proof (proj2 (proj2 (Hprof rule p Hp))) as W.
  pose proof (serve_bound rs vs (sh_store s') k (cp_gcra p) a b W Ha HFr Hab Hfit Hs).
  unfold capacity in *. lia.
Qed.
End Runs.

(** ** A configured shield *)

Module Demo.
Import Model.

(** Globs as prefixes, SHA-256 as padding, a fleet that counts keys: stand-ins
    the witnesses run on. *)
#[export] Instance globs : GlobLib := {
  Glob := text;
  glob_build s := Ok (filter (fun c => c <> ch "*") s);
  glob_match g p := starts_with g p;
}.
#[export] Instance sha : ShaLib := { sha256 s := take 32 (s ++ replicate 32 (ch "0")) }.
#[export] Instance sha_laws : ShaLaws sha.
Proof.
  split. intros s. cbn [sha256 sha]. rewrite length_take, length_app, length_replicate. lia.
Qed.
#[export] Instance fleet : FleetLib := {
  Fleet := unit; fleet_remaining f _ _ _ _ := Some (5, f); fleet_record f _ _ _ := f;
}.

Definition no_float (_ : spec_float) : text := [].
Definition json : HeaderMap := hm_insert hm_empty CONTENT_TYPE (txt "application/json").

Definition config : ShieldConfig :=
  mkShieldConfig true [(txt "slow", mkProfileConfig (txt "2/s") None)]
    [mkRuleConfig (txt "/api/**") KIp (Some (txt "slow"))] None None None (Some tt).

Definition empty_shield : Shield := mkShield [] ∅ None None None None new_store.
Definition shield : Shield :=
  match shield_build config with Ok (Some (Some s)) => s | _ => empty_shield end.

Lemma shield_built : shield_build config = Ok (Some (Some shield)).
Proof. vm_cast_no_check (eq_refl (Ok (E := shield_error) (Some (Some shield)))). Qed.

Definition caller (n : Z) : ClientAddress := from_peer (Some (mkSocket (V4 n) 4000)).
Definition ask (n : Z) : Request := mkReq (txt "GET") (txt "/api/x") hm_empty (Some (caller n)) None None.
Definition at_ms (ms : Z) : Clock := mkClock (from_millis ms) (from_millis ms) (from_millis ms) (from_millis ms).

(** Three requests of one client and one of another, within 100 ms. *)
Definition asked : list (Request * Clock) :=
  [(ask 167772161, at_ms 0); (ask 167772161, at_ms 10); (ask 7, at_ms 20); (ask 167772161, at_ms 100)].

Definition ask_key : text := default [] (charged_key no_float shield PreAuth (ask 167772161)).
Definition the_rule : CompiledRule :=
  match sh_rules shield with r :: _ => r | [] => mkRule [] KIp None PreAuth [] end.
Definition the_tier : CompiledProfile :=
  default (mkCompiled (mkGcra 1 0 1) 1 1) (static_profile shield the_rule).

Example run_decisions :
  option_map (fun r => map forwarded (fst r)) (decide_all no_float json shield PreAuth asked)
  = Some [true; true; true; false].
Proof. vm_compute. reflexivity. Qed.

Lemma run_total : is_Some (decide_all no_float json shield PreAuth asked).
Proof. apply (bool_decide_eq_true_1 _). vm_compute. reflexivity. Qed.

Lemma one_rule (r : CompiledRule) : r ∈ sh_rules shield -> r = the_rule.
Proof.
  replace (sh_rules shield) with [the_rule] by (vm_compute; reflexivity).
  by rewrite list_elem_of_singleton.
Qed.

Lemma shield_rate_bound_witness :
  exists ds s', decide_all no_float json shield PreAuth asked = Some (ds, s') /\
  Z.of_nat (passed no_float shield PreAuth ask_key 0 (from_millis 100) asked ds)
  <= 2 + from_millis 100 / 500000000.
Proof.
  destruct run_total as [[ds s'] Hrun]. exists ds, s'. split; [exact Hrun|].
  refine (shield_rate_bound no_float json config shield s' PreAuth the_rule the_tier (txt "ip")
    (short_hash_hex (txt "10.0.0.1")) ask_key asked ds 0 (from_millis 100)
    _ shield_built eq_refl eq_refl _ _ _ _ _ _ _ _ _ _).
  - by constructor.
  - intros r p ->%one_rule.
    replace (static_profile shield the_rule) with (Some the_tier) by (vm_compute; reflexivity).
    intros [= <-]. vm_compute. congruence.
  - by intros r1 r2 ->%one_rule ->%one_rule.
  - replace (sh_rules shield) with [the_rule] by (vm_compute; reflexivity). constructor.
  - vm_compute. reflexivity.
  - vm_compute. reflexivity.
  - vm_compute. reflexivity.
  - unfold asked, clocked, clock, at_ms, from_millis. cbn [ck_store]. lia.
  - unfold from_millis. lia.
  - vm_compute. congruence.
  - exact Hrun.
Defined.

Lemma rule_key_separates_witness :
  exists s1 s2 i1 i2,
    rule_key no_float (cr_fingerprint the_rule) KIp (caller 7) hm_empty None = Some (s1, i1) /\
    rule_key no_float (cr_fingerprint the_rule) (KHeader (txt "x-id")) (caller 7)
      (hm_insert hm_empty (txt "x-id") (txt "0.0.0.7")) None = Some (s2, i2) /\ i1 = i2 /\ s1 <> s2.
Proof.
  assert (Hc : client_ok (caller 7)) by (intros ip [= <-]; unfold ip_ok; cbn; lia).
  destruct (rule_key_separates no_float (cr_fingerprint the_rule) (cr_fingerprint the_rule)
    KIp (KHeader (txt "x-id")) (caller 7) (caller 7) hm_empty
    (hm_insert hm_empty (txt "x-id") (txt "0.0.0.7")) None None
    ltac:(vm_compute; reflexivity) ltac:(vm_compute; reflexivity) Hc Hc)
    as (s1 & t1 & i1 & s2 & t2 & i2 & E1 & R1 & E2 & R2 & _ & Hiff).
  exists s1, s2, i1, i2. split; [exact R1|]. split; [exact R2|].
  assert (H1 : (t1, i1) = (txt "ip", txt "0.0.0.7"))
    by (apply (inj Some); rewrite <- E1; vm_compute; reflexivity).
  assert (H2 : (t2, i2) = (txt "hdr", txt "0.0.0.7"))
    by (apply (inj Some); rewrite <- E2; vm_compute; reflexivity).
  injection H1 as Ht1 Hi1. injection H2 as Ht2 Hi2. split; [congruence|].
  intros Hs. apply Hiff in Hs as (_ & Ht & _). rewrite Ht1, Ht2 in Ht. by vm_compute in Ht.
Defined.

Lemma maybe_tighten_tightest_witness :
  let inner := hm_insert (hm_insert hm_empty RATELIMIT_REMAINING (txt "4")) RETRY_AFTER (txt "2") in
  let h := maybe_tighten_rate_headers inner 10 3 (mkVerdict true 0 3 0 (from_secs 7)) in
  header_u64 h RATELIMIT_REMAINING = Some 3 /\ header_u64 h RETRY_AFTER = Some 7.
Proof.
  intros inner h.
  destruct (maybe_tighten_tightest inner 10 3 (mkVerdict true 0 3 0 (from_secs 7))
    ltac:(vm_compute; split; congruence) ltac:(vm_compute; split; congruence)
    ltac:(vm_compute; congruence)) as (H & _ & H3).
  split; [exact H3|]. refine (eq_trans (proj2 (proj2 (proj2 (H _)))) _).
  - vm_compute. left. reflexivity.
  - vm_compute. reflexivity.
Defined.

(** An inner rejection reports nothing remaining; an outer phase that has
    nothing left for longer overwrites its headers. *)
Example inner_rejection_overwritten :
  let inner := rs_headers (too_many_requests json 5 0 (mkVerdict false 0 0 (from_secs 1) (from_secs 1))) in
  let h := maybe_tighten_rate_headers inner 9 0 (mkVerdict true 0 0 0 (from_secs 60)) in
  header_u64 inner RATELIMIT_LIMIT = Some 5 /\ header_u64 h RATELIMIT_LIMIT = Some 9.
Proof. vm_compute. done. Qed.
End Demo.
