(* ===== verification/Guard.v ===== *)
(** * The guards ([src/guard.rs], [src/guard/gate.rs], [src/guard/concurrency.rs],
    [src/held.rs])

    Scopes and what they cover, the fused gate of the guards decided as a request
    arrives, the stack of the guards around a service, and the in-flight slots.
    A service answers a request from a world (the shared state of the guards and
    whatever else the services keep); [None] is a panic. What runs inside a
    service may change the world in any way, so other requests may interleave
    there. *)

From Stdlib Require Import Floats.SpecFloat.
From S2P Require Import Prelude Rust Json Http Net ClientAddress Gcra GcraStore Status ShieldRules LimitService Shield.

(** ** Classes of traffic *)

Inductive Class_ := CTranscoded | CEndpoints | CVerify | CGrpc | CFallback.

Inductive Traffic := TTranscoded | TEndpoints | TGrpc | TFallback | TAll.

#[export] Instance Class_eq_dec : EqDecision Class_.
Proof. solve_decision. Defined.

Definition TRANSCODED : Z := 1.
Definition ENDPOINTS : Z := Z.shiftl 1 1.
Definition GRPC : Z := Z.shiftl 1 2.
Definition FALLBACK : Z := Z.shiftl 1 3.

Definition bit (c : Class_) : Z :=
  match c with
  | CTranscoded => TRANSCODED
  | CEndpoints | CVerify => ENDPOINTS
  | CGrpc => GRPC
  | CFallback => FALLBACK
  end.

Definition authenticates (c : Class_) : bool := negb (bool_decide (c = CVerify)).

Definition traffic_bits (t : Traffic) : Z :=
  match t with
  | TTranscoded => TRANSCODED
  | TEndpoints => ENDPOINTS
  | TGrpc => GRPC
  | TFallback => FALLBACK
  | TAll => Z.lor (Z.lor (Z.lor TRANSCODED ENDPOINTS) GRPC) FALLBACK
  end.

(** [globset::GlobSet]: matches what one of its globs matches. *)
Class GlobSetLib {GL : GlobLib} : Type := {
  GlobSet : Type;
  globset_build : list Glob -> result GlobSet text;
  globset_match : GlobSet -> text -> bool;
}.
Class GlobSetLaws {GL : GlobLib} (L : GlobSetLib) : Prop := {
  globset_any gs s p : globset_build gs = Ok s -> globset_match s p = existsb (fun g => glob_match g p) gs;
}.

(** ** Scopes *)

Record ScopeConfig := mkScopeConfig {
  sc_traffic : option (list Traffic);
  sc_paths : list text;
  sc_methods : list text;
}.

(** The methods the proxy's routes answer beyond the standard ones. *)
Record Routed := mkRouted { rd_methods : list text; rd_every : Z }.

Definition routed_new (methods : list text) : Routed := mkRouted methods 0.
Definition routed_every (r : Routed) (c : Class_) : Routed :=
  mkRouted (rd_methods r) (Z.lor (rd_every r) (bit c)).

Inductive scope_error :=
| NoTraffic
| RelativeScope (pattern : text)
| BadScope (pattern reason : text)
| BadScopeSet (reason : text)
| StarMethod
| NoMethod (name : text)
| UnroutedMethod (name : text).

Section Scopes.
Context {HT : HttpLib} {GL : GlobLib} {GS : GlobSetLib}.

Record Scope := mkScope {
  scp_classes : Z;
  scp_paths : option GlobSet;
  scp_methods : option (list text);
}.

Definition STANDARD_METHODS : list text :=
  [txt "GET"; txt "HEAD"; txt "POST"; txt "PUT"; txt "DELETE"; txt "CONNECT"; txt "OPTIONS"; txt "TRACE"; txt "PATCH"].

Definition scope_method (classes : Z) (routed : Routed) (name : text) : result text scope_error :=
  if bool_decide (name = txt "*") then Err StarMethod
  else match method_of (to_ascii_uppercase name) with
       | None => Err (NoMethod name)
       | Some method =>
           if negb (Z.land classes (Z.lor FALLBACK (rd_every routed)) =? 0)
              || bool_decide (method ∈ STANDARD_METHODS) || bool_decide (method ∈ rd_methods routed)
           then Ok method else Err (UnroutedMethod name)
       end.

Definition scope_glob (pattern : text) : result Glob scope_error :=
  if negb (starts_with (txt "/") pattern) then Err (RelativeScope pattern)
  else match glob_build pattern with
       | Ok g => Ok g
       | Err e => Err (BadScope pattern e)
       end.

(** [Scope::compile]. *)
Definition scope_compile (config : option ScopeConfig) (dflt : list Traffic) (routed : Routed)
  : result Scope scope_error :=
  let traffic := default dflt (let! c := config in sc_traffic c) in
  let classes := foldl (fun acc t => Z.lor acc (traffic_bits t)) 0 traffic in
  if classes =? 0 then Err NoTraffic else
  let patterns := match config with Some c => sc_paths c | None => [] end in
  let? paths := match patterns with
                | [] => Ok None
                | _ => let? globs := collect_results scope_glob patterns in
                       match globset_build globs with
                       | Ok s => Ok (Some s)
                       | Err e => Err (BadScopeSet e)
                       end
                end in
  let names := match config with Some c => sc_methods c | None => [] end in
  let? methods := match names with
                  | [] => Ok None
                  | _ => let? ms := collect_results (scope_method classes routed) names in Ok (Some ms)
                  end in
  Ok (mkScope classes paths methods).

Definition covers (s : Scope) (c : Class_) : bool := negb (Z.land (scp_classes s) (bit c) =? 0).
Definition narrows (s : Scope) : bool :=
  bool_decide (is_Some (scp_paths s)) || bool_decide (is_Some (scp_methods s)).

Definition scope_matches (s : Scope) (q : Request) : bool :=
  match scp_methods s with Some ms => bool_decide (q_method q ∈ ms) | None => true end &&
  match scp_paths s with Some ps => globset_match ps (q_path q) | None => true end.

(** [applies] of the gate. *)
Definition applies (s : Scope) (q : Request) : bool := negb (narrows s) || scope_matches s q.
End Scopes.

(** ** Maintenance and the concurrency limit *)

Record Maintenance := mkMaintenance { mt_exempt : list text; mt_message : text }.

Definition exempts (m : Maintenance) (path : text) : bool :=
  existsb (fun pattern =>
    match strip_suffix (txt "/**") pattern with
    | Some prefix =>
        match strip_prefix prefix path with
        | Some rest => match rest with [] => true | c :: _ => bool_decide (c = ch "/") end
        | None => false
        end
    | None => bool_decide (path = pattern)
    end) (mt_exempt m).

(** [Semaphore::MAX_PERMITS] of a 64-bit target: [usize::MAX >> 3]. *)
Definition MAX_PERMITS : Z := Z.shiftr U64_MAX 3.

(** [Concurrency::build]: its free slots, or the refusal of the setting. *)
Definition concurrency_build (max_in_flight : Z) : option nat :=
  if (max_in_flight =? 0) || (MAX_PERMITS <? max_in_flight) then None
  else Some (Z.to_nat max_in_flight).

(** [Concurrency::take]. *)
Definition take_slot (free : nat) : option nat :=
  match free with O => None | S n => Some n end.

(** ** Services, and the guards around them *)

Section Stack.
Context {HT : HttpLib} {GL : GlobLib} {GS : GlobSetLib} {SH : ShaLib} {FL : FleetLib}.
Context (float_text : spec_float -> text) (json_headers : HeaderMap).

(** The state the guards share: the free slots, what Shield counts, the clock,
    and the rest ([X]: the state of auth, of the upstream, of everything else). *)
Context {X : Type}.
Record World := mkWorld {
  w_slots : nat;
  w_service : option LimitService;
  w_fleet : option Fleet;
  w_store : GcraStore;
  w_now : Clock;
  w_rest : X;
}.

Definition set_slots (w : World) (n : nat) : World :=
  mkWorld n (w_service w) (w_fleet w) (w_store w) (w_now w) (w_rest w).

(** The shield as built, with the counters of the world. *)
Definition shield_in (s : Shield) (w : World) : Shield :=
  mkShield (sh_rules s) (sh_profiles s) (sh_default_profile s) (sh_jwt_limits s) (w_service w) (w_fleet w) (w_store w).

Definition shield_out (s : Shield) (w : World) : World :=
  mkWorld (w_slots w) (sh_limit_service s) (sh_global s) (sh_store s) (w_now w) (w_rest w).

(** [Shield::decide] in a world. *)
Definition decide_in (s : Shield) (phase : Phase) (q : Request) (w : World) : option (Decision * World) :=
  let! ds := decide_phase float_text json_headers (shield_in s w) phase q (w_now w) in
  Some (ds.1, shield_out ds.2 w).

(** An answer: the response, and the slots its body holds until it ends. *)
Record Answer := mkAnswer { an_response : Response; an_slots : nat }.

Definition Svc : Type := Request -> World -> option (Answer * World).
Definition Layer : Type := Svc -> Svc.

Record Guards := mkGuards {
  require_client : option Scope;
  maintenance : option (Maintenance * Scope);
  concurrency : option Scope;
  shield : option (Shield * Scope);
  auth : option (Layer * Scope);
  authz : option (Layer * Scope);
  decider : option (Layer * Scope);
}.

(** *** The gate *)

Record Gate := mkGate {
  gt_require_client : option Scope;
  gt_maintenance : option (Maintenance * Scope);
  gt_concurrency : option Scope;
  gt_shield : option (Shield * Scope);
}.

(** [Option::filter]. *)
Definition ofilter {A} (p : A -> bool) (o : option A) : option A :=
  match o with Some a => if p a then Some a else None | None => None end.

(** [Gate::layer]: the gate of a class, when it has a guard. *)
Definition gate_of (g : Guards) (c : Class_) : option Gate :=
  let gate := mkGate
    (ofilter (fun sc => covers sc c) (require_client g))
    (ofilter (fun m => covers m.2 c) (maintenance g))
    (ofilter (fun sc => covers sc c) (concurrency g))
    (ofilter (fun s => covers s.2 c && enforces s.1 PreAuth) (shield g)) in
  match gt_require_client gate, gt_maintenance gate, gt_concurrency gate, gt_shield gate with
  | None, None, None, None => None
  | _, _, _, _ => Some gate
  end.

Definition unresolved_client (q : Request) : option Response :=
  match default Unavailable (ca_resolution <$> q_client q) with
  | Peer _ | Forwarded _ => None
  | Invalid why =>
      Some (reject json_headers CInvalidArgument
              (txt "the client address a trusted proxy forwarded is " ++ invalid_text why))
  | Unavailable =>
      Some (reject json_headers CInternal
              (txt "no connection information to resolve the client address from"))
  end.

Definition retry_later (r : Response) (secs : text) : Response :=
  with_headers r (hm_insert (rs_headers r) RETRY_AFTER secs).

Definition maintenance_refusal (m : Maintenance) : Response :=
  retry_later (reject json_headers CUnavailable (mt_message m)) (txt "300").

(** [Concurrency::full]. *)
Definition full : Response :=
  retry_later (reject json_headers CUnavailable (txt "too many requests in flight")) (txt "1").

(** What an admitted request's response owes: a slot, a budget to report. *)
Record AdmittedReq := mkAdmitted { ad_slot : bool; ad_report : option Report }.

Inductive Admission :=
| AdmittedBy (a : AdmittedReq)
| Refused (r : Response).

(** [Gate::admit]. A refusal after the slot was taken drops it. *)
Definition admit_client (gt : Gate) (q : Request) : option Response :=
  match gt_require_client gt with
  | Some sc => if applies sc q then unresolved_client q else None
  | None => None
  end.

Definition admit_maintenance (gt : Gate) (q : Request) : option Response :=
  match gt_maintenance gt with
  | Some (m, sc) =>
      if applies sc q && negb (exempts m (q_path q)) then Some (maintenance_refusal m) else None
  | None => None
  end.

(** The slot taken, if the limit applies; [None] when none is free. *)
Definition admit_slot (gt : Gate) (q : Request) (w : World) : option (bool * World) :=
  match gt_concurrency gt with
  | Some sc => if applies sc q
               then let! free := take_slot (w_slots w) in Some (true, set_slots w free)
               else Some (false, w)
  | None => Some (false, w)
  end.

Definition admit_shield (gt : Gate) (q : Request) (w : World) : option (Decision * World) :=
  match gt_shield gt with
  | Some (s, sc) => if applies sc q then decide_in s PreAuth q w else Some (DPass, w)
  | None => Some (DPass, w)
  end.

Definition give_back (slot : bool) (w : World) : World :=
  if slot then set_slots w (S (w_slots w)) else w.

Definition admit_request (gt : Gate) (q : Request) (w : World) : option (Admission * World) :=
  match admit_client gt q with
  | Some r => Some (Refused r, w)
  | None =>
      match admit_maintenance gt q with
      | Some r => Some (Refused r, w)
      | None =>
          match admit_slot gt q w with
          | None => Some (Refused full, w)
          | Some (slot, w) =>
              let! dw := admit_shield gt q w in
              Some (match dw.1 with
                    | DPass => (AdmittedBy (mkAdmitted slot None), dw.2)
                    | DReject r => (Refused r, give_back slot dw.2)
                    | DReport report => (AdmittedBy (mkAdmitted slot (Some report)), dw.2)
                    end)
          end
      end
  end.

(** [Admitted::settle]: the budget reported, the slot held by the body. *)
Definition settle (a : AdmittedReq) (answer : Answer) : Answer :=
  mkAnswer match ad_report a with
           | Some report => report_apply report (an_response answer)
           | None => an_response answer
           end
    (if ad_slot a then S (an_slots answer) else an_slots answer).

(** [GateService]. *)
Definition gate_layer (gt : Gate) : Layer := fun inner q w =>
  let! aw := admit_request gt q w in
  match aw.1 with
  | Refused r => Some (mkAnswer r 0, aw.2)
  | AdmittedBy a => let! rw := inner q aw.2 in Some (settle a rw.1, rw.2)
  end.

(** *** Rate limits after auth *)

(** [enforce] around the rest of the stack, for [post_auth_middleware]. *)
Definition enforce (s : Shield) (phase : Phase) : Layer := fun next q w =>
  let! dw := decide_in s phase q w in
  match dw.1 with
  | DPass => next q dw.2
  | DReject r => Some (mkAnswer r 0, dw.2)
  | DReport report =>
      let! rw := next q dw.2 in
      Some (mkAnswer (report_apply report (an_response rw.1)) (an_slots rw.1), rw.2)
  end.

(** *** The stack *)

(** [Scoped]: the layer on the requests its scope selects. *)
Definition scoped (sc : Scope) (l : Layer) : Layer := fun inner q w =>
  if scope_matches sc q then l inner q w else inner q w.

(** [wrap_router!] and [wrap_service!]. *)
Definition wrap (target : Svc) (c : Class_) (sc : Scope) (l : Layer) : Svc :=
  if negb (covers sc c) then target
  else if narrows sc then scoped sc l target
  else l target.

Definition wrap_some (c : Class_) (guard : option (Layer * Scope)) (target : Svc) : Svc :=
  match guard with Some (l, sc) => wrap target c sc l | None => target end.

(** [guard_stack!], built inside out. *)
Definition guard_stack (g : Guards) (target : Svc) (c : Class_) : Svc :=
  let target :=
    if authenticates c then wrap_some c (authz g) (wrap_some c (decider g) target) else target in
  let target :=
    if authenticates c then
      let target :=
        match ofilter (fun s => enforces s.1 PostAuth) (shield g) with
        | Some (s, sc) => wrap target c sc (enforce s PostAuth)
        | None => target
        end in
      wrap_some c (auth g) target
    else target in
  match gate_of g c with
  | Some gt => gate_layer gt target
  | None => target
  end.

(** [Guards::cover]. *)
Definition on {A} (guard : option (A * Scope)) (c : Class_) : bool :=
  match guard with Some (_, sc) => covers sc c | None => false end.

Definition cover (g : Guards) (c : Class_) : bool :=
  match require_client g with Some sc => covers sc c | None => false end
  || on (maintenance g) c
  || match concurrency g with Some sc => covers sc c | None => false end
  || on (shield g) c
  || (authenticates c && (on (auth g) c || on (authz g) c || on (decider g) c)).

(** ** The pipeline the stack stands for *)

(** A guard applies to a request of a class: its scope covers the class, and
    selects the request by method and path. *)
Definition applied (sc : Scope) (c : Class_) (q : Request) : bool := covers sc c && scope_matches sc q.

Definition guarded (c : Class_) (guard : option (Layer * Scope)) (inner : Svc) : Svc := fun q w =>
  match guard with
  | Some (l, sc) => if applied sc c q then l inner q w else inner q w
  | None => inner q w
  end.

(** The guards of [g], each with its scope, as the gate of every class. *)
Definition whole_gate (g : Guards) (c : Class_) (q : Request) : Gate :=
  mkGate (ofilter (fun sc => applied sc c q) (require_client g))
    (ofilter (fun m => applied m.2 c q) (maintenance g))
    (ofilter (fun sc => applied sc c q) (concurrency g))
    (ofilter (fun s => applied s.2 c q) (shield g)).

Definition pipeline (g : Guards) (target : Svc) (c : Class_) : Svc := fun q w =>
  let inner :=
    if authenticates c then
      guarded c (auth g)
        (guarded c ((fun s => (enforce s.1 PostAuth, s.2)) <$> shield g)
           (guarded c (authz g) (guarded c (decider g) target)))
    else target in
  gate_layer (whole_gate g c q) inner q w.
End Stack.

(** ** The stack is the pipeline *)

Section StackLemmas.
Context {HT : HttpLib} {GL : GlobLib} {GS : GlobSetLib} {SH : ShaLib} {FL : FleetLib}.
Context (float_text : spec_float -> text) (json_headers : HeaderMap) {X : Type}.

Local Abbreviation World := (World (X := X)).
Local Abbreviation Svc := (Svc (X := X)).
Local Abbreviation Layer := (Layer (X := X)).
Local Abbreviation enforced := (enforce (X := X) float_text json_headers).

(** Services that answer alike. *)
Definition svc_eq : relation Svc := fun s1 s2 => forall q w, s1 q w = s2 q w.

#[export] Instance svc_eq_equiv : Equivalence svc_eq.
Proof.
  split.
  - by intros s q w.
  - intros s1 s2 H q w. by rewrite H.
  - intros s1 s2 s3 H1 H2 q w. by rewrite H1.
Qed.

#[export] Instance enforce_proper s phase : Proper (svc_eq ==> svc_eq) (enforced s phase).
Proof.
  intros s1 s2 H q w. unfold enforce. destruct (decide_in _ _ _ _ _ _) as [[[|r|report] w']|]; cbn; auto.
  by rewrite H.
Qed.

#[export] Instance gate_layer_proper gt : Proper (svc_eq ==> svc_eq) (gate_layer (X := X) float_text json_headers gt).
Proof.
  intros s1 s2 H q w. unfold gate_layer. destruct (admit_request _ _ _ _ _) as [[[a|r] w']|]; cbn; auto. by rewrite H.
Qed.

#[export] Instance guarded_proper c guard :
  (forall l sc, guard = Some (l, sc) -> Proper (svc_eq ==> svc_eq) l) ->
  Proper (svc_eq ==> svc_eq) (guarded c guard).
Proof.
  intros HP s1 s2 H q w. unfold guarded. destruct guard as [[l sc]|]; [|by apply H].
  destruct (applied sc c q); [by apply (HP l sc)|by apply H].
Qed.

Lemma applies_matches (sc : Scope) (q : Request) : applies sc q = scope_matches sc q.
Proof.
  unfold applies, narrows, scope_matches.
  destruct (scp_paths sc), (scp_methods sc); cbn; by rewrite ?orb_false_l.
Qed.

Lemma wrap_guarded (c : Class_) (sc : Scope) (l : Layer) (target : Svc) :
  svc_eq (wrap target c sc l) (guarded c (Some (l, sc)) target).
Proof.
  intros q w. unfold wrap, guarded, applied. destruct (covers sc c); cbn; [|done].
  destruct (narrows sc) eqn:En; [done|].
  assert (Hm : scope_matches sc q = true); [|by rewrite Hm].
  rewrite <- applies_matches. unfold applies. by rewrite En.
Qed.

Lemma wrap_some_guarded (c : Class_) (guard : option (Layer * Scope)) (target : Svc) :
  svc_eq (wrap_some c guard target) (guarded c guard target).
Proof. destruct guard as [[l sc]|]; [apply wrap_guarded|by intros q w]. Qed.

(** A phase no rule of the shield has lets everything pass. *)
Lemma decide_idle (s : Shield) (phase : Phase) (q : Request) (w : World) :
  enforces s phase = false -> decide_in float_text json_headers s phase q w = Some (DPass, w).
Proof.
  unfold enforces, decide_in, decide_phase, match_rule. intros H. cbn [sh_rules shield_in].
  rewrite (proj2 (find_first_None _ _)).
  - cbn. by destruct w.
  - apply existsb_false_Forall in H. eapply Forall_impl; [exact H|]. intros r ->. done.
Qed.

Lemma enforce_idle (s : Shield) (phase : Phase) (target : Svc) :
  enforces s phase = false -> svc_eq (enforced s phase target) target.
Proof. intros H q w. unfold enforce. by rewrite decide_idle. Qed.

Lemma post_auth_guarded (c : Class_) (g : option (Shield * Scope)) (target : Svc) :
  svc_eq match ofilter (fun s => enforces s.1 PostAuth) g with
         | Some (s, sc) => wrap target c sc (enforced s PostAuth)
         | None => target
         end
         (guarded c ((fun s => (enforced s.1 PostAuth, s.2)) <$> g) target).
Proof.
  destruct g as [[s sc]|]; cbn; [|by intros q w]. destruct (enforces s PostAuth) eqn:E; [apply wrap_guarded|].
  intros q w. unfold guarded. destruct (applied sc c q); [|done]. symmetry. by apply enforce_idle.
Qed.

(** The gate of a class and the gate of its applicable guards admit alike. *)
Lemma gate_admit (g : Guards (X := X)) (c : Class_) (q : Request) (w : World) :
  admit_request float_text json_headers
    (mkGate (ofilter (fun sc => covers sc c) (require_client g))
       (ofilter (fun m => covers m.2 c) (maintenance g))
       (ofilter (fun sc => covers sc c) (concurrency g))
       (ofilter (fun s => covers s.2 c && enforces s.1 PreAuth) (shield g))) q w =
  admit_request float_text json_headers (whole_gate g c q) q w.
Proof.
  set (G := mkGate _ _ _ _). set (W := whole_gate g c q).
  assert (H1 : admit_client json_headers G q = admit_client json_headers W q).
  { unfold admit_client, G, W, whole_gate, applied. cbn. destruct (require_client g) as [sc|]; cbn; [|done].
    destruct (covers sc c); cbn; [|done]. rewrite applies_matches.
    by destruct (scope_matches sc q) eqn:E; rewrite ?applies_matches, ?E. }
  assert (H2 : admit_maintenance json_headers G q = admit_maintenance json_headers W q).
  { unfold admit_maintenance, G, W, whole_gate, applied. cbn. destruct (maintenance g) as [[m sc]|]; cbn; [|done].
    destruct (covers sc c); cbn; [|done]. rewrite applies_matches.
    by destruct (scope_matches sc q) eqn:E; rewrite ?applies_matches, ?E. }
  assert (H3 : forall w : World, admit_slot G q w = admit_slot W q w).
  { intros w0. unfold admit_slot, G, W, whole_gate, applied. cbn. destruct (concurrency g) as [sc|]; cbn; [|done].
    destruct (covers sc c); cbn; [|done]. rewrite applies_matches.
    by destruct (scope_matches sc q) eqn:E; rewrite ?applies_matches, ?E. }
  assert (H4 : forall w : World, admit_shield float_text json_headers G q w = admit_shield float_text json_headers W q w).
  { intros w0. unfold admit_shield, G, W, whole_gate, applied. cbn. destruct (shield g) as [[s sc]|]; cbn; [|done].
    destruct (covers sc c); cbn; [|done]. destruct (scope_matches sc q) eqn:E.
    - rewrite applies_matches, E. destruct (enforces s PreAuth) eqn:Ep; cbn; rewrite ?applies_matches, ?E; [done|].
      by rewrite decide_idle.
    - destruct (enforces s PreAuth); cbn; by rewrite ?applies_matches, ?E. }
  unfold admit_request. rewrite H1, H2, H3. destruct (admit_client _ W q); [done|].
  destruct (admit_maintenance _ W q); [done|]. destruct (admit_slot W q w) as [[slot w']|]; [|done].
  by rewrite H4.
Qed.

Lemma settle_nothing (a : Answer) : settle (mkAdmitted false None) a = a.
Proof. by destruct a. Qed.

Lemma gate_whole (g : Guards (X := X)) (c : Class_) (target : Svc) (q : Request) (w : World) :
  match gate_of g c with Some gt => gate_layer float_text json_headers gt target | None => target end q w =
  gate_layer float_text json_headers (whole_gate g c q) target q w.
Proof.
  unfold gate_layer at 2. rewrite <- gate_admit. unfold gate_of. set (G := mkGate _ _ _ _).
  destruct (gt_require_client G) eqn:E1, (gt_maintenance G) eqn:E2, (gt_concurrency G) eqn:E3, (gt_shield G) eqn:E4;
    try done.
  unfold admit_request, admit_client, admit_maintenance, admit_slot, admit_shield. rewrite E1, E2, E3, E4.
  cbn. destruct (target q w) as [[a w']|]; cbn; [|done]. by rewrite settle_nothing.
Qed.

Lemma stack_pipeline (g : Guards (X := X)) (target : Svc) (c : Class_) (q : Request) (w : World) :
  (forall l sc, auth g = Some (l, sc) -> Proper (svc_eq ==> svc_eq) l) ->
  (forall l sc, authz g = Some (l, sc) -> Proper (svc_eq ==> svc_eq) l) ->
  (forall l sc, decider g = Some (l, sc) -> Proper (svc_eq ==> svc_eq) l) ->
  guard_stack float_text json_headers g target c q w = pipeline float_text json_headers g target c q w.
Proof.
  intros Ha Hz Hd. unfold guard_stack, pipeline. rewrite gate_whole. apply gate_layer_proper.
  destruct (authenticates c); [|done].
  rewrite wrap_some_guarded. apply guarded_proper; [done|]. rewrite post_auth_guarded.
  apply guarded_proper.
  { intros l sc. destruct (shield g) as [[s sc']|]; cbn; [|done]. intros [= <- _]. apply enforce_proper. }
  rewrite wrap_some_guarded. apply guarded_proper; [done|]. apply wrap_some_guarded.
Qed.


(** A class no guard covers is served untouched. *)
Lemma uncovered_untouched (g : Guards (X := X)) (target : Svc) (c : Class_) :
  cover g c = false -> guard_stack float_text json_headers g target c = target.
Proof.
  unfold cover, guard_stack. intros H. apply orb_false_iff in H as [H H5]. bool_simpl.
  assert (Hw : forall guard t, on guard c = false -> wrap_some (X := X) c guard t = t).
  { intros [[l sc]|] t; cbn; [|done]. unfold wrap. by intros ->. }
  assert (Hg : gate_of g c = None).
  { clear Hw H5. unfold gate_of. destruct g as [rc m k sh au az de]. cbn in *.
    destruct rc as [sc|], m as [[m sm]|], k as [sk|], sh as [[s ss]|]; cbn in *;
      repeat match goal with H : covers _ _ = false |- _ => rewrite H; clear H end; done. }
  rewrite Hg. destruct (authenticates c); [|done]. cbn in H5. bool_simpl.
  rewrite !Hw by done. destruct (shield g) as [[s ss]|]; cbn in *; [|done].
  destruct (enforces s PostAuth); [|done]. unfold wrap. by replace (covers ss c) with false.
Qed.
End StackLemmas.

(** ** Compiled scopes *)

(** The classes a traffic names. *)
Definition names_class (t : Traffic) (c : Class_) : bool :=
  match t, c with
  | TAll, _ | TTranscoded, CTranscoded | TEndpoints, (CEndpoints | CVerify) | TGrpc, CGrpc
  | TFallback, CFallback => true
  | _, _ => false
  end.

(** A mask meets a class's bit as its test says. *)
Definition bit_index (c : Class_) : Z :=
  match c with CTranscoded => 0 | CEndpoints | CVerify => 1 | CGrpc => 2 | CFallback => 3 end.

Lemma class_bit (m : Z) (c : Class_) : negb (Z.land m (bit c) =? 0) = Z.testbit m (bit_index c).
Proof.
  replace (bit c) with (2 ^ bit_index c) by (by destruct c). apply land_pow2. by destruct c.
Qed.

Lemma traffic_bit (t : Traffic) (c : Class_) : Z.testbit (traffic_bits t) (bit_index c) = names_class t c.
Proof. by destruct t, c. Qed.

Lemma fold_bits (traffic : list Traffic) (acc : Z) (c : Class_) :
  Z.testbit (foldl (fun acc t => Z.lor acc (traffic_bits t)) acc traffic) (bit_index c) =
  Z.testbit acc (bit_index c) || existsb (fun t => names_class t c) traffic.
Proof.
  revert acc. induction traffic as [|t traffic IH]; intros acc; cbn; [by rewrite orb_false_r|].
  rewrite IH, Z.lor_spec, traffic_bit. by rewrite orb_assoc.
Qed.

Section ScopeLemmas.
Context {HT : HttpLib} {HL : HttpLaws HT} {GL : GlobLib} {GS : GlobSetLib} {GSL : GlobSetLaws GS}.

Lemma scope_method_ok (classes : Z) (routed : Routed) (name m : text) :
  scope_method classes routed name = Ok m ->
  m = to_ascii_uppercase name /\
  (m ∈ STANDARD_METHODS \/ m ∈ rd_methods routed \/ Z.land classes (Z.lor FALLBACK (rd_every routed)) <> 0).
Proof.
  unfold scope_method. case_match; [done|]. destruct (method_of _) as [m'|] eqn:Em; [|done].
  apply method_of_same in Em as ->. destruct (_ || _ || _) eqn:E; [|done]. intros [= <-]. split; [done|].
  apply orb_true_iff in E as [E|E%bool_decide_eq_true]; [|by right; left].
  apply orb_true_iff in E as [E|E%bool_decide_eq_true]; [|by left]. bool_simpl. by right; right.
Qed.

Lemma scope_glob_ok (pattern : text) (g : Glob) :
  scope_glob pattern = Ok g -> glob_build pattern = Ok g /\ exists r, pattern = txt "/" ++ r.
Proof.
  unfold scope_glob. destruct (starts_with _ _) eqn:E; cbn; [|done]. apply starts_with_true in E.
  destruct (glob_build pattern); [|done]. by intros [= <-].
Qed.

(** The paths a compiled set of patterns selects. *)
Lemma compiled_paths (patterns : list text) (paths : option GlobSet) (path : text) :
  (match patterns with
   | [] => Ok None
   | _ => let? globs := collect_results scope_glob patterns in
          match globset_build globs with Ok s => Ok (Some s) | Err e => Err (BadScopeSet e) end
   end) = Ok paths ->
  (match paths with Some ps => globset_match ps path | None => true end = true <->
   patterns = [] \/ exists p g, p ∈ patterns /\ glob_build p = Ok g /\ glob_match g path = true) /\
  Forall (fun p => exists r, p = txt "/" ++ r) patterns.
Proof.
  destruct patterns as [|p0 ps]; [intros [= <-]; split; [tauto|constructor]|].
  set (l := p0 :: ps). intros H.
  destruct (collect_results scope_glob l) as [globs|] eqn:Ec; cbn [result_bind] in H; [|done].
  destruct (globset_build globs) as [gs|] eqn:Eg; [|done]. injection H as <-.
  apply collect_results_ok in Ec. rewrite (globset_any _ _ _ Eg). split.
  - split.
    + intros (g & Hin & Hm)%existsb_exists. right. apply list_elem_of_In, list_elem_of_lookup in Hin as [i Hi].
      destruct (Forall2_lookup_r _ _ _ _ _ Ec Hi) as (p & Hp & [Hb _]%scope_glob_ok).
      exists p, g. split_and!; try done. by eapply list_elem_of_lookup_2.
    + intros [|(p & g & Hin & Hb & Hm)]; [done|]. apply list_elem_of_lookup in Hin as [i Hi].
      destruct (Forall2_lookup_l _ _ _ _ _ Ec Hi) as (g' & Hg' & [Hb' _]%scope_glob_ok).
      apply existsb_exists. exists g'. rewrite Hb' in Hb. injection Hb as ->. split; [|done].
      apply list_elem_of_In. by eapply list_elem_of_lookup_2.
  - eapply Forall2_Forall_l; [exact Ec|]. apply Forall_true. by intros p q [_ ?]%scope_glob_ok.
Qed.

Lemma compiled_methods (classes : Z) (routed : Routed) (names : list text) (methods : option (list text)) (m : text) :
  (match names with
   | [] => Ok None
   | _ => let? ms := collect_results (scope_method classes routed) names in Ok (Some ms)
   end) = Ok methods ->
  (match methods with Some ms => bool_decide (m ∈ ms) | None => true end = true <->
   names = [] \/ exists n, n ∈ names /\ m = to_ascii_uppercase n) /\
  (forall n, n ∈ names -> to_ascii_uppercase n ∈ STANDARD_METHODS \/ to_ascii_uppercase n ∈ rd_methods routed \/
     Z.land classes (Z.lor FALLBACK (rd_every routed)) <> 0).
Proof.
  destruct names as [|n0 ns]; [intros [= <-]; split; [tauto|]; by intros n Hn%elem_of_nil|].
  set (l := n0 :: ns). intros H.
  destruct (collect_results _ l) as [ms|] eqn:Ec; cbn [result_bind] in H; [|done]. injection H as <-.
  apply collect_results_ok in Ec. rewrite bool_decide_eq_true. split.
  - split.
    + intros Hin. right. apply list_elem_of_lookup in Hin as [i Hi].
      destruct (Forall2_lookup_r _ _ _ _ _ Ec Hi) as (n & Hn & [-> _]%scope_method_ok).
      exists n. split; [|done]. by eapply list_elem_of_lookup_2.
    + intros [|(n & Hin & ->)]; [done|]. apply list_elem_of_lookup in Hin as [i Hi].
      destruct (Forall2_lookup_l _ _ _ _ _ Ec Hi) as (m' & Hm' & [-> _]%scope_method_ok).
      by eapply list_elem_of_lookup_2.
  - intros n Hin. apply list_elem_of_lookup in Hin as [i Hi].
    destruct (Forall2_lookup_l _ _ _ _ _ Ec Hi) as (m' & _ & [-> ?]%scope_method_ok). done.
Qed.

(** A compiled scope guards what its configuration says and is never empty
    by mistake. It covers a class exactly when its traffic (or the default) names
    it, and some class; it selects a request exactly when the method is one of
    those named, upper-cased, if any is, and some pattern's glob matches the path,
    if there is any; every pattern is absolute; and every method named is a
    standard one, one some route answers, or covered by a fallback or by a route
    that answers every method. *)
Theorem scope_compile_ok (config : option ScopeConfig) (dflt : list Traffic) (routed : Routed) (s : Scope) :
  scope_compile config dflt routed = Ok s ->
  let traffic := default dflt (let! c := config in sc_traffic c) in
  let patterns := match config with Some c => sc_paths c | None => [] end in
  let names := match config with Some c => sc_methods c | None => [] end in
  (forall c, covers s c = existsb (fun t => names_class t c) traffic) /\ (exists c, covers s c = true) /\
  (forall q, scope_matches s q = true <->
     (names = [] \/ exists n, n ∈ names /\ q_method q = to_ascii_uppercase n) /\
     (patterns = [] \/ exists p g, p ∈ patterns /\ glob_build p = Ok g /\ glob_match g (q_path q) = true)) /\
  Forall (fun p => exists r, p = txt "/" ++ r) patterns /\
  (forall n, n ∈ names -> to_ascii_uppercase n ∈ STANDARD_METHODS \/ to_ascii_uppercase n ∈ rd_methods routed \/
     Z.land (scp_classes s) (Z.lor FALLBACK (rd_every routed)) <> 0).
Proof.
  unfold scope_compile. cbv zeta. set (traffic := default dflt _).
  set (classes := foldl _ 0 traffic). destruct (Z.eqb_spec classes 0) as [|Hne]; [done|].
  set (patterns := match config with Some c => sc_paths c | None => [] end).
  set (names := match config with Some c => sc_methods c | None => [] end).
  destruct (match patterns with [] => Ok None | _ => _ end) as [paths|] eqn:Ep; cbn [result_bind]; [|done].
  destruct (match names with [] => Ok None | _ => _ end) as [methods|] eqn:Em; cbn [result_bind]; [|done].
  intros [= <-]. cbn [scp_classes scp_paths scp_methods].
  assert (Hcov : forall c, covers (mkScope classes paths methods) c = existsb (fun t => names_class t c) traffic).
  { intros c. unfold covers. cbn [scp_classes]. rewrite class_bit. unfold classes. by rewrite fold_bits, Z.bits_0. }
  split; [done|]. split.
  { destruct traffic as [|t ts] eqn:Et; [by destruct Hne|].
    exists match t with TTranscoded => CTranscoded | TEndpoints => CEndpoints | TGrpc => CGrpc | _ => CFallback end.
    rewrite Hcov. cbn. by destruct t. }
  split; [|split].
  - intros q. unfold scope_matches. cbn [scp_paths scp_methods]. rewrite andb_true_iff.
    by rewrite (proj1 (compiled_paths _ _ (q_path q) Ep)), (proj1 (compiled_methods _ _ _ _ (q_method q) Em)).
  - exact (proj2 (compiled_paths _ _ [] Ep)).
  - exact (proj2 (compiled_methods _ _ _ _ [] Em)).
Qed.
End ScopeLemmas.

(** Maintenance leaves an exact path, and what lies at or below a prefix. *)
Lemma exempts_spec (m : Maintenance) (path : text) :
  exempts m path = true <->
  exists pattern, pattern ∈ mt_exempt m /\
    ((exists prefix, pattern = prefix ++ txt "/**" /\ (path = prefix \/ exists r, path = prefix ++ txt "/" ++ r)) \/
     ((forall prefix, pattern <> prefix ++ txt "/**") /\ path = pattern)).
Proof.
  unfold exempts. rewrite existsb_exists. split.
  - intros (pattern & Hin & H). exists pattern. split; [by apply list_elem_of_In|].
    destruct (strip_suffix (txt "/**") pattern) as [prefix|] eqn:Es.
    + left. apply strip_suffix_Some in Es as ->. exists prefix. split; [done|].
      destruct (strip_prefix prefix path) as [rest|] eqn:Er; [|done]. apply strip_prefix_Some in Er as ->.
      destruct rest as [|c rest]; [left; by rewrite app_nil_r|].
      right. exists rest. apply bool_decide_eq_true in H as ->. done.
    + right. apply bool_decide_eq_true in H. split; [|done]. intros prefix ->.
      by rewrite (proj2 (strip_suffix_Some _ _ prefix)) in Es by done.
  - intros (pattern & Hin & H). exists pattern. split; [by apply list_elem_of_In|].
    destruct H as [(prefix & -> & H)|[Hno ->]].
    + rewrite (proj2 (strip_suffix_Some _ _ prefix)) by done. destruct H as [->|[r ->]].
      * rewrite (proj2 (strip_prefix_Some prefix prefix [])) by (by rewrite app_nil_r). done.
      * by rewrite (proj2 (strip_prefix_Some prefix _ (txt "/" ++ r))).
    + destruct (strip_suffix (txt "/**") pattern) as [prefix|] eqn:Es; [|by apply bool_decide_eq_true].
      by destruct (Hno prefix); apply strip_suffix_Some.
Qed.

(** A glob among the exempt paths other than a final [/**] exempts nothing but
    the path that reads like it. *)
Example exempt_glob_ignored :
  exempts (mkMaintenance [txt "/v1/*/status"] []) (txt "/v1/eu/status") = false /\
  exempts (mkMaintenance [txt "/health/**"] []) (txt "/health/live") = true.
Proof. vm_compute. done. Qed.

(** ** The slots, over time *)

Section Slots.
Context {HT : HttpLib} {GL : GlobLib} {GS : GlobSetLib} {SH : ShaLib} {FL : FleetLib}.
Context (float_text : spec_float -> text) (json_headers : HeaderMap) {X : Type}.

Local Abbreviation World := (World (X := X)).

(** What polling a response body gives ([Held::poll_frame]). *)
Inductive Frame := FPending | FData | FError | FEnd.

Definition ends (f : Frame) : bool := match f with FError | FEnd => true | FPending | FData => false end.

(** [until_end]: the slots a body still holds after a poll. *)
Definition held_poll (held : nat) (f : Frame) : nat := if ends f then O else held.

(** An admitted request: the service has yet to answer, or its body is read. *)
Inductive Stage :=
| Waiting (a : AdmittedReq)
| Streaming (held : nat).

Definition stage_slots (st : Stage) : nat :=
  match st with Waiting a => if ad_slot a then 1%nat else O | Streaming n => n end.

Record Proxy := mkProxy { px_world : World; px_calls : gmap nat Stage }.

(** The slots the admitted requests hold. *)
Definition in_flight (calls : gmap nat Stage) : nat := weigh stage_slots calls.

(** What happens: a request arrives at the gate; a service changes the state
    that is not the gate's; the service behind the gate answers; a body is
    polled; a request, or its answer, is dropped. *)
Inductive proxy_step (gt : Gate) : Proxy -> Proxy -> Prop :=
| PAdmit w calls id q a w' :
    calls !! id = None -> admit_request float_text json_headers gt q w = Some (AdmittedBy a, w') ->
    proxy_step gt (mkProxy w calls) (mkProxy w' (<[id := Waiting a]> calls))
| PRefuse w calls q r w' :
    admit_request float_text json_headers gt q w = Some (Refused r, w') ->
    proxy_step gt (mkProxy w calls) (mkProxy w' calls)
| POther w w' calls :
    w_slots w' = w_slots w -> proxy_step gt (mkProxy w calls) (mkProxy w' calls)
| PAnswer w calls id a response :
    calls !! id = Some (Waiting a) ->
    proxy_step gt (mkProxy w calls)
      (mkProxy w (<[id := Streaming (an_slots (settle a (mkAnswer response 0)))]> calls))
| PPoll w calls id n f :
    calls !! id = Some (Streaming n) ->
    proxy_step gt (mkProxy w calls)
      (mkProxy (set_slots w (w_slots w + (n - held_poll n f))) (<[id := Streaming (held_poll n f)]> calls))
| PDrop w calls id st :
    calls !! id = Some st ->
    proxy_step gt (mkProxy w calls)
      (mkProxy (set_slots w (w_slots w + stage_slots st)) (delete id calls)).

Inductive proxy_run (gt : Gate) (max : nat) : Proxy -> Prop :=
| PxStart w : w_slots w = max -> proxy_run gt max (mkProxy w ∅)
| PxStep p p' : proxy_run gt max p -> proxy_step gt p p' -> proxy_run gt max p'.

Definition limited (gt : Gate) (q : Request) : bool :=
  match gt_concurrency gt with Some sc => applies sc q | None => false end.

Lemma decide_slots (s : Shield) (phase : Phase) (q : Request) (w w' : World) (d : Decision) :
  decide_in float_text json_headers s phase q w = Some (d, w') -> w_slots w' = w_slots w.
Proof.
  unfold decide_in. destruct (decide_phase _ _ _ _ _ _) as [[d0 s0]|]; cbn; [|done]. by intros [= <- <-].
Qed.

(** Admission takes one slot of a request under the limit, a refusal none. *)
Lemma admit_slots (gt : Gate) (q : Request) (w w' : World) (adm : Admission) :
  admit_request float_text json_headers gt q w = Some (adm, w') ->
  match adm with
  | AdmittedBy a => ad_slot a = limited gt q /\ (w_slots w' + stage_slots (Waiting a) = w_slots w)%nat
  | Refused _ => w_slots w' = w_slots w
  end.
Proof.
  unfold admit_request. destruct (admit_client _ gt q); [by intros [= <- <-]|].
  destruct (admit_maintenance _ gt q); [by intros [= <- <-]|].
  destruct (admit_slot gt q w) as [[slot w1]|] eqn:Es; [|by intros [= <- <-]].
  assert (H1 : slot = limited gt q /\ (w_slots w1 + (if slot then 1 else 0) = w_slots w)%nat).
  { unfold admit_slot, limited in *. destruct (gt_concurrency gt) as [sc|]; [|injection Es as <- <-; split; [done|lia]].
    destruct (applies sc q); [|injection Es as <- <-; split; [done|lia]].
    unfold take_slot in Es. destruct (w_slots w) eqn:Ew; cbn in Es; [done|]. injection Es as <- <-. cbn. split; [done|lia]. }
  destruct H1 as [-> H1].
  destruct (admit_shield _ _ gt q w1) as [[d w2]|] eqn:Eh; cbn [mbind option_bind fst snd]; [|done].
  assert (H2 : w_slots w2 = w_slots w1).
  { unfold admit_shield in Eh. destruct (gt_shield gt) as [[s sc]|]; [|by injection Eh as _ <-].
    destruct (applies sc q); [by eapply decide_slots|by injection Eh as _ <-]. }
  destruct d as [|r|report]; intros [= <- <-]; cbn; rewrite ?H2; try (split; [done|]; lia).
  unfold give_back. destruct (limited gt q); cbn; lia.
Qed.

Lemma proxy_step_inv (gt : Gate) (max : nat) (p p' : Proxy) :
  proxy_step gt p p' ->
  (w_slots (px_world p) + in_flight (px_calls p) = max)%nat /\
    (forall id st, px_calls p !! id = Some st -> (stage_slots st <= 1)%nat) ->
  (w_slots (px_world p') + in_flight (px_calls p') = max)%nat /\
    (forall id st, px_calls p' !! id = Some st -> (stage_slots st <= 1)%nat).
Proof.
  assert (Hup : forall (calls : gmap nat Stage) id st', (stage_slots st' <= 1)%nat ->
    (forall i st, calls !! i = Some st -> (stage_slots st <= 1)%nat) ->
    forall i st, <[id := st']> calls !! i = Some st -> (stage_slots st <= 1)%nat).
  { intros calls id st' H1 H i st [[_ <-]|[_ ?]]%lookup_insert_Some; eauto. }
  destruct 1 as [w calls id q a w' Hid Ha|w calls q r w' Ha|w w' calls Hw|w calls id a resp Hid|w calls id n f Hid|w calls id st Hid];
    cbn [px_world px_calls]; intros [Hsum Hone]; unfold in_flight in *.
  - apply admit_slots in Ha as [_ Ha]. rewrite weigh_insert by done. split; [lia|].
    apply Hup; [|done]. cbn. destruct (ad_slot a); lia.
  - apply admit_slots in Ha. split; [lia|done].
  - split; [lia|done].
  - pose proof (weigh_update stage_slots calls id _ (Streaming (an_slots (settle a (mkAnswer resp 0)))) Hid) as Hu.
    cbn in *. split; [destruct (ad_slot a); lia|]. apply Hup; [|done]. cbn. destruct (ad_slot a); lia.
  - pose proof (weigh_update stage_slots calls id _ (Streaming (held_poll n f)) Hid) as Hu.
    pose proof (Hone id _ Hid) as H1. cbn in *. unfold held_poll in *.
    split; [destruct (ends f); lia|]. apply Hup; [|done]. cbn. destruct (ends f); lia.
  - pose proof (weigh_delete stage_slots calls id st Hid) as Hu. cbn. split; [lia|].
    intros i st' [_ ?]%lookup_delete_Some. eauto.
Qed.

Lemma proxy_run_inv (gt : Gate) (max : nat) (p : Proxy) :
  proxy_run gt max p ->
  (w_slots (px_world p) + in_flight (px_calls p) = max)%nat /\
    (forall id st, px_calls p !! id = Some st -> (stage_slots st <= 1)%nat).
Proof.
  induction 1 as [w Hw|p p' _ IH Hs]; [|by eapply proxy_step_inv].
  cbn. split; [by rewrite Hw, Nat.add_0_r|]. intros id st H. by rewrite lookup_empty in H.
Qed.

(** C4: the concurrency limit holds over every run. Whatever requests arrive at
    the gate, however its services interleave, answer, stream, fail or are
    dropped, the free slots and those in flight always add up to the limit, no
    request holds more than one, so at most [max] requests under the limit are in
    flight; and a request that reaches the limit is refused for it exactly when
    [max] are. A refused request holds no slot. *)
Theorem slots_run (gt : Gate) (max : nat) (p : Proxy) :
  proxy_run gt max p ->
  (w_slots (px_world p) + in_flight (px_calls p) = max)%nat /\ (in_flight (px_calls p) <= max)%nat /\
  (forall id st, px_calls p !! id = Some st -> (stage_slots st <= 1)%nat) /\
  (forall q, admit_slot gt q (px_world p) = None <-> limited gt q = true /\ in_flight (px_calls p) = max) /\
  (forall q r w', admit_request float_text json_headers gt q (px_world p) = Some (Refused r, w') ->
     w_slots w' = w_slots (px_world p)).
Proof.
  intros H. destruct (proxy_run_inv gt max p H) as [Hsum Hone].
  split_and!; [done|lia|done| |].
  - intros q. unfold admit_slot, limited, take_slot. destruct (gt_concurrency gt) as [sc|]; [|split; [done|by intros []]].
    destruct (applies sc q); [|split; [done|by intros []]].
    destruct (w_slots (px_world p)) eqn:E; cbn.
    + split; [|done]. intros _. split; [done|lia].
    + split; [done|]. intros [_ ?]. lia.
  - intros q r w' Ha. by apply admit_slots in Ha.
Qed.
End Slots.

(** ** A guarded proxy *)

Module Demo.
Import Model Shield.Demo.

#[export] Instance globsets : GlobSetLib := {
  GlobSet := list text;
  globset_build gs := Ok gs;
  globset_match gs p := existsb (fun g => glob_match (GlobLib := globs) g p) gs;
}.
#[export] Instance globset_laws : GlobSetLaws globsets.
Proof. split. cbn. by intros gs s p [= <-]. Qed.

(** Everything guarded but the proxy's own endpoints. *)
Definition compiled : result Scope scope_error :=
  scope_compile (Some (mkScopeConfig (Some [TTranscoded; TGrpc]) [txt "/api/**"] [txt "get"]))
    [TAll] (routed_new []).
Definition api : Scope := match compiled with Ok s => s | Err _ => mkScope 0 None None end.
Definition every : Scope := mkScope 15 None None.

Lemma api_compiled : compiled = Ok api.
Proof. vm_cast_no_check (eq_refl (Ok (E := scope_error) api)). Qed.

Lemma scope_compile_ok_witness :
  covers api CGrpc = true /\ covers api CVerify = false /\
  scope_matches api (ask 7) = true.
Proof.
  destruct (scope_compile_ok _ _ _ api api_compiled) as (H1 & _ & H2 & _).
  split; [rewrite H1; reflexivity|]. split; [rewrite H1; reflexivity|].
  apply H2. split; right.
  - exists (txt "get"). split; [constructor|reflexivity].
  - exists (txt "/api/**"), (txt "/api/"). split; [constructor|]. split; vm_compute; reflexivity.
Defined.

(** A decider that refuses everything, a target that answers. *)
Definition refuse_all : Layer (X := unit) := fun _ _ w =>
  Some (mkAnswer (reject json CPermissionDenied (txt "no")) 0, w).
Definition target : Svc (X := unit) := fun _ w =>
  Some (mkAnswer (json_response json 200 Null) 0, w).

Definition guards : Guards (X := unit) :=
  mkGuards None (Some (mkMaintenance [txt "/api/**"] (txt "back soon"), every)) (Some api) (Some (shield, every))
    None None (Some (refuse_all, api)).

Definition world : World (X := unit) := mkWorld 1 None (Some tt) new_store (at_ms 5) tt.


(** One request admitted under a limit of one. *)
Definition gate : Gate := mkGate None None (Some every) None.
Definition busy : Proxy (X := unit) :=
  mkProxy (set_slots world 0) (<[7%nat := Waiting (mkAdmitted true None)]> ∅).

Lemma busy_run : proxy_run no_float json gate 1 busy.
Proof.
  eapply PxStep; [apply (PxStart _ _ gate 1 world); reflexivity|].
  apply (PAdmit _ _ gate world ∅ 7 (ask 7)); reflexivity.
Qed.

Lemma slots_run_witness : admit_slot gate (ask 8) (px_world busy) = None /\ (in_flight (px_calls busy) <= 1)%nat.
Proof.
  destruct (slots_run no_float json gate 1 busy busy_run) as (_ & H & _ & Hiff & _).
  split; [apply Hiff; split; vm_compute; reflexivity|exact H].
Defined.
End Demo.
