(* ===== verification/Global.v ===== *)
(** * Fleet-wide counters ([src/shield/window.rs], [src/shield/global.rs])

    The per-key reconciliation state, the gate and the record of the request
    path, and the passes of the background task: claim, push, read, refresh and
    evict. Times are arguments; what the shared store answers is too. *)

From stdpp Require Import relations.
From Stdlib Require Import Floats.SpecFloat.
From S2P Require Import Prelude Rust Json Http Status ShieldRules Shield.

(** ** Sliding windows *)

(** [f64] arithmetic, round to nearest even. *)
Definition f64_add := SFadd 53 1024.
Definition f64_sub := SFsub 53 1024.
Definition f64_mul := SFmul 53 1024.
Definition f64_div := SFdiv 53 1024.
(** [f64::max], here of numbers only, and [clamp]. *)
Definition f64_max (a b : spec_float) : spec_float := if SFltb a b then b else a.
Definition f64_clamp (x lo hi : spec_float) : spec_float :=
  if SFltb x lo then lo else if SFltb hi x then hi else x.
Definition f64_zero : spec_float := S754_zero false.
Definition f64_one : spec_float := f64_of_Z 1.
Definition F64_MIN_POSITIVE : spec_float := S754_finite false 4503599627370496 (-1074).

(** [f64::ceil]. *)
Definition f64_ceil (f : spec_float) : spec_float :=
  match f with
  | S754_finite s m e =>
      if 0 <=? e then f
      else
        let v := (if s then Z.neg m else Z.pos m) in
        let c := - ((- v) / 2 ^ (- e)) in
        if c =? 0 then S754_zero s else f64_of_Z c
  | _ => f
  end.

(** [f as u64], saturating. *)
Definition f64_as_u64 (f : spec_float) : Z :=
  match f with
  | S754_finite false m e => to_u64_saturating (if 0 <=? e then Z.pos m * 2 ^ e else Z.pos m / 2 ^ (- e))
  | S754_infinity false => U64_MAX
  | _ => 0
  end.

(** [Duration::as_secs_f64]. *)
Definition as_secs_f64 (d : Z) : spec_float :=
  f64_add (f64_of_Z (as_secs d)) (f64_div (f64_of_Z (subsec_nanos d)) (f64_of_Z NANOS_PER_SEC)).

Definition epoch (now window : Z) : Z := as_secs now / Z.max (as_secs window) 1.

Definition elapsed_in_window (now window : Z) : Z :=
  let w := Z.max (as_secs window) 1 in from_secs (as_secs now mod w) + subsec_nanos now.

Definition sliding_estimate (cur prev elapsed window : Z) : spec_float :=
  let w := f64_max (as_secs_f64 window) F64_MIN_POSITIVE in
  let frac := f64_clamp (f64_div (as_secs_f64 elapsed) w) f64_zero f64_one in
  f64_add (f64_of_Z cur) (f64_mul (f64_of_Z prev) (f64_sub f64_one frac)).

(** ** The state of a key *)

Definition epoch_key (key : text) (e : Z) : text := txt "sp:rl:" ++ key ++ txt ":" ++ show_u64 e.

Definition KEY_TTL : Z := from_secs 600.
Definition MAX_KEYS : nat := Z.to_nat 500000.
#[global] Opaque MAX_KEYS.

Record KeyState := mkKey {
  ks_epoch : Z;
  ks_window_secs : Z;
  ks_local_count : Z;
  ks_carryover : Z;
  ks_carryover_epoch : Z;
  ks_remote_estimate : Z;
  ks_estimate_at : Z;
  ks_last_seen : Z;
  ks_seen : bool;
}.

Definition key_new (e window_secs instant : Z) : KeyState :=
  mkKey e window_secs 0 0 0 0 instant instant true.

Definition roll_to (s : KeyState) (e : Z) : KeyState :=
  if ks_epoch s =? e then s
  else
    let '(carry, carry_epoch) :=
      if 0 <? ks_local_count s then
        (if (0 <? ks_carryover s) && negb (ks_carryover_epoch s =? ks_epoch s) then ks_local_count s
         else ks_carryover s + ks_local_count s, ks_epoch s)
      else (ks_carryover s, ks_carryover_epoch s) in
    mkKey e (ks_window_secs s) 0 carry carry_epoch (ks_remote_estimate s) (ks_estimate_at s)
      (ks_last_seen s) (ks_seen s).

Definition with_count (s : KeyState) (n : Z) : KeyState :=
  mkKey (ks_epoch s) (ks_window_secs s) n (ks_carryover s) (ks_carryover_epoch s) (ks_remote_estimate s)
    (ks_estimate_at s) (ks_last_seen s) (ks_seen s).

Definition touched (s : KeyState) (instant : Z) : KeyState :=
  mkKey (ks_epoch s) (ks_window_secs s) (ks_local_count s) (ks_carryover s) (ks_carryover_epoch s)
    (ks_remote_estimate s) (ks_estimate_at s) instant true.

Record GlobalCounters := mkCounters { gc_interval : Z; gc_states : gmap text KeyState }.

(** [GlobalCounters::build], of a store URL that parses. *)
Definition counters_build (interval : Z) : GlobalCounters := mkCounters (Z.max interval (from_millis 50)) ∅.

Definition set_state (g : GlobalCounters) (key : text) (s : KeyState) : GlobalCounters :=
  mkCounters (gc_interval g) (<[key := s]> (gc_states g)).

(** [state_for]: the state of the key, as the guard it returns leaves it; [None]
    for a new key past the cap. *)
Definition state_for (g : GlobalCounters) (now : Clock) (key : text) (window : Z) : option KeyState :=
  let window_secs := Z.max (as_secs window) 1 in
  let ep := epoch (ck_unix now) window in
  let over_cap := Nat.leb MAX_KEYS (size (gc_states g)) in
  let! state := match gc_states g !! key with
                | Some s => Some s
                | None => if over_cap then None else Some (key_new ep window_secs (ck_instant now))
                end in
  let state := if ks_window_secs state =? window_secs then state
               else key_new ep window_secs (ck_instant now) in
  Some (touched (roll_to state ep) (ck_instant now)).

(** [fleet_remaining]; [None] is the overflow of [used]. *)
Definition global_remaining (g : GlobalCounters) (now : Clock) (key : text) (budget window : Z)
  : option (Z * GlobalCounters) :=
  match state_for g now key window with
  | None => Some (budget, g)
  | Some state =>
      let stale_after := Z.max (gc_interval g * 4) (from_secs 2) in
      let remote := if dur_saturating_sub (ck_instant now) (ks_estimate_at state) <? stale_after
                    then ks_remote_estimate state else 0 in
      let used := remote + ks_local_count state + ks_carryover state in
      if U64_MAX <? used then None
      else Some (u64_saturating_sub budget used, set_state g key state)
  end.

Definition global_record (g : GlobalCounters) (now : Clock) (key : text) (window : Z) : GlobalCounters :=
  match state_for g now key window with
  | None => g
  | Some state => set_state g key (with_count state (ks_local_count state + 1))
  end.

#[export] Instance global_counters : FleetLib := {
  Fleet := GlobalCounters;
  fleet_remaining := global_remaining;
  fleet_record := global_record;
}.

(** ** Reconciliation *)

Record PushPlan := mkPlan {
  pp_key : text;
  pp_push_epoch : Z;
  pp_read_epoch : Z;
  pp_window : Z;
  pp_delta : Z;
  pp_is_carryover : bool;
}.

(** One key of [claim_plans], under its lock: what it claims, what it leaves. *)
Definition claim_key (key : text) (s : KeyState) (now : Z) : list PushPlan * KeyState :=
  let active := (0 <? ks_local_count s) || (0 <? ks_carryover s) || ks_seen s in
  let s := mkKey (ks_epoch s) (ks_window_secs s) (ks_local_count s) (ks_carryover s) (ks_carryover_epoch s)
             (ks_remote_estimate s) (ks_estimate_at s) (ks_last_seen s) false in
  if negb active then ([], s)
  else
    let window := from_secs (ks_window_secs s) in
    let read_epoch := epoch now window in
    let plan := mkPlan key (ks_epoch s) read_epoch window (ks_local_count s) false in
    let s := with_count s 0 in
    if 0 <? ks_carryover s then
      ([plan; mkPlan key (ks_carryover_epoch s) read_epoch window (ks_carryover s) true],
       mkKey (ks_epoch s) (ks_window_secs s) (ks_local_count s) 0 (ks_carryover_epoch s) (ks_remote_estimate s)
         (ks_estimate_at s) (ks_last_seen s) (ks_seen s))
    else ([plan], s).

(** [claim_plans], the keys in the order the map iterates them. *)
Definition claim_plans (g : GlobalCounters) (now : Z) : list PushPlan * GlobalCounters :=
  foldl (fun acc key =>
    match gc_states acc.2 !! key with
    | Some s => let '(plans, s) := claim_key key s now in (acc.1 ++ plans, set_state acc.2 key s)
    | None => acc
    end) ([], g) (map_to_list (gc_states g)).*1.

(** The [INCRBY] and [PEXPIRE] of [push_deltas]: key, increment, time to live. *)
Definition push_deltas (plans : list PushPlan) : list (text * Z * Z) :=
  (fun p => (epoch_key (pp_key p) (pp_push_epoch p), pp_delta p,
             Z.max (u64_saturating_mul (as_millis (pp_window p) mod 2 ^ 64) 2) 1))
    <$> filter (fun p => 0 < pp_delta p) plans.

(** [read_epochs]: the keys of the [MGET], and what its answers mean. *)
Definition mget_keys (plans : list PushPlan) : list text :=
  plans ≫= fun p => [epoch_key (pp_key p) (pp_read_epoch p);
                      epoch_key (pp_key p) (u64_saturating_sub (pp_read_epoch p) 1)].

Definition read_epochs (plans : list PushPlan) (vals : list (option Z)) : list (Z * Z) :=
  imap (fun i _ => (Z.max (default 0 (mjoin (vals !! (i * 2)%nat))) 0,
                    Z.max (default 0 (mjoin (vals !! (i * 2 + 1)%nat))) 0)) plans.

(** One key of [apply_estimates]. *)
Definition estimate_key (s : KeyState) (p : PushPlan) (cur prev unix instant : Z) : KeyState :=
  if negb (ks_window_secs s =? as_secs (pp_window p)) || (pp_read_epoch p <? ks_epoch s) then s
  else
    let est := sliding_estimate cur prev (elapsed_in_window unix (pp_window p)) (pp_window p) in
    mkKey (ks_epoch s) (ks_window_secs s) (ks_local_count s) (ks_carryover s) (ks_carryover_epoch s)
      (f64_as_u64 (f64_max (f64_ceil est) f64_zero)) instant (ks_last_seen s) (ks_seen s).

Definition apply_estimates (g : GlobalCounters) (unix instant : Z) (plans : list PushPlan) (reads : list (Z * Z))
  : GlobalCounters :=
  foldl (fun g pr =>
    let '(p, (cur, prev)) := pr in
    if pp_is_carryover p then g
    else match gc_states g !! pp_key p with
         | Some s => set_state g (pp_key p) (estimate_key s p cur prev unix instant)
         | None => g
         end) g (zip plans reads).

Definition evict_keeps (instant : Z) (s : KeyState) : bool :=
  (0 <? ks_local_count s) || (0 <? ks_carryover s) ||
  (dur_saturating_sub instant (ks_last_seen s) <?
     Z.max KEY_TTL (from_secs (u64_saturating_mul (ks_window_secs s) 2))).

Definition evict_stale (g : GlobalCounters) (instant : Z) : GlobalCounters :=
  mkCounters (gc_interval g) (filter (fun ks => evict_keeps instant ks.2 = true) (gc_states g)).

(** [reconcile_at], when the store is reachable: [vals] answers its [MGET]. *)
Definition reconcile_at (g : GlobalCounters) (unix instant : Z) (vals : list (option Z))
  : list (text * Z * Z) * GlobalCounters :=
  let g := evict_stale g instant in
  let '(plans, g) := claim_plans g unix in
  match plans with
  | [] => ([], g)
  | _ => (push_deltas plans, apply_estimates g unix instant plans (read_epochs plans vals))
  end.

(** ** Runs: requests and the background task interleaved *)

(** The counters, the plans claimed and not pushed yet, and, per key and epoch,
    what requests recorded and what was added to the shared store. *)
Record Run := mkRun {
  rn_counters : GlobalCounters;
  rn_claimed : list PushPlan;
  rn_recorded : text -> Z -> Z;
  rn_published : text -> Z -> Z;
}.

Definition bump (f : text -> Z -> Z) (key : text) (e n : Z) : text -> Z -> Z :=
  fun k x => if decide (k = key /\ x = e) then f k x + n else f k x.

Definition planned (plans : list PushPlan) (key : text) (e : Z) : Z :=
  foldr (fun p n => (if decide (pp_key p = key /\ pp_push_epoch p = e) then pp_delta p else 0) + n) 0 plans.

(** Each step is atomic under the lock of one key or shard, or is a transaction
    of the store: a request is gated, or recorded once admitted; the task claims a key,
    pushes its claims, loses them with the store, refreshes a key, or evicts the
    stale keys of a shard of the map. *)
Inductive global_step : Run -> Run -> Prop :=
| GGate g cl rc pb now key budget window left g' :
    global_remaining g now key budget window = Some (left, g') ->
    global_step (mkRun g cl rc pb) (mkRun g' cl rc pb)
| GRecord g cl rc pb now key window :
    global_step (mkRun g cl rc pb)
      (mkRun (global_record g now key window) cl (bump rc key (epoch (ck_unix now) window) 1) pb)
| GClaim g cl rc pb now key s plans s' :
    gc_states g !! key = Some s -> claim_key key s now = (plans, s') ->
    global_step (mkRun g cl rc pb) (mkRun (set_state g key s') (cl ++ plans) rc pb)
| GPush g cl rc pb :
    global_step (mkRun g cl rc pb) (mkRun g [] rc (fun k e => pb k e + planned cl k e))
| GLose g cl rc pb :
    global_step (mkRun g cl rc pb) (mkRun g [] rc pb)
| GEstimate g cl rc pb key s p cur prev unix instant :
    gc_states g !! key = Some s ->
    global_step (mkRun g cl rc pb) (mkRun (set_state g key (estimate_key s p cur prev unix instant)) cl rc pb)
| GEvict g cl rc pb (shard : text -> bool) instant :
    global_step (mkRun g cl rc pb)
      (mkRun (mkCounters (gc_interval g)
                (filter (fun ks => shard ks.1 = true -> evict_keeps instant ks.2 = true) (gc_states g))) cl rc pb).

Inductive global_run (interval : Z) : Run -> Prop :=
| GStart : global_run interval (mkRun (counters_build interval) [] (fun _ _ => 0) (fun _ _ => 0))
| GStep r r' : global_run interval r -> global_step r r' -> global_run interval r'.

(** What a key's state owes an epoch. *)
Definition owed (o : option KeyState) (e : Z) : Z :=
  match o with
  | Some s => (if ks_epoch s =? e then ks_local_count s else 0) +
              (if ks_carryover_epoch s =? e then ks_carryover s else 0)
  | None => 0
  end.

Definition counts_ok (s : KeyState) : Prop := 0 <= ks_local_count s /\ 0 <= ks_carryover s.

(** The invariant: what an epoch was given, is given and is owed was recorded. *)
Record run_inv (r : Run) : Prop := {
  ri_counts : forall k s, gc_states (rn_counters r) !! k = Some s -> counts_ok s;
  ri_deltas : Forall (fun p => 0 <= pp_delta p) (rn_claimed r);
  ri_sum : forall k e, rn_published r k e + planned (rn_claimed r) k e +
             owed (gc_states (rn_counters r) !! k) e <= rn_recorded r k e;
  ri_published : forall k e, 0 <= rn_published r k e;
}.

Lemma planned_app (l1 l2 : list PushPlan) (k : text) (e : Z) :
  planned (l1 ++ l2) k e = planned l1 k e + planned l2 k e.
Proof. induction l1 as [|p l1 IH]; cbn; [done|]. fold (planned l1 k e). unfold planned in *. lia. Qed.

Lemma planned_nonneg (l : list PushPlan) (k : text) (e : Z) :
  Forall (fun p => 0 <= pp_delta p) l -> 0 <= planned l k e.
Proof. induction 1 as [|p l Hp _ IH]; [done|]. cbn. fold (planned l k e). case_decide; lia. Qed.

Lemma roll_owed (s : KeyState) (e x : Z) :
  counts_ok s -> counts_ok (roll_to s e) /\ ks_epoch (roll_to s e) = e /\
  owed (Some (roll_to s e)) x <= owed (Some s) x.
Proof.
  intros [Hl Hc]. unfold roll_to, counts_ok, owed. destruct (Z.eqb_spec (ks_epoch s) e) as [|Hne]; [split_and!; lia|].
  destruct (Z.ltb_spec 0 (ks_local_count s)); cbn.
  - destruct (Z.ltb_spec 0 (ks_carryover s)); cbn;
      [destruct (Z.eqb_spec (ks_carryover_epoch s) (ks_epoch s)) as [->|]; cbn|];
      (split_and!; [lia|lia|done|]); repeat case_match; bool_simpl; lia.
  - split_and!; [lia|lia|done|]. repeat case_match; bool_simpl; lia.
Qed.

(** The state a request sees: at the current epoch, owing no more than before. *)
Lemma state_for_owed (g : GlobalCounters) (now : Clock) (key : text) (window : Z) (s : KeyState) :
  (forall k s, gc_states g !! k = Some s -> counts_ok s) ->
  state_for g now key window = Some s ->
  counts_ok s /\ ks_epoch s = epoch (ck_unix now) window /\
  forall x, owed (Some s) x <= owed (gc_states g !! key) x.
Proof.
  intros Hok. unfold state_for. set (ep := epoch (ck_unix now) window). set (ws := Z.max (as_secs window) 1).
  assert (Hnew : forall i, counts_ok (key_new ep ws i) /\ forall x, owed (Some (key_new ep ws i)) x = 0).
  { intros i. split; [split; cbn; lia|]. intros x. cbn. repeat case_match; lia. }
  assert (Hsome : forall s0, counts_ok s0 -> (forall x, owed (Some s0) x <= owed (gc_states g !! key) x) ->
    Some (touched (roll_to s0 ep) (ck_instant now)) = Some s ->
    counts_ok s /\ ks_epoch s = ep /\ forall x, owed (Some s) x <= owed (gc_states g !! key) x).
  { intros s0 Hs0 Hle [= <-]. destruct (roll_owed s0 ep 0 Hs0) as (Hc & He & _). split_and!; [done|done|].
    intros x. destruct (roll_owed s0 ep x Hs0) as (_ & _ & Hx). etransitivity; [exact Hx|apply Hle]. }
  assert (Hpos : forall x, 0 <= owed (gc_states g !! key) x).
  { intros x. destruct (gc_states g !! key) as [s0|] eqn:E; [|done]. destruct (Hok _ _ E). cbn.
    repeat case_match; lia. }
  destruct (gc_states g !! key) as [s0|] eqn:E.
  - cbn [mbind option_bind]. destruct (ks_window_secs s0 =? ws).
    + apply Hsome; [by eapply Hok|done].
    + apply Hsome; [apply Hnew|]. intros x. rewrite (proj2 (Hnew _)). apply Hpos.
  - destruct (Nat.leb _ _); cbn [mbind option_bind]; [done|]. cbn [key_new ks_window_secs].
    rewrite Z.eqb_refl. apply Hsome; [apply Hnew|]. intros x. by rewrite (proj2 (Hnew _)).
Qed.

Lemma claim_owed (key : text) (s s' : KeyState) (now : Z) (plans : list PushPlan) :
  counts_ok s -> claim_key key s now = (plans, s') ->
  counts_ok s' /\ Forall (fun p => 0 <= pp_delta p) plans /\
  (forall x, planned plans key x + owed (Some s') x = owed (Some s) x) /\
  (forall k x, k <> key -> planned plans k x = 0).
Proof.
  intros [Hl Hc]. unfold claim_key. destruct (negb _) eqn:Ea.
  { intros [= <- <-]. split_and!; try done. }
  cbn [ks_carryover with_count]. destruct (Z.ltb_spec 0 (ks_carryover s)); intros [= <- <-].
  - split; [split; cbn; lia|]. split; [repeat constructor; cbn; lia|]. split.
    + intros x. cbn. destruct (Z.eqb_spec (ks_epoch s) x), (Z.eqb_spec (ks_carryover_epoch s) x);
        repeat case_decide; naive_solver lia.
    + intros k x Hk. cbn. repeat case_decide; naive_solver.
  - split; [split; cbn; lia|]. split; [repeat constructor; cbn; lia|]. split.
    + intros x. cbn. destruct (Z.eqb_spec (ks_epoch s) x), (Z.eqb_spec (ks_carryover_epoch s) x);
        repeat case_decide; naive_solver lia.
    + intros k x Hk. cbn. repeat case_decide; naive_solver.
Qed.

(** Reading the parts of a run, no further. *)
Ltac run_simpl := cbn [rn_counters rn_claimed rn_recorded rn_published gc_states gc_interval set_state fst snd] in *.

(** A step that puts [s'] for a key, owing no more than before beside what it
    adds to the claims and to the record. *)
Lemma put_inv (g : GlobalCounters) (cl cl' : list PushPlan) (rc rc' pb : text -> Z -> Z) (key : text) (s' : KeyState) :
  run_inv (mkRun g cl rc pb) -> counts_ok s' -> Forall (fun p => 0 <= pp_delta p) cl' ->
  (forall x, planned cl' key x + owed (Some s') x - rc' key x <=
             planned cl key x + owed (gc_states g !! key) x - rc key x) ->
  (forall k x, k <> key -> planned cl' k x - rc' k x <= planned cl k x - rc k x) ->
  run_inv (mkRun (set_state g key s') cl' rc' pb).
Proof.
  intros [Hc Hd Hs Hp] Hs' Hd' Hkey Hother. split; run_simpl; try done.
  - intros k s [[_ <-]|[_ ?]]%lookup_insert_Some; eauto.
  - intros k e. specialize (Hs k e). destruct (decide (k = key)) as [->|Hne].
    + rewrite lookup_insert_eq. specialize (Hkey e). lia.
    + rewrite lookup_insert_ne by done. specialize (Hother k e Hne). lia.
Qed.

Lemma global_step_inv (r r' : Run) : global_step r r' -> run_inv r -> run_inv r'.
Proof.
  destruct 1 as [g cl rc pb now key budget window left g' H|g cl rc pb now key window|
    g cl rc pb now key s plans s' Hk Hc|g cl rc pb|g cl rc pb|g cl rc pb key s p cur prev unix instant Hk|
    g cl rc pb shard instant]; intros Hi; pose proof Hi as [Hcounts Hd Hs Hp]; run_simpl.
  - unfold global_remaining in H. destruct (state_for g now key window) as [s|] eqn:E; [|by injection H as _ <-].
    case_match; [done|]. injection H as _ <-.
    destruct (state_for_owed g now key window s Hcounts E) as (Hok & _ & Hle).
    eapply put_inv; try done. intros x. specialize (Hle x). lia.
  - unfold global_record. destruct (state_for g now key window) as [s|] eqn:E.
    + destruct (state_for_owed g now key window s Hcounts E) as ([Hl Hca] & He & Hle).
      eapply put_inv; [exact Hi|split; cbn; lia|done| |].
      * intros x. specialize (Hle x). unfold bump. cbn in *. rewrite He in *.
        destruct (Z.eqb_spec (epoch (ck_unix now) window) x); repeat case_decide; naive_solver lia.
      * intros k x Hk. unfold bump. case_decide; naive_solver lia.
    + split; run_simpl; try done. intros k e. specialize (Hs k e). unfold bump. case_decide; lia.
  - destruct (claim_owed key s s' now plans (Hcounts _ _ Hk) Hc) as (Hok & Hd' & Hsum & Hno).
    eapply put_inv; [exact Hi|done|by apply Forall_app| |].
    + intros x. rewrite planned_app, Hk. specialize (Hsum x). lia.
    + intros k x Hne. rewrite planned_app, Hno by done. lia.
  - split; run_simpl; try done.
    + intros k e. specialize (Hs k e). change (planned [] k e) with 0. lia.
    + intros k e. specialize (Hp k e). pose proof (planned_nonneg cl k e Hd). lia.
  - split; run_simpl; try done. intros k e. specialize (Hs k e). pose proof (planned_nonneg cl k e Hd).
    change (planned [] k e) with 0. lia.
  - eapply put_inv; try done.
    + unfold estimate_key. case_match; [by eapply Hcounts|]. split; apply (Hcounts _ _ Hk).
    + intros x. rewrite Hk. unfold estimate_key. case_match; cbn; lia.
  - split; run_simpl; try done.
    + intros k s [Hk _]%map_lookup_filter_Some. by eapply Hcounts.
    + intros k e. specialize (Hs k e).
      assert (Hle : owed (filter (fun ks => shard ks.1 = true -> evict_keeps instant ks.2 = true) (gc_states g) !! k) e
                    <= owed (gc_states g !! k) e); [|lia].
      destruct (gc_states g !! k) as [s|] eqn:Ek.
      * destruct (Hcounts _ _ Ek). destruct (filter _ _ !! k) as [s0|] eqn:Ef.
        -- apply map_lookup_filter_Some in Ef as [Ef _]. by replace s0 with s by congruence.
        -- cbn. repeat case_match; lia.
      * by rewrite (proj2 (map_lookup_filter_None _ _ _)) by auto.
Qed.

Lemma global_run_inv (interval : Z) (r : Run) : global_run interval r -> run_inv r.
Proof.
  induction 1 as [|r r' _ IH Hs]; [|by eapply global_step_inv].
  split; run_simpl; try done.
Qed.

(** C24: the fleet never sees an admission twice. However requests and the passes
    of the background task interleave, epochs roll, tiers change their window, keys
    are evicted and pushes fail, what is added to the shared counter of a key and
    epoch, with what is claimed for it and what its state still holds, never
    exceeds the requests recorded for that key while that epoch was current. *)
Theorem published_at_most_recorded (interval : Z) (r : Run) (key : text) (e : Z) :
  global_run interval r ->
  0 <= rn_published r key e /\
  rn_published r key e + planned (rn_claimed r) key e + owed (gc_states (rn_counters r) !! key) e
    <= rn_recorded r key e /\
  0 <= planned (rn_claimed r) key e /\ 0 <= owed (gc_states (rn_counters r) !! key) e.
Proof.
  intros H. destruct (global_run_inv interval r H) as [Hc Hd Hs Hp].
  split; [apply Hp|]. split; [apply Hs|]. split; [by apply planned_nonneg|].
  destruct (gc_states _ !! key) as [s|] eqn:E; [|done]. destruct (Hc _ _ E). cbn. repeat case_match; lia.
Qed.

(** ** A pass of the task is such a run *)

Lemma claim_plans_run (keys : list text) (g : GlobalCounters) (now : Z) (cl : list PushPlan)
  (rc pb : text -> Z -> Z) :
  let r := foldl (fun acc key =>
    match gc_states acc.2 !! key with
    | Some s => let '(plans, s) := claim_key key s now in (acc.1 ++ plans, set_state acc.2 key s)
    | None => acc
    end) (cl, g) keys in
  rtc global_step (mkRun g cl rc pb) (mkRun r.2 r.1 rc pb).
Proof.
  revert g cl. induction keys as [|key keys IH]; intros g cl; cbn; [apply rtc_refl|].
  destruct (gc_states g !! key) as [s|] eqn:Ek; [|apply IH].
  destruct (claim_key key s now) as [plans s'] eqn:Ec.
  eapply rtc_l; [by eapply GClaim|]. apply IH.
Qed.

Lemma apply_estimates_run (prs : list (PushPlan * (Z * Z))) (g : GlobalCounters) (unix instant : Z)
  (cl : list PushPlan) (rc pb : text -> Z -> Z) :
  rtc global_step (mkRun g cl rc pb)
    (mkRun (foldl (fun g pr =>
      let '(p, (cur, prev)) := pr in
      if pp_is_carryover p then g
      else match gc_states g !! pp_key p with
           | Some s => set_state g (pp_key p) (estimate_key s p cur prev unix instant)
           | None => g
           end) g prs) cl rc pb).
Proof.
  revert g. induction prs as [|[p [cur prev]] prs IH]; intros g; cbn; [apply rtc_refl|].
  destruct (pp_is_carryover p); [apply IH|]. destruct (gc_states g !! pp_key p) as [s|] eqn:Ek; [|apply IH].
  eapply rtc_l; [by apply GEstimate|]. apply IH.
Qed.

(** [reconcile_at] takes the steps of a run, and adds to the store exactly what
    it claimed. *)
Lemma reconcile_run (g : GlobalCounters) (unix instant : Z) (vals : list (option Z)) (rc pb : text -> Z -> Z) :
  rtc global_step (mkRun g [] rc pb)
    (mkRun (reconcile_at g unix instant vals).2 [] rc
       (fun k e => pb k e + planned (claim_plans (evict_stale g instant) unix).1 k e)).
Proof.
  eapply rtc_l; [apply (GEvict g [] rc pb (fun _ => true) instant)|].
  assert (He : mkCounters (gc_interval g)
    (filter (fun ks => true = true -> evict_keeps instant ks.2 = true) (gc_states g)) = evict_stale g instant).
  { unfold evict_stale. f_equal. apply map_filter_ext. naive_solver. }
  cbn [fst]. rewrite He. unfold reconcile_at, claim_plans.
  pose proof (claim_plans_run (map_to_list (gc_states (evict_stale g instant))).*1 (evict_stale g instant) unix
                [] rc pb) as Hr.
  cbn zeta in Hr. destruct (foldl _ _ _) as [plans g1] eqn:Ef. cbn [fst snd] in *.
  etransitivity; [exact Hr|]. eapply rtc_l; [apply GPush|].
  destruct plans as [|p plans]; cbn [snd]; [apply rtc_refl|]. apply apply_estimates_run.
Qed.

(** The budget a request is told: what is left of [budget] after the fleet's last
    estimate, while fresh, and this instance's unpublished requests; all of it for
    a key the map has no room for. *)
Lemma global_remaining_range (g g' : GlobalCounters) (now : Clock) (key : text) (budget window left : Z) :
  0 <= budget -> (forall k s, gc_states g !! k = Some s -> counts_ok s /\ 0 <= ks_remote_estimate s) ->
  global_remaining g now key budget window = Some (left, g') -> 0 <= left <= budget.
Proof.
  intros Hb Hok. unfold global_remaining. destruct (state_for g now key window) as [s|] eqn:E; [|by intros [= <- _]; lia].
  assert (H : counts_ok s /\ 0 <= ks_remote_estimate s).
  { split; [eapply state_for_owed; [|exact E]; intros; by eapply Hok|].
    revert E. unfold state_for. destruct (gc_states g !! key) as [s0|] eqn:Ek; [destruct (Hok _ _ Ek) as [_ ?]|];
      [|destruct (Nat.leb _ _)]; cbn [mbind option_bind]; [|done|]; unfold roll_to; repeat case_match;
      intros [= <-]; cbn; try lia; congruence. }
  destruct H as [[? ?] ?]. repeat case_match; intros [= <- _]; unfold u64_saturating_sub; lia.
Qed.

Module Demo.
Definition at_s (t : Z) : Clock := mkClock (from_secs t) (from_secs t) (from_secs t) (from_secs t).
Definition minute : Z := from_secs 60.

Definition g0 : GlobalCounters := counters_build 0.
Definition g1 : GlobalCounters := global_record g0 (at_s 59) (txt "k") minute.
Definition g2 : GlobalCounters := global_record g1 (at_s 61) (txt "k") minute.
Definition g3 : GlobalCounters := (reconcile_at g2 (from_secs 61) (from_secs 61) [Some 1; Some 1; Some 1; Some 1]).2.

(** An admission of each side of a boundary: each goes to its own epoch, and the
    estimate counts the past one for 59/60, rounded up. *)
Example two_epochs :
  (reconcile_at g2 (from_secs 61) (from_secs 61) [Some 1; Some 1; Some 1; Some 1]).1 =
    [(txt "sp:rl:k:1", 1, 120000); (txt "sp:rl:k:0", 1, 120000)] /\
  (fst <$> global_remaining g3 (at_s 61) (txt "k") 5 minute) = Some 3.
Proof. vm_compute. done. Qed.

Definition nothing : text -> Z -> Z := fun _ _ => 0.
Definition demo : Run :=
  mkRun g2 [] (bump (bump nothing (txt "k") 0 1) (txt "k") 1 1) nothing.

Lemma demo_run : global_run 0 demo.
Proof.
  eapply GStep; [eapply GStep; [apply GStart|]|].
  - apply (GRecord g0 [] nothing nothing (at_s 59) (txt "k") minute).
  - apply (GRecord g1 [] (bump nothing (txt "k") 0 1) nothing (at_s 61) (txt "k") minute).
Qed.

Lemma published_at_most_recorded_witness : owed (gc_states g2 !! txt "k") 0 <= 1.
Proof.
  destruct (published_at_most_recorded 0 demo (txt "k") 0 demo_run) as (_ & H & _ & _). exact H.
Defined.
End Demo.
