(* ===== verification/Auth.v ===== *)
(** * Authentication and authorization ([src/auth/mod.rs], [src/auth/policy.rs],
    [src/auth/forward.rs], [src/auth/authz.rs], the decider gate of [src/embed.rs])

    JWT middleware and route policies over the claims cache, the forward-auth
    endpoint, the ext_authz gate and the embedder's decider, as layers of the
    guard stack. What a token verifier, an ext_authz server or a decider answers
    is a parameter. *)

From Stdlib Require Import Floats.SpecFloat.
From S2P Require Import Prelude Rust Json Http Net ClaimsCache ClientAddress Gcra GcraStore Status ShieldRules LimitService Shield Guard.

(** [HeaderValue::try_from(String)]: accepts the bytes of a field value. *)
Class HeaderValueLib : Type := { header_value : text -> option text }.
Class HeaderValueLaws (L : HeaderValueLib) : Prop := {
  header_value_same s v : header_value s = Some v -> v = s;
}.

Section Auth.
Context {HT : HttpLib} {HV : HeaderValueLib} {GL : GlobLib} {SH : ShaLib}.
(** [f64]'s [Display], [str::to_uppercase], and the responses of [axum]. *)
Context (float_text : spec_float -> text) (to_uppercase : text -> text) (json_headers : HeaderMap)
  (into_response : Z -> HeaderMap -> text -> Response).

(** ** Route policies *)

Record RoutePolicyConfig := mkPolicyConfig {
  pc_path : text;
  pc_methods : list text;
  pc_require_auth : bool;
  pc_required_roles : list text;
}.

Record RoutePolicy := mkRoutePolicy {
  rp_matcher : Glob;
  rp_methods : list text;
  rp_require_auth : bool;
  rp_required_roles : list text;
}.

Definition matches_method (p : RoutePolicy) (method : text) : bool :=
  existsb (fun m => bool_decide (m = txt "*") || bool_decide (m = method)) (rp_methods p).

(** [Policies::compile], its error the pattern and the reason. *)
Definition policies_compile (configs : list RoutePolicyConfig) : result (list RoutePolicy) (text * text) :=
  collect_results (fun c =>
    match glob_build (pc_path c) with
    | Ok m => Ok (mkRoutePolicy m (to_uppercase <$> pc_methods c) (pc_require_auth c) (pc_required_roles c))
    | Err e => Err (pc_path c, e)
    end) configs.

(** [Policies::match_rule]. *)
Definition policy_match (rules : list RoutePolicy) (path method : text) : option RoutePolicy :=
  find_first (fun r => glob_match (rp_matcher r) path && matches_method r method) rules.

(** ** Authentication *)

(** [claims_headers] in the order its map iterates. *)
Record Auth := mkAuth {
  au_claims_headers : list (text * text);
  au_roles_claim : text;
  au_policies : list RoutePolicy;
}.

(** What a request's authentication reads beside it: the claims cache (none for
    an injected verifier, or when switched off), the clocks, and what the verifier
    answers for a token now. *)
Record AuthState := mkAuthState {
  as_cache : option ClaimsCache;
  as_now : Now;
  as_check : text -> option Value;
}.

Definition set_as_cache (st : AuthState) (c : option ClaimsCache) : AuthState :=
  mkAuthState c (as_now st) (as_check st).

(** [Auth::verify]. *)
Definition verify (st : AuthState) (token : text) : option Value * AuthState :=
  match as_cache st with
  | Some cache =>
      if admits cache token then
        let key := sha256 token in
        let now := as_now st in
        let '(hit, cache) := cache_get cache key now in
        match hit with
        | Some claims => (Some claims, set_as_cache st (Some cache))
        | None =>
            match as_check st token with
            | Some claims => (Some claims, set_as_cache st (Some (cache_insert cache key claims now)))
            | None => (None, set_as_cache st (Some cache))
            end
        end
      else (as_check st token, st)
  | None => (as_check st token, st)
  end.

Inductive AuthDecision :=
| Allow (headers : HeaderMap) (claims : option Value)
| Unauthenticated (message : text)
| Forbidden (message : text).

Definition bearer_token (headers : HeaderMap) : option text :=
  let! value := hm_get_str headers (txt "authorization") in
  let! token := match strip_prefix (txt "Bearer ") value with
                | Some t => Some t
                | None => strip_prefix (txt "bearer ") value
                end in
  match trim token with [] => None | t => Some t end.

Definition extract_roles (claims : Value) (roles_claim : text) : list text :=
  match (let! v := claim_at claims roles_claim in as_array v) with
  | Some arr => omap as_str arr
  | None => []
  end.

Definition strip_claim_headers (headers : HeaderMap) (mapping : list (text * text)) : HeaderMap :=
  foldl (fun h ch => match header_name ch.2 with Some name => hm_remove h name | None => h end) headers mapping.

(** The header a claim is forwarded as: its name and value. *)
Definition claim_header (claims : Value) (ch : text * text) : option (text * text) :=
  let! v := claim_at claims ch.1 in
  let! rendered := scalar_text float_text v in
  let! name := header_name ch.2 in
  let! val := header_value rendered in
  Some (name, val).

Definition inject_claim_headers (headers : HeaderMap) (claims : Value) (mapping : list (text * text)) : HeaderMap :=
  foldl (fun h ch => match claim_header claims ch with
                     | Some (name, val) => hm_insert h name val
                     | None => h
                     end) headers mapping.

(** The route policy's verdict on the caller's claims. *)
Definition policy_refuses (a : Auth) (claims : option Value) (path method : text) : option AuthDecision :=
  match policy_match (au_policies a) path method with
  | None => None
  | Some policy =>
      if rp_require_auth policy && bool_decide (claims = None) then Some (Unauthenticated (txt "authentication required"))
      else match rp_required_roles policy with
           | [] => None
           | required =>
               match claims with
               | None => Some (Unauthenticated (txt "authentication required"))
               | Some claims =>
                   let roles := extract_roles claims (au_roles_claim a) in
                   if forallb (fun r => bool_decide (r ∈ roles)) required then None
                   else Some (Forbidden (txt "insufficient role"))
               end
           end
  end.

(** [Auth::decide]. *)
Definition auth_decide (a : Auth) (st : AuthState) (headers : HeaderMap) (path method : text)
  : AuthDecision * AuthState :=
  let '(claims, st) :=
    match bearer_token headers with
    | Some token => match verify st token with
                    | (Some c, st) => (Ok (Some c), st)
                    | (None, st) => (Err tt, st)
                    end
    | None => (Ok None, st)
    end in
  match claims with
  | Err _ => (Unauthenticated (txt "invalid or expired token"), st)
  | Ok claims =>
      match policy_refuses a claims path method with
      | Some refusal => (refusal, st)
      | None =>
          (Allow match claims with
                 | Some c => inject_claim_headers hm_empty c (au_claims_headers a)
                 | None => hm_empty
                 end claims, st)
      end
  end.

Definition unauthorized (message : text) : Response := reject json_headers CUnauthenticated message.
Definition forbidden (message : text) : Response := reject json_headers CPermissionDenied message.

(** [for (name, value) in &claim_headers { dst.insert(..) }]. *)
Definition insert_all (dst src : HeaderMap) : HeaderMap :=
  foldl (fun h kv => foldl (fun h v => hm_insert h kv.1 v) h kv.2) dst (hm_entries src).

Definition with_request_headers (q : Request) (h : HeaderMap) : Request :=
  mkReq (q_method q) (q_path q) h (q_client q) (q_connect_info q) (q_claims q).
Definition with_claims (q : Request) (c : option Value) : Request :=
  mkReq (q_method q) (q_path q) (q_headers q) (q_client q) (q_connect_info q)
    match c with Some c => Some c | None => q_claims q end.

(** [middleware] up to [next]: the answer, or the request it passes on. *)
Definition auth_filter (a : Auth) (st : AuthState) (q : Request) : (Response + Request) * AuthState :=
  let q := with_request_headers q (strip_claim_headers (q_headers q) (au_claims_headers a)) in
  match auth_decide a st (q_headers q) (q_path q) (to_ascii_uppercase (q_method q)) with
  | (Unauthenticated m, st) => (inl (unauthorized m), st)
  | (Forbidden m, st) => (inl (forbidden m), st)
  | (Allow hs claims, st) =>
      (inr (with_claims (with_request_headers q (insert_all (q_headers q) hs)) claims), st)
  end.

(** ** The forward-auth endpoint *)

(** The first non-empty value among [names]. *)
Definition forwarded (headers : HeaderMap) (names : list text) : option text :=
  find_first (fun v => negb (bool_decide (v = []))) (omap (fun n => hm_get_str headers n) names).

Definition original_method (headers : HeaderMap) : option text :=
  to_ascii_uppercase <$> forwarded headers [txt "x-forwarded-method"; txt "x-original-method"].

Definition original_path (headers : HeaderMap) : option text :=
  let! raw := forwarded headers [txt "x-forwarded-uri"; txt "x-original-uri"] in
  Some match split_once (ch "?") raw with Some (p, _) => p | None => raw end.

(** [ForwardAuth::verify], with its [login_url]. *)
Definition forward_verify (a : Auth) (login_url : option text) (st : AuthState) (q : Request)
  : Response * AuthState :=
  let headers := q_headers q in
  let method := default (to_ascii_uppercase (q_method q)) (original_method headers) in
  let path := default (q_path q) (original_path headers) in
  let '(d, st) := auth_decide a st headers path method in
  (match d with
   | Allow hs _ => into_response 200 hs []
   | Unauthenticated m =>
       let r := unauthorized m in
       match (let! url := login_url in header_value url) with
       | Some v => with_headers r (hm_insert (rs_headers r) (txt "location") v)
       | None => r
       end
   | Forbidden m => forbidden m
   end, st).

(** ** External authorization *)

(** The part of a [CheckResponse] the proxy reads. *)
Record DeniedHttpResponse := mkDenied {
  dn_status : option Z;
  dn_headers : list (text * text);
  dn_body : text;
}.
Inductive EnvoyHttpResponse :=
| OkResponse (headers : list (text * text))
| DeniedResponse (d : DeniedHttpResponse)
| ErrorResponse (d : DeniedHttpResponse).
Record CheckResponse := mkCheck {
  ck_status : option (Z * text);
  ck_http : option EnvoyHttpResponse;
}.

Record Authz := mkAuthz { az_failure_mode_allow : bool; az_reserved : list text }.

Definition DENIED : text := txt "forbidden by authorization policy".

(** [header_kv]. *)
Definition header_kv (kv : text * text) : option (text * text) :=
  let! name := header_name kv.1 in
  let! value := header_value kv.2 in
  Some (name, value).

(** [StatusCode::from_u16] of [u16::try_from]. *)
Definition status_code (n : Z) : option Z := if (100 <=? n) && (n <=? 999) then Some n else None.

(** [Code::from_i32]. *)
Definition code_from (n : Z) : Code :=
  default CUnknown (find_first (fun c => code_number c =? n)
    [COk; CCancelled; CUnknown; CInvalidArgument; CDeadlineExceeded; CNotFound; CAlreadyExists; CPermissionDenied;
     CResourceExhausted; CFailedPrecondition; CAborted; COutOfRange; CUnimplemented; CInternal; CUnavailable;
     CDataLoss; CUnauthenticated]).

#[global] Arguments code_from : simpl never.

Definition denied_to_response (d : DeniedHttpResponse) : Response :=
  let status := default 403 (let! s := dn_status d in status_code s) in
  let headers := foldl (fun h kv => hm_append h kv.1 kv.2) hm_empty (omap header_kv (dn_headers d)) in
  into_response status headers (dn_body d).

(** [evaluate]: the headers an allowed check adds, or the answer. *)
Definition evaluate (resp : CheckResponse) : list (text * text) + Response :=
  if match ck_status resp with Some (c, _) => c =? 0 | None => false end then
    inl match ck_http resp with Some (OkResponse hs) => omap header_kv hs | _ => [] end
  else
    inr match ck_http resp with
        | Some (DeniedResponse d) | Some (ErrorResponse d) =>
            let response := denied_to_response d in
            let code := match ck_status resp with
                        | Some (c, _) => if c =? 0 then http_to_grpc_code (rs_status response) else code_from c
                        | None => http_to_grpc_code (rs_status response)
                        end in
            let message := match ck_status resp with
                           | Some (_, []) | None => DENIED
                           | Some (_, m) => m
                           end in
            mark_rejection response code message
        | _ => reject json_headers CPermissionDenied DENIED
        end.

(** [apply_headers] of ext_authz. *)
Definition authz_apply (dst : HeaderMap) (headers : list (text * text)) (reserved : list text) : HeaderMap :=
  foldl (fun h nv => if owns nv.1 || bool_decide (nv.1 ∈ reserved) then h else hm_append h nv.1 nv.2) dst headers.

(** [middleware] up to [next], of the answer of the check. *)
Definition authz_filter (a : Authz) (answer : result CheckResponse unit) (q : Request) : Response + Request :=
  match answer with
  | Ok resp =>
      match evaluate resp with
      | inl hs => inr (with_request_headers q (authz_apply (q_headers q) hs (az_reserved a)))
      | inr response => inl response
      end
  | Err _ =>
      if az_failure_mode_allow a then inr q
      else inl (reject json_headers CUnavailable (txt "authorization service unavailable"))
  end.

(** ** The embedder's decider *)

Inductive Decision :=
| DecAllow (inject : HeaderMap)
| DecDeny (status : Z) (body : text)
| DecRedirect (location : text).

Definition strip_then_insert (dst inject : HeaderMap) (reserved : list text) : HeaderMap :=
  foldl (fun h kv => if owns kv.1 || bool_decide (kv.1 ∈ reserved) then h
                     else foldl (fun h v => hm_append h kv.1 v) (hm_remove h kv.1) kv.2) dst (hm_entries inject).

Definition deny_response (status : Z) (body : text) : Response :=
  into_response status (hm_insert hm_empty CONTENT_TYPE (txt "application/json")) body.

Definition redirect_response (status : Z) (location : text) : Response :=
  let r := into_response status hm_empty [] in
  match header_value location with
  | Some v => with_headers r (hm_insert (rs_headers r) (txt "location") v)
  | None => r
  end.

(** [auth_decider_gate] up to [next], of the decider's answer. *)
Definition decider_filter (reserved : list text) (answer : Decision) (q : Request) : Response + Request :=
  match answer with
  | DecAllow inject => inr (with_request_headers q (strip_then_insert (q_headers q) inject reserved))
  | DecDeny status body =>
      inl (mark_rejection (deny_response status body) (http_to_grpc_code status) (txt "denied by the auth decider"))
  | DecRedirect location =>
      inl (mark_rejection (redirect_response 302 location) CUnauthenticated (txt "authentication required"))
  end.
End Auth.

(** ** What reaches the upstream *)

Section Filters.
Context {HT : HttpLib} {HL : HttpLaws HT} {HV : HeaderValueLib} {HVL : HeaderValueLaws HV} {GL : GlobLib} {SH : ShaLib}.
Context (float_text : spec_float -> text) (to_uppercase : text -> text) (json_headers : HeaderMap)
  (into_response : Z -> HeaderMap -> text -> Response).

(** A header some claim is mapped onto. *)
Definition mapped (mapping : list (text * text)) (n : text) : bool :=
  existsb (fun ch => bool_decide (header_name ch.2 = Some n)) mapping.

Lemma strip_lookup (mapping : list (text * text)) (h : HeaderMap) (n : text) :
  hm_get_all (strip_claim_headers h mapping) n = if mapped mapping n then [] else hm_get_all h n.
Proof.
  unfold strip_claim_headers. revert h. induction mapping as [|ch mapping IH]; intros h; cbn; [done|].
  rewrite IH. destruct (header_name ch.2) as [name|]; cbn.
  - rewrite get_all_remove. destruct (decide (name = n)) as [->|Hne].
    + rewrite bool_decide_true by done. cbn. by destruct (mapped mapping n).
    + rewrite bool_decide_false by congruence. done.
  - by rewrite bool_decide_false by done.
Qed.

Lemma inject_lookup (mapping : list (text * text)) (c : Value) (h : HeaderMap) (n : text) :
  let l := hm_get_all (inject_claim_headers float_text h c mapping) n in
  l = hm_get_all h n \/
  exists ch v, ch ∈ mapping /\ claim_header float_text c ch = Some (n, v) /\ l = [v].
Proof.
  unfold inject_claim_headers. cbn zeta. revert h. induction mapping as [|ch mapping IH]; intros h; cbn; [by left|].
  destruct (IH match claim_header float_text c ch with Some (name, v) => hm_insert h name v | None => h end)
    as [E|(ch' & v & Hin & Hc & E)].
  - rewrite E. destruct (claim_header float_text c ch) as [[name v]|] eqn:Ec; [|by left].
    rewrite get_all_insert. destruct (decide (name = n)) as [->|]; [|by left].
    right. exists ch, v. split_and!; [by left|done|done].
  - right. exists ch', v. split_and!; [by right|done|done].
Qed.

Lemma claim_header_mapped (c : Value) (ch : text * text) (mapping : list (text * text)) (n v : text) :
  ch ∈ mapping -> claim_header float_text c ch = Some (n, v) -> mapped mapping n = true.
Proof.
  intros Hin H. apply existsb_exists. exists ch. split; [by apply list_elem_of_In|].
  apply bool_decide_eq_true. unfold claim_header in H.
  destruct (claim_at c ch.1) as [cv|]; cbn in H; [|done]. destruct (scalar_text _ cv) as [t|]; cbn in H; [|done].
  destruct (header_name ch.2) as [name|]; cbn in H; [|done]. destruct (header_value t); cbn in H; [|done].
  congruence.
Qed.

(** A map written over another, name by name: the last value of each name. *)
Lemma insert_values (vs : list text) (h : HeaderMap) (n n' : text) :
  hm_get_all (foldl (fun h v => hm_insert h n v) h vs) n' =
  if decide (n = n') then match last vs with Some v => [v] | None => hm_get_all h n' end else hm_get_all h n'.
Proof.
  revert h. induction vs as [|v vs IH]; intros h; cbn [foldl].
  - by destruct (decide (n = n')).
  - rewrite IH, get_all_insert. destruct (decide (n = n')) as [->|]; [|done].
    destruct vs as [|v' vs]; [done|]. rewrite last_cons_cons.
    destruct (last (v' :: vs)) eqn:E; [done|]. by apply last_None in E.
Qed.

Lemma insert_all_lookup (dst src : HeaderMap) (n : text) :
  hm_get_all (insert_all dst src) n =
  match last (hm_get_all src n) with Some v => [v] | None => hm_get_all dst n end.
Proof.
  unfold insert_all.
  etransitivity; [apply (fold_entries (fun h m vs => foldl (fun h v => hm_insert h m v) h vs)
             (fun _ vs old => match last vs with Some v => [v] | None => old end))|].
  - intros h m vs. apply insert_values.
  - apply entries_nodup.
  - pose proof (assoc_entries_cases src n) as H. destruct (assoc n (hm_entries src)) as [vs|];
      [destruct H as [-> _]|rewrite H]; done.
Qed.

Lemma strip_then_insert_lookup (dst inject : HeaderMap) (reserved : list text) (n : text) :
  hm_get_all (strip_then_insert dst inject reserved) n =
  if owns n || bool_decide (n ∈ reserved) || negb (hm_contains inject n) then hm_get_all dst n
  else hm_get_all inject n.
Proof.
  unfold strip_then_insert.
  pose proof (fold_entries
    (fun h m vs => if owns m || bool_decide (m ∈ reserved) then h
                   else foldl (fun h v => hm_append h m v) (hm_remove h m) vs)
    (fun m vs old => if owns m || bool_decide (m ∈ reserved) then old else vs) (hm_entries inject) dst n) as Hf.
  cbn beta in Hf. etransitivity; [apply Hf|]; clear Hf.
  - intros h m vs. destruct (decide (m = n)) as [->|Hne].
    + destruct (owns n || _); [done|]. by rewrite append_all_lookup, get_all_remove, !decide_True by done.
    + destruct (owns m || _); [done|].
      by rewrite append_all_lookup, get_all_remove, !decide_False, app_nil_r by done.
  - apply entries_nodup.
  - pose proof (assoc_entries_cases inject n) as H. unfold hm_contains.
    destruct (assoc n (hm_entries inject)) as [vs|].
    + destruct H as [-> Hne]. destruct vs; [done|]. cbn. by rewrite orb_false_r.
    + rewrite H. cbn. by rewrite orb_true_r.
Qed.

Lemma authz_apply_lookup (hs : list (text * text)) (dst : HeaderMap) (reserved : list text) (n : text) :
  hm_get_all (authz_apply dst hs reserved) n =
  hm_get_all dst n ++
  if owns n || bool_decide (n ∈ reserved) then [] else omap (fun nv => if decide (nv.1 = n) then Some nv.2 else None) hs.
Proof.
  unfold authz_apply. revert dst. induction hs as [|[m v] hs IH]; intros dst; cbn [foldl].
  { cbn. by rewrite Tauto.if_same, app_nil_r. }
  rewrite IH. cbn [fst snd omap list_omap]. destruct (decide (m = n)) as [->|Hne].
  - destruct (owns n || _); [done|]. rewrite get_all_append, decide_True by done. cbn. by rewrite <- app_assoc.
  - destruct (owns m || _); [done|]. by rewrite get_all_append, decide_False by done.
Qed.

(** ** What a request that passes has *)

Definition method_of_request (q : Request) : text := to_ascii_uppercase (q_method q).

(** The request meets the policy of its route: with verified claims where it
    requires them, holding every role it requires. *)
Definition authorized (a : Auth) (q : Request) : Prop :=
  forall rule, policy_match (au_policies a) (q_path q) (method_of_request q) = Some rule ->
    (rp_require_auth rule = true -> q_claims q <> None) /\
    forall role, role ∈ rp_required_roles rule ->
      exists c, q_claims q = Some c /\ role ∈ extract_roles c (au_roles_claim a).

Lemma policy_accepts (a : Auth) (claims : option Value) (path method : text) (rule : RoutePolicy) :
  policy_refuses a claims path method = None -> policy_match (au_policies a) path method = Some rule ->
  (rp_require_auth rule = true -> claims <> None) /\
  forall role, role ∈ rp_required_roles rule ->
    exists c, claims = Some c /\ role ∈ extract_roles c (au_roles_claim a).
Proof.
  unfold policy_refuses. intros H Hm. rewrite Hm in H.
  destruct (rp_require_auth rule && bool_decide (claims = None)) eqn:Er; [done|]. split.
  { intros Hreq ->. by rewrite Hreq in Er. }
  destruct (rp_required_roles rule) as [|r rs]; [by intros role Hin%elem_of_nil|].
  destruct claims as [c|]; [|done]. destruct (forallb _ _) eqn:Ef; [|done].
  intros role Hin. exists c. split; [done|]. rewrite forallb_forall in Ef.
  apply list_elem_of_In in Hin. by apply Ef, bool_decide_eq_true in Hin.
Qed.

(** The claims a request is judged by: those the verifier, or its cache, gives for
    its bearer token. *)
Definition verified (st : AuthState) (headers : HeaderMap) (claims : option Value) : Prop :=
  match bearer_token headers with
  | Some token => claims <> None /\ (verify st token).1 = claims
  | None => claims = None
  end.

Lemma auth_filter_passes (a : Auth) (st st' : AuthState) (q q' : Request) :
  auth_filter float_text json_headers a st q = (inr q', st') ->
  let stripped := strip_claim_headers (q_headers q) (au_claims_headers a) in
  exists claims, verified st stripped claims /\
    policy_refuses a claims (q_path q) (method_of_request q) = None /\
    q' = with_claims (with_request_headers q
           (insert_all stripped match claims with
                                | Some c => inject_claim_headers float_text hm_empty c (au_claims_headers a)
                                | None => hm_empty
                                end)) claims.
Proof.
  unfold auth_filter, auth_decide, verified. cbn [q_headers q_path q_method with_request_headers]. cbn zeta.
  set (stripped := strip_claim_headers _ _). fold (method_of_request q).
  assert (Hgo : forall claims st1 cs,
    (match (match policy_refuses a claims (q_path q) (method_of_request q) with
            | Some refusal => (refusal, st1)
            | None => (Allow cs claims, st1)
            end) with
     | (Unauthenticated m, st) => (inl (unauthorized json_headers m), st)
     | (Forbidden m, st) => (inl (forbidden json_headers m), st)
     | (Allow hs claims, st) =>
         (inr (with_claims (with_request_headers (with_request_headers q stripped) (insert_all stripped hs)) claims), st)
     end = (inr q', st')) ->
    policy_refuses a claims (q_path q) (method_of_request q) = None /\
    q' = with_claims (with_request_headers q (insert_all stripped cs)) claims).
  { intros claims st1 cs. destruct (policy_refuses a claims _ _) as [d|] eqn:Er.
    - destruct d; [|done|done]. exfalso. revert Er. unfold policy_refuses. repeat case_match; congruence.
    - intros [= <- _]. done. }
  destruct (bearer_token stripped) as [token|].
  - destruct (verify st token) as [[c|] st1]; [|done]. intros H. exists (Some c). split; [done|]. by eapply Hgo.
  - intros H. exists None. split; [done|]. by eapply Hgo.
Qed.

(** C25: the JWT gate lets through only what it verified. A request it passes on
    keeps its method, path and address; carries as claims exactly those of its
    bearer token, checked by the verifier or in the cache, or none without a
    token; meets its route's policy with them; and holds, under every header a
    claim is mapped onto, the text of one verified claim or nothing, whatever the
    client sent there, and every other header as it came. *)
Theorem auth_gate_sound (a : Auth) (st st' : AuthState) (q q' : Request) :
  q_claims q = None -> auth_filter float_text json_headers a st q = (inr q', st') ->
  q_method q' = q_method q /\ q_path q' = q_path q /\ q_client q' = q_client q /\
  verified st (strip_claim_headers (q_headers q) (au_claims_headers a)) (q_claims q') /\
  authorized a q' /\
  (forall n, mapped (au_claims_headers a) n = false -> hm_get_all (q_headers q') n = hm_get_all (q_headers q) n) /\
  (forall n, mapped (au_claims_headers a) n = true -> hm_get_all (q_headers q') n = [] \/
     exists c ch v, q_claims q' = Some c /\ ch ∈ au_claims_headers a /\
       claim_header float_text c ch = Some (n, v) /\ hm_get_all (q_headers q') n = [v]).
Proof.
  intros Hq H. apply auth_filter_passes in H as (claims & Hv & Hp & ->).
  assert (Hc : q_claims (with_claims (with_request_headers q
      (insert_all (strip_claim_headers (q_headers q) (au_claims_headers a))
         match claims with
         | Some c => inject_claim_headers float_text hm_empty c (au_claims_headers a)
         | None => hm_empty end)) claims) = claims) by (by destruct claims).
  split; [done|]. split; [done|]. split; [done|]. rewrite Hc. split; [done|]. split.
  { intros rule Hm. rewrite Hc. by eapply policy_accepts. }
  cbn [q_headers with_claims with_request_headers].
  assert (Hh : forall n, let l := hm_get_all match claims with
         | Some c => inject_claim_headers float_text hm_empty c (au_claims_headers a)
         | None => hm_empty end n in
    l = [] \/ exists c ch v, claims = Some c /\ ch ∈ au_claims_headers a /\
                claim_header float_text c ch = Some (n, v) /\ l = [v]).
  { intros n. destruct claims as [c|]; [|left; apply get_all_empty].
    destruct (inject_lookup (au_claims_headers a) c hm_empty n) as [E|(ch & v & Hin & Hch & E)].
    - left. cbn in E |- *. by rewrite E, get_all_empty.
    - right. by exists c, ch, v. }
  split; intros n Hn; rewrite insert_all_lookup, strip_lookup, Hn.
  - destruct (Hh n) as [E|(c & ch & v & -> & Hin & Hch & _)]; [by rewrite E|].
    by rewrite (claim_header_mapped _ _ _ _ _ Hin Hch) in Hn.
  - destruct (Hh n) as [E|(c & ch & v & -> & Hin & Hch & E)]; cbn zeta in E; rewrite E; [by left|].
    right. by exists c, ch, v.
Qed.

(** C26: the external authorizer decides, and cannot touch the client address. The
    gate passes a request on exactly when the check answered an OK status, or
    failed and the configuration allows failures; a refusal never carries the OK
    code to a gRPC client. What passes has every header as it came, followed by the
    check's own, but none added under a client-address header or one the
    forwarding writes. *)
Theorem authz_gate_sound (a : Authz) (answer : result CheckResponse unit) (q : Request) :
  match authz_filter json_headers into_response a answer q with
  | inr q' =>
      (match answer with
       | Ok resp => exists m, ck_status resp = Some (0, m)
       | Err _ => az_failure_mode_allow a = true
       end) /\
      q_method q' = q_method q /\ q_path q' = q_path q /\ q_client q' = q_client q /\ q_claims q' = q_claims q /\
      forall n, exists added, hm_get_all (q_headers q') n = hm_get_all (q_headers q) n ++ added /\
        (owns n = true \/ n ∈ az_reserved a -> added = [])
  | inl response =>
      (match answer with
       | Ok resp => forall m, ck_status resp <> Some (0, m)
       | Err _ => az_failure_mode_allow a = false
       end) /\
      exists r, rs_rejection response = Some r /\ rj_code r <> COk
  end.
Proof.
  assert (Hcode : forall n, n <> 0 -> code_from n <> COk).
  { intros n Hn. unfold code_from. cbn [find_first].
    destruct (Z.eqb_spec (code_number COk) n) as [E|_]; [by destruct Hn|]. repeat case_match; done. }
  assert (Hhttp : forall n, http_to_grpc_code n <> COk).
  { intros n. unfold http_to_grpc_code. repeat case_match; done. }
  unfold authz_filter. destruct answer as [resp|[]].
  2:{ destruct (az_failure_mode_allow a); cbn.
      - split_and!; try done. intros n. exists []. by rewrite app_nil_r.
      - split; [done|]. by eexists. }
  unfold evaluate. destruct (ck_status resp) as [[c m]|] eqn:Es.
  - destruct (Z.eqb_spec c 0) as [->|Hne].
    + split_and!; try done; [by exists m|]. intros n. cbn [q_headers with_request_headers].
      rewrite authz_apply_lookup. eexists. split; [done|].
      intros [->|Hin]; [done|]. rewrite (bool_decide_true (n ∈ _)) by done. by rewrite orb_true_r.
    + split; [intros m'; congruence|]. destruct (ck_http resp) as [[|d|d]|]; eexists; (split; [done|]); cbn; auto.
  - split; [done|]. destruct (ck_http resp) as [[|d|d]|]; eexists; (split; [done|]); cbn; auto.
Qed.

(** The embedder's decider sets its headers for good. A request it allows has,
    under each header the decider gives, the decider's values alone, but under the
    client-address headers and those the forwarding writes, and under any other
    header, what it came with; a refusal never carries the OK code to a gRPC
    client. *)
Theorem decider_gate_sound (reserved : list text) (answer : Decision) (q : Request) :
  match decider_filter into_response reserved answer q with
  | inr q' =>
      exists inject, answer = DecAllow inject /\
      q_method q' = q_method q /\ q_path q' = q_path q /\ q_client q' = q_client q /\ q_claims q' = q_claims q /\
      forall n, hm_get_all (q_headers q') n =
        if owns n || bool_decide (n ∈ reserved) || negb (hm_contains inject n)
        then hm_get_all (q_headers q) n else hm_get_all inject n
  | inl response =>
      (forall inject, answer <> DecAllow inject) /\
      exists r, rs_rejection response = Some r /\ rj_code r <> COk
  end.
Proof.
  destruct answer as [inject|status body|location]; cbn.
  - exists inject. split_and!; try done. intros n. apply strip_then_insert_lookup.
  - split; [done|]. eexists. split; [done|]. cbn. unfold http_to_grpc_code. repeat case_match; done.
  - split; [done|]. by eexists.
Qed.
End Filters.

(** ** The gates as layers of the guard stack *)

Section Layers.
Context {HT : HttpLib} {HL : HttpLaws HT} {HV : HeaderValueLib} {HVL : HeaderValueLaws HV}
  {GL : GlobLib} {GS : GlobSetLib} {SH : ShaLib} {FL : FleetLib}.
Context (float_text : spec_float -> text) (json_headers : HeaderMap)
  (into_response : Z -> HeaderMap -> text -> Response).

Local Abbreviation World := (World (X := AuthState)).
Local Abbreviation Svc := (Svc (X := AuthState)).
Local Abbreviation Layer := (Layer (X := AuthState)).

(** What the ext_authz server and the decider answer for a request. *)
Context (check : Request -> World -> result CheckResponse unit) (decide_request : Request -> World -> Decision).

Definition set_rest (w : World) (st : AuthState) : World :=
  mkWorld (w_slots w) (w_service w) (w_fleet w) (w_store w) (w_now w) st.

Definition auth_layer (a : Auth) : Layer := fun next q w =>
  match auth_filter float_text json_headers a (w_rest w) q with
  | (inl r, st) => Some (mkAnswer r 0, set_rest w st)
  | (inr q, st) => next q (set_rest w st)
  end.

Definition pass (f : Request -> World -> Response + Request) : Layer := fun next q w =>
  match f q w with
  | inl r => Some (mkAnswer r 0, w)
  | inr q => next q w
  end.

Definition authz_layer (a : Authz) : Layer :=
  pass (fun q w => authz_filter json_headers into_response a (check q w) q).
Definition decider_layer (reserved : list text) : Layer :=
  pass (fun q w => decider_filter into_response reserved (decide_request q w) q).

#[export] Instance pass_proper f : Proper (svc_eq ==> svc_eq) (pass f).
Proof. intros s1 s2 H q w. unfold pass. destruct (f q w); auto. Qed.

#[export] Instance auth_layer_proper a : Proper (svc_eq ==> svc_eq) (auth_layer a).
Proof. intros s1 s2 H q w. unfold auth_layer. destruct (auth_filter _ _ _ _ _) as [[r|q'] st]; auto. Qed.

(** The guards with these gates. *)
Definition with_gates (g : Guards (X := AuthState)) (a : option (Auth * Scope)) (z : option (Authz * Scope))
  (d : option (list text * Scope)) : Guards (X := AuthState) :=
  mkGuards (require_client g) (maintenance g) (concurrency g) (shield g)
    ((fun s => (auth_layer s.1, s.2)) <$> a) ((fun s => (authz_layer s.1, s.2)) <$> z)
    ((fun s => (decider_layer s.1, s.2)) <$> d).

(** Services that agree on the requests of [P]. *)
Definition agree (P : Request -> Prop) (s1 s2 : Svc) : Prop := forall q w, P q -> s1 q w = s2 q w.

(** A layer that passes requests of [P] on as requests of [P]. *)
Definition keeps (P : Request -> Prop) (l : Layer) : Prop :=
  forall s1 s2, agree P s1 s2 -> agree P (l s1) (l s2).

Lemma pass_keeps (P : Request -> Prop) (f : Request -> World -> Response + Request) :
  (forall q w q', P q -> f q w = inr q' -> P q') -> keeps P (pass f).
Proof. intros Hf s1 s2 H q w Hq. unfold pass. destruct (f q w) as [r|q'] eqn:E; [done|]. apply H. by eapply Hf. Qed.

Lemma enforce_keeps (P : Request -> Prop) (s : Shield) (phase : Phase) :
  keeps P (enforce float_text json_headers s phase).
Proof.
  intros s1 s2 H q w Hq. unfold enforce. destruct (decide_in _ _ _ _ _ _) as [[[|r|report] w']|]; cbn; auto.
  by rewrite H.
Qed.

Lemma guarded_keeps (P : Request -> Prop) (c : Class_) (guard : option (Layer * Scope)) (s1 s2 : Svc) :
  (forall l sc, guard = Some (l, sc) -> keeps P l) -> agree P s1 s2 -> agree P (guarded c guard s1) (guarded c guard s2).
Proof.
  intros Hk H q w Hq. unfold guarded. destruct guard as [[l sc]|]; [|by apply H].
  destruct (applied sc c q); [by apply (Hk l sc)|by apply H].
Qed.

Lemma authorized_same (a : Auth) (q q' : Request) :
  q_method q' = q_method q -> q_path q' = q_path q -> q_claims q' = q_claims q ->
  authorized a q -> authorized a q'.
Proof. unfold authorized, method_of_request. by intros -> -> ->. Qed.

Lemma authz_keeps (a : Auth) (z : Authz) : keeps (authorized a) (authz_layer z).
Proof.
  apply pass_keeps. intros q w q' Hq E. eapply authorized_same; [..|exact Hq]; revert E;
    unfold authz_filter; repeat case_match; by intros [= <-].
Qed.

Lemma decider_keeps (a : Auth) (reserved : list text) : keeps (authorized a) (decider_layer reserved).
Proof.
  apply pass_keeps. intros q w q' Hq E. eapply authorized_same; [..|exact Hq]; revert E;
    unfold decider_filter; repeat case_match; by intros [= <-].
Qed.

Lemma stack_protected (g : Guards (X := AuthState)) (a : Auth) (sc : Scope) (z : option (Authz * Scope))
  (d : option (list text * Scope)) (target1 target2 : Svc) (c : Class_) (q : Request) (w : World) :
  authenticates c = true -> applied sc c q = true -> q_claims q = None ->
  (forall q' w', authorized a q' -> target1 q' w' = target2 q' w') ->
  guard_stack float_text json_headers (with_gates g (Some (a, sc)) z d) target1 c q w =
  guard_stack float_text json_headers (with_gates g (Some (a, sc)) z d) target2 c q w.
Proof.
  intros Hc Hs Hq Ht.
  assert (Hp : forall target,
    guard_stack float_text json_headers (with_gates g (Some (a, sc)) z d) target c q w =
    pipeline float_text json_headers (with_gates g (Some (a, sc)) z d) target c q w).
  { intros target. apply stack_pipeline; cbn.
    - intros l s [= <- _]. apply _.
    - intros l s. destruct z as [[z0 sz]|]; [|done]. intros [= <- _]. apply _.
    - intros l s. destruct d as [[d0 sd]|]; [|done]. intros [= <- _]. apply _. }
  rewrite !Hp. unfold pipeline. rewrite Hc. unfold gate_layer.
  destruct (admit_request _ _ _ q w) as [[[ad|r] w1]|]; cbn [mbind option_bind fst snd]; try done.
  cbn [auth with_gates fmap option_fmap option_map fst snd]. unfold guarded at 1 5. rewrite Hs. unfold auth_layer.
  destruct (auth_filter _ _ a (w_rest w1) q) as [[r|q'] st] eqn:Ef; [done|].
  assert (Ha : authorized a q').
  { apply auth_filter_passes in Ef as (claims & Hv & Hpol & ->). intros rule Hm.
    replace (q_claims _) with claims by (destruct claims; [done|]; cbn; by rewrite Hq).
    by eapply policy_accepts. }
  set (inner1 := guarded c _ _). set (inner2 := guarded c _ _).
  assert (Hin : agree (authorized a) inner1 inner2); [|by rewrite Hin].
  apply guarded_keeps.
  { intros l s. cbn. destruct (shield g) as [[s0 ss]|]; cbn; [|done]. intros [= <- _]. apply enforce_keeps. }
  apply guarded_keeps.
  { intros l s. cbn. destruct z as [[z0 sz]|]; cbn; [|done]. intros [= <- _]. apply authz_keeps. }
  apply guarded_keeps; [|done].
  intros l s. cbn. destruct d as [[d0 sd]|]; cbn; [|done]. intros [= <- _]. apply decider_keeps.
Qed.

(** C2: no guard lets an unauthorized request through to the service. Where JWT
    authentication covers a request, the answer of the whole stack, in every state
    and whatever the other guards, the authorizer and the decider do, does not
    depend on how the service behind it treats requests that do not meet their
    route's policy with verified claims: it never sees one. *)
Theorem stack_protects (g : Guards (X := AuthState)) (a : Auth) (sc : Scope) (z : option (Authz * Scope))
  (d : option (list text * Scope)) (target1 target2 : Svc) (c : Class_) (q : Request) (w : World) :
  authenticates c = true -> applied sc c q = true -> q_claims q = None ->
  (forall q' w', authorized a q' -> target1 q' w' = target2 q' w') ->
  guard_stack float_text json_headers (with_gates g (Some (a, sc)) z d) target1 c q w =
  guard_stack float_text json_headers (with_gates g (Some (a, sc)) z d) target2 c q w.
Proof. apply stack_protected. Qed.
End Layers.

(** ** A proxy that authenticates *)

Module Demo.
Import Model Shield.Demo Guard.Demo.

#[export] Instance header_values : HeaderValueLib := {
  header_value s :=
    if forallb (fun c => ((32 <=? code c) && negb (code c =? 127)) || (code c =? 9)) s then Some s else None;
}.
#[export] Instance header_value_laws : HeaderValueLaws header_values.
Proof. split. cbn. intros s v. case_match; congruence. Qed.

Definition respond (status : Z) (h : HeaderMap) (b : text) : Response := mkResponse status h (BBytes b) None.

Definition rule : RoutePolicy := mkRoutePolicy (GL := globs) [] [txt "*"] true [txt "admin"].
Definition a : Auth := mkAuth [(txt "sub", txt "X-User")] (txt "roles") [rule].
Definition claims : Value := Object [(txt "sub", Str (txt "alice")); (txt "roles", Array [Str (txt "admin")])].
Definition state : AuthState :=
  mkAuthState None (mkNow 0 0) (fun t => if decide (t = txt "t") then Some claims else None).

(** A caller with a token, who also claims to be someone else. *)
Definition caller : Request :=
  mkReq (txt "GET") (txt "/api/x")
    (hm_insert (hm_insert hm_empty (txt "authorization") (txt "Bearer t")) (txt "x-user") (txt "root"))
    None None None.

Definition passed_on : Request :=
  match (auth_filter no_float json a state caller).1 with inr q => q | inl _ => caller end.

Lemma passes : auth_filter no_float json a state caller = (inr passed_on, state).
Proof. vm_compute. reflexivity. Qed.

Lemma auth_gate_sound_witness :
  hm_get_all (q_headers passed_on) (txt "x-user") = [txt "alice"] /\ authorized a passed_on.
Proof.
  destruct (auth_gate_sound no_float json a state state caller passed_on eq_refl passes)
    as (_ & _ & _ & _ & Hauth & _ & Hm).
  split; [|exact Hauth].
  destruct (Hm (txt "x-user") ltac:(vm_compute; reflexivity)) as [E|(c & ch & v & Hc & Hin & Hch & E)].
  - vm_compute in E. discriminate E.
  - rewrite E. f_equal. apply list_elem_of_singleton in Hin as ->.
    assert (Hcl : q_claims passed_on = Some claims) by (vm_compute; reflexivity).
    rewrite Hcl in Hc. injection Hc as <-. vm_compute in Hch. by injection Hch as <-.
Defined.

Definition okay : Svc (X := AuthState) := fun _ w => Some (mkAnswer (respond 200 hm_empty []) 0, w).
(** A service that panics on a request without claims. *)
Definition careless : Svc (X := AuthState) := fun q w =>
  match q_claims q with Some _ => okay q w | None => None end.

Definition open : Guards (X := AuthState) := mkGuards None None None None None None None.
Definition anonymous : Request := with_request_headers caller hm_empty.
Definition world : World (X := AuthState) := mkWorld 1 None None new_store (at_ms 5) state.

Lemma authz_gate_sound_witness :
  exists q', authz_filter json respond (mkAuthz false [txt "cf-connecting-ip"])
               (Ok (mkCheck (Some (0, [])) (Some (OkResponse [(txt "X-Real-IP", txt "1.2.3.4")])))) caller = inr q' /\
             hm_get_all (q_headers q') (txt "x-real-ip") = [].
Proof.
  pose proof (authz_gate_sound json respond (mkAuthz false [txt "cf-connecting-ip"])
    (Ok (mkCheck (Some (0, [])) (Some (OkResponse [(txt "X-Real-IP", txt "1.2.3.4")])))) caller) as H.
  destruct (authz_filter _ _ _ _ _) as [r|q'] eqn:E.
  - destruct H as [H _]. by destruct (H []).
  - exists q'. split; [done|]. destruct H as (_ & _ & _ & _ & _ & H).
    destruct (H (txt "x-real-ip")) as (added & -> & Ha).
    rewrite Ha by (left; vm_compute; reflexivity). vm_compute. reflexivity.
Defined.

Lemma decider_gate_sound_witness :
  exists q', decider_filter respond [] (DecAllow (hm_insert hm_empty (txt "x-user") (txt "alice"))) caller = inr q' /\
             hm_get_all (q_headers q') (txt "x-user") = [txt "alice"].
Proof.
  pose proof (decider_gate_sound respond [] (DecAllow (hm_insert hm_empty (txt "x-user") (txt "alice"))) caller) as H.
  destruct (decider_filter _ _ _ _) as [r|q'] eqn:E; [destruct H as [H _]; by destruct (H _ eq_refl)|].
  exists q'. split; [done|]. destruct H as (inject & [= <-] & _ & _ & _ & _ & H). rewrite H.
  vm_compute. reflexivity.
Defined.

Lemma stack_protects_witness :
  option_map (fun aw => rs_status (an_response aw.1))
    (guard_stack no_float json (with_gates no_float json respond (fun _ _ => Err tt) (fun _ _ => DecAllow hm_empty)
       open (Some (a, every)) None None) careless CTranscoded anonymous world) = Some 401.
Proof.
  rewrite <- (stack_protects no_float json respond (fun _ _ => Err tt) (fun _ _ => DecAllow hm_empty)
    open a every None None okay careless CTranscoded anonymous world eq_refl eq_refl eq_refl).
  - vm_compute. reflexivity.
  - intros q' w' Ha. unfold careless. destruct (q_claims q') as [c|] eqn:E; [done|].
    exfalso. destruct (Ha rule) as [Hreq _]; [|by apply Hreq].
    unfold policy_match, a. cbn [au_policies find_first]. by destruct (glob_match _ _) eqn:Eg.
Defined.
End Demo.
