(* ===== verification/Jwks.v ===== *)
(** * The key cache of the built-in verifier ([src/auth/jwks.rs],
    [src/auth/verifier.rs])

    Which keys of a JWK set are usable and for which algorithm, the cache of the
    last set fetched with its age and throttle, and the check of a token against
    its key. What the endpoint answers to a fetch, [jsonwebtoken]'s keys and its
    signature check are parameters. A lookup is one step: the refresh slot is held
    from the decision to fetch until the set is in place. *)

From S2P Require Import Prelude Rust Json.

(** ** Keys and algorithms *)

Inductive Algorithm := HS256 | HS384 | HS512 | ES256 | ES384 | RS256 | RS384 | RS512 | PS256 | PS384 | PS512 | EdDSA.

#[export] Instance Algorithm_eq_dec : EqDecision Algorithm.
Proof. solve_decision. Defined.

(** [jsonwebtoken::jwk::KeyAlgorithm]: a signature algorithm, or one of the
    encryption algorithms no signature uses. *)
Inductive KeyAlgorithm :=
| Signs (a : Algorithm)
| Encrypts.

Inductive EllipticCurve := P256 | P384 | P521 | Ed25519.

Inductive AlgorithmParameters :=
| PEllipticCurve (curve : EllipticCurve)
| PRSA
| POctetKey
| POctetKeyPair
| POther.

Record Jwk := mkJwk {
  jk_key_id : option text;
  jk_key_algorithm : option KeyAlgorithm;
  jk_algorithm : AlgorithmParameters;
}.

Definition key_algorithm_to_alg (ka : KeyAlgorithm) : option Algorithm :=
  match ka with
  | Signs (HS256 | HS384 | HS512) | Encrypts => None
  | Signs a => Some a
  end.

Definition algorithm_for (jwk : Jwk) : option Algorithm :=
  match (let! ka := jk_key_algorithm jwk in key_algorithm_to_alg ka) with
  | Some alg => Some alg
  | None =>
      match jk_algorithm jwk with
      | PRSA => Some RS256
      | PEllipticCurve P256 => Some ES256
      | PEllipticCurve P384 => Some ES384
      | PEllipticCurve _ => None
      | POctetKeyPair => Some EdDSA
      | POctetKey => None
      | POther => None
      end
  end.

Section Jwks.
(** [DecodingKey::from_jwk]. *)
Context {DecodingKey : Type} (from_jwk : Jwk -> option DecodingKey).

Record VerifyingKey := mkVerifying { vk_key : DecodingKey; vk_algorithm : Algorithm }.

(** One key of [parse_jwks]. *)
Definition usable (jwk : Jwk) : option (text * VerifyingKey) :=
  let! kid := jk_key_id jwk in
  let! algorithm := algorithm_for jwk in
  let! key := from_jwk jwk in
  Some (kid, mkVerifying key algorithm).

Definition parse_jwks (set : list Jwk) : gmap text VerifyingKey :=
  foldl (fun m jwk => match usable jwk with Some (kid, vk) => <[kid := vk]> m | None => m end) ∅ set.

(** ** The cache *)

Definition MIN_REFRESH_INTERVAL : Z := from_secs 60.
Definition DEFAULT_MAX_AGE : Z := from_secs 300.

Record JwksCache := mkJwks {
  jw_keys : gmap text VerifyingKey;
  jw_fetched : option Z;
  jw_last_refresh : option Z;
  jw_max_age : Z;
  jw_min_refresh_interval : Z;
}.

Definition jwks_new : JwksCache := mkJwks ∅ None None DEFAULT_MAX_AGE MIN_REFRESH_INTERVAL.
Definition with_max_age (c : JwksCache) (max_age : Z) : JwksCache :=
  mkJwks (jw_keys c) (jw_fetched c) (jw_last_refresh c) max_age (jw_min_refresh_interval c).

(** [ConfigVerifier::build] of a JWKS source. *)
Definition jwks_build (max_age_secs : Z) : option JwksCache :=
  let max_age := from_secs max_age_secs in
  if max_age <? MIN_REFRESH_INTERVAL then None else Some (with_max_age jwks_new max_age).

Definition since (now t : Z) : Z := dur_saturating_sub now t.

(** [refresh]: [answer] is what the endpoint gives the fetch, and when; the
    second part tells a fetch from a throttled refresh. *)
Definition refresh (c : JwksCache) (now : Z) (answer : option (list Jwk * Z)) : JwksCache * bool :=
  let throttled :=
    match jw_last_refresh c with
    | Some t => bool_decide (is_Some (jw_fetched c)) && (since now t <? jw_min_refresh_interval c)
    | None => false
    end in
  if throttled then (c, false)
  else
    (match answer with
     | Some (set, done_at) => mkJwks (parse_jwks set) (Some done_at) (Some now) (jw_max_age c) (jw_min_refresh_interval c)
     | None => mkJwks (jw_keys c) (jw_fetched c) (Some now) (jw_max_age c) (jw_min_refresh_interval c)
     end, true).

(** [key_for]: the key, the cache after, and whether it fetched. *)
Definition key_for (c : JwksCache) (kid : text) (now : Z) (answer : option (list Jwk * Z))
  : option VerifyingKey * JwksCache * bool :=
  let fresh := match jw_fetched c with Some t => since now t <? jw_max_age c | None => false end in
  let hit := if fresh then jw_keys c !! kid else None in
  match hit with
  | Some key => (Some key, c, false)
  | None => let '(c, fetched) := refresh c now answer in (jw_keys c !! kid, c, fetched)
  end.

(** ** The check of a token *)

Inductive VerifierKeys := Pem (key : DecodingKey) | FromJwks.

(** The header of a token: its algorithm and key id; [decode] is the signature
    and claims check of [jsonwebtoken]. *)
Definition config_verify (keys : VerifierKeys) (lookup : text -> option VerifyingKey)
  (header : option (Algorithm * option text)) (decode : DecodingKey -> Algorithm -> option Value) : option Value :=
  let! h := header in
  let! ka := match keys with
             | Pem k => Some (k, EdDSA)
             | FromJwks => let! kid := h.2 in let! vk := lookup kid in Some (vk_key vk, vk_algorithm vk)
             end in
  if decide (h.1 = ka.2) then decode ka.1 ka.2 else None.

(** ** What the cache answers *)

(** The last entry of a set with a key id, of the usable ones. *)
Lemma parse_jwks_lookup (set : list Jwk) (kid : text) (vk : VerifyingKey) :
  parse_jwks set !! kid = Some vk -> exists jwk, jwk ∈ set /\ usable jwk = Some (kid, vk).
Proof.
  unfold parse_jwks.
  assert (H : forall m : gmap text VerifyingKey,
    (foldl (fun m jwk => match usable jwk with Some (kid, vk) => <[kid := vk]> m | None => m end) m set) !! kid
      = Some vk -> m !! kid = Some vk \/ exists jwk, jwk ∈ set /\ usable jwk = Some (kid, vk)).
  { induction set as [|jwk set IH]; intros m; cbn; [by left|].
    intros [Hm|(j & Hin & Hu)]%IH; [|right; exists j; split; [by right|done]].
    destruct (usable jwk) as [[k v]|] eqn:Eu; [|by left].
    apply lookup_insert_Some in Hm as [[-> ->]|[_ Hm]]; [|by left]. right. exists jwk. split; [by left|done]. }
  intros [E|?]%H; [by rewrite lookup_empty in E|done].
Qed.

(** Symmetric keys never verify a signature. *)
Lemma usable_asymmetric (jwk : Jwk) (kid : text) (vk : VerifyingKey) :
  usable jwk = Some (kid, vk) -> vk_algorithm vk ∉ [HS256; HS384; HS512].
Proof.
  unfold usable. destruct (jk_key_id jwk), (algorithm_for jwk) as [a|] eqn:Ea; cbn; try done.
  destruct (from_jwk jwk); cbn; [|done]. intros [= _ <-]. cbn. revert Ea. unfold algorithm_for, key_algorithm_to_alg.
  destruct (jk_key_algorithm jwk) as [[[]|]|]; cbn; repeat case_match; intros [= <-];
    intros Hin; repeat (apply elem_of_cons in Hin as [Hin|Hin]; [discriminate|]); by apply elem_of_nil in Hin.
Qed.

(** A call of [key_for]: when, for what, and what the endpoint would answer. *)
Record Call := mkCall { cl_kid : text; cl_now : Z; cl_answer : option (list Jwk * Z) }.

Fixpoint calls (c : JwksCache) (cs : list Call) : list (option VerifyingKey * bool) * JwksCache :=
  match cs with
  | [] => ([], c)
  | k :: cs' =>
      let '(key, c, fetched) := key_for c (cl_kid k) (cl_now k) (cl_answer k) in
      let '(out, c) := calls c cs' in ((key, fetched) :: out, c)
  end.

(** Calls in time order; a fetch takes some time, within the call. *)
Fixpoint timely (from : Z) (cs : list Call) : Prop :=
  match cs with
  | [] => True
  | k :: cs' =>
      from <= cl_now k /\
      match cl_answer k with
      | Some (_, done_at) => cl_now k <= done_at /\ timely done_at cs'
      | None => timely (cl_now k) cs'
      end
  end.

(** The endpoint answers every fetch. *)
Definition available (cs : list Call) : Prop := Forall (fun k => cl_answer k <> None) cs.

Record jwks_inv (max_age now : Z) (c : JwksCache) : Prop := {
  ji_config : jw_max_age c = max_age /\ jw_min_refresh_interval c = MIN_REFRESH_INTERVAL;
  ji_times : match jw_last_refresh c, jw_fetched c with
             | Some l, Some f => 0 <= l <= f /\ f <= now
             | None, None => True
             | _, _ => False
             end;
}.

Lemma key_for_inv (max_age from : Z) (c : JwksCache) (kid : text) (now : Z) (set : list Jwk) (done_at : Z) :
  0 <= from -> jwks_inv max_age from c -> from <= now <= done_at ->
  let '(key, c', fetched) := key_for c kid now (Some (set, done_at)) in
  jwks_inv max_age done_at c' /\
  (forall k, key = Some k -> exists f, jw_fetched c' = Some f /\ jw_keys c' !! kid = Some k /\
     now < f + Z.max max_age MIN_REFRESH_INTERVAL).
Proof.
  intros H0 [[Ha Hm] Ht] Hn. assert (Hmin : 0 < MIN_REFRESH_INTERVAL) by done.
  unfold key_for. set (fresh := match jw_fetched c with Some t => _ | None => false end).
  destruct (if fresh then jw_keys c !! kid else None) as [k|] eqn:Eh.
  - destruct fresh eqn:Ef; [|done]. unfold fresh in Ef.
    destruct (jw_fetched c) as [f|] eqn:Efe; [|done]. unfold since, dur_saturating_sub in Ef. bool_simpl.
    split; [split; [done|]; rewrite Efe in *; destruct (jw_last_refresh c); lia|].
    intros k' [= <-]. exists f. split_and!; [done|done|lia].
  - unfold refresh. destruct (jw_last_refresh c) as [l|] eqn:El.
    + destruct (jw_fetched c) as [f|] eqn:Ef; [|done].
      rewrite bool_decide_true by done. cbn [andb]. unfold since, dur_saturating_sub.
      destruct (Z.ltb_spec (Z.max 0 (now - l)) (jw_min_refresh_interval c)) as [Hlt|_].
      * split; [split; [done|]; rewrite El, Ef; lia|]. intros k Hk. exists f. rewrite Hm in Hlt. split_and!; [done|done|lia].
      * split; [split; [done|]; cbn; lia|]. intros k Hk. exists done_at. cbn. split_and!; [done|done|lia].
    + destruct (jw_fetched c) as [f|] eqn:Ef; [done|].
      split; [split; [done|]; cbn; lia|]. intros k Hk. exists done_at. cbn. split_and!; [done|done|lia].
Qed.

(** When the last call is over. *)
Fixpoint finish (from : Z) (cs : list Call) : Z :=
  match cs with
  | [] => from
  | k :: cs' => finish match cl_answer k with Some (_, done_at) => done_at | None => cl_now k end cs'
  end.

Lemma calls_inv (max_age from : Z) (c : JwksCache) (cs : list Call) :
  0 <= from -> jwks_inv max_age from c -> timely from cs -> available cs ->
  from <= finish from cs /\ jwks_inv max_age (finish from cs) (calls c cs).2.
Proof.
  revert from c. induction cs as [|k cs IH]; intros from c H0 Hi Ht Ha; cbn; [done|].
  inversion Ha as [|? ? Hk Ha']; subst. cbn in Ht. destruct Ht as [Hf Ht].
  destruct (cl_answer k) as [[set done_at]|]; [|done]. destruct Ht as [Hd Ht].
  pose proof (key_for_inv max_age from c (cl_kid k) (cl_now k) set done_at H0 Hi ltac:(lia)) as H.
  destruct (key_for c (cl_kid k) (cl_now k) (Some (set, done_at))) as [[key c'] fetched].
  destruct H as [Hi' _]. destruct (IH done_at c' ltac:(lia) Hi' Ht Ha') as (Hn & Hc).
  destruct (calls c' cs) as [out c2]. split; [lia|done].
Qed.

End Jwks.

Module Demo.
Definition from_key (j : Jwk) : option nat := Some O.
Definition rsa (kid : string) : Jwk := mkJwk (Some (txt kid)) None PRSA.
Definition first_call : Call := mkCall (txt "a") 5 (Some ([rsa "a"; rsa "b"], 6)).

(** Five minutes on, the provider has dropped "a". *)
Example rotated :
  let c := (calls from_key (with_max_age jwks_new (from_secs 300)) [first_call]).2 in
  (key_for from_key c (txt "a") (from_secs 299) (Some ([rsa "b"], from_secs 299))).1.1 <> None /\
  (key_for from_key c (txt "a") (from_secs 301) (Some ([rsa "b"], from_secs 301))).1.1 = None.
Proof. vm_compute. done. Qed.

End Demo.
