(* ===== verification/Cors.v ===== *)
(** * CORS ([src/cors.rs], [build_cors] of [src/lib.rs])

    The policy, the answer to a preflight and the headers of an ordinary answer,
    as a layer around the services of [Guard]. *)

From S2P Require Import Prelude Rust Json Http Net Status ClientAddress ShieldRules Shield Guard Auth.

Definition ORIGIN : text := txt "origin".
Definition VARY : text := txt "vary".
Definition ALLOW_CREDENTIALS : text := txt "access-control-allow-credentials".
Definition ALLOW_HEADERS : text := txt "access-control-allow-headers".
Definition ALLOW_METHODS : text := txt "access-control-allow-methods".
Definition ALLOW_ORIGIN : text := txt "access-control-allow-origin".
Definition EXPOSE_HEADERS : text := txt "access-control-expose-headers".
Definition MAX_AGE : text := txt "access-control-max-age".
Definition REQUEST_HEADERS : text := txt "access-control-request-headers".
Definition REQUEST_METHOD : text := txt "access-control-request-method".

Definition WILDCARD : text := txt "*".
Definition TRUE : text := txt "true".
Definition VARY_REQUEST : text := txt "origin, access-control-request-method, access-control-request-headers".
Definition VARY_REQUEST_HEADERS : text := txt "access-control-request-headers".

(** [origins] is [None] for every origin. *)
Record Policy := mkPolicy {
  pl_origins : option (list text);
  pl_exposed : option text;
  pl_max_age : option text;
}.

Record CorsConfig := mkCorsConfig {
  cc_origins : list text;
  cc_expose_headers : list text;
  cc_max_age_secs : option Z;
  cc_grpc_web : bool;
}.

Section Cors.
Context {HT : HttpLib} {HV : HeaderValueLib} {GL : GlobLib} {SH : ShaLib} {FL : FleetLib} {X : Type}.

(** [CorsLayer::any]. *)
Definition cors_any (max_age : option Z) : Policy := mkPolicy None None (show_u64 <$> max_age).

(** [CorsLayer::listed]; [None] is the panic of its [expect]. *)
Definition cors_listed (origins exposed : list text) (max_age : option Z) : option Policy :=
  match exposed with
  | [] => Some (mkPolicy (Some origins) None (show_u64 <$> max_age))
  | _ =>
      let! value := header_value (join (txt ",") exposed) in
      Some (mkPolicy (Some origins) (Some value) (show_u64 <$> max_age))
  end.

(** What the proxy always exposes. *)
Definition EXPOSED : list text :=
  [txt "grpc-status"; txt "grpc-message"; txt "grpc-status-details-bin"; txt "ratelimit-limit";
   txt "ratelimit-remaining"; txt "ratelimit-reset"; txt "retry-after"].

Inductive cors_error :=
| ExposeHeader (name : text)
| Origin_ (origin : text).

(** [build_cors]. *)
Definition build_cors (config : CorsConfig) : option (result Policy cors_error) :=
  match collect_results (fun name => match header_name name with Some n => Ok n | None => Err (ExposeHeader name) end)
          (cc_expose_headers config) with
  | Err e => Some (Err e)
  | Ok configured =>
      match cc_origins config with
      | [] => Some (Ok (cors_any (cc_max_age_secs config)))
      | _ =>
          match collect_results (fun o => match header_value o with Some v => Ok v | None => Err (Origin_ o) end)
                  (cc_origins config) with
          | Err e => Some (Err e)
          | Ok origins =>
              let! p := cors_listed origins (EXPOSED ++ configured) (cc_max_age_secs config) in Some (Ok p)
          end
      end
  end.

(** [Policy::allow_origin]. *)
Definition allow_origin (p : Policy) (origin : option text) : option text :=
  match pl_origins p with
  | None => Some WILDCARD
  | Some listed => ofilter (fun o => bool_decide (o ∈ listed)) origin
  end.

Definition insert_some (m : HeaderMap) (name : text) (value : option text) : HeaderMap :=
  match value with Some v => hm_insert m name v | None => m end.

(** [Policy::preflight]: the headers of the answer. *)
Definition preflight (p : Policy) (headers : HeaderMap) : HeaderMap :=
  let answer :=
    match pl_origins p with
    | None =>
        let answer := hm_insert hm_empty ALLOW_METHODS WILDCARD in
        match hm_get headers REQUEST_HEADERS with
        | Some requested => hm_insert (hm_insert answer ALLOW_HEADERS requested) VARY VARY_REQUEST_HEADERS
        | None => hm_insert answer ALLOW_HEADERS WILDCARD
        end
    | Some _ =>
        let answer := hm_insert (hm_insert hm_empty ALLOW_CREDENTIALS TRUE) VARY VARY_REQUEST in
        let answer := insert_some answer ALLOW_METHODS (hm_get headers REQUEST_METHOD) in
        insert_some answer ALLOW_HEADERS (hm_get headers REQUEST_HEADERS)
    end in
  let answer := insert_some answer MAX_AGE (pl_max_age p) in
  insert_some answer ALLOW_ORIGIN (allow_origin p (hm_get headers ORIGIN)).

(** [Policy::answer], on the headers of the response. *)
Definition cors_answer (p : Policy) (headers : HeaderMap) (allow : option text) : HeaderMap :=
  match pl_origins p with
  | None => hm_insert (hm_insert headers EXPOSE_HEADERS WILDCARD) ALLOW_ORIGIN WILDCARD
  | Some _ =>
      let headers := hm_insert (hm_append headers VARY VARY_REQUEST) ALLOW_CREDENTIALS TRUE in
      let headers := insert_some headers ALLOW_ORIGIN allow in
      insert_some headers EXPOSE_HEADERS (pl_exposed p)
  end.

Definition is_preflight (q : Request) : bool :=
  bool_decide (q_method q = txt "OPTIONS") && hm_contains (q_headers q) ORIGIN
  && hm_contains (q_headers q) REQUEST_METHOD.

(** The [Cors] service. *)
Definition cors_layer (p : Policy) : Layer (X := X) := fun inner q w =>
  if is_preflight q
  then Some (mkAnswer (mkResponse 200 (preflight p (q_headers q)) (BBytes []) None) 0, w)
  else
    let allow := allow_origin p (hm_get (q_headers q) ORIGIN) in
    let! aw := inner q w in
    let r := an_response aw.1 in
    Some (mkAnswer (with_headers r (cors_answer p (rs_headers r) allow)) (an_slots aw.1), aw.2).
End Cors.

(** * Theorems *)

Section Laws.
Context {HT : HttpLib} {HL : HttpLaws HT} {HV : HeaderValueLib} {HVL : HeaderValueLaws HV}.
Context {GL : GlobLib} {SH : ShaLib} {FL : FleetLib} {X : Type}.

(** The response headers the policy owns. *)
Definition CORS_HEADERS : list text :=
  [ALLOW_CREDENTIALS; ALLOW_HEADERS; ALLOW_METHODS; ALLOW_ORIGIN; EXPOSE_HEADERS; MAX_AGE; VARY].

Lemma collected_origins (l vs : list text) :
  collect_results (fun o => match header_value o with Some v => Ok v | None => Err (Origin_ o) end) l = Ok vs -> vs = l.
Proof.
  revert vs. induction l as [|o l IH]; intros vs; cbn; [by intros [= <-]|].
  destruct (header_value o) as [v|] eqn:E; cbn; [|done]. apply header_value_same in E as ->.
  destruct (collect_results _ l) as [vs'|]; cbn; [|done]. intros [= <-]. by rewrite (IH vs').
Qed.

(** A built policy answers the configured origins, or all when there are none. *)
Lemma build_cors_origins (config : CorsConfig) (p : Policy) :
  build_cors config = Some (Ok p) ->
  pl_origins p = match cc_origins config with [] => None | os => Some os end.
Proof.
  unfold build_cors. destruct (collect_results _ (cc_expose_headers config)) as [cs|]; [|done].
  destruct (cc_origins config) as [|o os]; [by intros [= <-]|].
  destruct (collect_results _ (o :: os)) as [vs|] eqn:E; [|done]. apply collected_origins in E as ->.
  unfold cors_listed. cbn [app EXPOSED]. destruct (header_value _); cbn; [|done]. by intros [= <-].
Qed.

Lemma get_insert_some (m : HeaderMap) (n n' : text) (v : option text) :
  hm_get_all (insert_some m n v) n' =
  match v with Some v => if decide (n = n') then [v] else hm_get_all m n' | None => hm_get_all m n' end.
Proof. destruct v; cbn; [apply get_all_insert|done]. Qed.

(** The origin a request names, when it is one of those configured. *)
Definition configured (config : CorsConfig) (q : Request) : list text :=
  match hm_get (q_headers q) ORIGIN with
  | Some o => if decide (o ∈ cc_origins config) then [o] else []
  | None => []
  end.

Lemma allowed (config : CorsConfig) (p : Policy) (q : Request) :
  pl_origins p = Some (cc_origins config) ->
  option_list (allow_origin p (hm_get (q_headers q) ORIGIN)) = configured config q.
Proof.
  unfold allow_origin, configured. intros ->. destruct (hm_get _ _) as [o|]; [|done]. cbn.
  case_bool_decide; case_decide; done.
Qed.

Lemma preflight_headers (p : Policy) (h : HeaderMap) :
  hm_get_all (preflight p h) ALLOW_ORIGIN = option_list (allow_origin p (hm_get h ORIGIN)) /\
  hm_get_all (preflight p h) ALLOW_CREDENTIALS = match pl_origins p with Some _ => [TRUE] | None => [] end /\
  forall n, n ∉ CORS_HEADERS -> hm_get_all (preflight p h) n = [].
Proof.
  unfold preflight. split_and!.
  - rewrite get_insert_some. destruct (allow_origin _ _); header_simpl; [done|]. rewrite get_insert_some.
    destruct (pl_max_age p), (pl_origins p), (hm_get h REQUEST_HEADERS), (hm_get h REQUEST_METHOD);
      cbn [insert_some]; by header_simpl.
  - rewrite !get_insert_some. destruct (allow_origin _ _), (pl_max_age p), (pl_origins p), (hm_get h REQUEST_HEADERS),
      (hm_get h REQUEST_METHOD); cbn [insert_some]; by header_simpl.
  - intros n Hn. unfold CORS_HEADERS in Hn. rewrite !not_elem_of_cons in Hn. destruct_and! Hn.
    rewrite !get_insert_some. destruct (allow_origin _ _), (pl_max_age p), (pl_origins p), (hm_get h REQUEST_HEADERS),
      (hm_get h REQUEST_METHOD); cbn [insert_some]; by header_simpl.
Qed.

Lemma answer_headers (p : Policy) (h : HeaderMap) (allow : option text) :
  hm_get_all (cors_answer p h allow) ALLOW_ORIGIN =
    match pl_origins p with
    | None => [WILDCARD]
    | Some _ => match allow with Some o => [o] | None => hm_get_all h ALLOW_ORIGIN end
    end /\
  hm_get_all (cors_answer p h allow) ALLOW_CREDENTIALS =
    match pl_origins p with Some _ => [TRUE] | None => hm_get_all h ALLOW_CREDENTIALS end /\
  forall n, n ∉ CORS_HEADERS -> hm_get_all (cors_answer p h allow) n = hm_get_all h n.
Proof.
  unfold cors_answer. split_and!.
  - destruct (pl_origins p), allow, (pl_exposed p); cbn [insert_some]; by header_simpl.
  - destruct (pl_origins p), allow, (pl_exposed p); cbn [insert_some]; by header_simpl.
  - intros n Hn. unfold CORS_HEADERS in Hn. rewrite !not_elem_of_cons in Hn. destruct_and! Hn.
    destruct (pl_origins p), allow, (pl_exposed p); cbn [insert_some]; by header_simpl.
Qed.

End Laws.

(** ** A site with one origin *)

Module Demo.
Import Model Shield.Demo Guard.Demo Auth.Demo.

Definition config : CorsConfig := mkCorsConfig [txt "https://app.example"] [txt "X-Request-Id"] (Some 600) true.
Definition policy : Policy :=
  match build_cors config with Some (Ok p) => p | _ => cors_any None end.

Definition from (method origin : text) (extra : HeaderMap) : Request :=
  mkReq method (txt "/v1/books") (hm_insert extra ORIGIN origin) None None None.
Definition get_app : Request := from (txt "GET") (txt "https://app.example") hm_empty.
Definition get_evil : Request := from (txt "GET") (txt "https://evil.example") hm_empty.

(** An upstream that answers every origin itself. *)
Definition reflecting : Svc (X := AuthState) := fun q w =>
  Some (mkAnswer (respond 200 (insert_some hm_empty ALLOW_ORIGIN (hm_get (q_headers q) ORIGIN)) []) 0, w).

Lemma built : build_cors config = Some (Ok policy).
Proof. vm_compute. reflexivity. Qed.


(** Credentials are added to the origin an upstream allows itself, listed or not. *)
Example unlisted_origin_credentials :
  option_map (fun aw => (hm_get_all (rs_headers (an_response aw.1)) ALLOW_ORIGIN,
                         hm_get_all (rs_headers (an_response aw.1)) ALLOW_CREDENTIALS))
    (cors_layer policy reflecting get_evil world)
  = Some ([txt "https://evil.example"], [TRUE]).
Proof. vm_compute. reflexivity. Qed.
End Demo.
