(* ===== verification/Idle.v ===== *)
(** * Idle connections ([src/serve/idle.rs])

    The requests in flight on a connection and the wait for none to have been, as
    a step relation: every atomic operation on the counter and every
    [notify_one] is a step of its own, and the wait moves only when it is polled.
    What [tokio] does with a notification given to a wait that is then dropped is
    the parameter [keep]. *)

From Stdlib Require Import Wf_nat.
From stdpp Require Import relations.
From S2P Require Import Prelude.

(** Where [idle_for] is. A [Notified] it polls is registered or not, and woken or
    not. *)
Inductive Wait :=
| WLoad
| WSleep (deadline : Z) (registered woken : bool)
| WRecheck
| WBusy (registered woken : bool)
| WDone.

#[export] Instance Wait_eq : EqDecision Wait.
Proof. solve_decision. Defined.

(** A request of the connection: its future runs, its body is read, or its guard
    is gone. *)
Inductive Tracked := TCalled | TStreaming | TEnded.

#[export] Instance Tracked_eq : EqDecision Tracked.
Proof. solve_decision. Defined.

(** A connection: its requests, the [Activity] (the count, and the permit its
    [Notify] keeps), the threads between an atomic operation and the
    [notify_one] that follows it, the wait, the clock, and the last instant up to
    which a request was in flight. *)
Record Conn := mkConn {
  c_requests : gmap nat Tracked;
  c_active : nat;
  c_permit : bool;
  c_owed : nat;
  c_wait : Wait;
  c_now : Z;
  c_busy_until : Z;
}.

Definition with_requests (s : Conn) (r : gmap nat Tracked) : Conn :=
  mkConn r (c_active s) (c_permit s) (c_owed s) (c_wait s) (c_now s) (c_busy_until s).
Definition with_wait (s : Conn) (w : Wait) : Conn :=
  mkConn (c_requests s) (c_active s) (c_permit s) (c_owed s) w (c_now s) (c_busy_until s).
Definition with_permit (s : Conn) (p : bool) : Conn :=
  mkConn (c_requests s) (c_active s) p (c_owed s) (c_wait s) (c_now s) (c_busy_until s).

(** [Activity::enter], up to its [notify_one]. *)
Definition enter (s : Conn) : Conn :=
  mkConn (c_requests s) (S (c_active s)) (c_permit s)
    (if (c_active s =? 0)%nat then S (c_owed s) else c_owed s) (c_wait s) (c_now s) (c_busy_until s).

(** The drop of an [InFlight], up to its [notify_one]. *)
Definition leave (s : Conn) : Conn :=
  mkConn (c_requests s) (c_active s - 1) (c_permit s)
    (if (c_active s =? 1)%nat then S (c_owed s) else c_owed s) (c_wait s) (c_now s) (c_busy_until s).

(** [Notify::notify_one]: a registered waiter is woken, or the permit is kept. *)
Definition notify_one (s : Conn) : Conn :=
  match c_wait s with
  | WSleep d true false => with_wait s (WSleep d true true)
  | WBusy true false => with_wait s (WBusy true true)
  | _ => with_permit s true
  end.

Definition notified (s : Conn) : Conn :=
  let s := mkConn (c_requests s) (c_active s) (c_permit s) (c_owed s - 1) (c_wait s) (c_now s) (c_busy_until s) in
  notify_one s.

(** A poll of a [Notified]: [Some] state when it is ready. *)
Definition poll_notified (s : Conn) (registered woken : bool) : option Conn :=
  if registered then if woken then Some s else None
  else if c_permit s then Some (with_permit s false) else None.

Definition tick (s : Conn) (t : Z) : Conn :=
  mkConn (c_requests s) (c_active s) (c_permit s) (c_owed s) (c_wait s) t
    (if (c_active s =? 0)%nat then c_busy_until s else t).

Section Steps.
(** The [timeout], and whether a dropped wait passes its notification on. *)
Context (timeout : Z) (keep : bool).

(** One poll of [idle_for], as far as its next wait or load. *)
Inductive poll_step : Conn -> Conn -> Prop :=
| PIdle s : c_wait s = WLoad -> c_active s = 0%nat ->
    poll_step s (with_wait s (WSleep (c_now s + timeout) false false))
| PActive s : c_wait s = WLoad -> c_active s <> 0%nat -> poll_step s (with_wait s (WBusy false false))
| PElapsed s d reg woken : c_wait s = WSleep d reg woken -> d <= c_now s ->
    poll_step s (with_wait (if reg && woken && keep then with_permit s true else s) WRecheck)
| PStarted s d reg woken s' : c_wait s = WSleep d reg woken -> poll_notified s reg woken = Some s' ->
    poll_step s (with_wait s' WLoad)
| PRegister s d : c_wait s = WSleep d false false -> c_permit s = false -> c_now s < d ->
    poll_step s (with_wait s (WSleep d true false))
| PReturn s : c_wait s = WRecheck -> c_active s = 0%nat -> poll_step s (with_wait s WDone)
| PAgain s : c_wait s = WRecheck -> c_active s <> 0%nat -> poll_step s (with_wait s WLoad)
| PEnded s reg woken s' : c_wait s = WBusy reg woken -> poll_notified s reg woken = Some s' ->
    poll_step s (with_wait s' WLoad)
| PWait s : c_wait s = WBusy false false -> c_permit s = false ->
    poll_step s (with_wait s (WBusy true false)).

(** The requests: [Tracked::call], its answer, the end of its body, and the drop
    of the future or of the body. *)
Inductive request_step : Conn -> Conn -> Prop :=
| RCall s id : c_requests s !! id = None ->
    request_step s (with_requests (enter s) (<[id := TCalled]> (c_requests s)))
| RRespond s id : c_requests s !! id = Some TCalled ->
    request_step s (with_requests s (<[id := TStreaming]> (c_requests s)))
| REnd s id : c_requests s !! id = Some TStreaming ->
    request_step s (with_requests (leave s) (<[id := TEnded]> (c_requests s)))
| RDrop s id st : c_requests s !! id = Some st ->
    request_step s (with_requests (if decide (st = TEnded) then s else leave s) (delete id (c_requests s)))
| RNotify s : c_owed s <> 0%nat -> request_step s (notified s).

Inductive conn_step : Conn -> Conn -> Prop :=
| CRequest s s' : request_step s s' -> conn_step s s'
| CPoll s s' : poll_step s s' -> conn_step s s'
| CTick s t : c_now s < t -> conn_step s (tick s t).

(** A connection as [serve_connection] starts it. *)
Definition start_conn (now : Z) : Conn := mkConn ∅ 0 false 0 WLoad now now.

Definition conn_run (s : Conn) : Prop := exists now, rtc conn_step (start_conn now) s.

(** A scheduler that keeps up: time passes only when no poll and no notification
    is due. *)
Inductive prompt_step : Conn -> Conn -> Prop :=
| PrRequest s s' : request_step s s' -> prompt_step s s'
| PrPoll s s' : poll_step s s' -> prompt_step s s'
| PrTick s t : c_now s < t -> c_owed s = 0%nat -> (forall s', ~ poll_step s s') -> prompt_step s (tick s t).

Definition prompt_run (s : Conn) : Prop := exists now, rtc prompt_step (start_conn now) s.

(** The connection left alone: polls, and time up to the deadline of a sleep. *)
Inductive quiet_step : Conn -> Conn -> Prop :=
| QPoll s s' : poll_step s s' -> quiet_step s s'
| QTick s t d reg woken : c_wait s = WSleep d reg woken -> c_now s < t <= d -> quiet_step s (tick s t).
End Steps.

(** * Theorems *)

(** ** The count *)

(** The requests in flight. *)
Definition weight (st : Tracked) : nat := match st with TEnded => 0 | _ => 1 end.
Definition live (r : gmap nat Tracked) : nat := weigh weight r.

(** What a wait that is not moving waits for. *)
Definition awaited (s : Conn) : Prop :=
  match c_wait s with
  | WBusy reg woken => c_active s <> 0%nat \/ c_owed s <> 0%nat \/ (if reg then woken else c_permit s) = true
  | _ => True
  end.

Definition counted (s : Conn) : Prop := c_active s = live (c_requests s).

Section Laws.
Context (timeout : Z) (keep : bool).

Lemma poll_notified_same (s s' : Conn) (reg woken : bool) :
  poll_notified s reg woken = Some s' ->
  c_requests s' = c_requests s /\ c_active s' = c_active s /\ c_owed s' = c_owed s /\ c_wait s' = c_wait s /\
  c_now s' = c_now s /\ c_busy_until s' = c_busy_until s.
Proof.
  unfold poll_notified. destruct reg, woken; try discriminate; try (intros [= <-]; done);
    destruct (c_permit s); try discriminate; by intros [= <-].
Qed.

Lemma poll_same (s s' : Conn) :
  poll_step timeout keep s s' ->
  c_requests s' = c_requests s /\ c_active s' = c_active s /\ c_owed s' = c_owed s /\
  c_now s' = c_now s /\ c_busy_until s' = c_busy_until s.
Proof.
  destruct 1; try done; [by destruct (_ && _)| |];
    by match goal with H : poll_notified _ _ _ = _ |- _ => apply poll_notified_same in H as (?&?&?&?&?&?) end.
Qed.

Lemma notify_same (s : Conn) :
  c_requests (notify_one s) = c_requests s /\ c_active (notify_one s) = c_active s /\
  c_owed (notify_one s) = c_owed s /\ c_now (notify_one s) = c_now s /\ c_busy_until (notify_one s) = c_busy_until s.
Proof. unfold notify_one. by destruct (c_wait s) as [|d [] []| |[] []|]. Qed.

Lemma request_counted (s s' : Conn) : request_step s s' -> counted s -> counted s'.
Proof.
  unfold counted, live. destruct 1 as [s id H|s id H|s id H|s id st H|s H]; cbn; intros Hc.
  - by rewrite weigh_insert, Hc.
  - rewrite Hc. pose proof (weigh_update weight _ _ _ TStreaming H). cbn in *. lia.
  - pose proof (weigh_update weight _ _ _ TEnded H). cbn in *. lia.
  - pose proof (weigh_delete weight _ _ _ H). destruct (decide (st = TEnded)) as [->|]; [|destruct st]; cbn in *; done || lia.
  - unfold notified. destruct (notify_same (mkConn (c_requests s) (c_active s) (c_permit s) (c_owed s - 1) (c_wait s) (c_now s)
      (c_busy_until s))) as (-> & -> & _). done.
Qed.

Lemma notify_awaited (s : Conn) : awaited (notify_one s).
Proof. unfold awaited, notify_one. destruct (c_wait s) as [|d [] []| |[] []|] eqn:E; cbn; rewrite ?E; auto. Qed.

Lemma request_awaited (s s' : Conn) : request_step s s' -> awaited s -> awaited s'.
Proof.
  assert (Hleave : forall s : Conn, awaited s -> awaited (leave s)).
  { intros t. unfold awaited, leave. cbn. destruct (c_wait t); try done. intros [H|[H|H]]; [|right; left|by auto].
    - destruct (c_active t) as [|[|n]]; cbn; [done|by right; left|by left].
    - by destruct (c_active t =? 1)%nat. }
  destruct 1 as [s id H|s id H|s id H|s id st H|s H]; intros Ha.
  - unfold awaited, enter in *. cbn. destruct (c_wait s); try done. by left.
  - exact Ha.
  - exact (Hleave s Ha).
  - destruct (decide (st = TEnded)); [exact Ha|exact (Hleave s Ha)].
  - apply notify_awaited.
Qed.

Lemma poll_awaited (s s' : Conn) : poll_step timeout keep s s' -> awaited s -> awaited s'.
Proof.
  destruct 1; intros Ha; try done.
  - unfold awaited. cbn. by left.
  - unfold awaited in *. cbn. rewrite H, H0 in Ha. destruct Ha as [?|[?|?]]; [by left|by right; left|done].
Qed.

Lemma conn_inv (s : Conn) : conn_run timeout keep s -> counted s /\ awaited s.
Proof.
  intros [now H]. assert (H0 : counted (start_conn now) /\ awaited (start_conn now)) by done.
  revert H0. induction H as [s|s s1 s' Hs Hr IH]; [done|]. intros [Hc Ha]. apply IH.
  destruct Hs as [s s1 Hs|s s1 Hs|s t Ht].
  - split; [by eapply request_counted|by eapply request_awaited].
  - split; [|by eapply poll_awaited]. unfold counted in *. by destruct (poll_same s s1 Hs) as (-> & -> & _).
  - done.
Qed.

(** ** Liveness *)

Definition tokens (s : Conn) : nat :=
  (if c_permit s then 1 else 0) + match c_wait s with WSleep _ true true | WBusy true true => 1 | _ => 0 end.

(** How far the wait is from its return, while nothing happens. *)
Definition rank (s : Conn) : nat :=
  match c_wait s with
  | WLoad => Z.to_nat timeout + 4
  | WSleep d reg _ => Z.to_nat (d - c_now s) + (if reg then 2 else 3)
  | WRecheck => 1
  | WDone => 0
  | WBusy reg _ => if reg then 1 else 2
  end.

Definition left_to_do (s : Conn) : nat := tokens s * (Z.to_nat timeout + 10) + rank s.

Definition at_rest (s : Conn) : Prop := c_active s = 0%nat /\ c_owed s = 0%nat /\ awaited s.

Lemma quiet_rest (s s' : Conn) : quiet_step timeout keep s s' -> at_rest s -> at_rest s'.
Proof.
  intros H (Ha & Ho & Hw). unfold at_rest. destruct H as [s s' Hp|s t d reg woken E Ht].
  - destruct (poll_same s s' Hp) as (_ & -> & -> & _). split; [done|]. split; [done|].
    by apply (poll_awaited s s').
  - split; [done|]. split; [done|]. unfold awaited in *. cbn. by rewrite E.
Qed.

Lemma notified_tokens (s s' : Conn) (reg woken : bool) :
  poll_notified s reg woken = Some s' ->
  (tokens (with_wait s' WLoad) < (if c_permit s then 1 else 0) + (if reg && woken then 1 else 0))%nat.
Proof.
  unfold poll_notified, tokens. destruct reg, woken, (c_permit s) eqn:Ep; try done; intros [= <-]; cbn; rewrite ?Ep; lia.
Qed.

Lemma quiet_less (s s' : Conn) :
  quiet_step timeout keep s s' -> at_rest s -> (left_to_do s' < left_to_do s)%nat.
Proof.
  unfold left_to_do. intros H (Ha & Ho & Hw). destruct H as [s s' Hp|s t d reg woken E Ht].
  2:{ unfold tokens, rank. cbn. rewrite E. destruct reg; lia. }
  destruct Hp as [s E|s E Hn|s d reg woken E Hd|s d reg woken s' E Hp|s d E Hp Hd|s E|s E Hn|s reg woken s' E Hp|s E Hp];
    try done.
  - unfold tokens, rank. cbn. rewrite E. replace (c_now s + timeout - c_now s) with timeout by lia. lia.
  - unfold tokens, rank. rewrite E. destruct reg, woken, keep, (c_permit s) eqn:Ep; cbn; rewrite ?Ep; lia.
  - apply notified_tokens in Hp. assert (Ht : tokens s = ((if c_permit s then 1 else 0) + (if reg && woken then 1 else 0))%nat).
    { unfold tokens. rewrite E. by destruct reg, woken. }
    rewrite <- Ht in Hp. unfold rank at 1. cbn [with_wait c_wait]. nia.
  - unfold tokens, rank. cbn. rewrite E, Hp. lia.
  - unfold tokens, rank. cbn. rewrite E. lia.
  - apply notified_tokens in Hp. assert (Ht : tokens s = ((if c_permit s then 1 else 0) + (if reg && woken then 1 else 0))%nat).
    { unfold tokens. rewrite E. by destruct reg, woken. }
    rewrite <- Ht in Hp. unfold rank at 1. cbn [with_wait c_wait]. nia.
  - unfold awaited in Hw. rewrite E, Hp in Hw. by destruct Hw as [|[]].
Qed.

Lemma quiet_progress (s : Conn) :
  at_rest s -> c_wait s <> WDone -> exists s', quiet_step timeout keep s s'.
Proof.
  intros (Ha & Ho & Hw) Hn. destruct (c_wait s) as [|d reg woken| |reg woken|] eqn:E; try done.
  - eexists. by apply QPoll, PIdle.
  - destruct (Z.le_gt_cases d (c_now s)) as [Hd|Hd]; [eexists; by eapply QPoll, PElapsed|].
    eexists. eapply (QTick _ _ s d); [exact E|lia].
  - eexists. by apply QPoll, PReturn.
  - unfold awaited in Hw. rewrite E in Hw. destruct Hw as [|[|Hw]]; try done.
    destruct reg; [destruct woken; [|done]|]; eexists; apply QPoll; (eapply PEnded; [exact E|]); cbn; [done|by rewrite Hw].
Qed.

(** C39: no wake-up is lost: in every reachable state where all requests have ended and their notifications were
    sent, the idle wait, left alone, takes only finitely many steps however they are chosen, and they end in its
    return; so an idle connection is closed. *)
Theorem idle_closes (s : Conn) :
  conn_run timeout keep s -> (forall id st, c_requests s !! id = Some st -> st = TEnded) -> c_owed s = 0%nat ->
  Acc (fun s2 s1 => quiet_step timeout keep s1 s2) s /\
  forall s', rtc (quiet_step timeout keep) s s' -> (forall s2, ~ quiet_step timeout keep s' s2) -> c_wait s' = WDone.
Proof.
  intros Hr Hall Ho. destruct (conn_inv s Hr) as [Hc Hw].
  assert (Hrest : at_rest s).
  { split; [|done]. rewrite Hc. apply weigh_none. intros id st Hid. by rewrite (Hall id st Hid). }
  split.
  - clear -Hrest. remember (left_to_do s) as n eqn:En. revert s En Hrest.
    induction n as [n IH] using (well_founded_induction lt_wf). intros s -> Hrest. constructor. intros s2 H2.
    eapply IH; [by eapply quiet_less|done|by eapply quiet_rest].
  - intros s' H Hstuck. assert (Hrest' : at_rest s').
    { clear -H Hrest. induction H as [|a b c Hab _ IH]; [done|]. apply IH. by eapply quiet_rest. }
    destruct (decide (c_wait s' = WDone)) as [|Hn]; [done|].
    destruct (quiet_progress s' Hrest' Hn) as [s2 H2]. by destruct (Hstuck s2).
Qed.

(** ** Safety *)

(** What a sleep under a prompt scheduler has seen. *)
Definition quiet_since (s : Conn) : Prop :=
  c_busy_until s <= c_now s /\
  match c_wait s with
  | WSleep d reg woken =>
      c_busy_until s + timeout <= d /\
      (c_active s = 0%nat \/ c_owed s <> 0%nat \/ (if reg then woken else c_permit s) = true)
  | WRecheck => c_busy_until s + timeout <= c_now s
  | _ => True
  end.

Lemma notify_quiet (s : Conn) :
  c_busy_until s <= c_now s ->
  (forall d reg woken, c_wait s = WSleep d reg woken -> c_busy_until s + timeout <= d) ->
  (c_wait s = WRecheck -> c_busy_until s + timeout <= c_now s) -> quiet_since (notify_one s).
Proof.
  unfold quiet_since, notify_one. intros Hn Hs Hr.
  destruct (c_wait s) as [|d [] []| |[] []|] eqn:E; cbn; rewrite ?E; (split; [done|]); auto;
    (split; [by eapply Hs|by auto]).
Qed.

Lemma leave_quiet (s : Conn) : quiet_since s -> quiet_since (leave s).
Proof.
  unfold quiet_since, leave. cbn. intros [Hn H]. split; [done|]. destruct (c_wait s); try done.
  destruct H as [Hd [H|[H|H]]]; (split; [done|]); [left; by rewrite H|right; left|by auto].
  by destruct (c_active s =? 1)%nat.
Qed.

Lemma request_quiet (s s' : Conn) : request_step s s' -> quiet_since s -> quiet_since s'.
Proof.
  destruct 1 as [s id H|s id H|s id H|s id st H|s H]; intros Hq.
  - unfold quiet_since, enter in *. cbn. destruct Hq as [Hn Hq]. split; [done|]. destruct (c_wait s); try done.
    destruct Hq as [Hd [Hq|[Hq|Hq]]]; (split; [done|]); [right; left; by rewrite Hq|right; left|by auto].
    by destruct (c_active s =? 0)%nat.
  - exact Hq.
  - exact (leave_quiet s Hq).
  - destruct (decide (st = TEnded)); [exact Hq|exact (leave_quiet s Hq)].
  - unfold notified. destruct Hq as [Hn Hq]. apply notify_quiet; cbn; [done| |].
    + intros d reg woken E. rewrite E in Hq. by destruct Hq.
    + intros E. by rewrite E in Hq.
Qed.

Lemma poll_quiet (s s' : Conn) : poll_step timeout keep s s' -> quiet_since s -> quiet_since s'.
Proof.
  destruct 1 as [s E Ha|s E Hn|s d reg woken E Hd|s d reg woken s' E Hp|s d E Hp Hd|s E Ha|s E Hn|s reg woken s' E Hp|s E Hp];
    unfold quiet_since; rewrite ?E; cbn; intros [Hn' Hq]; try done.
  - split; [done|]. split; [lia|by left].
  - destruct (reg && woken && keep); cbn; lia.
  - apply poll_notified_same in Hp as (_ & _ & _ & _ & -> & ->). done.
  - split; [done|]. rewrite Hp in Hq. destruct Hq as [Hq [?|[?|?]]]; auto.
  - apply poll_notified_same in Hp as (_ & _ & _ & _ & -> & ->). done.
Qed.

(** Time passes for a sleep only with nothing in flight. *)
Lemma tick_quiet (s : Conn) (t : Z) :
  c_now s < t -> c_owed s = 0%nat -> (forall s', ~ poll_step timeout keep s s') -> quiet_since s -> quiet_since (tick s t).
Proof.
  unfold quiet_since. intros Ht Ho Hb [Hn Hq]. cbn [tick c_busy_until c_now c_wait c_active c_owed c_permit].
  split; [destruct (c_active s =? 0)%nat; lia|].
  destruct (c_wait s) as [|d reg woken| |reg woken|] eqn:E; try done.
  - destruct Hq as [Hd [Hq|[Hq|Hq]]]; [by rewrite Hq; auto|done|exfalso].
    assert (Hs : exists s', poll_notified s reg woken = Some s').
    { unfold poll_notified. destruct reg; cbn in Hq; rewrite Hq; eauto. }
    destruct Hs as [s' Hs]. eapply Hb, PStarted; [exact E|exact Hs].
  - exfalso. destruct (decide (c_active s = 0%nat)) as [Ha|Ha]; eapply Hb; [by eapply PReturn|by eapply PAgain].
Qed.

Lemma prompt_inv (s : Conn) : prompt_run timeout keep s -> quiet_since s.
Proof.
  intros [now H]. assert (H0 : quiet_since (start_conn now)) by (split; cbn; [lia|done]).
  revert H0. induction H as [s|s s1 s' Hs Hr IH]; [done|]. intros Hq. apply IH.
  destruct Hs as [s s1 Hs|s s1 Hs|s t Ht Ho Hb]; [by eapply request_quiet|by eapply poll_quiet|by apply tick_quiet].
Qed.

(** When the idle wait returns, every request of the connection has ended with its response body, under any
    scheduling; and under a scheduler that keeps up none was in flight during the last [timeout]. *)
Theorem idle_safe (s s' : Conn) :
  conn_run timeout keep s -> poll_step timeout keep s s' -> c_wait s' = WDone -> c_wait s <> WDone ->
  (forall id st, c_requests s !! id = Some st -> st = TEnded) /\
  (prompt_run timeout keep s -> c_busy_until s + timeout <= c_now s).
Proof.
  intros Hr Hp Hd Hn. destruct (conn_inv s Hr) as [Hc _].
  assert (Hw : c_wait s = WRecheck /\ c_active s = 0%nat) by (by destruct Hp).
  destruct Hw as [Hw Ha]. split.
  - intros id st Hid. rewrite Hc in Ha. apply (proj1 (weigh_none weight _) Ha) in Hid. by destruct st.
  - intros Hpr. destruct (prompt_inv s Hpr) as [_ H]. by rewrite Hw in H.
Qed.
End Laws.

(** * A connection *)

Module Demo.

(** A request comes and goes while the wait is not polled; its sleep has elapsed
    by then too, and the choice between the two falls on the sleep. *)
Definition before : Conn := mkConn ∅ 0 true 1 WRecheck 10 10.

Ltac step lem := eapply rtc_l; [eapply lem|].

Lemma late_run : conn_run 10 true before.
Proof.
  exists 0. step CPoll; [by apply PIdle|]. step CPoll; [by eapply PRegister|].
  step CRequest; [by apply (RCall _ 0)|]. step CRequest; [by apply RNotify|].
  step CTick; [by instantiate (1 := 10)|]. step CRequest; [by apply (RDrop _ 0 TCalled)|].
  step CPoll; [by eapply PElapsed|]. apply rtc_refl.
Qed.

(** So a late poll may end a connection whose last request has just ended. *)
Lemma late_poll : exists s', poll_step 10 true before s' /\ c_wait s' = WDone /\ c_busy_until before = c_now before.
Proof. eexists. split; [by apply PReturn|]. done. Qed.

(** A connection on which nothing ever happens. *)
Definition elapsed : Conn := mkConn ∅ 0 false 0 WRecheck 10 0.

Lemma elapsed_prompt : prompt_run 10 true elapsed.
Proof.
  exists 0. step PrPoll; [by apply PIdle|]. step PrPoll; [by eapply PRegister|].
  step PrTick; [by instantiate (1 := 10)|done| |].
  { intros s' H. inversion H; simplify_eq/=; done || lia. }
  step PrPoll; [by eapply PElapsed|]. apply rtc_refl.
Qed.

Lemma prompt_conn (timeout : Z) (keep : bool) (s : Conn) : prompt_run timeout keep s -> conn_run timeout keep s.
Proof.
  intros [now H]. exists now. eapply (rtc_subrel (prompt_step timeout keep)); [|exact H].
  intros a b Hab. destruct Hab; [by apply CRequest|by apply CPoll|by apply CTick].
Qed.

Lemma idle_safe_witness :
  exists s', poll_step 10 true elapsed s' /\ c_wait s' = WDone /\
    (forall id st, c_requests elapsed !! id = Some st -> st = TEnded) /\ c_busy_until elapsed + 10 <= c_now elapsed.
Proof.
  exists (with_wait elapsed WDone). assert (Hp : poll_step 10 true elapsed (with_wait elapsed WDone)) by by apply PReturn.
  split; [exact Hp|]. split; [done|].
  destruct (idle_safe 10 true elapsed _ (prompt_conn _ _ _ elapsed_prompt) Hp eq_refl ltac:(discriminate)) as [H1 H2].
  split; [exact H1|exact (H2 elapsed_prompt)].
Defined.

(** The connection on which nothing happens closes. *)
Lemma idle_closes_witness :
  Acc (fun s2 s1 => quiet_step 10 true s1 s2) elapsed /\
  forall s', rtc (quiet_step 10 true) elapsed s' -> (forall s2, ~ quiet_step 10 true s' s2) -> c_wait s' = WDone.
Proof.
  apply (idle_closes 10 true elapsed); [exact (prompt_conn _ _ _ elapsed_prompt)| |done].
  intros id st H. cbn in H. by apply lookup_empty_Some in H.
Defined.
End Demo.
