(* ===== verification/Serve.v ===== *)
(** * The listener ([src/serve.rs])

    The options of a listener and the loop of [serve_with_shutdown] as a step
    relation: the slots of [max_connections], the accept loop, the connection
    tasks and the stream tasks of HTTP/2, and the drain of a shutdown. Sockets,
    TLS and hyper's connections are the events that end a handshake or a
    connection. *)

From stdpp Require Import relations.
From S2P Require Import Prelude Rust Guard.

(** ** Options *)

Record ServeOptions {Tls : Type} := mkOptions {
  so_max_connections : option Z;
  so_tls : option Tls;
  so_idle_timeout : option Z;
  so_header_read_timeout : Z;
  so_tls_handshake_timeout : Z;
  so_drain_timeout : option Z;
}.
Arguments ServeOptions Tls : clear implicits.

Section Options.
Context {Tls : Type}.

Definition options_default : ServeOptions Tls :=
  mkOptions Tls None None (Some (from_secs 60)) (from_secs 30) (from_secs 10) (Some (from_secs 25)).

Definition drain_timeout (o : ServeOptions Tls) (timeout : option Z) : ServeOptions Tls :=
  mkOptions Tls (so_max_connections o) (so_tls o) (so_idle_timeout o) (so_header_read_timeout o)
    (so_tls_handshake_timeout o) timeout.
Definition idle_timeout (o : ServeOptions Tls) (timeout : option Z) : ServeOptions Tls :=
  mkOptions Tls (so_max_connections o) (so_tls o) timeout (so_header_read_timeout o) (so_tls_handshake_timeout o)
    (so_drain_timeout o).
Definition header_read_timeout (o : ServeOptions Tls) (timeout : Z) : ServeOptions Tls :=
  mkOptions Tls (so_max_connections o) (so_tls o) (so_idle_timeout o) timeout (so_tls_handshake_timeout o)
    (so_drain_timeout o).
Definition tls_handshake_timeout (o : ServeOptions Tls) (timeout : Z) : ServeOptions Tls :=
  mkOptions Tls (so_max_connections o) (so_tls o) (so_idle_timeout o) (so_header_read_timeout o) timeout
    (so_drain_timeout o).

(** [max_connections]; [None] is the panic on zero. *)
Definition max_connections (o : ServeOptions Tls) (max : Z) : option (ServeOptions Tls) :=
  if 0 <? max
  then Some (mkOptions Tls (Some (Z.min max MAX_PERMITS)) (so_tls o) (so_idle_timeout o) (so_header_read_timeout o)
               (so_tls_handshake_timeout o) (so_drain_timeout o))
  else None.

(** [tls], with the protocols of a config and what sets them. *)
Definition tls (alpn : Tls -> list text) (set_alpn : Tls -> list text -> Tls) (o : ServeOptions Tls) (config : Tls)
    : ServeOptions Tls :=
  let config := match alpn config with [] => set_alpn config [txt "h2"; txt "http/1.1"] | _ => config end in
  mkOptions Tls (so_max_connections o) (Some config) (so_idle_timeout o) (so_header_read_timeout o)
    (so_tls_handshake_timeout o) (so_drain_timeout o).
End Options.

(** ** The server *)

(** The serve future: it takes a slot, accepts, pauses after a failed accept, and
    after the signal joins the connections, then the streams. *)
Inductive Phase :=
| PSlot
| PAccept
| PPause
| PConnections
| PStreams
| PReturned.

#[export] Instance Phase_eq : EqDecision Phase.
Proof. solve_decision. Defined.

(** A connection task: its TLS handshake, [drive] before and after it asked the
    connection to wind down, and its end, which the set has yet to reap. *)
Inductive Task := THandshake | TServing | TWinding | TEnded.

#[export] Instance Task_eq : EqDecision Task.
Proof. solve_decision. Defined.

(** [free] is the semaphore of a limited server, [held] whether the loop holds a slot of it;
    [upgraded] the connections handed to a fallback's own tasks; [accepted] how
    many connections were ever accepted. *)
Record Server := mkServer {
  sv_phase : Phase;
  sv_signal : bool;
  sv_stop : bool;
  sv_free : option nat;
  sv_held : bool;
  sv_tasks : gmap nat Task;
  sv_upgraded : nat;
  sv_streams : nat;
  sv_accepted : nat;
}.

(** [take_slot]: [None] waits; a server without a limit takes none. *)
Definition take_slot (free : option nat) : option (option nat) :=
  match free with
  | None => Some None
  | Some n => let! n := Guard.take_slot n in Some (Some n)
  end.

Definition give (n : nat) (free : option nat) : option nat := Nat.add n <$> free.

Definition set_phase (s : Server) (p : Phase) : Server :=
  mkServer p (sv_signal s) (sv_stop s) (sv_free s) (sv_held s) (sv_tasks s) (sv_upgraded s) (sv_streams s) (sv_accepted s).
Definition set_tasks (s : Server) (t : gmap nat Task) : Server :=
  mkServer (sv_phase s) (sv_signal s) (sv_stop s) (sv_free s) (sv_held s) t (sv_upgraded s) (sv_streams s) (sv_accepted s).
Definition set_streams (s : Server) (n : nat) : Server :=
  mkServer (sv_phase s) (sv_signal s) (sv_stop s) (sv_free s) (sv_held s) (sv_tasks s) (sv_upgraded s) n (sv_accepted s).

(** A connection's slot given back with its socket. *)
Definition release (s : Server) : Server :=
  mkServer (sv_phase s) (sv_signal s) (sv_stop s) (give 1 (sv_free s)) (sv_held s) (sv_tasks s) (sv_upgraded s)
    (sv_streams s) (sv_accepted s).

Definition looping (p : Phase) : bool := match p with PSlot | PAccept | PPause => true | _ => false end.

(** The slot of a connection lives with its socket. *)
Definition holds_slot (t : Task) : nat := match t with TEnded => 0 | _ => 1 end.

(** Leaving the loop: the slot it holds is dropped, the listener closed, every
    connection told to stop. *)
Definition leave_loop (s : Server) : Server :=
  mkServer PConnections (sv_signal s) true (if sv_held s then give 1 (sv_free s) else sv_free s) false (sv_tasks s)
    (sv_upgraded s) (sv_streams s) (sv_accepted s).

Section Steps.
(** Whether TLS is terminated, and whether the drain is bounded. *)
Context (tls_on bounded : bool).

(** The serve future. Its selects are biased: once the signal has resolved no poll
    takes a slot or accepts. *)
Inductive serve_step : Server -> Server -> Prop :=
| SSlot s n : sv_phase s = PSlot -> sv_signal s = false -> take_slot (sv_free s) = Some n ->
    serve_step s (mkServer PAccept false (sv_stop s) n true (sv_tasks s) (sv_upgraded s) (sv_streams s) (sv_accepted s))
| SAccept s id : sv_phase s = PAccept -> sv_signal s = false -> sv_tasks s !! id = None ->
    serve_step s (mkServer PSlot false (sv_stop s) (sv_free s) false
                    (<[id := if tls_on then THandshake else TServing]> (sv_tasks s)) (sv_upgraded s) (sv_streams s)
                    (S (sv_accepted s)))
| SAcceptSkipped s : sv_phase s = PAccept -> sv_signal s = false -> serve_step s s
| SAcceptFailed s : sv_phase s = PAccept -> sv_signal s = false -> serve_step s (set_phase s PPause)
| SPaused s : sv_phase s = PPause -> sv_signal s = false -> serve_step s (set_phase s PAccept)
| SSignal s : looping (sv_phase s) = true -> sv_signal s = true -> serve_step s (leave_loop s)
| SReap s id : (looping (sv_phase s) = true \/ sv_phase s = PConnections) -> sv_tasks s !! id = Some TEnded ->
    serve_step s (set_tasks s (delete id (sv_tasks s)))
| SJoined s : sv_phase s = PConnections -> sv_tasks s = ∅ -> serve_step s (set_phase s PStreams)
| SDrained s : sv_phase s = PStreams -> sv_streams s = 0%nat -> serve_step s (set_phase s PReturned)
(** The drain timed out: the tasks are aborted, their sockets closed, the streams
    cancelled, and both waited for. *)
| STimeout s : bounded = true -> sv_phase s = PConnections \/ sv_phase s = PStreams ->
    serve_step s (mkServer PReturned (sv_signal s) (sv_stop s) (give (weigh holds_slot (sv_tasks s)) (sv_free s)) (sv_held s)
                    ∅ (sv_upgraded s) 0 (sv_accepted s)).

(** The connection tasks, each from where it is. *)
Inductive task_step : Server -> Server -> Prop :=
| THandshaken s id : sv_tasks s !! id = Some THandshake ->
    task_step s (set_tasks s (<[id := TServing]> (sv_tasks s)))
(** A handshake that failed, timed out or was stopped: the task returns. *)
| TDropped s id : sv_tasks s !! id = Some THandshake ->
    task_step s (release (set_tasks s (<[id := TEnded]> (sv_tasks s))))
| TWindDown s id : sv_tasks s !! id = Some TServing ->
    task_step s (set_tasks s (<[id := TWinding]> (sv_tasks s)))
| TClosed s id t : sv_tasks s !! id = Some t -> t = TServing \/ t = TWinding ->
    task_step s (release (set_tasks s (<[id := TEnded]> (sv_tasks s))))
(** An upgraded connection takes its socket, and its slot, along. *)
| TUpgraded s id t : sv_tasks s !! id = Some t -> t = TServing \/ t = TWinding ->
    task_step s (mkServer (sv_phase s) (sv_signal s) (sv_stop s) (sv_free s) (sv_held s)
                   (<[id := TEnded]> (sv_tasks s)) (S (sv_upgraded s)) (sv_streams s) (sv_accepted s))
| TStream s id t : sv_tasks s !! id = Some t -> t = TServing \/ t = TWinding ->
    task_step s (set_streams s (S (sv_streams s))).

(** The rest: the signal, the end of a stream, of an upgraded connection. *)
Inductive world_step : Server -> Server -> Prop :=
| WSignal s : world_step s (mkServer (sv_phase s) true (sv_stop s) (sv_free s) (sv_held s) (sv_tasks s)
                             (sv_upgraded s) (sv_streams s) (sv_accepted s))
| WStreamEnd s n : sv_streams s = S n -> world_step s (set_streams s n)
| WUpgradedEnd s n : sv_upgraded s = S n ->
    world_step s (mkServer (sv_phase s) (sv_signal s) (sv_stop s) (give 1 (sv_free s)) (sv_held s) (sv_tasks s) n
                   (sv_streams s) (sv_accepted s)).

Inductive server_step : Server -> Server -> Prop :=
| ServeStep s s' : serve_step s s' -> server_step s s'
| TaskStep s s' : task_step s s' -> server_step s s'
| WorldStep s s' : world_step s s' -> server_step s s'.

Definition start_server (max : option nat) : Server := mkServer PSlot false false max false ∅ 0 0 0.

Definition server_run (max : option nat) (s : Server) : Prop := rtc server_step (start_server max) s.

End Steps.

(** * Theorems *)

(** A step of another phase. *)
Ltac phases := repeat match goal with
  | H : sv_phase ?s = _, H' : looping (sv_phase ?s) = _ |- _ => rewrite H in H'
  | H : _ \/ _ |- _ => destruct H
  end.

Section Laws.
Context (tls_on bounded : bool) (max : option nat).

(** The sockets that count against the limit. *)
Definition open_sockets (s : Server) : nat :=
  (if sv_held s then 1 else 0) + weigh holds_slot (sv_tasks s) + sv_upgraded s.

Definition slots_ok (s : Server) : Prop :=
  match max, sv_free s with
  | Some max, Some free => (free + open_sockets s = max)%nat
  | None, None => True
  | _, _ => False
  end.

Definition phase_ok (s : Server) : Prop :=
  sv_stop s = negb (looping (sv_phase s)) /\
  (sv_held s = true -> sv_phase s = PAccept \/ sv_phase s = PPause) /\
  match sv_phase s with
  | PStreams => sv_tasks s = ∅
  | PReturned => sv_tasks s = ∅ /\ sv_streams s = 0%nat
  | PSlot => sv_held s = false
  | PAccept | PPause => sv_held s = true
  | PConnections => True
  end.

Lemma task_slots (s : Server) (id : nat) (t t' : Task) :
  sv_tasks s !! id = Some t -> t <> TEnded ->
  (weigh holds_slot (<[id := t']> (sv_tasks s)) + 1 = weigh holds_slot (sv_tasks s) + holds_slot t')%nat.
Proof. intros H Ht. pose proof (weigh_update holds_slot _ _ _ t' H). destruct t; done || exact H0. Qed.

Lemma serve_ok (s s' : Server) :
  serve_step tls_on bounded s s' -> slots_ok s -> phase_ok s -> slots_ok s' /\ phase_ok s'.
Proof.
  unfold slots_ok, phase_ok, open_sockets.
  destruct 1 as [s n Hp Hg Ht|s id Hp Hg Hid|s Hp Hg|s Hp Hg|s Hp Hg|s Hp Hg|s id Hp Hid|s Hp Ht|s Hp Hn|s Hb Hp]; cbn;
    intros Hs (Hst & Hh & Hph).
  - rewrite Hp in *. split; [|rewrite Hst; cbn; split_and!; auto; done]. destruct max as [m|], (sv_free s) as [f|]; cbn in Ht; try done.
    + destruct f as [|f]; cbn in Ht; [done|]. injection Ht as <-. rewrite Hph in Hs. lia.
    + by injection Ht as <-.
  - rewrite Hp in *. split; [|rewrite Hst; cbn; split_and!; auto; done]. destruct max as [m|], (sv_free s) as [f|]; try done.
    rewrite weigh_insert by done. rewrite Hph in Hs. destruct tls_on; cbn; lia.
  - done.
  - rewrite Hp in *. split; [done|]. rewrite Hst. cbn. split_and!; auto.
  - rewrite Hp in *. split; [done|]. rewrite Hst. cbn. split_and!; auto.
  - split; [|done]. destruct max as [m|], (sv_free s) as [f|]; try done; destruct (sv_held s); cbn; try done; lia.
  - split.
    + destruct max as [m|], (sv_free s) as [f|]; try done. rewrite (weigh_delete holds_slot _ _ _ Hid) in Hs. exact Hs.
    + split; [done|]. split; [done|]. destruct (sv_phase s); try done; destruct Hp; done.
  - rewrite Hp in *. split; [done|]. split; [done|]. split; [|done]. intros H. by destruct (Hh H).
  - rewrite Hp in *. split; [done|]. split; [done|]. split; [|done]. intros H. by destruct (Hh H).
  - split.
    + destruct max as [m|], (sv_free s) as [f|]; try done. cbn. rewrite weigh_empty. lia.
    + assert (looping (sv_phase s) = false) as Hl by by destruct Hp as [-> | ->]. rewrite Hl in Hst.
      split; [done|]. split; [|done]. intros H. destruct (Hh H) as [E|E]; rewrite E in Hl; done.
Qed.

Lemma task_ok (s s' : Server) : task_step s s' -> slots_ok s -> phase_ok s -> slots_ok s' /\ phase_ok s'.
Proof.
  unfold slots_ok, phase_ok, open_sockets.
  assert (Hph : forall (s : Server) id t (m : gmap nat Task), sv_tasks s !! id = Some t ->
    match sv_phase s with
    | PStreams => sv_tasks s = ∅
    | PReturned => sv_tasks s = ∅ /\ sv_streams s = 0%nat
    | PSlot => sv_held s = false
    | PAccept | PPause => sv_held s = true
    | PConnections => True
    end ->
    match sv_phase s with
    | PStreams => m = ∅
    | PReturned => m = ∅ /\ sv_streams s = 0%nat
    | PSlot => sv_held s = false
    | PAccept | PPause => sv_held s = true
    | PConnections => True
    end /\ sv_phase s <> PReturned).
  { intros t id st m Hid. destruct (sv_phase t); try done; intros E; exfalso;
      [rewrite E in Hid|destruct E as [E _]; rewrite E in Hid]; by apply lookup_empty_Some in Hid. }
  destruct 1 as [s id Hid|s id Hid|s id Hid|s id t Hid Ht|s id t Hid Ht|s id t Hid Ht]; cbn; intros Hs (Hst & Hh & Hp);
    destruct (Hph s id _ (<[id := TEnded]> (sv_tasks s)) Hid Hp) as [_ Hr].
  - split; [|destruct (Hph s id _ (<[id := TServing]> (sv_tasks s)) Hid Hp); done].
    pose proof (task_slots s id _ TServing Hid ltac:(done)) as Hw. cbn in Hw.
    destruct max, (sv_free s); try done; lia.
  - split; [|destruct (Hph s id _ (<[id := TEnded]> (sv_tasks s)) Hid Hp); done].
    pose proof (task_slots s id _ TEnded Hid ltac:(done)) as Hw. cbn in Hw.
    destruct max, (sv_free s); cbn; try done; lia.
  - split; [|destruct (Hph s id _ (<[id := TWinding]> (sv_tasks s)) Hid Hp); done].
    pose proof (task_slots s id _ TWinding Hid ltac:(done)) as Hw. cbn in Hw.
    destruct max, (sv_free s); try done; lia.
  - split; [|destruct (Hph s id _ (<[id := TEnded]> (sv_tasks s)) Hid Hp); done].
    pose proof (task_slots s id _ TEnded Hid ltac:(by destruct Ht as [-> | ->])) as Hw. cbn in Hw.
    destruct max, (sv_free s); cbn; try done; lia.
  - split; [|destruct (Hph s id _ (<[id := TEnded]> (sv_tasks s)) Hid Hp); done].
    pose proof (task_slots s id _ TEnded Hid ltac:(by destruct Ht as [-> | ->])) as Hw. cbn in Hw.
    destruct max, (sv_free s); cbn; try done; lia.
  - split; [done|]. split; [done|]. split; [done|]. by destruct (sv_phase s).
Qed.

Lemma world_ok (s s' : Server) : world_step s s' -> slots_ok s -> phase_ok s -> slots_ok s' /\ phase_ok s'.
Proof.
  unfold slots_ok, phase_ok, open_sockets. destruct 1 as [s|s n Hn|s n Hn]; cbn; intros Hs (Hst & Hh & Hp).
  - done.
  - split; [done|]. split; [done|]. split; [done|]. destruct (sv_phase s); try done. destruct Hp. congruence.
  - split; [|done]. destruct max, (sv_free s); cbn; try done; lia.
Qed.

Lemma server_ok (s : Server) : server_run tls_on bounded max s -> slots_ok s /\ phase_ok s.
Proof.
  intros H. assert (H0 : slots_ok (start_server max) /\ phase_ok (start_server max)).
  { split; [|done]. unfold slots_ok, open_sockets. cbn. rewrite weigh_empty. destruct max; [lia|done]. }
  revert H0. induction H as [s|s s1 s' Hs _ IH]; [done|]. intros [H1 H2]. apply IH.
  destruct Hs as [s s1 Hs|s s1 Hs|s s1 Hs]; [by apply (serve_ok s)|by apply (task_ok s)|by apply (world_ok s)].
Qed.

(** C40: at every moment of every run of a server limited to [max] connections, those in their handshake, open,
    winding down or taken over by a fallback, and the slot the loop accepts with, are at most [max], and with the
    free slots exactly [max]: a slot is never lost, however connections end. *)
Theorem serve_slots (s : Server) :
  server_run tls_on bounded max s ->
  match max with
  | Some max => exists free, sv_free s = Some free /\ (free + open_sockets s = max)%nat /\ (open_sockets s <= max)%nat
  | None => sv_free s = None
  end.
Proof.
  intros H. destruct (server_ok s H) as [Hs _]. unfold slots_ok in Hs.
  destruct max, (sv_free s) as [f|]; try done. exists f. split; [done|]. lia.
Qed.

Lemma stopped_stays (s s' : Server) :
  rtc (server_step tls_on bounded) s s' -> slots_ok s -> phase_ok s -> sv_stop s = true ->
  sv_stop s' = true /\ sv_accepted s' = sv_accepted s /\ (forall id, sv_tasks s !! id = None -> sv_tasks s' !! id = None).
Proof.
  induction 1 as [s|s s1 s' Hs _ IH]; [done|]. intros H1 H2 Hst.
  assert (Hs1 : slots_ok s1 /\ phase_ok s1).
  { destruct Hs as [s s1 Hs|s s1 Hs|s s1 Hs]; [by apply (serve_ok s)|by apply (task_ok s)|by apply (world_ok s)]. }
  assert (Hstep : sv_stop s1 = true /\ sv_accepted s1 = sv_accepted s /\
    forall id, sv_tasks s !! id = None -> sv_tasks s1 !! id = None).
  { destruct H2 as [Hl _]. rewrite Hst in Hl. symmetry in Hl. apply negb_true_iff in Hl.
    destruct Hs as [s s1 Hs|s s1 Hs|s s1 Hs].
    - destruct Hs; try (phases; done). split; [done|]. split; [done|]. intros i Hi. cbn.
      rewrite lookup_delete_None. by right.
    - destruct Hs; (split; [done|]; split; [done|]); cbn; try done; intros i Hi;
        (rewrite lookup_insert_ne; [done|congruence]).
    - by destruct Hs. }
  destruct Hstep as (Hst1 & Ha1 & Ht1). destruct (IH (proj1 Hs1) (proj2 Hs1) Hst1) as (? & Ha & Ht).
  split; [done|]. split; [congruence|]. auto.
Qed.

(** Once the loop has left for the signal no connection is accepted any more, and when the server returns no
    connection task and no stream task is left, and every slot is free but those of upgraded connections; with a
    drain timeout it can always return, whatever its clients do. *)
Theorem serve_shutdown (s : Server) :
  server_run tls_on bounded max s -> sv_stop s = true ->
  (forall s', rtc (server_step tls_on bounded) s s' ->
     sv_accepted s' = sv_accepted s /\ (forall id, sv_tasks s !! id = None -> sv_tasks s' !! id = None) /\
     (sv_phase s' = PReturned ->
        sv_tasks s' = ∅ /\ sv_streams s' = 0%nat /\ sv_free s' = (fun m => (m - sv_upgraded s')%nat) <$> max)) /\
  (bounded = true -> sv_phase s <> PReturned -> exists s', serve_step tls_on bounded s s' /\ sv_phase s' = PReturned).
Proof.
  intros Hr Hst. destruct (server_ok s Hr) as [H1 H2]. split.
  - intros s' Hs'. destruct (stopped_stays s s' Hs' H1 H2 Hst) as (_ & Ha & Ht). split; [done|]. split; [done|].
    intros Hp. destruct (server_ok s') as [Hs (_ & Hh & Hph)]; [by unfold server_run in *; etransitivity|]. rewrite Hp in Hh, Hph.
    destruct Hph as [Htasks Hstreams]. split; [done|]. split; [done|].
    assert (Hheld : sv_held s' = false) by (destruct (sv_held s'); [by destruct (Hh eq_refl)|done]).
    unfold slots_ok, open_sockets in Hs. rewrite Hheld, Htasks, weigh_empty in Hs.
    destruct max as [m|], (sv_free s') as [f|]; try done. cbn. f_equal. lia.
  - intros Hb Hn. destruct H2 as [Hl _]. rewrite Hst in Hl.
    eexists. split; [apply STimeout; [done|]|done]. destruct (sv_phase s); try done; auto.
Qed.
End Laws.

(** * A listener for two connections *)

Module Demo.

Ltac serve lem := eapply rtc_l; [eapply ServeStep, lem|].
Ltac task lem := eapply rtc_l; [eapply TaskStep, lem|].
Ltac world lem := eapply rtc_l; [eapply WorldStep, lem|].

(** Two accepted, one of them upgraded; then the signal. *)
Definition stopped : Server := mkServer PConnections true true (Some 0%nat) false {[0%nat := TServing; 1%nat := TEnded]} 1 0 2.

Lemma stopped_run : server_run false true (Some 2%nat) stopped.
Proof.
  serve SSlot; [done..|]. serve (fun s => SAccept false true s 0%nat); [done..|]. serve SSlot; [done..|]. serve (fun s => SAccept false true s 1%nat); [done..|].
  task (fun s => TUpgraded s 1%nat); [done|by left|]. world WSignal. serve SSignal; [done..|].
  match goal with |- rtc _ ?s _ => assert (E : s = stopped) by (vm_compute; reflexivity); rewrite E end. apply rtc_refl.
Qed.

Lemma serve_slots_witness : exists free, sv_free stopped = Some free /\ (free + open_sockets stopped = 2)%nat.
Proof. destruct (serve_slots false true (Some 2%nat) stopped stopped_run) as (free & ? & ? & _). by exists free. Defined.

Lemma serve_shutdown_witness :
  (forall s', rtc (server_step false true) stopped s' -> sv_accepted s' = 2%nat) /\
  exists s', serve_step false true stopped s' /\ sv_phase s' = PReturned.
Proof.
  destruct (serve_shutdown false true (Some 2%nat) stopped stopped_run eq_refl) as [H1 H2]. split.
  - intros s' Hs'. exact (proj1 (H1 s' Hs')).
  - exact (H2 eq_refl ltac:(discriminate)).
Defined.
End Demo.
