(* ===== verification/Metadata.v ===== *)
(** * Request metadata ([src/transcode/metadata.rs])

    Which request headers become gRPC metadata, the W3C trace context carried
    across, and the deadline of a call. [tonic]'s metadata keys and values are
    the interface [TonicLib]; the system's random source is an argument. [None]
    stands for a panic where a definition says so. *)

From S2P Require Import Prelude Rust Http Net ClientAddress.

(** ** The crate *)

(** [tonic::metadata]: parsing of an ASCII key and of an ASCII value. *)
Class TonicLib : Type := {
  ascii_key : text -> option text;
  ascii_value : text -> option text;
}.

Definition visible (c : ascii) : bool := byte_in 32 126 c.

Class TonicLaws (T : TonicLib) : Prop := {
  ascii_value_visible v : forallb visible v = true -> ascii_value v = Some v;
  ascii_key_grpc k :
    is_grpc_key k = true -> to_ascii_lowercase k = k -> ends_with (txt "-bin") k = false ->
    ascii_key k = Some k;
}.

(** ** Values gRPC metadata can carry *)

Definition is_ascii_value (value : text) : bool :=
  match value with [] => false | _ => true end && forallb visible value.

(** The value of a base64 digit. *)
Definition base64_digit (digit : ascii) : Z :=
  if is_ascii_uppercase digit then code digit - 65
  else if is_ascii_lowercase digit then code digit - 97 + 26
  else if is_ascii_digit digit then code digit - 48 + 52
  else if decide (digit = ch "+") then 62
  else 63.

Definition canonical_tail (data : text) : bool :=
  let check mask :=
    match last data with
    | Some digit => Z.land (base64_digit digit) mask =? 0
    | None => false
    end in
  match (length data mod 4)%nat with
  | 2%nat => check 15
  | 3%nat => check 3
  | _ => true
  end.

Definition base64_alphabet (data : text) : bool :=
  forallb (fun b => is_ascii_alphanumeric b || bool_decide (b = ch "+") || bool_decide (b = ch "/")) data.

(** The check of one part of a [-bin] value, trimmed. *)
Definition is_base64_part (part : text) : bool :=
  let stripped :=
    match strip_suffix (txt "==") part with
    | Some data => Some data
    | None => strip_suffix (txt "=") part
    end in
  let '(data, well_formed) :=
    match stripped with
    | Some data => (data, (length part mod 4 =? 0)%nat)
    | None => (part, negb (length part mod 4 =? 1)%nat)
    end in
  well_formed && base64_alphabet data && canonical_tail data.

Definition is_base64_value (value : text) : bool :=
  forallb (fun part => is_base64_part (trim_ascii part)) (split (ch ",") value).

Definition is_binary (name : text) : bool := ends_with (txt "-bin") name.

Definition carries (name value : text) : bool :=
  if is_binary name then is_base64_value value else is_ascii_value value.

Definition is_trace_context (name : text) : bool :=
  eq_ignore_ascii_case name (txt "traceparent") || eq_ignore_ascii_case name (txt "tracestate").

(** ** Trace parents *)

Definition is_hex (s : text) (len : nat) : bool :=
  (length s =? len)%nat && forallb is_ascii_hexdigit s.

Definition not_zeros (s : text) : bool := existsb (fun b => negb (bool_decide (b = ch "0"))) s.

Definition is_valid_traceparent (tp : text) : bool :=
  match split (ch "-") tp with
  | version :: trace_id :: parent_id :: flags :: rest =>
      if bool_decide (version = txt "00") && negb (bool_decide (rest = [])) then false else
      is_hex version 2 && negb (eq_ignore_ascii_case version (txt "ff"))
      && is_hex trace_id 32 && is_hex parent_id 16 && is_hex flags 2
      && not_zeros trace_id && not_zeros parent_id
  | _ => false
  end.

Definition DIGITS : text := txt "0123456789abcdef".
Definition hex_digit (n : Z) : ascii := default (ch "0") (DIGITS !! Z.to_nat n).

(** The sixteen digits [write_hex] writes. *)
Definition write_hex (value : Z) : text :=
  (fun i => hex_digit (Z.land (Z.shiftr value (60 - 4 * Z.of_nat i)) 15)) <$> seq 0 16.

(** The generator of a thread: its seed once it has one. [fill] is what the
    system's random source answers. *)
Definition WYRAND_ADD : Z := 11562461410679940143.
Definition WYRAND_XOR : Z := 16646288086500911323.

Definition random_id (fill state : option Z) : option (Z * option Z) :=
  let! seed := match state with Some seed => Some seed | None => fill end in
  let next := (seed + WYRAND_ADD) mod 2 ^ 64 in
  let wide := next * Z.lxor next WYRAND_XOR in
  Some (Z.lxor (Z.shiftr wide 64) (wide mod 2 ^ 64), Some next).

(** Writing [new] over [buf] from [at_] on. *)
Definition overwrite (at_ : nat) (new buf : text) : text :=
  take at_ buf ++ new ++ drop (at_ + length new) buf.

Definition new_traceparent (fill state : option Z) : option (text * option Z) :=
  let! r1 := random_id fill state in
  let! r2 := random_id fill r1.2 in
  let! r3 := random_id fill r2.2 in
  let high := r1.1 in
  let low := if (high =? 0) && (r2.1 =? 0) then 1 else r2.1 in
  let span := if r3.1 =? 0 then 1 else r3.1 in
  let tp := txt "00-00000000000000000000000000000000-0000000000000000-01" in
  let tp := overwrite 3 (write_hex high) tp in
  let tp := overwrite 19 (write_hex low) tp in
  let tp := overwrite 36 (write_hex span) tp in
  Some (tp, r3.2).

(** ** Forwarding *)

Inductive Forwarded :=
| Listed (names : list text)
| Named (names : list text).

(** Who last wrote a request's client-address headers. *)
Inductive Source := Client | Rewritten.

#[export] Instance Source_eq : EqDecision Source.
Proof. solve_decision. Defined.

Section Forwarding.
Context {L : HttpLib} {T : TonicLib}.

(** [push] of [forward_one]: the first value fills the vacant entry, the others
    follow it. *)
Definition push (name : text) (st : HeaderMap * bool) (value : text) : HeaderMap * bool :=
  if st.2 then (hm_append st.1 name value, true) else (hm_insert st.1 name value, true).

(** The values one header value travels as. *)
Definition parts_of (binary : bool) (value : text) : list text :=
  if binary && contains_byte (ch ",") value then trim_ascii <$> split (ch ",") value else [value].

Section Check.
Context {E : Type} (check : text -> text -> result unit E).

Fixpoint forward_values (name : text) (st : HeaderMap * bool) (values : list text)
    : result (HeaderMap * bool) E :=
  match values with
  | [] => Ok st
  | value :: values' =>
      let? _ := check name value in
      forward_values name (foldl (push name) st (parts_of (is_binary name) value)) values'
  end.

Definition forward_one (forwarded headers : HeaderMap) (name : text) (source : Source) : result HeaderMap E :=
  if is_trace_context name || (bool_decide (source = Client) && owns name) then Ok forwarded else
  match hm_get_all headers name with
  | [] => Ok forwarded
  | values =>
      if negb (is_grpc_key name) then Ok forwarded
      else if hm_contains forwarded name then Ok forwarded
      else let? st := forward_values name (forwarded, false) values in Ok st.1
  end.

Fixpoint forward_names (forwarded headers : HeaderMap) (names : list text) (source : Source)
    : result HeaderMap E :=
  match names with
  | [] => Ok forwarded
  | name :: names' =>
      let? forwarded := forward_one forwarded headers name source in
      forward_names forwarded headers names' source
  end.

(** The names of the loop: a listed one no header can have is passed over. *)
Definition names_of (forwarded : Forwarded) : list text :=
  match forwarded with
  | Listed names => omap header_name names
  | Named names => names
  end.
End Check.

Definition insert_ascii (metadata : HeaderMap) (key value : text) : HeaderMap :=
  if negb (is_ascii_value value) then metadata else
  match ascii_key key, ascii_value value with
  | Some k, Some v => hm_insert metadata k v
  | _, _ => metadata
  end.

Definition append_ascii (metadata : HeaderMap) (key value : text) : HeaderMap :=
  if negb (is_ascii_value value) then metadata else
  match ascii_value value with
  | Some v => hm_append metadata key v
  | None => metadata
  end.

Definition TRACEPARENT : text := txt "traceparent".
Definition TRACESTATE : text := txt "tracestate".

(** The outer [None] is the panic of the value's [expect]. *)
Definition inject_trace_context (fill state : option Z) (metadata headers : HeaderMap)
    : option (HeaderMap * option Z) :=
  let synthesize :=
    match new_traceparent fill state with
    | Some (tp, state) => let! value := ascii_value tp in Some (hm_insert metadata TRACEPARENT value, state)
    | None => Some (metadata, state)
    end in
  match hm_get_str headers TRACEPARENT with
  | Some tp =>
      if is_valid_traceparent tp then
        let metadata := insert_ascii metadata TRACEPARENT tp in
        Some (foldl (fun m ts => append_ascii m TRACESTATE ts) metadata (hm_get_all headers TRACESTATE), state)
      else synthesize
  | None => synthesize
  end.

(** [forward]: the metadata of [headers], with [check] deciding on each value. *)
Definition forward {E} (check : text -> text -> result unit E) (fill state : option Z)
    (headers : HeaderMap) (forwarded : Forwarded) (source : Source)
    : result (option (HeaderMap * option Z)) E :=
  let? metadata := forward_names check hm_empty headers (names_of forwarded) source in
  Ok (inject_trace_context fill state metadata headers).

(** The header whose value cannot be carried. *)
Record InvalidForwardedHeader := mkInvalidForwarded { if_header : text }.

Definition check_carries (name value : text) : result unit InvalidForwardedHeader :=
  if carries name value then Ok tt else Err (mkInvalidForwarded name).

Definition checked (fill state : option Z) (headers : HeaderMap) (forwarded : Forwarded) (source : Source) :=
  forward check_carries fill state headers forwarded source.

Definition try_http_headers_to_grpc_metadata (fill state : option Z) (headers : HeaderMap)
    (forwarded_headers : list text) :=
  checked fill state headers (Listed forwarded_headers) Client.

Definition forwarded_metadata (fill state : option Z) (headers : HeaderMap) (forwarded : Forwarded)
    (rewritten : bool) :=
  checked fill state headers forwarded (if rewritten then Rewritten else Client).

(** The deprecated form, which checks nothing and cannot fail. *)
Definition http_headers_to_grpc_metadata (fill state : option Z) (headers : HeaderMap)
    (forwarded_headers : list text) : option (HeaderMap * option Z) :=
  match forward (E := Empty_set) (fun _ _ => Ok tt) fill state headers (Listed forwarded_headers) Client with
  | Ok metadata => metadata
  | Err never => match never with end
  end.

(** ** Deadlines *)

(** [str::split_at]: [None] panics inside a character. *)
Definition split_at (s : text) (mid : nat) : option (text * text) :=
  match s !! mid with
  | Some c => if continuation c then None else Some (take mid s, drop mid s)
  | None => if (mid =? length s)%nat then Some (s, []) else None
  end.

(** [u64] multiplication; [None] overflows. *)
Definition u64_mul (a b : Z) : option Z := if a * b <=? U64_MAX then Some (a * b) else None.

(** The duration of a count and its unit: the outer [None] is an overflow. *)
Definition unit_duration (n : Z) (unit_ : text) : option (option Z) :=
  if decide (unit_ = txt "H") then let! s := u64_mul n 3600 in Some (Some (from_secs s))
  else if decide (unit_ = txt "M") then let! s := u64_mul n 60 in Some (Some (from_secs s))
  else if decide (unit_ = txt "S") then Some (Some (from_secs n))
  else if decide (unit_ = txt "m") then Some (Some (from_millis n))
  else if decide (unit_ = txt "u") then Some (Some (from_micros n))
  else if decide (unit_ = txt "n") then Some (Some n)
  else Some None.

(** The outer [None] is a panic. *)
Definition parse_grpc_timeout (value : text) : option (option Z) :=
  let value := trim value in
  match length value with
  | O => Some None
  | S len =>
      let! du := split_at value len in
      let '(digits, unit_) := du in
      if (length digits =? 0)%nat || (8 <? length digits)%nat then Some None else
      match parse_u64 digits with
      | None => Some None
      | Some n =>
          let! dur := unit_duration n unit_ in
          match dur with
          | None => Some None
          | Some dur => if dur =? 0 then Some None else Some (Some dur)
          end
      end
  end.

(** [apply_request_deadline] on a request [set_timeout] gives a timeout. *)
Definition apply_request_deadline {Req} (set_timeout : Req -> Z -> Req) (request : Req) (headers : HeaderMap)
    : option (Req * option Z) :=
  match hm_get_str headers (txt "grpc-timeout") with
  | None => Some (request, None)
  | Some v =>
      let! timeout := parse_grpc_timeout v in
      match timeout with
      | None => Some (request, None)
      | Some timeout => Some (set_timeout request timeout, Some timeout)
      end
  end.
End Forwarding.

(** * Theorems *)

(** ** Trace parents *)

Lemma hex_digit_ok (n : Z) : 0 <= n < 16 ->
  is_ascii_hexdigit (hex_digit n) = true /\ hex_digit n <> ch "-" /\ (hex_digit n = ch "0" -> n = 0).
Proof.
  intros Hn. assert (n ∈ seqZ 0 16) as Hin by (apply elem_of_seqZ; lia).
  cbn in Hin. repeat (apply elem_of_cons in Hin as [->|Hin]; [done|]). by apply elem_of_nil in Hin.
Qed.

Lemma nibble_range (v : Z) : 0 <= Z.land v 15 < 16.
Proof. change 15 with (Z.ones 4). rewrite Z.land_ones by lia. apply Z.mod_pos_bound. lia. Qed.

Lemma write_hex_length (v : Z) : length (write_hex v) = 16%nat.
Proof. unfold write_hex. by rewrite length_fmap, length_seq. Qed.

Lemma write_hex_hex (v : Z) :
  Forall (fun c => is_ascii_hexdigit c = true /\ c <> ch "-") (write_hex v).
Proof.
  unfold write_hex. apply Forall_fmap, Forall_true. intros i. cbn.
  destruct (hex_digit_ok (Z.land (Z.shiftr v (60 - 4 * Z.of_nat i)) 15)) as (H1 & H2 & _); [by apply nibble_range|].
  done.
Qed.

Lemma write_hex_visible (v : Z) : forallb visible (write_hex v) = true.
Proof.
  apply forallb_forall. intros c Hc%list_elem_of_In. pose proof (write_hex_hex v) as H.
  rewrite Forall_forall in H. destruct (H c Hc) as [Hx _].
  unfold visible, is_ascii_hexdigit, is_ascii_digit, byte_in in *.
  repeat (apply orb_true_iff in Hx as [Hx|Hx]); bool_simpl; apply andb_true_iff; lia.
Qed.

(** The digits of a non-zero value are not all zeros. *)
Lemma write_hex_zero (v : Z) :
  0 <= v < 2 ^ 64 -> Forall (fun c => c = ch "0") (write_hex v) -> v = 0.
Proof.
  intros Hv H. apply Z.bits_inj_0. intros n.
  destruct (Z.ltb_spec n 0) as [?|Hn0]; [by apply Z.testbit_neg_r|].
  destruct (Z.ltb_spec n 64) as [Hn|?].
  2:{ destruct (decide (v = 0)) as [->|]; [apply Z.bits_0|].
      apply Z.bits_above_log2; [lia|]. apply Z.log2_lt_pow2; [lia|].
      assert (2 ^ 64 <= 2 ^ n) by (apply Z.pow_le_mono_r; lia). lia. }
  unfold write_hex in H. rewrite Forall_fmap, Forall_forall in H.
  set (i := Z.to_nat (15 - n / 4)). pose proof (Z.div_mod n 4 ltac:(lia)) as Hd.
  pose proof (Z.mod_pos_bound n 4 ltac:(lia)) as Hm.
  specialize (H i ltac:(apply elem_of_seq; unfold i; lia)). cbn beta in H.
  apply hex_digit_ok in H; [|by apply nibble_range].
  apply (f_equal (fun z => Z.testbit z (n mod 4))) in H.
  rewrite Z.land_spec, Z.shiftr_spec, Z.bits_0 in H by lia.
  replace (n mod 4 + (60 - 4 * Z.of_nat i)) with n in H by (unfold i; lia).
  change 15 with (Z.ones 4) in H. rewrite Z.ones_spec_low in H by lia. by rewrite andb_true_r in H.
Qed.

Lemma random_id_range (fill state : option Z) (id : Z) (state' : option Z) :
  random_id fill state = Some (id, state') -> 0 <= id < 2 ^ 64.
Proof.
  unfold random_id. destruct (match state with Some _ => _ | None => _ end) as [seed|]; cbn; [|done].
  intros [= <- _]. set (next := (seed + WYRAND_ADD) mod 2 ^ 64).
  assert (Hn : 0 <= next < 2 ^ 64) by (apply Z.mod_pos_bound; lia).
  assert (Hx : 0 <= Z.lxor next WYRAND_XOR < 2 ^ 64) by (apply lxor_range; [lia|done|by unfold WYRAND_XOR]).
  apply lxor_range; [lia| |apply Z.mod_pos_bound; lia].
  rewrite Z.shiftr_div_pow2 by lia. split; [apply Z.div_pos; nia|].
  apply Z.div_lt_upper_bound; [lia|]. change (2 ^ 64 * 2 ^ 64) with (2 ^ 64 * 2 ^ 64). nia.
Qed.

Lemma not_zeros_app (a b : text) : not_zeros (a ++ b) = not_zeros a || not_zeros b.
Proof. apply existsb_app. Qed.

Lemma not_zeros_hex (v : Z) : 0 <= v < 2 ^ 64 -> v <> 0 -> not_zeros (write_hex v) = true.
Proof.
  intros Hv Hne. destruct (not_zeros (write_hex v)) eqn:E; [done|]. destruct Hne.
  apply write_hex_zero; [done|]. apply existsb_false_Forall in E.
  eapply Forall_impl; [exact E|]. cbn. intros c Hc. by bool_simpl.
Qed.

Lemma overwrite_app (n : nat) (pre old new post : text) :
  length pre = n -> length old = length new -> overwrite n new (pre ++ old ++ post) = pre ++ new ++ post.
Proof.
  intros <- Hl. unfold overwrite. rewrite take_app_length, <- Hl, drop_app_add, drop_app_length. done.
Qed.

(** The layout the template and the three writes give. *)
Lemma traceparent_layout (high low span : Z) :
  overwrite 36 (write_hex span) (overwrite 19 (write_hex low) (overwrite 3 (write_hex high)
    (txt "00-00000000000000000000000000000000-0000000000000000-01"))) =
  txt "00" ++ ch "-" :: (write_hex high ++ write_hex low) ++ ch "-" :: write_hex span ++ ch "-" :: txt "01".
Proof.
  change (txt "00-00000000000000000000000000000000-0000000000000000-01") with
    (txt "00-" ++ replicate 16 (ch "0") ++ replicate 16 (ch "0") ++ txt "-" ++ replicate 16 (ch "0") ++ txt "-01").
  rewrite (overwrite_app 3 (txt "00-")) by (done || by rewrite write_hex_length).
  rewrite (app_assoc (txt "00-") (write_hex high)).
  rewrite (overwrite_app 19) by (by rewrite ?length_app, !write_hex_length).
  rewrite (app_assoc _ (write_hex low)), (app_assoc _ (txt "-")).
  rewrite (overwrite_app 36) by (by rewrite ?length_app, ?write_hex_length).
  by rewrite <- !app_assoc.
Qed.

Lemma hex_no_dash (s : text) :
  Forall (fun c => is_ascii_hexdigit c = true /\ c <> ch "-") s -> ch "-" ∉ s.
Proof. intros H Hin. rewrite Forall_forall in H. by destruct (H _ Hin). Qed.

Lemma hex_is_hex (s : text) (n : nat) :
  length s = n -> Forall (fun c => is_ascii_hexdigit c = true /\ c <> ch "-") s -> is_hex s n = true.
Proof.
  intros <- H. unfold is_hex. rewrite Nat.eqb_refl. cbn. apply forallb_forall.
  intros c Hc%list_elem_of_In. rewrite Forall_forall in H. by destruct (H c Hc).
Qed.

(** A trace parent made of hex digits and two non-zero ids is valid. *)
Lemma traceparent_valid (trace parent : text) :
  Forall (fun c => is_ascii_hexdigit c = true /\ c <> ch "-") trace ->
  Forall (fun c => is_ascii_hexdigit c = true /\ c <> ch "-") parent ->
  length trace = 32%nat -> length parent = 16%nat -> not_zeros trace = true -> not_zeros parent = true ->
  is_valid_traceparent (txt "00" ++ ch "-" :: trace ++ ch "-" :: parent ++ ch "-" :: txt "01") = true.
Proof.
  intros Ht Hp Lt Lp Zt Zp. unfold is_valid_traceparent.
  rewrite (split_cons_sep _ (txt "00")) by (intros H; by vm_compute in H; set_solver).
  rewrite split_cons_sep by by apply hex_no_dash.
  rewrite split_cons_sep by by apply hex_no_dash.
  change (split (ch "-") (txt "01")) with [txt "01"].
  rewrite (hex_is_hex trace 32), (hex_is_hex parent 16), Zt, Zp by done. done.
Qed.

(** The generated trace parent is valid whatever the random source gives. *)
Lemma new_traceparent_ok (fill state state' : option Z) (tp : text) :
  new_traceparent fill state = Some (tp, state') ->
  is_valid_traceparent tp = true /\ is_ascii_value tp = true.
Proof.
  unfold new_traceparent.
  destruct (random_id fill state) as [[high s1]|] eqn:E1; cbn [mbind option_bind fst snd]; [|done].
  destruct (random_id fill s1) as [[low s2]|] eqn:E2; cbn [mbind option_bind fst snd]; [|done].
  destruct (random_id fill s2) as [[span s3]|] eqn:E3; cbn [mbind option_bind fst snd]; [|done].
  apply random_id_range in E1, E2, E3. intros [= <- _]. rewrite traceparent_layout.
  set (low' := if _ && _ then 1 else low). set (span' := if _ =? 0 then 1 else span).
  assert (Hl : 0 <= low' < 2 ^ 64) by (unfold low'; case_match; lia).
  assert (Hs : 0 <= span' < 2 ^ 64 /\ span' <> 0) by (unfold span'; case_match; bool_simpl; lia).
  split.
  - apply traceparent_valid; try apply write_hex_length; try apply Forall_app_2; try apply write_hex_hex.
    + by rewrite length_app, !write_hex_length.
    + rewrite not_zeros_app. destruct (decide (high = 0)) as [->|Hh].
      * rewrite (not_zeros_hex low'); [apply orb_true_r|done|].
        unfold low'. cbn. case_match; bool_simpl; lia.
      * by rewrite not_zeros_hex.
    + destruct Hs. by apply not_zeros_hex.
  - change (is_ascii_value ?t) with (true && forallb visible t).
    rewrite forallb_app. cbn [forallb]. rewrite forallb_app, forallb_app. cbn [forallb]. rewrite forallb_app.
    by rewrite !write_hex_visible.
Qed.

(** ** Forwarding *)

Section ForwardingLaws.
Context {L : HttpLib} {LL : HttpLaws L} {T : TonicLib} {TL : TonicLaws T}.

(** Whether a listed header may travel. *)
Definition forwardable (source : Source) (name : text) : bool :=
  negb (is_trace_context name) && negb (bool_decide (source = Client) && owns name) && is_grpc_key name.

(** The metadata values a request's header travels as: all its values in order,
    the parts of a joined binary value each on its own. *)
Definition travels (headers : HeaderMap) (name : text) : list text :=
  mjoin (parts_of (is_binary name) <$> hm_get_all headers name).

Lemma parts_nonnil (binary : bool) (v : text) : parts_of binary v <> [].
Proof.
  unfold parts_of. destruct (_ && _); [|done].
  destruct (split (ch ",") v) eqn:E; [by apply split_nonnil in E|done].
Qed.

Lemma pushed (name : text) (vs : list text) (m : HeaderMap) (occupied : bool) (n : text) :
  (occupied = false -> hm_get_all m name = []) ->
  let st := foldl (push name) (m, occupied) vs in
  hm_get_all st.1 n = (if decide (name = n) then hm_get_all m n ++ vs else hm_get_all m n) /\
  (st.2 = false -> hm_get_all st.1 name = []).
Proof.
  revert m occupied. induction vs as [|v vs IH]; intros m occupied H; cbn [foldl fst snd].
  { split; [|done]. case_match; [by rewrite app_nil_r|done]. }
  destruct occupied.
  - change (push name (m, true) v) with (hm_append m name v, true). destruct (IH (hm_append m name v) true) as [E Ho]; [done|]. split; [|done]. rewrite E, get_all_append.
    destruct (decide (name = n)); [by rewrite <- app_assoc|done].
  - change (push name (m, false) v) with (hm_insert m name v, true). destruct (IH (hm_insert m name v) true) as [E Ho]; [done|]. split; [|done]. rewrite E, get_all_insert.
    destruct (decide (name = n)) as [->|]; [|done]. by rewrite H.
Qed.

Lemma forward_values_ok {E} (check : text -> text -> result unit E) (name : text) (values : list text)
    (st st' : HeaderMap * bool) :
  (st.2 = false -> hm_get_all st.1 name = []) ->
  forward_values check name st values = Ok st' ->
  (forall v, v ∈ values -> is_ok (check name v) = true) /\
  forall n, hm_get_all st'.1 n =
    if decide (name = n) then hm_get_all st.1 n ++ mjoin (parts_of (is_binary name) <$> values)
    else hm_get_all st.1 n.
Proof.
  revert st. induction values as [|v values IH]; intros [m o] H; cbn [forward_values].
  { intros [= <-]. split; [by intros v ?%elem_of_nil|]. intros n. case_match; [by rewrite app_nil_r|done]. }
  destruct (check name v) as [u|e] eqn:Ec; cbn [result_bind]; [|done]. intros Hf.
  apply IH in Hf as [Hall Hget].
  2:{ by apply (pushed name _ m o name). }
  split.
  - intros v' [->|Hin]%elem_of_cons; [by rewrite Ec|auto].
  - intros n. rewrite Hget. destruct (pushed name (parts_of (is_binary name) v) m o n H) as [-> _].
    cbn [fst fmap list_fmap mjoin list_join]. case_match; [by rewrite <- app_assoc|done].
Qed.

Lemma forward_values_err {E} (check : text -> text -> result unit E) (name : text) (values : list text)
    (st : HeaderMap * bool) (e : E) :
  forward_values check name st values = Err e -> exists v, v ∈ values /\ check name v = Err e.
Proof.
  revert st. induction values as [|v values IH]; intros st; cbn [forward_values]; [done|].
  destruct (check name v) as [u|e'] eqn:Ec; cbn [result_bind].
  - intros (v' & ? & ?)%IH. exists v'. set_solver.
  - intros [= ->]. exists v. set_solver.
Qed.

(** One header: refused for the first value that fails, or put under its name. *)
Lemma forward_one_ok {E} (check : text -> text -> result unit E) (m m' headers : HeaderMap) (name : text)
    (source : Source) :
  forward_one check m headers name source = Ok m' ->
  (forall v, forwardable source name = true -> hm_get_all m name = [] ->
     v ∈ hm_get_all headers name -> is_ok (check name v) = true) /\
  forall n, hm_get_all m' n =
    if decide (name = n /\ forwardable source n = true /\ hm_get_all m n = []) then travels headers n
    else hm_get_all m n.
Proof.
  unfold forward_one, forwardable. destruct (is_trace_context name || _) eqn:Et.
  { assert (Hno : negb (is_trace_context name) && negb (bool_decide (source = Client) && owns name) = false)
      by (apply orb_true_iff in Et as [->| ->]; cbn; [done|apply andb_false_r]).
    intros [= <-]. rewrite Hno. split; [done|]. intros n. rewrite decide_False; [done|].
    intros (<- & H & _). by rewrite Hno in H. }
  apply orb_false_iff in Et as [Et Es].
  destruct (hm_get_all headers name) as [|v0 vs0] eqn:Eh.
  { intros [= <-]. split; [by intros v _ _ ?%elem_of_nil|]. intros n. case_match; [|done].
    destruct_and!. subst n. unfold travels. rewrite Eh. cbn. done. }
  destruct (is_grpc_key name) eqn:Eg; cbn [negb].
  2:{ intros [= <-]. split; [intros v H; by rewrite andb_false_r in H|]. intros n. rewrite decide_False; [done|].
      intros (<- & H & _). by rewrite Eg, andb_false_r in H. }
  unfold hm_contains. destruct (hm_get_all m name) as [|w ws] eqn:Em.
  2:{ intros [= <-]. split; [done|]. intros n. rewrite decide_False; [done|]. intros (<- & _ & H). congruence. }
  destruct (forward_values check name (m, false) (v0 :: vs0)) as [st|] eqn:Ef; cbn [result_bind]; [|done].
  intros [= <-]. apply forward_values_ok in Ef as [Hall Hget]; [|done]. split; [auto|].
  intros n. rewrite Hget. cbn [fst]. destruct (decide (name = n)) as [<-|Hne].
  - rewrite Em, decide_True; [by unfold travels; rewrite Eh|]. by rewrite Et, Es, Eg.
  - rewrite decide_False; [done|]. by intros [? _].
Qed.

Lemma forward_one_err {E} (check : text -> text -> result unit E) (m headers : HeaderMap) (name : text)
    (source : Source) (e : E) :
  forward_one check m headers name source = Err e ->
  forwardable source name = true /\ exists v, v ∈ hm_get_all headers name /\ check name v = Err e.
Proof.
  unfold forward_one, forwardable. destruct (is_trace_context name || _) eqn:Et; [done|].
  apply orb_false_iff in Et as [-> ->]. destruct (hm_get_all headers name) as [|v0 vs0]; [done|].
  destruct (is_grpc_key name); cbn [negb]; [|done]. destruct (hm_contains m name); [done|].
  destruct (forward_values _ _ _ _) eqn:Ef; cbn [result_bind]; [done|]. intros [= ->].
  split; [done|]. by apply forward_values_err in Ef.
Qed.

Lemma travels_nil (headers : HeaderMap) (name : text) : travels headers name = [] -> hm_get_all headers name = [].
Proof.
  unfold travels. destruct (hm_get_all headers name) as [|v vs]; [done|]. cbn.
  intros [H _]%app_nil. by apply parts_nonnil in H.
Qed.

Lemma forward_names_ok {E} (check : text -> text -> result unit E) (headers : HeaderMap) (source : Source)
    (names : list text) (m m' : HeaderMap) :
  forward_names check m headers names source = Ok m' ->
  (forall n v, n ∈ names -> forwardable source n = true -> hm_get_all m n = [] ->
     v ∈ hm_get_all headers n -> is_ok (check n v) = true) /\
  forall n, hm_get_all m' n =
    if decide (n ∈ names /\ forwardable source n = true /\ hm_get_all m n = []) then travels headers n
    else hm_get_all m n.
Proof.
  revert m. induction names as [|name names IH]; intros m; cbn [forward_names].
  { intros [= <-]. split; [by intros n v ?%elem_of_nil|]. intros n. rewrite decide_False; [done|].
    by intros [?%elem_of_nil _]. }
  destruct (forward_one check m headers name source) as [m1|] eqn:E1; cbn [result_bind]; [|done]. intros H2.
  apply forward_one_ok in E1 as [Hc1 Hg1]. apply IH in H2 as [Hc2 Hg2]. split.
  - intros n v [->|Hin]%elem_of_cons Hf Hm Hv; [auto|].
    destruct (decide (name = n)) as [->|Hne]; [auto|]. apply Hc2; try done. rewrite Hg1.
    rewrite decide_False; [done|]. by intros [? _].
  - intros n. rewrite Hg2. pose proof (Hg1 n) as E1.
    destruct (decide (name = n /\ _)) as [(<- & Hf & Hm)|Hn]; rewrite E1.
    + rewrite (decide_True (P := name ∈ name :: names /\ _)) by set_solver. by case_match.
    + destruct (decide (n ∈ names /\ _)) as [(Hin & Hf & Hm)|Hn'].
      * rewrite decide_True by set_solver. done.
      * rewrite decide_False; [done|]. intros ([->|Hin]%elem_of_cons & Hf & Hm); [by apply Hn|apply Hn'; repeat split; congruence].
Qed.

Lemma forward_names_err {E} (check : text -> text -> result unit E) (headers : HeaderMap) (source : Source)
    (names : list text) (m : HeaderMap) (e : E) :
  forward_names check m headers names source = Err e ->
  exists n v, n ∈ names /\ forwardable source n = true /\ v ∈ hm_get_all headers n /\ check n v = Err e.
Proof.
  revert m. induction names as [|name names IH]; intros m; cbn [forward_names]; [done|].
  destruct (forward_one check m headers name source) as [m1|e1] eqn:E1; cbn [result_bind].
  - intros (n & v & ? & ? & ? & ?)%IH. exists n, v. set_solver.
  - intros [= ->]. apply forward_one_err in E1 as (? & v & ? & ?). exists name, v. set_solver.
Qed.

(** The trace a request joins: its own when it carries a valid parent. *)
Definition own_trace (headers : HeaderMap) : option text :=
  match hm_get_str headers TRACEPARENT with
  | Some tp => if is_valid_traceparent tp then Some tp else None
  | None => None
  end.

Lemma append_all_states (m : HeaderMap) (ts : list text) (n : text) :
  hm_get_all (foldl (fun m t => append_ascii m TRACESTATE t) m ts) n =
  if decide (TRACESTATE = n) then hm_get_all m n ++ filter (fun t => is_ascii_value t = true) ts else hm_get_all m n.
Proof.
  revert m. induction ts as [|t ts IH]; intros m; cbn [foldl].
  { case_match; [by rewrite app_nil_r|done]. }
  rewrite IH, filter_cons. unfold append_ascii. destruct (is_ascii_value t) eqn:Et; cbn [negb].
  - rewrite ascii_value_visible by (by unfold is_ascii_value in Et; bool_simpl).
    rewrite get_all_append. destruct (decide (TRACESTATE = n)); [|done].
    rewrite decide_True by done. by rewrite <- app_assoc.
  - rewrite (decide_False (P := false = true)) by done. done.
Qed.

(** What [inject_trace_context] adds, to metadata that holds no trace. *)
Lemma inject_ok (fill state : option Z) (m headers : HeaderMap) :
  hm_get_all m TRACEPARENT = [] -> hm_get_all m TRACESTATE = [] ->
  exists m' state', inject_trace_context fill state m headers = Some (m', state') /\
  (forall n, n <> TRACEPARENT -> n <> TRACESTATE -> hm_get_all m' n = hm_get_all m n) /\
  match own_trace headers with
  | Some tp =>
      hm_get_all m' TRACEPARENT = (if is_ascii_value tp then [tp] else []) /\
      hm_get_all m' TRACESTATE = filter (fun t => is_ascii_value t = true) (hm_get_all headers TRACESTATE)
  | None =>
      hm_get_all m' TRACESTATE = [] /\
      (if decide (is_Some (new_traceparent fill state))
       then exists tp, hm_get_all m' TRACEPARENT = [tp] /\ is_valid_traceparent tp = true
       else hm_get_all m' TRACEPARENT = [])
  end.
Proof.
  intros Hp Hs. unfold inject_trace_context, own_trace.
  set (fresh := match new_traceparent fill state with Some _ => _ | None => _ end).
  assert (Hf : exists m' state', fresh = Some (m', state') /\
    (forall n, n <> TRACEPARENT -> n <> TRACESTATE -> hm_get_all m' n = hm_get_all m n) /\
    hm_get_all m' TRACESTATE = [] /\
    (if decide (is_Some (new_traceparent fill state))
     then exists tp, hm_get_all m' TRACEPARENT = [tp] /\ is_valid_traceparent tp = true
     else hm_get_all m' TRACEPARENT = [])).
  { unfold fresh. destruct (new_traceparent fill state) as [[tp st]|] eqn:En.
    - apply new_traceparent_ok in En as [Hv Ha]. rewrite ascii_value_visible by (by unfold is_ascii_value in Ha; bool_simpl).
      cbn [mbind option_bind]. eexists _, _. split; [done|]. rewrite decide_True by done. split.
      + intros n Hn _. by rewrite get_all_insert, decide_False by congruence.
      + split; [by header_simpl|]. exists tp. split; [by header_simpl|done].
    - eexists _, _. split; [done|]. by rewrite decide_False by by intros [? ?]. }
  clearbody fresh. destruct (hm_get_str headers TRACEPARENT) as [tp|]; [|done].
  destruct (is_valid_traceparent tp) eqn:Ev; [|done]. clear Hf. eexists _, _. split; [done|].
  assert (Hi : forall n, hm_get_all (insert_ascii m TRACEPARENT tp) n =
    if decide (n = TRACEPARENT) then if is_ascii_value tp then [tp] else [] else hm_get_all m n).
  { intros n. unfold insert_ascii. destruct (is_ascii_value tp) eqn:Ea; cbn [negb].
    - rewrite ascii_value_visible by (by unfold is_ascii_value in Ea; bool_simpl).
      rewrite (ascii_key_grpc TRACEPARENT) by done. rewrite get_all_insert.
      destruct (decide (n = TRACEPARENT)) as [->|]; [by rewrite decide_True|by rewrite decide_False by congruence].
    - destruct (decide (n = TRACEPARENT)) as [->|]; done. }
  split; [|split].
  - intros n Hn Hn'. rewrite append_all_states, Hi. by rewrite !decide_False by congruence.
  - rewrite append_all_states, Hi. by rewrite (decide_False (P := TRACESTATE = _)), decide_True by done.
  - rewrite append_all_states, Hi. by rewrite decide_True, (decide_False (P := TRACESTATE = _)), Hs by done.
Qed.

Lemma forward_names_trace {E} (check : text -> text -> result unit E) (headers m : HeaderMap) (names : list text) (source : Source) :
  forward_names check hm_empty headers names source = Ok m -> forall n, is_trace_context n = true -> hm_get_all m n = [].
Proof.
  intros [_ Hg]%forward_names_ok n Hn. rewrite Hg, decide_False, get_all_empty; [done|].
  unfold forwardable. rewrite Hn. by intros (_ & ? & _).
Qed.

(** Forwarding never panics. *)
Lemma forwarded_total (fill state : option Z) (headers : HeaderMap) (forwarded : Forwarded) (rewritten : bool) :
  forwarded_metadata fill state headers forwarded rewritten <> Ok None.
Proof.
  unfold forwarded_metadata, checked, forward. destruct (forward_names _ _ _ _ _) as [m0|e] eqn:Ef; cbn [result_bind]; [|done].
  pose proof (forward_names_trace _ _ _ _ _ Ef) as Ht.
  destruct (inject_ok fill state m0 headers) as (m & st & -> & _); [by apply Ht..|]. done.
Qed.

(** The metadata of a request is refused exactly for a forwarded value it cannot carry; otherwise it is
    every listed header gRPC can carry and the proxy does not own, value by value in order, and the
    trace context: the request's own when its parent is valid, with its states, else a fresh valid one. *)
Theorem metadata_forwarded (fill state : option Z) (headers : HeaderMap) (forwarded : Forwarded) (rewritten : bool) :
  let source := if rewritten then Rewritten else Client in
  match forwarded_metadata fill state headers forwarded rewritten with
  | Err e =>
      exists v, if_header e ∈ names_of forwarded /\ forwardable source (if_header e) = true /\
        v ∈ hm_get_all headers (if_header e) /\ carries (if_header e) v = false
  | Ok None => False
  | Ok (Some (m, _)) =>
      (forall n v, n ∈ names_of forwarded -> forwardable source n = true -> v ∈ hm_get_all headers n ->
         carries n v = true) /\
      (forall n, n <> TRACEPARENT -> n <> TRACESTATE ->
         hm_get_all m n =
         if decide (n ∈ names_of forwarded /\ forwardable source n = true) then travels headers n else []) /\
      match own_trace headers with
      | Some tp =>
          hm_get_all m TRACEPARENT = (if is_ascii_value tp then [tp] else []) /\
          hm_get_all m TRACESTATE = filter (fun t => is_ascii_value t = true) (hm_get_all headers TRACESTATE)
      | None =>
          hm_get_all m TRACESTATE = [] /\
          (if decide (is_Some (new_traceparent fill state))
           then exists tp, hm_get_all m TRACEPARENT = [tp] /\ is_valid_traceparent tp = true
           else hm_get_all m TRACEPARENT = [])
      end
  end.
Proof.
  intros source. unfold forwarded_metadata, checked, forward. fold source.
  destruct (forward_names check_carries hm_empty headers (names_of forwarded) source) as [m0|e] eqn:Ef; cbn [result_bind].
  - pose proof (forward_names_trace _ _ _ _ _ Ef) as Ht. apply forward_names_ok in Ef as [Hc Hg].
    destruct (inject_ok fill state m0 headers) as (m & st & -> & Hne & Htrace); [by apply Ht|by apply Ht|].
    split; [|split; [|done]].
    + intros n v Hin Hf Hv. specialize (Hc n v Hin Hf (get_all_empty n) Hv).
      unfold check_carries in Hc. by destruct (carries n v).
    + intros n Hp Hs. rewrite Hne, Hg by done. rewrite get_all_empty.
      destruct (decide (n ∈ _ /\ _)) as [(? & ? & _)|Hn], (decide (_ /\ _)) as [[? ?]|Hn'];
        [done|by destruct Hn'|by destruct Hn|done].
  - apply forward_names_err in Ef as (n & v & Hin & Hf & Hv & Hc). exists v.
    unfold check_carries in Hc. destruct (carries n v) eqn:Ec; [done|]. by injection Hc as <-.
Qed.
End ForwardingLaws.

(** ** Base64 *)

(** RFC 4648, section 4: the digits of a byte string, most significant first,
    spare bits zero, and its padding. *)
Definition b64_alphabet : text := txt "ABCDEFGHIJKLMNOPQRSTUVWXYZabcdefghijklmnopqrstuvwxyz0123456789+/".
Definition b64_char (n : Z) : ascii := default (ch "A") (b64_alphabet !! Z.to_nat n).

Fixpoint b64_digits (bytes : text) : list Z :=
  match bytes with
  | [] => []
  | [a] => [code a / 4; (code a mod 4) * 16]
  | [a; b] => [code a / 4; (code a mod 4) * 16 + code b / 16; (code b mod 16) * 4]
  | a :: b :: c :: rest =>
      code a / 4 :: (code a mod 4) * 16 + code b / 16 :: (code b mod 16) * 4 + code c / 64 :: code c mod 64
      :: b64_digits rest
  end.

Definition b64_unpadded (bytes : text) : text := b64_char <$> b64_digits bytes.
Definition b64_padding (bytes : text) : text :=
  match (length bytes mod 3)%nat with 1%nat => txt "==" | 2%nat => txt "=" | _ => [] end.

Definition is_b64 (c : ascii) : bool :=
  is_ascii_alphanumeric c || bool_decide (c = ch "+") || bool_decide (c = ch "/").

Lemma b64_char_digit (n : Z) :
  0 <= n < 64 -> is_b64 (b64_char n) = true /\ base64_digit (b64_char n) = n /\ b64_char n <> ch "=".
Proof.
  intros Hn. assert (n ∈ seqZ 0 64) as Hin by (apply elem_of_seqZ; lia).
  vm_compute in Hin. repeat (apply elem_of_cons in Hin as [->|Hin]; [by vm_compute|]). by apply elem_of_nil in Hin.
Qed.

Lemma b64_digit_char (c : ascii) :
  is_b64 c = true -> 0 <= base64_digit c < 64 /\ b64_char (base64_digit c) = c.
Proof. intros H. byte_cases c; vm_compute in H; try discriminate H; vm_compute; repeat split; congruence. Qed.

Lemma mod_step (n k : nat) : k <> 0%nat -> ((k + n) mod k = n mod k)%nat.
Proof. intros Hk. rewrite Nat.add_comm. replace (n + k)%nat with (n + 1 * k)%nat by lia. by rewrite Nat.Div0.mod_add. Qed.

(** Induction by groups of four digits and of three bytes. *)
Lemma list_ind4 {A} (P : list A -> Prop) :
  P [] -> (forall x, P [x]) -> (forall x y, P [x; y]) -> (forall x y z, P [x; y; z]) ->
  (forall x y z w l, P l -> P (x :: y :: z :: w :: l)) -> forall l, P l.
Proof.
  intros H0 H1 H2 H3 Hs. fix IH 1. intros [|x [|y [|z [|w l]]]]; [done|apply H1|apply H2|apply H3|apply Hs, IH].
Qed.

Lemma list_ind3 {A} (P : list A -> Prop) :
  P [] -> (forall x, P [x]) -> (forall x y, P [x; y]) -> (forall x y z l, P l -> P (x :: y :: z :: l)) -> forall l, P l.
Proof.
  intros H0 H1 H2 Hs. fix IH 1. intros [|x [|y [|z l]]]; [done|apply H1|apply H2|apply Hs, IH].
Qed.

(** How many digits close a byte string of a given length. *)
Definition tail_digits (bytes : text) : nat :=
  match (length bytes mod 3)%nat with 1%nat => 2 | 2%nat => 3 | _ => 0 end.

Lemma canonical_tail_step (x y z w : ascii) (data : text) :
  canonical_tail (x :: y :: z :: w :: data) = canonical_tail data.
Proof.
  unfold canonical_tail. cbn [length]. change (S (S (S (S (length data))))) with (4 + length data)%nat.
  rewrite mod_step by done. destruct data as [|d data]; [done|]. by rewrite (last_cons_cons _ y), !(last_cons_cons).
Qed.

Lemma land_low (n k : Z) : 0 <= k -> Z.land n (2 ^ k - 1) = n mod 2 ^ k.
Proof. intros Hk. rewrite <- Z.land_ones by done. by rewrite Z.ones_equiv, <- Z.sub_1_r. Qed.

Ltac digits_ok :=
  repeat match goal with
  | H : is_b64 ?c = true |- _ => destruct (b64_digit_char c H) as [? ?]; clear H
  end.

(** Two, three and four digits as one, two and three bytes. *)
Lemma digits2 (d1 d2 : Z) : 0 <= d1 < 64 -> 0 <= d2 < 64 -> d2 mod 16 = 0 ->
  let a := d1 * 4 + d2 / 16 in 0 <= a < 256 /\ a / 4 = d1 /\ a mod 4 * 16 = d2.
Proof. cbn zeta. div_lia. Qed.

Lemma digits3 (d1 d2 d3 : Z) : 0 <= d1 < 64 -> 0 <= d2 < 64 -> 0 <= d3 < 64 -> d3 mod 4 = 0 ->
  let a := d1 * 4 + d2 / 16 in let b := d2 mod 16 * 16 + d3 / 4 in
  (0 <= a < 256 /\ 0 <= b < 256) /\ a / 4 = d1 /\ a mod 4 * 16 + b / 16 = d2 /\ b mod 16 * 4 = d3.
Proof. cbn zeta. div_lia. Qed.

Lemma digits4 (d1 d2 d3 d4 : Z) : 0 <= d1 < 64 -> 0 <= d2 < 64 -> 0 <= d3 < 64 -> 0 <= d4 < 64 ->
  let a := d1 * 4 + d2 / 16 in let b := d2 mod 16 * 16 + d3 / 4 in let c := d3 mod 4 * 64 + d4 in
  (0 <= a < 256 /\ 0 <= b < 256 /\ 0 <= c < 256) /\
  a / 4 = d1 /\ a mod 4 * 16 + b / 16 = d2 /\ b mod 16 * 4 + c / 64 = d3 /\ c mod 64 = d4.
Proof. cbn zeta. div_lia. Qed.

(** Digits with a whole number of bytes and a canonical tail encode bytes. *)
Lemma base64_decodes (data : text) :
  base64_alphabet data = true -> canonical_tail data = true -> (length data mod 4)%nat <> 1%nat ->
  exists bytes, data = b64_unpadded bytes /\ (length data mod 4)%nat = tail_digits bytes.
Proof.
  change base64_alphabet with (forallb is_b64).
  induction data as [|x|x y|x y z|x y z w data IH] using list_ind4; cbn [forallb]; intros Ha Ht Hl; bool_simpl.
  - by exists [].
  - by destruct Hl.
  - unfold canonical_tail in Ht. cbn in Ht. change 15 with (2 ^ 4 - 1) in Ht. rewrite land_low in Ht by done.
    bool_simpl. digits_ok. destruct (digits2 (base64_digit x) (base64_digit y)) as (? & E1 & E2); [done..|].
    exists [of_code (base64_digit x * 4 + base64_digit y / 16)]. split; [|done]. unfold b64_unpadded. cbn [b64_digits fmap list_fmap].
    rewrite code_of_code by done. rewrite E1, E2. congruence.
  - unfold canonical_tail in Ht. cbn in Ht. change 3 with (2 ^ 2 - 1) in Ht. rewrite land_low in Ht by done.
    bool_simpl. digits_ok.
    destruct (digits3 (base64_digit x) (base64_digit y) (base64_digit z)) as ([? ?] & E1 & E2 & E3); [done..|].
    exists [of_code (base64_digit x * 4 + base64_digit y / 16); of_code (base64_digit y mod 16 * 16 + base64_digit z / 4)].
    split; [|done]. unfold b64_unpadded. cbn [b64_digits fmap list_fmap].
    rewrite !code_of_code by done. rewrite E1, E2, E3. congruence.
  - rewrite canonical_tail_step in Ht. cbn [length] in Hl.
    change (S (S (S (S (length data))))) with (4 + length data)%nat in *.
    rewrite mod_step in Hl by done. destruct IH as (bytes & Eb & Et); [by repeat (apply andb_true_intro; split)|done..|].
    digits_ok.
    destruct (digits4 (base64_digit x) (base64_digit y) (base64_digit z) (base64_digit w))
      as ((? & ? & ?) & E1 & E2 & E3 & E4); [done..|].
    exists (of_code (base64_digit x * 4 + base64_digit y / 16) :: of_code (base64_digit y mod 16 * 16 + base64_digit z / 4) ::
      of_code (base64_digit z mod 4 * 64 + base64_digit w) :: bytes). split.
    + unfold b64_unpadded in *. cbn [b64_digits fmap list_fmap].
      rewrite !code_of_code by done. rewrite E1, E2, E3, E4. congruence.
    + cbn [length]. change (S (S (S (S (length data))))) with (4 + length data)%nat.
      rewrite mod_step, Et by done. unfold tail_digits. cbn [length].
      change (S (S (S (length bytes)))) with (3 + length bytes)%nat. by rewrite mod_step.
Qed.

Lemma b64_digits_range (bytes : text) : Forall (fun d => 0 <= d < 64) (b64_digits bytes).
Proof.
  induction bytes as [|a|a b|a b c bytes IH] using list_ind3; cbn [b64_digits];
    try pose proof (code_range a); try pose proof (code_range b); try pose proof (code_range c);
    repeat (constructor; [div_lia|]); done || constructor.
Qed.

Lemma b64_unpadded_alphabet (bytes : text) :
  base64_alphabet (b64_unpadded bytes) = true /\ ch "=" ∉ b64_unpadded bytes.
Proof.
  pose proof (b64_digits_range bytes) as H. rewrite Forall_forall in H. unfold b64_unpadded. split.
  - apply forallb_forall. intros c (d & -> & Hd)%list_elem_of_In%list_elem_of_fmap. by apply b64_char_digit, H.
  - intros (d & Hc & Hd)%list_elem_of_fmap. destruct (b64_char_digit d (H d Hd)) as (_ & _ & Hne). by destruct Hne.
Qed.

Lemma b64_unpadded_shape (bytes : text) :
  canonical_tail (b64_unpadded bytes) = true /\ (length (b64_unpadded bytes) mod 4)%nat = tail_digits bytes.
Proof.
  unfold b64_unpadded. induction bytes as [|a|a b|a b c bytes IH] using list_ind3; cbn [b64_digits fmap list_fmap].
  - done.
  - split; [|done]. unfold canonical_tail. cbn. change 15 with (2 ^ 4 - 1). rewrite land_low by done.
    pose proof (code_range a). destruct (b64_char_digit (code a mod 4 * 16)) as (_ & -> & _); [div_lia|].
    apply Z.eqb_eq. div_lia.
  - split; [|done]. unfold canonical_tail. cbn. change 3 with (2 ^ 2 - 1). rewrite land_low by done.
    pose proof (code_range b). destruct (b64_char_digit (code b mod 16 * 4)) as (_ & -> & _); [div_lia|].
    apply Z.eqb_eq. div_lia.
  - destruct IH as [IH1 IH2]. rewrite canonical_tail_step. split; [done|]. cbn [length].
    set (n := length (b64_char <$> b64_digits bytes)) in *.
    change (S (S (S (S n)))) with (4 + n)%nat. rewrite mod_step, IH2 by done. unfold tail_digits. cbn [length].
    change (S (S (S (length bytes)))) with (3 + length bytes)%nat. by rewrite mod_step.
Qed.

Lemma tail_padding (bytes : text) :
  (tail_digits bytes = 0%nat /\ b64_padding bytes = []) \/
  (tail_digits bytes = 2%nat /\ b64_padding bytes = txt "==") \/
  (tail_digits bytes = 3%nat /\ b64_padding bytes = txt "=").
Proof.
  unfold tail_digits, b64_padding. pose proof (Nat.mod_upper_bound (length bytes) 3 ltac:(done)).
  destruct (length bytes mod 3)%nat as [|[|[|]]]; auto; lia.
Qed.

Lemma strip_equals_none (p s : text) : ch "=" ∈ p -> ch "=" ∉ s -> strip_suffix p s = None.
Proof.
  intros Hp Hs. destruct (strip_suffix p s) eqn:E; [|done].
  apply strip_suffix_Some in E as ->. destruct Hs. set_solver.
Qed.

(** The check of a part accepts exactly the base64 encodings of byte strings,
    padded or not. *)
Lemma is_base64_part_spec (part : text) :
  is_base64_part part = true <->
  exists bytes, part = b64_unpadded bytes \/ part = b64_unpadded bytes ++ b64_padding bytes.
Proof.
  unfold is_base64_part. split.
  - assert (Hpad : forall pad data, part = data ++ pad -> (length pad = 1%nat /\ pad = txt "=" \/ length pad = 2%nat /\ pad = txt "==") ->
      (length part mod 4 =? 0)%nat && base64_alphabet data && canonical_tail data = true ->
      exists bytes, part = b64_unpadded bytes \/ part = b64_unpadded bytes ++ b64_padding bytes).
    { intros pad data -> Hp H. bool_simpl. rewrite length_app in *.
      match goal with H : (_ =? 0)%nat = true |- _ => apply Nat.eqb_eq in H; rename H into Hm end.
      pose proof (Nat.mod_upper_bound (length data) 4 ltac:(done)).
      assert (Hd : (length data mod 4 = 4 - length pad)%nat).
      { rewrite Nat.Div0.add_mod in Hm. destruct Hp as [[Hp _]|[Hp _]]; rewrite Hp in *;
          destruct (length data mod 4)%nat as [|[|[|[|]]]]; cbn in *; try done; lia. }
      destruct (base64_decodes data) as (bytes & -> & Ht); [done..|destruct Hp as [[Hp _]|[Hp _]]; rewrite Hp in Hd; lia|].
      exists bytes. right. f_equal. rewrite Hd in Ht.
      destruct (tail_padding bytes) as [[E1 E2]|[[E1 E2]|[E1 E2]]], Hp as [[Hp1 Hp2]|[Hp1 Hp2]];
        rewrite ?Hp1, E1 in Ht; try discriminate Ht; congruence. }
    destruct (strip_suffix (txt "==") part) as [data|] eqn:E2.
    { apply strip_suffix_Some in E2. intros H. eapply Hpad; [exact E2| |exact H]. by right. }
    destruct (strip_suffix (txt "=") part) as [data|] eqn:E1.
    { apply strip_suffix_Some in E1. intros H. eapply Hpad; [exact E1| |exact H]. by left. }
    intros H. bool_simpl. match goal with H : (_ =? 1)%nat = false |- _ => apply Nat.eqb_neq in H end.
    destruct (base64_decodes part) as (bytes & -> & _); [done..|]. exists bytes. by left.
  - intros (bytes & H). pose proof (b64_unpadded_alphabet bytes) as [Ha He].
    pose proof (b64_unpadded_shape bytes) as [Ht Hl].
    assert (Hplain : part = b64_unpadded bytes -> is_base64_part part = true).
    { intros ->. unfold is_base64_part. rewrite !strip_equals_none by (done || set_solver). rewrite Ha, Ht, Hl.
      destruct (tail_padding bytes) as [[-> _]|[[-> _]|[-> _]]]; done. }
    destruct H as [H|H]; [by apply Hplain|].
    destruct (tail_padding bytes) as [[E1 E2]|[[E1 E2]|[E1 E2]]]; rewrite E2 in H.
    + apply Hplain. by rewrite app_nil_r in H.
    + rewrite (proj2 (strip_suffix_Some (txt "==") part _) H), Ha, Ht, H, length_app. cbn [length].
      rewrite Nat.Div0.add_mod, Hl, E1. done.
    + assert (strip_suffix (txt "==") part = None) as ->.
      { destruct (strip_suffix (txt "==") part) as [r|] eqn:Es; [|done]. apply strip_suffix_Some in Es.
        rewrite Es in H. change (txt "==") with (txt "=" ++ txt "=") in H. rewrite app_assoc in H.
        apply app_inv_tail in H. destruct He. rewrite <- H. set_solver. }
      rewrite (proj2 (strip_suffix_Some (txt "=") part _) H), Ha, Ht, H, length_app. cbn [length].
      rewrite Nat.Div0.add_mod, Hl, E1. done.
Qed.

(** A [-bin] value is accepted exactly when each of its comma-separated parts is the RFC 4648 base64 of
    some bytes, padded or not; a value accepted travels as such parts. *)
Theorem base64_value_decodes (value : text) :
  is_base64_value value = true <->
  Forall (fun part => exists bytes, part = b64_unpadded bytes \/ part = b64_unpadded bytes ++ b64_padding bytes)
    (trim_ascii <$> split (ch ",") value).
Proof.
  unfold is_base64_value. rewrite Forall_fmap, forallb_forall, Forall_forall. split.
  - intros H p Hp. apply is_base64_part_spec, H. by apply list_elem_of_In.
  - intros H p Hp. apply is_base64_part_spec, H. by apply list_elem_of_In.
Qed.

(** ** Deadlines *)

(** Nanoseconds of a unit of [grpc-timeout]. *)
Definition unit_nanos (c : ascii) : option Z :=
  if decide (c = ch "H") then Some 3600000000000
  else if decide (c = ch "M") then Some 60000000000
  else if decide (c = ch "S") then Some 1000000000
  else if decide (c = ch "m") then Some 1000000
  else if decide (c = ch "u") then Some 1000
  else if decide (c = ch "n") then Some 1
  else None.

Lemma unit_duration_ok (n : Z) (c : ascii) :
  0 <= n <= 99999999 -> unit_duration n [c] = Some (Z.mul n <$> unit_nanos c).
Proof.
  intros Hn. unfold unit_duration, unit_nanos, u64_mul, U64_MAX, from_secs, from_millis, from_micros, NANOS_PER_SEC.
  change (txt "H") with [ch "H"]. change (txt "M") with [ch "M"]. change (txt "S") with [ch "S"].
  change (txt "m") with [ch "m"]. change (txt "u") with [ch "u"]. change (txt "n") with [ch "n"].
  repeat match goal with
  | |- context [if decide ([c] = [?d]) then _ else _] =>
      destruct (decide (c = d)) as [->|]; [rewrite (decide_True (P := [_] = _)) by done|rewrite (decide_False (P := [_] = _)) by congruence]
  end; cbn [fmap option_fmap option_map mbind option_bind]; try done;
    try (destruct (Z.leb_spec (n * 3600) 18446744073709551615); [|lia]);
    try (destruct (Z.leb_spec (n * 60) 18446744073709551615); [|lia]);
    cbn [mbind option_bind]; do 2 f_equal; lia.
Qed.

Lemma parse_digits_bound (max acc : Z) (s : text) (n : Z) :
  0 <= acc -> parse_digits max acc s = Some n -> acc * 10 ^ Z.of_nat (length s) <= n < (acc + 1) * 10 ^ Z.of_nat (length s).
Proof.
  revert acc. induction s as [|c s IH]; intros acc Ha; cbn [parse_digits length].
  { intros [= <-]. cbn. lia. }
  destruct (digit_value c) as [d|] eqn:Ed; cbn [mbind option_bind]; [|done]. apply digit_value_range in Ed.
  destruct (max <? acc * 10 + d); [done|]. intros H%IH; [|lia].
  rewrite Nat2Z.inj_succ, Z.pow_succ_r by lia. pose proof (Z.pow_pos_nonneg 10 (Z.of_nat (length s))). nia.
Qed.

Lemma parse_u64_short (s : text) (n : Z) :
  (length s <= 8)%nat -> parse_u64 s = Some n -> 0 <= n <= 99999999.
Proof.
  intros Hs. assert (Hb : forall s', (length s' <= 8)%nat -> parse_digits U64_MAX 0 s' = Some n -> 0 <= n <= 99999999).
  { intros s' Hs' H%parse_digits_bound; [|done].
    assert (10 ^ Z.of_nat (length s') <= 10 ^ 8) by (apply Z.pow_le_mono_r; lia). lia. }
  unfold parse_u64, parse_uint. destruct s as [|c s]; [done|]. destruct (decide _); [|by apply Hb].
  destruct s; [done|]. apply Hb. cbn in *. lia.
Qed.

(** A header read as a string holds no byte of a longer character. *)
Lemma trim_boundaries (s : text) : forallb (fun c => negb (continuation c)) s = true ->
  forallb (fun c => negb (continuation c)) (trim s) = true.
Proof. rewrite !forallb_forall. intros H c Hc. apply H. apply list_elem_of_In, elem_of_trim. by apply list_elem_of_In. Qed.

(** A timeout as gRPC writes it: at most eight digits (Rust's parser also takes
    a sign), and a unit. *)
Definition timeout_of (v : text) (d : Z) : Prop :=
  exists ds c n f, trim v = ds ++ [c] /\ (1 <= length ds <= 8)%nat /\ parse_u64 ds = Some n /\
    unit_nanos c = Some f /\ d = n * f /\ 0 < d.

Lemma split_at_snoc (ds : text) (c : ascii) :
  continuation c = false -> split_at (ds ++ [c]) (length ds) = Some (ds, [c]).
Proof.
  intros Hc. unfold split_at. rewrite list_lookup_middle by done. rewrite Hc.
  by rewrite take_app_length, drop_app_length.
Qed.

Lemma unit_nanos_range (c : ascii) (f : Z) : unit_nanos c = Some f -> 0 < f <= 3600000000000.
Proof. unfold unit_nanos. repeat (destruct (decide _); [intros [= <-]; lia|]). done. Qed.

Lemma timeout_parsed (v : text) :
  forallb (fun c => negb (continuation c)) v = true ->
  exists r, parse_grpc_timeout v = Some r /\ (forall d, r = Some d <-> timeout_of v d) /\
    (forall d, r = Some d -> 0 < d <= 359999996400000000000).
Proof.
  intros Hv%trim_boundaries. unfold parse_grpc_timeout, timeout_of.
  destruct (trim v) as [|c0 s0] using rev_ind.
  { exists None. split; [done|]. split; [|done]. intros d. split; [done|].
    intros (ds & c & n & f & H & _). by destruct ds. }
  clear IHs0. rewrite forallb_app in Hv. cbn [forallb] in Hv. bool_simpl.
  rewrite length_app. cbn [length]. replace (length s0 + 1)%nat with (S (length s0)) by lia.
  rewrite split_at_snoc by done. cbn [mbind option_bind].
  assert (Hinv : forall d, (exists ds c n f, s0 ++ [c0] = ds ++ [c] /\ (1 <= length ds <= 8)%nat /\
      parse_u64 ds = Some n /\ unit_nanos c = Some f /\ d = n * f /\ 0 < d) <->
    (exists n f, (1 <= length s0 <= 8)%nat /\ parse_u64 s0 = Some n /\ unit_nanos c0 = Some f /\ d = n * f /\ 0 < d)).
  { intros d. split.
    - intros (ds & c & n & f & [-> [= ->]]%app_inj_2 & H'); [by exists n, f|done].
    - intros (n & f & H'). by exists s0, c0, n, f. }
  setoid_rewrite Hinv. clear Hinv.
  destruct ((length s0 =? 0)%nat || (8 <? length s0)%nat) eqn:El.
  { exists None. split; [done|]. split; [|done]. intros d. split; [done|].
    intros (n & f & Hl & _). apply orb_true_iff in El as [El|El]; [apply Nat.eqb_eq in El|apply Nat.ltb_lt in El]; lia. }
  apply orb_false_iff in El as [El1 El2]. apply Nat.eqb_neq in El1. apply Nat.ltb_ge in El2.
  destruct (parse_u64 s0) as [n|] eqn:En.
  2:{ exists None. split; [done|]. split; [|done]. intros d. split; [done|]. by intros (n & f & _ & ? & _). }
  pose proof (parse_u64_short s0 n El2 En) as Hn. rewrite unit_duration_ok by done.
  destruct (unit_nanos c0) as [f|] eqn:Ef; cbn [fmap option_fmap option_map mbind option_bind].
  2:{ exists None. split; [done|]. split; [|done]. intros d. split; [done|]. by intros (m & f & _ & _ & ? & _). }
  apply unit_nanos_range in Ef as Hf. destruct (Z.eqb_spec (n * f) 0) as [E0|E0].
  - exists None. split; [done|]. split; [|done]. intros d. split; [done|].
    intros (n' & f' & _ & [= <-] & [= <-] & -> & ?). lia.
  - exists (Some (n * f)). split; [done|]. split.
    + intros d. split; [intros [= <-]; exists n, f; repeat split; done || lia|].
      by intros (n' & f' & _ & [= <-] & [= <-] & -> & _).
    + intros d [= <-]. nia.
Qed.

Section Deadline.
Context {L : HttpLib} {LL : HttpLaws L}.

Lemma request_deadline_ok {Req} (set_timeout : Req -> Z -> Req) (request : Req) (headers : HeaderMap) :
  exists request' applied, apply_request_deadline set_timeout request headers = Some (request', applied) /\
  (forall d, applied = Some d <-> exists v, hm_get_str headers (txt "grpc-timeout") = Some v /\ timeout_of v d) /\
  (forall d, applied = Some d -> request' = set_timeout request d /\ 0 < d <= from_secs (99999999 * 3600)) /\
  (applied = None -> request' = request).
Proof.
  unfold apply_request_deadline. destruct (hm_get_str headers (txt "grpc-timeout")) as [v|] eqn:Eh.
  2:{ exists request, None. split; [done|]. split; [|done]. intros d. split; [done|]. by intros (v & ? & _). }
  destruct (timeout_parsed v) as (r & -> & Hr & Hb).
  { unfold hm_get_str in Eh. destruct (hm_get headers _); [|done]. apply value_str_ascii in Eh.
    apply forallb_forall. intros c Hc%list_elem_of_In. rewrite Forall_forall in Eh.
    unfold continuation, byte_in in *. destruct (Eh c Hc) as [H|H]; bool_simpl; apply negb_true_iff, andb_false_iff; lia. }
  cbn [mbind option_bind]. destruct r as [d0|].
  - exists (set_timeout request d0), (Some d0). split; [done|]. split; [|split; [|done]].
    + intros d. rewrite Hr. split; [by exists v|by intros (v' & [= <-] & ?)].
    + intros d [= <-]. split; [done|]. by apply Hb.
  - exists request, None. split; [done|]. split; [|done]. intros d. rewrite Hr.
    split; [by exists v|by intros (v' & [= <-] & ?)].
Qed.

(** A request's deadline is the timeout its [grpc-timeout] header spells, at most 99999999 hours and never
    zero; any other header leaves the request as it was, and no header panics. *)
Theorem deadline_applied {Req} (set_timeout : Req -> Z -> Req) (request : Req) (headers : HeaderMap) :
  exists request' applied, apply_request_deadline set_timeout request headers = Some (request', applied) /\
  (forall d, applied = Some d <-> exists v, hm_get_str headers (txt "grpc-timeout") = Some v /\ timeout_of v d) /\
  (forall d, applied = Some d -> request' = set_timeout request d /\ 0 < d <= from_secs (99999999 * 3600)) /\
  (applied = None -> request' = request).
Proof. apply request_deadline_ok. Qed.
End Deadline.

(** * Examples *)

Module Demo.
Import Http.Model.

#[export] Instance tonic : TonicLib := {
  ascii_key k := if ends_with (txt "-bin") k then None else name_of k;
  ascii_value v := if forallb (fun c => byte_in 32 126 c || byte_in 128 255 c) v then Some v else None;
}.

#[export] Instance tonic_laws : TonicLaws tonic.
Proof.
  split; cbn.
  - intros v H. replace (forallb _ v) with true; [done|]. symmetry. rewrite forallb_forall in *.
    intros c Hc. specialize (H c Hc). unfold visible in H. by rewrite H.
  - intros k Hg Hl Hb. rewrite Hb. unfold is_grpc_key in Hg. destruct k as [|c k]; [done|]. cbn [andb] in Hg.
    unfold name_of. replace (forallb token_byte (c :: k)) with true; [by rewrite Hl|].
    symmetry. rewrite forallb_forall in *. intros d Hd. specialize (Hg d Hd).
    byte_cases d; vm_compute in Hg; try discriminate Hg; by vm_compute.
Qed.

(** A request with a doubled header, a joined binary one, an address it made
    up and a trace. *)
Definition request : HeaderMap :=
  hm_insert (hm_insert (hm_insert (hm_append (hm_insert hm_empty (txt "dpop") (txt "a")) (txt "dpop") (txt "b"))
    (txt "key-bin") (txt "AQ==, Ag")) (txt "x-real-ip") (txt "10.0.0.1"))
    (txt "traceparent") (txt "00-0af7651916cd43dd8448eb211c80319c-b7ad6b7169203331-01").

Definition listed : list text := [txt "DPoP"; txt "key-bin"; txt "x-real-ip"; txt "dpop"; txt "traceparent"].

Lemma metadata_forwarded_witness :
  exists m st, forwarded_metadata None None request (Listed listed) false = Ok (Some (m, st)) /\
    hm_get_all m (txt "dpop") = [txt "a"; txt "b"] /\ hm_get_all m (txt "key-bin") = [txt "AQ=="; txt "Ag"] /\
    hm_get_all m (txt "x-real-ip") = [].
Proof.
  pose proof (metadata_forwarded None None request (Listed listed) false) as H.
  destruct (forwarded_metadata None None request (Listed listed) false) as [[[m st]|]|e] eqn:E.
  - exists m, st. split; [done|]. destruct H as (_ & Hg & _).
    rewrite !Hg by done. by vm_compute.
  - by destruct H.
  - vm_compute in E. discriminate E.
Defined.

(** A valid parent of a later version may hold a tab, which metadata cannot
    carry: the states travel without a parent. *)
Definition tabbed : HeaderMap :=
  hm_insert (hm_insert hm_empty (txt "traceparent")
    (txt "01-0af7651916cd43dd8448eb211c80319c-b7ad6b7169203331-01-x" ++ [of_code 9] ++ txt "y"))
    (txt "tracestate") (txt "a=1").

Example tabbed_parent_lost :
  match forwarded_metadata (Some 7) None tabbed (Listed []) false with
  | Ok (Some (m, _)) => (hm_get_all m TRACEPARENT, hm_get_all m TRACESTATE) = ([], [txt "a=1"])
  | _ => False
  end.
Proof. vm_compute. reflexivity. Qed.

(** Rust's integer parser takes a sign gRPC does not have. *)
Example signed_timeout : parse_grpc_timeout (txt "+1S") = Some (Some 1000000000).
Proof. vm_compute. reflexivity. Qed.

Definition timed : HeaderMap := hm_insert hm_empty (txt "grpc-timeout") (txt "250m").

Lemma deadline_applied_witness :
  exists r, apply_request_deadline (fun (_ : Z) d => d) 0 timed = Some (r, Some 250000000) /\ r = 250000000.
Proof.
  destruct (deadline_applied (fun (_ : Z) d => d) 0 timed) as (r & a & E & _ & Hs & _).
  assert (a = Some 250000000) as -> by (vm_compute in E; congruence).
  exists r. split; [exact E|]. by destruct (Hs 250000000 eq_refl).
Defined.
End Demo.
