(* ===== verification/Protobuf.v ===== *)
(** * The [prost-reflect] crate, as an interface

    Descriptors and dynamic messages are a third-party crate's. The transcoder is
    written against this interface and its laws, which state the crate's
    documentation; [Model] is an implementation the witnesses run on. *)

From Stdlib Require Import Floats.SpecFloat.
From S2P Require Import Prelude Rust.

(** [prost_reflect::Kind]. *)
Inductive Kind_ (M E : Type) : Type :=
| KDouble | KFloat | KInt32 | KInt64 | KUint32 | KUint64 | KSint32 | KSint64
| KFixed32 | KFixed64 | KSfixed32 | KSfixed64 | KBool | KString | KBytes
| KMessage (m : M)
| KEnum (e : E).
Arguments KDouble {M E}. Arguments KFloat {M E}. Arguments KInt32 {M E}. Arguments KInt64 {M E}.
Arguments KUint32 {M E}. Arguments KUint64 {M E}. Arguments KSint32 {M E}. Arguments KSint64 {M E}.
Arguments KFixed32 {M E}. Arguments KFixed64 {M E}. Arguments KSfixed32 {M E}. Arguments KSfixed64 {M E}.
Arguments KBool {M E}. Arguments KString {M E}. Arguments KBytes {M E}.
Arguments KMessage {M E} m. Arguments KEnum {M E} e.

(** [prost_reflect::MapKey]. *)
Inductive MapKey : Type :=
| MBool (b : bool) | MInt (n : Z) | MString (s : text).

(** [prost_reflect::Value]. *)
Inductive PValue_ (M : Type) : Type :=
| PBool (b : bool)
| PI32 (n : Z) | PI64 (n : Z) | PU32 (n : Z) | PU64 (n : Z)
| PF32 (f : spec_float) | PF64 (f : spec_float)
| PString (s : text) | PBytes (b : text)
| PEnumNumber (n : Z)
| PMessage (m : M)
| PList (l : list (PValue_ M))
| PMap (entries : list (MapKey * PValue_ M)).
Arguments PBool {M} b. Arguments PI32 {M} n. Arguments PI64 {M} n. Arguments PU32 {M} n. Arguments PU64 {M} n.
Arguments PF32 {M} f. Arguments PF64 {M} f. Arguments PString {M} s. Arguments PBytes {M} b.
Arguments PEnumNumber {M} n. Arguments PMessage {M} m. Arguments PList {M} l. Arguments PMap {M} entries.

Class ProstLib : Type := {
  MessageDescriptor : Type;
  FieldDescriptor : Type;
  EnumDescriptor : Type;
  DynamicMessage : Type;
  md_full_name : MessageDescriptor -> text;
  md_fields : MessageDescriptor -> list FieldDescriptor;
  (** The kinds of the extensions declared of a message. *)
  md_extensions : MessageDescriptor -> list (Kind_ MessageDescriptor EnumDescriptor);
  (** [get_field_by_name], [get_field_by_json_name]. *)
  md_field_by_name : MessageDescriptor -> text -> option FieldDescriptor;
  md_field_by_json_name : MessageDescriptor -> text -> option FieldDescriptor;
  fd_name : FieldDescriptor -> text;
  fd_full_name : FieldDescriptor -> text;
  fd_json_name : FieldDescriptor -> text;
  fd_number : FieldDescriptor -> Z;
  fd_kind : FieldDescriptor -> Kind_ MessageDescriptor EnumDescriptor;
  fd_is_list : FieldDescriptor -> bool;
  fd_is_map : FieldDescriptor -> bool;
  (** [cardinality() == Cardinality::Required]. *)
  fd_required : FieldDescriptor -> bool;
  (** [containing_oneof]: its name and its fields. *)
  fd_oneof : FieldDescriptor -> option (text * list FieldDescriptor);
  (** [get_value_by_name], by its number. *)
  ed_value_by_name : EnumDescriptor -> text -> option Z;
  dm_new : MessageDescriptor -> DynamicMessage;
  dm_descriptor : DynamicMessage -> MessageDescriptor;
  dm_has : DynamicMessage -> FieldDescriptor -> bool;
  dm_get : DynamicMessage -> FieldDescriptor -> PValue_ DynamicMessage;
  dm_set : DynamicMessage -> FieldDescriptor -> PValue_ DynamicMessage -> DynamicMessage;
  (** [take_field]: the value, when set, and the message without it. *)
  dm_take : DynamicMessage -> FieldDescriptor -> option (PValue_ DynamicMessage) * DynamicMessage;
  (** [fields], [extensions]: what is set. *)
  dm_fields : DynamicMessage -> list (FieldDescriptor * PValue_ DynamicMessage);
  dm_extensions : DynamicMessage -> list (PValue_ DynamicMessage);
  (** How deep messages nest in one. *)
  dm_depth : DynamicMessage -> nat;
}.

Abbreviation Kind := (Kind_ MessageDescriptor EnumDescriptor).
Abbreviation PValue := (PValue_ DynamicMessage).

Section Derived.
Context {P : ProstLib}.

(** The message a kind is of. *)
Definition kind_message (k : Kind) : option MessageDescriptor :=
  match k with KMessage m => Some m | _ => None end.

(** The messages a value holds: itself, the items of a list, the values of a map. *)
Definition message_of (v : PValue) : option DynamicMessage :=
  match v with PMessage m => Some m | _ => None end.

Definition messages_of (v : PValue) : list DynamicMessage :=
  match v with
  | PMessage m => [m]
  | PList items => omap message_of items
  | PMap entries => omap (fun e => message_of e.2) entries
  | _ => []
  end.

(** [get_field_by_name] of a message: its value, the default when unset. *)
Definition dm_get_by_name (m : DynamicMessage) (name : text) : option PValue :=
  dm_get m <$> md_field_by_name (dm_descriptor m) name.

(** The field is one of the message's type. *)
Definition field_of (f : FieldDescriptor) (d : MessageDescriptor) : Prop :=
  md_field_by_name d (fd_name f) = Some f.

(** A value a field of a kind can hold; [Value::is_valid_for_field] of fields that
    are not maps, which the transcoder never sets. *)
Definition kind_valid (k : Kind) (v : PValue) : Prop :=
  match k, v with
  | KDouble, PF64 _ | KFloat, PF32 _ | KBool, PBool _ | KString, PString _ | KBytes, PBytes _
  | (KInt32 | KSint32 | KSfixed32), PI32 _ | (KInt64 | KSint64 | KSfixed64), PI64 _
  | (KUint32 | KFixed32), PU32 _ | (KUint64 | KFixed64), PU64 _ | KEnum _, PEnumNumber _ => True
  | KMessage d, PMessage m => dm_descriptor m = d
  | _, _ => False
  end.

Definition field_valid (f : FieldDescriptor) (v : PValue) : Prop :=
  fd_is_map f = false /\
  if fd_is_list f then exists items, v = PList items /\ Forall (kind_valid (fd_kind f)) items
  else kind_valid (fd_kind f) v.

(** The values of a kind that mean unset in a field without presence. *)
Definition kind_zero (k : Kind) (v : PValue) : Prop :=
  match k, v with
  | KString, PString s => s = []
  | KBytes, PBytes b => b = []
  | (KString | KBytes | KMessage _), _ => False
  | _, _ => True
  end.

(** [take_field_by_name], [set_field_by_name]. *)
Definition dm_take_by_name (m : DynamicMessage) (name : text) : option PValue * DynamicMessage :=
  match md_field_by_name (dm_descriptor m) name with Some f => dm_take m f | None => (None, m) end.
Definition dm_set_by_name (m : DynamicMessage) (name : text) (v : PValue) : DynamicMessage :=
  match md_field_by_name (dm_descriptor m) name with Some f => dm_set m f v | None => m end.

(** Two members of one oneof. *)
Definition rivals (f g : FieldDescriptor) : Prop :=
  exists name fields, fd_oneof f = Some (name, fields) /\ g ∈ fields /\ fd_number g <> fd_number f.
End Derived.

Class ProstLaws (P : ProstLib) : Prop := {
  field_by_name_named d n f : md_field_by_name d n = Some f -> fd_name f = n;
  field_by_name_listed d n f : md_field_by_name d n = Some f -> f ∈ md_fields d;
  field_by_json_name_field d n f : md_field_by_json_name d n = Some f -> field_of f d;
  field_name_plain d f : f ∈ md_fields d -> ch "." ∉ fd_name f;
  field_number_inj d f g : f ∈ md_fields d -> g ∈ md_fields d -> fd_number f = fd_number g -> f = g;
  new_descriptor d : dm_descriptor (dm_new d) = d;
  new_has d f : dm_has (dm_new d) f = false;
  set_descriptor m f v : dm_descriptor (dm_set m f v) = dm_descriptor m;
  get_set m f v : f ∈ md_fields (dm_descriptor m) -> field_valid f v -> dm_get (dm_set m f v) f = v;
  (** Setting a field clears the other members of its oneof and nothing else. *)
  get_set_other m f v g :
    f ∈ md_fields (dm_descriptor m) -> g ∈ md_fields (dm_descriptor m) -> field_valid f v ->
    g <> f -> ~ rivals f g \/ dm_has m g = false ->
    dm_get (dm_set m f v) g = dm_get m g;
  (** A field set to a value is set, or has no presence and the value is its zero. *)
  has_set m f v :
    f ∈ md_fields (dm_descriptor m) -> fd_is_list f = false -> field_valid f v ->
    dm_has (dm_set m f v) f = true \/ kind_zero (fd_kind f) v;
  has_set_other m f v g :
    f ∈ md_fields (dm_descriptor m) -> g ∈ md_fields (dm_descriptor m) -> field_valid f v ->
    g <> f -> ~ rivals f g -> dm_has (dm_set m f v) g = dm_has m g;
  take_value m f :
    f ∈ md_fields (dm_descriptor m) -> (dm_take m f).1 = if dm_has m f then Some (dm_get m f) else None;
  take_descriptor m f : dm_descriptor (dm_take m f).2 = dm_descriptor m;
  take_other m f g :
    f ∈ md_fields (dm_descriptor m) -> g ∈ md_fields (dm_descriptor m) -> g <> f ->
    dm_has (dm_take m f).2 g = dm_has m g /\ dm_get (dm_take m f).2 g = dm_get m g;
  (** A map is of the messages of its entries. *)
  map_message f : fd_is_map f = true -> exists d, fd_kind f = KMessage d;
  set_get m f :
    f ∈ md_fields (dm_descriptor m) -> dm_has m f = true -> (forall g, rivals f g -> dm_has m g = false) ->
    dm_set m f (dm_get m f) = m;
  (** An unset singular message field reads as a new message. *)
  get_unset_message m f d :
    f ∈ md_fields (dm_descriptor m) -> fd_kind f = KMessage d -> fd_is_list f = false -> fd_is_map f = false ->
    dm_has m f = false -> dm_get m f = PMessage (dm_new d);
  (** A singular message field holds a message of its kind. *)
  get_message m f d :
    f ∈ md_fields (dm_descriptor m) -> fd_kind f = KMessage d -> fd_is_list f = false -> fd_is_map f = false ->
    exists m', dm_get m f = PMessage m' /\ dm_descriptor m' = d;
  (** What is set is of a field's kind; a map's values are of its entry type's. *)
  fields_listed m f v : (f, v) ∈ dm_fields m -> f ∈ md_fields (dm_descriptor m);
  fields_typed m f v m' :
    (f, v) ∈ dm_fields m -> m' ∈ messages_of v ->
    exists d, fd_kind f = KMessage d /\
      (d = dm_descriptor m' \/ exists g, g ∈ md_fields d /\ fd_kind g = KMessage (dm_descriptor m'));
  extensions_typed m v m' :
    v ∈ dm_extensions m -> m' ∈ messages_of v ->
    exists d, KMessage d ∈ md_extensions (dm_descriptor m) /\
      (d = dm_descriptor m' \/ exists g, g ∈ md_fields d /\ fd_kind g = KMessage (dm_descriptor m'));
  fields_depth m f v m' : (f, v) ∈ dm_fields m -> m' ∈ messages_of v -> (dm_depth m' < dm_depth m)%nat;
  extensions_depth m v m' : v ∈ dm_extensions m -> m' ∈ messages_of v -> (dm_depth m' < dm_depth m)%nat;
}.

(** * A schema

    Two message types, one that holds itself, and an upload that holds a
    [google.api.HttpBody], with what the crate does with them. *)

Module Model.

(** [message Page { required int32 page_size = 1; }],
    [message Find { string query = 1; Page page = 2; Find next = 3; }] and
    [message Upload { string name = 1; google.api.HttpBody file = 2; }]. *)
Inductive Type_ := TPage | TFind | TUpload | TBody.
Inductive Field := FSize | FQuery | FPage | FNext | FName | FFile | FContentType | FData.

(** An upload's name and the fields of a body have no presence. *)
Inductive Find := mkFind (query : option text) (page : option (option Z)) (next : option Find).
Inductive Message :=
| MPage (size : option Z)
| MFind (s : Find)
| MUpload (name : text) (file : option (text * text))
| MBody (content_type data : text).

Definition fields (d : Type_) : list Field :=
  match d with
  | TPage => [FSize] | TFind => [FQuery; FPage; FNext] | TUpload => [FName; FFile] | TBody => [FContentType; FData]
  end.
Definition owner (f : Field) : Type_ :=
  match f with
  | FSize => TPage | FQuery | FPage | FNext => TFind | FName | FFile => TUpload | FContentType | FData => TBody
  end.

Definition name (f : Field) : text :=
  txt (match f with
       | FSize => "page_size" | FQuery => "query" | FPage => "page" | FNext => "next"
       | FName => "name" | FFile => "file" | FContentType => "content_type" | FData => "data"
       end).
Definition json_name (f : Field) : text :=
  match f with FSize => txt "pageSize" | FContentType => txt "contentType" | _ => name f end.

Definition full_name (d : Type_) : text :=
  txt (match d with
       | TPage => "demo.Page" | TFind => "demo.Find" | TUpload => "demo.Upload" | TBody => "google.api.HttpBody"
       end).

Definition descriptor (m : Message) : Type_ :=
  match m with MPage _ => TPage | MFind _ => TFind | MUpload _ _ => TUpload | MBody _ _ => TBody end.
Definition new_message (d : Type_) : Message :=
  match d with
  | TPage => MPage None | TFind => MFind (mkFind None None None) | TUpload => MUpload [] None | TBody => MBody [] []
  end.

Definition kind (f : Field) : Kind_ Type_ Empty_set :=
  match f with
  | FSize => KInt32 | FQuery | FName | FContentType => KString | FData => KBytes
  | FPage => KMessage TPage | FNext => KMessage TFind | FFile => KMessage TBody
  end.

Definition nonempty (s : text) : bool := match s with [] => false | _ => true end.

Definition has (m : Message) (f : Field) : bool :=
  match m, f with
  | MPage size, FSize => bool_decide (is_Some size)
  | MFind (mkFind query _ _), FQuery => bool_decide (is_Some query)
  | MFind (mkFind _ page _), FPage => bool_decide (is_Some page)
  | MFind (mkFind _ _ (Some _)), FNext => true
  | MUpload n _, FName => nonempty n
  | MUpload _ file, FFile => bool_decide (is_Some file)
  | MBody ct _, FContentType => nonempty ct
  | MBody _ data, FData => nonempty data
  | _, _ => false
  end.

Definition get (m : Message) (f : Field) : PValue_ Message :=
  match m, f with
  | MPage size, FSize => PI32 (default 0 size)
  | MFind (mkFind query _ _), FQuery => PString (default [] query)
  | MFind (mkFind _ page _), FPage => PMessage (MPage (default None page))
  | MFind (mkFind _ _ next), FNext => PMessage (MFind (default (mkFind None None None) next))
  | MUpload n _, FName => PString n
  | MUpload _ file, FFile => let b := default ([], []) file in PMessage (MBody b.1 b.2)
  | MBody ct _, FContentType => PString ct
  | MBody _ data, FData => PBytes data
  | _, _ => PBool false
  end.

Definition set (m : Message) (f : Field) (v : PValue_ Message) : Message :=
  match m, f, v with
  | MPage _, FSize, PI32 n => MPage (Some n)
  | MFind (mkFind _ page next), FQuery, PString s => MFind (mkFind (Some s) page next)
  | MFind (mkFind query _ next), FPage, PMessage (MPage size) => MFind (mkFind query (Some size) next)
  | MFind (mkFind query page _), FNext, PMessage (MFind s) => MFind (mkFind query page (Some s))
  | MUpload _ file, FName, PString n => MUpload n file
  | MUpload n _, FFile, PMessage (MBody ct data) => MUpload n (Some (ct, data))
  | MBody _ data, FContentType, PString ct => MBody ct data
  | MBody ct _, FData, PBytes data => MBody ct data
  | _, _, _ => m
  end.

Definition clear (m : Message) (f : Field) : Message :=
  match m, f with
  | MPage _, FSize => MPage None
  | MFind (mkFind _ page next), FQuery => MFind (mkFind None page next)
  | MFind (mkFind query _ next), FPage => MFind (mkFind query None next)
  | MFind (mkFind query page _), FNext => MFind (mkFind query page None)
  | MUpload _ file, FName => MUpload [] file
  | MUpload n _, FFile => MUpload n None
  | MBody _ data, FContentType => MBody [] data
  | MBody ct _, FData => MBody ct []
  | _, _ => m
  end.

Definition by_name (names : Field -> text) (d : Type_) (n : text) : option Field :=
  find_first (fun f => bool_decide (names f = n)) (fields d).

Fixpoint find_depth (s : Find) : nat :=
  match s with
  | mkFind _ page (Some next) => S (find_depth next)
  | mkFind _ page None => 1%nat
  end.

#[local] Instance lib : ProstLib := {|
  MessageDescriptor := Type_;
  FieldDescriptor := Field;
  EnumDescriptor := Empty_set;
  DynamicMessage := Message;
  md_full_name := full_name;
  md_fields := fields;
  md_extensions _ := [];
  md_field_by_name := by_name name;
  md_field_by_json_name := by_name json_name;
  fd_name := name;
  fd_full_name f := txt "demo." ++ name f;
  fd_json_name := json_name;
  fd_number f := match f with FPage | FFile | FData => 2 | FNext => 3 | _ => 1 end;
  fd_kind := kind;
  fd_is_list _ := false;
  fd_is_map _ := false;
  fd_required f := match f with FSize => true | _ => false end;
  fd_oneof _ := None;
  ed_value_by_name _ _ := None;
  dm_new := new_message;
  dm_descriptor := descriptor;
  dm_has := has;
  dm_get := get;
  dm_set := set;
  dm_take m f := (if has m f then Some (get m f) else None, clear m f);
  dm_fields m := (fun f => (f, get m f)) <$> filter (fun f => has m f = true) (fields (descriptor m));
  dm_extensions _ := [];
  dm_depth m := match m with MFind s => find_depth s | MUpload _ _ => 1%nat | _ => 0%nat end;
|}.

Lemma fields_owner (d : Type_) (f : Field) : f ∈ fields d <-> owner f = d.
Proof. destruct d, f; cbn; rewrite ?elem_of_cons, ?elem_of_nil; naive_solver. Qed.

Lemma by_name_ok (names : Field -> text) (d : Type_) (n : text) (f : Field) :
  by_name names d n = Some f -> names f = n /\ f ∈ fields d.
Proof.
  unfold by_name. intros H. apply find_first_Some in H as (l1 & l2 & E & Hf & _). apply bool_decide_eq_true in Hf.
  split; [done|]. rewrite E. apply elem_of_app. right. by left.
Qed.

(** Whatever is asked of a field of a message, case by case. *)
Ltac owned := repeat match goal with
  | H : _ ∈ @md_fields lib _ |- _ => apply fields_owner in H
  | H : @field_valid lib _ _ |- _ => destruct H as [_ H]; cbn in H
  end.
Ltac cases m f :=
  owned; destruct m as [[?|]|[[?|] [[?|]|] [?|]]|[|? ?] [[? ?]|]|[|? ?] [|? ?]], f; cbn in *; try done.

#[local] Instance laws : ProstLaws lib.
Proof.
  split.
  - intros d n f H. by apply by_name_ok in H as [].
  - intros d n f H. by apply by_name_ok in H as [].
  - intros d n f [<- H]%by_name_ok. apply fields_owner in H as <-. by destruct f.
  - intros d f _ H. by destruct f; cbn in H; repeat (apply elem_of_cons in H as [H|H]; [discriminate|]); apply elem_of_nil in H.
  - intros d f g Hf Hg. owned. subst d. destruct f, g; done.
  - intros []; done.
  - intros [] []; done.
  - intros m f v. cases m f; destruct v as [| | | | | | | | | |[]| |]; done.
  - intros m f v Hf Hv. cases m f; destruct v as [| | | | | | | | | |[]| |]; try done; naive_solver.
  - intros m f v g Hf Hg Hv Hne _. cases m f; destruct g; try done; destruct v as [| | | | | | | | | |[]| |]; done.
  - intros m f v Hf _ Hv. cases m f; destruct v as [| | | | | | |[|? ?]|[|? ?]| |[]| |]; try done; auto.
  - intros m f v g Hf Hg Hv Hne _. cases m f; destruct g; try done; destruct v as [| | | | | | | | | |[]| |]; done.
  - intros m f Hf. done.
  - intros m f. cases m f.
  - intros m f g Hf Hg Hne. cases m f; destruct g; done.
  - done.
  - intros m f Hf Hh _. cases m f.
  - intros m f d Hf Hk _ _ Hh. cases m f; naive_solver.
  - intros m f d Hf Hk _ _. cases m f; injection Hk as <-; by eexists.
  - intros m f v. cbn. intros (g & [= <- ->] & [_ H]%list_elem_of_filter)%list_elem_of_fmap. done.
  - intros m f v m'. cbn. intros (g & [= <- ->] & [Hh Hin]%list_elem_of_filter)%list_elem_of_fmap Hm'.
    apply fields_owner in Hin. cases m f; try by apply elem_of_nil in Hm'.
    all: apply list_elem_of_singleton in Hm' as ->; eexists; split; [done|by left].
  - intros m v m' H. by apply elem_of_nil in H.
  - intros m f v m'. cbn. intros (g & [= <- ->] & [Hh Hin]%list_elem_of_filter)%list_elem_of_fmap Hm'.
    apply fields_owner in Hin. cases m f; try by apply elem_of_nil in Hm'.
    all: apply list_elem_of_singleton in Hm' as ->; cbn; lia.
  - intros m v m' H. by apply elem_of_nil in H.
Qed.
End Model.
