(* ===== verification/Codec.v ===== *)
(** * Required fields of upstream answers ([src/transcode/codec.rs])

    The check for proto2 [required] fields a decoded answer must pass, and the
    search, made once per route, for whether any message of a type can need it. *)

From stdpp Require Import relations.
From S2P Require Import Prelude Rust Protobuf.

Section Codec.
Context {P : ProstLib}.

(** The descriptors the loop pushes for one it visits, last on top. *)
Definition inner_messages (desc : MessageDescriptor) : list MessageDescriptor :=
  omap (fun f => kind_message (fd_kind f)) (md_fields desc) ++ omap kind_message (md_extensions desc).

(** The loop of [has_required_fields], [pending] with its top first. The loop
    returns as soon as it meets a required field, so what it would have pushed
    before that does not matter. [None] is out of fuel. *)
Fixpoint required_loop (fuel : nat) (seen : list text) (pending : list MessageDescriptor) : option bool :=
  match fuel with
  | O => None
  | S fuel' =>
      match pending with
      | [] => Some false
      | desc :: pending =>
          if bool_decide (md_full_name desc ∈ seen) then required_loop fuel' seen pending
          else if existsb fd_required (md_fields desc) then Some true
          else required_loop fuel' (md_full_name desc :: seen) (reverse (inner_messages desc) ++ pending)
      end
  end.

Definition has_required_fields (fuel : nat) (desc : MessageDescriptor) : option bool :=
  required_loop fuel [] [desc].

(** [missing_required]; [fuel] bounds the nesting. *)
Fixpoint missing_in (fuel : nat) (msg : DynamicMessage) : option text :=
  match fuel with
  | O => None
  | S fuel' =>
      match find_first (fun f => fd_required f && negb (dm_has msg f)) (md_fields (dm_descriptor msg)) with
      | Some field => Some (fd_full_name field)
      | None =>
          let values := (dm_fields msg).*2 ++ dm_extensions msg in
          head (omap (fun value => head (omap (missing_in fuel') (messages_of value))) values)
      end
  end.

Definition missing_required (msg : DynamicMessage) : option text := missing_in (S (dm_depth msg)) msg.

Inductive decode_error := DecodeError | MissingRequired (field : text).

(** [DynamicDecoder::decode] of a frame [decoded] says how to read. *)
Definition decode (check_required : bool) (decoded : option DynamicMessage) : result DynamicMessage decode_error :=
  match decoded with
  | None => Err DecodeError
  | Some msg =>
      if check_required then
        match missing_required msg with
        | Some field => Err (MissingRequired field)
        | None => Ok msg
        end
      else Ok msg
  end.
End Codec.

(** * Theorems *)

Section Required.
Context {P : ProstLib} {PL : ProstLaws P}.

(** A message of one type can hold a message of the other. *)
Definition holds : relation MessageDescriptor := fun d d' => d' ∈ inner_messages d.
Definition requires (d : MessageDescriptor) : Prop := existsb fd_required (md_fields d) = true.

Section Pool.
(** A descriptor pool: closed under what its messages hold, names unique. *)
Context (pool : list MessageDescriptor).
Hypothesis pool_closed : forall d d', d ∈ pool -> holds d d' -> d' ∈ pool.
Hypothesis pool_names : forall d d', d ∈ pool -> d' ∈ pool -> md_full_name d = md_full_name d' -> d = d'.

Definition unseen (seen : list text) : list MessageDescriptor :=
  filter (fun d => md_full_name d ∉ seen) pool.

(** What the loop has left to push and to pop. *)
Definition work (seen : list text) (pending : list MessageDescriptor) : nat :=
  sum_list ((fun d => length (inner_messages d)) <$> unseen seen) + length pending.

Lemma unseen_drop (seen : list text) (d : MessageDescriptor) :
  d ∈ pool -> md_full_name d ∉ seen ->
  (sum_list ((fun d => length (inner_messages d)) <$> unseen (md_full_name d :: seen)) + length (inner_messages d)
   <= sum_list ((fun d => length (inner_messages d)) <$> unseen seen))%nat.
Proof.
  unfold unseen. clear. intros Hin Hs. induction pool as [|e l IH]; [by apply elem_of_nil in Hin|].
  assert (Hmono : forall l : list MessageDescriptor,
    (sum_list ((fun d => length (inner_messages d)) <$> filter (fun e => md_full_name e ∉ md_full_name d :: seen) l)
     <= sum_list ((fun d => length (inner_messages d)) <$> filter (fun e => md_full_name e ∉ seen) l))%nat).
  { clear. intros l. induction l as [|e l IH]; [done|]. rewrite !filter_cons.
    destruct (decide (md_full_name e ∉ md_full_name d :: seen)) as [H1|H1], (decide (md_full_name e ∉ seen)) as [H2|H2];
      cbn; try lia. destruct H2. rewrite not_elem_of_cons in H1. by destruct H1. }
  rewrite !filter_cons. apply elem_of_cons in Hin as [<-|Hin].
  - rewrite decide_False by (rewrite not_elem_of_cons; by intros [? _]). rewrite decide_True by done.
    cbn. specialize (Hmono l). lia.
  - specialize (IH Hin).
    destruct (decide (md_full_name e ∉ md_full_name d :: seen)) as [H1|H1], (decide (md_full_name e ∉ seen)) as [H2|H2];
      cbn; try lia. destruct H2. rewrite not_elem_of_cons in H1. by destruct H1.
Qed.

(** The state of the search: what is visited is done with, and what a visited
    message holds is visited or pending. *)
Definition searching (desc : MessageDescriptor) (seen : list text) (pending : list MessageDescriptor) : Prop :=
  (forall d, d ∈ pending -> rtc holds desc d) /\
  (forall d, d ∈ pool -> md_full_name d ∈ seen -> ~ requires d /\
     forall d', holds d d' -> md_full_name d' ∈ seen \/ d' ∈ pending) /\
  (md_full_name desc ∈ seen \/ desc ∈ pending).

Lemma reach_pool (desc d : MessageDescriptor) : desc ∈ pool -> rtc holds desc d -> d ∈ pool.
Proof. intros H. induction 1; eauto. Qed.

Lemma searching_done (desc : MessageDescriptor) (seen : list text) :
  desc ∈ pool -> searching desc seen [] -> forall d, rtc holds desc d -> ~ requires d.
Proof.
  intros Hd (_ & Hv & Hs). assert (Hseen : forall d, rtc holds desc d -> md_full_name d ∈ seen).
  { destruct Hs as [Hs|?%elem_of_nil]; [|done]. intros d H. revert Hd Hs. clear -H Hv pool_closed.
    induction H as [|a b c Hab Hbc IH]; intros Hd Hs; [done|]. apply IH; [eauto|].
    destruct (Hv a Hd Hs) as [_ Hh]. destruct (Hh b Hab) as [?|?%elem_of_nil]; done. }
  intros d H. destruct (Hv d) as [? _]; eauto using reach_pool.
Qed.

Lemma required_loop_total (desc : MessageDescriptor) (fuel : nat) (seen : list text)
    (pending : list MessageDescriptor) :
  desc ∈ pool -> searching desc seen pending -> (work seen pending < fuel)%nat ->
  exists b, required_loop fuel seen pending = Some b /\
    (b = true <-> exists d, rtc holds desc d /\ requires d).
Proof.
  intros Hd. revert seen pending. induction fuel as [|fuel IH]; intros seen pending Hs Hf; [lia|].
  cbn [required_loop]. destruct pending as [|d pending].
  { exists false. split; [done|]. split; [done|]. intros (d & Hr & Hq). by destruct (searching_done desc seen Hd Hs d Hr). }
  destruct Hs as (Hp & Hv & Hi). assert (Hr : rtc holds desc d) by (apply Hp; by left).
  assert (Hdp : d ∈ pool) by eauto using reach_pool.
  case_bool_decide as Hseen.
  - apply IH; [|unfold work in *; cbn [length] in Hf; lia]. split; [|split].
    + intros e He. apply Hp. by right.
    + intros e He Hes. destruct (Hv e He Hes) as [Hn Hh]. split; [done|]. intros e' He'.
      destruct (Hh e' He') as [?|[->|?]%elem_of_cons]; auto.
    + destruct Hi as [?|[->|?]%elem_of_cons]; auto.
  - destruct (existsb fd_required (md_fields d)) eqn:Eq.
    { exists true. split; [done|]. split; [|done]. intros _. by exists d. }
    apply IH.
    + split; [|split].
      * intros e [He|He]%elem_of_app; [|apply Hp; by right].
        rewrite elem_of_reverse in He. etransitivity; [exact Hr|]. by apply rtc_once.
      * intros e He [Hes|Hes]%elem_of_cons.
        -- assert (e = d) as -> by (by apply pool_names). split; [unfold requires; congruence|].
           intros e' He'. right. apply elem_of_app. left. by rewrite elem_of_reverse.
        -- destruct (Hv e He Hes) as [Hn Hh]. split; [done|]. intros e' He'.
           destruct (Hh e' He') as [?|[->|?]%elem_of_cons]; [left; by right|left; by left|].
           right. apply elem_of_app. by right.
      * destruct Hi as [?|[->|?]%elem_of_cons]; [left; by right|left; by left|right; apply elem_of_app; by right].
    + pose proof (unseen_drop seen d Hdp Hseen). unfold work in *. rewrite length_app, length_reverse.
      cbn [length] in Hf. lia.
Qed.

Lemma search_total (desc : MessageDescriptor) (fuel : nat) :
  desc ∈ pool -> (S (work [] [desc]) <= fuel)%nat ->
  exists b, has_required_fields fuel desc = Some b /\
    (b = true <-> exists d, rtc holds desc d /\ requires d).
Proof.
  intros Hd Hf. apply required_loop_total; [done| |lia]. split; [|split].
  - intros d ->%list_elem_of_singleton. done.
  - intros d _ ?%elem_of_nil. done.
  - right. by left.
Qed.
End Pool.

Lemma head_omap_none {A B} (f : A -> option B) (l : list A) :
  (forall x, x ∈ l -> f x = None) -> head (omap f l) = None.
Proof.
  induction l as [|x l IH]; intros H; cbn; [done|]. rewrite (H x) by (by left).
  apply IH. intros y Hy. apply H. by right.
Qed.

Lemma typed_reach (d e m : MessageDescriptor) :
  holds d e -> e = m \/ (exists g, g ∈ md_fields e /\ fd_kind g = KMessage m) -> rtc holds d m.
Proof.
  intros H [->|(g & Hg & Hk)]; [by apply rtc_once|]. eapply rtc_l; [exact H|]. apply rtc_once.
  unfold holds, inner_messages. apply elem_of_app. left. apply list_elem_of_omap. exists g. by rewrite Hk.
Qed.

Lemma none_missing (fuel : nat) (msg : DynamicMessage) :
  (forall d, rtc holds (dm_descriptor msg) d -> ~ requires d) -> missing_in fuel msg = None.
Proof.
  revert msg. induction fuel as [|fuel IH]; intros msg H; cbn [missing_in]; [done|].
  assert (find_first (fun f => fd_required f && negb (dm_has msg f)) (md_fields (dm_descriptor msg)) = None) as ->.
  { apply find_first_None. apply Forall_forall. intros f Hf.
    destruct (fd_required f) eqn:Er; [|done]. destruct (H (dm_descriptor msg)); [done|].
    apply existsb_exists. exists f. split; [by apply list_elem_of_In|done]. }
  apply head_omap_none. intros v Hv. apply head_omap_none. intros m' Hm'. apply IH.
  intros d Hd. apply H. etransitivity; [|exact Hd]. apply elem_of_app in Hv as [Hv|Hv].
  - apply list_elem_of_fmap in Hv as ([f w] & -> & Hv). cbn in Hm'.
    destruct (fields_typed msg f w m' Hv Hm') as (e & Hk & He). apply (typed_reach _ e); [|done].
    unfold holds, inner_messages. apply elem_of_app. left. apply list_elem_of_omap. exists f.
    split; [by eapply fields_listed|]. by rewrite Hk.
  - destruct (extensions_typed msg v m' Hv Hm') as (e & Hk & He). apply (typed_reach _ e); [|done].
    unfold holds, inner_messages. apply elem_of_app. right. apply list_elem_of_omap. by exists (KMessage e).
Qed.

(** C35: the search for required fields ends on every descriptor pool, recursive types included; it finds one
    exactly when a message the type can hold, at any depth, has one, and leaving the check out of the routes
    where it finds none changes no answer. *)
Theorem required_search (pool : list MessageDescriptor) (desc : MessageDescriptor) (fuel : nat) :
  (forall d d', d ∈ pool -> holds d d' -> d' ∈ pool) ->
  (forall d d', d ∈ pool -> d' ∈ pool -> md_full_name d = md_full_name d' -> d = d') ->
  desc ∈ pool -> (S (work pool [] [desc]) <= fuel)%nat ->
  exists check, has_required_fields fuel desc = Some check /\
    (check = true <-> exists d, rtc holds desc d /\ requires d) /\
    forall msg, dm_descriptor msg = desc -> decode check (Some msg) = decode true (Some msg).
Proof.
  intros Hc Hn Hd Hf. destruct (search_total pool Hc Hn desc fuel Hd Hf) as (check & Hr & Hiff).
  exists check. split; [done|]. split; [done|]. intros msg Hm. destruct check; [done|].
  cbn [decode]. unfold missing_required. rewrite none_missing; [done|]. rewrite Hm.
  intros d Hrd Hq. discriminate (proj2 Hiff (ex_intro _ d (conj Hrd Hq))).
Qed.

(** A message set in another: a field's, an extension's, an item's or an entry's. *)
Definition part_of : relation DynamicMessage := fun m m' =>
  exists v, v ∈ (dm_fields m).*2 ++ dm_extensions m /\ m' ∈ messages_of v.

Lemma part_depth (m m' : DynamicMessage) : part_of m m' -> (dm_depth m' < dm_depth m)%nat.
Proof.
  intros (v & [Hv|Hv]%elem_of_app & Hm'); [|by eapply extensions_depth].
  apply list_elem_of_fmap in Hv as ([f w] & -> & Hv). by eapply fields_depth.
Qed.

Definition complete (m : DynamicMessage) : Prop :=
  forall f, f ∈ md_fields (dm_descriptor m) -> fd_required f = true -> dm_has m f = true.

Lemma find_complete (m : DynamicMessage) :
  find_first (fun f => fd_required f && negb (dm_has m f)) (md_fields (dm_descriptor m)) = None <-> complete m.
Proof.
  rewrite find_first_None, Forall_forall. split; intros H f Hf.
  - intros Hr. specialize (H f Hf). cbn in H. rewrite Hr in H. by apply negb_false_iff in H.
  - cbn. destruct (fd_required f) eqn:Er; [|done]. by rewrite (H f Hf Er).
Qed.

Lemma head_omap_inv {A B} (f : A -> option B) (l : list A) :
  head (omap f l) = None -> forall x, x ∈ l -> f x = None.
Proof.
  induction l as [|y l IH]; cbn; intros H x Hx; [by apply elem_of_nil in Hx|].
  destruct (f y) eqn:E; [done|]. apply elem_of_cons in Hx as [->|Hx]; auto.
Qed.

Lemma missing_in_exact (fuel : nat) (m : DynamicMessage) :
  (dm_depth m < fuel)%nat -> missing_in fuel m = None <-> forall m', rtc part_of m m' -> complete m'.
Proof.
  revert m. induction fuel as [|fuel IH]; intros m Hf; [lia|]. cbn [missing_in].
  pose proof (find_complete m) as Hfc. destruct (find_first _ _) as [g|].
  { split; [done|]. intros H. destruct Hfc as [_ Hfc]. discriminate (Hfc (H m (rtc_refl _ _))). }
  split.
  - intros H m' Hm'. inversion Hm' as [|? m1 ? Hp Hr]; subst; [by apply Hfc|].
    pose proof Hp as (v & Hv & Hm1). pose proof (part_depth _ _ Hp).
    eapply (IH m1); [lia| |exact Hr]. eapply head_omap_inv; [|exact Hm1]. by eapply (head_omap_inv _ _ H).
  - intros H. apply head_omap_none. intros v Hv. apply head_omap_none. intros m' Hm'.
    assert (Hp : part_of m m') by by exists v. pose proof (part_depth _ _ Hp). apply IH; [lia|].
    intros m2 Hm2. apply H. by eapply rtc_l.
Qed.

(** A checked answer is passed on exactly when every message in it, at any depth and inside lists, maps and
    extensions too, has its required fields set. *)
Theorem required_enforced (msg : DynamicMessage) :
  is_ok (decode true (Some msg)) = true <-> forall m', rtc part_of msg m' -> complete m'.
Proof.
  rewrite <- (missing_in_exact (S (dm_depth msg)) msg) by lia. fold (missing_required msg). cbn [decode].
  by destruct (missing_required msg).
Qed.
End Required.

(** * A concrete pool *)

Module Demo.
Import Protobuf.Model.
#[local] Existing Instances lib laws.

(** [Find] holds [Page] and itself; [Page] has a required field. *)
Lemma required_search_witness :
  exists check, has_required_fields 6 TFind = Some check /\
    (check = true <-> exists d, rtc holds TFind d /\ requires d) /\
    forall msg, dm_descriptor msg = TFind -> decode check (Some msg) = decode true (Some msg).
Proof.
  apply (@required_search lib laws [TFind; TPage] TFind 6).
  - intros d d' [->|[->|[]%elem_of_nil]%elem_of_cons]%elem_of_cons; unfold holds; cbn; rewrite !elem_of_cons, elem_of_nil; tauto.
  - intros [] []; done.
  - by left.
  - apply Nat.leb_le. vm_compute. reflexivity.
Defined.

Definition page_without_size : Message := MFind (mkFind None None (Some (mkFind (Some (txt "q")) (Some None) None))).

Example size_required : missing_required page_without_size = Some (txt "demo.page_size").
Proof. reflexivity. Qed.

Lemma required_enforced_witness :
  is_ok (decode true (Some page_without_size)) = false /\
  ~ (forall m', rtc part_of page_without_size m' -> complete m').
Proof.
  assert (E : is_ok (decode true (Some page_without_size)) = false) by reflexivity.
  split; [exact E|]. intros H. apply (proj2 (@required_enforced lib laws page_without_size)) in H.
  discriminate (eq_trans (eq_sym H) E).
Defined.
End Demo.
