(* ===== verification/Presence.v ===== *)
(** * What a request body sets ([src/transcode/request/presence.rs])

    The keys of a body, recorded while [prost-reflect] reads it, in one flat
    buffer; which fields a query parameter must then leave alone. How
    [prost-reflect] drives a deserializer is the interface [Reader]: the messages
    it asks for, key by key. *)

From Stdlib Require Import Floats.SpecFloat.
From S2P Require Import Prelude Rust Json Protobuf.

(** ** Recorded keys *)

(** What a recorded key set its field to. *)
Inductive Held := Whole | Object_ | Fields.

#[export] Instance Held_eq : EqDecision Held.
Proof. solve_decision. Defined.

(** The key's bytes are [start..end] of the buffer. *)
Record Entry := mkEntry { e_depth : nat; e_start : nat; e_end : nat; e_held : Held }.

(** The scratch vector [matched] lives only in [blocks]. *)
Record Presence := mkPresence { names : text; entries : list Entry; whole : bool }.

Definition new_presence : Presence := mkPresence [] [] false.

Definition presence_clear (p : Presence) : Presence := new_presence.
Definition record_whole (p : Presence) : Presence := mkPresence (names p) (entries p) true.

Definition record (p : Presence) (depth : nat) (key : text) (held : Held) : Presence :=
  let start := length (names p) in
  let names' := names p ++ key in
  mkPresence names' (entries p ++ [mkEntry depth start (length names') held]) (whole p).

Definition mark_object (p : Presence) : Presence :=
  mkPresence (names p)
    (match reverse (entries p) with
     | [] => []
     | e :: before => reverse before ++ [mkEntry (e_depth e) (e_start e) (e_end e) Object_]
     end) (whole p).

(** The slice of the buffer an entry names. *)
Definition key_of (names : text) (e : Entry) : text := take (e_end e - e_start e) (drop (e_start e) names).

Section Blocks.
Context {P : ProstLib}.

Definition special_names : list text :=
  [txt "google.protobuf.Any"; txt "google.protobuf.Timestamp"; txt "google.protobuf.Duration";
   txt "google.protobuf.Struct"; txt "google.protobuf.FloatValue"; txt "google.protobuf.DoubleValue";
   txt "google.protobuf.Int32Value"; txt "google.protobuf.Int64Value"; txt "google.protobuf.UInt32Value";
   txt "google.protobuf.UInt64Value"; txt "google.protobuf.BoolValue"; txt "google.protobuf.StringValue";
   txt "google.protobuf.BytesValue"; txt "google.protobuf.FieldMask"; txt "google.protobuf.ListValue";
   txt "google.protobuf.Value"; txt "google.protobuf.Empty"].

Definition has_special_json (message : MessageDescriptor) : bool :=
  bool_decide (md_full_name message ∈ special_names).

Definition record_path (p : Presence) (path : list FieldDescriptor) (fields : bool) : Presence :=
  foldl (fun p df =>
    let held := if fields || (df.1 + 1 <? length path)%nat then Fields else Whole in
    record p df.1 (fd_name df.2) held) p (imap pair path).

(** The key names the field, by its proto or JSON name. *)
Definition names_field (key : text) (field : FieldDescriptor) : bool :=
  bool_decide (key = fd_name field) || bool_decide (key = fd_json_name field).

(** The entry sets its field as a whole. *)
Definition sets_whole (held : Held) (field : FieldDescriptor) : bool :=
  match held with
  | Whole => true
  | Object_ => match fd_kind field with KMessage message => has_special_json message | _ => false end
  | Fields => false
  end.

(** The loop of [blocks] over the entries, [matched] the vector of the levels. *)
Fixpoint blocks_loop (names : text) (path : list FieldDescriptor) (es : list Entry) (matched : list bool) : bool :=
  match es with
  | [] => false
  | e :: es' =>
      let depth := e_depth e in
      let matched := take depth matched in
      let parent := (depth =? 0)%nat || bool_decide (matched !! (depth - 1)%nat = Some true) in
      let field :=
        match path !! depth with
        | Some field => if parent && names_field (key_of names e) field then Some field else None
        | None => None
        end in
      let stop :=
        match field with
        | Some field => (depth + 1 =? length path)%nat || sets_whole (e_held e) field
        | None => false
        end in
      if stop then true
      else
        let padded := matched ++ replicate (depth - length matched) false in
        blocks_loop names path es' (padded ++ [bool_decide (is_Some field)])
  end.

Definition blocks (p : Presence) (path : list FieldDescriptor) : bool :=
  if whole p then true else blocks_loop (names p) path (entries p) [].
End Blocks.

(** ** Reading a body *)

(** How a [Visitor] of [prost-reflect] reads a value: through [deserialize_option]
    first when [nullable] says what [null] is, then as a map or through one of the
    other methods of a deserializer. In a map it names the reader of each key's
    value and goes on with what that read. *)
Inductive Ask (St R : Type) : Type :=
| AForward (read : Value -> result R text)
| AMap (s : St).
Arguments AForward {St R} read.
Arguments AMap {St R} s.

Record Reader (R : Type) := mkReader {
  St : Type;
  nullable : St -> option (result R text);
  ask : St -> Ask St R;
  (** The key's seed: the reader of its value. *)
  on_key : St -> text -> result St text;
  (** After the value. *)
  on_value : St -> text -> R -> result St text;
  at_end : St -> result R text;
  (** A value that is not an object where a map is asked for. *)
  not_a_map : St -> Value -> text;
}.
Arguments St {R} r. Arguments nullable {R} r s. Arguments ask {R} r s. Arguments on_key {R} r s key.
Arguments on_value {R} r s key v. Arguments at_end {R} r s. Arguments not_a_map {R} r s v.

Section Reading.
Context {R : Type} (r : Reader R).

(** A reader run on a value of [serde_json] (or on a [OneEntry], which is an object
    of one member). *)
Fixpoint read_value (s : St r) (v : Value) {struct v} : result R text :=
  match nullable r s, v with
  | Some none, Null => none
  | _, _ =>
      match ask r s with
      | AForward read => read v
      | AMap m =>
          match v with
          | Object members =>
              (fix read_map (m : St r) (members : list (text * Value)) {struct members} : result R text :=
                 match members with
                 | [] => at_end r m
                 | (key, value) :: members' =>
                     let? s' := on_key r m key in
                     let? x := read_value s' value in
                     let? m' := on_value r m key x in
                     read_map m' members'
                 end) m members
          | _ => Err (not_a_map r m v)
          end
      end
  end.

(** The same through [Recording]: [OptionVisitor] hands the wrapper on below a
    value that is there, [MapVisitor] marks the key the object is under and
    [RecordingMap] records each key as it is read; the other methods go straight
    to the wrapped deserializer. *)
Fixpoint read_recording (s : St r) (v : Value) (depth : nat) (p : Presence) {struct v} : result R text * Presence :=
  match nullable r s, v with
  | Some none, Null => (none, p)
  | _, _ =>
      match ask r s with
      | AForward read => (read v, p)
      | AMap m =>
          match v with
          | Object members =>
              (fix read_map (m : St r) (members : list (text * Value)) (p : Presence) {struct members}
                   : result R text * Presence :=
                 match members with
                 | [] => (at_end r m, p)
                 | (key, value) :: members' =>
                     let p := record p depth key Whole in
                     match on_key r m key with
                     | Err e => (Err e, p)
                     | Ok s' =>
                         let '(x, p) := read_recording s' value (depth + 1)%nat p in
                         match x with
                         | Err e => (Err e, p)
                         | Ok x =>
                             match on_value r m key x with
                             | Err e => (Err e, p)
                             | Ok m' => read_map m' members' p
                             end
                         end
                     end
                 end) m members (if (0 <? depth)%nat then mark_object p else p)
          | _ => (Err (not_a_map r m v), p)
          end
      end
  end.
End Reading.

(** * Theorems *)

(** ** The flat buffer as a forest *)

(** The keys as a tree: a key, what it holds, the keys below it, its next
    sibling. *)
Inductive Forest :=
| Nil
| Cons (key : text) (held : Held) (kids : Forest) (next : Forest).

Fixpoint forest_app (f g : Forest) : Forest :=
  match f with Nil => g | Cons k h kids next => Cons k h kids (forest_app next g) end.

Fixpoint flatten (depth : nat) (f : Forest) : list (nat * text * Held) :=
  match f with
  | Nil => []
  | Cons k h kids next => (depth, k, h) :: flatten (S depth) kids ++ flatten depth next
  end.

Lemma flatten_app (d : nat) (f g : Forest) : flatten d (forest_app f g) = flatten d f ++ flatten d g.
Proof. induction f as [|k h kids _ next IH]; cbn; [done|]. by rewrite IH, <- app_assoc. Qed.

Section ForestBlocks.
Context {P : ProstLib}.

(** A path is blocked by a key that names its last field, or a field on the way
    set as a whole. *)
Fixpoint forest_blocks (path : list FieldDescriptor) (f : Forest) : bool :=
  match f with
  | Nil => false
  | Cons key held kids next =>
      match path with
      | [] => false
      | field :: rest =>
          names_field key field && (match rest with [] => true | _ => false end
                                    || sets_whole held field || forest_blocks rest kids)
      end || forest_blocks path next
  end.

Lemma forest_blocks_app (path : list FieldDescriptor) (f g : Forest) :
  forest_blocks path (forest_app f g) = forest_blocks path f || forest_blocks path g.
Proof. induction f as [|k h kids _ next IH]; cbn; [done|]. by rewrite IH, orb_assoc. Qed.

Lemma forest_blocks_nil (f : Forest) : forest_blocks [] f = false.
Proof. induction f as [|k h kids _ next IH]; cbn; done. Qed.
End ForestBlocks.

(** What the buffer holds. *)
Definition view (p : Presence) : list (nat * text * Held) :=
  (fun e => (e_depth e, key_of (names p) e, e_held e)) <$> entries p.

(** Every entry lies in the buffer. *)
Definition presence_ok (p : Presence) : Prop :=
  Forall (fun e => (e_start e <= e_end e <= length (names p))%nat) (entries p).

Lemma key_of_app (names more : text) (e : Entry) :
  (e_start e <= e_end e <= length names)%nat -> key_of (names ++ more) e = key_of names e.
Proof.
  intros H. unfold key_of. rewrite drop_app_le by lia. rewrite take_app_le; [done|].
  rewrite length_drop. lia.
Qed.

Lemma record_view (p : Presence) (d : nat) (key : text) (h : Held) :
  presence_ok p -> presence_ok (record p d key h) /\ view (record p d key h) = view p ++ [(d, key, h)].
Proof.
  unfold presence_ok, view, record. cbn [names entries]. intros Hp. split.
  - apply Forall_app. split; [|repeat constructor; cbn; rewrite length_app; lia].
    eapply Forall_impl; [exact Hp|]. cbn. intros e He. rewrite length_app. lia.
  - rewrite fmap_app. cbn. f_equal.
    + apply list_fmap_ext. intros i e He. rewrite Forall_forall in Hp.
      rewrite key_of_app by (by eapply Hp, list_elem_of_lookup_2). done.
    + unfold key_of. cbn. rewrite length_app, drop_app_length.
      rewrite take_ge by lia. done.
Qed.

Lemma mark_view (p : Presence) (l : list (nat * text * Held)) (d : nat) (key : text) (h : Held) :
  presence_ok p -> view p = l ++ [(d, key, h)] ->
  presence_ok (mark_object p) /\ view (mark_object p) = l ++ [(d, key, Object_)].
Proof.
  unfold presence_ok, view, mark_object. cbn [names entries].
  destruct (entries p) as [|e es _] using rev_ind; [by destruct l|].
  rewrite reverse_snoc, reverse_involutive, Forall_app, Forall_app, !fmap_app. cbn [fmap list_fmap].
  intros [Ho He] [-> Hv]%app_inj_2; [|done]. split.
  - split; [done|]. inversion He; subst. by constructor.
  - injection Hv as <- <- <-. done.
Qed.

Section Refinement.
Context {P : ProstLib}.

(** [blocks_loop] on the keys themselves. *)
Fixpoint view_loop (path : list FieldDescriptor) (es : list (nat * text * Held)) (matched : list bool) : bool :=
  match es with
  | [] => false
  | (depth, key, held) :: es' =>
      let matched := take depth matched in
      let parent := (depth =? 0)%nat || bool_decide (matched !! (depth - 1)%nat = Some true) in
      let field :=
        match path !! depth with
        | Some field => if parent && names_field key field then Some field else None
        | None => None
        end in
      let stop :=
        match field with
        | Some field => (depth + 1 =? length path)%nat || sets_whole held field
        | None => false
        end in
      if stop then true
      else view_loop path es' ((matched ++ replicate (depth - length matched) false) ++ [bool_decide (is_Some field)])
  end.

Lemma blocks_view (p : Presence) (path : list FieldDescriptor) (matched : list bool) :
  blocks_loop (names p) path (entries p) matched = view_loop path (view p) matched.
Proof.
  unfold view. revert matched. induction (entries p) as [|e es IH]; intros matched; [done|].
  cbn [blocks_loop fmap list_fmap view_loop]. by rewrite <- IH.
Qed.

Lemma path_end (path : list FieldDescriptor) (d : nat) (f : FieldDescriptor) (rest : list FieldDescriptor) :
  drop d path = f :: rest ->
  path !! d = Some f /\ drop (S d) path = rest /\
  (d + 1 =? length path)%nat = match rest with [] => true | _ => false end.
Proof.
  intros H. assert (Hl : path !! d = Some f) by (rewrite <- (Nat.add_0_r d), <- lookup_drop, H; done).
  assert (Hd : drop (S d) path = rest).
  { replace (S d) with (d + 1)%nat by lia. rewrite <- drop_drop, H. done. }
  split; [done|]. split; [done|]. apply (f_equal length) in H. rewrite length_drop in H. cbn in H.
  destruct rest; cbn in H; [apply Nat.eqb_eq|apply Nat.eqb_neq]; lia.
Qed.

(** One level of the forest: the flat loop decides it and goes on with the same
    levels above. *)
Lemma view_loop_forest (path : list FieldDescriptor) (f : Forest) (d : nat) (rest : list (nat * text * Held))
    (matched : list bool) :
  (d <= length matched)%nat ->
  exists matched', (d <= length matched')%nat /\ take d matched' = take d matched /\
  view_loop path (flatten d f ++ rest) matched =
  ((d =? 0)%nat || bool_decide (take d matched !! (d - 1)%nat = Some true)) && forest_blocks (drop d path) f
  || view_loop path rest matched'.
Proof.
  revert d rest matched. induction f as [|key held kids IHk next IHn]; intros d rest matched Hl.
  { exists matched. cbn. by rewrite andb_false_r. }
  cbn [flatten app]. set (parent := (d =? 0)%nat || _). rewrite <- app_assoc. cbn [view_loop]. fold parent.
  assert (Hlen : length (take d matched) = d) by (rewrite length_take; lia).
  rewrite Hlen, Nat.sub_diag. cbn [replicate]. rewrite app_nil_r.
  (* the next siblings, from the levels the keys below leave *)
  assert (Hrest : forall hit, exists matched', (d <= length matched')%nat /\ take d matched' = take d matched /\
    view_loop path (flatten (S d) kids ++ flatten d next ++ rest) (take d matched ++ [hit]) =
    hit && forest_blocks (drop (S d) path) kids || (parent && forest_blocks (drop d path) next || view_loop path rest matched')).
  { intros hit. destruct (IHk (S d) (flatten d next ++ rest) (take d matched ++ [hit])) as (m1 & Hm1 & Ht1 & ->).
    { rewrite length_app, Hlen. cbn. lia. }
    assert (Htd : take d m1 = take d matched).
    { replace d with (d `min` S d)%nat at 1 by lia. rewrite <- take_take, Ht1, take_take.
      replace (d `min` S d)%nat with d by lia. by rewrite take_app_le, take_take, Nat.min_id by lia. }
    destruct (IHn d rest m1) as (m2 & Hm2 & Ht2 & ->); [lia|]. exists m2. split; [done|]. split; [congruence|].
    rewrite Htd. fold parent. f_equal. f_equal.
    rewrite take_ge by (rewrite length_app, Hlen; cbn; lia). cbn [Nat.eqb orb].
    replace (S d - 1)%nat with (length (take d matched)) by lia. rewrite list_lookup_middle by done.
    by destruct hit. }
  destruct (drop d path) as [|field prest] eqn:Ed.
  - assert (path !! d = None) as ->.
    { apply lookup_ge_None. apply (f_equal length) in Ed. rewrite length_drop in Ed. cbn in Ed. lia. }
    destruct (Hrest (bool_decide (is_Some (@None FieldDescriptor)))) as (m & Hm & Ht & ->). exists m.
    split; [done|]. split; [done|]. cbn [forest_blocks orb]. rewrite bool_decide_false by by intros [? ?]. done.
  - destruct (path_end path d field prest Ed) as (-> & Hrd & ->). cbn [forest_blocks].
    destruct (parent && names_field key field) eqn:Epn.
    + bool_simpl. rewrite H, H0. cbn [andb].
      destruct (match prest with [] => true | _ => false end || sets_whole held field) eqn:Es.
      { exists matched. split; [done|]. split; [done|]. done. }
      destruct (Hrest (bool_decide (is_Some (Some field)))) as (m & Hm & Ht & ->). exists m.
      split; [done|]. split; [done|]. rewrite bool_decide_true by done. rewrite H, Hrd. cbn [andb orb].
      by rewrite orb_assoc.
    + destruct (Hrest (bool_decide (is_Some (@None FieldDescriptor)))) as (m & Hm & Ht & ->). exists m.
      split; [done|]. split; [done|]. rewrite bool_decide_false by by intros [? ?]. cbn [andb orb].
      destruct parent; cbn [andb] in *; [by rewrite Epn|done].
Qed.

(** The buffer holds the keys of a forest. *)
Definition represents (p : Presence) (f : Forest) : Prop := presence_ok p /\ view p = flatten 0 f.

Lemma blocks_forest (p : Presence) (f : Forest) (path : list FieldDescriptor) :
  represents p f -> blocks p path = whole p || forest_blocks path f.
Proof.
  intros [_ Hv]. unfold blocks. destruct (whole p); [done|]. rewrite blocks_view, Hv.
  destruct (view_loop_forest path f 0 [] []) as (m & _ & _ & E); [cbn; lia|].
  rewrite app_nil_r in E. rewrite E. cbn. by rewrite orb_false_r.
Qed.

(** A path set by something other than the body adds a chain of keys. *)
Fixpoint chain (path : list FieldDescriptor) (fields : bool) : Forest :=
  match path with
  | [] => Nil
  | f :: rest => Cons (fd_name f) (if fields || match rest with [] => false | _ => true end then Fields else Whole)
                   (chain rest fields) Nil
  end.
End Refinement.

Section Recorded.
Context {P : ProstLib}.

Lemma record_path_view (p : Presence) (path : list FieldDescriptor) (fields : bool) :
  presence_ok p ->
  let p' := record_path p path fields in
  presence_ok p' /\ view p' = view p ++ flatten 0 (chain path fields) /\ whole p' = whole p.
Proof.
  unfold record_path. set (step := fun p df => _).
  assert (H : forall l d p, presence_ok p -> (d + length l = length path)%nat ->
    let p' := foldl step p (imap (fun i f => ((d + i)%nat, f)) l) in
    presence_ok p' /\ view p' = view p ++ flatten d (chain l fields) /\ whole p' = whole p).
  { intros l. induction l as [|f l IH]; intros d q Hq Hd; cbn [imap foldl chain flatten].
    { by rewrite app_nil_r. }
    set (q' := step q ((d + 0)%nat, f)).
    set (held := if fields || match l with [] => false | _ => true end then Fields else Whole).
    assert (Eq : q' = record q d (fd_name f) held).
    { unfold q', step, held. cbn [fst snd]. rewrite Nat.add_0_r. do 2 f_equal. cbn in Hd.
      destruct l; cbn in Hd; [rewrite (proj2 (Nat.ltb_ge _ _)) by lia|rewrite (proj2 (Nat.ltb_lt _ _)) by lia]; done. }
    destruct (record_view q d (fd_name f) held Hq) as [Hq' Hv]. rewrite <- Eq in Hq', Hv.
    rewrite (imap_ext _ (fun i f => ((S d + i)%nat, f))) by (intros; cbn; f_equal; lia).
    destruct (IH (S d) q' Hq') as (H1 & H2 & H3); [cbn in Hd; lia|]. split; [done|].
    rewrite H2, Hv, H3, Eq, app_nil_r, <- app_assoc. done. }
  intros Hp. apply (H path 0%nat p Hp). done.
Qed.

Lemma record_path_represents (p : Presence) (f : Forest) (path : list FieldDescriptor) (fields : bool) :
  represents p f ->
  represents (record_path p path fields) (forest_app f (chain path fields)) /\
  whole (record_path p path fields) = whole p.
Proof.
  intros [Ho Hv]. destruct (record_path_view p path fields Ho) as (H1 & H2 & H3). split; [|done].
  split; [done|]. by rewrite H2, Hv, flatten_app.
Qed.
End Recorded.

Section Reads.
Context {R : Type} (r : Reader R).

(** The keys a reader reads as a message's: what a value is held as, and the keys
    below it. *)
Fixpoint read_forest (s : St r) (v : Value) {struct v} : result R text * Held * Forest :=
  match nullable r s, v with
  | Some none, Null => (none, Whole, Nil)
  | _, _ =>
      match ask r s with
      | AForward read => (read v, Whole, Nil)
      | AMap m =>
          match v with
          | Object members =>
              let '(x, f) :=
                (fix read_map (m : St r) (members : list (text * Value)) {struct members} : result R text * Forest :=
                   match members with
                   | [] => (at_end r m, Nil)
                   | (key, value) :: members' =>
                       match on_key r m key with
                       | Err e => (Err e, Cons key Whole Nil Nil)
                       | Ok s' =>
                           let '(x, h, kids) := read_forest s' value in
                           match x with
                           | Err e => (Err e, Cons key h kids Nil)
                           | Ok x =>
                               match on_value r m key x with
                               | Err e => (Err e, Cons key h kids Nil)
                               | Ok m' => let '(y, next) := read_map m' members' in (y, Cons key h kids next)
                               end
                           end
                       end
                   end) m members in
              (x, Object_, f)
          | _ => (Err (not_a_map r m v), Whole, Nil)
          end
      end
  end.

(** The key a value is under, the last one recorded. *)
Definition under (depth : nat) (key : text) (h : Held) : list (nat * text * Held) :=
  match depth with O => [] | S d => [(d, key, h)] end.

Lemma read_recording_ok (v : Value) (s : St r) (depth : nat) (p : Presence) (l : list (nat * text * Held)) (key : text) :
  presence_ok p -> view p = l ++ under depth key Whole ->
  let '(x, h, kids) := read_forest s v in
  let '(y, p') := read_recording r s v depth p in
  x = read_value r s v /\ y = x /\ presence_ok p' /\ whole p' = whole p /\
  view p' = l ++ under depth key h ++ flatten depth kids.
Proof.
  revert s depth p l key. induction v as [v Hv0|members IH] using value_members_ind; intros s depth p l key Hp Hv.
  { destruct v; cbn [read_forest read_recording read_value];
      try (destruct (nullable r s), (ask r s); cbn; rewrite ?app_nil_r; by auto). by destruct (Hv0 members). }
  cbn [read_forest read_recording read_value].
  assert (Hmap : forall m p l, presence_ok p -> view p = l ->
    let '(x, f) :=
      (fix read_map (m : St r) (members : list (text * Value)) {struct members} : result R text * Forest :=
         match members with
         | [] => (at_end r m, Nil)
         | (key, value) :: members' =>
             match on_key r m key with
             | Err e => (Err e, Cons key Whole Nil Nil)
             | Ok s' =>
                 let '(x, h, kids) := read_forest s' value in
                 match x with
                 | Err e => (Err e, Cons key h kids Nil)
                 | Ok x =>
                     match on_value r m key x with
                     | Err e => (Err e, Cons key h kids Nil)
                     | Ok m' => let '(y, next) := read_map m' members' in (y, Cons key h kids next)
                     end
                 end
             end
         end) m members in
    let '(y, p') :=
      (fix read_map (m : St r) (members : list (text * Value)) (p : Presence) {struct members}
           : result R text * Presence :=
         match members with
         | [] => (at_end r m, p)
         | (key, value) :: members' =>
             let p := record p depth key Whole in
             match on_key r m key with
             | Err e => (Err e, p)
             | Ok s' =>
                 let '(x, p) := read_recording r s' value (depth + 1)%nat p in
                 match x with
                 | Err e => (Err e, p)
                 | Ok x =>
                     match on_value r m key x with
                     | Err e => (Err e, p)
                     | Ok m' => read_map m' members' p
                     end
                 end
             end
         end) m members p in
    x = (fix read_map (m : St r) (members : list (text * Value)) {struct members} : result R text :=
         match members with
         | [] => at_end r m
         | (key, value) :: members' =>
             let? s' := on_key r m key in
             let? x := read_value r s' value in
             let? m' := on_value r m key x in
             read_map m' members'
         end) m members /\ y = x /\ presence_ok p' /\ whole p' = whole p /\ view p' = l ++ flatten depth f).
  { clear Hp Hv p l key s. induction IH as [|[key value] ms IH _ IHm]; intros m p l Hp Hv.
    { cbn. rewrite app_nil_r. auto. }
    destruct (record_view p depth key Whole Hp) as [Hp1 Hv1]. rewrite Hv in Hv1.
    cbn zeta. destruct (on_key r m key) as [s'|e]; cbn [result_bind flatten app].
    2:{ repeat split; done. }
    cbn [snd] in IH. specialize (IH s' (depth + 1)%nat (record p depth key Whole) l key Hp1).
    replace (depth + 1)%nat with (S depth) in * by lia. specialize (IH Hv1).
    destruct (read_forest s' value) as [[x h] kids]. destruct (read_recording r s' value (S depth) _) as [y p2].
    destruct IH as (<- & -> & Hp2 & Hw2 & Hv2). cbn [under] in Hv2.
    destruct x as [x|e]; cbn [result_bind].
    2:{ cbn [flatten app]. rewrite app_nil_r. repeat split; done. }
    destruct (on_value r m key x) as [m'|e]; cbn [result_bind].
    2:{ cbn [flatten app]. rewrite app_nil_r. repeat split; done. }
    specialize (IHm m' p2 _ Hp2 Hv2).
    match type of IHm with (let '(x, f) := ?a in let '(y, p') := ?b in _) => destruct a as [z f]; destruct b as [w p3] end.
    destruct IHm as (Ez & Ew & Hp3 & Hw3 & Hv3). split; [exact Ez|]. split; [exact Ew|]. split; [exact Hp3|].
    split; [by rewrite Hw3, Hw2|]. rewrite Hv3. cbn [flatten app]. by rewrite <- !app_assoc. }
  destruct (nullable r s) as [none|], (ask r s) as [read|m]; cbn [under flatten]; rewrite ?app_nil_r; auto.
  all: assert (Hp0 : presence_ok (if (0 <? depth)%nat then mark_object p else p) /\
      view (if (0 <? depth)%nat then mark_object p else p) = l ++ under depth key Object_ /\
      whole (if (0 <? depth)%nat then mark_object p else p) = whole p)
    by (destruct depth as [|d]; [done|]; destruct (mark_view p l d key Whole Hp Hv); done).
  all: destruct Hp0 as (Hp0 & Hv0 & Hw0); specialize (Hmap m _ _ Hp0 Hv0).
  all: match type of Hmap with (let '(x, f) := ?a in let '(y, p') := ?b in _) => destruct a as [z f]; destruct b as [w p3] end.
  all: destruct Hmap as (Ez & Ew & Hp3 & Hw3 & Hv3); split; [done|]; split; [done|]; split; [done|]; split; [congruence|].
  all: by rewrite Hv3, <- app_assoc.
Qed.
End Reads.

Section Presence.
Context {P : ProstLib} {R : Type} (r : Reader R).

Lemma recording_root (v : Value) (s : St r) :
  exists p f, read_recording r s v 0 new_presence = (read_value r s v, p) /\
    represents p f /\ whole p = false /\ f = (read_forest r s v).2.
Proof.
  pose proof (read_recording_ok r v s 0 new_presence [] []) as H.
  destruct (read_forest r s v) as [[x h] kids]. destruct (read_recording r s v 0 new_presence) as [y p].
  destruct H as (-> & -> & Hp & Hw & Hv); [constructor|done|]. exists p, kids. repeat split; done.
Qed.

(** Recording the keys of a body changes nothing of what is read; afterwards a query parameter is refused
    exactly where the body or a later path set its field, or set a field above it as a whole: the flat
    buffer decides as the tree of the keys does. *)
Theorem presence_blocks (v : Value) (s : St r) (set : list (list FieldDescriptor * bool)) (path : list FieldDescriptor) :
  let '(x, p) := read_recording r s v 0 new_presence in
  let p := foldl (fun p sf => record_path p sf.1 sf.2) p set in
  x = read_value r s v /\
  blocks p path = forest_blocks path (read_forest r s v).2 || existsb (fun sf => forest_blocks path (chain sf.1 sf.2)) set.
Proof.
  destruct (recording_root v s) as (p & f & -> & Hr & Hw & <-). split; [done|].
  assert (Hf : exists g, represents (foldl (fun p sf => record_path p sf.1 sf.2) p set) g /\
      whole (foldl (fun p sf => record_path p sf.1 sf.2) p set) = false /\
      forest_blocks path g = forest_blocks path f || existsb (fun sf => forest_blocks path (chain sf.1 sf.2)) set).
  { clear s v. revert p f Hr Hw. induction set as [|[q b] set IH]; intros p f Hr Hw; cbn [foldl existsb].
    { exists f. by rewrite orb_false_r. }
    destruct (record_path_represents p f q b Hr) as [Hr' Hw'].
    destruct (IH _ _ Hr') as (g & ? & ? & E); [cbn; congruence|]. exists g. split; [done|]. split; [done|].
    by rewrite E, forest_blocks_app, orb_assoc. }
  destruct Hf as (g & Hg & Hgw & <-). by rewrite (blocks_forest _ g path Hg), Hgw.
Qed.
End Presence.
