(* ===== verification/Numbers.v ===== *)
(** * Numbers of Rust's standard library, from text

    [FromStr] of the integers, of [bool] and of the floats, with the errors they
    display. A float is its IEEE 754 value, rounded to nearest even from the exact
    decimal. *)

From Stdlib Require Import Floats.SpecFloat.
From S2P Require Import Prelude Rust.

(** ** Integers *)

Inductive IntErrorKind := IntEmpty | InvalidDigit | PosOverflow | NegOverflow.

Definition int_error (e : IntErrorKind) : text :=
  match e with
  | IntEmpty => txt "cannot parse integer from empty string"
  | InvalidDigit => txt "invalid digit found in string"
  | PosOverflow => txt "number too large to fit in target type"
  | NegOverflow => txt "number too small to fit in target type"
  end.

(** Digit by digit, counting down for a negative number; a digit that is none is
    told before the overflow it would come after. *)
Fixpoint int_digits (negative : bool) (min max acc : Z) (s : text) : result Z IntErrorKind :=
  match s with
  | [] => Ok acc
  | c :: s' =>
      match digit_value c with
      | None => Err InvalidDigit
      | Some d =>
          let v := if negative then acc * 10 - d else acc * 10 + d in
          if (v <? min) || (max <? v) then Err (if negative then NegOverflow else PosOverflow)
          else int_digits negative min max v s'
      end
  end.

Definition parse_int (min max : Z) (s : text) : result Z IntErrorKind :=
  match s with
  | [] => Err IntEmpty
  | c :: r =>
      if (bool_decide (c = ch "+") || bool_decide (c = ch "-")) && bool_decide (r = []) then Err InvalidDigit
      else if decide (c = ch "+") then int_digits false min max 0 r
      else if decide (c = ch "-") then (if min <? 0 then int_digits true min max 0 r else int_digits false min max 0 s)
      else int_digits false min max 0 s
  end.

Definition I32_MIN : Z := -2147483648.
Definition I32_MAX : Z := 2147483647.
Definition I64_MIN : Z := -9223372036854775808.
Definition I64_MAX : Z := 9223372036854775807.

Definition parse_bool (s : text) : result bool text :=
  if decide (s = txt "true") then Ok true
  else if decide (s = txt "false") then Ok false
  else Err (txt "provided string was not `true` or `false`").

(** ** Floats *)

Section Float.
(** The precision of the format and its largest exponent. *)
Context (prec emax : Z).

(** The exact [num / den], rounded. *)
Definition round_ratio (negative : bool) (num den : Z) : spec_float :=
  if num =? 0 then S754_zero negative
  else
    let ex := Z.log2 num - Z.log2 den - 64 in
    let num := if ex <? 0 then num * 2 ^ (- ex) else num in
    let den := if ex <? 0 then den else den * 2 ^ ex in
    let q := num / den in
    let r := num mod den in
    let loc := if r =? 0 then loc_Exact else loc_Inexact (Z.compare (2 * r) den) in
    binary_round_aux prec emax negative q ex loc.

Definition decimal_value (negative : bool) (digits exponent : Z) : spec_float :=
  if 0 <=? exponent then round_ratio negative (digits * 10 ^ exponent) 1
  else round_ratio negative digits (10 ^ (- exponent)).

(** The longest prefix of digits, its value after [acc], how many there are, and
    what follows. *)
Fixpoint take_digits (acc : Z) (n : nat) (s : text) : Z * nat * text :=
  match s with
  | c :: s' =>
      match digit_value c with
      | Some d => take_digits (acc * 10 + d) (S n) s'
      | None => (acc, n, s)
      end
  | [] => (acc, n, [])
  end.

Definition take_sign (s : text) : bool * text :=
  match s with
  | c :: r => if decide (c = ch "-") then (true, r) else if decide (c = ch "+") then (false, r) else (false, s)
  | [] => (false, [])
  end.

(** An exponent: [e] or [E], a sign, a digit or more, and the end. *)
Definition take_exponent (s : text) : option Z :=
  match s with
  | [] => Some 0
  | c :: r =>
      if bool_decide (c = ch "e") || bool_decide (c = ch "E") then
        let '(negative, r) := take_sign r in
        match take_digits 0 0 r with
        | (v, S _, []) => Some (if negative then - v else v)
        | _ => None
        end
      else None
  end.

Definition parse_decimal (negative : bool) (s : text) : option spec_float :=
  let '(int, n, rest) := take_digits 0 0 s in
  let '(digits, fraction, rest) :=
    match rest with
    | c :: r => if decide (c = ch ".") then take_digits int 0 r else (int, 0%nat, rest)
    | [] => (int, 0%nat, [])
    end in
  if (n + fraction =? 0)%nat then None
  else let! e := take_exponent rest in Some (decimal_value negative digits (e - Z.of_nat fraction)).

(** [FromStr] of the format. *)
Definition parse_float (s : text) : result spec_float text :=
  match s with
  | [] => Err (txt "cannot parse float from empty string")
  | _ =>
      let '(negative, r) := take_sign s in
      if eq_ignore_ascii_case r (txt "inf") || eq_ignore_ascii_case r (txt "infinity") then Ok (S754_infinity negative)
      else if eq_ignore_ascii_case r (txt "nan") then Ok S754_nan
      else match parse_decimal negative r with
           | Some f => Ok f
           | None => Err (txt "invalid float literal")
           end
  end.
End Float.

Definition parse_f64_std (s : text) : result spec_float text := parse_float 53 1024 s.
Definition parse_f32_std (s : text) : result spec_float text := parse_float 24 128 s.

Definition is_finite (f : spec_float) : bool :=
  match f with S754_zero _ | S754_finite _ _ _ => true | _ => false end.

(** [f32::MAX], as an [f64]. *)
Definition F32_MAX : spec_float := S754_finite false 9007198717870080 75.
Definition F32_MIN : spec_float := S754_finite true 9007198717870080 75.

(** [as f32]. *)
Definition f32_of_f64 (f : spec_float) : spec_float :=
  match f with
  | S754_finite s m e => binary_normalize 24 128 (if s then Z.neg m else Z.pos m) e s
  | _ => f
  end.

Example parse_tenth : parse_f64_std (txt "0.1") = Ok (S754_finite false 7205759403792794 (-56)).
Proof. vm_compute. reflexivity. Qed.
Example parse_large : parse_f64_std (txt "-1.5e3") = Ok (S754_finite true 6597069766656000 (-42)).
Proof. vm_compute. reflexivity. Qed.
Example parse_huge : parse_f64_std (txt "1e400") = Ok (S754_infinity false).
Proof. vm_compute. reflexivity. Qed.
Example parse_f32_max : parse_f64_std (txt "340282346638528859811704183484516925440") = Ok F32_MAX.
Proof. vm_compute. reflexivity. Qed.
Example parse_f32_tenth : parse_f32_std (txt "0.1") = Ok (S754_finite false 13421773 (-27)).
Proof. vm_compute. reflexivity. Qed.
Example parse_f32_tiny : parse_f32_std (txt "1e-60") = Ok (S754_zero false).
Proof. vm_compute. reflexivity. Qed.
Example parse_i32_min : parse_int I32_MIN I32_MAX (txt "-2147483648") = Ok I32_MIN.
Proof. vm_compute. reflexivity. Qed.

(** What an integer parser accepts is in its range. *)
Lemma parse_int_range (min max : Z) (s : text) (n : Z) :
  min <= 0 <= max -> parse_int min max s = Ok n -> min <= n <= max.
Proof.
  intros H0. assert (Hd : forall neg acc s, min <= acc <= max -> int_digits neg min max acc s = Ok n -> min <= n <= max).
  { intros neg acc s'. revert acc. induction s' as [|c s' IH]; intros acc Ha; cbn [int_digits].
    { intros [= <-]. done. }
    destruct (digit_value c); [|done]. set (v := if neg then _ else _).
    destruct ((v <? min) || (max <? v)) eqn:E; [done|]. apply orb_false_iff in E as [? ?]. bool_simpl.
    apply IH. lia. }
  unfold parse_int. destruct s as [|c r]; [done|]. repeat case_match; try done; by apply Hd.
Qed.
