(* ===== verification/Slices.v ===== *)
(** * Slices of Rust's standard library

    Stable sorting by a text key, runs of equal keys, sorting by index and
    [partition_point], with what they do to a list. *)

From Stdlib Require Import Sorting.Sorted.
From S2P Require Import Prelude Rust.

(** The order of Rust's strings: byte by byte. *)
Fixpoint text_cmp (a b : text) : comparison :=
  match a, b with
  | [], [] => Eq
  | [], _ :: _ => Lt
  | _ :: _, [] => Gt
  | x :: a', y :: b' => match Z.compare (code x) (code y) with Eq => text_cmp a' b' | c => c end
  end.

Definition text_le (a b : text) : bool := match text_cmp a b with Gt => false | _ => true end.
Definition text_lt (a b : text) : bool := match text_cmp a b with Lt => true | _ => false end.

(** A stable sort by key. *)
Section StableSort.
Context {A : Type} (key : A -> text).
Fixpoint sort_insert (x : A) (l : list A) : list A :=
  match l with
  | [] => [x]
  | y :: l' => if text_le (key y) (key x) then y :: sort_insert x l' else x :: l
  end.
Definition sort_by (l : list A) : list A := foldl (fun l x => sort_insert x l) [] l.
End StableSort.

(** [chunk_by] of equal keys: the runs of a list. *)
Fixpoint chunk_by {A} (same : A -> A -> bool) (l : list A) : list (list A) :=
  match l with
  | [] => []
  | x :: l' =>
      match chunk_by same l' with
      | (y :: run) :: runs => if same x y then (x :: y :: run) :: runs else [x] :: (y :: run) :: runs
      | _ => [[x]]
      end
  end.

(** [sort_unstable] of items by their index. *)
Section IndexSort.
Context {A : Type} (index : A -> nat).
Fixpoint index_insert (x : A) (l : list A) : list A :=
  match l with [] => [x] | y :: l' => if (index x <=? index y)%nat then x :: l else y :: index_insert x l' end.
Definition sort_index (l : list A) : list A := foldr index_insert [] l.
End IndexSort.

(** [partition_point]: how many of a sorted list's first items satisfy [p]. *)
Fixpoint partition_point {A} (p : A -> bool) (l : list A) : nat :=
  match l with x :: l' => if p x then S (partition_point p l') else 0 | [] => 0 end.

(** * Lemmas *)

(** ** The order of texts *)

Lemma text_cmp_refl (a : text) : text_cmp a a = Eq.
Proof. induction a as [|x a IH]; cbn; [done|]. by rewrite Z.compare_refl. Qed.

Lemma code_inj (a b : ascii) : code a = code b -> a = b.
Proof.
  unfold code. intros H%N2Z.inj. rewrite <- (ascii_N_embedding a), <- (ascii_N_embedding b). by f_equal.
Qed.

Lemma text_cmp_eq (a b : text) : text_cmp a b = Eq <-> a = b.
Proof.
  split; [|intros ->; apply text_cmp_refl]. revert b.
  induction a as [|x a IH]; intros [|y b]; cbn; try done.
  destruct (Z.compare_spec (code x) (code y)) as [E| |]; [|done..]. intros H%IH. f_equal; [by apply code_inj|done].
Qed.

Lemma text_cmp_antisym (a b : text) : text_cmp b a = CompOpp (text_cmp a b).
Proof.
  revert b. induction a as [|x a IH]; intros [|y b]; cbn; try done.
  rewrite Z.compare_antisym. destruct (Z.compare (code x) (code y)); cbn; [apply IH|done..].
Qed.

Lemma text_le_trans (a b c : text) : text_le a b = true -> text_le b c = true -> text_le a c = true.
Proof.
  unfold text_le. revert b c. induction a as [|x a IH]; intros [|y b] [|z c]; cbn; try done.
  intros H1 H2. destruct (Z.compare_spec (code x) (code y)), (Z.compare_spec (code y) (code z)),
    (Z.compare_spec (code x) (code z)); try done; try lia. by apply (IH b).
Qed.

Lemma text_le_refl (a : text) : text_le a a = true.
Proof. unfold text_le. by rewrite text_cmp_refl. Qed.

Lemma text_le_total (a b : text) : text_le a b = false -> text_le b a = true.
Proof. unfold text_le. rewrite (text_cmp_antisym a b). by destruct (text_cmp a b). Qed.

Lemma text_le_antisym (a b : text) : text_le a b = true -> text_le b a = true -> a = b.
Proof.
  unfold text_le. rewrite (text_cmp_antisym a b). destruct (text_cmp a b) eqn:E; cbn; try done.
  intros _ _. by apply text_cmp_eq.
Qed.

Lemma text_lt_le (a b : text) : text_lt a b = text_le a b && negb (bool_decide (a = b)).
Proof.
  unfold text_lt, text_le. destruct (text_cmp a b) eqn:E; cbn.
  - apply text_cmp_eq in E. by rewrite bool_decide_true.
  - rewrite bool_decide_false; [done|]. intros H%text_cmp_eq. congruence.
  - done.
Qed.

(** ** Stable sorting *)

Section StableSortLemmas.
Context {A : Type} (key : A -> text).

Definition key_le (x y : A) : Prop := text_le (key x) (key y) = true.

Lemma key_le_trans (x y z : A) : key_le x y -> key_le y z -> key_le x z.
Proof. apply text_le_trans. Qed.

Lemma insert_permutation (x : A) (l : list A) : sort_insert key x l ≡ₚ x :: l.
Proof.
  induction l as [|y l IH]; cbn; [done|]. destruct (text_le _ _); [|done]. rewrite IH. by constructor.
Qed.

Lemma insert_sorted (x : A) (l : list A) : StronglySorted key_le l -> StronglySorted key_le (sort_insert key x l).
Proof.
  induction 1 as [|y l Hs IH Hy]; cbn; [repeat constructor|]. destruct (text_le (key y) (key x)) eqn:E.
  - constructor; [done|]. rewrite insert_permutation. by constructor.
  - apply text_le_total in E. constructor; [by constructor|]. constructor; [done|].
    eapply Forall_impl; [exact Hy|]. intros z Hz. by apply (key_le_trans x y z).
Qed.

(** A new item goes behind the ones of its key. *)
Lemma insert_filter (x : A) (l : list A) (k : text) :
  StronglySorted key_le l ->
  filter (fun y => key y = k) (sort_insert key x l) = filter (fun y => key y = k) l ++ (if decide (key x = k) then [x] else []).
Proof.
  induction 1 as [|y l Hs IH Hy]; cbn [sort_insert].
  { rewrite filter_cons, filter_nil. by case_match. }
  destruct (text_le (key y) (key x)) eqn:E.
  - rewrite !filter_cons, IH. by destruct (decide (key y = k)).
  - rewrite (filter_cons _ x). destruct (decide (key x = k)) as [Hx|Hx]; [|by rewrite app_nil_r].
    assert (Hnone : filter (fun y => key y = k) (y :: l) = []).
    { apply filter_none. intros z Hz Hk. assert (Hyz : key_le y z).
      { apply elem_of_cons in Hz as [->|Hz]; [apply text_le_refl|]. rewrite Forall_forall in Hy. by apply Hy. }
      unfold key_le in Hyz. rewrite Hk, <- Hx in Hyz. congruence. }
    by rewrite Hnone.
Qed.

Lemma sort_fold (l acc : list A) :
  StronglySorted key_le acc ->
  let r := foldl (fun l x => sort_insert key x l) acc l in
  StronglySorted key_le r /\ r ≡ₚ acc ++ l /\
  forall k, filter (fun y => key y = k) r = filter (fun y => key y = k) acc ++ filter (fun y => key y = k) l.
Proof.
  revert acc. induction l as [|x l IH]; intros acc Ha; cbn [foldl].
  { rewrite app_nil_r. split; [done|]. split; [done|]. intros k. by rewrite filter_nil, app_nil_r. }
  destruct (IH (sort_insert key x acc)) as (H1 & H2 & H3); [by apply insert_sorted|].
  split; [done|]. split.
  - rewrite H2, insert_permutation. cbn. by rewrite Permutation_middle.
  - intros k. rewrite H3, insert_filter, filter_cons, <- app_assoc by done. f_equal. by destruct (decide (key x = k)).
Qed.

Lemma sort_by_ok (l : list A) :
  StronglySorted key_le (sort_by key l) /\ sort_by key l ≡ₚ l /\
  forall k, filter (fun y => key y = k) (sort_by key l) = filter (fun y => key y = k) l.
Proof. apply (sort_fold l []). constructor. Qed.
End StableSortLemmas.

(** ** Runs *)

Section Runs.
Context {A : Type} (key : A -> text).
Let same (x y : A) : bool := bool_decide (key x = key y).

Lemma chunk_concat (l : list A) : mjoin (chunk_by same l) = l.
Proof.
  induction l as [|x l IH]; cbn; [done|]. destruct (chunk_by same l) as [|[|y run] runs] eqn:E; cbn in *.
  - f_equal. exact IH.
  - destruct l as [|z l]; [done|]. exfalso. cbn in E.
    destruct (chunk_by same l) as [|[|w r] rs]; cbn in E; try congruence. by destruct (same z w).
  - destruct (same x y); cbn; f_equal; exact IH.
Qed.

Lemma chunk_nonnil (l : list A) : Forall (fun run => run <> []) (chunk_by same l).
Proof.
  induction l as [|x l IH]; cbn; [done|]. destruct (chunk_by same l) as [|[|y run] runs].
  - by repeat constructor.
  - by repeat constructor.
  - inversion IH; subst. destruct (same x y); by repeat constructor.
Qed.

(** The runs of a sorted list: each is all the items of its key, in order, and no
    two have the same. *)
Definition run_of (l run : list A) (k : text) : Prop := run <> [] /\ run = filter (fun y => key y = k) l.

Lemma chunk_sorted (l : list A) :
  StronglySorted (key_le key) l ->
  exists ks, NoDup ks /\ (forall k, k ∈ ks <-> exists x, x ∈ l /\ key x = k) /\
    Forall2 (run_of l) (chunk_by same l) ks.
Proof.
  induction 1 as [|x l Hs IH Hx].
  { exists []. split; [constructor|]. split; [|constructor]. intros k. split; [by intros ?%elem_of_nil|].
    by intros (x & ?%elem_of_nil & _). }
  destruct IH as (ks & Hd & Hk & HF). cbn [chunk_by].
  assert (Hother : forall run k, k <> key x -> run_of l run k -> run_of (x :: l) run k).
  { intros run k Hne [Hn ->]. split; [done|]. by rewrite filter_cons, decide_False by congruence. }
  assert (Hlift : forall runs ks, (forall k, k ∈ ks -> k <> key x) -> Forall2 (run_of l) runs ks ->
      Forall2 (run_of (x :: l)) runs ks).
  { clear -Hother. intros runs ks Hne HF. induction HF as [|r k runs ks Hr HF IH]; constructor.
    - apply Hother; [apply Hne; by left|done].
    - apply IH. intros k' Hk'. apply Hne. by right. }
  destruct (chunk_by same l) as [|run0 runs] eqn:E.
  { inversion HF; subst. assert (l = []) as ->.
    { rewrite <- (chunk_concat l), E. done. }
    exists [key x]. split; [apply NoDup_singleton|]. split.
    - intros k. rewrite list_elem_of_singleton. split; [intros ->; exists x; split; [by left|done]|].
      by intros (y & ->%list_elem_of_singleton & <-).
    - constructor; [|constructor]. split; [done|]. by rewrite filter_cons, decide_True. }
  inversion HF as [|? k0 ? ks' [Hn0 E0] HF']; subst ks. subst run0.
  destruct (filter (fun y => key y = k0) l) as [|y run] eqn:Ef; [done|].
  assert (Hy : y ∈ filter (fun y => key y = k0) l) by (rewrite Ef; by left).
  apply list_elem_of_filter in Hy as [Hyk Hyl]. rewrite NoDup_cons in Hd. destruct Hd as [Hk0 Hd].
  unfold same at 1. case_bool_decide as Hxy.
  - exists (k0 :: ks'). split; [by constructor|]. split.
    + intros k. rewrite (Hk k). split.
      * intros (z & Hz & Hzk). exists z. split; [by right|done].
      * intros (z & [->|Hz]%elem_of_cons & Hzk); [exists y; split; [done|congruence]|by exists z].
    + constructor.
      * split; [done|]. rewrite filter_cons, decide_True by congruence. by rewrite Ef.
      * apply Hlift; [|done]. intros k Hin ->. apply Hk0. congruence.
  - (* a new key: every later one is larger *)
    assert (Hnew : forall k, k ∈ k0 :: ks' -> k <> key x).
    { intros k Hin ->. apply Hk in Hin as (z & Hz & Hzk).
      (* y is first among the keys of l, so x <= y <= z = x *)
      assert (Hl : exists l', l = y :: l').
      { pose proof (chunk_concat l) as Hc. rewrite E in Hc. cbn in Hc. rewrite <- Hc. by eexists. }
      destruct Hl as [l' ->]. apply Hxy. rewrite Forall_cons in Hx. destruct Hx as [Hxy' _].
      apply text_le_antisym; [exact Hxy'|]. apply elem_of_cons in Hz as [->|Hz].
      - rewrite <- Hzk. apply text_le_refl.
      - rewrite <- Hzk. inversion Hs as [|? ? _ Hy']; subst. rewrite Forall_forall in Hy'. by apply Hy'. }
    exists (key x :: k0 :: ks'). split; [|split].
    + constructor; [|by constructor]. intros Hin. by destruct (Hnew _ Hin).
    + intros k. rewrite elem_of_cons, (Hk k). split.
      * intros [->|(z & Hz & Hzk)]; [exists x; split; [by left|done]|exists z; split; [by right|done]].
      * intros (z & [->|Hz]%elem_of_cons & Hzk); [by left|right; by exists z].
    + constructor.
      * split; [done|]. rewrite filter_cons, decide_True by done. f_equal. symmetry. apply filter_none.
        intros z Hz Hzk. destruct (Hnew (key x)); [|done]. apply Hk. by exists z.
      * apply Hlift; [|done]. intros k Hin. by apply Hnew.
Qed.
End Runs.

(** The items of one key, by two binary searches. *)
Lemma partition_key {A} (key : A -> text) (l : list A) (c : text) :
  StronglySorted (key_le key) l ->
  let from := partition_point (fun x => text_lt (key x) c) l in
  let to := partition_point (fun x => text_le (key x) c) l in
  take (to - from) (drop from l) = filter (fun x => key x = c) l.
Proof.
  induction 1 as [|x l Hs IH Hx]; cbn [partition_point]; [done|].
  rewrite filter_cons. destruct (text_lt (key x) c) eqn:Elt.
  - rewrite text_lt_le in Elt. bool_simpl. rewrite H. cbn. rewrite decide_False by done. exact IH.
  - assert (H0 : forall y, y ∈ l -> text_lt (key y) c = false).
    { intros y Hy. rewrite Forall_forall in Hx. specialize (Hx y Hy). rewrite text_lt_le in Elt |- *.
      destruct (text_le (key y) c) eqn:Ey; [|done]. cbn in *. unfold key_le in Hx.
      rewrite (text_le_trans _ _ _ Hx Ey) in Elt. cbn in Elt. bool_simpl. apply negb_false_iff, bool_decide_eq_true.
      apply text_le_antisym; [done|]. rewrite <- Elt. exact Hx. }
    assert (Hf : partition_point (fun y => text_lt (key y) c) l = 0%nat).
    { destruct l as [|y l]; [done|]. cbn. by rewrite H0 by by left. }
    cbn zeta in IH. rewrite Hf, Nat.sub_0_r in IH. cbn [drop] in *. rewrite Nat.sub_0_r.
    destruct (text_le (key x) c) eqn:Ele.
    + rewrite text_lt_le, Ele in Elt. cbn in Elt. bool_simpl. rewrite decide_True by done. cbn. f_equal. exact IH.
    + rewrite decide_False; [|intros Hc; rewrite Hc, text_le_refl in Ele; done]. cbn. symmetry. apply filter_none.
      intros y Hy Hc. rewrite Forall_forall in Hx. specialize (Hx y Hy). unfold key_le in Hx. congruence.
Qed.

(** ** Sorting by index *)

Section IndexSortLemmas.
Context {A : Type} (index : A -> nat).

Lemma sort_insert_ok (x : A) (l : list A) :
  index_insert index x l ≡ₚ x :: l /\
  (StronglySorted (fun a b => (index a <= index b)%nat) l ->
   StronglySorted (fun a b => (index a <= index b)%nat) (index_insert index x l)).
Proof.
  induction l as [|y l [IH1 IH2]]; cbn; [split; [done|repeat constructor]|].
  destruct (Nat.leb_spec (index x) (index y)) as [Hle|Hlt].
  - split; [done|]. intros Hs. constructor; [done|]. inversion Hs as [|? ? _ Hy]; subst. constructor; [done|].
    eapply Forall_impl; [exact Hy|]. cbn. lia.
  - split; [rewrite IH1; by constructor|]. intros Hs. inversion Hs as [|? ? Hs' Hy]; subst.
    constructor; [by apply IH2|]. rewrite IH1. constructor; [lia|done].
Qed.

Lemma sort_index_ok (l : list A) :
  sort_index index l ≡ₚ l /\ StronglySorted (fun a b => (index a <= index b)%nat) (sort_index index l).
Proof.
  induction l as [|x l [IH1 IH2]]; cbn; [split; [done|constructor]|].
  destruct (sort_insert_ok x (sort_index index l)) as [H1 H2]. split; [by rewrite H1, IH1|auto].
Qed.

(** Sorting puts items of distinct indices back in their order. *)
Lemma sort_index_order (l l' : list A) :
  l ≡ₚ l' -> StronglySorted (fun a b => (index a < index b)%nat) l' -> sort_index index l = l'.
Proof.
  intros Hp Hs'. destruct (sort_index_ok l) as [Hp' Hs]. apply (fun h => transitivity h Hp) in Hp'. revert Hp' Hs.
  generalize (sort_index index l). clear Hp l. induction Hs' as [|x l' Hl IH Hx]; intros s Hp Hs.
  - by apply Permutation_nil_r in Hp.
  - destruct s as [|y s]; [by apply Permutation_nil_l in Hp|]. inversion Hs as [|? ? Hss Hy]; subst.
    assert (Hyx : y = x).
    { assert (Hyin : y ∈ x :: l') by (rewrite <- Hp; by left). apply elem_of_cons in Hyin as [->|Hyin]; [done|].
      assert (Hxin : x ∈ y :: s) by (rewrite Hp; by left). apply elem_of_cons in Hxin as [->|Hxin]; [done|].
      rewrite Forall_forall in Hx, Hy. specialize (Hx y Hyin). specialize (Hy x Hxin). lia. }
    subst y. f_equal. apply IH; [|done]. by apply Permutation_cons_inv in Hp.
Qed.
End IndexSortLemmas.

(** Places of a list, in order. *)
Lemma imap_sorted {A} (l : list A) (n : nat) :
  StronglySorted (fun a b : nat * A => (a.1 < b.1)%nat) (imap (fun i x => ((n + i)%nat, x)) l).
Proof.
  revert n. induction l as [|x l IH]; intros n; cbn; constructor.
  - rewrite (imap_ext _ (fun i x => ((S n + i)%nat, x))) by (intros; cbn; f_equal; lia). apply IH.
  - apply Forall_forall. intros [i y] (j & z & [= -> ->] & _)%elem_of_lookup_imap. cbn. lia.
Qed.

Lemma sorted_filter {A} (R : A -> A -> Prop) (P : A -> Prop) `{!forall x, Decision (P x)} (l : list A) :
  StronglySorted R l -> StronglySorted R (filter P l).
Proof.
  induction 1 as [|x l Hs IH Hx]; [constructor|]. rewrite filter_cons. destruct (decide (P x)); [|done].
  constructor; [done|]. rewrite Forall_forall in *. intros y Hy. apply Hx. by apply list_elem_of_filter in Hy as [_ ?].
Qed.

(** Two parts of a list that share nothing. *)
Lemma filter_split {A} (P Q : A -> Prop) `{!forall x, Decision (P x)} `{!forall x, Decision (Q x)} (l : list A) :
  (forall x, P x -> ~ Q x) -> filter P l ++ filter Q l ≡ₚ filter (fun x => P x \/ Q x) l.
Proof.
  intros Hd. induction l as [|x l IH]; [done|]. rewrite !filter_cons.
  destruct (decide (P x)) as [Hp|Hp], (decide (Q x)) as [Hq|Hq].
  - by destruct (Hd x).
  - rewrite decide_True by auto. cbn. by rewrite IH.
  - rewrite decide_True by auto. by rewrite <- Permutation_middle, IH.
  - rewrite decide_False by tauto. done.
Qed.

Lemma sublist_fmap {A B} (f : A -> B) (l k : list A) : l `sublist_of` k -> (f <$> l) `sublist_of` (f <$> k).
Proof. induction 1; cbn; by constructor. Qed.
