(* ===== verification/Request.v ===== *)
(** * Request messages ([src/transcode/request.rs])

    The gRPC request message built from a request's path, body and query: each
    string read as a value of its field, path over body over query. The JSON and
    form parsers, base64 and the reading of a JSON form by [prost-reflect] are the
    interface [BodyLib]. The outer [None] of an operation is a panic. *)

From Stdlib Require Import Floats.SpecFloat.
From S2P Require Import Prelude Rust Json Numbers Slices Protobuf Presence.

(** ** The crates *)

Inductive base64_error :=
| InvalidByte (at_ : nat) (b : ascii)
| OtherBase64.

Class BodyLib {P : ProstLib} : Type := {
  (** [DynamicMessage::deserialize]: the reader of a message type, and the message
      it reads. *)
  Read : Type;
  reader : Reader Read;
  start_of : MessageDescriptor -> St reader;
  message_read : Read -> DynamicMessage;
  (** ... from a string alone. *)
  message_from_str : MessageDescriptor -> text -> result DynamicMessage text;
  (** [serde_json::Deserializer] over a whole body, and [from_slice]: a value with
      its members as written, and as a map. *)
  json_doc : text -> result Value text;
  json_value : text -> option Value;
  (** Writing a message as ProtoJSON. *)
  json_write : DynamicMessage -> result unit text;
  (** [url::form_urlencoded::parse]. *)
  form_parse : text -> list (text * text);
  (** The [base64] engines with padding and trailing bits let through. *)
  base64_standard : text -> result text base64_error;
  base64_url_safe : text -> result text base64_error;
  base64_display : base64_error -> text;
}.

(** ** Mappings and bodies *)

Inductive BodyMapping :=
| MapNone
| MapRoot
| MapField (name : text).

#[export] Instance BodyMapping_eq : EqDecision BodyMapping.
Proof. solve_decision. Defined.

Definition mapping_parse (raw : text) : BodyMapping :=
  if decide (raw = []) then MapNone else if decide (raw = txt "*") then MapRoot else MapField raw.

Inductive RBody :=
| Absent
| JsonBody (bytes : text)
| FormBody (bytes : text).

Definition body_new (content_type : option text) (bytes : text) : RBody :=
  match content_type with
  | Some ct => if starts_with (txt "application/x-www-form-urlencoded") ct then FormBody bytes else JsonBody bytes
  | None => JsonBody bytes
  end.

(** The path parameters: dotted keys and their values. *)
Abbreviation params := (list (text * text)).

(** Whether a source overwrites. *)
Inductive Binding_ := BSet | BFill.

#[export] Instance Binding_eq : EqDecision Binding_.
Proof. solve_decision. Defined.

Section Request.
Context {P : ProstLib} {B : BodyLib}.

(** ** Values from strings *)

Definition special_float (raw : text) : option spec_float :=
  if decide (raw = txt "Infinity") then Some (S754_infinity false)
  else if decide (raw = txt "-Infinity") then Some (S754_infinity true)
  else if decide (raw = txt "NaN") then Some S754_nan
  else None.

Definition parse_f64 (raw : text) : result spec_float text :=
  match special_float raw with
  | Some special => Ok special
  | None =>
      match parse_f64_std raw with
      | Ok value => if is_finite value then Ok value else Err (txt "value out of range, or not a decimal number")
      | Err e => Err e
      end
  end.

Definition parse_f32 (raw : text) : result spec_float text :=
  let? wide := parse_f64 raw in
  if is_finite wide && (SFltb wide F32_MIN || SFltb F32_MAX wide) then Err (txt "float value out of range")
  else Ok (f32_of_f64 wide).

Definition decode_base64 (raw : text) : result text text :=
  match base64_standard raw with
  | Ok buf => Ok buf
  | Err (InvalidByte _ b as e) =>
      if bool_decide (b = ch "-") || bool_decide (b = ch "_") then
        match base64_url_safe raw with
        | Ok buf => Ok buf
        | Err e => Err (txt "invalid base64: " ++ base64_display e)
        end
      else Err (txt "invalid base64: " ++ base64_display e)
  | Err e => Err (txt "invalid base64: " ++ base64_display e)
  end.

Definition map_result {A C} (f : A -> C) (r : result A text) : result C text :=
  match r with Ok a => Ok (f a) | Err e => Err e end.

(** [raw.parse()] of an integer type. *)
Definition parse_num (min max : Z) (raw : text) : result Z text :=
  match parse_int min max raw with Ok n => Ok n | Err e => Err (int_error e) end.

Definition scalar (kind : Kind) (raw : text) : result PValue text :=
  match kind with
  | KDouble => map_result PF64 (parse_f64 raw)
  | KFloat => map_result PF32 (parse_f32 raw)
  | KInt32 | KSint32 | KSfixed32 => map_result PI32 (parse_num I32_MIN I32_MAX raw)
  | KInt64 | KSint64 | KSfixed64 => map_result PI64 (parse_num I64_MIN I64_MAX raw)
  | KUint32 | KFixed32 => map_result PU32 (parse_num 0 U32_MAX raw)
  | KUint64 | KFixed64 => map_result PU64 (parse_num 0 U64_MAX raw)
  | KBool => map_result PBool (parse_bool raw)
  | KString => Ok (PString raw)
  | KBytes => map_result PBytes (decode_base64 raw)
  | KEnum desc =>
      match ed_value_by_name desc raw with
      | Some n => Ok (PEnumNumber n)
      | None => Err (txt "unrecognized enum value '" ++ raw ++ txt "'")
      end
  | KMessage desc => map_result PMessage (message_from_str desc raw)
  end.

(** [field_value]; no value at all is a panic. *)
Definition field_value (field : FieldDescriptor) (raw : list text) : option (result PValue text) :=
  let invalid r :=
    match r with
    | Ok v => Ok v
    | Err e => Err (txt "invalid value for field `" ++ fd_name field ++ txt "`: " ++ e)
    end in
  if fd_is_map field then Some (invalid (Err (txt "a map field cannot be set from a string")))
  else if fd_is_list field then Some (invalid (map_result PList (collect_results (scalar (fd_kind field)) raw)))
  else let! raw := last raw in Some (invalid (scalar (fd_kind field) raw)).

(** ** Assigning *)

Definition check_oneof (message : DynamicMessage) (field : FieldDescriptor) : result unit text :=
  match fd_oneof field with
  | None => Ok tt
  | Some (name, fields) =>
      if existsb (fun other => negb (fd_number other =? fd_number field) && dm_has message other) fields
      then Err (txt "multiple fields provided for oneof '" ++ name ++ txt "'")
      else Ok tt
  end.

(** The walk of [assign] down to the holder. [get_field_mut] makes an unset parent
    and hands it out, so the message is written back whatever becomes of it. *)
Fixpoint assign_at (holder : DynamicMessage) (parents : list FieldDescriptor) (field : FieldDescriptor)
    (value : PValue) : option (DynamicMessage * result unit text) :=
  match parents with
  | [] =>
      match check_oneof holder field with
      | Err e => Some (holder, Err e)
      | Ok _ => Some (dm_set holder field value, Ok tt)
      end
  | parent :: parents' =>
      match check_oneof holder parent with
      | Err e => Some (holder, Err e)
      | Ok _ =>
          match dm_get holder parent with
          | PMessage inner =>
              let! r := assign_at inner parents' field value in
              Some (dm_set holder parent (PMessage r.1), r.2)
          | _ => None
          end
      end
  end.

(** The message and what is recorded as set, after an operation on them. *)
Record Build := mkBuild { b_message : DynamicMessage; b_presence : option Presence }.

Definition with_message (b : Build) (m : DynamicMessage) : Build := mkBuild m (b_presence b).

Definition split_last {A} (l : list A) : option (A * list A) :=
  match reverse l with [] => None | x :: l' => Some (x, reverse l') end.

Definition assign (b : Build) (path : list FieldDescriptor) (values : list text) (binding : Binding_)
    : option (Build * result unit text) :=
  if bool_decide (binding = BFill) && match b_presence b with Some p => blocks p path | None => false end
  then Some (b, Ok tt)
  else
    let! fp := split_last path in
    let! value := field_value fp.1 values in
    match value with
    | Err e => Some (b, Err e)
    | Ok value =>
        let! r := assign_at (b_message b) fp.2 fp.1 value in
        match r.2 with
        | Err e => Some (with_message b r.1, Err e)
        | Ok _ =>
            Some (mkBuild r.1
              (if bool_decide (binding = BSet) then (fun p => record_path p path false) <$> b_presence b
               else b_presence b), Ok tt)
        end
    end.

(** ** Keys and fields *)

Definition field_named (desc : MessageDescriptor) (name : text) : option (FieldDescriptor * bool) :=
  match md_field_by_name desc name with
  | Some field => Some (field, false)
  | None => (fun field => (field, true)) <$> md_field_by_json_name desc name
  end.

(** Where the keys of a source start. *)
Record Start := mkStart { s_root : MessageDescriptor; s_inside : bool; s_prefix : option FieldDescriptor }.

Record Resolved := mkResolved { rs_inside : bool; rs_aliased : bool }.

(** The loop of [resolve] over the segments but the last, then the last. *)
Fixpoint resolve_segments (desc : MessageDescriptor) (leaf : text) (segments : list text) (inside aliased : bool)
    (path : list FieldDescriptor) : option (list FieldDescriptor * Resolved) :=
  let! fa := field_named desc leaf in
  match segments with
  | [] => Some (path ++ [fa.1], mkResolved inside (aliased || fa.2))
  | next :: segments' =>
      match fd_kind fa.1 with
      | KMessage inner =>
          if fd_is_list fa.1 || fd_is_map fa.1 then None
          else resolve_segments inner next segments' (inside || has_special_json inner) (aliased || fa.2)
                 (path ++ [fa.1])
      | _ => None
      end
  end.

Definition resolve (start : Start) (key : text) : option (list FieldDescriptor * Resolved) :=
  match split (ch ".") key with
  | leaf :: segments =>
      match s_prefix start with
      | Some field =>
          match fd_kind field with
          | KMessage inner => resolve_segments inner leaf segments (s_inside start) false [field]
          | _ => None
          end
      | None => resolve_segments (s_root start) leaf segments (s_inside start) false []
      end
  | [] => None
  end.

(** [bind] of one path parameter. *)
Definition bind (b : Build) (start : Start) (key : text) (values : list text) (binding : Binding_)
    : option (Build * result bool text) :=
  match resolve start key with
  | None => Some (b, Ok false)
  | Some (path, resolved) =>
      let! r := assign b path values binding in
      Some (r.1, map_result (fun _ => rs_inside resolved) r.2)
  end.

Fixpoint covers_from (segments : list text) (path : list FieldDescriptor) : bool :=
  match segments with
  | [] => true
  | segment :: segments' =>
      match path with
      | f :: path' =>
          (bool_decide (segment = fd_name f) || bool_decide (segment = fd_json_name f)) && covers_from segments' path'
      | [] => false
      end
  end.

Definition key_covers (bound : text) (path : list FieldDescriptor) : bool := covers_from (split (ch ".") bound) path.

Definition bind_resolved (b : Build) (path : list FieldDescriptor) (values : list text) (binding : Binding_)
    (path_params : option params) : option (Build * result bool text) :=
  if match path_params with Some bound => existsb (fun kv => key_covers kv.1 path) bound | None => false end
  then Some (b, Ok false)
  else
    let! r := assign b path values binding in
    Some (r.1, map_result (fun _ => true) r.2).
End Request.

(** * Theorems *)

Class BodyLaws {P : ProstLib} (B : BodyLib) : Prop := {
  from_str_descriptor d s m : message_from_str d s = Ok m -> dm_descriptor m = d;
  read_descriptor d v x : read_value reader (start_of d) v = Ok x -> dm_descriptor (message_read x) = d;
}.

Section Paths.
Context {P : ProstLib} {PL : ProstLaws P} {B : BodyLib} {BL : BodyLaws B}.

(** ** Paths of fields *)

(** A singular message field, and the type of its message. *)
Definition singular_message (f : FieldDescriptor) (inner : MessageDescriptor) : Prop :=
  fd_kind f = KMessage inner /\ fd_is_list f = false /\ fd_is_map f = false.

(** Fields one below the other, from a type. *)
Fixpoint path_of (d : MessageDescriptor) (path : list FieldDescriptor) : Prop :=
  match path with
  | [] => False
  | [f] => f ∈ md_fields d
  | f :: rest => f ∈ md_fields d /\ exists inner, singular_message f inner /\ path_of inner rest
  end.

(** The value at a path. *)
Fixpoint get_at (m : DynamicMessage) (path : list FieldDescriptor) : option PValue :=
  match path with
  | [] => None
  | [f] => Some (dm_get m f)
  | f :: rest => match dm_get m f with PMessage inner => get_at inner rest | _ => None end
  end.

Lemma get_at_cons (m : DynamicMessage) (f : FieldDescriptor) (rest : list FieldDescriptor) :
  rest <> [] -> get_at m (f :: rest) = match dm_get m f with PMessage inner => get_at inner rest | _ => None end.
Proof. by destruct rest. Qed.

(** Neither path is the other, or one above it: they part at some field. *)
Fixpoint apart (p q : list FieldDescriptor) : Prop :=
  match p, q with
  | f :: p', g :: q' => f <> g \/ (f = g /\ apart p' q')
  | _, _ => False
  end.

Lemma scalar_valid (kind : Kind) (raw : text) (v : PValue) : scalar kind raw = Ok v -> kind_valid kind v.
Proof.
  unfold scalar. destruct kind as [| | | | | | | | | | | | | | |d|e];
    try (match goal with |- map_result _ ?r = _ -> _ => destruct r; cbn; [intros [= <-]; done|done] end).
  - by intros [= <-].
  - destruct (message_from_str d raw) as [m|] eqn:E; cbn; [|done]. intros [= <-]. cbn. by apply from_str_descriptor in E.
  - destruct (ed_value_by_name e raw); [by intros [= <-]|done].
Qed.

Lemma scalars_valid (kind : Kind) (raws : list text) (vs : list PValue) :
  collect_results (scalar kind) raws = Ok vs -> Forall (kind_valid kind) vs.
Proof.
  revert vs. induction raws as [|raw raws IH]; intros vs; cbn; [by intros [= <-]|].
  destruct (scalar kind raw) as [v|] eqn:E; cbn; [|done].
  destruct (collect_results (scalar kind) raws) as [ws|]; cbn; [|done]. intros [= <-].
  constructor; [by apply scalar_valid in E|by apply IH].
Qed.

Lemma field_value_ok (f : FieldDescriptor) (raws : list text) :
  raws <> [] -> exists r, field_value f raws = Some r /\ forall v, r = Ok v -> field_valid f v.
Proof.
  intros Hr. unfold field_value, field_valid. destruct (fd_is_map f); [by eexists|]. destruct (fd_is_list f).
  - eexists. split; [done|]. intros v. destruct (collect_results _ _) as [vs|] eqn:E; cbn; [|done].
    intros [= <-]. split; [done|]. exists vs. split; [done|]. by apply scalars_valid in E.
  - destruct (last raws) as [raw|] eqn:El; [|by apply last_None in El]. cbn. eexists. split; [done|].
    intros v. destruct (scalar _ raw) as [w|] eqn:E; cbn; [|done]. intros [= <-]. split; [done|]. by apply scalar_valid in E.
Qed.

(** ** Assigning *)

Lemma check_oneof_ok (m : DynamicMessage) (f g : FieldDescriptor) :
  check_oneof m f = Ok tt -> rivals f g -> dm_has m g = false.
Proof.
  unfold check_oneof. intros H (name & fields & E & Hg & Hn). rewrite E in H.
  destruct (existsb _ fields) eqn:Ee; [done|]. apply existsb_false_Forall in Ee. rewrite Forall_forall in Ee.
  specialize (Ee g Hg). cbn in Ee. apply andb_false_iff in Ee as [Ee|Ee]; [|done].
  apply negb_false_iff, Z.eqb_eq in Ee. congruence.
Qed.

Lemma check_oneof_unset (m : DynamicMessage) (f : FieldDescriptor) :
  (forall g, dm_has m g = false) -> check_oneof m f = Ok tt.
Proof.
  intros H. unfold check_oneof. destruct (fd_oneof f) as [[name fields]|]; [|done].
  assert (existsb (fun other => negb (fd_number other =? fd_number f) && dm_has m other) fields = false) as ->; [|done].
  apply existsb_false_Forall, Forall_forall. intros g _. by rewrite H, andb_false_r.
Qed.

Lemma oneof_cases (m : DynamicMessage) (f : FieldDescriptor) :
  check_oneof m f = Ok tt \/ exists e, check_oneof m f = Err e.
Proof. destruct (check_oneof m f) as [[]|e]; eauto. Qed.

Lemma parent_valid (f : FieldDescriptor) (inner : MessageDescriptor) (m : DynamicMessage) :
  singular_message f inner -> dm_descriptor m = inner -> field_valid f (PMessage m).
Proof. intros (Hk & Hl & Hm) <-. unfold field_valid. rewrite Hk, Hl, Hm. done. Qed.

(** In a message with nothing set no assignment fails. *)
Lemma assign_new (parents : list FieldDescriptor) (d : MessageDescriptor) (field : FieldDescriptor) (v : PValue) :
  path_of d (parents ++ [field]) ->
  exists m', assign_at (dm_new d) parents field v = Some (m', Ok tt).
Proof.
  revert d. induction parents as [|parent parents IH]; intros d Hp; cbn [assign_at app] in *.
  - rewrite check_oneof_unset by apply new_has. eauto.
  - rewrite check_oneof_unset by apply new_has.
    assert (Hp' : parent ∈ md_fields d /\ exists inner, singular_message parent inner /\ path_of inner (parents ++ [field]))
      by (destruct parents; exact Hp).
    destruct Hp' as (Hin & inner & (Hk & Hl & Hm) & Hrest).
    rewrite (get_unset_message (dm_new d) parent inner) by (rewrite ?new_descriptor, ?new_has; done).
    destruct (IH inner Hrest) as (m' & ->). cbn. eauto.
Qed.

Lemma path_cons (d : MessageDescriptor) (f : FieldDescriptor) (rest : list FieldDescriptor) :
  path_of d (f :: rest) -> f ∈ md_fields d /\
    (rest = [] \/ exists inner, singular_message f inner /\ path_of inner rest).
Proof. destruct rest; cbn; [auto|]. intros (? & inner & ?). eauto. Qed.

(** An assignment at a path: it leaves the message as it was, or sets the value
    there and nothing at any path apart from it. *)
Lemma assign_at_ok (parents : list FieldDescriptor) (m : DynamicMessage) (field : FieldDescriptor) (v : PValue) :
  path_of (dm_descriptor m) (parents ++ [field]) -> field_valid field v ->
  exists m' r, assign_at m parents field v = Some (m', r) /\
    match r with
    | Err _ => m' = m
    | Ok _ =>
        dm_descriptor m' = dm_descriptor m /\ get_at m' (parents ++ [field]) = Some v /\
        forall q, path_of (dm_descriptor m) q -> apart q (parents ++ [field]) -> get_at m' q = get_at m q
    end.
Proof.
  revert m. induction parents as [|parent parents IH]; intros m Hp Hv; cbn [assign_at app] in *.
  - destruct (oneof_cases m field) as [Ho|[e Ho]]; rewrite Ho; eexists _, _; split; try done; cbn.
    split; [by rewrite set_descriptor|]. split; [by rewrite get_set|].
    intros [|g q] Hq Ha; [done|]. destruct Ha as [Hne|[_ Ha]]; [|by destruct q].
    apply path_cons in Hq as [Hg _]. cbn. rewrite get_set_other; try done.
    destruct (Z.eq_dec (fd_number g) (fd_number field)) as [En|En].
    + left. intros (? & ? & _ & _ & Hn). by destruct Hn.
    + destruct (fd_oneof field) as [[name fields]|] eqn:Eo; [|left; intros (? & ? & ? & _); congruence].
      destruct (dm_has m g) eqn:Eh; [left|by right]. intros Hr. pose proof (check_oneof_ok m field g Ho Hr). congruence.
  - assert (Hp' : parent ∈ md_fields (dm_descriptor m) /\
        exists inner, singular_message parent inner /\ path_of inner (parents ++ [field]))
      by (destruct parents; exact Hp).
    destruct Hp' as (Hin & inner & Hs & Hrest). pose proof Hs as (Hk & Hl & Hm).
    destruct (oneof_cases m parent) as [Ho|[e Ho]]; rewrite Ho; [|eexists _, _; split; done].
    destruct (get_message m parent inner) as (mi & Hg & Hd); try done. rewrite Hg.
    destruct (IH mi) as (mi' & r & E & Hr); [by rewrite Hd|done|]. rewrite E. cbn [mbind option_bind fst snd].
    eexists _, r. split; [done|]. destruct r as [[]|e].
    + destruct Hr as (Hd' & Hgv & Hother).
      assert (Hvalid : field_valid parent (PMessage mi')) by (apply (parent_valid parent inner); [done|congruence]).
      split; [by rewrite set_descriptor|]. split.
      * assert (Hget : get_at (dm_set m parent (PMessage mi')) (parent :: parents ++ [field]) = get_at mi' (parents ++ [field])).
        { cbn. rewrite get_set by done. by destruct parents. }
        by rewrite Hget.
      * intros [|g q] Hq Ha; [done|]. apply path_cons in Hq as [Hgin Hq].
        destruct Ha as [Hne|[-> Ha]].
        -- assert (Hsame : dm_get (dm_set m parent (PMessage mi')) g = dm_get m g).
           { apply get_set_other; try done. destruct (dm_has m g) eqn:Eh; [left|by right].
             intros Hrv. pose proof (check_oneof_ok m parent g Ho Hrv). congruence. }
           cbn. by rewrite Hsame.
        -- destruct Hq as [->|(inner' & Hs' & Hq)]; [by destruct parents|].
           assert (inner' = inner) as -> by (destruct Hs' as [Hk' _]; congruence).
           destruct q as [|h q]; [done|]. rewrite !get_at_cons, get_set, Hg by done.
           apply Hother; [by rewrite Hd|done].
    + subst mi'. rewrite <- Hg. apply set_get; [done| |].
      * destruct (dm_has m parent) eqn:Eh; [done|].
        rewrite (get_unset_message m parent inner) in Hg by done. injection Hg as <-.
        destruct (assign_new parents inner field v Hrest) as (m' & E'). congruence.
      * intros g. by apply check_oneof_ok.
Qed.
End Paths.

(** * A body reader for the schema of [Protobuf.Model] *)

Module Model.
Import Protobuf.Model.
#[local] Existing Instances Protobuf.Model.lib Protobuf.Model.laws.

(** A message being read, or a field whose value comes next. *)
Inductive State := SMsg (m : Message) | SScalar (f : Field).

Definition scalar_read (f : Field) (v : Value) : result (PValue_ Message) text :=
  match f, v with
  | FSize, Num (PosInt n) => Ok (PI32 n)
  | FQuery, Str s => Ok (PString s)
  | _, _ => Err (txt "invalid type")
  end.

Definition json_reader : Reader (PValue_ Message) := {|
  St := State;
  nullable _ := None;
  ask s := match s with SMsg m => AMap (SMsg m) | SScalar f => AForward (scalar_read f) end;
  on_key s key :=
    match s with
    | SMsg m =>
        match field_named (descriptor m) key with
        | Some (f, _) => Ok (match kind f with KMessage d => SMsg (new_message d) | _ => SScalar f end)
        | None => Err (txt "unknown field")
        end
    | SScalar _ => Err []
    end;
  on_value s key v :=
    match s with
    | SMsg m => Ok (SMsg (match field_named (descriptor m) key with Some (f, _) => set m f v | None => m end))
    | SScalar _ => Err []
    end;
  at_end s := match s with SMsg m => Ok (PMessage m) | SScalar _ => Err [] end;
  not_a_map _ _ := txt "expected a map";
|}.

(** [a=b&c=d], with nothing to unescape. *)
Definition pairs_of (s : text) : list (text * text) :=
  (fun p => default (p, []) (split_once (ch "=") p)) <$> split (ch "&") s.

(** The bodies the witnesses send. *)
Definition search_body : text := txt "{'query':'x','page':{'pageSize':5}}".
Definition json_of (s : text) : option Value :=
  if decide (s = txt "{}") then Some (Object [])
  else if decide (s = search_body) then
    Some (Object [(txt "query", Str (txt "x")); (txt "page", Object [(txt "pageSize", Num (PosInt 5))])])
  else None.

#[local] Instance body_lib : BodyLib := {|
  Read := PValue_ Message;
  reader := json_reader;
  start_of d := SMsg (new_message d);
  message_read v := match v with PMessage m => m | _ => MPage None end;
  message_from_str d s := Err (txt "invalid type: string");
  json_doc s := match json_of s with Some v => Ok v | None => Err (txt "expected value") end;
  json_value := json_of;
  json_write _ := Ok tt;
  form_parse := pairs_of;
  base64_standard _ := Err OtherBase64;
  base64_url_safe _ := Err OtherBase64;
  base64_display _ := txt "invalid";
|}.

Lemma set_descriptor_id (m : Message) (f : Field) (v : PValue_ Message) : descriptor (set m f v) = descriptor m.
Proof. exact (@set_descriptor lib laws m f v). Qed.

Lemma reader_descriptor (v : Value) (m : Message) (x : PValue_ Message) :
  read_value json_reader (SMsg m) v = Ok x -> exists m', x = PMessage m' /\ descriptor m' = descriptor m.
Proof.
  destruct v as [| | | | |members]; try discriminate. cbn [read_value json_reader nullable ask].
  revert m. induction members as [|[key v] members IH]; intros m.
  - cbn. intros [= <-]. by exists m.
  - cbn [on_key on_value json_reader]. destruct (@field_named lib (descriptor m) key) as [[f al]|]; [|done].
    cbn [result_bind]. match goal with |- context [result_bind ?r _] => destruct r as [y|]; [|done] end. cbn [result_bind].
    intros H. apply IH in H as (m' & -> & Hd). exists m'. split; [done|]. by rewrite Hd, set_descriptor_id.
Qed.

#[local] Instance body_laws : BodyLaws body_lib.
Proof.
  split; [done|]. intros d v x H. destruct (reader_descriptor v (new_message d) x H) as (m' & -> & Hd).
  cbn. rewrite Hd. by destruct d.
Qed.
End Model.
