(* ===== verification/BindPairs.v ===== *)
(** * Binding the keys of a query or form ([bind_pairs] of
    [src/transcode/request.rs])

    Every key bound to its field with all the values of that field, whatever
    spellings the request mixes. The outer [None] of an operation is a panic. *)

From Stdlib Require Import Sorting.Sorted.
From S2P Require Import Prelude Rust Json Numbers Slices Protobuf Presence Request.

(** A pair and its place in the request. *)
Abbreviation Item := (nat * (text * text))%type.
Abbreviation item_key := (fun it : Item => it.2.1).

Section BindPairs.
Context {P : ProstLib} {B : BodyLib}.

Definition item_values (items : list Item) : list text := (fun it : Item => it.2.2) <$> items.

(** The state of the loop of [bind_pairs]: spellings by JSON name under the key of
    proto names they stand for, and spellings whose own values failed. *)
Record Pass := mkPass {
  p_build : Build;
  p_inside : bool;
  p_aliased : list (text * list Item);
  p_failed : list (text * text);
}.

(** The dotted proto names of the fields below the prefix. *)
Definition canonical_key (prefix : option FieldDescriptor) (path : list FieldDescriptor) : text :=
  join (txt ".") (fd_name <$> drop (if bool_decide (is_Some prefix) then 1 else 0) path).

Definition bind_run (start : Start) (binding : Binding_) (path_params : option params) (run : list Item) (s : Pass)
    : option Pass :=
  match run with
  | [] => Some s
  | (_, (key, _)) :: _ =>
      match resolve start key with
      | None => Some s
      | Some (path, resolved) =>
          if rs_aliased resolved then
            Some (mkPass (p_build s) (p_inside s)
                    (p_aliased s ++ [(canonical_key (s_prefix start) path, run)]) (p_failed s))
          else
            let! r := bind_resolved (p_build s) path (item_values run) binding path_params in
            match r.2 with
            | Ok set =>
                Some (mkPass r.1 (p_inside s || (set && rs_inside resolved)) (p_aliased s) (p_failed s))
            | Err e => Some (mkPass r.1 (p_inside s) (p_aliased s) (p_failed s ++ [(key, e)]))
            end
      end
  end.

Fixpoint bind_runs (start : Start) (binding : Binding_) (path_params : option params) (runs : list (list Item))
    (s : Pass) : option Pass :=
  match runs with
  | [] => Some s
  | run :: runs' => let! s := bind_run start binding path_params run s in bind_runs start binding path_params runs' s
  end.

(** The values of all the spellings of a group, in request order. *)
Definition group_items (order : list Item) (group : list (text * list Item)) (canonical : text) : list Item :=
  let from := partition_point (fun it => text_lt (item_key it) canonical) order in
  let to := partition_point (fun it => text_le (item_key it) canonical) order in
  sort_index fst (mjoin group.*2 ++ take (to - from) (drop from order)).

Fixpoint bind_groups (start : Start) (binding : Binding_) (path_params : option params) (order : list Item)
    (groups : list (list (text * list Item))) (b : Build) (inside : bool) : option (Build * result bool text) :=
  match groups with
  | [] => Some (b, Ok inside)
  | [] :: groups' => bind_groups start binding path_params order groups' b inside
  | (((canonical, _) :: _) as group) :: groups' =>
      let values := item_values (group_items order group canonical) in
      match resolve start canonical with
      | None => bind_groups start binding path_params order groups' b inside
      | Some (path, resolved) =>
          let! r := bind_resolved b path values binding path_params in
          match r.2 with
          | Err e => Some (r.1, Err e)
          | Ok set =>
              bind_groups start binding path_params order groups' r.1 (inside || (set && rs_inside resolved))
          end
      end
  end.

Definition sorted_items (pairs : list (text * text)) : list Item := sort_by item_key (imap pair pairs).

Definition bind_pairs (b : Build) (pairs : list (text * text)) (start : Start) (binding : Binding_)
    (path_params : option params) : option (Build * result bool text) :=
  let order := sorted_items pairs in
  let runs := chunk_by (fun a c => bool_decide (item_key a = item_key c)) order in
  let! s := bind_runs start binding path_params runs (mkPass b false [] []) in
  let aliased := sort_by fst (p_aliased s) in
  let covered key := existsb (fun g => bool_decide (g.1 = key)) aliased in
  match find_first (fun f => negb (covered f.1)) (p_failed s) with
  | Some (_, e) => Some (p_build s, Err e)
  | None =>
      bind_groups start binding path_params order (chunk_by (fun a c => bool_decide (a.1 = c.1)) aliased)
        (p_build s) (p_inside s)
  end.
End BindPairs.

(** * Theorems *)

Section BindLaws.
Context {P : ProstLib} {PL : ProstLaws P} {B : BodyLib} {BL : BodyLaws B}.

(** ** Keys *)

Lemma field_named_ok (d : MessageDescriptor) (n : text) (f : FieldDescriptor) (aliased : bool) :
  field_named d n = Some (f, aliased) ->
  f ∈ md_fields d /\ (aliased = false -> fd_name f = n) /\ field_named d (fd_name f) = Some (f, false).
Proof.
  unfold field_named. destruct (md_field_by_name d n) as [g|] eqn:E.
  - intros [= <- <-]. apply field_by_name_named in E as Hn. rewrite Hn, E.
    split; [by apply field_by_name_listed in E|]. done.
  - destruct (md_field_by_json_name d n) as [g|] eqn:Ej; [|done]. intros [= <- <-].
    apply field_by_json_name_field in Ej. unfold field_of in Ej. rewrite Ej.
    split; [by apply field_by_name_listed in Ej|]. done.
Qed.

Lemma resolve_segments_ok (segments : list text) (d : MessageDescriptor) (leaf : text) (inside aliased : bool)
    (pre path : list FieldDescriptor) (r : Resolved) :
  resolve_segments d leaf segments inside aliased pre = Some (path, r) ->
  exists p, path = pre ++ p /\ path_of d p /\ length p = S (length segments) /\
    (rs_aliased r = false -> fd_name <$> p = leaf :: segments /\ aliased = false) /\
    forall aliased' pre', resolve_segments d (default [] (head (fd_name <$> p))) (tail (fd_name <$> p)) inside aliased' pre'
      = Some (pre' ++ p, mkResolved (rs_inside r) aliased').
Proof.
  revert d leaf inside aliased pre. induction segments as [|next segments IH]; intros d leaf inside aliased pre;
    cbn [resolve_segments].
  - destruct (field_named d leaf) as [[f al]|] eqn:Ef; cbn [mbind option_bind fst snd]; [|done]. intros [= <- <-].
    apply field_named_ok in Ef as (Hin & Hn & Hr). exists [f]. split; [done|]. split; [done|]. split; [done|]. split.
    + cbn [rs_aliased]. intros [? ?]%orb_false_iff. cbn. by rewrite Hn.
    + intros al' pre'. cbn [fmap list_fmap head tail default from_option id resolve_segments]. rewrite Hr.
      cbn [mbind option_bind fst snd rs_inside]. by rewrite orb_false_r.
  - destruct (field_named d leaf) as [[f al]|] eqn:Ef; cbn [mbind option_bind fst snd]; [|done].
    destruct (fd_kind f) as [| | | | | | | | | | | | | | |inner|] eqn:Ek; try done.
    destruct (fd_is_list f || fd_is_map f) eqn:Elm; [done|]. apply orb_false_iff in Elm as [El Em].
    intros H. apply IH in H as (p & -> & Hp & Hlen & Hal & Hc).
    apply field_named_ok in Ef as (Hin & Hn & Hr). exists (f :: p). split; [by rewrite <- app_assoc|].
    destruct p as [|g p]; [done|]. split; [cbn; split; [done|]; by exists inner|].
    split; [cbn in *; lia|]. split.
    + intros [Hns [? ?]%orb_false_iff]%Hal. split; [|done]. cbn [fmap list_fmap] in *. by rewrite Hns, Hn.
    + intros al' pre'. cbn [fmap list_fmap head tail default from_option id resolve_segments]. rewrite Hr.
      cbn [mbind option_bind fst snd]. rewrite Ek, El, Em. cbn [orb]. rewrite orb_false_r.
      specialize (Hc al' (pre' ++ [f])). cbn [fmap list_fmap head tail default from_option id] in Hc.
      rewrite Hc. by rewrite <- app_assoc.
Qed.

(** The prefix, when there is one, is a singular message field of the root. *)
Definition start_ok (start : Start) : Prop :=
  match s_prefix start with
  | Some f => f ∈ md_fields (s_root start) /\ exists inner, singular_message f inner
  | None => True
  end.

Lemma path_names_plain (d : MessageDescriptor) (p : list FieldDescriptor) :
  path_of d p -> Forall (fun n => ch "." ∉ n) (fd_name <$> p).
Proof.
  revert d. induction p as [|f p IH]; intros d; [done|]. intros [Hin Hr]%path_cons. cbn. constructor.
  - by eapply field_name_plain.
  - destruct Hr as [->|(inner & _ & Hp)]; [constructor|by eapply IH].
Qed.

(** A key resolves to a path of the root, and its key by proto names to the same
    one; a key that is not aliased is that key. *)
Lemma resolve_ok (start : Start) (key : text) (path : list FieldDescriptor) (r : Resolved) :
  start_ok start -> resolve start key = Some (path, r) ->
  path_of (s_root start) path /\
  resolve start (canonical_key (s_prefix start) path) = Some (path, mkResolved (rs_inside r) false) /\
  (rs_aliased r = false -> canonical_key (s_prefix start) path = key).
Proof.
  intros Hs. unfold resolve. pose proof (split_nonnil (ch ".") key) as Hn. pose proof (join_split (ch ".") key) as Hj.
  destruct (split (ch ".") key) as [|leaf segments]; [done|]. clear Hn.
  assert (Hmain : forall d pre p' rr, resolve_segments d leaf segments (s_inside start) false pre = Some (p', rr) ->
    exists p, p' = pre ++ p /\ path_of d p /\ (rs_aliased rr = false -> join (txt ".") (fd_name <$> p) = key) /\
      match split (ch ".") (join (txt ".") (fd_name <$> p)) with
      | l :: ss => resolve_segments d l ss (s_inside start) false pre = Some (pre ++ p, mkResolved (rs_inside rr) false)
      | [] => False
      end).
  { intros d pre p' rr H. apply resolve_segments_ok in H as (p & -> & Hp & Hlen & Hal & Hc). exists p.
    split; [done|]. split; [done|]. split.
    - intros [-> _]%Hal. exact Hj.
    - destruct p as [|f p]; [done|]. change (txt ".") with [ch "."].
      rewrite split_join by (done || by eapply path_names_plain).
      specialize (Hc false pre). exact Hc. }
  unfold start_ok in Hs. unfold canonical_key. destruct (s_prefix start) as [f|].
  - destruct Hs as [Hin (inner & Hk & Hl & Hm)]. rewrite Hk. intros H.
    apply Hmain in H as (p & -> & Hp & Hal & Hc). cbn [app drop bool_decide decide]. rewrite bool_decide_true by done.
    cbn [drop app]. split; [|split; [|exact Hal]].
    + destruct p; [done|]. cbn. split; [done|]. exists inner. split; [done|]. exact Hp.
    + destruct (split _ _); [done|]. exact Hc.
  - intros H. apply Hmain in H as (p & -> & Hp & Hal & Hc). rewrite bool_decide_false by by intros [? ?].
    cbn [drop app]. split; [exact Hp|]. split; [|exact Hal]. destruct (split _ _); [done|]. exact Hc.
Qed.

(** ** One field *)

(** The field at the end of a path, holding the value its strings spell. *)
Definition assigned (m : DynamicMessage) (path : list FieldDescriptor) (values : list text) : Prop :=
  exists f v, last path = Some f /\ field_value f values = Some (Ok v) /\ get_at m path = Some v.

(** Whether a binding may set a path: no path parameter binds it, and a query finds
    nothing set there. *)
Definition open_path (binding : Binding_) (presence : option Presence) (path_params : option params)
    (path : list FieldDescriptor) : bool :=
  negb (match path_params with Some bound => existsb (fun kv => key_covers kv.1 path) bound | None => false end) &&
  negb (bool_decide (binding = BFill) && match presence with Some p => blocks p path | None => false end).

(** A message changed along a path alone. *)
Definition writes_at (m m' : DynamicMessage) (path : list FieldDescriptor) (values : list text) : Prop :=
  path_of (dm_descriptor m) path /\ dm_descriptor m' = dm_descriptor m /\ assigned m' path values /\
  forall q, path_of (dm_descriptor m) q -> apart q path -> get_at m' q = get_at m q.

Lemma assign_ok (b : Build) (path : list FieldDescriptor) (values : list text) (binding : Binding_) :
  path_of (dm_descriptor (b_message b)) path -> values <> [] ->
  exists b' r, assign b path values binding = Some (b', r) /\
    (binding = BFill -> b_presence b' = b_presence b) /\
    if bool_decide (binding = BFill) && match b_presence b with Some p => blocks p path | None => false end
    then b' = b /\ r = Ok tt
    else match r with
         | Ok _ =>
             writes_at (b_message b) (b_message b') path values /\
             (binding = BSet -> b_presence b' = (fun p => record_path p path false) <$> b_presence b)
         | Err _ => b_message b' = b_message b /\ b_presence b' = b_presence b
         end.
Proof.
  intros Hp Hv. unfold assign. destruct (bool_decide (binding = BFill) && _) eqn:Eb.
  { exists b, (Ok tt). done. }
  destruct path as [|f parents _] using rev_ind; [done|]. unfold split_last. rewrite reverse_snoc.
  cbn [mbind option_bind fst snd]. rewrite reverse_involutive.
  destruct (field_value_ok f values Hv) as (rv & Ev & Hvalid). rewrite Ev. cbn [mbind option_bind].
  destruct rv as [v|e]; [|eexists _, _; split; done].
  destruct (assign_at_ok parents (b_message b) f v Hp (Hvalid v eq_refl)) as (m' & r & Ea & Hr). rewrite Ea.
  cbn [mbind option_bind fst snd]. destruct r as [[]|e].
  - eexists _, _. split; [done|]. cbn [b_presence b_message]. split; [by intros ->|].
    destruct Hr as (Hd & Hg & Ho). split; [|by intros ->]. split; [done|]. split; [done|]. split; [|done].
    exists f, v. by rewrite last_snoc.
  - eexists _, _. split; [done|]. by subst.
Qed.

Lemma bind_resolved_ok (b : Build) (path : list FieldDescriptor) (values : list text) (binding : Binding_)
    (pp : option params) :
  path_of (dm_descriptor (b_message b)) path -> values <> [] ->
  exists b' r, bind_resolved b path values binding pp = Some (b', r) /\
    (binding = BFill -> b_presence b' = b_presence b) /\
    (b_presence b' = b_presence b \/ b_presence b' = (fun p => record_path p path false) <$> b_presence b) /\
    match r with
    | Ok _ =>
        if open_path binding (b_presence b) pp path then writes_at (b_message b) (b_message b') path values
        else b_message b' = b_message b
    | Err _ => open_path binding (b_presence b) pp path = true /\ b_message b' = b_message b
    end.
Proof.
  intros Hp Hv. unfold bind_resolved, open_path.
  destruct (match pp with Some bound => _ | None => false end).
  { exists b, (Ok false). split_and!; [done|done|by left|done]. }
  destruct (assign_ok b path values binding Hp Hv) as (b' & r & -> & Hpr & H). cbn [mbind option_bind fst snd negb andb].
  eexists _, _. split; [done|]. split; [done|]. destruct (bool_decide (binding = BFill) && _); cbn [negb].
  - destruct H as [-> ->]. split; [by left|done].
  - destruct r as [[]|e]; cbn.
    + destruct H as [H Hs]. split; [|done]. destruct binding; auto.
    + destruct H as [H Hs]. split; [by left|done].
Qed.

(** ** Sequences of writes *)

Abbreviation Op := (list FieldDescriptor * list text)%type.

Inductive writes : DynamicMessage -> list Op -> DynamicMessage -> Prop :=
| writes_nil m : writes m [] m
| writes_cons m m1 m' path values ops :
    writes_at m m1 path values -> writes m1 ops m' -> writes m ((path, values) :: ops) m'.

Lemma writes_app (m m1 m' : DynamicMessage) (ops ops' : list Op) :
  writes m ops m1 -> writes m1 ops' m' -> writes m (ops ++ ops') m'.
Proof. induction 1; cbn; [done|]. intros. econstructor; eauto. Qed.

Lemma writes_descriptor (m m' : DynamicMessage) (ops : list Op) :
  writes m ops m' -> dm_descriptor m' = dm_descriptor m.
Proof. induction 1 as [|m m1 m' p vs ops (_ & Hd & _) _ IH]; congruence. Qed.

(** What lies apart from every write stays. *)
Lemma writes_apart (m m' : DynamicMessage) (ops : list Op) (q : list FieldDescriptor) :
  writes m ops m' -> path_of (dm_descriptor m) q -> (forall op, op ∈ ops -> apart q op.1) ->
  get_at m' q = get_at m q.
Proof.
  induction 1 as [|m m1 m' p vs ops (Hp & Hd & Ha & Ho) Hw IH]; intros Hq Hap; [done|].
  rewrite IH; [|congruence|intros op Hop; apply Hap; by right]. apply Ho; [done|]. apply (Hap (p, vs)). by left.
Qed.

(** The last write of a path decides its value. *)
Lemma writes_last (m m' : DynamicMessage) (ops1 ops2 : list Op) (p : list FieldDescriptor) (vs : list text) :
  writes m (ops1 ++ (p, vs) :: ops2) m' -> (forall op, op ∈ ops2 -> apart p op.1) -> assigned m' p vs.
Proof.
  revert m. induction ops1 as [|[p1 vs1] ops1 IH]; intros m Hw Hap; inversion Hw as [|? m1 ? ? ? ? Hat Hw']; subst.
  - destruct Hat as (Hp & Hd & (f & v & Hl & Hf & Hg) & _). exists f, v. split; [done|]. split; [done|].
    rewrite (writes_apart m1 m' ops2 p Hw'); [done|congruence|done].
  - by eapply IH.
Qed.

(** ** The first pass *)

Section Pass.
Context (start : Start) (binding : Binding_) (pp : option params) (presence : option Presence).
Hypothesis Hstart : start_ok start.

Definition opens (path : list FieldDescriptor) : bool := open_path binding presence pp path.

Lemma opens_same (b : Build) (path : list FieldDescriptor) :
  (binding = BFill -> b_presence b = presence) -> open_path binding (b_presence b) pp path = opens path.
Proof.
  unfold opens, open_path. intros H. destruct binding; [done|]. by rewrite H.
Qed.

(** The key an item stands for, and whether by a JSON name. *)
Definition target (it : nat * (text * text)) : option (text * bool) :=
  (fun pr => (canonical_key (s_prefix start) pr.1, rs_aliased pr.2)) <$> resolve start it.2.1.

(** A run bound at once, and one kept under its key of proto names. *)
Definition op_of (run : list Item) : option Op :=
  match run with
  | it :: _ =>
      match resolve start it.2.1 with
      | Some (path, r) => if negb (rs_aliased r) && opens path then Some (path, item_values run) else None
      | None => None
      end
  | [] => None
  end.

Definition alias_of (run : list Item) : option (text * list Item) :=
  match run with
  | it :: _ =>
      match resolve start it.2.1 with
      | Some (path, r) => if rs_aliased r then Some (canonical_key (s_prefix start) path, run) else None
      | None => None
      end
  | [] => None
  end.

Lemma bind_runs_ok (runs : list (list Item)) (s : Pass) :
  dm_descriptor (b_message (p_build s)) = s_root start -> (binding = BFill -> b_presence (p_build s) = presence) ->
  exists s' ops failed, bind_runs start binding pp runs s = Some s' /\
    writes (b_message (p_build s)) ops (b_message (p_build s')) /\
    (binding = BFill -> b_presence (p_build s') = presence) /\
    p_aliased s' = p_aliased s ++ omap alias_of runs /\ p_failed s' = p_failed s ++ failed /\
    ops `sublist_of` omap op_of runs /\
    forall op, op ∈ omap op_of runs -> op ∈ ops \/ exists e, (canonical_key (s_prefix start) op.1, e) ∈ failed.
Proof.
  revert s. induction runs as [|run runs IH]; intros s Hd Hpr; cbn [bind_runs].
  { exists s, [], []. split; [done|]. split; [constructor|]. rewrite !app_nil_r. repeat split; try done.
    by intros op ?%elem_of_nil. }
  assert (Hstep : exists s1 ops1 failed1, bind_run start binding pp run s = Some s1 /\
    writes (b_message (p_build s)) ops1 (b_message (p_build s1)) /\
    (binding = BFill -> b_presence (p_build s1) = presence) /\
    p_aliased s1 = p_aliased s ++ option_list (alias_of run) /\ p_failed s1 = p_failed s ++ failed1 /\
    ops1 `sublist_of` option_list (op_of run) /\
    forall op, op ∈ option_list (op_of run) -> op ∈ ops1 \/ exists e, (canonical_key (s_prefix start) op.1, e) ∈ failed1).
  { unfold bind_run, op_of, alias_of. destruct run as [|[i [key value]] run].
    { exists s, [], []. rewrite !app_nil_r. repeat split; try done; [constructor|by intros op ?%elem_of_nil]. }
    cbn [snd fst]. destruct (resolve start key) as [[path r]|] eqn:Er.
    2:{ exists s, [], []. rewrite !app_nil_r. repeat split; try done; [constructor|by intros op ?%elem_of_nil]. }
    destruct (rs_aliased r) eqn:Ea; cbn [negb andb option_list].
    { eexists _, [], []. split; [done|]. cbn [p_build p_aliased p_failed]. rewrite app_nil_r.
      repeat split; try done; [constructor|by intros op ?%elem_of_nil]. }
    destruct (resolve_ok start key path r Hstart Er) as (Hp & _ & Hkey). specialize (Hkey Ea).
    destruct (bind_resolved_ok (p_build s) path (item_values ((i, (key, value)) :: run)) binding pp)
      as (b1 & rr & -> & Hpr1 & _ & Hr); [by rewrite Hd|done|]. cbn [mbind option_bind fst snd].
    rewrite opens_same in Hr by done.
    assert (Hpr1' : binding = BFill -> b_presence b1 = presence) by (intros Hb; rewrite Hpr1 by done; by apply Hpr).
    destruct rr as [set|e].
    - destruct (opens path) eqn:Eo.
      + eexists _, [(path, item_values ((i, (key, value)) :: run))], []. split; [done|].
        cbn [p_build p_aliased p_failed option_list]. rewrite !app_nil_r. split; [eapply writes_cons; [exact Hr|constructor]|].
        repeat split; try done. intros op Hop. by left.
      + eexists _, [], []. split; [done|]. cbn [p_build p_aliased p_failed option_list]. rewrite !app_nil_r, Hr.
        repeat split; try done; [constructor|by intros op ?%elem_of_nil].
    - destruct Hr as [Eo Hm]. rewrite Eo. eexists _, [], [(key, e)]. split; [done|].
      cbn [p_build p_aliased p_failed option_list]. rewrite !app_nil_r, Hm.
      repeat split; try done; [constructor|apply sublist_nil_l|].
      intros op ->%list_elem_of_singleton. right. exists e. cbn. rewrite Hkey. by left. }
  destruct Hstep as (s1 & ops1 & failed1 & -> & Hw1 & Hpr1 & Ha1 & Hf1 & Hs1 & Hc1). cbn [mbind option_bind].
  destruct (IH s1) as (s' & ops & failed & -> & Hw & Hpr' & Ha & Hf & Hs & Hc); [|done|].
  { rewrite (writes_descriptor _ _ _ Hw1). done. }
  exists s', (ops1 ++ ops), (failed1 ++ failed). split; [done|]. split; [by eapply writes_app|]. split; [done|].
  assert (Hom : forall {A C} (f : A -> option C) x l, omap f (x :: l) = option_list (f x) ++ omap f l).
  { intros A C f x l. cbn. by destruct (f x). }
  rewrite !Hom, Ha, Ha1, Hf, Hf1, <- !app_assoc. split; [done|]. split; [done|]. split; [by apply sublist_app|].
  intros op [Hop|Hop]%elem_of_app.
  - destruct (Hc1 op Hop) as [?|[e ?]]; [left; apply elem_of_app; by left|right; exists e; apply elem_of_app; by left].
  - destruct (Hc op Hop) as [?|[e ?]]; [left; apply elem_of_app; by right|right; exists e; apply elem_of_app; by right].
Qed.

(** ** The merging pass *)

(** What a group binds: the field of its key, to the values of all its spellings. *)
Definition group_op (order : list Item) (c : text) (items : list Item) : option Op :=
  match resolve start c with
  | Some (path, _) => if opens path then Some (path, item_values items) else None
  | None => None
  end.

Definition group_bound (order : list Item) (g : list (text * list Item)) : option Op :=
  match g with (c, _) :: _ => group_op order c (group_items order g c) | [] => None end.

Lemma bind_groups_ok (order : list Item) (groups : list (list (text * list Item)))
    (b : Build) (inside : bool) :
  dm_descriptor (b_message b) = s_root start -> (binding = BFill -> b_presence b = presence) ->
  Forall (fun g => exists c run rest, g = (c, run) :: rest /\ group_items order g c <> []) groups ->
  exists b' r ops, bind_groups start binding pp order groups b inside = Some (b', r) /\
    writes (b_message b) ops (b_message b') /\ (binding = BFill -> b_presence b' = presence) /\
    (is_ok r = true -> ops = omap (group_bound order) groups).
Proof.
  intros Hd Hpr HF. revert b inside Hd Hpr.
  induction HF as [|g groups (c & run & rest & -> & Hne) HF IH]; intros b inside Hd Hpr.
  { eexists b, _, []. split; [done|]. split; [constructor|]. done. }
  cbn [bind_groups omap list_omap].
  assert (Hgb : group_bound order ((c, run) :: rest) = group_op order c (group_items order ((c, run) :: rest) c)) by done.
  rewrite Hgb. unfold group_op. destruct (resolve start c) as [[path r]|] eqn:Er.
  2:{ destruct (IH b inside Hd Hpr) as (b' & r' & ops & ? & ? & ? & ?). exists b', r', ops. done. }
  destruct (resolve_ok start c path r Hstart Er) as (Hp & _ & _).
  destruct (bind_resolved_ok b path (item_values (group_items order ((c, run) :: rest) c)) binding pp)
    as (b1 & rr & E & Hpr1 & _ & Hr).
  { by rewrite Hd. }
  { unfold item_values. intros H. by apply fmap_nil_inv in H. }
  rewrite E. cbn [mbind option_bind fst snd]. rewrite opens_same in Hr by done.
  assert (Hpr1' : binding = BFill -> b_presence b1 = presence) by (intros Hb; rewrite Hpr1 by done; by apply Hpr).
  destruct rr as [set|e].
  - destruct (opens path) eqn:Eo.
    + pose proof Hr as (_ & Hd1 & _).
      destruct (IH b1 (inside || (set && rs_inside r))) as (b' & r' & ops & -> & Hw & Hpr' & Hok);
        [congruence|done|]. eexists b', r', (_ :: ops). split; [done|]. split; [by econstructor|]. split; [done|].
      intros Hr'. by rewrite Hok.
    + destruct (IH b1 (inside || (set && rs_inside r))) as (b' & r' & ops & -> & Hw & Hpr' & Hok);
        [congruence|done|]. eexists b', r', ops. rewrite <- Hr. done.
  - destruct Hr as [Eo Hm]. eexists b1, (Err e), []. split; [done|]. rewrite Hm. split; [constructor|]. done.
Qed.

(** ** The two passes *)

(** The field a key is for, by its proto names. *)
Definition field_key (key : text) : option text :=
  (fun pr => canonical_key (s_prefix start) pr.1) <$> resolve start key.

(** All the values of a field, in request order. *)
Definition field_values (pairs : list (text * text)) (c : text) : list text :=
  (filter (fun kv : text * text => field_key kv.1 = Some c) pairs).*2.

Lemma target_key (it : nat * (text * text)) : fst <$> target it = field_key it.2.1.
Proof. unfold target, field_key. by destruct (resolve _ _). Qed.

(** A key of proto names is its own. *)
Lemma target_plain (key c : text) (it : nat * (text * text)) :
  field_key key = Some c -> (item_key it = c <-> target it = Some (c, false)).
Proof.
  unfold field_key, target. destruct (resolve start key) as [[path r]|] eqn:E; cbn; [|done]. intros [= <-].
  destruct (resolve_ok start key path r Hstart E) as (_ & Hc & _). split.
  - intros ->. by rewrite Hc.
  - destruct (resolve start it.2.1) as [[path' r']|] eqn:E'; cbn; [|done]. intros [= Hp Ha].
    destruct (resolve_ok start _ path' r' Hstart E') as (_ & _ & H). by rewrite <- (H Ha), Hp.
Qed.

Definition same_key (run : list Item) : Prop :=
  exists it rest, run = it :: rest /\ Forall (fun it' => item_key it' = item_key it) run.

Lemma target_key_eq (a b : nat * (text * text)) : item_key a = item_key b -> target a = target b.
Proof. unfold target. by intros ->. Qed.

Lemma filter_run (run : list Item) (c : text) (rest : list Item) :
  same_key run ->
  filter (fun it => target it = Some (c, true)) (run ++ rest) =
  match alias_of run with
  | Some (c', _) => if decide (c' = c) then run else []
  | None => []
  end ++ filter (fun it => target it = Some (c, true)) rest.
Proof.
  intros (it & tl & -> & HF). rewrite filter_app. f_equal. unfold alias_of.
  assert (Hall : forall P : Prop, (target it = Some (c, true) <-> P) ->
    (P -> filter (fun it => target it = Some (c, true)) (it :: tl) = it :: tl) /\
    (~ P -> filter (fun it => target it = Some (c, true)) (it :: tl) = [])).
  { intros Q HQ. rewrite Forall_forall in HF. split; intros H.
    - apply filter_all. intros x Hx. rewrite (target_key_eq x it) by by apply HF. tauto.
    - apply filter_none. intros x Hx. rewrite (target_key_eq x it) by by apply HF. tauto. }
  assert (Ht : target it = (fun pr => (canonical_key (s_prefix start) pr.1, rs_aliased pr.2)) <$> resolve start it.2.1)
    by done.
  destruct (resolve start it.2.1) as [[path r]|]; cbn in Ht.
  - destruct (rs_aliased r).
    + case_decide as Hc; apply (Hall (canonical_key (s_prefix start) path = c)); try done;
        rewrite Ht; naive_solver.
    + apply (Hall False); [rewrite Ht; naive_solver|by intros []].
  - apply (Hall False); [rewrite Ht; naive_solver|by intros []].
Qed.

Lemma alias_items (runs : list (list Item)) (c : text) :
  Forall same_key runs ->
  mjoin (filter (fun g : text * _ => g.1 = c) (omap alias_of runs)).*2
  = filter (fun it => target it = Some (c, true)) (mjoin runs).
Proof.
  induction 1 as [|run runs Hr HF IH]; [done|]. change (mjoin (run :: runs)) with (run ++ mjoin runs).
  rewrite filter_run, <- IH by done.
  cbn [omap list_omap]. destruct (alias_of run) as [[c' run']|] eqn:E; [|done].
  assert (run' = run) as ->.
  { unfold alias_of in E. destruct run as [|it tl]; [done|]. destruct (resolve _ _) as [[path r]|]; [|done].
    destruct (rs_aliased r); congruence. }
  rewrite filter_cons. cbn [fst]. by case_decide.
Qed.

(** What a group binds: every value of its field. *)
Lemma group_items_all (pairs : list (text * text)) (key c : text) (g : list (text * list Item)) :
  let order := sorted_items pairs in
  let runs := chunk_by (fun a d => bool_decide (item_key a = item_key d)) order in
  field_key key = Some c ->
  g = filter (fun g : text * _ => g.1 = c) (sort_by fst (omap alias_of runs)) ->
  item_values (group_items order g c) = field_values pairs c.
Proof.
  intros order runs Hc ->. unfold group_items.
  destruct (sort_by_ok item_key (imap pair pairs)) as (Hs & Hp & _). fold (sorted_items pairs) in Hs, Hp.
  fold order in Hs, Hp. rewrite partition_key by exact Hs.
  destruct (sort_by_ok fst (omap alias_of runs)) as (_ & _ & Hf). rewrite Hf. clear Hf.
  assert (Hruns : Forall same_key runs).
  { destruct (chunk_sorted item_key order Hs) as (ks & _ & _ & HF). fold runs in HF. clear -HF.
    induction HF as [|run k runs ks [Hn Hr] HF IH]; constructor; [|done]. destruct run as [|it tl]; [done|].
    exists it, tl. split; [done|]. rewrite Hr. apply Forall_forall.
    assert (Hit : it ∈ it :: tl) by by left. rewrite Hr in Hit. apply list_elem_of_filter in Hit as [-> _].
    by intros x [-> _]%list_elem_of_filter. }
  rewrite alias_items by done. unfold runs. rewrite (chunk_concat item_key).
  assert (Heq : sort_index fst (filter (fun it => target it = Some (c, true)) order
                  ++ filter (fun it => item_key it = c) order)
                = filter (fun it => field_key it.2.1 = Some c) (imap pair pairs)).
  { apply sort_index_order.
    - rewrite (list_filter_iff (fun it => item_key it = c) (fun it => target it = Some (c, false)))
        by (intros it; by eapply target_plain).
      rewrite filter_split by (intros; congruence). rewrite Hp. apply reflexive_eq, list_filter_iff.
      intros it. rewrite <- target_key. destruct (target it) as [[c' []]|]; cbn; naive_solver.
    - apply sorted_filter, (imap_sorted pairs 0). }
  rewrite Heq. unfold field_values, item_values. clear. generalize 0%nat as n.
  assert (Hgen : forall n, (fun it : nat * (text * text) => it.2.2) <$>
      filter (fun it => field_key it.2.1 = Some c) (imap (fun i x => ((n + i)%nat, x)) pairs)
    = (filter (fun kv : text * text => field_key kv.1 = Some c) pairs).*2); [|intros _; apply (Hgen 0%nat)].
  induction pairs as [|[k v] pairs IH]; intros n; [done|]. cbn [imap].
  rewrite !filter_cons. cbn [fst snd]. specialize (IH (S n)).
  rewrite (imap_ext _ (fun i x => ((S n + i)%nat, x))) by (intros; cbn; f_equal; lia).
  case_decide; cbn; [f_equal|]; exact IH.
Qed.

(** Where the runs of a sorted request come from. *)
Lemma runs_of (pairs : list (text * text)) :
  let order := sorted_items pairs in
  let runs := chunk_by (fun a d => bool_decide (item_key a = item_key d)) order in
  exists ks, NoDup ks /\ Forall2 (run_of item_key order) runs ks /\
    forall k, k ∈ ks <-> exists v, (k, v) ∈ pairs.
Proof.
  intros order runs. destruct (sort_by_ok item_key (imap pair pairs)) as (Hs & Hp & _).
  fold (sorted_items pairs) in Hs, Hp. fold order in Hs, Hp.
  destruct (chunk_sorted item_key order Hs) as (ks & Hd & Hk & HF). exists ks. split; [done|]. split; [done|].
  intros k. rewrite (Hk k). split.
  - intros ([i [k' v]] & Hin & <-). rewrite Hp in Hin. exists v.
    apply elem_of_lookup_imap in Hin as (j & y & [= <- <-] & Hy). by eapply list_elem_of_lookup_2.
  - intros [v [i Hi]%list_elem_of_lookup]. exists (i, (k, v)). split; [|done]. rewrite Hp.
    apply elem_of_lookup_imap. by exists i, (k, v).
Qed.

Lemma run_head (order run : list Item) (k : text) :
  run_of item_key order run k -> exists it rest, run = it :: rest /\ item_key it = k.
Proof.
  intros [Hn Hr]. destruct run as [|it rest]; [done|]. exists it, rest. split; [done|].
  assert (Hit : it ∈ it :: rest) by by left. rewrite Hr in Hit. by apply list_elem_of_filter in Hit as [].
Qed.

Lemma op_of_key (order run : list Item) (k : text) (op : Op) :
  run_of item_key order run k -> op_of run = Some op ->
  opens op.1 = true /\ (exists r, resolve start k = Some (op.1, r)) /\ field_key k = Some k /\
  canonical_key (s_prefix start) op.1 = k /\ op.2 = item_values (filter (fun it => item_key it = k) order).
Proof.
  intros Hr Ho. destruct (run_head _ _ _ Hr) as (it & rest & E & Hk). destruct Hr as [_ Hrun]. rewrite <- Hrun.
  rewrite E in Ho. cbn [op_of] in Ho. unfold field_key. rewrite Hk in Ho.
  destruct (resolve start k) as [[path r]|] eqn:Er; [|done].
  destruct (rs_aliased r) eqn:Ea; cbn [negb andb] in Ho; [done|]. destruct (opens path) eqn:Eo; [|done]. injection Ho as <-.
  destruct (resolve_ok start k path r Hstart Er) as (_ & _ & Hc).
  cbn [fst snd fmap option_fmap option_map]. rewrite (Hc Ea), E. split_and!; eauto.
Qed.

(** The fields set at once are distinct. *)
Lemma ops_distinct (order : list Item) (runs : list (list Item)) (ks : list text) :
  Forall2 (run_of item_key order) runs ks -> NoDup ks -> NoDup (omap op_of runs).*1.
Proof.
  induction 1 as [|run k runs ks Hr HF IH]; [constructor|]. intros [Hk Hd]%NoDup_cons. cbn [omap list_omap].
  destruct (op_of run) as [op|] eqn:Eo; [|by apply IH]. cbn. constructor; [|by apply IH].
  intros (op' & Hf & Hin)%list_elem_of_fmap. apply list_elem_of_omap in Hin as (run' & Hrun' & Eo').
  apply list_elem_of_lookup in Hrun' as [i Hi]. destruct (Forall2_lookup_l _ _ _ _ _ HF Hi) as (k' & Hk' & Hr').
  destruct (op_of_key _ _ _ _ Hr Eo) as (_ & _ & _ & E & _).
  destruct (op_of_key _ _ _ _ Hr' Eo') as (_ & _ & _ & E' & _).
  apply Hk. rewrite <- E, Hf, E'. by eapply list_elem_of_lookup_2.
Qed.

Lemma alias_of_key (order run : list Item) (k c : text) (run' : list Item) :
  run_of item_key order run k -> alias_of run = Some (c, run') -> run' = run /\ field_key k = Some c.
Proof.
  intros Hr Ha. destruct (run_head _ _ _ Hr) as (it & rest & -> & Hk). cbn [alias_of] in Ha. unfold field_key.
  rewrite Hk in Ha. destruct (resolve start k) as [[path r]|]; [|done]. destruct (rs_aliased r); [|done].
  by injection Ha as <- <-.
Qed.

(** What the merging pass binds of a field. *)
Definition merged_op (pairs : list (text * text)) (c : text) : option Op :=
  match resolve start c with
  | Some (path, _) => if opens path then Some (path, field_values pairs c) else None
  | None => None
  end.

(** The canonical keys the merging pass goes over. *)
Lemma groups_of (pairs : list (text * text)) :
  let order := sorted_items pairs in
  let runs := chunk_by (fun a d => bool_decide (item_key a = item_key d)) order in
  let aliased := sort_by fst (omap alias_of runs) in
  let groups := chunk_by (fun a d : text * list Item => bool_decide (a.1 = d.1)) aliased in
  exists cs, NoDup cs /\ (forall c, c ∈ cs <-> exists run, (c, run) ∈ aliased) /\
    (forall c, c ∈ cs -> exists k v, (k, v) ∈ pairs /\ field_key k = Some c) /\
    (forall k v path r, (k, v) ∈ pairs -> resolve start k = Some (path, r) -> rs_aliased r = true ->
       canonical_key (s_prefix start) path ∈ cs) /\
    Forall (fun g => exists c run rest, g = (c, run) :: rest /\ group_items order g c <> []) groups /\
    omap (group_bound order) groups = omap (merged_op pairs) cs.
Proof.
  intros order runs aliased groups. destruct (runs_of pairs) as (ks & _ & HFr & Hks). fold order runs in HFr.
  destruct (sort_by_ok fst (omap alias_of runs)) as (Hs & Hp & _). fold aliased in Hs, Hp.
  destruct (chunk_sorted fst aliased Hs) as (cs & Hd & Hc & HF). fold groups in HF.
  assert (Hal : forall c run, (c, run) ∈ aliased ->
    exists k v, (k, v) ∈ pairs /\ field_key k = Some c /\ run <> []).
  { intros c run Hin. rewrite Hp in Hin. apply list_elem_of_omap in Hin as (run' & Hin & E).
    apply list_elem_of_lookup in Hin as [i Hi]. destruct (Forall2_lookup_l _ _ _ _ _ HFr Hi) as (k & Hk & Hr).
    destruct (alias_of_key _ _ _ _ _ Hr E) as [-> Hfk]. apply list_elem_of_lookup_2, Hks in Hk as [v Hv].
    exists k, v. split_and!; [done|done|]. by destruct Hr. }
  assert (Hkey : forall c, c ∈ cs -> exists k v, (k, v) ∈ pairs /\ field_key k = Some c).
  { intros c ([c' run] & Hin & <-)%Hc. destruct (Hal _ _ Hin) as (k & v & ? & ? & _). by exists k, v. }
  exists cs. split; [done|]. split; [|split; [done|split]].
  { intros c. rewrite (Hc c). split; [by intros ([c' run] & ? & <-); eauto|intros [run ?]; by exists (c, run)]. }
  { intros k v path r Hin Hres Ha. apply Hc. assert (Hk : k ∈ ks) by (apply Hks; by exists v).
    apply list_elem_of_lookup in Hk as [i Hi]. destruct (Forall2_lookup_r _ _ _ _ _ HFr Hi) as (run & Hrun & Hr).
    exists (canonical_key (s_prefix start) path, run). split; [|done]. rewrite Hp. apply list_elem_of_omap.
    exists run. split; [by eapply list_elem_of_lookup_2|]. destruct (run_head _ _ _ Hr) as (it & rest & -> & <-).
    cbn [alias_of]. by rewrite Hres, Ha. }
  assert (Hhead : forall g c, run_of fst aliased g c ->
    exists run rest, g = (c, run) :: rest /\ (c, run) ∈ aliased).
  { intros g c [Hn Hg]. destruct g as [|[c' run] rest]; [done|].
    assert (Hin : (c', run) ∈ (c', run) :: rest) by by left. rewrite Hg in Hin.
    apply list_elem_of_filter in Hin as [<- Hin]. by exists run, rest. }
  clear Hc Hd. split.
  - clear Hkey. induction HF as [|g c groups' cs Hg HF IH]; constructor; [|done].
    destruct (Hhead g c Hg) as (run & rest & -> & Hin). exists c, run, rest. split; [done|]. unfold group_items.
    destruct (sort_index_ok fst (mjoin ((c, run) :: rest).*2 ++
      take (partition_point (fun it => text_le (item_key it) c) order
            - partition_point (fun it => text_lt (item_key it) c) order)
        (drop (partition_point (fun it => text_lt (item_key it) c) order) order))) as [Hperm _].
    intros E. rewrite E in Hperm. apply Permutation_nil_l in Hperm. destruct (Hal c run Hin) as (_ & _ & _ & _ & Hn).
    destruct run; [done|]. discriminate.
  - induction HF as [|g c groups' cs Hg HF IH]; [done|].
    assert (E : group_bound order g = merged_op pairs c);
      [|cbn [omap list_omap]; rewrite E, IH; [done|intros c' ?; apply Hkey; by right]].
    destruct (Hkey c) as (k & v & _ & Hfk); [by left|]. pose proof Hg as [_ Hgf].
    destruct (Hhead g c Hg) as (run & rest & Eg & _). unfold merged_op. rewrite <- (group_items_all pairs k c g Hfk Hgf).
    by rewrite Eg.
Qed.

Lemma merged_distinct (pairs : list (text * text)) (path : list FieldDescriptor) (cs : list text) (op : Op) :
  canonical_key (s_prefix start) path ∉ cs -> (forall c, c ∈ cs -> exists k v, (k, v) ∈ pairs /\ field_key k = Some c) ->
  op ∈ omap (merged_op pairs) cs -> op.1 <> path.
Proof.
  intros Hc Hk (c & Hin & E)%list_elem_of_omap <-. apply Hc. destruct (Hk c Hin) as (k & v & _ & Hfk).
  unfold merged_op in E. unfold field_key in Hfk. destruct (resolve start k) as [[p r]|] eqn:Er; [|done].
  injection Hfk as <-. destruct (resolve_ok start k p r Hstart Er) as (_ & Hc' & _). rewrite Hc' in E.
  destruct (opens p); [|done]. by injection E as <-.
Qed.

(** The fields bound at once that no other spelling is merged with. *)
Lemma plain_values (pairs : list (text * text)) (c : text) :
  field_key c = Some c ->
  (forall k v path r, (k, v) ∈ pairs -> resolve start k = Some (path, r) -> rs_aliased r = true ->
     canonical_key (s_prefix start) path <> c) ->
  item_values (filter (fun it => item_key it = c) (sorted_items pairs)) = field_values pairs c.
Proof.
  intros Hc Hno. set (order := sorted_items pairs).
  set (runs := chunk_by (fun a d : Item => bool_decide (item_key a = item_key d)) order).
  destruct (runs_of pairs) as (ks & _ & HFr & Hks). fold order in HFr. fold runs in HFr.
  rewrite <- (group_items_all pairs c c [] Hc).
  - fold order. unfold group_items. cbn [fmap list_fmap mjoin list_join app].
    destruct (sort_by_ok item_key (imap pair pairs)) as (Hs & Hp & Hf). fold (sorted_items pairs) in Hs, Hf.
    fold order in Hs, Hf. rewrite partition_key, Hf by exact Hs. symmetry. f_equal. apply sort_index_order; [done|].
    apply sorted_filter, (imap_sorted pairs 0).
  - fold order. fold runs. symmetry. apply filter_none. intros [c' run] Hin Hcc. cbn in Hcc. subst c'.
    destruct (sort_by_ok fst (omap alias_of runs)) as (_ & Hp & _). rewrite Hp in Hin.
    apply list_elem_of_omap in Hin as (run' & Hin & E). apply list_elem_of_lookup in Hin as [i Hi].
    destruct (Forall2_lookup_l _ _ _ _ _ HFr Hi) as (k & Hk & Hr).
    destruct (run_head _ _ _ Hr) as (it & rest & -> & <-). cbn [alias_of] in E.
    destruct (resolve start (item_key it)) as [[path r]|] eqn:Er; [|done]. destruct (rs_aliased r) eqn:Ea; [|done].
    apply list_elem_of_lookup_2, Hks in Hk as [v Hv]. destruct (Hno _ v path r Hv Er Ea). congruence.
Qed.

(** [bind_pairs] never panics; when nothing fails it writes every open field once
    with all its values, or first in part and last with all of them. *)
Lemma bind_pairs_ok (b : Build) (pairs : list (text * text)) :
  dm_descriptor (b_message b) = s_root start -> (binding = BFill -> b_presence b = presence) ->
  exists b' r ops, bind_pairs b pairs start binding pp = Some (b', r) /\
    writes (b_message b) ops (b_message b') /\ (binding = BFill -> b_presence b' = presence) /\
    (is_ok r = true ->
      (forall op, op ∈ ops -> opens op.1 = true /\ exists k v r, (k, v) ∈ pairs /\ resolve start k = Some (op.1, r)) /\
      forall k v path r0, (k, v) ∈ pairs -> resolve start k = Some (path, r0) -> opens path = true ->
        exists ops1 ops2,
          ops = ops1 ++ (path, field_values pairs (canonical_key (s_prefix start) path)) :: ops2 /\
          forall op, op ∈ ops2 -> op.1 <> path).
Proof.
  intros Hd Hpr. unfold bind_pairs. set (order := sorted_items pairs).
  set (runs := chunk_by (fun a d : Item => bool_decide (item_key a = item_key d)) order).
  destruct (runs_of pairs) as (ks & Hdk & HFr & Hks). fold order in HFr. fold runs in HFr.
  destruct (bind_runs_ok runs (mkPass b false [] []) Hd Hpr) as (s' & ops1 & failed & -> & Hw & Hpr' & Ha & Hf & Hsub & Hall).
  cbn [mbind option_bind p_aliased p_failed p_build app] in *. subst failed. rewrite Ha.
  destruct (groups_of pairs) as (cs & Hdc & Hcs & Hkey & Hali & HFg & Hops).
  fold order runs in Hcs, HFg, Hops.
  set (aliased := sort_by fst (omap alias_of runs)) in *.
  destruct (find_first _ (p_failed s')) as [[k e]|] eqn:Ef.
  { exists (p_build s'), (Err e), ops1. done. }
  destruct (bind_groups_ok order _ (p_build s') (p_inside s') ltac:(by rewrite (writes_descriptor _ _ _ Hw)) Hpr' HFg)
    as (b' & r & ops2 & -> & Hw' & Hpr'' & Hok).
  exists b', r, (ops1 ++ ops2). split; [done|]. split; [by eapply writes_app|]. split; [done|]. intros Hr.
  rewrite (Hok Hr), Hops. clear Hok Hr Hw'. split.
  - intros op [Hop|Hop]%elem_of_app.
    + apply (fun h => elem_of_sublist _ _ _ h Hsub) in Hop. apply list_elem_of_omap in Hop as (run & Hin & E).
      apply list_elem_of_lookup in Hin as [i Hi]. destruct (Forall2_lookup_l _ _ _ _ _ HFr Hi) as (k & Hk & Hrun).
      destruct (op_of_key _ _ _ _ Hrun E) as (Ho & (r0 & Hres) & _). apply list_elem_of_lookup_2, Hks in Hk as [v Hv].
      split; [done|]. by exists k, v, r0.
    + apply list_elem_of_omap in Hop as (c & (k & v & Hkv & Hfk)%Hkey & E). unfold field_key in Hfk.
      destruct (resolve start k) as [[p r0]|] eqn:Er; [|done]. injection Hfk as <-.
      destruct (resolve_ok start k p r0 Hstart Er) as (_ & Hc' & _). unfold merged_op in E. rewrite Hc' in E.
      destruct (opens p) eqn:Eo; [|done]. injection E as <-. split; [done|]. by exists k, v, r0.
  - intros k v path r0 Hkv Hres Ho. set (c := canonical_key (s_prefix start) path).
    destruct (resolve_ok start k path r0 Hstart Hres) as (_ & Hc & Hplain). fold c in Hc, Hplain.
    destruct (decide (c ∈ cs)) as [Hin|Hnin].
    + apply list_elem_of_split in Hin as (cs1 & cs2 & ->). apply NoDup_app in Hdc as (_ & _ & [Hn2 _]%NoDup_cons).
      rewrite omap_app. cbn [omap list_omap].
      assert (Hm : merged_op pairs c = Some (path, field_values pairs c)) by (unfold merged_op; by rewrite Hc, Ho).
      rewrite Hm, app_assoc. eexists _, _. split; [done|]. intros op. apply merged_distinct; [done|].
      intros c' ?. apply Hkey. apply elem_of_app. right. by right.
    + assert (Ha0 : rs_aliased r0 = false).
      { destruct (rs_aliased r0) eqn:Ea; [|done]. destruct Hnin. by eapply Hali. }
      specialize (Hplain Ha0). assert (Hfc : field_key c = Some c) by (unfold field_key; by rewrite Hc).
      assert (Hck : c ∈ ks) by (apply Hks; exists v; by rewrite Hplain).
      apply list_elem_of_lookup in Hck as [i Hi]. destruct (Forall2_lookup_r _ _ _ _ _ HFr Hi) as (run & Hrun & Hro).
      assert (Hop : op_of run = Some (path, field_values pairs c)).
      { pose proof Hro as [_ Hfr]. destruct (run_head _ _ _ Hro) as (it & rest & Erun & Hit).
        rewrite <- (plain_values pairs c Hfc) by (intros k' v' p' r' ? ? ? <-; apply Hnin; by eapply Hali).
        fold order. rewrite <- Hfr, Erun. cbn [op_of]. by rewrite Hit, Hc, Ho. }
      assert (Hin : (path, field_values pairs c) ∈ ops1).
      { destruct (Hall (path, field_values pairs c)) as [?|[e He]]; [|done|].
        - apply list_elem_of_omap. exists run. split; [by eapply list_elem_of_lookup_2|done].
        - exfalso. apply find_first_None in Ef. rewrite Forall_forall in Ef. specialize (Ef _ He). cbn in Ef.
          apply negb_false_iff, existsb_exists in Ef as ([c' run'] & Hin & Hce).
          apply bool_decide_eq_true in Hce. cbn in Hce. subst c'. apply Hnin, Hcs. exists run'. by apply list_elem_of_In. }
      apply list_elem_of_split in Hin as (l1 & l2 & ->). rewrite <- app_assoc. eexists l1, _. split; [done|].
      intros op [Hop2|Hop2]%elem_of_app.
      * pose proof (ops_distinct order runs ks HFr Hdk) as Hnd.
        apply (fun h => sublist_NoDup _ _ h (sublist_fmap fst _ _ Hsub)) in Hnd.
        rewrite fmap_app in Hnd. apply NoDup_app in Hnd as (_ & _ & [Hn _]%NoDup_cons). intros <-. apply Hn.
        by apply (list_elem_of_fmap_2' fst l2 op).
      * by apply (merged_distinct pairs path cs).
Qed.
End Pass.

(** A query or form that binds gives each field its path does not keep from it all the values of all the
    spellings of its key, by proto and JSON names in any mix and in request order, and changes nothing apart
    from the fields its keys name. *)
Theorem bind_pairs_values (b b' : Build) (pairs : list (text * text)) (start : Start) (binding : Binding_)
    (pp : option params) (inside : bool) :
  start_ok start -> dm_descriptor (b_message b) = s_root start ->
  bind_pairs b pairs start binding pp = Some (b', Ok inside) ->
  let bound k path := exists v r,
    (k, v) ∈ pairs /\ resolve start k = Some (path, r) /\ open_path binding (b_presence b) pp path = true in
  (forall k path, bound k path -> (forall k' path', bound k' path' -> path' = path \/ apart path path') ->
     assigned (b_message b') path (field_values start pairs (canonical_key (s_prefix start) path))) /\
  (forall q, path_of (s_root start) q -> (forall k path, bound k path -> apart q path) ->
     get_at (b_message b') q = get_at (b_message b) q).
Proof.
  intros Hs Hd Hb bound.
  destruct (bind_pairs_ok start binding pp (b_presence b) Hs b pairs Hd (fun _ => eq_refl))
    as (b1 & r1 & ops & E & Hw & _ & Hok). rewrite Hb in E. injection E as <- <-.
  destruct (Hok eq_refl) as [Hops Hkeys]. split.
  - intros k path (v & r & Hin & Hr & Ho) Hap. destruct (Hkeys k v path r Hin Hr Ho) as (ops1 & ops2 & -> & Hne).
    eapply writes_last; [exact Hw|]. intros op Hop. destruct (Hops op) as (Ho' & k' & v' & r' & Hin' & Hr').
    { apply elem_of_app. right. by right. }
    destruct (Hap k' op.1) as [E|?]; [by exists v', r'| |done]. by destruct (Hne op Hop).
  - intros q Hq Hap. eapply writes_apart; [exact Hw|by rewrite Hd|]. intros op Hop.
    destruct (Hops op Hop) as (Ho & k & v & r & Hin & Hr). eapply Hap. by exists v, r.
Qed.
End BindLaws.

(** * Mixed spellings *)

Module Demo.
Import Protobuf.Model Request.Model.
#[local] Existing Instances Protobuf.Model.lib Protobuf.Model.laws Request.Model.body_lib Request.Model.body_laws.

Definition start : Start := mkStart (TFind : MessageDescriptor) false None.
Definition pairs : list (text * text) :=
  [(txt "page.pageSize", txt "7"); (txt "query", txt "x"); (txt "other", txt "y"); (txt "page.page_size", txt "9")].
Definition empty : Build := mkBuild (new_message TFind : DynamicMessage) None.
Definition bound : Build := mkBuild (MFind (mkFind (Some (txt "x")) (Some (Some 9)) None) : DynamicMessage) None.

Lemma bind_pairs_values_witness :
  bind_pairs empty pairs start BSet None = Some (bound, Ok false) /\
  assigned (b_message bound) [FPage : FieldDescriptor; FSize] [txt "7"; txt "9"].
Proof.
  assert (E : bind_pairs empty pairs start BSet None = Some (bound, Ok false)) by (vm_compute; reflexivity).
  split; [exact E|].
  apply (proj1 (bind_pairs_values empty bound pairs start BSet None false I eq_refl E) (txt "page.pageSize")).
  - exists (txt "7"). eexists. split; [by left|]. split; reflexivity.
  - intros k' path' (v & r & Hin & Hr & _).
    repeat (apply elem_of_cons in Hin as [[= -> ->]|Hin]; [vm_compute in Hr; try discriminate; injection Hr as <- _|]).
    + by left.
    + right. left. done.
    + by left.
    + by apply elem_of_nil in Hin.
Defined.
End Demo.
