(* ===== verification/BuildRequest.v ===== *)
(** * Building the request message ([src/transcode/request.rs])

    A JSON body read in one pass, a form bound field by field, and the three
    sources put together. The outer [None] of an operation is a panic. *)

From stdpp Require Import relations.
From S2P Require Import Prelude Rust Json Numbers Slices Protobuf Presence Request BindPairs.

Section Build.
Context {P : ProstLib} {B : BodyLib}.

(** ** Well-known types *)

Definition as_i64 (v : PValue) : option Z := match v with PI64 n => Some n | _ => None end.
Definition as_i32 (v : PValue) : option Z := match v with PI32 n => Some n | _ => None end.

(** The seconds and nanos of a Timestamp or a Duration. *)
Definition time_fields (message : DynamicMessage) : Z * Z :=
  (default 0 (let! v := dm_get_by_name message (txt "seconds") in as_i64 v),
   default 0 (let! v := dm_get_by_name message (txt "nanos") in as_i32 v)).

Definition timestamp_ok (seconds nanos : Z) : bool :=
  ((-62135596800 <=? seconds) && (seconds <=? 253402300799)) && ((0 <=? nanos) && (nanos <=? 999999999)).

Definition duration_ok (seconds nanos : Z) : bool :=
  negb ((315576000000 <? Z.abs seconds) || (999999999 <? Z.abs nanos)
        || ((0 <? seconds) && (nanos <? 0)) || ((seconds <? 0) && (0 <? nanos))).

Definition own_time_ok (message : DynamicMessage) : result unit text :=
  let '(seconds, nanos) := time_fields message in
  let name := md_full_name (dm_descriptor message) in
  if decide (name = txt "google.protobuf.Timestamp") then
    if timestamp_ok seconds nanos then Ok tt else Err (txt "timestamp out of range")
  else if decide (name = txt "google.protobuf.Duration") then
    if duration_ok seconds nanos then Ok tt else Err (txt "duration out of range")
  else Ok tt.

(** [try_for_each]. *)
Fixpoint try_each {A} (f : A -> result unit text) (l : list A) : result unit text :=
  match l with [] => Ok tt | x :: l' => let? _ := f x in try_each f l' end.

(** [fuel] bounds the nesting of messages. *)
Fixpoint time_ranges (fuel : nat) (message : DynamicMessage) : result unit text :=
  match fuel with
  | O => Ok tt
  | S fuel' =>
      let? _ := own_time_ok message in
      try_each (fun fv => try_each (time_ranges fuel') (messages_of fv.2)) (dm_fields message)
  end.

Definition check_time_ranges (message : DynamicMessage) : result unit text :=
  time_ranges (S (dm_depth message)) message.

Definition check_well_known (message : DynamicMessage) : result unit text :=
  match (let? _ := check_time_ranges message in json_write message) with
  | Ok _ => Ok tt
  | Err e => Err (txt "invalid value for a well-known type: " ++ e)
  end.

(** ** JSON bodies *)

Definition json_ws (c : ascii) : bool :=
  bool_decide (c = ch " ") || (code c =? 9) || (code c =? 10) || (code c =? 13).

Definition trim_json_whitespace (bytes : text) : text :=
  let start := default (length bytes) (position (fun b => negb (json_ws b)) bytes) in
  let end_ := match rposition (fun b => negb (json_ws b)) bytes with Some i => S i | None => start end in
  take (end_ - start) (drop start bytes).

(** [serde_json::Map]: the value and its operations on the members. *)
Definition map_remove (key : text) (members : list (text * Value)) : list (text * Value) :=
  filter (fun m => m.1 <> key) members.
Definition map_contains (key : text) (members : list (text * Value)) : bool :=
  bool_decide (is_Some (assoc key members)).
Fixpoint map_put (key : text) (v : Value) (members : list (text * Value)) : list (text * Value) :=
  match members with
  | [] => [(key, v)]
  | (k, w) :: members' => if decide (k = key) then (k, v) :: members' else (k, w) :: map_put key v members'
  end.

Fixpoint remove_path (value : Value) (desc : MessageDescriptor) (segments : list text) {struct segments} : Value :=
  match segments with
  | [] => value
  | segment :: segments' =>
      match field_named desc segment, value with
      | Some (field, _), Object members =>
          match segments' with
          | [] => Object (map_remove (fd_name field) (map_remove (fd_json_name field) members))
          | _ =>
              match fd_kind field with
              | KMessage inner =>
                  let key := if map_contains (fd_json_name field) members then fd_json_name field else fd_name field in
                  match assoc key members with
                  | Some next => Object (map_put key (remove_path next inner segments') members)
                  | None => value
                  end
              | _ => value
              end
          end
      | _, _ => value
      end
  end.

Fixpoint strip_path_fields (body : Value) (input : MessageDescriptor) (mapping : BodyMapping) (path_params : params)
    : Value :=
  match path_params with
  | [] => body
  | (key, _) :: rest =>
      match mapping with
      | MapNone => body
      | MapRoot => strip_path_fields (remove_path body input (split (ch ".") key)) input mapping rest
      | MapField name =>
          let body :=
            match split (ch ".") key with
            | first :: segments =>
                if decide (first = name) then
                  match fd_kind <$> md_field_by_name input name with
                  | Some (KMessage inner) => remove_path body inner segments
                  | _ => body
                  end
                else body
            | [] => body
            end in
          strip_path_fields body input mapping rest
      end
  end.

(** [DynamicMessage::deserialize] of a value, recorded when a query can fill. *)
Definition deserialize_input (input : MessageDescriptor) (v : Value) (presence : option Presence)
    : result DynamicMessage text * option Presence :=
  let plain := map_result message_read (read_value reader (start_of input) v) in
  match presence with
  | None => (plain, None)
  | Some p =>
      if has_special_json input then (plain, Some (record_whole p))
      else
        let '(x, p) := read_recording reader (start_of input) v 0 p in
        (map_result message_read x, Some p)
  end.

Definition deserialize (input : MessageDescriptor) (mapping : BodyMapping) (v : Value) (presence : option Presence)
    : result DynamicMessage text * option Presence :=
  match mapping with
  | MapField name =>
      let key := match md_field_by_name input name with Some f => fd_json_name f | None => name end in
      deserialize_input input (Object [(key, v)]) presence
  | _ => deserialize_input input v presence
  end.

Definition json_body (input : MessageDescriptor) (mapping : BodyMapping) (bytes : text) (path_params : params)
    (presence : option Presence) : result DynamicMessage text * option Presence :=
  if bool_decide (mapping = MapRoot) && bool_decide (trim_json_whitespace bytes = txt "null")
  then (Ok (dm_new input), presence)
  else
    let '(first, presence) :=
      match json_doc bytes with
      | Ok v => deserialize input mapping v presence
      | Err e => (Err e, presence)
      end in
    let fail e := txt "failed to decode request body: " ++ e in
    match first with
    | Ok message => (Ok message, presence)
    | Err error =>
        if bool_decide (path_params = []) then (Err (fail error), presence)
        else match json_value bytes with
             | None => (Err (fail error), presence)
             | Some value =>
                 let value := strip_path_fields value input mapping path_params in
                 let '(x, presence) := deserialize input mapping value (presence_clear <$> presence) in
                 (match x with Ok m => Ok m | Err e => Err (fail e) end, presence)
             end
    end.

(** ** Form bodies *)

Definition form_body (input : MessageDescriptor) (mapping : BodyMapping) (pairs : list (text * text))
    (path_params : params) (presence : option Presence) : option (Build * result bool text) :=
  let message := dm_new input in
  match mapping with
  | MapField name =>
      let target :=
        match md_field_by_name input name with
        | Some f =>
            if negb (fd_is_list f) && negb (fd_is_map f) then
              match fd_kind f with KMessage inner => Some (f, inner) | _ => None end
            else None
        | None => None
        end in
      match target with
      | None => Some (mkBuild message presence, Err (txt "a form body cannot fill field `" ++ name ++ txt "`"))
      | Some (field, inner) =>
          (* [get_field_mut] sets the field *)
          let message := dm_set message field (dm_get message field) in
          let presence := (fun p => record_path p [field] true) <$> presence in
          bind_pairs (mkBuild message presence) pairs
            (mkStart input (has_special_json inner) (Some field)) BSet (Some path_params)
      end
  | _ =>
      bind_pairs (mkBuild message presence) pairs (mkStart input (has_special_json input) None) BSet
        (Some path_params)
  end.

(** ** The request *)

Fixpoint bind_path (b : Build) (start : Start) (path_params : params) (inside : bool)
    : option (Build * result bool text) :=
  match path_params with
  | [] => Some (b, Ok inside)
  | (key, raw) :: rest =>
      let! r := bind b start key [raw] BSet in
      match r.2 with
      | Err e => Some (r.1, Err e)
      | Ok set => bind_path r.1 start rest (inside || set)
      end
  end.

(** A JSON body's message, and whether a field inside a well-known type was set from a string. *)
Definition json_message (input : MessageDescriptor) (mapping : BodyMapping) (path_params : params)
    (presence : option Presence) (bytes : text) : option (Build * result bool text) :=
  let '(x, presence) := json_body input mapping bytes path_params presence in
  match x with
  | Ok m => Some (mkBuild m presence, Ok false)
  | Err e => Some (mkBuild (dm_new input) presence, Err e)
  end.

(** What the body sets. *)
Definition body_message (input : MessageDescriptor) (mapping : BodyMapping) (body : RBody) (path_params : params)
    (presence : option Presence) : option (Build * result bool text) :=
  let fresh := mkBuild (dm_new input) presence in
  let json := json_message input mapping path_params presence in
  match mapping, body with
  | MapNone, _ => Some (fresh, Ok false)
  | MapField name, Absent =>
      match presence, md_field_by_name input name with
      | Some p, Some field => Some (mkBuild (dm_new input) (Some (record_path p [field] false)), Ok false)
      | _, _ => Some (fresh, Ok false)
      end
  | MapRoot, Absent => Some (fresh, Ok false)
  | _, JsonBody [] => json (txt "{}")
  | _, FormBody [] => json (txt "{}")
  | _, JsonBody bytes => json bytes
  | _, FormBody bytes => form_body input mapping (form_parse bytes) path_params presence
  end.

Definition build (input : MessageDescriptor) (mapping : BodyMapping) (body : RBody) (path_params : params)
    (query : list (text * text)) : option (result DynamicMessage text) :=
  let presence := if bool_decide (query = []) then None else Some new_presence in
  let! r := body_message input mapping body path_params presence in
  match r.2 with
  | Err e => Some (Err e)
  | Ok inside =>
      let start := mkStart input (has_special_json input) None in
      let! r := bind_path r.1 start path_params inside in
      match r.2 with
      | Err e => Some (Err e)
      | Ok inside =>
          let filled : option (Build * result bool text) :=
            match b_presence r.1 with
            | Some _ =>
                let! q := bind_pairs r.1 query start BFill None in
                Some (q.1, map_result (orb inside) q.2)
            | None => Some (r.1, Ok inside)
            end in
          let! r := filled in
          match r.2 with
          | Err e => Some (Err e)
          | Ok inside =>
              if inside : bool
              then Some (let? _ := check_well_known (b_message r.1) in Ok (b_message r.1))
              else Some (Ok (b_message r.1))
          end
      end
  end.

Definition build_message (input : MessageDescriptor) (mapping : BodyMapping) (body : RBody) (path_params : params)
    (raw_query : option text) : option (result DynamicMessage text) :=
  build input mapping body path_params (match raw_query with Some q => form_parse q | None => [] end).
End Build.

(** * Theorems *)

(** ** What is recorded *)

Section RecordedPaths.
Context {P : ProstLib} {PL : ProstLaws P}.

Definition recorded (p : option Presence) : Prop := forall q, p = Some q -> exists f, represents q f.

Lemma recorded_path (p : option Presence) (path : list FieldDescriptor) (fields : bool) :
  recorded p -> recorded ((fun p => record_path p path fields) <$> p).
Proof.
  intros Hp q. destruct p as [p|]; cbn; [|done]. intros [= <-]. destruct (Hp p eq_refl) as [f Hf].
  destruct (record_path_represents p f path fields Hf) as [? _]. eauto.
Qed.

Lemma recorded_new (b : bool) : recorded (if b then None else Some new_presence).
Proof. intros q. destruct b; [done|]. intros [= <-]. exists Nil. split; [constructor|done]. Qed.

Lemma record_blocks (p : Presence) (path q : list FieldDescriptor) :
  (exists f, represents p f) -> blocks (record_path p path false) q = blocks p q || forest_blocks q (chain path false).
Proof.
  intros [f Hf]. destruct (record_path_represents p f path false Hf) as [Hr Hw].
  by rewrite (blocks_forest _ _ q Hr), (blocks_forest _ _ q Hf), Hw, forest_blocks_app, orb_assoc.
Qed.

(** What a recorded path does not keep from another lies apart from it. *)
Lemma chain_apart (path : list FieldDescriptor) (d : MessageDescriptor) (q : list FieldDescriptor) :
  path_of d path -> path_of d q -> forest_blocks q (chain path false) = false -> apart q path.
Proof.
  revert d q. induction path as [|f rest IH]; intros d q Hp Hq; [done|].
  destruct q as [|g q]; [done|]. apply path_cons in Hp as [Hf Hp], Hq as [Hg Hq]. cbn [chain forest_blocks orb].
  rewrite orb_false_r. intros H. cbn [apart].
  destruct (Z.eq_dec (fd_number f) (fd_number g)) as [En|En]; [|left; congruence].
  assert (f = g) as <- by (by eapply field_number_inj). right. split; [done|].
  unfold names_field in H. rewrite bool_decide_true in H by done. cbn [orb andb] in H.
  apply orb_false_iff in H as [[Hqn Hs]%orb_false_iff H].
  destruct Hp as [->|(inner & Hk & Hp)]; [done|]. destruct Hq as [->|(inner' & Hk' & Hq)]; [done|].
  assert (inner' = inner) as -> by (destruct Hk, Hk'; congruence). by eapply IH.
Qed.

(** A blocked path blocks every field above it. *)
Lemma forest_blocks_above (q rest : list FieldDescriptor) (f : Forest) :
  q <> [] -> forest_blocks (q ++ rest) f = true -> forest_blocks q f = true.
Proof.
  revert q. induction f as [|key held kids IHk next IHn]; intros q Hq; [done|].
  destruct q as [|g q]; [done|]. cbn [app forest_blocks]. intros [H|H]%orb_true_iff.
  - apply orb_true_iff. left. apply andb_true_iff in H as [-> H]. cbn [andb].
    destruct q as [|h q]; [done|]. cbn [app] in H. apply orb_true_iff in H as [H|H]; apply orb_true_iff; [by left|right].
    by apply IHk.
  - rewrite (IHn (g :: q)) by done. by rewrite orb_true_r.
Qed.

(** Two paths of a type: one above the other, or apart. *)
Lemma path_cases (d : MessageDescriptor) (p q : list FieldDescriptor) :
  path_of d p -> path_of d q -> apart p q \/ (exists r, q = p ++ r) \/ (exists r, p = q ++ r).
Proof.
  revert d q. induction p as [|f p IH]; intros d q Hp Hq; [done|]. destruct q as [|g q]; [done|].
  apply path_cons in Hp as [Hf Hp], Hq as [Hg Hq].
  destruct (Z.eq_dec (fd_number f) (fd_number g)) as [En|En]; [|left; left; congruence].
  assert (f = g) as <- by (by eapply field_number_inj).
  destruct Hp as [->|(inner & Hk & Hp)]; [right; left; by exists q|].
  destruct Hq as [->|(inner' & Hk' & Hq)]; [right; right; by exists p|].
  assert (inner' = inner) as -> by (destruct Hk, Hk'; congruence).
  destruct (IH inner q Hp Hq) as [?|[[r ->]|[r ->]]]; [left; by right|right; left; by exists r|right; right; by exists r].
Qed.

(** A field that holds no message of its own. *)
Definition leaf_path (q : list FieldDescriptor) : Prop :=
  forall f, last q = Some f -> forall inner, ~ singular_message f inner.

Lemma leaf_end (d : MessageDescriptor) (q r : list FieldDescriptor) :
  path_of d q -> path_of d (q ++ r) -> leaf_path q -> r = [].
Proof.
  revert d. induction q as [|f q IH]; intros d Hq Hr Hl; [done|]. cbn [app] in Hr.
  apply path_cons in Hq as [_ Hq], Hr as [_ Hr]. destruct q as [|g q].
  - destruct Hr as [?|(inner & Hs & _)]; [done|]. by destruct (Hl f eq_refl inner).
  - destruct Hq as [?|(inner & Hk & Hq)]; [done|]. destruct Hr as [?|(inner' & Hk' & Hr)]; [done|].
    assert (inner' = inner) as -> by (destruct Hk, Hk'; congruence). by eapply IH.
Qed.

(** What a query may set lies apart from every leaf that is blocked. *)
Lemma open_apart (p : Presence) (d : MessageDescriptor) (q path : list FieldDescriptor) :
  (exists f, represents p f) -> path_of d q -> path_of d path -> leaf_path q ->
  blocks p q = true -> blocks p path = false -> apart q path.
Proof.
  intros [f Hf] Hq Hp Hl. rewrite !(blocks_forest _ _ _ Hf). intros Hb [Hw Ho]%orb_false_iff. rewrite Hw in Hb. cbn in Hb.
  destruct (path_cases d q path Hq Hp) as [?|[[r ->]|[r ->]]]; [done| |].
  - rewrite (leaf_end d q r Hq Hp Hl), app_nil_r in Ho. congruence.
  - rewrite (forest_blocks_above path r f) in Ho; [done| |done]. by destruct path.
Qed.
End RecordedPaths.

Section BuildLaws.
Context {P : ProstLib} {PL : ProstLaws P} {B : BodyLib} {BL : BodyLaws B}.

(** ** The operations keep the records sound *)

Lemma bind_resolved_recorded (b b' : Build) (path : list FieldDescriptor) (values : list text) (binding : Binding_)
    (pp : option params) (r : result bool text) :
  path_of (dm_descriptor (b_message b)) path -> values <> [] ->
  bind_resolved b path values binding pp = Some (b', r) -> recorded (b_presence b) ->
  recorded (b_presence b') /\ dm_descriptor (b_message b') = dm_descriptor (b_message b).
Proof.
  intros Hp Hv E Hr. destruct (bind_resolved_ok b path values binding pp Hp Hv) as (b1 & r1 & E1 & _ & Hpr & H).
  rewrite E in E1. injection E1 as <- <-. split.
  - destruct Hpr as [->| ->]; [done|]. by apply recorded_path.
  - destruct r; [|by destruct H as [_ ->]]. destruct (open_path _ _ _ _); [by destruct H as (_ & ? & _)|by rewrite H].
Qed.

Section Start.
Context (start : Start) (Hstart : start_ok start).

Definition sound (b : Build) : Prop := dm_descriptor (b_message b) = s_root start /\ recorded (b_presence b).

Lemma bind_resolved_sound (b b' : Build) (key : text) (path : list FieldDescriptor) (rs : Resolved)
    (values : list text) (binding : Binding_) (pp : option params) (r : result bool text) :
  resolve start key = Some (path, rs) -> values <> [] -> sound b ->
  bind_resolved b path values binding pp = Some (b', r) -> sound b'.
Proof.
  intros Hres Hv [Hd Hr] E. destruct (resolve_ok start key path rs Hstart Hres) as (Hp & _ & _).
  destruct (bind_resolved_recorded b b' path values binding pp r) as [? Hd']; [by rewrite Hd|done..|].
  split; [congruence|done].
Qed.

Lemma bind_runs_sound (binding : Binding_) (pp : option params) (runs : list (list Item)) (s s' : Pass) :
  bind_runs start binding pp runs s = Some s' -> sound (p_build s) -> sound (p_build s').
Proof.
  revert s. induction runs as [|run runs IH]; intros s; cbn [bind_runs]; [by intros [= <-]|].
  destruct (bind_run start binding pp run s) as [s1|] eqn:E; [|done]. cbn [mbind option_bind]. intros H Hs.
  apply (IH s1 H). clear IH H. unfold bind_run in E. destruct run as [|[i [key value]] run]; [by injection E as <-|].
  destruct (resolve start key) as [[path rs]|] eqn:Er; [|by injection E as <-].
  destruct (rs_aliased rs); [by injection E as <-|].
  destruct (bind_resolved _ _ _ _ _) as [[b1 r]|] eqn:Eb; [|done]. cbn [mbind option_bind fst snd] in E.
  assert (sound b1) by (eapply bind_resolved_sound; [exact Er| |exact Hs|exact Eb]; done). by destruct r; injection E as <-.
Qed.

Lemma bind_groups_sound (binding : Binding_) (pp : option params) (order : list Item)
    (groups : list (list (text * list Item))) (b b' : Build) (inside : bool) (r : result bool text) :
  Forall (fun g => exists c run rest, g = (c, run) :: rest /\ group_items order g c <> []) groups ->
  bind_groups start binding pp order groups b inside = Some (b', r) -> sound b -> sound b'.
Proof.
  intros HF. revert b inside. induction HF as [|g groups (c & run & rest & -> & Hne) HF IH]; intros b inside;
    cbn [bind_groups]; [by intros [= <- <-]|].
  destruct (resolve start c) as [[path rs]|] eqn:Er; [|by apply IH].
  destruct (bind_resolved _ _ _ _ _) as [[b1 r1]|] eqn:Eb; [|done]. cbn [mbind option_bind fst snd]. intros H Hs.
  assert (Hs1 : sound b1).
  { eapply bind_resolved_sound; [exact Er| |done|exact Eb]. unfold item_values. intros Hn. by apply fmap_nil_inv in Hn. }
  destruct r1; [by eapply IH|by injection H as <- <-].
Qed.

Lemma bind_pairs_sound (b : Build) (pairs : list (text * text)) (binding : Binding_) (pp : option params) :
  sound b -> exists b' r, bind_pairs b pairs start binding pp = Some (b', r) /\ sound b'.
Proof.
  intros Hs. destruct (bind_pairs_ok start binding pp (b_presence b) Hstart b pairs (proj1 Hs) (fun _ => eq_refl))
    as (b' & r & _ & E & _). exists b', r. split; [done|]. unfold bind_pairs in E.
  set (order := sorted_items pairs) in *.
  set (runs := chunk_by (fun a d : Item => bool_decide (item_key a = item_key d)) order) in *.
  destruct (bind_runs start binding pp runs (mkPass b false [] [])) as [s1|] eqn:E1; [|done].
  cbn [mbind option_bind] in E. pose proof (bind_runs_sound _ _ _ _ _ E1 Hs) as Hs1.
  destruct (find_first _ (p_failed s1)) as [[k e]|]; [by injection E as <- <-|].
  destruct (bind_runs_ok start binding pp (b_presence b) Hstart runs (mkPass b false [] []) (proj1 Hs) (fun _ => eq_refl))
    as (s2 & _ & _ & E2 & _ & _ & Ha & _). rewrite E1 in E2. injection E2 as <-.
  destruct (groups_of start binding pp (b_presence b) Hstart pairs) as (_ & _ & _ & _ & _ & HF & _). fold order runs in HF.
  rewrite Ha in E. cbn [p_aliased app] in E. by eapply bind_groups_sound.
Qed.

(** ** Path parameters *)

(** What a path parameter binds. *)
Definition param_op (kv : text * text) : option (list FieldDescriptor * list text) :=
  (fun pr => (pr.1, [kv.2])) <$> resolve start kv.1.

Lemma bind_path_ok (pp : params) (b : Build) (inside : bool) :
  sound b ->
  exists b' r, bind_path b start pp inside = Some (b', r) /\ sound b' /\
    (b_presence b = None -> b_presence b' = None) /\
    (is_ok r = true ->
      writes (b_message b) (omap param_op pp) (b_message b') /\
      (forall p q, b_presence b' = Some p -> blocks p q = false -> path_of (s_root start) q ->
        (forall p0, b_presence b = Some p0 -> blocks p0 q = false) /\
        forall op, op ∈ omap param_op pp -> apart q op.1)).
Proof.
  revert b inside. induction pp as [|[key raw] pp IH]; intros b inside Hs; cbn [bind_path].
  { exists b, (Ok inside). split_and!; [done..|]. intros _. split; [constructor|]. intros p q Hp Hb _.
    split; [by intros p0; rewrite Hp; intros [= <-]|]. by intros op ?%elem_of_nil. }
  assert (Eop : param_op (key, raw) = (fun pr => (pr.1, [raw])) <$> resolve start key) by done.
  unfold bind. cbn [omap list_omap]. rewrite Eop. clear Eop.
  destruct (resolve start key) as [[path rs]|] eqn:Er; cbn [fmap option_fmap option_map mbind option_bind fst snd].
  2:{ destruct (IH b (inside || false) Hs) as (b' & r & E & ? & ? & ?). by exists b', r. }
  destruct (resolve_ok start key path rs Hstart Er) as (Hp & _ & _). pose proof Hs as [Hd Hr].
  destruct (assign_ok b path [raw] BSet) as (b1 & r1 & E1 & _ & H1); [by rewrite Hd|done|]. rewrite E1.
  cbn [mbind option_bind fst snd bool_decide decide andb] in *.
  destruct r1 as [[]|e]; cbn [map_result].
  2:{ exists b1, (Err e). destruct H1 as [Hm Hpr]. split; [done|]. unfold sound. rewrite Hm, Hpr. done. }
  destruct H1 as [Hw Hpr]. specialize (Hpr eq_refl). pose proof Hw as (_ & Hd1 & _).
  assert (Hs1 : sound b1) by (split; [congruence|rewrite Hpr; by apply recorded_path]).
  destruct (IH b1 (inside || rs_inside rs) Hs1) as (b' & r & -> & Hs' & Hn & Hok). exists b', r. split; [done|].
  split; [done|]. rewrite Hpr in Hn. split; [intros E0; apply Hn; by rewrite E0|].
  intros Hr'. destruct (Hok Hr') as [Hws Hbl]. split; [by econstructor|].
  intros p q Hp' Hb Hq. destruct (Hbl p q Hp' Hb Hq) as [Hp1 Hops]. rewrite Hpr in Hp1.
  destruct (b_presence b) as [p0|] eqn:E0; [|by rewrite Hn in Hp'].
  specialize (Hp1 _ eq_refl). rewrite record_blocks in Hp1 by by apply Hr.
  apply orb_false_iff in Hp1 as [Hp0 Hc]. split; [by intros ? [= <-]|].
  intros op [->|Hop]%elem_of_cons; [by eapply chain_apart|by apply Hops].
Qed.
End Start.

(** ** Bodies *)

Definition fresh (p : option Presence) : Prop := p = None \/ p = Some new_presence.

Lemma fresh_clear (p : option Presence) : fresh (presence_clear <$> p).
Proof. destruct p; [by right|by left]. Qed.

Lemma fresh_recorded (p : option Presence) : fresh p -> recorded p.
Proof. intros [->| ->]; [apply (recorded_new true)|apply (recorded_new false)]. Qed.

Lemma plain_descriptor (input : MessageDescriptor) (v : Value) (m : DynamicMessage) :
  map_result message_read (read_value reader (start_of input) v) = Ok m -> dm_descriptor m = input.
Proof.
  destruct (read_value _ _ _) as [x|] eqn:E; [|done]. intros [= <-]. by eapply read_descriptor.
Qed.

Lemma deserialize_input_ok (input : MessageDescriptor) (v : Value) (presence p' : option Presence)
    (x : result DynamicMessage text) :
  fresh presence -> deserialize_input input v presence = (x, p') ->
  recorded p' /\ x = map_result message_read (read_value reader (start_of input) v).
Proof.
  intros Hf. unfold deserialize_input. destruct Hf as [->| ->].
  - intros [= <- <-]. split; [apply (recorded_new true)|done].
  - destruct (has_special_json input).
    + intros [= <- <-]. split; [|done]. intros q [= <-]. exists Nil. split; [constructor|done].
    + destruct (recording_root reader v (start_of input)) as (p & f & -> & Hr & _ & _). intros [= <- <-].
      split; [|done]. intros q [= <-]. by exists f.
Qed.

Lemma deserialize_ok (input : MessageDescriptor) (mapping : BodyMapping) (v : Value) (presence p' : option Presence)
    (x : result DynamicMessage text) :
  fresh presence -> deserialize input mapping v presence = (x, p') ->
  recorded p' /\ forall m, x = Ok m -> dm_descriptor m = input.
Proof.
  intros Hf. unfold deserialize. intros H.
  assert (exists w, deserialize_input input w presence = (x, p')) as [w Hw] by (destruct mapping; by eexists).
  destruct (deserialize_input_ok input w presence p' x Hf Hw) as [? ->]. split; [done|]. apply plain_descriptor.
Qed.

Lemma json_body_ok (input : MessageDescriptor) (mapping : BodyMapping) (bytes : text) (pp : params)
    (presence p' : option Presence) (x : result DynamicMessage text) :
  fresh presence -> json_body input mapping bytes pp presence = (x, p') ->
  recorded p' /\ forall m, x = Ok m -> dm_descriptor m = input.
Proof.
  intros Hf. unfold json_body. destruct (bool_decide (mapping = MapRoot) && _).
  { intros [= <- <-]. split; [by apply fresh_recorded|]. intros m [= <-]. apply new_descriptor. }
  set (first := match json_doc bytes with Ok v => _ | Err e => _ end).
  assert (Hfirst : recorded first.2 /\ forall m, first.1 = Ok m -> dm_descriptor m = input).
  { unfold first. destruct (json_doc bytes) as [v|e]; [|by split; [apply fresh_recorded|]].
    destruct (deserialize input mapping v presence) as [y q] eqn:E. by eapply deserialize_ok. }
  destruct first as [y q]. cbn in Hfirst. destruct Hfirst as [Hq Hy]. destruct y as [m|e].
  { intros [= <- <-]. split; [done|]. by intros ? [= <-]; apply Hy. }
  case_bool_decide; [intros [= <- <-]; done|]. destruct (json_value bytes) as [v|]; [|intros [= <- <-]; done].
  destruct (deserialize _ _ _ _) as [y q'] eqn:E. intros [= <- <-].
  destruct (deserialize_ok _ _ _ _ _ _ (fresh_clear q) E) as [? Hm]. split; [done|].
  destruct y; [done|]. discriminate.
Qed.

Lemma sound_start (input : MessageDescriptor) (b : bool) : start_ok (mkStart input b None).
Proof. done. Qed.

Lemma form_body_ok (input : MessageDescriptor) (mapping : BodyMapping) (pairs : list (text * text)) (pp : params)
    (presence : option Presence) :
  fresh presence ->
  exists b r, form_body input mapping pairs pp presence = Some (b, r) /\
    (is_ok r = true -> dm_descriptor (b_message b) = input /\ recorded (b_presence b)).
Proof.
  intros Hf. apply fresh_recorded in Hf. unfold form_body.
  assert (Hplain : exists b r, bind_pairs (mkBuild (dm_new input) presence) pairs
      (mkStart input (has_special_json input) None) BSet (Some pp) = Some (b, r) /\
      (is_ok r = true -> dm_descriptor (b_message b) = input /\ recorded (b_presence b))).
  { destruct (bind_pairs_sound (mkStart input (has_special_json input) None) (sound_start _ _)
      (mkBuild (dm_new input) presence) pairs BSet (Some pp)) as (b & r & -> & Hd & Hr).
    { split; [apply new_descriptor|done]. }
    by exists b, r. }
  destruct mapping as [| |name]; [exact Hplain..|]. clear Hplain.
  destruct (md_field_by_name input name) as [f|] eqn:Ef; [|by eexists _, _].
  destruct (fd_is_list f) eqn:El; [by eexists _, _|]. destruct (fd_is_map f) eqn:Em; [by eexists _, _|]. cbn [negb andb].
  destruct (fd_kind f) as [| | | | | | | | | | | | | | |inner|] eqn:Ek; try by eexists _, _.
  destruct (bind_pairs_sound (mkStart input (has_special_json inner) (Some f))) with
    (b := mkBuild (dm_set (dm_new input) f (dm_get (dm_new input) f)) ((fun p => record_path p [f] true) <$> presence))
    (pairs := pairs) (binding := BSet) (pp := Some pp) as (b & r & -> & Hd & Hr).
  - cbn. split; [by eapply field_by_name_listed|]. by exists inner.
  - split; cbn [b_message b_presence]; [by rewrite set_descriptor, new_descriptor|by apply recorded_path].
  - by exists b, r.
Qed.

Lemma body_message_ok (input : MessageDescriptor) (mapping : BodyMapping) (body : RBody) (pp : params)
    (presence : option Presence) :
  fresh presence ->
  exists b r, body_message input mapping body pp presence = Some (b, r) /\
    (is_ok r = true -> dm_descriptor (b_message b) = input /\ recorded (b_presence b)).
Proof.
  intros Hf. unfold body_message.
  assert (Hnew : exists b r, Some (mkBuild (dm_new input) presence, Ok false) = Some (b, r : result bool text) /\
    (is_ok r = true -> dm_descriptor (b_message b) = input /\ recorded (b_presence b))).
  { eexists _, _. split; [done|]. intros _. split; [apply new_descriptor|by apply fresh_recorded]. }
  assert (Hjson : forall bytes, exists b r, json_message input mapping pp presence bytes = Some (b, r) /\
    (is_ok r = true -> dm_descriptor (b_message b) = input /\ recorded (b_presence b))).
  { intros bytes. unfold json_message. destruct (json_body input mapping bytes pp presence) as [x p'] eqn:E.
    destruct (json_body_ok _ _ _ _ _ _ _ Hf E) as [Hp Hm]. destruct x as [m|e]; eexists _, _; split; try done.
    intros _. split; [by apply Hm|done]. }
  destruct mapping as [| |name]; [done| |].
  - destruct body as [|[|c bytes]|[|c bytes]]; auto. by apply form_body_ok.
  - destruct body as [|[|c bytes]|[|c bytes]]; auto; [|by apply form_body_ok].
    destruct presence as [p|] eqn:Ep; [|done]. destruct (md_field_by_name input name) as [f|]; [|done].
    eexists _, _. split; [done|]. intros _. split; [apply new_descriptor|].
    apply (recorded_path (Some p) [f] false). by apply fresh_recorded.
Qed.

(** ** The three sources *)

(** What is recorded from. *)
Definition query_presence (query : list (text * text)) : option Presence :=
  if bool_decide (query = []) then None else Some new_presence.

Lemma query_presence_fresh (query : list (text * text)) : fresh (query_presence query).
Proof. unfold query_presence. case_bool_decide; [by left|by right]. Qed.

Definition root_start (input : MessageDescriptor) : Start := mkStart input (has_special_json input) None.

(** The query writes only what is open. *)
Definition filled (input : MessageDescriptor) (b : Build) (m : DynamicMessage) : Prop :=
  exists ops, writes (b_message b) ops m /\
    forall op, op ∈ ops -> path_of input op.1 /\ exists p, b_presence b = Some p /\ blocks p op.1 = false.

(** [build] never panics, and what it makes is the body's message, then the path
    parameters', then what the query fills. *)
Lemma request_built (input : MessageDescriptor) (mapping : BodyMapping) (body : RBody) (pp : params)
    (query : list (text * text)) :
  exists r, build input mapping body pp query = Some r /\
    forall m, r = Ok m ->
      exists b0 i0 b1 i1,
        body_message input mapping body pp (query_presence query) = Some (b0, Ok i0) /\
        bind_path b0 (root_start input) pp i0 = Some (b1, Ok i1) /\
        sound (root_start input) b0 /\ sound (root_start input) b1 /\ filled input b1 m.
Proof.
  unfold build. fold (query_presence query).
  destruct (body_message_ok input mapping body pp _ (query_presence_fresh query)) as (b0 & r0 & -> & H0).
  cbn [mbind option_bind fst snd]. destruct r0 as [i0|e]; [|by eexists].
  destruct (H0 eq_refl) as [Hd0 Hr0]. assert (Hs0 : sound (root_start input) b0) by done.
  destruct (bind_path_ok (root_start input) (sound_start _ _) pp b0 i0 Hs0) as (b1 & r1 & E1 & Hs1 & _ & H1).
  fold (root_start input). rewrite E1. cbn [mbind option_bind fst snd]. destruct r1 as [i1|e]; [|by eexists].
  assert (Hfill : exists b2 r2, match b_presence b1 with
      | Some _ => let! q := bind_pairs b1 query (root_start input) BFill None in Some (q.1, map_result (orb i1) q.2)
      | None => Some (b1, Ok i1)
      end = Some (b2, r2) /\ (is_ok r2 = true -> filled input b1 (b_message b2))).
  { destruct (b_presence b1) as [p|] eqn:Ep.
    - destruct (bind_pairs_ok (root_start input) BFill None (b_presence b1) (sound_start _ _) b1 query (proj1 Hs1)
        (fun _ => eq_refl)) as (b2 & r2 & ops & -> & Hw & _ & Hok). cbn [mbind option_bind fst snd].
      eexists b2, _. split; [done|]. destruct r2; [|done]. intros _. exists ops. split; [done|].
      intros op Hop. destruct (proj1 (Hok eq_refl) op Hop) as (Ho & k & v & r & _ & Hres).
      destruct (resolve_ok _ _ _ _ (sound_start _ _) Hres) as (Hp & _ & _). split; [done|]. exists p. split; [done|].
      unfold opens, open_path in Ho. rewrite Ep in Ho. cbn in Ho. by apply negb_true_iff in Ho.
    - exists b1, (Ok i1). split; [done|]. intros _. exists []. split; [constructor|]. by intros op ?%elem_of_nil. }
  destruct Hfill as (b2 & r2 & -> & Hf). cbn [mbind option_bind fst snd]. destruct r2 as [i2|e]; [|by eexists].
  assert (Hgoal : forall m, m = b_message b2 -> exists b3 i3 b4 i4,
    Some (b0, Ok i0) = Some (b3, Ok i3 : result bool text) /\
    bind_path b3 (root_start input) pp i3 = Some (b4, Ok i4) /\
    sound (root_start input) b3 /\ sound (root_start input) b4 /\ filled input b4 m).
  { intros m ->. exists b0, i0, b1, i1. split_and!; [done|done|done|done|apply Hf]. done. }
  destruct i2; [|eexists; split; [done|]; by intros m [= <-]; apply Hgoal].
  eexists. split; [done|]. intros m. destruct (check_well_known _); cbn; [|done]. intros [= <-]. by apply Hgoal.
Qed.

(** A request always becomes a message or an error, never a panic. *)
Theorem build_total (input : MessageDescriptor) (mapping : BodyMapping) (body : RBody) (pp : params)
    (raw_query : option text) :
  exists r, build_message input mapping body pp raw_query = Some r.
Proof.
  unfold build_message.
  destruct (request_built input mapping body pp (match raw_query with Some q => form_parse q | None => [] end)) as (r & E & _).
  by exists r.
Qed.

Lemma apart_sym (p q : list FieldDescriptor) : apart p q -> apart q p.
Proof.
  revert q. induction p as [|f p IH]; intros [|g q]; cbn; try done. intros [?|[-> ?]]; [by left|right; auto].
Qed.

(** C33: a path parameter wins: in the message of a request that succeeds its field holds the value the path
    spells, whatever the body and the query say, unless another path parameter binds the same field or one
    above or below it. *)
Theorem path_wins (input : MessageDescriptor) (mapping : BodyMapping) (body : RBody) (pp : params)
    (query : list (text * text)) (m : DynamicMessage) (i : nat) (key raw : text) (path : list FieldDescriptor)
    (rs : Resolved) :
  build input mapping body pp query = Some (Ok m) ->
  pp !! i = Some (key, raw) -> resolve (root_start input) key = Some (path, rs) ->
  (forall j key' raw' path' rs', (i < j)%nat -> pp !! j = Some (key', raw') ->
     resolve (root_start input) key' = Some (path', rs') -> apart path path') ->
  assigned m path [raw].
Proof.
  intros Hb Hi Hres Hap. destruct (request_built input mapping body pp query) as (r & E & Hok). rewrite Hb in E.
  injection E as <-. destruct (Hok m eq_refl) as (b0 & i0 & b1 & i1 & _ & E1 & Hs0 & Hs1 & ops & Hw & Hops).
  destruct (bind_path_ok (root_start input) (sound_start _ _) pp b0 i0 Hs0) as (b' & r' & E' & _ & _ & H1).
  rewrite E1 in E'. injection E' as <- <-. destruct (H1 eq_refl) as [Hw0 Hbl]. clear H1.
  destruct (resolve_ok _ _ _ _ (sound_start _ _) Hres) as (Hp & _ & _).
  assert (Hop : param_op (root_start input) (key, raw) = Some (path, [raw])).
  { unfold param_op. cbn [fst snd]. by rewrite Hres. }
  assert (Hsplit : omap (param_op (root_start input)) pp =
    omap (param_op (root_start input)) (take i pp) ++ (path, [raw]) :: omap (param_op (root_start input)) (drop (S i) pp)).
  { rewrite <- (take_drop_middle pp i (key, raw) Hi) at 1. rewrite omap_app. cbn [omap list_omap]. by rewrite Hop. }
  pose proof (writes_app _ _ _ _ _ Hw0 Hw) as Hall. rewrite Hsplit, <- app_assoc in Hall. cbn [app] in Hall.
  eapply writes_last; [exact Hall|]. intros op [Hin|Hin]%elem_of_app.
  - apply list_elem_of_omap in Hin as ([key' raw'] & Hin & E). apply list_elem_of_lookup in Hin as [j Hj].
    rewrite lookup_drop in Hj. unfold param_op in E. cbn [fst snd] in E.
    destruct (resolve (root_start input) key') as [[path' rs']|] eqn:Er; [|done]. injection E as <-.
    eapply (Hap (S i + j)%nat); [lia|done..].
  - destruct (Hops op Hin) as (Hpo & p & Ep & Hbp). destruct (Hbl p op.1 Ep Hbp Hpo) as [_ Ha]. apply apart_sym.
    apply (Ha (path, [raw])). rewrite Hsplit. apply elem_of_app. right. by left.
Qed.

(** A query never changes what was set before it: a field that holds no message and that the body or the
    path set, or that lies below what they set as a whole, has the value they gave it. *)
Theorem query_fills (input : MessageDescriptor) (mapping : BodyMapping) (body : RBody) (pp : params)
    (query : list (text * text)) (m : DynamicMessage) :
  build input mapping body pp query = Some (Ok m) ->
  exists b0 i0 b1 i1,
    body_message input mapping body pp (query_presence query) = Some (b0, Ok i0) /\
    bind_path b0 (root_start input) pp i0 = Some (b1, Ok i1) /\
    forall p q, b_presence b1 = Some p -> path_of input q -> leaf_path q -> blocks p q = true ->
      get_at m q = get_at (b_message b1) q.
Proof.
  intros Hb. destruct (request_built input mapping body pp query) as (r & E & Hok). rewrite Hb in E.
  injection E as <-. destruct (Hok m eq_refl) as (b0 & i0 & b1 & i1 & E0 & E1 & _ & [Hd1 Hr1] & ops & Hw & Hops).
  exists b0, i0, b1, i1. split; [done|]. split; [done|]. intros p q Ep Hq Hl Hbq.
  eapply writes_apart; [exact Hw|by rewrite Hd1|]. intros op Hop. destruct (Hops op Hop) as (Hpo & p' & Ep' & Ho).
  rewrite Ep in Ep'. injection Ep' as <-. eapply open_apart; eauto.
Qed.

(** ** Well-known types *)

(** A message set in a field of another, an item of its list or an entry of its map. *)
Definition set_in : relation DynamicMessage := fun m m' => exists fv, fv ∈ dm_fields m /\ m' ∈ messages_of fv.2.

Lemma try_each_ok {A} (f : A -> result unit text) (l : list A) :
  try_each f l = Ok tt <-> forall x, x ∈ l -> f x = Ok tt.
Proof.
  induction l as [|x l IH]; cbn; [split; [by intros _ x ?%elem_of_nil|done]|].
  destruct (f x) as [[]|e] eqn:E; cbn.
  - rewrite IH. split; [intros H y [->|Hy]%elem_of_cons; auto|intros H y Hy; apply H; by right].
  - split; [done|]. intros H. specialize (H x (list_elem_of_here _ _)). congruence.
Qed.

(** The check of a message whose fields were set from strings looks at every Timestamp and Duration in it,
    at any depth, inside lists and maps too, and passes exactly when each is in range. *)
Theorem time_ranges_everywhere (m : DynamicMessage) :
  check_time_ranges m = Ok tt <-> forall m', rtc set_in m m' -> own_time_ok m' = Ok tt.
Proof.
  unfold check_time_ranges. assert (Hf : (dm_depth m < S (dm_depth m))%nat) by lia. revert Hf.
  generalize (S (dm_depth m)) as fuel. intros fuel. revert m.
  induction fuel as [|fuel IH]; intros m Hf; [lia|]. cbn [time_ranges]. split.
  - intros H m' Hm'. destruct (own_time_ok m) as [[]|] eqn:E; [|done]. cbn [result_bind] in H.
    inversion Hm' as [|? m1 ? Hs Hr]; subst; [done|]. pose proof Hs as ([f v] & Hv & Hm1).
    rewrite try_each_ok in H. specialize (H _ Hv). cbn in H. rewrite try_each_ok in H.
    eapply (IH m1); [|by apply H|exact Hr]. pose proof (fields_depth _ _ _ _ Hv Hm1). lia.
  - intros H. rewrite (H m (rtc_refl _ _)). cbn [result_bind]. apply try_each_ok. intros [f v] Hv. apply try_each_ok.
    intros m1 Hm1. apply IH; [pose proof (fields_depth _ _ _ _ Hv Hm1); lia|]. intros m' Hm'. apply H.
    eapply rtc_l; [|exact Hm']. by exists (f, v).
Qed.
End BuildLaws.

(** * A request *)

Module Demo.
Import Protobuf.Model Request.Model.
#[local] Existing Instances Protobuf.Model.lib Protobuf.Model.laws Request.Model.body_lib Request.Model.body_laws.

(** [POST /search/{page.page_size}?query=q&page.pageSize=3] with a body of both fields. *)
Definition input : MessageDescriptor := TFind.
Definition built (query : option text) (size : Z) : DynamicMessage := MFind (mkFind query (Some (Some size)) None).
Definition query : list (text * text) := [(txt "query", txt "q"); (txt "page.pageSize", txt "3")].
Definition path_params : params := [(txt "page.page_size", txt "8")].

Lemma build_total_witness :
  exists r, build_message input MapRoot (JsonBody search_body) path_params (Some (txt "query=q")) = Some r.
Proof. apply build_total. Defined.

(** The path's [8] over the body's [5] and the query's [3]. *)
Lemma path_wins_witness :
  build input MapRoot (JsonBody search_body) path_params query = Some (Ok (built (Some (txt "x")) 8)) /\
  assigned (built (Some (txt "x")) 8) [FPage : FieldDescriptor; FSize] [txt "8"].
Proof.
  assert (E : build input MapRoot (JsonBody search_body) path_params query = Some (Ok (built (Some (txt "x")) 8)))
    by (vm_compute; reflexivity).
  split; [exact E|].
  eapply (path_wins input MapRoot (JsonBody search_body) path_params query _ 0 (txt "page.page_size") (txt "8") _ _ E).
  - reflexivity.
  - reflexivity.
  - intros [|j] key' raw' path' rs' Hj Hl; [lia|discriminate Hl].
Defined.

(** The body's [x] over the query's [q]; without a body the query fills it. *)
Example query_fills_unset : build input MapNone Absent path_params query = Some (Ok (built (Some (txt "q")) 8)).
Proof. vm_compute. reflexivity. Qed.

Lemma query_fills_witness :
  exists b0 i0 b1 i1,
    body_message input MapRoot (JsonBody search_body) path_params (query_presence query) = Some (b0, Ok i0) /\
    bind_path b0 (root_start input) path_params i0 = Some (b1, Ok i1) /\
    forall p q, b_presence b1 = Some p -> path_of input q -> leaf_path q -> blocks p q = true ->
      get_at (built (Some (txt "x")) 8) q = get_at (b_message b1) q.
Proof.
  apply (query_fills input MapRoot (JsonBody search_body) path_params query (built (Some (txt "x")) 8)).
  vm_compute. reflexivity.
Defined.

Lemma time_ranges_everywhere_witness :
  check_time_ranges (built None 8) = Ok tt /\ forall m', rtc set_in (built None 8) m' -> own_time_ok m' = Ok tt.
Proof.
  assert (E : check_time_ranges (built None 8) = Ok tt) by (vm_compute; reflexivity).
  split; [exact E|]. exact (proj1 (time_ranges_everywhere (built None 8)) E).
Defined.
End Demo.
