(* ===== verification/HttpBody.v ===== *)
(** * Raw bodies ([src/transcode/httpbody.rs])

    [google.api.HttpBody] messages: which fields and response paths are one, and
    the raw body they carry. The descriptor of the type itself, which the error
    details register, is data of the protobuf runtime. *)

From S2P Require Import Prelude Rust Protobuf.

Definition HTTP_BODY : text := txt "google.api.HttpBody".
Definition CONTENT_TYPE_FIELD : text := txt "content_type".
Definition DATA_FIELD : text := txt "data".

Record RawBody := mkRaw { raw_content_type : text; raw_data : text }.

Definition raw_default : RawBody := mkRaw [] [].

Section HttpBody.
Context {P : ProstLib}.

Definition is_string (k : Kind) : bool := match k with KString => true | _ => false end.
Definition is_bytes (k : Kind) : bool := match k with KBytes => true | _ => false end.

(** [field_is] of [is_http_body]. *)
Definition field_is (desc : MessageDescriptor) (name : text) (kind : Kind -> bool) : bool :=
  match md_field_by_name desc name with
  | Some field => kind (fd_kind field) && negb (fd_is_list field)
  | None => false
  end.

Definition is_http_body (desc : MessageDescriptor) : bool :=
  bool_decide (md_full_name desc = HTTP_BODY) && field_is desc CONTENT_TYPE_FIELD is_string
  && field_is desc DATA_FIELD is_bytes.

Definition http_body_field (desc : MessageDescriptor) (name : text) : option (FieldDescriptor * MessageDescriptor) :=
  let! field := md_field_by_name desc name in
  match fd_kind field with
  | KMessage inner => if negb (fd_is_list field) && is_http_body inner then Some (field, inner) else None
  | _ => None
  end.

(** The loop of [http_body_path]: the fields so far, and where the path got to. *)
Fixpoint path_fields (current : MessageDescriptor) (segments : list text) : option (list FieldDescriptor * MessageDescriptor) :=
  match segments with
  | [] => Some ([], current)
  | segment :: segments =>
      let! field := md_field_by_name current segment in
      match fd_kind field with
      | KMessage inner =>
          if fd_is_list field then None
          else let! rest := path_fields inner segments in Some (field :: rest.1, rest.2)
      | _ => None
      end
  end.

Definition http_body_path (desc : MessageDescriptor) (path : text) : option (list FieldDescriptor) :=
  let! found := path_fields desc (split (ch ".") path) in
  if is_http_body found.2 then Some found.1 else None.

Fixpoint take_raw (msg : DynamicMessage) (path : list FieldDescriptor) : RawBody :=
  match path with
  | field :: path =>
      match (dm_take msg field).1 with
      | Some (PMessage inner) => take_raw inner path
      | _ => raw_default
      end
  | [] =>
      let '(taken, msg) := dm_take_by_name msg CONTENT_TYPE_FIELD in
      let content_type := match taken with Some (PString content_type) => content_type | _ => [] end in
      let data := match (dm_take_by_name msg DATA_FIELD).1 with Some (PBytes data) => data | _ => [] end in
      mkRaw content_type data
  end.

Definition fill (msg : DynamicMessage) (content_type data : text) : DynamicMessage :=
  dm_set_by_name (dm_set_by_name msg CONTENT_TYPE_FIELD (PString content_type)) DATA_FIELD (PBytes data).

(** ** Laws *)

Context {PL : ProstLaws P}.

(** The two fields of an HttpBody. *)
Definition body_fields (desc : MessageDescriptor) (ct data : FieldDescriptor) : Prop :=
  md_field_by_name desc CONTENT_TYPE_FIELD = Some ct /\ md_field_by_name desc DATA_FIELD = Some data /\
  fd_kind ct = KString /\ fd_kind data = KBytes /\ fd_is_list ct = false /\ fd_is_list data = false.

Lemma http_body_fields (desc : MessageDescriptor) :
  is_http_body desc = true <-> md_full_name desc = HTTP_BODY /\ exists ct data, body_fields desc ct data.
Proof.
  unfold is_http_body, field_is, body_fields. rewrite !andb_true_iff, bool_decide_eq_true. split.
  - intros [[H H1] H2]. split; [done|].
    destruct (md_field_by_name desc CONTENT_TYPE_FIELD) as [ct|] eqn:E1; [|done].
    destruct (md_field_by_name desc DATA_FIELD) as [data|] eqn:E2; [|done].
    exists ct, data. apply andb_true_iff in H1 as [K1 L1], H2 as [K2 L2]. apply negb_true_iff in L1, L2.
    split_and!; try done; [by destruct (fd_kind ct)|by destruct (fd_kind data)].
  - intros [H (ct & data & E1 & E2 & K1 & K2 & L1 & L2)]. by rewrite E1, E2, K1, K2, L1, L2.
Qed.

Lemma scalar_no_map (f : FieldDescriptor) : is_string (fd_kind f) || is_bytes (fd_kind f) = true -> fd_is_map f = false.
Proof.
  intros H. destruct (fd_is_map f) eqn:E; [|done]. apply map_message in E as [d E]. by rewrite E in H.
Qed.

Section Fields.
Context (desc : MessageDescriptor) (ct data : FieldDescriptor) (Hf : body_fields desc ct data).

Lemma ct_valid (s : text) : field_valid ct (PString s).
Proof using Hf PL.
  destruct Hf as (_ & _ & K & _ & L & _). split; [apply scalar_no_map; by rewrite K|]. by rewrite L, K.
Qed.

Lemma data_valid (b : text) : field_valid data (PBytes b).
Proof using Hf PL.
  destruct Hf as (_ & _ & _ & K & _ & L). split; [apply scalar_no_map; by rewrite K|]. by rewrite L, K.
Qed.

Lemma body_listed : ct ∈ md_fields desc /\ data ∈ md_fields desc /\ ct <> data.
Proof using Hf PL.
  destruct Hf as (E1 & E2 & K1 & K2 & _). split_and!; [by eapply field_by_name_listed..|]. intros ->. congruence.
Qed.

(** Reading a field that holds a string or bytes, whether it counts as set. *)
Lemma take_set (m : DynamicMessage) (s b : text) :
  dm_descriptor m = desc ->
  match (dm_take (dm_set m ct (PString s)) ct).1 with Some (PString s) => s | _ => [] end = s /\
  match (dm_take (dm_set m data (PBytes b)) data).1 with Some (PBytes b) => b | _ => [] end = b.
Proof using Hf PL.
  intros Hd. destruct body_listed as (L1 & L2 & _). destruct Hf as (_ & _ & K1 & K2 & N1 & N2).
  rewrite <- Hd in L1, L2. rewrite !take_value by (by rewrite set_descriptor).
  split.
  - destruct (has_set m ct (PString s) L1 N1 (ct_valid s)) as [-> |Hz].
    { by rewrite get_set by (done || apply ct_valid). }
    rewrite K1 in Hz. cbn in Hz. subst s. destruct (dm_has _ _); [|done].
    by rewrite get_set by (done || apply ct_valid).
  - destruct (has_set m data (PBytes b) L2 N2 (data_valid b)) as [-> |Hz].
    { by rewrite get_set by (done || apply data_valid). }
    rewrite K2 in Hz. cbn in Hz. subst b. destruct (dm_has _ _); [|done].
    by rewrite get_set by (done || apply data_valid).
Qed.
End Fields.

(** The fields are apart in the descriptor: no oneof holds both. *)
Definition apart_fields (desc : MessageDescriptor) : Prop :=
  forall ct data, body_fields desc ct data -> ~ rivals data ct.

(** What a filled HttpBody carries is what it was filled with. *)
Lemma take_fill (m : DynamicMessage) (content_type data : text) :
  is_http_body (dm_descriptor m) = true -> apart_fields (dm_descriptor m) ->
  take_raw (fill m content_type data) [] = mkRaw content_type data.
Proof.
  intros H Hap. apply http_body_fields in H as (_ & ctf & df & Hf). pose proof (Hap ctf df Hf) as Hr.
  destruct (body_listed _ _ _ Hf) as (L1 & L2 & Hne). pose proof Hf as (E1 & E2 & K1 & K2 & N1 & N2).
  unfold take_raw, fill, dm_set_by_name. rewrite E1, set_descriptor, E2.
  unfold dm_take_by_name. rewrite !set_descriptor, E1.
  set (m1 := dm_set m ctf (PString content_type)). set (m2 := dm_set m1 df (PBytes data)).
  destruct (dm_take m2 ctf) as [taken rest] eqn:Et.
  assert (D1 : dm_descriptor m1 = dm_descriptor m) by apply set_descriptor.
  assert (D2 : dm_descriptor m2 = dm_descriptor m) by (unfold m2; by rewrite set_descriptor).
  assert (D3 : dm_descriptor rest = dm_descriptor m).
  { pose proof (take_descriptor m2 ctf) as HD. rewrite Et in HD. cbn in HD. congruence. }
  rewrite D3, E2. pose proof (ct_valid _ _ _ Hf content_type) as V1. pose proof (data_valid _ _ _ Hf data) as V2.
  (** The content type survives the data set after it, and the data the content type taken before it. *)
  assert (Ect : taken = (dm_take m1 ctf).1).
  { pose proof (take_value m2 ctf) as H2. rewrite Et in H2. cbn in H2. rewrite H2 by (by rewrite D2).
    rewrite take_value by (by rewrite D1). unfold m2.
    rewrite has_set_other by (done || (by rewrite D1)).
    by rewrite get_set_other by (done || (by rewrite D1) || by left). }
  assert (Ed : (dm_take rest df).1 = (dm_take m2 df).1).
  { rewrite !take_value by (by rewrite ?D2, ?D3).
    pose proof (take_other m2 ctf df) as Ho. rewrite Et in Ho. cbn in Ho.
    destruct Ho as [-> ->]; rewrite ?D2; done || congruence. }
  rewrite Ect, Ed. f_equal.
  - apply (take_set _ ctf df Hf m content_type data eq_refl).
  - apply (take_set _ ctf df Hf m1 content_type data D1).
Qed.

(** A raw body put in the field of a message comes out of it. *)
Lemma take_field_fill (m : DynamicMessage) (field : FieldDescriptor) (inner : MessageDescriptor) (content_type data : text) :
  field ∈ md_fields (dm_descriptor m) -> fd_kind field = KMessage inner -> fd_is_list field = false ->
  fd_is_map field = false -> is_http_body inner = true -> apart_fields inner ->
  take_raw (dm_set m field (PMessage (fill (dm_new inner) content_type data))) [field] = mkRaw content_type data.
Proof.
  intros Hl Hk Hn Hm Hb Hap. cbn [take_raw].
  assert (Hd : dm_descriptor (fill (dm_new inner) content_type data) = inner).
  { unfold fill, dm_set_by_name. rewrite new_descriptor. destruct (md_field_by_name inner _); repeat case_match;
      by rewrite ?set_descriptor, ?new_descriptor. }
  assert (Hv : field_valid field (PMessage (fill (dm_new inner) content_type data))).
  { split; [done|]. by rewrite Hn, Hk. }
  rewrite take_value by (by rewrite set_descriptor).
  destruct (has_set m field _ Hl Hn Hv) as [-> |Hz]; [|by rewrite Hk in Hz].
  rewrite get_set by done. apply take_fill; by rewrite new_descriptor.
Qed.
End HttpBody.
