(* ===== verification/Rule.v ===== *)
(** * HTTP rules and the selection of RPCs ([src/transcode/rule.rs], [src/transcode/select.rs])

    The bindings a [google.api.http] option gives an RPC, and which RPCs are
    transcoded. Services, methods and their options are the descriptors of the
    interface [ServiceLib]. *)

From S2P Require Import Prelude Rust Http Protobuf Presence Request Table.

(** [prost_reflect]'s pools, services, methods and extensions. *)
Class ServiceLib {P : ProstLib} : Type := {
  DescriptorPool : Type;
  ServiceDescriptor : Type;
  MethodDescriptor : Type;
  ExtensionDescriptor : Type;
  pool_services : DescriptorPool -> list ServiceDescriptor;
  pool_service_by_name : DescriptorPool -> text -> option ServiceDescriptor;
  pool_extension_by_name : DescriptorPool -> text -> option ExtensionDescriptor;
  pool_message_by_name : DescriptorPool -> text -> option MessageDescriptor;
  pool_all_messages : DescriptorPool -> list MessageDescriptor;
  sd_full_name : ServiceDescriptor -> text;
  sd_methods : ServiceDescriptor -> list MethodDescriptor;
  mt_name : MethodDescriptor -> text;
  mt_parent : MethodDescriptor -> ServiceDescriptor;
  mt_input : MethodDescriptor -> MessageDescriptor;
  mt_output : MethodDescriptor -> MessageDescriptor;
  mt_client_streaming : MethodDescriptor -> bool;
  mt_server_streaming : MethodDescriptor -> bool;
  mt_options : MethodDescriptor -> DynamicMessage;
  dm_has_extension : DynamicMessage -> ExtensionDescriptor -> bool;
  dm_get_extension : DynamicMessage -> ExtensionDescriptor -> PValue_ DynamicMessage;
}.

(** ** The selection *)

Record Name := mkName { nm_service : text; nm_method : option text }.

Record RpcSelection := mkSelection { sl_names : list Name }.

(** A name that is not a service or method of the descriptors. *)
Inductive selection_error := UnknownName (name : text).

Record HttpBinding := mkHttpBinding {
  hb_method : RouteMethod;
  hb_path : text;
  hb_body : BodyMapping;
  hb_response_body : option text;
}.

Section Rules.
Context {HT : HttpLib} {P : ProstLib} {SL : ServiceLib}.

Definition select_name (pool : DescriptorPool) (name : text) : result Name selection_error :=
  let '(service, method) :=
    match split_once (ch "/") name with
    | Some (service, method) => (service, Some method)
    | None => (name, None)
    end in
  let known :=
    match pool_service_by_name pool service with
    | Some found =>
        match method with
        | None => true
        | Some method => existsb (fun m => bool_decide (mt_name m = method)) (sd_methods found)
        end
    | None => false
    end in
  if negb known then Err (UnknownName name) else Ok (mkName service method).

(** [RpcSelection::new]. *)
Definition selection_new (pool : DescriptorPool) (names : list text) : result RpcSelection selection_error :=
  let? names := collect_results (select_name pool) names in Ok (mkSelection names).

Definition is_all (s : RpcSelection) : bool := match sl_names s with [] => true | _ => false end.

Definition selects (s : RpcSelection) (method : MethodDescriptor) : bool :=
  is_all s ||
  let service := mt_parent method in
  existsb (fun name =>
      bool_decide (nm_service name = sd_full_name service) &&
      match nm_method name with None => true | Some m => bool_decide (m = mt_name method) end)
    (sl_names s).

(** ** The rules *)

Definition string_field (msg : DynamicMessage) (name : text) : option text :=
  match dm_get_by_name msg name with
  | Some (PString s) => if decide (s = []) then None else Some s
  | _ => None
  end.

Definition STANDARD : list (text * text) :=
  [(txt "get", txt "GET"); (txt "put", txt "PUT"); (txt "post", txt "POST"); (txt "delete", txt "DELETE");
   (txt "patch", txt "PATCH")].

(** [Iterator::find_map]. *)
Fixpoint find_map {A C} (f : A -> option C) (l : list A) : option C :=
  match l with [] => None | x :: l' => match f x with Some c => Some c | None => find_map f l' end end.

Definition standard_pattern (rule : DynamicMessage) : option (RouteMethod * text) :=
  find_map (fun nm => let! path := string_field rule nm.1 in Some (One nm.2, path)) STANDARD.

Definition custom_pattern (rule : DynamicMessage) : option (RouteMethod * text) :=
  match dm_get_by_name rule (txt "custom") with
  | Some (PMessage custom) =>
      let! kind := string_field custom (txt "kind") in
      let! path := string_field custom (txt "path") in
      if decide (kind = txt "*") then Some (Any, path)
      else let! method := method_of kind in Some (One method, path)
  | _ => None
  end.

Definition parse_http_rule (rule : DynamicMessage) : option HttpBinding :=
  let! mp := match standard_pattern rule with Some mp => Some mp | None => custom_pattern rule end in
  let body := match string_field rule (txt "body") with Some body => mapping_parse body | None => MapNone end in
  Some (mkHttpBinding mp.1 mp.2 body (string_field rule (txt "response_body"))).

Definition collect_bindings (rule : DynamicMessage) : list HttpBinding :=
  option_list (parse_http_rule rule) ++
  match dm_get_by_name rule (txt "additional_bindings") with
  | Some (PList items) => omap (fun item => match item with PMessage sub => parse_http_rule sub | _ => None end) items
  | _ => []
  end.

Definition http_bindings (method : MethodDescriptor) (http_ext : ExtensionDescriptor) : list HttpBinding :=
  let options := mt_options method in
  if negb (dm_has_extension options http_ext) then []
  else match dm_get_extension options http_ext with PMessage rule => collect_bindings rule | _ => [] end.

(** ** Laws *)

(** A selection is built of known names only, and none of them when it is empty. *)
Lemma selection_known (pool : DescriptorPool) (names : list text) (s : RpcSelection) :
  selection_new pool names = Ok s ->
  length (sl_names s) = length names /\
  Forall (fun n => exists service, pool_service_by_name pool (nm_service n) = Some service /\
            forall m, nm_method n = Some m -> exists method, method ∈ sd_methods service /\ mt_name method = m)
    (sl_names s).
Proof.
  unfold selection_new. destruct (collect_results _ names) as [ns|] eqn:E; [|done]. cbn. intros [= <-]. cbn [sl_names].
  revert ns E. induction names as [|n names IH]; intros ns; cbn; [by intros [= <-]|].
  destruct (select_name pool n) as [nm|] eqn:En; cbn; [|done].
  destruct (collect_results _ names) as [ns'|]; cbn; [|done]. intros [= <-].
  destruct (IH ns' eq_refl) as [Hl HF]. split; [cbn; congruence|]. constructor; [|done].
  unfold select_name in En. destruct (split_once (ch "/") n) as [[service method]|]; cbn in En.
  - destruct (pool_service_by_name pool service) as [found|] eqn:Ep; cbn in En; [|done].
    destruct (existsb _ (sd_methods found)) eqn:Ee; cbn in En; [|done]. injection En as <-. cbn.
    exists found. split; [done|]. intros m [= <-]. apply existsb_exists in Ee as (x & Hx & Hn%bool_decide_eq_true).
    exists x. split; [by apply list_elem_of_In|done].
  - destruct (pool_service_by_name pool n) as [found|] eqn:Ep; cbn in En; [|done]. injection En as <-. cbn.
    by exists found.
Qed.

Lemma find_map_Some {A C} (f : A -> option C) (l : list A) (c : C) :
  find_map f l = Some c -> exists x, x ∈ l /\ f x = Some c.
Proof.
  induction l as [|x l IH]; cbn; [done|]. destruct (f x) as [d|] eqn:E.
  - intros [= <-]. exists x. split; [by left|done].
  - intros H. destruct (IH H) as (y & Hy & Ey). exists y. split; [by right|done].
Qed.

Context {HL : HttpLaws HT}.

(** A binding names a method token, never the star of [custom], and a path that is not empty. *)
Lemma binding_method_token (rule : DynamicMessage) (b : HttpBinding) :
  b ∈ collect_bindings rule -> method_str (hb_method b) <> [] /\ hb_method b <> One (txt "*") /\ hb_path b <> [].
Proof.
  assert (Hs : forall m n s, string_field m n = Some s -> s <> []).
  { intros m n s. unfold string_field. destruct (dm_get_by_name m n) as [[]|]; try done. case_decide; [done|].
    by intros [= <-]. }
  assert (Hp : forall rule b, parse_http_rule rule = Some b ->
    method_str (hb_method b) <> [] /\ hb_method b <> One (txt "*") /\ hb_path b <> []).
  { intros r c. unfold parse_http_rule. destruct (standard_pattern r) as [[m p]|] eqn:Es.
    - intros [= <-]. cbn. apply find_map_Some in Es as ([k v] & Hin & E). cbn in E.
      destruct (string_field r k) as [path|] eqn:Ek; [|done]. injection E as <- <-. cbn.
      cut (v <> [] /\ One v <> One (txt "*")); [intros []; split_and!; [done..|by eapply Hs]|]. unfold STANDARD in Hin. repeat (apply elem_of_cons in Hin as [Hin|Hin]; [by injection Hin as -> ->|]).
      by apply elem_of_nil in Hin.
    - destruct (custom_pattern r) as [[m p]|] eqn:Ec; [|done]. intros [= <-]. cbn. unfold custom_pattern in Ec.
      destruct (dm_get_by_name r (txt "custom")) as [[]|]; try done.
      destruct (string_field _ (txt "kind")) as [kind|] eqn:Ek; [|done].
      destruct (string_field _ (txt "path")) as [path|] eqn:Ep; [|done]. cbn in Ec.
      case_decide; [injection Ec as <- <-; split_and!; [done|done|by eapply Hs]|].
      destruct (method_of kind) as [method|] eqn:Em; [|done]. injection Ec as <- <-. cbn.
      apply method_of_same in Em as ->. split_and!; [by eapply Hs|congruence|by eapply Hs]. }
  unfold collect_bindings. rewrite elem_of_app. intros [Hin|Hin].
  - destruct (parse_http_rule rule) as [c|] eqn:E; [|by apply elem_of_nil in Hin].
    apply list_elem_of_singleton in Hin as ->. by apply (Hp rule).
  - destruct (dm_get_by_name rule (txt "additional_bindings")) as [[]|]; try by apply elem_of_nil in Hin.
    apply list_elem_of_omap in Hin as ([] & _ & E); try done. by eapply Hp.
Qed.
End Rules.
