(* ===== verification/Details.v ===== *)
(** * Status details ([StatusDetails] of [src/transcode/error.rs])

    The typed details of an upstream error rendered as ProtoJSON, with every
    [google.rpc.DebugInfo] removed, however deep it is packed. The pool they
    resolve in is completed with the canonical types, which is [Canonical]'s; it is
    an argument here. Decoding, encoding and ProtoJSON are the protobuf runtime's
    ([DetailLib]). *)

From S2P Require Import Prelude Rust Json Http Protobuf Presence Request Status Table Rule.

(** ** The protobuf runtime *)

(** [tonic_types::pb::Status], with the [Any]s of its details. *)
Record PbStatus := mkPbStatus { ps_code : Z; ps_message : text; ps_details : list (text * text) }.

Class DetailLib {P : ProstLib} {SL : ServiceLib} : Type := {
  (** Writing through [fields_mut] and [extensions_mut]; clearing. *)
  dm_put : DynamicMessage -> FieldDescriptor -> PValue_ DynamicMessage -> DynamicMessage;
  dm_clear : DynamicMessage -> FieldDescriptor -> DynamicMessage;
  ext_values : DynamicMessage -> list (ExtensionDescriptor * PValue_ DynamicMessage);
  ext_kind : ExtensionDescriptor -> Kind_ MessageDescriptor EnumDescriptor;
  ext_put : DynamicMessage -> ExtensionDescriptor -> PValue_ DynamicMessage -> DynamicMessage;
  ext_clear : DynamicMessage -> ExtensionDescriptor -> DynamicMessage;
  dm_decode : MessageDescriptor -> text -> option DynamicMessage;
  dm_encode : DynamicMessage -> text;
  (** [serialize_with_options] with the default options. *)
  dm_json : DynamicMessage -> option Value;
  status_decode : text -> option PbStatus;
  base64_encode : text -> text;
  (** How many messages and bytes of strings a message holds, itself included. *)
  dm_weight : DynamicMessage -> nat;
}.

Section Records.
Context {HT : HttpLib} {P : ProstLib} {SL : ServiceLib}.

(** [tonic::Status]. *)
Record TStatus := mkStatus {
  st_code : Code;
  st_message : text;
  st_details : text;
  st_metadata : HeaderMap;
}.

Record StatusDetails := mkDetails { sd_pool : DescriptorPool; sd_opaque : bool }.
End Records.

Definition DEBUG_INFO : text := txt "google.rpc.DebugInfo".
Definition ANY : text := txt "google.protobuf.Any".

(** [has_special_json] of [error.rs]. *)
Definition SPECIAL_JSON : list text :=
  [ANY; txt "google.protobuf.Timestamp"; txt "google.protobuf.Duration"; txt "google.protobuf.Struct";
   txt "google.protobuf.FloatValue"; txt "google.protobuf.DoubleValue"; txt "google.protobuf.Int32Value";
   txt "google.protobuf.Int64Value"; txt "google.protobuf.UInt32Value"; txt "google.protobuf.UInt64Value";
   txt "google.protobuf.BoolValue"; txt "google.protobuf.StringValue"; txt "google.protobuf.BytesValue";
   txt "google.protobuf.FieldMask"; txt "google.protobuf.ListValue"; txt "google.protobuf.Value";
   txt "google.protobuf.Empty"].

Definition wraps_json (full_name : text) : bool := bool_decide (full_name ∈ SPECIAL_JSON).

(** A computation that may run out of fuel or find the status malformed. *)
Abbreviation run A := (option (result A unit)).

Definition run_bind {A B} (e : run A) (k : A -> run B) : run B :=
  match e with Some (Ok a) => k a | Some (Err e) => Some (Err e) | None => None end.
Notation "'let*' x := e 'in' k" := (run_bind e (fun x => k))
  (at level 10, x name, e at level 100, k at level 200).

Definition done_ {A} (a : A) : run A := Some (Ok a).
Definition malformed {A} : run A := Some (Err tt).

Section Scrub.
Context {HT : HttpLib} {P : ProstLib} {SL : ServiceLib} {D : DetailLib}.

Definition details_new (completed : DescriptorPool) : StatusDetails := mkDetails completed false.
Definition details_with_opaque (d : StatusDetails) (enabled : bool) : StatusDetails := mkDetails (sd_pool d) enabled.

(** [StatusDetails::resolve]. *)
Definition resolve_type (d : StatusDetails) (type_name : text) : option MessageDescriptor :=
  pool_message_by_name (sd_pool d) type_name.

Section Values.
(** [scrub] itself: [None] when the message must go, or whether it changed. *)
Context (scrub : DynamicMessage -> run (option (bool * DynamicMessage))).

(** The elements of a list that stay, and whether one of them changed. *)
Fixpoint scrub_items (items : list PValue) : run (list PValue * bool) :=
  match items with
  | [] => done_ ([], false)
  | PMessage inner :: items =>
      let* scrubbed := scrub inner in
      let* rest := scrub_items items in
      match scrubbed with
      | Some (changed, inner) => done_ (PMessage inner :: rest.1, changed || rest.2)
      | None => done_ rest
      end
  | item :: items => let* rest := scrub_items items in done_ (item :: rest.1, rest.2)
  end.

(** The entries of a map that stay. *)
Fixpoint scrub_entries (entries : list (MapKey * PValue)) : run (list (MapKey * PValue) * bool) :=
  match entries with
  | [] => done_ ([], false)
  | (key, PMessage inner) :: entries =>
      let* scrubbed := scrub inner in
      let* rest := scrub_entries entries in
      match scrubbed with
      | Some (changed, inner) => done_ ((key, PMessage inner) :: rest.1, changed || rest.2)
      | None => done_ (rest.1, true)
      end
  | entry :: entries => let* rest := scrub_entries entries in done_ (entry :: rest.1, rest.2)
  end.

(** [scrub_value]: [None] when the value is a message that must go. *)
Definition scrub_value (value : PValue) : run (option (PValue * bool)) :=
  match value with
  | PMessage inner =>
      let* scrubbed := scrub inner in
      done_ (match scrubbed with Some (changed, inner) => Some (PMessage inner, changed) | None => None end)
  | PList items =>
      let* kept := scrub_items items in
      done_ (Some (PList kept.1, kept.2 || negb (length kept.1 =? length items)%nat))
  | PMap entries => let* kept := scrub_entries entries in done_ (Some (PMap kept.1, kept.2))
  | _ => done_ (Some (value, false))
  end.

(** The loop over the set fields: the message so far, whether it changed and the
    fields to clear; [None] when a required one must go. *)
Fixpoint scrub_fields (set : list (FieldDescriptor * PValue)) (msg : DynamicMessage) (changed : bool)
    (dropped : list FieldDescriptor) : run (option (DynamicMessage * bool * list FieldDescriptor)) :=
  match set with
  | [] => done_ (Some (msg, changed, dropped))
  | (field, value) :: set =>
      match fd_kind field with
      | KMessage _ =>
          let* scrubbed := scrub_value value in
          match scrubbed with
          | Some (value, ch) => scrub_fields set (dm_put msg field value) (changed || ch) dropped
          | None => if fd_required field then done_ None else scrub_fields set msg changed (dropped ++ [field])
          end
      | _ => scrub_fields set msg changed dropped
      end
  end.

Fixpoint scrub_extensions (set : list (ExtensionDescriptor * PValue)) (msg : DynamicMessage) (changed : bool)
    (dropped : list ExtensionDescriptor) : run (DynamicMessage * bool * list ExtensionDescriptor) :=
  match set with
  | [] => done_ (msg, changed, dropped)
  | (extension, value) :: set =>
      match ext_kind extension with
      | KMessage _ =>
          let* scrubbed := scrub_value value in
          match scrubbed with
          | Some (value, ch) => scrub_extensions set (ext_put msg extension value) (changed || ch) dropped
          | None => scrub_extensions set msg changed (dropped ++ [extension])
          end
      | _ => scrub_extensions set msg changed dropped
      end
  end.

Definition lacks_required (msg : DynamicMessage) : bool :=
  existsb (fun f => fd_required f && negb (dm_has msg f)) (md_fields (dm_descriptor msg)).

(** [scrub] of a message that is neither an [Any] nor a DebugInfo. *)
Definition scrub_message (msg : DynamicMessage) : run (option (bool * DynamicMessage)) :=
  if lacks_required msg then malformed
  else
    let* fields := scrub_fields (dm_fields msg) msg false [] in
    match fields with
    | None => done_ None
    | Some (msg, changed, dropped_fields) =>
        let* extensions := scrub_extensions (ext_values msg) msg changed [] in
        let '(msg, changed, dropped_extensions) := extensions in
        let changed := changed || negb (length dropped_fields =? 0)%nat || negb (length dropped_extensions =? 0)%nat in
        done_ (Some (changed, foldl ext_clear (foldl dm_clear msg dropped_fields) dropped_extensions))
    end.

Definition TYPE_URL : text := txt "type_url".
Definition VALUE : text := txt "value".

Definition any_type_url (any : DynamicMessage) : text :=
  match dm_get_by_name any TYPE_URL with Some (PString url) => url | _ => [] end.
Definition any_value (any : DynamicMessage) : text :=
  match dm_get_by_name any VALUE with Some (PBytes bytes) => bytes | _ => [] end.

(** [scrub_any]. *)
Definition scrub_any (d : StatusDetails) (any : DynamicMessage) : run (option (bool * DynamicMessage)) :=
  match any_type_name (any_type_url any) with
  | None => malformed
  | Some type_name =>
      if decide (type_name = DEBUG_INFO) then done_ None
      else
        match resolve_type d type_name with
        | None => done_ (Some (false, any))
        | Some desc =>
            match dm_decode desc (any_value any) with
            | None => malformed
            | Some inner =>
                let* scrubbed := scrub inner in
                match scrubbed with
                | None => done_ None
                | Some (false, _) => done_ (Some (false, any))
                | Some (true, inner) => done_ (Some (true, dm_set_by_name any VALUE (PBytes (dm_encode inner))))
                end
            end
        end
  end.
End Values.

(** [StatusDetails::scrub]. *)
Fixpoint scrub (d : StatusDetails) (fuel : nat) (msg : DynamicMessage) : run (option (bool * DynamicMessage)) :=
  match fuel with
  | O => None
  | S fuel =>
      if decide (md_full_name (dm_descriptor msg) = ANY) then scrub_any (scrub d fuel) d msg
      else if decide (md_full_name (dm_descriptor msg) = DEBUG_INFO) then done_ None
      else scrub_message (scrub d fuel) msg
  end.

(** ** Rendering *)

Definition AT_TYPE : text := txt "@type".

(** The ProtoJSON [Any] of a message's JSON. *)
Definition any_json (type_url : text) (desc : MessageDescriptor) (json : Value) : run Value :=
  match json, wraps_json (md_full_name desc) with
  | Object fields, false =>
      if bool_decide (AT_TYPE ∈ fields.*1) then malformed
      else done_ (Object ((AT_TYPE, Str type_url) :: fields))
  | other, _ => done_ (Object [(AT_TYPE, Str type_url); (VALUE, other)])
  end.

(** [StatusDetails::typed_entry]. *)
Definition typed_entry (d : StatusDetails) (type_url : text) (desc : MessageDescriptor) (value : text)
    : run (option Value) :=
  match dm_decode desc value with
  | None => malformed
  | Some msg =>
      let* scrubbed := scrub d (S (dm_weight msg)) msg in
      match scrubbed with
      | None => done_ None
      | Some (_, msg) =>
          match dm_json msg with
          | None => malformed
          | Some json => let* entry := any_json type_url desc json in done_ (Some entry)
          end
      end
  end.

(** The loop of [render] over the details, with the entries so far and their count. *)
Fixpoint render_details (d : StatusDetails) (details : list (text * text)) (index : Z) (acc : RenderedDetails)
    : run RenderedDetails :=
  match details with
  | [] => done_ acc
  | (type_url, value) :: details =>
      match any_type_name type_url with
      | None => malformed
      | Some type_name =>
          if decide (type_name = DEBUG_INFO) then render_details d details index acc
          else
            match resolve_type d type_name with
            | Some desc =>
                let* entry := typed_entry d type_url desc value in
                match entry with
                | Some entry => render_details d details (index + 1) (mkRendered (d_details acc ++ [entry]) (d_opaque acc))
                | None => render_details d details index acc
                end
            | None =>
                if sd_opaque d then
                  render_details d details (index + 1)
                    (mkRendered (d_details acc) (d_opaque acc ++ [opaque_entry base64_encode index type_url value]))
                else render_details d details index acc
            end
      end
  end.

(** [StatusDetails::render]. *)
Definition details_render (d : StatusDetails) (status : TStatus) : run RenderedDetails :=
  match st_details status with
  | [] => done_ no_details
  | raw =>
      match status_decode raw with
      | None => malformed
      | Some decoded =>
          if negb (ps_code decoded =? code_number (st_code status)) || negb (bool_decide (ps_message decoded = st_message status))
          then malformed
          else render_details d (ps_details decoded) 0 no_details
      end
  end.

(** [render] and [error_body], with what the details of the status came to. *)
Definition status_render (status : TStatus) (details : option StatusDetails) : option (Code * Value * bool) :=
  match details with
  | None => Some (render (st_code status) (st_message status) None)
  | Some d =>
      let! rendered := details_render d status in
      Some (render (st_code status) (st_message status)
              (Some (match rendered with Ok rendered => Some rendered | Err _ => None end)))
  end.

Definition error_body (status : TStatus) (details : option StatusDetails) : option Value :=
  (fun r => r.1.2) <$> status_render status details.
End Scrub.

(** * Laws *)

Class DetailLaws {P : ProstLib} {SL : ServiceLib} (D : DetailLib) : Prop := {
  (** A message field written holds the messages written, the others are as they were. *)
  put_fields m f v g w :
    (g, w) ∈ dm_fields (dm_put m f v) -> (g = f /\ messages_of w ⊆ messages_of v) \/ (g <> f /\ (g, w) ∈ dm_fields m);
  put_same m f v : (f, v) ∈ dm_fields m -> dm_put m f v = m;
  put_others m f v : ext_values (dm_put m f v) = ext_values m /\ dm_descriptor (dm_put m f v) = dm_descriptor m;
  ext_put_values m e v g w :
    (g, w) ∈ ext_values (ext_put m e v) -> (g = e /\ messages_of w ⊆ messages_of v) \/ (g <> e /\ (g, w) ∈ ext_values m);
  ext_put_same m e v : (e, v) ∈ ext_values m -> ext_put m e v = m;
  ext_put_others m e v : dm_fields (ext_put m e v) = dm_fields m /\ dm_descriptor (ext_put m e v) = dm_descriptor m;
  clear_fields m f g w m' :
    (g, w) ∈ dm_fields (dm_clear m f) -> m' ∈ messages_of w -> g <> f /\ (g, w) ∈ dm_fields m;
  clear_others m f : ext_values (dm_clear m f) = ext_values m /\ dm_descriptor (dm_clear m f) = dm_descriptor m;
  ext_clear_values m e g w m' :
    (g, w) ∈ ext_values (ext_clear m e) -> m' ∈ messages_of w -> g <> e /\ (g, w) ∈ ext_values m;
  ext_clear_others m e : dm_fields (ext_clear m e) = dm_fields m /\ dm_descriptor (ext_clear m e) = dm_descriptor m;
  (** Only message fields and extensions hold messages. *)
  field_message m f v m' : (f, v) ∈ dm_fields m -> m' ∈ messages_of v -> exists d, fd_kind f = KMessage d;
  ext_message m e v m' : (e, v) ∈ ext_values m -> m' ∈ messages_of v -> exists d, ext_kind e = KMessage d;
  field_weight m f v m' : (f, v) ∈ dm_fields m -> m' ∈ messages_of v -> (dm_weight m' < dm_weight m)%nat;
  ext_weight m e v m' : (e, v) ∈ ext_values m -> m' ∈ messages_of v -> (dm_weight m' < dm_weight m)%nat;
  decode_ok d b m : dm_decode d b = Some m -> dm_descriptor m = d /\ (dm_weight m <= S (length b))%nat;
  (** What encodes decodes to itself, if it decodes. *)
  encode_decode m m' : dm_decode (dm_descriptor m) (dm_encode m) = Some m' -> m' = m;
  (** [google.protobuf.Any] has its two fields. *)
  any_weight m : (length (any_type_url m) + length (any_value m) < dm_weight m)%nat;
  any_set m b :
    md_full_name (dm_descriptor m) = ANY ->
    let m' := dm_set_by_name m VALUE (PBytes b) in
    dm_descriptor m' = dm_descriptor m /\ any_type_url m' = any_type_url m /\ any_value m' = b;
}.

Section Clean.
Context {HT : HttpLib} {P : ProstLib} {SL : ServiceLib} {D : DetailLib} {DL : DetailLaws D}.
Context (d : StatusDetails).

(** No DebugInfo in a message, nor in what the [Any]s in it pack. *)
Inductive clean : DynamicMessage -> Prop :=
| clean_any m name :
    md_full_name (dm_descriptor m) = ANY -> any_type_name (any_type_url m) = Some name -> name <> DEBUG_INFO ->
    (forall desc inner, resolve_type d name = Some desc -> dm_decode desc (any_value m) = Some inner -> clean inner) ->
    clean m
| clean_message m :
    md_full_name (dm_descriptor m) <> ANY -> md_full_name (dm_descriptor m) <> DEBUG_INFO ->
    (forall f v m', (f, v) ∈ dm_fields m -> m' ∈ messages_of v -> clean m') ->
    (forall e v m', (e, v) ∈ ext_values m -> m' ∈ messages_of v -> clean m') -> clean m.

(** What a scrubbed message is to the one it was. *)
Definition scrubbed (m : DynamicMessage) (r : bool * DynamicMessage) : Prop :=
  clean r.2 /\ dm_descriptor r.2 = dm_descriptor m /\ (r.1 = false -> r.2 = m).

Section Self.
Context (self : DynamicMessage -> run (option (bool * DynamicMessage))).
Context (Hself : forall m r, self m = Some (Ok (Some r)) -> scrubbed m r).

Lemma scrub_items_ok (items kept : list PValue) (ch : bool) :
  scrub_items self items = Some (Ok (kept, ch)) ->
  Forall clean (omap message_of kept) /\ (length kept <= length items)%nat /\
  (ch = false -> length kept = length items -> kept = items).
Proof using Hself.
  revert kept ch. induction items as [|v items IH]; intros kept ch.
  { cbn. intros [= <- <-]. split_and!; [constructor|done|done]. }
  assert (Hother : forall rest, scrub_items self items = Some (Ok rest) -> message_of v = None -> kept = v :: rest.1 -> ch = rest.2 ->
    Forall clean (omap message_of kept) /\ (length kept <= length (v :: items))%nat /\
    (ch = false -> length kept = length (v :: items) -> kept = v :: items)).
  { intros [rest ch'] Er Hv -> ->. destruct (IH rest ch' Er) as (H1 & H2 & H3). cbn [omap list_omap fst snd length].
    rewrite Hv. split; [done|]. split; [lia|]. intros Hc Hl. f_equal. apply H3; [done|lia]. }
  destruct v; cbn [scrub_items run_bind];
    try (intros H; destruct (scrub_items self items) as [[rest|]|]; try discriminate; injection H as <- <-;
         by apply (Hother rest)).
  destruct (self m) as [[[[c inner]|]|]|] eqn:Em; cbn [run_bind]; try discriminate;
    destruct (scrub_items self items) as [[[rest ch']|]|]; cbn [run_bind]; try discriminate; intros [= <- <-];
    destruct (IH rest ch' eq_refl) as (H1 & H2 & H3).
  - destruct (Hself m (c, inner) Em) as (Hc & _ & Hs). cbn in *. split; [by constructor|]. split; [lia|].
    intros [-> ->]%orb_false_iff Hl. rewrite (Hs eq_refl). f_equal. apply H3; [done|lia].
  - cbn. split; [done|]. split; [lia|]. lia.
Qed.

Lemma scrub_entries_ok (entries kept : list (MapKey * PValue)) (ch : bool) :
  scrub_entries self entries = Some (Ok (kept, ch)) ->
  Forall clean (omap (fun e => message_of e.2) kept) /\ (ch = false -> kept = entries).
Proof using Hself.
  revert kept ch. induction entries as [|[k v] entries IH]; intros kept ch.
  { cbn. intros [= <- <-]. by split. }
  assert (Hother : forall rest, scrub_entries self entries = Some (Ok rest) -> message_of v = None ->
    kept = (k, v) :: rest.1 -> ch = rest.2 ->
    Forall clean (omap (fun e => message_of e.2) kept) /\ (ch = false -> kept = (k, v) :: entries)).
  { intros [rest ch'] Er Hv -> ->. destruct (IH rest ch' Er) as (H1 & H2). cbn [omap list_omap fst snd].
    rewrite Hv. split; [done|]. intros Hc. f_equal. by apply H2. }
  destruct v; cbn [scrub_entries run_bind];
    try (intros H; destruct (scrub_entries self entries) as [[rest|]|]; try discriminate; injection H as <- <-;
         by apply (Hother rest)).
  destruct (self m) as [[[[c inner]|]|]|] eqn:Em; cbn [run_bind]; try discriminate;
    destruct (scrub_entries self entries) as [[[rest ch']|]|]; cbn [run_bind]; try discriminate; intros [= <- <-];
    destruct (IH rest ch' eq_refl) as (H1 & H2).
  - destruct (Hself m (c, inner) Em) as (Hc & _ & Hs). cbn in *. split; [by constructor|].
    intros [-> ->]%orb_false_iff. by rewrite (Hs eq_refl), H2.
  - by split.
Qed.

Lemma scrub_value_ok (v v' : PValue) (ch : bool) :
  scrub_value self v = Some (Ok (Some (v', ch))) ->
  (forall m', m' ∈ messages_of v' -> clean m') /\ (ch = false -> v' = v).
Proof using Hself.
  destruct v; cbn [scrub_value];
    try (intros [= <- <-]; split; [intros m' Hm; by apply elem_of_nil in Hm|done]).
  - destruct (self m) as [[[[c inner]|]|]|] eqn:Em; cbn; try discriminate. intros [= <- <-].
    destruct (Hself m (c, inner) Em) as (Hc & _ & Hs). cbn in *.
    split; [by intros m' ->%list_elem_of_singleton|]. intros ->. by rewrite (Hs eq_refl).
  - destruct (scrub_items self l) as [[[kept c]|]|] eqn:El; cbn; try discriminate. intros [= <- <-].
    destruct (scrub_items_ok l kept c El) as (H1 & H2 & H3). rewrite Forall_forall in H1. split; [done|].
    intros [-> Hl%negb_false_iff%Nat.eqb_eq]%orb_false_iff. by rewrite H3.
  - destruct (scrub_entries self entries) as [[[kept c]|]|] eqn:El; cbn; try discriminate. intros [= <- <-].
    destruct (scrub_entries_ok entries kept c El) as (H1 & H2). rewrite Forall_forall in H1. split; [done|].
    intros ->. by rewrite H2.
Qed.

Lemma scrub_fields_ok (m0 : DynamicMessage) (set : list (FieldDescriptor * PValue)) (msg : DynamicMessage)
  (changed : bool) (dropped : list FieldDescriptor) (r : DynamicMessage * bool * list FieldDescriptor) :
  scrub_fields self set msg changed dropped = Some (Ok (Some r)) ->
  set ⊆ dm_fields m0 ->
  (forall g w m', (g, w) ∈ dm_fields msg -> m' ∈ messages_of w -> g ∈ dropped \/ (g, w) ∈ set \/ clean m') ->
  (changed = false -> msg = m0) ->
  let '(msg', changed', dropped') := r in
  (forall g w m', (g, w) ∈ dm_fields msg' -> m' ∈ messages_of w -> g ∈ dropped' \/ clean m') /\
  (changed' = false -> msg' = m0) /\ ext_values msg' = ext_values msg /\ dm_descriptor msg' = dm_descriptor msg.
Proof using Hself DL.
  revert msg changed dropped. induction set as [|[f v] set IH]; intros msg changed dropped.
  { cbn. intros [= <-] _ Hm Hc. split_and!; try done. intros g w m' Hin Hm'.
    destruct (Hm g w m' Hin Hm') as [?|[H|?]]; [by left|by apply elem_of_nil in H|by right]. }
  intros Hr Hsub Hm Hc. assert (Hsub' : set ⊆ dm_fields m0) by (intros x Hx; apply Hsub; by right).
  assert (Hv0 : (f, v) ∈ dm_fields m0) by (apply Hsub; by left).
  cbn [scrub_fields] in Hr. destruct (fd_kind f) as [| | | | | | | | | | | | | | |md|] eqn:Ek;
    try (apply (IH _ _ _ Hr Hsub'); [|done]; intros g w m' Hin Hm'; destruct (Hm g w m' Hin Hm') as [?|[H|?]]; try tauto;
         apply elem_of_cons in H as [[= -> ->]|H]; [|tauto];
         exfalso; destruct (field_message _ _ _ _ Hin Hm') as [x Hx]; congruence).
  destruct (scrub_value self v) as [[[[v' ch]|]|]|] eqn:Ev; cbn [run_bind] in Hr; try discriminate.
  - destruct (scrub_value_ok v v' ch Ev) as [Hcl Hsame].
    specialize (IH (dm_put msg f v') (changed || ch) dropped Hr Hsub'). destruct r as [[msg' changed'] dropped'].
    destruct (put_others msg f v') as [He Hd]. destruct IH as (H1 & H2 & H3 & H4).
    + intros g w m' Hin Hm'. apply put_fields in Hin as [[-> Hw]|[Hne Hin]]; [right; right; by apply Hcl, Hw|].
      destruct (Hm g w m' Hin Hm') as [?|[H|?]]; try tauto. apply elem_of_cons in H as [[= -> ->]|H]; [done|tauto].
    + intros [Hch ->]%orb_false_iff. rewrite (Hc Hch), (Hsame eq_refl). by apply put_same.
    + split_and!; [done|done|congruence|congruence].
  - destruct (fd_required f); [discriminate|]. apply (IH _ _ _ Hr Hsub'); [|done].
    intros g w m' Hin Hm'. destruct (Hm g w m' Hin Hm') as [H|[H|?]]; try tauto.
    + left. apply elem_of_app. by left.
    + apply elem_of_cons in H as [[= -> ->]|H]; [|tauto]. left. apply elem_of_app. right. by apply list_elem_of_singleton.
Qed.

Lemma scrub_extensions_ok (m0 : DynamicMessage) (set : list (ExtensionDescriptor * PValue)) (msg : DynamicMessage)
  (changed : bool) (dropped : list ExtensionDescriptor) (r : DynamicMessage * bool * list ExtensionDescriptor) :
  scrub_extensions self set msg changed dropped = Some (Ok r) ->
  set ⊆ ext_values m0 ->
  (forall g w m', (g, w) ∈ ext_values msg -> m' ∈ messages_of w -> g ∈ dropped \/ (g, w) ∈ set \/ clean m') ->
  (changed = false -> msg = m0) ->
  let '(msg', changed', dropped') := r in
  (forall g w m', (g, w) ∈ ext_values msg' -> m' ∈ messages_of w -> g ∈ dropped' \/ clean m') /\
  (changed' = false -> msg' = m0) /\ dm_fields msg' = dm_fields msg /\ dm_descriptor msg' = dm_descriptor msg.
Proof using Hself DL.
  revert msg changed dropped. induction set as [|[f v] set IH]; intros msg changed dropped.
  { cbn. intros [= <-] _ Hm Hc. split_and!; try done. intros g w m' Hin Hm'.
    destruct (Hm g w m' Hin Hm') as [?|[H|?]]; [by left|by apply elem_of_nil in H|by right]. }
  intros Hr Hsub Hm Hc. assert (Hsub' : set ⊆ ext_values m0) by (intros x Hx; apply Hsub; by right).
  assert (Hv0 : (f, v) ∈ ext_values m0) by (apply Hsub; by left).
  cbn [scrub_extensions] in Hr. destruct (ext_kind f) as [| | | | | | | | | | | | | | |md|] eqn:Ek;
    try (apply (IH _ _ _ Hr Hsub'); [|done]; intros g w m' Hin Hm'; destruct (Hm g w m' Hin Hm') as [?|[H|?]]; try tauto;
         apply elem_of_cons in H as [[= -> ->]|H]; [|tauto];
         exfalso; destruct (ext_message _ _ _ _ Hin Hm') as [x Hx]; congruence).
  destruct (scrub_value self v) as [[[[v' ch]|]|]|] eqn:Ev; cbn [run_bind] in Hr; try discriminate.
  - destruct (scrub_value_ok v v' ch Ev) as [Hcl Hsame].
    specialize (IH (ext_put msg f v') (changed || ch) dropped Hr Hsub'). destruct r as [[msg' changed'] dropped'].
    destruct (ext_put_others msg f v') as [He Hd]. destruct IH as (H1 & H2 & H3 & H4).
    + intros g w m' Hin Hm'. apply ext_put_values in Hin as [[-> Hw]|[Hne Hin]]; [right; right; by apply Hcl, Hw|].
      destruct (Hm g w m' Hin Hm') as [?|[H|?]]; try tauto. apply elem_of_cons in H as [[= -> ->]|H]; [done|tauto].
    + intros [Hch ->]%orb_false_iff. rewrite (Hc Hch), (Hsame eq_refl). by apply ext_put_same.
    + split_and!; [done|done|congruence|congruence].
  - apply (IH _ _ _ Hr Hsub'); [|done].
    intros g w m' Hin Hm'. destruct (Hm g w m' Hin Hm') as [H|[H|?]]; try tauto.
    + left. apply elem_of_app. by left.
    + apply elem_of_cons in H as [[= -> ->]|H]; [|tauto]. left. apply elem_of_app. right. by apply list_elem_of_singleton.
Qed.

Lemma extensions_keep (set : list (ExtensionDescriptor * PValue)) (msg msg' : DynamicMessage) (changed : bool)
  (dropped dropped' : list ExtensionDescriptor) :
  scrub_extensions self set msg changed dropped = Some (Ok (msg', false, dropped')) -> changed = false.
Proof using Type.
  revert msg changed dropped. induction set as [|[f v] set IH]; intros msg changed dropped; cbn; [by intros [= _ -> _]|].
  destruct (ext_kind f); eauto. destruct (scrub_value self v) as [[[[v' ch]|]|]|]; cbn; try discriminate; [|eauto].
  intros H. apply IH in H. by apply orb_false_iff in H as [-> _].
Qed.

Lemma cleared_fields (fs : list FieldDescriptor) (msg : DynamicMessage) :
  (forall g w m', (g, w) ∈ dm_fields (foldl dm_clear msg fs) -> m' ∈ messages_of w -> (g ∉ fs) /\ (g, w) ∈ dm_fields msg) /\
  ext_values (foldl dm_clear msg fs) = ext_values msg /\
  dm_descriptor (foldl dm_clear msg fs) = dm_descriptor msg.
Proof using DL.
  revert msg. induction fs as [|f fs IH]; intros msg; cbn [foldl]; [split_and!; try done; (split; [apply not_elem_of_nil|done])|].
  destruct (IH (dm_clear msg f)) as (H1 & H2 & H3). destruct (clear_others msg f) as [E1 E2]. split_and!; [|congruence..].
  intros g w m' H Hm'. apply (H1 _ _ m') in H as [Hg H]; [|done]. apply (clear_fields _ _ _ _ m') in H as [Hne H]; [|done].
  split; [|done].
  by rewrite not_elem_of_cons.
Qed.

Lemma cleared_extensions (es : list ExtensionDescriptor) (msg : DynamicMessage) :
  (forall g w m', (g, w) ∈ ext_values (foldl ext_clear msg es) -> m' ∈ messages_of w -> (g ∉ es) /\ ((g, w) ∈ ext_values msg)) /\
  dm_fields (foldl ext_clear msg es) = dm_fields msg /\
  dm_descriptor (foldl ext_clear msg es) = dm_descriptor msg.
Proof using DL.
  revert msg. induction es as [|e es IH]; intros msg; cbn [foldl]; [split_and!; try done; (split; [apply not_elem_of_nil|done])|].
  destruct (IH (ext_clear msg e)) as (H1 & H2 & H3). destruct (ext_clear_others msg e) as [E1 E2]. split_and!; [|congruence..].
  intros g w m' H Hm'. apply (H1 _ _ m') in H as [Hg H]; [|done]. apply (ext_clear_values _ _ _ _ m') in H as [Hne H]; [|done].
  split; [|done].
  by rewrite not_elem_of_cons.
Qed.

Lemma scrub_message_ok (msg : DynamicMessage) (r : bool * DynamicMessage) :
  md_full_name (dm_descriptor msg) <> ANY -> md_full_name (dm_descriptor msg) <> DEBUG_INFO ->
  scrub_message self msg = Some (Ok (Some r)) -> scrubbed msg r.
Proof using Hself DL.
  intros Ha Hn. unfold scrub_message. destruct (lacks_required msg); [discriminate|].
  destruct (scrub_fields self (dm_fields msg) msg false []) as [[[[[m1 c1] d1]|]|]|] eqn:Ef; cbn [run_bind]; try discriminate.
  destruct (scrub_fields_ok msg _ _ _ _ _ Ef) as (F1 & F2 & F3 & F4); [done|tauto|done|].
  destruct (scrub_extensions self (ext_values m1) m1 c1 []) as [[[[m2 c2] d2]|]|] eqn:Ee; cbn [run_bind]; try discriminate.
  destruct (scrub_extensions_ok m1 _ _ _ _ _ Ee) as (E1 & E2 & E3 & E4); [done|tauto|done|].
  intros [= <-]. destruct (cleared_fields d1 m2) as (C1 & C2 & C3).
  destruct (cleared_extensions d2 (foldl dm_clear m2 d1)) as (X1 & X2 & X3).
  assert (Hd : dm_descriptor (foldl ext_clear (foldl dm_clear m2 d1) d2) = dm_descriptor msg) by congruence.
  split; [|split; [exact Hd|]].
  - cbn [snd]. apply clean_message; rewrite ?Hd; [done|done| |].
    + intros f v m'. rewrite X2. intros Hin Hm'. destruct (C1 f v m' Hin Hm') as [Hf Hin']. rewrite E3 in Hin'.
      destruct (F1 f v m' Hin' Hm'); done.
    + intros e v m' Hin Hm'. destruct (X1 e v m' Hin Hm') as [He Hin']. rewrite C2 in Hin'. destruct (E1 e v m' Hin' Hm'); done.
  - cbn [fst snd]. intros [[Hc Hd1%negb_false_iff%Nat.eqb_eq]%orb_false_iff Hd2%negb_false_iff%Nat.eqb_eq]%orb_false_iff.
    apply length_zero_iff_nil in Hd1 as ->, Hd2 as ->. cbn. rewrite (E2 Hc). apply F2.
    rewrite Hc in Ee. by apply extensions_keep in Ee.
Qed.

Lemma scrub_any_ok (any : DynamicMessage) (r : bool * DynamicMessage) :
  md_full_name (dm_descriptor any) = ANY ->
  scrub_any self d any = Some (Ok (Some r)) -> scrubbed any r.
Proof using Hself DL.
  intros Ha. unfold scrub_any. destruct (any_type_name (any_type_url any)) as [name|] eqn:En; [|discriminate].
  case_decide as Hn; [discriminate|].
  destruct (resolve_type d name) as [desc|] eqn:Er.
  2:{ intros [= <-]. split; [|done]. cbn [snd]. apply (clean_any _ name); [done..|]. intros desc inner. by rewrite Er. }
  destruct (dm_decode desc (any_value any)) as [inner|] eqn:Ed; [|discriminate].
  destruct (self inner) as [[[[[] inner']|]|]|] eqn:Es; cbn [run_bind]; try discriminate; intros [= <-];
    destruct (Hself _ _ Es) as (Hcl & Hdi & Hsame); cbn [fst snd] in *.
  - destruct (any_set any (dm_encode inner') Ha) as (A1 & A2 & A3). split; [|by split]. cbn [snd].
    apply (clean_any _ name); [by rewrite A1|by rewrite A2|done|]. intros desc' inner2. rewrite Er, A3.
    intros [= <-] Hdec. apply decode_ok in Ed as [Ed _]. rewrite <- Ed, <- Hdi in Hdec. by apply encode_decode in Hdec as ->.
  - split; [|done]. cbn [snd]. apply (clean_any _ name); [done..|]. intros desc' inner2. rewrite Er. intros [= <-]. rewrite Ed.
    intros [= <-]. by rewrite (Hsame eq_refl) in Hcl.
Qed.
End Self.

Lemma scrub_ok (fuel : nat) (m : DynamicMessage) (r : bool * DynamicMessage) :
  scrub d fuel m = Some (Ok (Some r)) -> scrubbed m r.
Proof using DL.
  revert m r. induction fuel as [|fuel IH]; intros m r; cbn [scrub]; [done|].
  case_decide; [by apply scrub_any_ok|]. case_decide; [done|]. by apply scrub_message_ok.
Qed.

(** Scrubbing ends: each message is lighter than the one that holds or packs it. *)
Section Total.
Context (self : DynamicMessage -> run (option (bool * DynamicMessage))).

Lemma items_total (items : list PValue) :
  (forall m, m ∈ omap message_of items -> is_Some (self m)) -> is_Some (scrub_items self items).
Proof using Type.
  induction items as [|v items IH]; intros H; [by eexists|].
  destruct v; cbn [scrub_items];
    try (destruct IH as [[rest|] ->]; [intros m Hm; by apply H|by eexists..]).
  destruct (H m ltac:(by left)) as [[x|] ->]; [|by eexists]. cbn [run_bind].
  destruct IH as [[rest|] ->]; [intros m' Hm; apply H; by right| |by eexists]. destruct x as [[]|]; by eexists.
Qed.

Lemma entries_total (entries : list (MapKey * PValue)) :
  (forall m, m ∈ omap (fun e => message_of e.2) entries -> is_Some (self m)) -> is_Some (scrub_entries self entries).
Proof using Type.
  induction entries as [|[k v] entries IH]; intros H; [by eexists|].
  destruct v; cbn [scrub_entries];
    try (destruct IH as [[rest|] ->]; [intros m Hm; by apply H|by eexists..]).
  destruct (H m ltac:(by left)) as [[x|] ->]; [|by eexists]. cbn [run_bind].
  destruct IH as [[rest|] ->]; [intros m' Hm; apply H; by right| |by eexists]. destruct x as [[]|]; by eexists.
Qed.

Lemma value_total (v : PValue) : (forall m, m ∈ messages_of v -> is_Some (self m)) -> is_Some (scrub_value self v).
Proof using Type.
  destruct v; intros H; cbn [scrub_value]; try by eexists.
  - destruct (H m ltac:(by left)) as [[x|] ->]; by eexists.
  - destruct (items_total l H) as [[x|] ->]; by eexists.
  - destruct (entries_total entries H) as [[x|] ->]; by eexists.
Qed.

Lemma fields_total (set : list (FieldDescriptor * PValue)) (msg : DynamicMessage) (ch : bool) (dropped : list FieldDescriptor) :
  (forall f v m, (f, v) ∈ set -> m ∈ messages_of v -> is_Some (self m)) -> is_Some (scrub_fields self set msg ch dropped).
Proof using Type.
  revert msg ch dropped. induction set as [|[f v] set IH]; intros msg ch dropped H; cbn [scrub_fields]; [by eexists|].
  assert (H' : forall f v m, (f, v) ∈ set -> m ∈ messages_of v -> is_Some (self m)).
  { intros f' v' m Hin. apply (H f'). by right. }
  destruct (fd_kind f); try by apply IH.
  destruct (value_total v (fun m => H f v m ltac:(by left))) as [[[[v' c]|]|] ->]; cbn [run_bind]; [by apply IH| |by eexists].
  destruct (fd_required f); [by eexists|by apply IH].
Qed.

Lemma extensions_total (set : list (ExtensionDescriptor * PValue)) (msg : DynamicMessage) (ch : bool)
  (dropped : list ExtensionDescriptor) :
  (forall e v m, (e, v) ∈ set -> m ∈ messages_of v -> is_Some (self m)) -> is_Some (scrub_extensions self set msg ch dropped).
Proof using Type.
  revert msg ch dropped. induction set as [|[f v] set IH]; intros msg ch dropped H; cbn [scrub_extensions]; [by eexists|].
  assert (H' : forall f v m, (f, v) ∈ set -> m ∈ messages_of v -> is_Some (self m)).
  { intros f' v' m Hin. apply (H f'). by right. }
  destruct (ext_kind f); try by apply IH.
  destruct (value_total v (fun m => H f v m ltac:(by left))) as [[[[v' c]|]|] ->]; cbn [run_bind]; [by apply IH| |by eexists].
  by apply IH.
Qed.
End Total.

Lemma scrub_total (fuel : nat) (m : DynamicMessage) : (dm_weight m < fuel)%nat -> is_Some (scrub d fuel m).
Proof using DL.
  revert m. induction fuel as [|fuel IH]; intros m Hw; [lia|]. cbn [scrub]. case_decide as Ha.
  - unfold scrub_any. pose proof (any_weight m) as Hm.
    destruct (any_type_url m) as [|c url]; [by eexists|]. cbn [length] in Hm.
    destruct (any_type_name _) as [name|]; [|by eexists]. case_decide; [by eexists|].
    destruct (resolve_type d name) as [desc|]; [|by eexists].
    destruct (dm_decode desc (any_value m)) as [inner|] eqn:Ed; [|by eexists].
    apply decode_ok in Ed as [_ Ed]. destruct (IH inner) as [[[[[] ?]|]|] ->]; cbn; [lia|by eexists..].
  - case_decide; [by eexists|]. unfold scrub_message. destruct (lacks_required m); [by eexists|].
    destruct (fields_total (scrub d fuel) (dm_fields m) m false []) as [[[[[m1 c1] d1]|]|] E]; [..|by rewrite E; eexists].
    + intros f v m' Hin Hm'. apply IH. pose proof (field_weight _ _ _ _ Hin Hm'). lia.
    + rewrite E. cbn [run_bind].
      destruct (extensions_total (scrub d fuel) (ext_values m1) m1 c1 []) as [[[[m2 c2] d2]|] E2]; [|rewrite E2; by eexists..].
      intros e v m' Hin Hm'. apply IH.
      destruct (scrub_fields_ok (scrub d fuel) (scrub_ok fuel) m _ _ _ _ _ E) as (_ & _ & Hx & _); [done|tauto|done|].
      rewrite Hx in Hin. pose proof (ext_weight _ _ _ _ Hin Hm'). lia.
    + rewrite E. by eexists.
Qed.

(** A message with no DebugInfo, its required fields and what its [Any]s pack in
    place. *)
Inductive intact : DynamicMessage -> Prop :=
| intact_any m name :
    md_full_name (dm_descriptor m) = ANY -> any_type_name (any_type_url m) = Some name -> name <> DEBUG_INFO ->
    (forall desc, resolve_type d name = Some desc -> is_Some (dm_decode desc (any_value m))) ->
    (forall desc inner, resolve_type d name = Some desc -> dm_decode desc (any_value m) = Some inner -> intact inner) ->
    intact m
| intact_message m :
    md_full_name (dm_descriptor m) <> ANY -> md_full_name (dm_descriptor m) <> DEBUG_INFO ->
    lacks_required m = false ->
    (forall f v m', (f, v) ∈ dm_fields m -> m' ∈ messages_of v -> intact m') ->
    (forall e v m', (e, v) ∈ ext_values m -> m' ∈ messages_of v -> intact m') -> intact m.

Section Kept.
Context (self : DynamicMessage -> run (option (bool * DynamicMessage))).
Definition keeps (m : DynamicMessage) : Prop := self m = Some (Ok (Some (false, m))).

Lemma items_kept (items : list PValue) :
  (forall m, m ∈ omap message_of items -> keeps m) -> scrub_items self items = Some (Ok (items, false)).
Proof using Type.
  induction items as [|v items IH]; intros H; [done|].
  destruct v; cbn [scrub_items]; try (rewrite IH; [done|intros m Hm; by apply H]).
  rewrite (H m) by (by left). cbn [run_bind]. rewrite IH; [done|]. intros m' Hm. apply H. by right.
Qed.

Lemma entries_kept (entries : list (MapKey * PValue)) :
  (forall m, m ∈ omap (fun e => message_of e.2) entries -> keeps m) ->
  scrub_entries self entries = Some (Ok (entries, false)).
Proof using Type.
  induction entries as [|[k v] entries IH]; intros H; [done|].
  destruct v; cbn [scrub_entries]; try (rewrite IH; [done|intros m Hm; by apply H]).
  rewrite (H m) by (by left). cbn [run_bind]. rewrite IH; [done|]. intros m' Hm. apply H. by right.
Qed.

Lemma value_kept (v : PValue) :
  (forall m, m ∈ messages_of v -> keeps m) -> scrub_value self v = Some (Ok (Some (v, false))).
Proof using Type.
  destruct v; intros H; cbn [scrub_value]; try done.
  - by rewrite (H m) by (by left).
  - rewrite (items_kept l H). cbn. by rewrite Nat.eqb_refl.
  - by rewrite (entries_kept entries H).
Qed.

Lemma message_kept (m : DynamicMessage) :
  lacks_required m = false ->
  (forall f v m', (f, v) ∈ dm_fields m -> m' ∈ messages_of v -> keeps m') ->
  (forall e v m', (e, v) ∈ ext_values m -> m' ∈ messages_of v -> keeps m') ->
  scrub_message self m = Some (Ok (Some (false, m))).
Proof using DL.
  intros Hl Hf He. unfold scrub_message. rewrite Hl.
  assert (F : forall set, set ⊆ dm_fields m -> scrub_fields self set m false [] = Some (Ok (Some (m, false, [])))).
  { induction set as [|[f v] set IH]; intros Hs; [done|]. cbn [scrub_fields].
    assert (Hin : (f, v) ∈ dm_fields m) by (apply Hs; by left).
    specialize (IH ltac:(intros x Hx; apply Hs; by right)). destruct (fd_kind f); try done.
    rewrite value_kept by eauto. cbn [run_bind orb]. by rewrite put_same. }
  assert (X : forall set, set ⊆ ext_values m -> scrub_extensions self set m false [] = Some (Ok (m, false, []))).
  { induction set as [|[e v] set IH]; intros Hs; [done|]. cbn [scrub_extensions].
    assert (Hin : (e, v) ∈ ext_values m) by (apply Hs; by left).
    specialize (IH ltac:(intros x Hx; apply Hs; by right)). destruct (ext_kind e); try done.
    rewrite value_kept by eauto. cbn [run_bind orb]. by rewrite ext_put_same. }
  rewrite F by done. cbn [run_bind]. by rewrite X by done.
Qed.
End Kept.

Lemma scrub_intact (m : DynamicMessage) :
  intact m -> forall fuel, (dm_weight m < fuel)%nat -> scrub d fuel m = Some (Ok (Some (false, m))).
Proof using DL.
  induction 1 as [m name Ha Hn Hne Hdec _ IH|m Ha Hn Hl Hf IHf He IHe]; intros [|fuel] Hw; try lia; cbn [scrub].
  - rewrite decide_True by done. unfold scrub_any. pose proof (any_weight m) as Hm.
    destruct (any_type_url m) as [|c url] eqn:Eu; [done|]. cbn [length] in Hm. rewrite Hn, decide_False by done.
    destruct (resolve_type d name) as [desc|] eqn:Er; [|done].
    destruct (Hdec desc eq_refl) as [inner Ei]. rewrite Ei.
    pose proof (decode_ok _ _ _ Ei) as [_ Hd]. rewrite (IH desc inner eq_refl Ei fuel); [done|lia].
  - rewrite !decide_False by done. apply message_kept; [done|..].
    + intros f v m' Hin Hm'. apply (IHf f v m' Hin Hm'). pose proof (field_weight _ _ _ _ Hin Hm'). lia.
    + intros e v m' Hin Hm'. apply (IHe e v m' Hin Hm'). pose proof (ext_weight _ _ _ _ Hin Hm'). lia.
Qed.

(** ** What a client gets *)

(** An entry of [details]: the ProtoJSON of a message without DebugInfo. *)
Definition typed_clean (v : Value) : Prop :=
  exists type_url name desc m json,
    any_type_name type_url = Some name /\ name <> DEBUG_INFO /\ resolve_type d name = Some desc /\
    dm_descriptor m = desc /\ clean m /\ dm_json m = Some json /\ any_json type_url desc json = Some (Ok v).

(** An entry of [opaqueDetails]: only where they are switched on, of a type no
    descriptor describes. *)
Definition opaque_unknown (v : Value) : Prop :=
  exists index type_url name value,
    any_type_name type_url = Some name /\ name <> DEBUG_INFO /\ resolve_type d name = None /\ sd_opaque d = true /\
    v = opaque_entry base64_encode index type_url value.

Lemma typed_entry_ok (type_url name value : text) (desc : MessageDescriptor) :
  any_type_name type_url = Some name -> name <> DEBUG_INFO -> resolve_type d name = Some desc ->
  exists r, typed_entry d type_url desc value = Some r /\ forall v, r = Ok (Some v) -> typed_clean v.
Proof using DL.
  intros Hn Hne Hr. unfold typed_entry. destruct (dm_decode desc value) as [m|] eqn:Ed; [|by eexists].
  destruct (scrub_total (S (dm_weight m)) m ltac:(lia)) as [[[[ch m']|]|] Es]; rewrite Es; cbn [run_bind]; try by eexists.
  destruct (scrub_ok _ _ _ Es) as (Hcl & Hd & _). cbn in Hcl, Hd. apply decode_ok in Ed as [Ed _].
  destruct (dm_json m') as [json|] eqn:Ej; [|by eexists].
  destruct (any_json type_url desc json) as [[v|]|] eqn:Ea; cbn [run_bind].
  - eexists. split; [done|]. intros v' [= <-]. exists type_url, name, desc, m', json. split_and!; try done. congruence.
  - by eexists.
  - unfold any_json in Ea. destruct json; try discriminate.
    destruct (wraps_json _); [discriminate|]. by destruct (bool_decide _).
Qed.

Lemma render_details_ok (details : list (text * text)) (index : Z) (acc : RenderedDetails) :
  Forall typed_clean (d_details acc) -> Forall opaque_unknown (d_opaque acc) ->
  exists r, render_details d details index acc = Some r /\
    forall rendered, r = Ok rendered ->
      Forall typed_clean (d_details rendered) /\ Forall opaque_unknown (d_opaque rendered).
Proof using DL.
  revert index acc. induction details as [|[url value] details IH]; intros index acc H1 H2; cbn [render_details].
  { eexists. split; [done|]. by intros ? [= <-]. }
  destruct (any_type_name url) as [name|] eqn:En; [|by eexists]. case_decide as Hne; [by apply IH|].
  destruct (resolve_type d name) as [desc|] eqn:Er.
  - destruct (typed_entry_ok url name value desc En Hne Er) as ([[entry|]|] & E & Ht); rewrite E; cbn [run_bind];
      [|by apply IH|by eexists]. apply IH; cbn [d_details d_opaque]; [|done].
    apply Forall_app. split; [done|]. constructor; [by apply Ht|constructor].
  - destruct (sd_opaque d) eqn:Eo; [|by apply IH]. apply IH; cbn [d_details d_opaque]; [done|].
    apply Forall_app. split; [done|]. constructor; [|constructor]. by exists index, url, name, value.
Qed.

(** C31: no [google.rpc.DebugInfo] reaches a client. Rendering the details of any
    status ends; what it renders is, in [details], the ProtoJSON of messages in
    which no field, extension, list element or map value at any depth is a DebugInfo
    or an [Any] that packs one, whatever it packs decoded and searched in turn, and
    in [opaqueDetails], only where they are switched on, details whose type no
    descriptor describes and that do not name DebugInfo. *)
Theorem debug_info_withheld (status : TStatus) :
  exists r, details_render d status = Some r /\
    forall rendered, r = Ok rendered ->
      Forall typed_clean (d_details rendered) /\ Forall opaque_unknown (d_opaque rendered).
Proof using DL.
  unfold details_render. destruct (st_details status) as [|c raw].
  { eexists. split; [done|]. intros ? [= <-]. split; constructor. }
  destruct (status_decode (c :: raw)) as [decoded|]; [|by eexists].
  destruct (negb _ || negb _); [by eexists|]. apply render_details_ok; constructor.
Qed.

(** A detail of a known type, intact, and its entry. *)
Definition faithful_detail (detail : text * text) (entry : Value) : Prop :=
  exists name desc m json,
    any_type_name detail.1 = Some name /\ name <> DEBUG_INFO /\ resolve_type d name = Some desc /\
    dm_decode desc detail.2 = Some m /\ intact m /\ dm_json m = Some json /\ any_json detail.1 desc json = Some (Ok entry).

(** Nothing but DebugInfo is taken out. When the trailer is a
    [google.rpc.Status] of the same code and message and each of its details is a
    message of a known type that holds no DebugInfo, every one is rendered, in order,
    as the ProtoJSON of the message the upstream sent, unchanged. *)
Theorem details_kept (status : TStatus) (decoded : PbStatus) (entries : list Value) :
  st_details status <> [] -> status_decode (st_details status) = Some decoded ->
  ps_code decoded = code_number (st_code status) -> ps_message decoded = st_message status ->
  Forall2 faithful_detail (ps_details decoded) entries ->
  details_render d status = Some (Ok (mkRendered entries [])).
Proof using DL.
  intros Hne Hdec Hc Hm HF. unfold details_render. destruct (st_details status) as [|c raw]; [done|].
  rewrite Hdec, Hc, Hm, Z.eqb_refl, bool_decide_eq_true_2 by done. cbn [negb orb].
  assert (H : forall index acc, render_details d (ps_details decoded) index acc =
    Some (Ok (mkRendered (d_details acc ++ entries) (d_opaque acc)))); [|apply H].
  clear -HF DL. induction HF as [|[url value] entry details entries Hf HF IH]; intros index acc; cbn [render_details].
  { rewrite app_nil_r. by destruct acc. }
  destruct Hf as (name & desc & m & json & Hn & Hne & Hr & Hdec & Hi & Hj & Ha). cbn [fst snd] in *.
  rewrite Hn, decide_False, Hr by done. unfold typed_entry. rewrite Hdec, (scrub_intact m Hi) by lia.
  cbn [run_bind done_]. rewrite Hj, Ha. cbn [run_bind done_]. rewrite IH.
  cbn [d_details d_opaque]. by rewrite <- app_assoc.
Qed.
End Clean.

(** * A runtime with four types

    [google.protobuf.Any], [google.rpc.DebugInfo], a note and an error with a list
    of [Any]s, on a wire where [|] ends a type URL and [;] a list element. *)

Module Model.
Inductive Type_ := TAny | TDebug | TNote | TErr.
Inductive Field := FUrl | FValue | FText | FCauses.
Inductive Msg :=
| MAny (url value : text)
| MDebug
| MNote (s : text)
| MErr (causes : list (text * text)).

Definition type_of (m : Msg) : Type_ :=
  match m with MAny _ _ => TAny | MDebug => TDebug | MNote _ => TNote | MErr _ => TErr end.
Definition full_name (d : Type_) : text :=
  match d with TAny => ANY | TDebug => DEBUG_INFO | TNote => txt "demo.Note" | TErr => txt "demo.Err" end.
Definition fields (d : Type_) : list Field :=
  match d with TAny => [FUrl; FValue] | TDebug => [] | TNote => [FText] | TErr => [FCauses] end.
Definition name (f : Field) : text :=
  match f with FUrl => TYPE_URL | FValue => VALUE | FText => txt "text" | FCauses => txt "causes" end.
Definition kind (f : Field) : Kind_ Type_ Empty_set :=
  match f with FUrl | FText => KString | FValue => KBytes | FCauses => KMessage TAny end.

Definition packed (c : text * text) : Msg := MAny c.1 c.2.
Definition cause (m : Msg) : option (text * text) := match m with MAny url value => Some (url, value) | _ => None end.

Definition get (m : Msg) (f : Field) : PValue_ Msg :=
  match m, f with
  | MAny url _, FUrl => PString url
  | MAny _ value, FValue => PBytes value
  | MNote s, FText => PString s
  | MErr causes, FCauses => PList (PMessage <$> (packed <$> causes))
  | _, _ => PBool false
  end.

Definition held (v : PValue_ Msg) : list Msg :=
  match v with
  | PMessage m => [m]
  | PList items => omap (fun v => match v with PMessage m => Some m | _ => None end) items
  | PMap entries => omap (fun e => match e.2 with PMessage m => Some m | _ => None end) entries
  | _ => []
  end.

Definition put (m : Msg) (f : Field) (v : PValue_ Msg) : Msg :=
  match m, f, v with
  | MAny _ value, FUrl, PString url => MAny url value
  | MAny url _, FValue, PBytes value => MAny url value
  | MNote _, FText, PString s => MNote s
  | MErr _, FCauses, _ => MErr (omap cause (held v))
  | _, _, _ => m
  end.

Definition new_message (d : Type_) : Msg :=
  match d with TAny => MAny [] [] | TDebug => MDebug | TNote => MNote [] | TErr => MErr [] end.

#[local] Instance lib : ProstLib := {|
  Protobuf.MessageDescriptor := Type_;
  FieldDescriptor := Field;
  EnumDescriptor := Empty_set;
  DynamicMessage := Msg;
  md_full_name := full_name;
  md_fields := fields;
  md_extensions _ := [];
  md_field_by_name d n := find_first (fun f => bool_decide (name f = n)) (fields d);
  md_field_by_json_name d n := find_first (fun f => bool_decide (name f = n)) (fields d);
  fd_name := name;
  fd_full_name := name;
  fd_json_name := name;
  fd_number f := match f with FValue => 2 | _ => 1 end;
  fd_kind := kind;
  fd_is_list f := match f with FCauses => true | _ => false end;
  fd_is_map _ := false;
  fd_required _ := false;
  fd_oneof _ := None;
  ed_value_by_name _ _ := None;
  dm_new := new_message;
  dm_descriptor := type_of;
  dm_has _ _ := true;
  dm_get := get;
  dm_set := put;
  dm_take m f := (Some (get m f), m);
  dm_fields m := (fun f => (f, get m f)) <$> fields (type_of m);
  dm_extensions _ := [];
  dm_depth m := match m with MErr _ => 1%nat | _ => 0%nat end;
|}.

#[local] Instance services : ServiceLib := {|
  DescriptorPool := unit;
  ServiceDescriptor := unit;
  MethodDescriptor := unit;
  ExtensionDescriptor := Empty_set;
  pool_services _ := [];
  pool_service_by_name _ _ := None;
  pool_extension_by_name _ _ := None;
  pool_message_by_name _ n := find_first (fun d => bool_decide (full_name d = n)) [TAny; TDebug; TNote; TErr];
  pool_all_messages _ := [TAny; TDebug; TNote; TErr];
  sd_full_name _ := txt "demo.Notes";
  sd_methods _ := [];
  mt_name _ := txt "Notes";
  mt_parent _ := tt;
  mt_input _ := TNote;
  mt_output _ := TNote;
  mt_client_streaming _ := false;
  mt_server_streaming _ := true;
  mt_options _ := MNote [];
  dm_has_extension _ _ := false;
  dm_get_extension _ _ := PBool false;
|}.

Definition BAR : ascii := ch "|".
Definition SEMI : ascii := ch ";".

Definition decode_causes (b : text) : option (list (text * text)) :=
  match b with [] => Some [] | _ => mapM (split_once BAR) (split SEMI b) end.
Definition encode_cause (c : text * text) : text := c.1 ++ BAR :: c.2.

Definition decode (d : Type_) (b : text) : option Msg :=
  match d with
  | TAny => (fun c => MAny c.1 c.2) <$> split_once BAR b
  | TDebug => Some MDebug
  | TNote => Some (MNote b)
  | TErr => MErr <$> decode_causes b
  end.

(** What the wire cannot carry encodes to what decodes to nothing. *)
Definition BAD : text := txt "!".
Definition encode (m : Msg) : text :=
  match m with
  | MAny url value => let raw := encode_cause (url, value) in if decide (split_once BAR raw = Some (url, value)) then raw else BAD
  | MDebug => []
  | MNote s => s
  | MErr causes =>
      let raw := join [SEMI] (encode_cause <$> causes) in if decide (decode_causes raw = Some causes) then raw else BAD
  end.

Definition cause_weight (c : text * text) : nat := S (length c.1 + length c.2).
Definition weight (m : Msg) : nat :=
  match m with
  | MAny url value => cause_weight (url, value)
  | MDebug => 1
  | MNote s => S (length s)
  | MErr causes => S (sum_list (cause_weight <$> causes))
  end.

Definition any_object (c : text * text) : Value := Object [(AT_TYPE, Str c.1); (VALUE, Str c.2)].
Definition json (m : Msg) : Value :=
  match m with
  | MAny url value => any_object (url, value)
  | MDebug => Object []
  | MNote s => Object [(txt "text", Str s)]
  | MErr causes => Object [(txt "causes", Array (any_object <$> causes))]
  end.

(** The trailer of the witnesses: its details are those of an error on the wire. *)
Definition trailer (b : text) : option PbStatus := mkPbStatus 13 (txt "down") <$> decode_causes b.

#[local] Instance details : DetailLib := {|
  dm_put := put;
  dm_clear m f := put m f (PList []);
  ext_values _ := [];
  ext_kind e := match e with end;
  ext_put m _ _ := m;
  ext_clear m _ := m;
  dm_decode := decode;
  dm_encode := encode;
  dm_json m := Some (json m);
  status_decode := trailer;
  base64_encode b := b;
  dm_weight := weight;
|}.

Lemma held_spec (v : PValue_ Msg) (m : Msg) : m ∈ held v <-> m ∈ @messages_of lib v.
Proof. by destruct v. Qed.

Lemma causes_held (causes : list (text * text)) : omap cause (held (PList (PMessage <$> (packed <$> causes)))) = causes.
Proof. cbn. induction causes as [|[u v] causes IH]; [done|]. cbn. by rewrite IH. Qed.

Lemma packed_causes (v : PValue_ Msg) (m : Msg) : m ∈ packed <$> omap cause (held v) -> m ∈ @messages_of lib v.
Proof.
  rewrite <- held_spec. intros (c & -> & (m' & Hm' & Hc)%list_elem_of_omap)%list_elem_of_fmap.
  destruct m'; try discriminate. injection Hc as <-. done.
Qed.

Lemma list_messages (l : list Msg) : @messages_of lib (PList (PMessage <$> l)) = l.
Proof. cbn. induction l as [|m l IH]; [done|]. cbn. by rewrite IH. Qed.

Lemma split_bar (b : text) (u v : text) : split_once BAR b = Some (u, v) -> length b = S (length u + length v).
Proof. intros H. apply split_once_Some in H as [-> _]. rewrite length_app. cbn. lia. Qed.

Lemma causes_weight (b : text) (causes : list (text * text)) :
  decode_causes b = Some causes -> (sum_list (cause_weight <$> causes) <= length b)%nat.
Proof.
  assert (H : forall ps cs, Forall2 (fun p c => split_once BAR p = Some c) ps cs ->
    (sum_list (cause_weight <$> cs) <= length (join [SEMI] ps))%nat).
  { induction 1 as [|p [u v] ps cs Ep Hps IH]; [cbn; lia|]. apply split_bar in Ep.
    change (sum_list (cause_weight <$> (u, v) :: cs)) with
      (S (length u + length v) + sum_list (cause_weight <$> cs))%nat.
    destruct Hps as [|p' c' ps cs]; [cbn in *; lia|].
    change (join [SEMI] (p :: p' :: ps)) with (p ++ [SEMI] ++ join [SEMI] (p' :: ps)). rewrite !length_app. cbn [length]. lia. }
  unfold decode_causes. destruct b as [|c b]; [by intros [= <-]|]. intros Hm%mapM_Some%H. by rewrite join_split in Hm.
Qed.

#[local] Instance laws : @DetailLaws lib services details.
Proof.
  split.
  - intros m f v g w. cbn. intros (h & [= <- ->] & Hin)%list_elem_of_fmap.
    assert (Hd : g ∈ fields (type_of m)) by (destruct m, f, v; exact Hin).
    destruct m, f, g; cbn in Hd; rewrite ?elem_of_cons, ?elem_of_nil in Hd; try (exfalso; naive_solver);
      try (right; split; [done|]; destruct v; cbn; rewrite ?elem_of_cons; naive_solver).
    + left. split; [done|]. destruct v; intros x Hx; cbn in Hx; by apply elem_of_nil in Hx.
    + left. split; [done|]. destruct v; intros x Hx; cbn in Hx; by apply elem_of_nil in Hx.
    + left. split; [done|]. destruct v; intros x Hx; cbn in Hx; by apply elem_of_nil in Hx.
    + left. split; [done|]. intros x Hx. apply packed_causes. change (x ∈ @messages_of lib (PList (PMessage <$> (packed <$> omap cause (held v))))) in Hx.
      by rewrite list_messages in Hx.
  - intros m f v. cbn. intros (h & [= <- ->] & Hin)%list_elem_of_fmap.
    destruct m, f; cbn in *; rewrite ?elem_of_cons, ?elem_of_nil in Hin; try (exfalso; naive_solver); try done.
    f_equal. apply causes_held.
  - intros m f v. split; [done|]. by destruct m, f, v.
  - intros m [].
  - intros m [].
  - intros m [].
  - intros m f g w m'. cbn. intros (h & [= <- ->] & Hin)%list_elem_of_fmap Hm'.
    destruct m, f, g; cbn in *; rewrite ?elem_of_cons, ?elem_of_nil in *; try (exfalso; naive_solver); naive_solver.
  - intros m f. split; [done|]. by destruct m, f.
  - intros m [].
  - intros m [].
  - intros m f v m'. cbn. intros (h & [= <- ->] & Hin)%list_elem_of_fmap Hm'.
    destruct m, f; cbn in *; rewrite ?elem_of_nil in Hm'; try done; by eexists.
  - intros m [].
  - intros m f v m'. cbn. intros (h & [= <- ->] & Hin)%list_elem_of_fmap Hm'.
    destruct m as [| | |causes], f; cbn [get] in Hm'; try by apply elem_of_nil in Hm'.
    rewrite list_messages in Hm'. apply list_elem_of_fmap in Hm' as (c & -> & Hc). cbn.
    clear -Hc. change (cause_weight (c.1, c.2) < S (sum_list (cause_weight <$> causes)))%nat.
    induction causes as [|c' causes IH]; [by apply elem_of_nil in Hc|].
    change (sum_list (cause_weight <$> c' :: causes)) with (cause_weight c' + sum_list (cause_weight <$> causes))%nat.
    apply elem_of_cons in Hc as [<-|Hc]; [destruct c; cbn [fst snd]; lia|]. specialize (IH Hc). lia.
  - intros m [].
  - intros [] b m H.
    + apply fmap_Some in H as ([u v] & E%split_bar & ->). split; [done|].
      change (S (length u + length v) <= S (length b))%nat. lia.
    + injection H as <-. split; [done|cbn; lia].
    + injection H as <-. split; [done|cbn; lia].
    + apply fmap_Some in H as (cs & E%causes_weight & ->). split; [done|].
      change (S (sum_list (cause_weight <$> cs)) <= S (length b))%nat. lia.
  - intros [u v| |s|cs] m'; cbn [dm_descriptor dm_encode dm_decode lib details type_of encode decode].
    + case_decide as E; [rewrite E; by intros [= <-]|done].
    + by intros [= <-].
    + by intros [= <-].
    + case_decide as E; [rewrite E; by intros [= <-]|done].
  - intros [u v| |s|cs]; [change (length u + length v < S (length u + length v))%nat; lia|apply Nat.lt_0_succ..].
  - intros [] b Ha; try discriminate. done.
Qed.
End Model.

(** * Witnesses *)

Module Demo.
Import Model Http.Model.
#[local] Existing Instances Model.lib Model.services Model.details Model.laws.

Definition renderer : StatusDetails := details_with_opaque (details_new (tt : DescriptorPool)) true.

Definition url (name : string) : text := txt "types/" ++ txt name.

(** A note, a DebugInfo, and an [Any] that packs one. *)
Definition leaky : TStatus :=
  mkStatus CInternal (txt "down")
    (url "demo.Note" ++ txt "|hi;" ++ url "google.rpc.DebugInfo" ++ txt "|stack;" ++
     url "google.protobuf.Any" ++ txt "|" ++ url "google.rpc.DebugInfo" ++ txt "|stack") hm_empty.

Definition note : Value := Object [(AT_TYPE, Str (url "demo.Note")); (txt "text", Str (txt "hi"))].

Lemma debug_info_withheld_witness :
  details_render renderer leaky = Some (Ok (mkRendered [note] [])) /\ Forall (typed_clean renderer) [note].
Proof.
  destruct (debug_info_withheld renderer leaky) as (r & E & H).
  assert (Er : details_render renderer leaky = Some (Ok (mkRendered [note] []))) by (vm_compute; reflexivity).
  rewrite Er in E. injection E as <-. split; [done|]. apply (H _ eq_refl).
Defined.

Definition plain : TStatus :=
  mkStatus CInternal (txt "down")
    (url "demo.Note" ++ txt "|hi;" ++ url "google.protobuf.Any" ++ txt "|" ++ url "demo.Note" ++ txt "|ho") hm_empty.

Definition packed_note : Value :=
  Object [(AT_TYPE, Str (url "google.protobuf.Any")); (VALUE, any_object (url "demo.Note", txt "ho"))].

Lemma note_intact (s : text) : intact renderer (MNote s).
Proof.
  apply intact_message; [done..| |].
  - intros f v m' [[= -> ->]|H%elem_of_nil]%elem_of_cons Hm'; [|done]. by apply elem_of_nil in Hm'.
  - intros e v m' H. by apply elem_of_nil in H.
Qed.

Lemma details_kept_witness : details_render renderer plain = Some (Ok (mkRendered [note; packed_note] [])).
Proof.
  apply (details_kept renderer plain (mkPbStatus 13 (txt "down")
    [(url "demo.Note", txt "hi"); (url "google.protobuf.Any", url "demo.Note" ++ txt "|ho")])); [done|vm_compute; reflexivity..|].
  constructor; [|constructor; [|constructor]].
  - exists (txt "demo.Note"), TNote, (MNote (txt "hi")), (json (MNote (txt "hi"))).
    split_and!; try (vm_compute; reflexivity); [done|apply note_intact].
  - exists ANY, TAny, (MAny (url "demo.Note") (txt "ho")), (json (MAny (url "demo.Note") (txt "ho"))).
    split_and!; try (vm_compute; reflexivity); [done|].
    apply (intact_any _ _ (txt "demo.Note")); [vm_compute; reflexivity..|done| |].
    { intros desc Hr. vm_compute in Hr. injection Hr as <-. eexists. vm_compute. reflexivity. }
    intros desc inner Hr Hd. vm_compute in Hr. injection Hr as <-. vm_compute in Hd. injection Hd as <-. apply note_intact.
Defined.
End Demo.
