(* ===== verification/Shape.v ===== *)
(** * What the shape of a mounted path determines ([src/transcode/path.rs])

    The router tells paths apart by shape: the path without the names of its
    variables. Two templates the router can hold and that have one shape capture the
    same number of segments, so that their bindings can share a table. *)

From S2P Require Import Prelude Rust Path.

(** ** Slashes outside braces *)

(** The depth after a text read from a depth, [None] when [split_top_level] splits it. *)
Fixpoint scan (d : nat) (s : text) : option nat :=
  match s with
  | [] => Some d
  | c :: s' =>
      if decide (c = ch "{") then scan (S d) s'
      else if decide (c = ch "}") then scan (pred d) s'
      else if decide (c = ch "/" /\ d = O) then None
      else scan d s'
  end.

Lemma scan_text_app (d : nat) (a b : text) : scan d (a ++ b) = d' ← scan d a; scan d' b.
Proof.
  revert d. induction a as [|c a IH]; intros d; cbn [scan app]; [done|]. by repeat case_decide.
Qed.

Lemma scan_snoc (d d' : nat) (cur : text) (c : ascii) :
  scan d cur = Some d' -> scan d (cur ++ [c]) = scan d' [c].
Proof. intros H. by rewrite scan_text_app, H. Qed.

(** The segments [split_top_level] makes are not split again. *)
Lemma top_level_scan (s : text) (d : nat) (cur x : text) :
  scan 0 cur = Some d -> x ∈ split_top_level_from d cur s -> is_Some (scan 0 x).
Proof.
  revert d cur. induction s as [|c s IH]; intros d cur Hc; cbn [split_top_level_from].
  { intros ->%list_elem_of_singleton. by exists d. }
  repeat case_decide.
  - apply IH. rewrite (scan_snoc _ _ _ _ Hc). cbn. by rewrite decide_True.
  - apply IH. rewrite (scan_snoc _ _ _ _ Hc). cbn. by rewrite decide_False, decide_True.
  - rewrite elem_of_cons. intros [->|Hx]; [by exists d|]. by apply (IH 0%nat []).
  - apply IH. rewrite (scan_snoc _ _ _ _ Hc). cbn. by rewrite !decide_False.
Qed.

Definition brace (c : ascii) : bool := bool_decide (c = ch "{") || bool_decide (c = ch "}").
Definition plain_text (s : text) : Prop := Forall (fun c => brace c = false) s.

Lemma plain_scan (d : nat) (s : text) : plain_text s -> ch "/" ∉ s -> scan d s = Some d.
Proof.
  intros Hp. revert d. induction Hp as [|c s Hc _ IH]; intros d Hs; cbn [scan]; [done|].
  rewrite not_elem_of_cons in Hs. destruct Hs as [Hne Hs]. unfold brace in Hc. bool_simpl.
  rewrite !decide_False by naive_solver. by apply IH.
Qed.

(** The number of a capture is plain. *)
Lemma shown_scan (d : nat) (n : Z) (s : text) : 0 <= n -> scan d (s ++ show_u64 n) = scan d s.
Proof.
  intros Hn. rewrite scan_text_app. destruct (scan d s) as [d'|]; [|done]. cbn [mbind option_bind].
  pose proof (show_digits_all_digits 20 n [] Hn ltac:(constructor)) as HF. fold (show_u64 n) in HF.
  assert (Hc : forall c, c ∈ show_u64 n -> c <> ch "{" /\ c <> ch "}" /\ c <> ch "/").
  { intros c Hin. rewrite Forall_forall in HF. specialize (HF c Hin). split_and!; by intros ->. }
  apply plain_scan; [|intros Hin; by destruct (Hc _ Hin) as (_ & _ & [])].
  apply Forall_forall. intros c Hin. destruct (Hc c Hin) as (? & ? & _). unfold brace. by rewrite !bool_decide_eq_false_2.
Qed.

(** What is in the braces of a segment, up to the template that follows its name. *)
Lemma inner_scan (segment i : text) : inner segment = Some i -> is_Some (scan 0 segment) -> is_Some (scan 1 i).
Proof.
  intros ->%inner_Some Hs. rewrite scan_text_app in Hs. change (scan 0 (txt "{")) with (Some 1%nat) in Hs.
  cbn [mbind option_bind] in Hs. rewrite scan_text_app in Hs. destruct Hs as [d Hd]. by destruct (scan 1 i).
Qed.

Lemma name_scan (i name template : text) : split_once (ch "=") i = Some (name, template) -> is_Some (scan 1 i) -> is_Some (scan 1 name).
Proof.
  intros [-> _]%split_once_Some Hs. rewrite scan_text_app in Hs. destruct Hs as [d Hd]. by destruct (scan 1 name).
Qed.

(** A segment the router takes: no brace at all, or a variable that is all of it. *)
Definition whole (s : text) : Prop := plain_text s \/ exists i, inner s = Some i /\ plain_text i.

Lemma whole_scan (s : text) : whole s -> ch "/" ∉ s -> scan 0 s = Some 0%nat.
Proof.
  intros [Hp|(i & ->%inner_Some & Hp)] Hs; [by apply plain_scan|].
  rewrite scan_text_app. change (scan 0 (txt "{")) with (Some 1%nat). cbn [mbind option_bind].
  rewrite scan_text_app, (plain_scan 1 i); [done|done|set_solver].
Qed.

(** A segment of a template whose pieces the router takes has no slash. *)
Lemma scanned_whole (s : text) : is_Some (scan 0 s) -> Forall whole (split (ch "/") s) -> ch "/" ∉ s.
Proof.
  intros Hs HF Hin. pose proof (join_split (ch "/") s) as Hj. pose proof (split_pieces_no_sep (ch "/") s) as Hn.
  destruct (split (ch "/") s) as [|a [|b l]] eqn:E; [by apply split_nonnil in E| |].
  - cbn in Hj. subst. by inversion Hn.
  - inversion HF as [|? ? Ha _]; subst. inversion Hn as [|? ? Hna _]; subst.
    change (join [ch "/"] (a :: b :: l)) with (a ++ ch "/" :: join [ch "/"] (b :: l)) in Hs.
    rewrite scan_text_app, (whole_scan a) in Hs by done. destruct Hs as [d Hd]. cbn in Hd. discriminate.
Qed.

(** ** What a mounted path is made of *)

Inductive piece := PieceLit (s : text) | PieceCap (name : text) (catch_all : bool).

Definition opening (catch_all : bool) : text := if catch_all then txt "{*" else txt "{".
Definition piece_axum (p : piece) : text :=
  match p with PieceLit s => s | PieceCap name c => opening c ++ name ++ txt "}" end.
Definition piece_shape (p : piece) : text :=
  match p with PieceLit s => s | PieceCap _ c => opening c ++ txt "}" end.
Definition piece_name (p : piece) : option text := match p with PieceLit _ => None | PieceCap name _ => Some name end.

(** A literal as the template holds it: none of its braces is a variable's; a name
    as its braces hold it. *)
Definition lit_ok (p : piece) : Prop :=
  match p with
  | PieceLit s => plain_text s \/ (inner s = None /\ is_Some (scan 0 s))
  | PieceCap name _ => is_Some (scan 1 name)
  end.

Record drawn (g : Mounting) (ps : list piece) : Prop := {
  dr_axum : g_axum g = join (txt "/") (piece_axum <$> ps);
  dr_shape : g_shape g = join (txt "/") (piece_shape <$> ps);
  dr_captures : g_captures g = omap piece_name ps;
  dr_written : g_written g = length ps;
  dr_lits : g_unsupported g = None -> Forall lit_ok ps;
}.

Lemma join_more {A} (f : A -> text) (l : list A) (x : A) :
  join (txt "/") (f <$> l ++ [x]) = join (txt "/") (f <$> l) ++ (if Nat.ltb 0 (length l) then txt "/" else []) ++ f x.
Proof.
  rewrite fmap_app. change (f <$> [x]) with [f x]. destruct l as [|y l]; [done|]. by rewrite join_snoc.
Qed.

Lemma push_literal_drawn (g : Mounting) (ps : list piece) (s : text) :
  drawn g ps -> (g_unsupported g = None -> lit_ok (PieceLit s)) -> drawn (push_literal (push_segment g) s) (ps ++ [PieceLit s]).
Proof.
  intros [HA HS HC HW HL] Hs. split; cbn [push_literal push_segment g_axum g_shape g_captures g_written g_unsupported].
  - by rewrite HA, HW, join_more, app_assoc.
  - by rewrite HS, HW, join_more, app_assoc.
  - by rewrite HC, omap_app, app_nil_r.
  - rewrite HW, length_app. cbn. lia.
  - intros H. apply Forall_app. split; [by apply HL|]. constructor; [by apply Hs|constructor].
Qed.

Lemma push_capture_drawn (g : Mounting) (ps : list piece) (name : text) (c u m : bool) :
  drawn g ps -> is_Some (scan 1 name) -> drawn (push_capture (push_segment g) name c u m) (ps ++ [PieceCap name c]).
Proof.
  intros [HA HS HC HW HL] Hn. split; cbn [push_capture push_segment g_axum g_shape g_captures g_written g_unsupported].
  - rewrite HA, HW, join_more. by rewrite <- app_assoc.
  - rewrite HS, HW, join_more. by rewrite <- app_assoc.
  - by rewrite HC, omap_app.
  - rewrite HW, length_app. cbn. lia.
  - intros H. apply Forall_app. split; [by apply HL|]. by repeat constructor.
Qed.

Lemma drawn_same (g g' : Mounting) (ps : list piece) :
  g_axum g' = g_axum g -> g_shape g' = g_shape g -> g_captures g' = g_captures g -> g_written g' = g_written g ->
  (g_unsupported g' = None -> g_unsupported g = None) -> drawn g ps -> drawn g' ps.
Proof. intros EA ES EC EW EU []. split; rewrite ?EA, ?ES, ?EC, ?EW; auto. Qed.

Lemma mount_part_drawn (field : text) (multi : bool) (g : Mounting) (parts : list Part) (kp : nat * text) (ps : list piece) :
  is_Some (scan 1 field) -> drawn g ps -> (g_unsupported g = None -> plain_text kp.2) ->
  exists ps', drawn (mount_part field multi (g, parts) kp).1 ps' /\
    g_unsupported (mount_part field multi (g, parts) kp).1 = g_unsupported g.
Proof.
  intros Hf Hd Hk. destruct kp as [k part]. cbn [mount_part]. destruct (_ || _).
  - eexists. split; [|by destruct (contains_byte (ch "%") part)].
    pose proof (push_capture_drawn g ps (field ++ txt "." ++ show_u64 (Z.of_nat k)) false true multi Hd
      ltac:(by rewrite app_assoc, shown_scan, scan_text_app by lia; destruct Hf as [d ->])) as Hp.
    destruct (contains_byte (ch "%") part); [|exact Hp]. by eapply drawn_same; [..|exact Hp].
  - eexists. split; [|done]. apply push_literal_drawn; [done|]. intros H. left. by apply Hk.
Qed.

Lemma mount_parts_drawn (field : text) (multi : bool) (kps : list (nat * text)) (g : Mounting) (parts : list Part) (ps : list piece) :
  is_Some (scan 1 field) -> drawn g ps -> (g_unsupported g = None -> Forall (fun kp => plain_text kp.2) kps) ->
  exists ps', drawn (foldl (mount_part field multi) (g, parts) kps).1 ps'.
Proof.
  intros Hf. revert g parts ps. induction kps as [|kp kps IH]; intros g parts ps Hd Hk; [by exists ps|]. cbn [foldl].
  destruct (mount_part_drawn field multi g parts kp ps Hf Hd) as (ps1 & Hd1 & Hu).
  { intros H. pose proof (Hk H) as HF. by inversion HF. }
  destruct (mount_part field multi (g, parts) kp) as [g1 parts1]. apply (IH g1 parts1 ps1 Hd1).
  intros H. cbn in Hu. rewrite H in Hu. pose proof (Hk (eq_sym Hu)) as HF. by inversion HF.
Qed.

Lemma mount_whole_drawn (segment : text) (idx : nat) (l : bool) (g : Mounting) (ps : list piece) :
  drawn g ps -> is_Some (scan 0 segment) -> exists ps', drawn (mount_whole segment idx l g) ps'.
Proof.
  intros Hd Hs. unfold mount_whole. destruct (convert_segment segment idx l) as [s|name c] eqn:E.
  - eexists. apply push_literal_drawn; [done|]. intros _. right. unfold convert_segment in E.
    destruct (inner segment) as [i|] eqn:Ei; [by repeat case_match|]. split; [|by repeat case_match; simplify_eq].
    repeat case_match; simplify_eq. done.
  - eexists. apply push_capture_drawn; [done|]. unfold convert_segment in E.
    destruct (inner segment) as [i|] eqn:Ei.
    + pose proof (inner_scan _ _ Ei Hs) as Hi. destruct (split_once (ch "=") i) as [[n t]|] eqn:Es.
      * pose proof (name_scan _ _ _ Es Hi) as Hn. by repeat case_match; simplify_eq.
      * by injection E as <- <-.
    + pose proof (shown_scan 1 (Z.of_nat idx) [] ltac:(lia)) as Hn. cbn [app] in Hn.
      by repeat case_match; simplify_eq; rewrite Hn.
Qed.

(** The braces of a field template leave nothing to mount. *)
Lemma check_nested_plain (segment template : text) (g : Mounting) :
  field_template segment = Some template -> g_unsupported (check_nested segment g) = None -> plain_text template.
Proof.
  unfold check_nested. intros ->. destruct (contains_byte (ch "{") template || _) eqn:E; [done|]. intros _.
  apply orb_false_iff in E as [E1%bool_decide_eq_false E2%bool_decide_eq_false].
  apply Forall_forall. intros c Hc. unfold brace. by rewrite !bool_decide_eq_false_2 by (by intros ->).
Qed.

Lemma split_plain (c : ascii) (s : text) : plain_text s -> Forall plain_text (split c s).
Proof.
  intros Hp. apply Forall_forall. intros p Hin. apply Forall_forall. intros x Hx.
  unfold plain_text in Hp. rewrite Forall_forall in Hp. apply Hp. rewrite <- (join_split c s).
  clear Hp. induction (split c s) as [|y l IH]; [by apply elem_of_nil in Hin|].
  destruct l as [|z l]; [by apply list_elem_of_singleton in Hin as ->|].
  change (join [c] (y :: z :: l)) with (y ++ [c] ++ join [c] (z :: l)). rewrite !elem_of_app.
  apply elem_of_cons in Hin as [->|Hin]; [by left|right; right; auto].
Qed.

Lemma check_double_last_unsupported (segment : text) (g : Mounting) :
  g_unsupported (check_double_last segment g) = None -> g_unsupported g = None.
Proof. unfold check_double_last. by repeat case_match. Qed.

Lemma check_nested_unsupported (segment : text) (g : Mounting) :
  g_unsupported (check_nested segment g) = None -> g_unsupported g = None.
Proof. unfold check_nested. by repeat case_match. Qed.

Lemma checks_same (segment : text) (g : Mounting) :
  (g_axum (check_nested segment g), g_shape (check_nested segment g), g_captures (check_nested segment g), g_written (check_nested segment g)) =
    (g_axum g, g_shape g, g_captures g, g_written g) /\
  (g_axum (check_double_last segment g), g_shape (check_double_last segment g), g_captures (check_double_last segment g), g_written (check_double_last segment g)) =
    (g_axum g, g_shape g, g_captures g, g_written g).
Proof. unfold check_nested, check_double_last. split; by repeat case_match. Qed.

Lemma mount_segment_drawn (last : nat) (g : Mounting) (ip : nat * text) (ps : list piece) :
  drawn g ps -> is_Some (scan 0 ip.2) -> exists ps', drawn (mount_segment last g ip) ps'.
Proof.
  intros Hd Hs. destruct ip as [idx segment]. cbn in Hs. unfold mount_segment.
  set (g1 := if Nat.eqb idx last then note_last g else g).
  assert (H1 : drawn g1 ps) by (unfold g1; destruct (Nat.eqb _ _); [by eapply drawn_same; [..|exact Hd]|done]).
  destruct (checks_same segment g1) as [[= EA ES EC EW] _].
  assert (H2 : drawn (check_nested segment g1) ps) by (eapply drawn_same; [..|exact H1]; eauto using check_nested_unsupported).
  set (g2 := if Nat.eqb idx last then check_double_last _ _ else _).
  assert (H3 : drawn g2 ps /\ (g_unsupported g2 = None -> g_unsupported (check_nested segment g1) = None)).
  { unfold g2. destruct (Nat.eqb _ _); [|done]. split; [|apply check_double_last_unsupported].
    destruct (checks_same segment (check_nested segment g1)) as [_ [= FA FS FC FW]].
    eapply drawn_same; [..|exact H2]; eauto using check_double_last_unsupported. }
  destruct H3 as [H3 Hu]. clearbody g2. destruct (mbind _ (inner segment)) as [[field template]|] eqn:Ef.
  - destruct (existsb _ _).
    { apply (mount_whole_drawn _ _ _ _ ps); [|done]. by eapply drawn_same; [..|exact H3]. }
    assert (Hi : is_Some (scan 1 field)).
    { destruct (inner segment) as [i|] eqn:Ei; [|discriminate Ef]. cbn [mbind option_bind] in Ef.
      destruct (split_once (ch "=") i) as [[n t]|] eqn:Es; [|discriminate Ef]. cbn [mbind option_bind] in Ef.
      destruct (_ && _) in Ef; [|discriminate Ef]. injection Ef as -> ->.
      apply (name_scan _ _ _ Es). by apply (inner_scan segment). }
    destruct (mount_parts_drawn field (contains_byte (ch "/") template) (enumerate (split (ch "/") template)) g2 [] ps Hi H3) as [ps' Hp].
    { intros Hn. assert (Hpl : plain_text template).
      { apply (check_nested_plain segment template g1); [|auto]. unfold field_template.
        destruct (inner segment) as [i|]; [|discriminate Ef]. cbn [mbind option_bind] in Ef |- *.
        destruct (split_once (ch "=") i) as [ft|]; [|discriminate Ef]. cbn [mbind option_bind] in Ef |- *.
        destruct (_ && _) in Ef; [|discriminate Ef]. by injection Ef as ->. }
      apply Forall_forall. intros [k p] Hin. apply (split_plain (ch "/")) in Hpl. rewrite Forall_forall in Hpl.
      apply Hpl. unfold enumerate in Hin. by apply elem_of_zip_r in Hin. }
    destruct (foldl _ _ _) as [g3 parts]. exists ps'. by eapply drawn_same; [..|exact Hp].
  - destruct (negb _ && _).
    + apply (mount_whole_drawn _ _ _ _ ps); [|done]. by eapply drawn_same; [..|exact H3].
    + by apply (mount_whole_drawn _ _ _ _ ps).
Qed.

Lemma mount_segments_drawn (last : nat) (ips : list (nat * text)) (g : Mounting) (ps : list piece) :
  drawn g ps -> Forall (fun ip => is_Some (scan 0 ip.2)) ips -> exists ps', drawn (foldl (mount_segment last) g ips) ps'.
Proof.
  revert g ps. induction ips as [|ip ips IH]; intros g ps Hd HF; [by exists ps|]. inversion HF; subst. cbn [foldl].
  destruct (mount_segment_drawn last g ip ps) as [ps' Hp]; [done|done|]. by apply (IH _ ps').
Qed.

(** ** The router's view of it *)

Lemma counted_whole (segments : list text) (n : Z) : count_captures segments = Ok n -> Forall whole segments.
Proof.
  revert n. induction segments as [|s segments IH]; intros n; cbn [count_captures]; [constructor|].
  destruct (position _ s) as [at_|] eqn:Ep.
  - destruct (_ || _) eqn:Eb; [done|]. destruct (count_captures segments) as [m|]; [|done]. intros _.
    constructor; [|by eapply IH]. apply orb_false_iff in Eb as [_ Eb].
    destruct (inner s) as [i|] eqn:Ei; [|done]. right. exists i. split; [done|].
    apply orb_false_iff in Eb as [E1%bool_decide_eq_false E2%bool_decide_eq_false]. apply Forall_forall.
    intros c Hc. unfold brace. by rewrite !bool_decide_eq_false_2 by (by intros ->).
  - intros H. constructor; [|by eapply IH]. left. clear -Ep.
    induction s as [|c s IHs]; [constructor|]. cbn [position] in Ep.
    destruct (bool_decide (c = ch "{") || _) eqn:Ec; [done|]. constructor; [done|].
    apply IHs. by destruct (position _ s).
Qed.

Lemma split_join_pieces (l : list text) :
  l <> [] -> split (ch "/") (join (txt "/") l) = mjoin (split (ch "/") <$> l).
Proof.
  intros Hl. transitivity (split (ch "/") (join [ch "/"] (mjoin (split (ch "/") <$> l)))).
  - f_equal. induction l as [|x l IH]; [done|]. destruct l as [|y l].
    + cbn. by rewrite app_nil_r, join_split.
    + change (join (txt "/") (x :: y :: l)) with (x ++ txt "/" ++ join (txt "/") (y :: l)). rewrite IH by done.
      cbn [fmap list_fmap mjoin list_join]. rewrite <- (join_split (ch "/") x) at 1.
      pose proof (split_nonnil (ch "/") x) as Hx. pose proof (split_nonnil (ch "/") y) as Hy.
      induction (split (ch "/") x) as [|a sx IHx]; [done|]. destruct sx as [|b sx].
      * cbn [app join]. by destruct (split (ch "/") y).
      * change (join [ch "/"] (a :: b :: sx)) with (a ++ [ch "/"] ++ join [ch "/"] (b :: sx)).
        rewrite <- !app_assoc, IHx by done. done.
  - apply split_join.
    + destruct l as [|x l]; [done|]. cbn [fmap list_fmap mjoin list_join]. pose proof (split_nonnil (ch "/") x).
      by destruct (split (ch "/") x).
    + clear. induction l as [|x l IH]; cbn [fmap list_fmap mjoin list_join]; [constructor|]. apply Forall_app. split; [apply split_pieces_no_sep|done].
Qed.

(** The segments of a piece are segments of the path. *)
Lemma piece_segments (ps : list piece) (p : piece) :
  Forall whole (split (ch "/") (join (txt "/") (piece_axum <$> ps))) -> p ∈ ps -> Forall whole (split (ch "/") (piece_axum p)).
Proof.
  intros Hw Hp. rewrite split_join_pieces in Hw by (by destruct ps; [apply elem_of_nil in Hp|]).
  apply Forall_forall. intros x Hx. rewrite Forall_forall in Hw. apply Hw. apply list_elem_of_join.
  exists (split (ch "/") (piece_axum p)). split; [done|]. apply list_elem_of_fmap. exists (piece_axum p). split; [done|].
  apply list_elem_of_fmap. by exists p.
Qed.

(** A piece of what the router takes, in one segment, is all of it. *)
Lemma piece_whole (ps : list piece) (p : piece) :
  Forall whole (split (ch "/") (join (txt "/") (piece_axum <$> ps))) -> p ∈ ps -> is_Some (scan 0 (piece_axum p)) ->
  whole (piece_axum p).
Proof.
  intros Hw Hp Hs. pose proof (piece_segments ps p Hw Hp) as Hsw.
  rewrite split_no_sep in Hsw by (by apply scanned_whole). by inversion Hsw.
Qed.

(** A capture as the path holds it closes what it opens. *)
Lemma capture_scan (name : text) (c : bool) : is_Some (scan 1 name) -> is_Some (scan 0 (piece_axum (PieceCap name c))).
Proof.
  intros [d Hd]. cbn [piece_axum]. rewrite scan_text_app. replace (scan 0 (opening c)) with (Some 1%nat) by (by destruct c).
  cbn [mbind option_bind]. rewrite scan_text_app, Hd. by exists (pred d).
Qed.

(** A captured name stays in its segment. *)
Lemma drawn_single (g : Mounting) (ps : list piece) (name : text) (c : bool) :
  drawn g ps -> g_unsupported g = None -> Forall whole (split (ch "/") (g_axum g)) -> PieceCap name c ∈ ps -> ch "/" ∉ name.
Proof.
  intros Hd Hu Hw Hp Hin. pose proof (dr_lits _ _ Hd Hu) as Hl. rewrite (dr_axum _ _ Hd) in Hw.
  rewrite Forall_forall in Hl. specialize (Hl _ Hp). apply (scanned_whole (piece_axum (PieceCap name c))).
  - by apply capture_scan.
  - by apply piece_segments with ps.
  - cbn. rewrite !elem_of_app. auto.
Qed.

Definition piece_plain (p : piece) : Prop := match p with PieceLit s => plain_text s | PieceCap name _ => plain_text name end.

(** Of what the router takes, no literal and no name has a brace. *)
Lemma drawn_plain (g : Mounting) (ps : list piece) :
  drawn g ps -> g_unsupported g = None -> Forall whole (split (ch "/") (g_axum g)) -> Forall piece_plain ps.
Proof.
  intros Hd Hu Hw. pose proof (dr_lits _ _ Hd Hu) as Hl. rewrite (dr_axum _ _ Hd) in Hw.
  apply Forall_forall. intros p Hp. rewrite Forall_forall in Hl. pose proof (Hl p Hp) as Hk.
  pose proof (piece_whole ps p Hw Hp) as Ha. destruct p as [s|name c]; cbn [piece_plain piece_axum lit_ok] in *.
  - destruct Hk as [?|[Hi Hs]]; [done|]. destruct (Ha Hs) as [?|(i & Hi' & _)]; [done|congruence].
  - destruct Ha as [Ha|(i & Hi & Hpl)].
    + by apply (capture_scan name c).
    + exfalso. unfold plain_text in Ha. rewrite Forall_forall in Ha. specialize (Ha (ch "{")).
      assert (ch "{" ∈ opening c ++ name ++ txt "}") as Hin by (destruct c; by left). by apply Ha in Hin.
    + apply inner_Some in Hi. destruct c; cbn in Hi; injection Hi as Hi.
      * change (ch "*" :: (name ++ txt "}") = i ++ txt "}") in Hi. rewrite app_comm_cons in Hi. apply app_inj_tail in Hi as [<- _].
        by inversion Hpl.
      * apply app_inj_tail in Hi as [<- _]. done.
Qed.

Definition braces (s : text) : nat := length (filter (fun c => c = ch "{") s).

Lemma braces_app (a b : text) : braces (a ++ b) = (braces a + braces b)%nat.
Proof. unfold braces. by rewrite filter_app, length_app. Qed.

Lemma plain_braces (s : text) : plain_text s -> braces s = 0%nat.
Proof.
  induction 1 as [|c s Hc _ IH]; [done|]. unfold braces, brace in *. bool_simpl.
  rewrite filter_cons, decide_False by naive_solver. done.
Qed.

Section Count.
Context (draw : piece -> text).
Context (draw_one : forall p, piece_plain p -> braces (draw p) = match p with PieceLit _ => 0%nat | PieceCap _ _ => 1%nat end).

Lemma drawn_braces (ps : list piece) : Forall piece_plain ps -> braces (join (txt "/") (draw <$> ps)) = length (omap piece_name ps).
Proof using draw_one.
  induction 1 as [|p ps Hp _ IH]; [done|].
  assert (E : braces (join (txt "/") (draw <$> p :: ps)) = (braces (draw p) + braces (join (txt "/") (draw <$> ps)))%nat).
  { destruct ps as [|q ps]; [by cbn; rewrite Nat.add_0_r|]. cbn [fmap list_fmap join]. by rewrite !braces_app. }
  rewrite E, IH, draw_one by done. by destruct p.
Qed.
End Count.

Lemma shape_braces (ps : list piece) : Forall piece_plain ps -> braces (join (txt "/") (piece_shape <$> ps)) = length (omap piece_name ps).
Proof. apply drawn_braces. intros [s|name c] Hp; [by apply plain_braces|by destruct c]. Qed.

Lemma axum_braces (ps : list piece) : Forall piece_plain ps -> braces (join (txt "/") (piece_axum <$> ps)) = length (omap piece_name ps).
Proof.
  apply drawn_braces. intros [s|name c] Hp; [by apply plain_braces|]. cbn [piece_axum piece_plain] in *.
  rewrite !braces_app, (plain_braces name) by done. by destruct c.
Qed.

Section Routable.
Context (matchit_insert : text -> option text).

(** What the router can hold is made of literals and whole-segment variables. *)
Lemma routable_pieces (template : text) :
  routable matchit_insert (mounted_new template) = Ok tt ->
  exists ps, m_axum (mounted_new template) = join (txt "/") (piece_axum <$> ps) /\
    m_shape (mounted_new template) = join (txt "/") (piece_shape <$> ps) /\
    m_captures (mounted_new template) = omap piece_name ps /\
    Forall piece_plain ps /\ (forall name c, PieceCap name c ∈ ps -> ch "/" ∉ name).
Proof.
  unfold routable, mounted_new. destruct (split_verb_template template) as [base verb].
  set (g := foldl _ _ _). cbn [m_unsupported m_axum m_captures m_shape].
  destruct (g_unsupported g) as [|] eqn:Eu; [done|]. unfold mountable. repeat (case_match; [done|]).
  destruct (count_captures _) as [n|] eqn:Ec; [|done]. intros _.
  destruct (mount_segments_drawn (length (split_top_level base) - 1) (enumerate (split_top_level base)) mounting0 [])
    as [ps Hd].
  { by split. }
  { apply Forall_forall. intros [k s] Hin. unfold enumerate in Hin. apply elem_of_zip_r in Hin.
    by apply (top_level_scan base 0 []). }
  fold g in Hd. exists ps. split_and!; [by apply dr_axum|by apply dr_shape|by apply dr_captures| |].
  - apply (drawn_plain g); [done|done|by eapply counted_whole].
  - intros name c. apply (drawn_single g); [done|done|by eapply counted_whole].
Qed.

(** They are as many as its path and its shape have. *)
Lemma routable_captures (template : text) :
  routable matchit_insert (mounted_new template) = Ok tt ->
  length (m_captures (mounted_new template)) = braces (m_shape (mounted_new template)) /\
  length (m_captures (mounted_new template)) = braces (m_axum (mounted_new template)).
Proof.
  intros (ps & -> & -> & -> & Hp & _)%routable_pieces. by rewrite shape_braces, axum_braces.
Qed.

(** Templates of one shape that the router can hold capture as many segments. *)
Lemma shape_captures (t1 t2 : text) :
  routable matchit_insert (mounted_new t1) = Ok tt -> routable matchit_insert (mounted_new t2) = Ok tt ->
  m_shape (mounted_new t1) = m_shape (mounted_new t2) ->
  length (m_captures (mounted_new t1)) = length (m_captures (mounted_new t2)).
Proof.
  intros H1 H2 E. destruct (routable_captures t1 H1) as [-> _], (routable_captures t2 H2) as [-> _]. by rewrite E.
Qed.
End Routable.
