(* ===== verification/Mount.v ===== *)
(** * The transcoded routes of a descriptor pool ([src/transcode/mod.rs])

    From the annotations of the descriptors to the tables the router mounts: the
    bindings and their aliases, the tables by shape, what the router refuses, and the
    listings other parts of the proxy read. The router ([matchit]) is an interface. *)

From stdpp Require Import gmap.
From S2P Require Import Prelude Rust Json Http Protobuf Presence Request Path Shape Table Status Rule HttpBody Codec Details.

(** [matchit::Router]: inserting a path, and the error when it is refused;
    [router_paths] are those it holds. *)
Class MatchitLib : Type := {
  Router : Type;
  router_new : Router;
  router_insert : Router -> text -> Router * option text;
  router_paths : Router -> list text;
}.

(** [http::uri::PathAndQuery::from_str]. *)
Class UriLib : Type := { path_and_query : text -> option text }.

(** [AliasConfig] of [src/config.rs]. *)
Record AliasConfig := mkAlias { al_from : text; al_to : text }.

(** [str::trim_end_matches] of a text that is not empty. *)
Fixpoint trim_end_matches_from (fuel : nat) (suffix s : text) : text :=
  match fuel with
  | O => s
  | S fuel => match strip_suffix suffix s with Some s => trim_end_matches_from fuel suffix s | None => s end
  end.
Definition trim_end_matches (suffix s : text) : text := trim_end_matches_from (length s) suffix s.

Section Data.
Context {HT : HttpLib} {P : ProstLib} {SL : ServiceLib} {GL : GlobLib}.

Inductive RequestBody :=
| Parsed (mapping : BodyMapping)
| RawRoot
| RawField (mapping : BodyMapping) (field : FieldDescriptor) (http_body : MessageDescriptor).

Inductive ResponseShape :=
| RJson (path : option text)
| RHttpBody (path : list FieldDescriptor).

(** What a [RouteEntry] holds for the handler. *)
Record Rpc := mkRpc {
  rp_method : MethodDescriptor;
  rp_streaming : bool;
  rp_request_body : RequestBody;
  rp_response : ResponseShape;
  rp_error_details : option StatusDetails;
  rp_ndjson_envelope : bool;
  rp_response_has_required : bool;
  rp_denied_headers : list text;
}.

Record TranscodeOptions := mkOptions {
  op_error_details : ErrorDetailsPolicy;
  op_ndjson_envelope : bool;
  op_denied_response_headers : list text;
  op_selection : RpcSelection;
}.

Definition transcode_options_default : TranscodeOptions := mkOptions policy_default false [] (mkSelection []).

(** [RouteBinding]. *)
Record RouteBinding := mkRouteBinding { bd_entry : RouteEntry (Rpc := Rpc); bd_mount : MountedPath }.

Definition bd_claim (b : RouteBinding) : Claim := mount_claim (bd_mount b) (bd_entry b).
End Data.

Section Extract.
Context {HT : HttpLib} {P : ProstLib} {SL : ServiceLib} {UL : UriLib}.

Definition request_body (input : MessageDescriptor) (mapping : BodyMapping) : RequestBody :=
  match mapping with
  | MapRoot => if is_http_body input then RawRoot else Parsed mapping
  | MapField name =>
      match http_body_field input name with
      | Some (field, http_body) => RawField mapping field http_body
      | None => Parsed mapping
      end
  | MapNone => Parsed mapping
  end.

Definition response_shape (output : MessageDescriptor) (response_body : option text) : ResponseShape :=
  match response_body with
  | None => if is_http_body output then RHttpBody [] else RJson None
  | Some path => match http_body_path output path with Some fields => RHttpBody fields | None => RJson (Some path) end
  end.

(** [codec::has_required_fields] of an output of the pool, searched with the fuel
    its types need. *)
Definition required_of (pool : DescriptorPool) (output : MessageDescriptor) : bool :=
  default true (has_required_fields (S (work (pool_all_messages pool) [] [output])) output).

(** The entries of one method: the turn of the inner loop. *)
Definition method_entries (pool : DescriptorPool) (selection : RpcSelection) (http_ext : ExtensionDescriptor)
    (service : ServiceDescriptor) (method : MethodDescriptor) : list (RouteEntry (Rpc := Rpc)) :=
  if mt_client_streaming method || negb (selects selection method) then []
  else
    match path_and_query (txt "/" ++ sd_full_name service ++ txt "/" ++ mt_name method) with
    | None => []
    | Some grpc_path =>
        let input := mt_input method in
        let output := mt_output method in
        let response_has_required := required_of pool output in
        (fun binding =>
           mkEntry (hb_path binding) (hb_method binding) grpc_path
             (mkRpc method (mt_server_streaming method) (request_body input (hb_body binding))
                (response_shape output (hb_response_body binding)) None false response_has_required []))
        <$> http_bindings method http_ext
    end.

Definition extract_routes (pool : DescriptorPool) (selection : RpcSelection) : list RouteEntry :=
  match pool_extension_by_name pool (txt "google.api.http") with
  | None => []
  | Some http_ext =>
      service ← pool_services pool;
      method ← sd_methods service;
      method_entries pool selection http_ext service method
  end.
End Extract.

(** The path an alias serves a route at. *)
Definition PATH_SUFFIX : text := txt "/{path}".

Definition alias_path (http_path : text) (alias : AliasConfig) : option text :=
  let! suffix := strip_prefix (al_to alias) http_path in
  if ends_with PATH_SUFFIX (al_from alias) then Some (trim_end_matches PATH_SUFFIX (al_from alias) ++ suffix)
  else None.

Section Mount.
Context {HT : HttpLib} {P : ProstLib} {SL : ServiceLib} {UL : UriLib} {ML : MatchitLib} {GL : GlobLib}.

(** [MountedPath::routable], on a router of its own. *)
Definition insert_error (path : text) : option text := (router_insert router_new path).2.
Definition is_routable (mount : MountedPath) : bool :=
  match routable insert_error mount with Ok _ => true | Err _ => false end.

(** The closure [push] of [route_bindings]. *)
Definition push_binding (entry : RouteEntry) (template : text) : option RouteBinding :=
  let mount := mounted_new template in
  if is_routable mount then Some (mkRouteBinding entry mount) else None.

Definition route_bindings (pool : DescriptorPool) (aliases : list AliasConfig) (selection : RpcSelection)
    : list RouteBinding :=
  entry ← extract_routes pool selection;
  omap (push_binding entry) (omap (alias_path (e_http_path entry)) aliases ++ [e_http_path entry]).

(** [retain_mountable]: the items the router takes, after those before them. *)
Fixpoint retain_from {A} (router : Router) (path : A -> text) (items : list A) : list A :=
  match items with
  | [] => []
  | item :: items =>
      let '(router, error) := router_insert router (path item) in
      match error with
      | None => item :: retain_from router path items
      | Some _ => retain_from router path items
      end
  end.

Definition retain_mountable {A} (path : A -> text) (items : list A) : list A := retain_from router_new path items.

(** Grouping by shape: the groups in order of their first item, and the index of
    each shape. *)
Section Group.
Context {G : Type} (new_ : RouteBinding -> G) (add : G -> RouteBinding -> G).

Definition group_step (s : list G * gmap text nat) (binding : RouteBinding) : list G * gmap text nat :=
  let '(groups, by_shape) := s in
  match by_shape !! m_shape (bd_mount binding) with
  | Some index => (alter (fun g => add g binding) index groups, by_shape)
  | None => (groups ++ [new_ binding], <[m_shape (bd_mount binding) := length groups]> by_shape)
  end.

Definition group_by_shape (bindings : list RouteBinding) : list G := (foldl group_step ([], ∅) bindings).1.
End Group.

(** ** The tables *)

Context {PT : PercentLib}.
(** [complete_with_canonical]: the pool with the canonical types added to it. *)
Context (completed : DescriptorPool -> DescriptorPool).

Definition with_error_details (entry : RouteEntry (Rpc := Rpc)) (d : option StatusDetails) (envelope : bool) (denied : list text)
    : RouteEntry :=
  let r := e_rpc entry in
  mkEntry (e_http_path entry) (e_http_method entry) (e_grpc_path entry)
    (mkRpc (rp_method r) (rp_streaming r) (rp_request_body r) (rp_response r) d envelope (rp_response_has_required r) denied).

(** The two renderers, without and with the opaque-detail extension. *)
Abbreviation slots := (option StatusDetails * option StatusDetails)%type.

Definition slot_of (s : slots) (opaque : bool) : option StatusDetails := if opaque then s.2 else s.1.

Definition fill_slot (pool : DescriptorPool) (s : slots) (opaque : bool) : slots :=
  match slot_of s opaque with
  | Some _ => s
  | None =>
      let base := match s.1 with
                  | Some existing => existing
                  | None => match s.2 with Some existing => existing | None => details_new (completed pool) end
                  end in
      let d := details_with_opaque base opaque in
      if opaque then (s.1, Some d) else (Some d, s.2)
  end.

(** The turn of the loop of [path_tables] before the tables: what the options set on
    the entry. *)
Definition set_options (pool : DescriptorPool) (options : TranscodeOptions) (s : slots) (binding : RouteBinding)
    : slots * RouteBinding :=
  let policy := op_error_details options in
  let route := display (bd_mount binding) in
  let '(s, d) :=
    if enabled_for policy route then
      let s := fill_slot pool s (opaque_for policy route) in (s, slot_of s (opaque_for policy route))
    else (s, rp_error_details (e_rpc (bd_entry binding))) in
  (s, mkRouteBinding (with_error_details (bd_entry binding) d (op_ndjson_envelope options) (op_denied_response_headers options))
        (bd_mount binding)).

Definition new_table (b : RouteBinding) : PathTable := table_new (bd_mount b) (bd_entry b).
Definition add_binding (t : PathTable) (b : RouteBinding) : PathTable := table_add t (bd_mount b) (bd_entry b).

Definition path_step (pool : DescriptorPool) (options : TranscodeOptions)
    (s : slots * (list PathTable * gmap text nat)) (binding : RouteBinding) : slots * (list PathTable * gmap text nat) :=
  let '(sl, groups) := s in
  let '(sl, binding) := set_options pool options sl binding in
  (sl, group_step new_table add_binding groups binding).

Definition path_tables (pool : DescriptorPool) (aliases : list AliasConfig) (options : TranscodeOptions)
    : list (PathTable (Rpc := Rpc)) :=
  let bindings := route_bindings pool aliases (op_selection options) in
  let tables := (foldl (path_step pool options) ((None, None), ([], ∅)) bindings).2.1 in
  retain_mountable p_path tables.

(** ** The listings *)

(** The bindings of each shape. *)
Definition shape_bindings (pool : DescriptorPool) (aliases : list AliasConfig) (selection : RpcSelection)
    : list (list RouteBinding) :=
  retain_mountable (fun bindings => default [] (m_axum ∘ bd_mount <$> head bindings))
    (group_by_shape (fun b => [b]) (fun bs b => bs ++ [b]) (route_bindings pool aliases selection)).

(** [seen.insert]: the first binding of each shape. *)
Fixpoint first_mounts (seen : gset text) (bindings : list RouteBinding) : list MountedPath :=
  match bindings with
  | [] => []
  | b :: bindings =>
      if decide (m_shape (bd_mount b) ∈ seen) then first_mounts seen bindings
      else bd_mount b :: first_mounts ({[m_shape (bd_mount b)]} ∪ seen) bindings
  end.

Definition mounted_shapes (pool : DescriptorPool) (aliases : list AliasConfig) (selection : RpcSelection) : gset text :=
  list_to_set (m_shape <$> retain_mountable m_axum (first_mounts ∅ (route_bindings pool aliases selection))).

(** What [route_paths] lists for the bindings of one shape. *)
Definition listed_methods (bindings : list RouteBinding) : list text :=
  if existsb (fun b => bool_decide (e_http_method (bd_entry b) = Any) || bool_decide (is_Some (m_verb (bd_mount b)))) bindings
  then [txt "*"]
  else foldl (fun methods b => let method := method_str (e_http_method (bd_entry b)) in
                if decide (method ∈ methods) then methods else methods ++ [method]) [] bindings.

Definition clashing_methods (bindings : list RouteBinding) : list text :=
  omap (fun ib => if existsb (fun earlier => clash (bd_claim earlier) (bd_claim ib.2)) (take ib.1 bindings)
                  then Some (method_str (e_http_method (bd_entry ib.2))) else None) (enumerate bindings).

Definition shape_paths (bindings : list RouteBinding) : list (text * text) :=
  let path := default [] (m_axum ∘ bd_mount <$> head bindings) in
  (fun method => (method, path)) <$> listed_methods bindings ++ clashing_methods bindings.

Definition route_paths (pool : DescriptorPool) (aliases : list AliasConfig) (selection : RpcSelection) : list (text * text) :=
  mjoin (shape_paths <$> shape_bindings pool aliases selection).

Record BoundMethods := mkBound { bm_methods : list text; bm_every : bool }.

Definition bound_methods (pool : DescriptorPool) (aliases : list AliasConfig) (selection : RpcSelection) : BoundMethods :=
  foldl (fun bound b =>
           match e_http_method (bd_entry b) with
           | One method => if decide (method ∈ bm_methods bound) then bound
                           else mkBound (bm_methods bound ++ [method]) (bm_every bound)
           | Any => mkBound (bm_methods bound) true
           end)
    (mkBound [] false) (mjoin (shape_bindings pool aliases selection)).

(** ** The router of [routes_and_choices] *)

(** The route of a table: its path, and whether it is the HEAD route of it too. *)
Record RouterRoute := mkRouterRoute { rr_path : text; rr_table : nat; rr_head : bool }.

(** [None] is a proxy without transcoded routes. *)
Definition routes_and_choices (pool : DescriptorPool) (aliases : list AliasConfig) (options : TranscodeOptions)
    : option (list RouterRoute * Routes (Rpc := Rpc)) :=
  match path_tables pool aliases options with
  | [] => None
  | tables =>
      let routes := routes_new tables in
      Some ((fun it => mkRouterRoute (p_path it.2) it.1 (binds_head it.2)) <$> enumerate (r_tables routes), routes)
  end.
End Mount.

(** * Laws *)

(** What the router is documented to hold: the paths it accepted, no two of which
    match the same requests. *)
Class MatchitLaws (ML : MatchitLib) : Prop := {
  new_paths : router_paths router_new = [];
  insert_paths r p r' : router_insert r p = (r', None) -> router_paths r' = router_paths r ++ [p];
  refuse_paths r p r' e : router_insert r p = (r', Some e) -> router_paths r' = router_paths r;
  insert_conflict r p q :
    q ∈ router_paths r -> mountable insert_error p = Ok tt -> mountable insert_error q = Ok tt ->
    pattern_of p = pattern_of q -> (router_insert r p).2 <> None;
}.

Section Retain.
Context {ML : MatchitLib}.

Lemma retain_Forall {A} (Q : A -> Prop) (path : A -> text) (items : list A) :
  Forall Q items -> Forall Q (retain_mountable path items).
Proof.
  unfold retain_mountable. intros HF. generalize router_new. induction HF as [|x items Hx _ IH]; intros r; cbn; [constructor|].
  destruct (router_insert r (path x)) as [r' [e|]]; [apply IH|by constructor].
Qed.

(** Items related pairwise, of the same paths, are kept together. *)
Lemma retain_Forall2 {A B} (R : A -> B -> Prop) (p : A -> text) (q : B -> text) (xs : list A) (ys : list B) :
  Forall2 (fun x y => R x y /\ p x = q y) xs ys ->
  Forall2 (fun x y => R x y /\ p x = q y) (retain_mountable p xs) (retain_mountable q ys).
Proof.
  unfold retain_mountable. intros HF. generalize router_new.
  induction HF as [|x y xs ys [Hxy E] _ IH]; intros r; cbn; [constructor|].
  rewrite E. destruct (router_insert r (q y)) as [r' [e|]]; [apply IH|by constructor].
Qed.

Context {MLL : MatchitLaws ML}.

(** What is kept matches the same requests as nothing else kept. *)
Lemma retain_patterns {A} (path : A -> text) (items : list A) :
  Forall (fun x => mountable insert_error (path x) = Ok tt) items ->
  NoDup (pattern_of ∘ path <$> retain_mountable path items).
Proof.
  intros HF. unfold retain_mountable.
  assert (Hr : forall p, p ∈ router_paths router_new -> mountable insert_error p = Ok tt)
    by (intros p; rewrite new_paths; by intros ?%elem_of_nil).
  assert (H : forall r, (forall p, p ∈ router_paths r -> mountable insert_error p = Ok tt) ->
    NoDup (pattern_of ∘ path <$> retain_from r path items) /\
    forall x p, x ∈ retain_from r path items -> p ∈ router_paths r -> pattern_of (path x) <> pattern_of p).
  { clear Hr. induction HF as [|x items Hx _ IH]; intros r Hr; cbn [retain_from].
    { split; [constructor|]. by intros x p ?%elem_of_nil. }
    destruct (router_insert r (path x)) as [r' [e|]] eqn:E.
    - pose proof (refuse_paths _ _ _ _ E) as Ep. destruct (IH r') as [H1 H2]; [by rewrite Ep|].
      split; [done|]. rewrite Ep in H2. done.
    - pose proof (insert_paths _ _ _ E) as Ep. destruct (IH r') as [H1 H2].
      { intros p. rewrite Ep, elem_of_app, list_elem_of_singleton. intros [?| ->]; auto. }
      rewrite Ep in H2. split.
      + cbn [fmap list_fmap]. constructor; [|done]. intros (y & Ey & Hy)%list_elem_of_fmap.
        apply (H2 y (path x) Hy); [set_solver|done].
      + intros y p [->|Hy]%elem_of_cons Hp.
        * intros Heq. apply (insert_conflict r (path x) p Hp Hx (Hr p Hp) Heq). by rewrite E.
        * apply H2; [done|set_solver]. }
  by apply H.
Qed.
End Retain.

(** ** Groups *)

Section Groups.
Context {HT : HttpLib} {P : ProstLib} {SL : ServiceLib}.

Definition shape_of (b : RouteBinding) : text := m_shape (bd_mount b).

(** What a group comes to when its items are added one after another. *)
Definition collapse {G} (new_ : RouteBinding -> G) (add : G -> RouteBinding -> G) (g : list RouteBinding) : option G :=
  match g with [] => None | b :: g => Some (foldl add (new_ b) g) end.

Abbreviation lists := (group_step (fun b => [b]) (fun bs b => bs ++ [b])).

(** The groups: of one shape each, indexed by it. *)
Record grouped (gs : list (list RouteBinding)) (m : gmap text nat) : Prop := {
  gr_group i g : gs !! i = Some g -> exists s, m !! s = Some i;
  gr_index s i : m !! s = Some i -> exists g, gs !! i = Some g /\ g <> [] /\ Forall (fun b => shape_of b = s) g;
}.

Lemma group_step_grouped (gs : list (list RouteBinding)) (m : gmap text nat) (b : RouteBinding) :
  grouped gs m -> let s := lists (gs, m) b in grouped s.1 s.2 /\ mjoin s.1 ≡ₚ mjoin gs ++ [b].
Proof.
  intros Hg. cbn [group_step]. fold (shape_of b). destruct (m !! shape_of b) as [k|] eqn:E; cbn [fst snd].
  - destruct (gr_index _ _ Hg _ _ E) as (g & Hk & Hn & HF). split; [split|].
    + intros i g' Hi. destruct (decide (i = k)) as [->|]; [eauto|]. rewrite list_lookup_alter_ne in Hi by done.
      by eapply gr_group.
    + intros s i Hs. destruct (gr_index _ _ Hg _ _ Hs) as (g' & Hi & Hn' & HF').
      destruct (decide (i = k)) as [->|]; [|exists g'; by rewrite list_lookup_alter_ne].
      rewrite Hk in Hi. injection Hi as <-. exists (g ++ [b]). rewrite list_lookup_alter_eq, Hk. split; [done|].
      split; [by destruct g|]. apply Forall_app. split; [done|]. constructor; [|constructor].
      destruct g as [|c g]; [done|]. inversion HF; inversion HF'; subst. congruence.
    + clear Hn HF. apply list_elem_of_split_length in Hk as (l1 & l2 & -> & ->).
      rewrite <- (Nat.add_0_r (length l1)), alter_app_r. cbn [alter list_alter].
      rewrite !join_app. cbn [mjoin list_join]. rewrite <- !app_assoc. do 2 f_equiv. by rewrite (Permutation_app_comm [b]).
  - split; [split|].
    + intros i g Hi. apply lookup_snoc_Some in Hi as [[_ Hi]|[-> _]]; [|exists (shape_of b); by rewrite lookup_insert_eq].
      destruct (gr_group _ _ Hg _ _ Hi) as [s Hs]. exists s. rewrite lookup_insert_ne; [done|congruence].
    + intros s i Hs. apply lookup_insert_Some in Hs as [[<- <-]|[Hne Hs]].
      * exists [b]. rewrite lookup_app_r, Nat.sub_diag by done. split; [done|]. split; [done|]. by constructor.
      * destruct (gr_index _ _ Hg _ _ Hs) as (g & Hi & ?). exists g. by rewrite (lookup_app_l_Some _ _ _ _ Hi).
    + rewrite join_app. cbn. done.
Qed.

Lemma group_grouped (bindings : list RouteBinding) :
  let s := foldl lists ([], ∅) bindings in grouped s.1 s.2 /\ mjoin s.1 ≡ₚ bindings.
Proof.
  induction bindings as [|b bs IH] using rev_ind; cbn.
  { split; [split|done]; [done|]. intros s i. by rewrite lookup_empty. }
  rewrite foldl_app. cbn [foldl]. destruct (foldl lists ([], ∅) bs) as [gs m]. cbn in IH |- *.
  destruct IH as [Hg Hp]. destruct (group_step_grouped gs m b Hg) as [Hg' Hp']. split; [done|].
  cbn zeta in Hp'. by rewrite Hp', Hp.
Qed.

(** Grouping looks at the shapes alone. *)
Lemma group_map (f : RouteBinding -> RouteBinding) (bindings : list RouteBinding) :
  (forall b, shape_of (f b) = shape_of b) ->
  let s := foldl lists ([], ∅) bindings in
  foldl lists ([], ∅) (f <$> bindings) = ((fun bs : list RouteBinding => f <$> bs) <$> s.1, s.2).
Proof.
  intros Hf. induction bindings as [|b bs IH] using rev_ind; cbn zeta; [done|].
  rewrite fmap_app, !foldl_app, IH. cbn [foldl fmap list_fmap]. destruct (foldl lists ([], ∅) bs) as [gs m].
  cbn [fst snd group_step]. fold (shape_of b) (shape_of (f b)). rewrite Hf.
  destruct (m !! shape_of b) as [k|]; cbn [fst snd]; [|by rewrite fmap_app, length_fmap].
  f_equal. apply list_eq. intros i. rewrite list_lookup_fmap. destruct (decide (i = k)) as [->|].
  - rewrite !list_lookup_alter_eq, list_lookup_fmap. destruct (gs !! k); cbn; by rewrite ?fmap_app.
  - by rewrite !list_lookup_alter_ne, list_lookup_fmap.
Qed.

(** The first bindings of the shapes are the heads of the groups. *)
Lemma first_mounts_heads (bindings : list RouteBinding) :
  Forall2 (fun m g => bd_mount <$> head g = Some m) (first_mounts ∅ bindings) (foldl lists ([], ∅) bindings).1.
Proof.
  assert (H : forall seen gs m ms, grouped gs m -> (forall s, s ∈ seen <-> is_Some (m !! s)) ->
    Forall2 (fun m g => bd_mount <$> head g = Some m) ms gs ->
    Forall2 (fun m g => bd_mount <$> head g = Some m) (ms ++ first_mounts seen bindings) (foldl lists (gs, m) bindings).1).
  2:{ apply (H ∅ [] ∅ []); [| |constructor].
      - split; [done|]. intros s i. by rewrite lookup_empty.
      - intros s. rewrite lookup_empty. split; [by intros ?%elem_of_empty|by intros []]. }
  induction bindings as [|b bs IH]; intros seen gs m ms Hg Hs HF; cbn [first_mounts foldl]; [by rewrite app_nil_r|].
  pose proof (group_step_grouped gs m b Hg) as [Hg' _]. cbn [group_step] in Hg' |- *. fold (shape_of b) in Hg' |- *.
  destruct (m !! shape_of b) as [k|] eqn:E; cbn [fst snd] in Hg'.
  - rewrite decide_True by (apply Hs; eauto). apply IH; [done|done|].
    apply Forall2_same_length_lookup. pose proof (Forall2_length _ _ _ HF). rewrite length_alter. split; [done|].
    intros i mt g Hmt Hi. destruct (decide (i = k)) as [->|].
    + rewrite list_lookup_alter_eq in Hi. destruct (gr_index _ _ Hg _ _ E) as (g' & Hk & Hn & _).
      rewrite Hk in Hi. cbn in Hi. injection Hi as <-. pose proof (Forall2_lookup_lr _ _ _ _ _ _ HF Hmt Hk) as Hh.
      by destruct g'.
    + rewrite list_lookup_alter_ne in Hi by done. exact (Forall2_lookup_lr _ _ _ _ _ _ HF Hmt Hi).
  - rewrite decide_False by (rewrite Hs, E; by intros []). rewrite cons_middle, app_assoc. apply IH; [done| |].
    + intros s. rewrite elem_of_union, elem_of_singleton, Hs. fold (shape_of b).
      destruct (decide (shape_of b = s)) as [<-|Hne].
      * rewrite lookup_insert_eq. split; [eauto|by left].
      * rewrite lookup_insert_ne by done. split; [intros [->|?]; done|by right].
    + apply Forall2_app; [done|]. by repeat constructor.
Qed.

(** Any grouping is the grouping in lists, each list collapsed. *)
Lemma group_collapse {G} (new_ : RouteBinding -> G) (add : G -> RouteBinding -> G) (bindings : list RouteBinding) :
  let s := foldl (group_step new_ add) ([], ∅) bindings in
  let l := foldl lists ([], ∅) bindings in
  s.2 = l.2 /\ Some <$> s.1 = collapse new_ add <$> l.1.
Proof.
  induction bindings as [|b bs IH] using rev_ind; [done|]. cbn zeta. rewrite !foldl_app. cbn [foldl].
  pose proof (group_grouped bs) as [Hg _]. cbn zeta in IH.
  destruct (foldl lists ([], ∅) bs) as [gs m], (foldl (group_step new_ add) ([], ∅) bs) as [ts m'].
  cbn [fst snd] in *. destruct IH as [-> IH]. cbn [group_step]. fold (shape_of b).
  assert (Hlen : length ts = length gs) by (apply (f_equal length) in IH; by rewrite !length_fmap in IH).
  destruct (m !! shape_of b) as [k|] eqn:E; cbn [fst snd]; (split; [by rewrite ?Hlen|]).
  - destruct (gr_index _ _ Hg _ _ E) as (g & Hk & Hn & _). apply list_eq. intros i.
    rewrite !list_lookup_fmap. apply (f_equal (.!! i)) in IH. rewrite !list_lookup_fmap in IH.
    destruct (decide (i = k)) as [->|]; [|by rewrite !list_lookup_alter_ne].
    rewrite !list_lookup_alter_eq. rewrite Hk in IH |- *. destruct (ts !! k) as [t|]; cbn in IH |- *; [|done].
    injection IH as IH. f_equal. destruct g as [|c g]; [done|]. cbn in IH |- *. injection IH as ->.
    by rewrite foldl_app.
  - by rewrite !fmap_app, IH.
Qed.
End Groups.

(** ** The tables are well formed *)

Section Mounted.
Context {HT : HttpLib} {HL : HttpLaws HT} {P : ProstLib} {SL : ServiceLib} {UL : UriLib}.
Context {ML : MatchitLib} {MLL : MatchitLaws ML} {GL : GlobLib} {PT : PercentLib}.
Context (completed : DescriptorPool -> DescriptorPool).

(** A binding [route_bindings] makes: of a template the router can hold and a method. *)
Definition bd_ok (b : RouteBinding) : Prop :=
  (exists template, bd_mount b = mounted_new template) /\ routable insert_error (bd_mount b) = Ok tt /\
  method_str (e_http_method (bd_entry b)) <> [].

Lemma route_binding_from (pool : DescriptorPool) (aliases : list AliasConfig) (selection : RpcSelection) (b : RouteBinding) :
  b ∈ route_bindings pool aliases selection -> bd_ok b /\ e_http_method (bd_entry b) <> One (txt "*").
Proof using HL.
  intros (entry & Hb & He)%list_elem_of_bind.
  apply list_elem_of_omap in Hb as (template & _ & Hb). unfold push_binding, is_routable in Hb.
  destruct (routable insert_error (mounted_new template)) as [[]|] eqn:Er; [|done]. injection Hb as <-.
  cut (method_str (e_http_method entry) <> [] /\ e_http_method entry <> One (txt "*")).
  { intros []. split; [|done]. split_and!; [by exists template|done..]. }
  unfold extract_routes in He.
  destruct (pool_extension_by_name _ _) as [ext|]; [|by apply elem_of_nil in He].
  apply list_elem_of_bind in He as (service & He & _). apply list_elem_of_bind in He as (method & He & _).
  unfold method_entries in He. destruct (_ || _); [by apply elem_of_nil in He|].
  destruct (path_and_query _) as [q|]; [|by apply elem_of_nil in He].
  apply list_elem_of_fmap in He as (hb & -> & Hin). cbn. unfold http_bindings in Hin.
  destruct (negb _); [by apply elem_of_nil in Hin|]. destruct (dm_get_extension _ _); try by apply elem_of_nil in Hin.
  by apply binding_method_token in Hin as (? & ? & _).
Qed.

Lemma route_bindings_ok (pool : DescriptorPool) (aliases : list AliasConfig) (selection : RpcSelection) :
  Forall bd_ok (route_bindings pool aliases selection).
Proof using HL. apply Forall_forall. intros b Hb. by apply route_binding_from in Hb as [? _]. Qed.

(** The details renderer of a route, whichever bindings came before it. *)
Definition details_of (pool : DescriptorPool) (options : TranscodeOptions) (b : RouteBinding) : option StatusDetails :=
  let route := display (bd_mount b) in
  if enabled_for (op_error_details options) route
  then Some (mkDetails (completed pool) (opaque_for (op_error_details options) route))
  else rp_error_details (e_rpc (bd_entry b)).

Definition decorated (pool : DescriptorPool) (options : TranscodeOptions) (b : RouteBinding) : RouteBinding :=
  mkRouteBinding (with_error_details (bd_entry b) (details_of pool options b) (op_ndjson_envelope options)
                    (op_denied_response_headers options)) (bd_mount b).

Definition slots_ok (pool : DescriptorPool) (s : option StatusDetails * option StatusDetails) : Prop :=
  forall opaque d, slot_of s opaque = Some d -> d = mkDetails (completed pool) opaque.

Lemma fill_slot_ok (pool : DescriptorPool) (s : option StatusDetails * option StatusDetails) (opaque : bool) :
  slots_ok pool s ->
  slots_ok pool (fill_slot completed pool s opaque) /\
  slot_of (fill_slot completed pool s opaque) opaque = Some (mkDetails (completed pool) opaque).
Proof.
  intros Hs. unfold fill_slot. destruct (slot_of s opaque) as [d|] eqn:E; [by rewrite E, (Hs _ _ E)|].
  set (base := match s.1 with Some _ => _ | None => _ end).
  assert (Hb : details_with_opaque base opaque = mkDetails (completed pool) opaque).
  { unfold base, details_with_opaque. destruct s as [[d|] [e|]]; cbn; f_equal.
    1, 2: by rewrite (Hs false d eq_refl). by rewrite (Hs true e eq_refl). }
  rewrite Hb. destruct opaque; (split; [|done]); intros [|] d; cbn [slot_of fst snd]; try (by intros [= <-]).
  - apply (Hs false). - apply (Hs true).
Qed.

(** The loop sets on each entry what the options say, and groups. *)
Lemma path_fold (pool : DescriptorPool) (options : TranscodeOptions) (bindings : list RouteBinding)
    (s : option StatusDetails * option StatusDetails) (groups : list PathTable * gmap text nat) :
  slots_ok pool s ->
  (foldl (path_step completed pool options) (s, groups) bindings).2 =
  foldl (group_step new_table add_binding) groups (decorated pool options <$> bindings).
Proof.
  revert s groups. induction bindings as [|b bs IH]; intros s groups Hs; [done|]. cbn [foldl fmap list_fmap].
  unfold path_step at 2, set_options. unfold decorated at 1, details_of.
  destruct (enabled_for _ _); [|by rewrite IH].
  destruct (fill_slot_ok pool s (opaque_for (op_error_details options) (display (bd_mount b))) Hs) as [H1 ->]. by rewrite IH.
Qed.

Lemma path_tables_groups (pool : DescriptorPool) (aliases : list AliasConfig) (options : TranscodeOptions) :
  exists tables, path_tables completed pool aliases options = retain_mountable p_path tables /\
    Some <$> tables = collapse new_table add_binding <$>
      (foldl (group_step (fun b => [b]) (fun bs b => bs ++ [b])) ([], ∅)
         (decorated pool options <$> route_bindings pool aliases (op_selection options))).1.
Proof.
  eexists. split; [reflexivity|]. rewrite path_fold by (by intros [|]).
  exact (proj2 (group_collapse new_table add_binding _)).
Qed.

(** A table the router holds: well formed, with a capture for each variable of its path. *)
Definition table_held (t : PathTable (Rpc := Rpc)) : Prop := table_ok t /\ length (p_captures t) = braces (p_path t).

(** A group of bindings of one shape collapses to a well-formed table. *)
Lemma collapse_ok (s : text) (g : list RouteBinding) (t : PathTable) :
  Forall bd_ok g -> Forall (fun b => shape_of b = s) g -> collapse new_table add_binding g = Some t ->
  table_held t /\ mountable insert_error (p_path t) = Ok tt /\
  (forall b, b ∈ p_bindings t -> exists rb, rb ∈ g /\ b_entry b = bd_entry rb) /\
  exists rb, head g = Some rb /\ p_path t = m_axum (bd_mount rb).
Proof.
  destruct g as [|b g]; [done|]. intros Hok Hs [= <-]. inversion Hok as [|? ? ((t0 & E0) & Hr0 & Hm0) Hok']; subst.
  inversion Hs as [|? ? Hs0 Hs']; subst. clear Hok Hs.
  assert (Hp : mountable insert_error (m_axum (bd_mount b)) = Ok tt).
  { unfold routable in Hr0. by destruct (m_unsupported (bd_mount b)). }
  assert (H : let t := foldl add_binding (new_table b) g in
    table_ok t /\ p_path t = m_axum (bd_mount b) /\ p_captures t = m_captures (bd_mount b) /\
    forall x, x ∈ p_bindings t -> exists rb, rb ∈ b :: g /\ b_entry x = bd_entry rb).
  2:{ destruct H as (H1 & H2 & H3 & H4). split; [|rewrite H2; split_and!; try done; by exists b].
      split; [done|]. rewrite H3, H2, E0. apply (routable_captures insert_error). by rewrite <- E0. }
  clear Hp. induction g as [|c g IH] using rev_ind; cbn zeta.
  - cbn [foldl]. split_and!; try done.
    + unfold new_table. rewrite E0. by apply table_new_ok.
    + intros x Hx. cbn in Hx. apply list_elem_of_singleton in Hx as ->. exists b. split; [by left|done].
  - apply Forall_app in Hok' as [Hok' Hc], Hs' as [Hs' Hsc]. inversion Hc as [|? ? ((tc & Ec) & Hrc & Hmc) _]; subst.
    inversion Hsc as [|? ? Hsc' _]; subst. destruct (IH Hok' Hs') as (H1 & H2 & H3 & H4). clear IH.
    rewrite foldl_app. cbn [foldl]. set (t := foldl add_binding (new_table b) g) in *. unfold add_binding.
    assert (Hsame : p_path (table_add t (bd_mount c) (bd_entry c)) = p_path t /\
                    p_captures (table_add t (bd_mount c) (bd_entry c)) = p_captures t).
    { unfold table_add. by destruct (existsb _ _). }
    destruct Hsame as [-> ->]. split_and!; [|done|done|].
    + rewrite Ec. apply table_add_keeps; [done| |done]. rewrite <- Ec, H3, E0, Ec.
      rewrite Ec in Hrc. rewrite E0 in Hr0. apply (shape_captures insert_error); [done|done|].
      unfold shape_of in *. by rewrite <- Ec, <- E0.
    + intros x Hx. assert (Hx' : x ∈ p_bindings t \/ b_entry x = bd_entry c).
      { unfold table_add in Hx. destruct (existsb _ _); [by left|]. cbn [p_bindings] in Hx.
        rewrite elem_of_app, elem_of_cons in Hx. destruct Hx as [Hx|[->|Hx]]; [left|by right|left].
        - by eapply subseteq_take. - by eapply subseteq_drop. }
      destruct Hx' as [Hx'|Hx'].
      * destruct (H4 x Hx') as (rb & Hrb & ?). exists rb. split; [|done]. rewrite elem_of_cons, elem_of_app.
        apply elem_of_cons in Hrb. tauto.
      * exists c. split; [|done]. rewrite elem_of_cons, elem_of_app. right. right. by left.
Qed.

Lemma decorated_ok (pool : DescriptorPool) (options : TranscodeOptions) (b : RouteBinding) :
  bd_ok b -> bd_ok (decorated pool options b).
Proof. by intros (? & ? & ?). Qed.

(** The tables before the router is asked, each with the group it is of. *)
Lemma tables_of_groups (pool : DescriptorPool) (options : TranscodeOptions) (bindings : list RouteBinding) (tables : list PathTable) :
  Forall bd_ok bindings ->
  let gs := (foldl (group_step (fun b => [b]) (fun bs b => bs ++ [b])) ([], ∅) (decorated pool options <$> bindings)).1 in
  Some <$> tables = collapse new_table add_binding <$> gs ->
  Forall2 (fun t g => table_held t /\ mountable insert_error (p_path t) = Ok tt /\
             (forall b, b ∈ p_bindings t -> exists rb, rb ∈ g /\ b_entry b = bd_entry rb) /\
             exists rb, head g = Some rb /\ p_path t = m_axum (bd_mount rb)) tables gs.
Proof using HL.
  intros Hok gs E. destruct (group_grouped (decorated pool options <$> bindings)) as [Hg Hp]. fold gs in Hg, Hp.
  apply Forall2_same_length_lookup. split; [apply (f_equal length) in E; by rewrite !length_fmap in E|].
  intros i t g Ht Hgi. apply (f_equal (.!! i)) in E. rewrite !list_lookup_fmap, Ht, Hgi in E. cbn in E. injection E as E.
  destruct (gr_group _ _ Hg _ _ Hgi) as [s Hs]. destruct (gr_index _ _ Hg _ _ Hs) as (g' & Hi & _ & HF).
  rewrite Hgi in Hi. injection Hi as <-. apply (collapse_ok s); [|done|done].
  apply Forall_forall. intros b Hb. assert (Hin : b ∈ decorated pool options <$> bindings).
  { rewrite <- Hp. apply list_elem_of_join. exists g. split; [done|]. by eapply list_elem_of_lookup_2. }
  apply list_elem_of_fmap in Hin as (rb & -> & Hin). apply decorated_ok. rewrite Forall_forall in Hok. by apply Hok.
Qed.

Lemma paths_of_tables (tables : list (PathTable (Rpc := Rpc))) :
  (paths_where (fun _ => true) tables).*1 = p_path <$> tables.
Proof.
  induction tables as [|t tables IH] using rev_ind; [done|].
  by rewrite paths_where_snoc, !fmap_app, IH.
Qed.

Lemma mounted_held (pool : DescriptorPool) (aliases : list AliasConfig) (options : TranscodeOptions) :
  let tables := path_tables completed pool aliases options in
  Forall (fun t => table_held t /\ mountable insert_error (p_path t) = Ok tt) tables /\ routes_ok tables.
Proof using HL MLL.
  cbn zeta. destruct (path_tables_groups pool aliases options) as (ts & -> & Hts).
  pose proof (tables_of_groups pool options _ ts (route_bindings_ok pool aliases (op_selection options)) Hts) as HF.
  assert (HF' : Forall (fun t => table_held t /\ mountable insert_error (p_path t) = Ok tt) ts).
  { eapply Forall2_Forall_l; [exact HF|]. apply Forall_forall. intros g _ t (? & ? & _). done. }
  clear HF Hts. rename HF' into HF.
  assert (Hk : Forall (fun t => table_held t /\ mountable insert_error (p_path t) = Ok tt) (retain_mountable p_path ts)).
  { by apply retain_Forall. }
  split; [done|]. split.
  - eapply Forall_impl; [exact Hk|]. intros t [[Ht _] _]. apply (tk_methods _ Ht).
  - eapply Forall_impl; [exact Hk|]. intros t [[Ht _] _]. apply (tk_plain _ Ht).
  - unfold shapes. rewrite paths_of_tables, <- list_fmap_compose. apply retain_patterns.
    eapply Forall_impl; [exact HF|]. by intros t [].
Qed.

(** C10: whatever the descriptors, the aliases and the options, the tables the router mounts are well formed: every
    one keeps the invariant of [PathTable::new] and [PathTable::add] (in particular the bindings of one shape capture
    as many segments, so binding their parameters never leaves the captures), names a capture for every variable of
    its path, and together they are tables the choice among routes is right on, no two of which match the same
    requests. *)
Theorem mounted_ok (pool : DescriptorPool) (aliases : list AliasConfig) (options : TranscodeOptions) :
  let tables := path_tables completed pool aliases options in
  Forall table_ok tables /\ Forall (fun t => length (p_captures t) = braces (p_path t)) tables /\ routes_ok tables.
Proof using HL MLL.
  cbn zeta. destruct (mounted_held pool aliases options) as [HF Hr].
  split_and!; [..|done]; eapply Forall_impl; [exact HF|by intros t [[] _]|exact HF|by intros t [[] _]].
Qed.

(** ** The listings agree with the tables *)

Definition first_path (bindings : list RouteBinding) : text := default [] (m_axum ∘ bd_mount <$> head bindings).

(** The table of the bindings of one shape. *)
Definition table_of (pool : DescriptorPool) (options : TranscodeOptions) (t : PathTable) (bs : list RouteBinding) : Prop :=
  bs <> [] /\ collapse new_table add_binding (decorated pool options <$> bs) = Some t /\
  (forall b, b ∈ p_bindings t -> exists rb, rb ∈ bs /\ e_http_method (b_entry b) = e_http_method (bd_entry rb)).

Lemma tables_listed (pool : DescriptorPool) (aliases : list AliasConfig) (options : TranscodeOptions) :
  Forall2 (fun t bs => table_of pool options t bs /\ p_path t = first_path bs)
    (path_tables completed pool aliases options) (shape_bindings pool aliases (op_selection options)).
Proof using HL.
  destruct (path_tables_groups pool aliases options) as (ts & -> & Hts). unfold shape_bindings, group_by_shape.
  set (bindings := route_bindings pool aliases (op_selection options)) in *.
  apply (retain_Forall2 (table_of pool options) p_path first_path).
  pose proof (tables_of_groups pool options bindings ts (route_bindings_ok _ _ _) Hts) as HF. cbn zeta in HF.
  rewrite group_map in Hts, HF by done. cbn [fst] in Hts, HF.
  destruct (group_grouped bindings) as [Hg _]. set (gs := (foldl (group_step (fun b => [b]) (fun bs b => bs ++ [b])) ([], ∅) bindings).1) in *.
  apply Forall2_fmap_r in HF. apply Forall2_same_length_lookup. split; [by apply Forall2_length in HF|].
  intros i t bs Ht Hbs. pose proof (Forall2_lookup_lr _ _ _ _ _ _ HF Ht Hbs) as (_ & _ & Hb & rb & Hh & Hp).
  apply (f_equal (.!! i)) in Hts. rewrite !list_lookup_fmap, Ht, Hbs in Hts. cbn in Hts. injection Hts as Hts.
  destruct (gr_group _ _ Hg _ _ Hbs) as [s Hs]. destruct (gr_index _ _ Hg _ _ Hs) as (bs' & Hi & Hn & _).
  rewrite Hbs in Hi. injection Hi as <-. split; [split_and!; [done|done|]|].
  - intros b Hin. destruct (Hb b Hin) as (rb' & (rb0 & -> & Hin')%list_elem_of_fmap & ->). by exists rb0.
  - rewrite Hp. unfold first_path. destruct bs as [|b0 bs]; [done|]. cbn in Hh |- *. by injection Hh as <-.
Qed.

Lemma listed_nonnil (bs : list RouteBinding) : bs <> [] -> listed_methods bs <> [].
Proof.
  intros Hn. unfold listed_methods. destruct (existsb _ _); [done|]. destruct bs as [|b bs]; [done|]. cbn [foldl].
  rewrite decide_False by apply not_elem_of_nil. cbn [app].
  assert (H : forall l ms, ms <> [] -> foldl (fun methods (b : RouteBinding) => let method := method_str (e_http_method (bd_entry b)) in
    if decide (method ∈ methods) then methods else methods ++ [method]) ms l <> []).
  { induction l as [|c l IH]; intros ms Hm; cbn; [done|]. apply IH. case_decide; [done|]. by destruct ms. }
  by apply H.
Qed.

Lemma listed_covers (bs : list RouteBinding) (b : RouteBinding) :
  b ∈ bs -> listed_methods bs = [txt "*"] \/ method_str (e_http_method (bd_entry b)) ∈ listed_methods bs.
Proof.
  unfold listed_methods. destruct (existsb _ _); [by left|]. intros Hb. right.
  induction bs as [|c bs IH] using rev_ind; [by apply elem_of_nil in Hb|]. rewrite foldl_app. cbn [foldl].
  apply elem_of_app in Hb as [Hb|Hb%list_elem_of_singleton].
  - specialize (IH Hb). case_decide; [done|]. apply elem_of_app. by left.
  - subst c. case_decide; [done|]. apply elem_of_app. right. by left.
Qed.

(** What the proxy lists is what it mounts. Table by table, the mounted tables are those of the shapes
    [shape_bindings] lists, in order and under the same path; [mounted_shapes] are exactly their shapes;
    [route_paths] names exactly the mounted paths, and for every binding a table serves either [*] or its method. *)
Theorem listings_agree (pool : DescriptorPool) (aliases : list AliasConfig) (options : TranscodeOptions) :
  let tables := path_tables completed pool aliases options in
  let listed := shape_bindings pool aliases (op_selection options) in
  let paths := route_paths pool aliases (op_selection options) in
  Forall2 (fun t bs => table_of pool options t bs /\ p_path t = first_path bs) tables listed /\
  mounted_shapes pool aliases (op_selection options) = list_to_set (shape_of <$> omap head listed) /\
  (forall path, path ∈ p_path <$> tables <-> exists method, (method, path) ∈ paths) /\
  (forall t b, t ∈ tables -> b ∈ p_bindings t ->
     (txt "*", p_path t) ∈ paths \/ (method_str (e_http_method (b_entry b)), p_path t) ∈ paths).
Proof using HL.
  cbn zeta. pose proof (tables_listed pool aliases options) as HF. split; [done|]. split_and!.
  - unfold mounted_shapes, shape_bindings, group_by_shape. f_equal.
    set (bindings := route_bindings pool aliases (op_selection options)).
    pose proof (first_mounts_heads bindings) as Hm.
    assert (HR : Forall2 (fun (m : MountedPath) (g : list RouteBinding) => bd_mount <$> head g = Some m /\ m_axum m = first_path g)
      (first_mounts ∅ bindings) (foldl (group_step (fun b => [b]) (fun bs b => bs ++ [b])) ([], ∅) bindings).1).
    { eapply Forall2_impl; [exact Hm|]. intros m g Hg. split; [done|]. unfold first_path. by destruct g; simplify_eq/=. }
    apply retain_Forall2 in HR. fold first_path. induction HR as [|m g ms gs [Hg _] _ IH]; [done|].
    destruct g as [|b g]; [done|]. cbn in Hg |- *. injection Hg as <-. f_equal. exact IH.
  - intros path. unfold route_paths. rewrite list_elem_of_fmap. split.
    + intros (t & -> & Ht). apply list_elem_of_lookup in Ht as [i Ht].
      destruct (Forall2_lookup_l _ _ _ _ _ HF Ht) as (bs & Hbs & (Hn & _) & ->).
      destruct (listed_methods bs) as [|m ms] eqn:El; [by apply listed_nonnil in El|]. exists m.
      apply list_elem_of_join. exists (shape_paths bs). split.
      * unfold shape_paths. rewrite El. by left.
      * apply list_elem_of_fmap. exists bs. split; [done|]. by eapply list_elem_of_lookup_2.
    + intros (m & (l & Hin & (bs & -> & Hbs)%list_elem_of_fmap)%list_elem_of_join).
      apply list_elem_of_fmap in Hin as (m' & [= <- ->] & _). apply list_elem_of_lookup in Hbs as [i Hbs].
      destruct (Forall2_lookup_r _ _ _ _ _ HF Hbs) as (t & Ht & _ & E). exists t. split; [by rewrite E|].
      by eapply list_elem_of_lookup_2.
  - intros t b Ht Hb. apply list_elem_of_lookup in Ht as [i Ht].
    destruct (Forall2_lookup_l _ _ _ _ _ HF Ht) as (bs & Hbs & (Hn & _ & Hbind) & E).
    destruct (Hbind b Hb) as (rb & Hrb & ->).
    assert (Hin : forall m, m ∈ listed_methods bs -> (m, p_path t) ∈ route_paths pool aliases (op_selection options)).
    { intros m Hm. apply list_elem_of_join. exists (shape_paths bs). split.
      - apply list_elem_of_fmap. exists m. rewrite E. split; [done|]. apply elem_of_app. by left.
      - apply list_elem_of_fmap. exists bs. split; [done|]. by eapply list_elem_of_lookup_2. }
    destruct (listed_covers bs rb Hrb) as [El|Hm]; [left|right; by apply Hin]. apply Hin. rewrite El. by left.
Qed.
End Mounted.

(** ** A model of the router *)

Module Matchit.
Definition insert (r : list text) (p : text) : list text * option text :=
  if existsb (fun q => bool_decide (pattern_of p = pattern_of q)) r then (r, Some (txt "conflict")) else (r ++ [p], None).

#[export] Instance router : MatchitLib := {|
  Router := list text; router_new := []; router_insert := insert; router_paths r := r;
|}.

#[export] Instance router_laws : MatchitLaws router.
Proof.
  split; cbn; unfold insert.
  - done.
  - intros r p r'. by destruct (existsb _ r); intros [= <-].
  - intros r p r' e. by destruct (existsb _ r); intros [= <- _].
  - intros r p q Hq _ _ E. destruct (existsb _ r) eqn:Ex; [done|]. intros _.
    apply existsb_false_Forall in Ex. rewrite Forall_forall in Ex. specialize (Ex q Hq). by rewrite bool_decide_eq_true_2 in Ex.
Qed.
End Matchit.

(** ** Witnesses *)

Module Demo.
Import Http.Model PercentModel Matchit.

(** Rules: their string fields, their [custom] pattern and their additional bindings. *)
Inductive Msg := Rule (strings : list (text * text)) (custom : option Msg) (more : list Msg).

Definition get (m : Msg) (f : text) : PValue_ Msg :=
  let 'Rule strings custom more := m in
  if decide (f = txt "custom") then match custom with Some c => PMessage c | None => PBool false end
  else if decide (f = txt "additional_bindings") then PList (PMessage <$> more)
  else PString (default [] (assoc f strings)).

#[local] Instance prost : ProstLib := {|
  MessageDescriptor := text;
  FieldDescriptor := text;
  EnumDescriptor := unit;
  DynamicMessage := Msg;
  md_full_name d := d;
  md_fields _ := [];
  md_extensions _ := [];
  md_field_by_name _ n := Some n;
  md_field_by_json_name _ n := Some n;
  fd_name f := f; fd_full_name f := f; fd_json_name f := f; fd_number _ := 1; fd_kind _ := KString;
  fd_is_list _ := false; fd_is_map _ := false; fd_required _ := false; fd_oneof _ := None;
  ed_value_by_name _ _ := None;
  dm_new _ := Rule [] None [];
  dm_descriptor _ := txt "google.api.HttpRule";
  dm_has _ _ := true;
  dm_get := get;
  dm_set m _ _ := m;
  dm_take m f := (Some (get m f), m);
  dm_fields _ := [];
  dm_extensions _ := [];
  dm_depth _ := O;
|}.

Inductive Method := GetOrder | CancelOrder | AnyOrder | ListOrders.

Definition rule (verb path : string) (more : list Msg) : Msg := Rule [(txt verb, txt path); (txt "body", txt "*")] None more.

Definition options_of (m : Method) : Msg :=
  match m with
  | GetOrder => rule "get" "/v1/orders/{id}" [rule "get" "/v1/orders/{order_id}" []]
  | CancelOrder => rule "post" "/v1/{name=orders/*}:cancel" []
  | AnyOrder => Rule [] (Some (Rule [(txt "kind", txt "*"); (txt "path", txt "/v1/orders/{any}")] None [])) []
  | ListOrders => rule "get" "/v1/orders" []
  end.

Definition method_name (m : Method) : text :=
  match m with
  | GetOrder => txt "GetOrder" | CancelOrder => txt "CancelOrder" | AnyOrder => txt "AnyOrder" | ListOrders => txt "ListOrders"
  end.

#[local] Instance services : ServiceLib := {|
  DescriptorPool := unit;
  ServiceDescriptor := unit;
  MethodDescriptor := Method;
  ExtensionDescriptor := unit;
  pool_services _ := [tt];
  pool_service_by_name _ _ := Some tt;
  pool_extension_by_name _ _ := Some tt;
  pool_message_by_name _ _ := None;
  pool_all_messages _ := [];
  sd_full_name _ := txt "acme.v1.Orders";
  sd_methods _ := [GetOrder; CancelOrder; AnyOrder; ListOrders];
  mt_name := method_name;
  mt_parent _ := tt;
  mt_input _ := txt "acme.v1.Order";
  mt_output _ := txt "acme.v1.Order";
  mt_client_streaming _ := false;
  mt_server_streaming _ := false;
  mt_options := options_of;
  dm_has_extension _ _ := true;
  dm_get_extension m _ := PMessage m;
|}.

#[local] Instance uri : UriLib := {| path_and_query s := Some s |}.
#[local] Instance globs : GlobLib := {| Glob := text; glob_build p := Ok p; glob_match g p := bool_decide (g = p) |}.

Definition aliases : list AliasConfig := [mkAlias (txt "/api/{path}") (txt "/v1")].
Definition tables : list (PathTable (Rpc := Rpc)) := path_tables id tt aliases transcode_options_default.

(** The alias is mounted first, the second names of a shape share its table, and the
    [*] rule for a path taken is left out. *)
Example tables_built :
  (fun t => (p_path t, (fun b => (method_str (e_http_method (b_entry b)), v_raw <$> b_verb b)) <$> p_bindings t)) <$> tables =
  [(txt "/api/orders/{id}", [(txt "GET", None)]); (txt "/v1/orders/{id}", [(txt "GET", None)]);
   (txt "/api/{*name}", [(txt "POST", Some (txt ":cancel"))]); (txt "/v1/{*name}", [(txt "POST", Some (txt ":cancel"))]);
   (txt "/api/orders", [(txt "GET", None)]); (txt "/v1/orders", [(txt "GET", None)])].
Proof. vm_compute. reflexivity. Qed.

(** [bound_methods] still answers that a rule for every method is bound. *)
Example refused_rule_counted :
  bm_every (bound_methods tt aliases (mkSelection [])) = true /\
  Forall (fun t => Forall (fun b => e_http_method (b_entry b) <> Any) (p_bindings t)) tables.
Proof. split; [vm_compute; reflexivity|]. apply (bool_decide_eq_true_1 _). vm_compute. reflexivity. Qed.

Lemma mounted_ok_witness : length tables = 6%nat /\ Forall table_ok tables /\
  Forall (fun t => length (p_captures t) = braces (p_path t)) tables /\ routes_ok tables.
Proof. split; [vm_compute; reflexivity|]. exact (mounted_ok id tt aliases transcode_options_default). Defined.

Lemma listings_agree_witness :
  length (route_paths tt aliases (mkSelection [])) = 10%nat /\ forall path, path ∈ p_path <$> tables <-> exists method, (method, path) ∈ route_paths tt aliases (mkSelection []).
Proof.
  split; [vm_compute; reflexivity|].
  exact (proj1 (proj2 (proj2 (listings_agree id tt aliases transcode_options_default)))).
Defined.
End Demo.
