(* ===== verification/Answer.v ===== *)
(** * Answers of transcoded calls ([src/transcode/mod.rs])

    What becomes of the upstream's answer: the unary response, the error response,
    and the streams, NDJSON, SSE or the raw bytes of HttpBody messages. Writing
    messages as ProtoJSON is the protobuf runtime's, SSE framing is [axum]'s. *)

From S2P Require Import Prelude Rust Json Http Protobuf Presence Request Path Table Status Response Rule HttpBody Codec Details BuildRequest Mount.

Class ResponseLib {P : ProstLib} : Type := {
  (** [serialize_with_options] with the response options, as text and as a value. *)
  dm_to_text : DynamicMessage -> result text text;
  dm_to_value : DynamicMessage -> result Value text;
  (** [serde_json]'s compact writing of a value. *)
  value_to_text : Value -> text;
  (** [HeaderValue::from_str]. *)
  header_value : text -> option text;
  (** What [axum] writes of an event. *)
  sse_event : option text -> text -> text;
}.

Definition APPLICATION_JSON : text := txt "application/json".
Definition NDJSON : text := txt "application/x-ndjson".
Definition EVENT_STREAM : text := txt "text/event-stream".
Definition STATUS_TYPE_URL : text := txt "type.googleapis.com/google.rpc.Status".
Definition NEWLINE : ascii := ascii_of_nat 10.

Section Data.
Context {HT : HttpLib} {P : ProstLib} {SL : ServiceLib}.

(** [tonic::Streaming]: what [message] answers turn by turn ([None] is its end), and
    what [trailers] answers after the first message. *)
Record Streaming := mkStreaming {
  sm_items : list (result DynamicMessage TStatus);
  sm_trailers : result (option HeaderMap) TStatus;
}.

(** How the upstream takes a call. *)
Inductive Upstream :=
| NotReady (error : text)
| Refused (status : TStatus)
| Accepted (initial : HeaderMap) (stream : Streaming)
| TimedOut.

Record UnaryAnswer := mkUnary { ua_initial : HeaderMap; ua_message : DynamicMessage; ua_trailers : option HeaderMap }.

(** [StreamFrame]. *)
Inductive StreamFrame :=
| FData (s : text)
| FError (body : Value).
End Data.

Section Answer.
Context {HT : HttpLib} {P : ProstLib} {SL : ServiceLib} {D : DetailLib} {RL : ResponseLib}.
(** The headers [axum] gives a JSON body and an event stream. *)
Context (json_headers sse_headers : HeaderMap).

Definition new_status (code : Code) (message : text) : TStatus := mkStatus code message [] hm_empty.

(** ** Calls *)

(** [Call::open]. *)
Definition call_open (u : Upstream) : result (HeaderMap * Streaming) TStatus :=
  match u with
  | NotReady e => Err (new_status CUnavailable (txt "gRPC upstream not ready: " ++ e))
  | Refused status => Err status
  | Accepted initial stream => Ok (initial, stream)
  | TimedOut => Err (new_status CDeadlineExceeded (txt "upstream did not answer within the deadline"))
  end.

(** One header of the failure after the initial metadata; the name of the values that
    follow it. *)
Definition merge_item (s : HeaderMap * option text) (item : option text * text) : HeaderMap * option text :=
  let '(merged, last) := s in
  match item.1 with
  | Some name => (hm_append merged name item.2, Some name)
  | None => (match last with Some name => hm_append merged name item.2 | None => merged end, last)
  end.

Definition with_initial (status : TStatus) (initial : HeaderMap) : TStatus :=
  mkStatus (st_code status) (st_message status) (st_details status)
    (foldl merge_item (initial, None) (into_iter (st_metadata status))).1.

Definition call_unary (u : Upstream) : result UnaryAnswer TStatus :=
  let? opened := call_open u in
  let '(initial, stream) := opened in
  match sm_items stream with
  | [] => Err (with_initial (new_status CInternal (txt "Missing response message.")) initial)
  | Err status :: _ => Err (with_initial status initial)
  | Ok message :: _ =>
      match sm_trailers stream with
      | Err status => Err (with_initial status initial)
      | Ok trailers => Ok (mkUnary initial message trailers)
      end
  end.

(** ** Errors *)

(** [render_response] of [error.rs]. *)
Definition status_response (status : TStatus) (details : option StatusDetails) : option (Response * bool) :=
  let! r := status_render status details in
  let '(code, v, faithful) := r in
  Some (json_response json_headers (grpc_to_http_status code) v, faithful).

(** [status_to_response_with_details]. *)
Definition status_to_response (status : TStatus) (details : option StatusDetails) : option Response :=
  fst <$> status_response status details.

Definition route_malformed (r : Rpc) : Response := malformed_response json_headers (bool_decide (is_Some (rp_error_details r))).

Definition upstream_error (status : TStatus) (r : Rpc) : option Response :=
  let! rendered := status_response status (rp_error_details r) in
  let '(response, faithful) := rendered in
  let metadata := st_metadata status in
  if negb faithful || hm_is_empty metadata then Some response
  else Some (with_upstream_headers response (up_headers (absorb upstream_default metadata (rp_denied_headers r)))).

(** ** Unary answers *)

(** The walk of [json_body] down the tree, each segment resolved by the descriptor. *)
Fixpoint walk_body (value : option Value) (desc : option MessageDescriptor) (segments : list text) : option Value :=
  match segments with
  | [] => value
  | segment :: segments =>
      let field := let! d := desc in md_field_by_name d segment in
      let value := match value, field with
                   | Some (Object fields), Some field => assoc (fd_json_name field) fields
                   | _, _ => None
                   end in
      walk_body value (let! field := field in kind_message (fd_kind field)) segments
  end.

Definition json_body (msg : DynamicMessage) (response_body : option text) : result text text :=
  match response_body with
  | None => dm_to_text msg
  | Some path =>
      let? value := dm_to_value msg in
      Ok (value_to_text (default Null (walk_body (Some value) (Some (dm_descriptor msg)) (split (ch ".") path))))
  end.

(** The error is [()]. *)
Definition content_type_header (content_type : text) : result (option text) unit :=
  match content_type with
  | [] => Ok None
  | _ => match header_value content_type with Some v => Ok (Some v) | None => Err tt end
  end.

Definition unary_success (r : Rpc) (answer : UnaryAnswer) : option Response :=
  let upstream := absorb upstream_default (ua_initial answer) (rp_denied_headers r) in
  let upstream := match ua_trailers answer with
                  | Some trailers => absorb upstream trailers (rp_denied_headers r)
                  | None => upstream
                  end in
  match upstream_status upstream with
  | Err _ => Some (route_malformed r)
  | Ok status =>
      let status := default 200 status in
      match rp_response r with
      | RHttpBody path =>
          let raw := take_raw (ua_message answer) path in
          match content_type_header (raw_content_type raw) with
          | Ok content_type => Some (build_response status (up_headers upstream) content_type (BBytes (raw_data raw)))
          | Err _ => Some (route_malformed r)
          end
      | RJson response_body =>
          match json_body (ua_message answer) response_body with
          | Ok json => Some (build_response status (up_headers upstream) (Some APPLICATION_JSON) (BBytes json))
          | Err _ => status_to_response (new_status CInternal (txt "failed to serialize response")) (rp_error_details r)
          end
      end
  end.

(** [unary_call]. *)
Definition unary_call (u : Upstream) (r : Rpc) : option Response :=
  match call_unary u with
  | Ok answer => unary_success r answer
  | Err status => upstream_error status r
  end.

(** ** Streams *)

(** [json_frames]: the frames of a stream, up to the end or the first error, after
    which nothing of the stream is read. *)
Section Frames.
Context (render_error : TStatus -> option Value).

Fixpoint json_frames (items : list (result DynamicMessage TStatus)) : option (list StreamFrame) :=
  match items with
  | [] => Some []
  | Ok msg :: items =>
      match dm_to_text msg with
      | Ok s => let! frames := json_frames items in Some (FData s :: frames)
      | Err e => let! v := render_error (new_status CInternal (txt "serialization error: " ++ e)) in Some [FError v]
      end
  | Err status :: _ => let! v := render_error status in Some [FError v]
  end.
End Frames.

Definition QUOTE : ascii := ascii_of_nat 34.
Definition RESULT_OPEN : text := txt "{" ++ [QUOTE] ++ txt "result" ++ [QUOTE] ++ txt ":".

Definition ndjson_line (envelope : bool) (frame : StreamFrame) : text :=
  match frame with
  | FData s => if envelope then RESULT_OPEN ++ s ++ txt "}" else s
  | FError v =>
      if envelope then value_to_text (Object [(txt "error", v)])
      else value_to_text (match v with Object fields => Object (map_put AT_TYPE (Str STATUS_TYPE_URL) fields) | v => v end)
  end ++ [NEWLINE].

Definition ndjson_response (frames : list StreamFrame) (envelope : bool) : Response :=
  mkResponse 200 (hm_insert hm_empty CONTENT_TYPE NDJSON) (BStream (Some ∘ ndjson_line envelope <$> frames)) None.

Definition event_of (frame : StreamFrame) : option text * text :=
  match frame with
  | FData s => (None, s)
  | FError v => (Some (txt "stream-error"), value_to_text v)
  end.

(** Without the comments [axum] keeps an idle stream alive with. *)
Definition sse_response (frames : list StreamFrame) : Response :=
  mkResponse 200 sse_headers (BStream ((fun frame => Some (sse_event (event_of frame).1 (event_of frame).2)) <$> frames)) None.

Definition raw_body (r : Rpc) (message : DynamicMessage) : option RawBody :=
  match rp_response r with RHttpBody path => Some (take_raw message path) | RJson _ => None end.

(** The chunks of the messages after the first, [None] an error. *)
Definition raw_chunk (r : Rpc) (item : result DynamicMessage TStatus) : option text :=
  match item with Ok message => Some (raw_data (default raw_default (raw_body r message))) | Err _ => None end.

Definition http_body_stream (items : list (result DynamicMessage TStatus)) (r : Rpc) (initial : HeaderMap) : option Response :=
  let started first items :=
    let headers := up_headers (absorb upstream_default initial (rp_denied_headers r)) in
    match content_type_header (raw_content_type first) with
    | Err _ => Some (route_malformed r)
    | Ok content_type =>
        let chunks := Some (raw_data first) :: (raw_chunk r <$> items) in
        Some (build_response 200 headers content_type (BStream (filter (fun chunk => chunk <> Some []) chunks)))
    end in
  match items with
  | [] => started raw_default []
  | Ok message :: items => started (default raw_default (raw_body r message)) items
  | Err status :: _ => upstream_error (with_initial status initial) r
  end.

Definition streaming_call (u : Upstream) (r : Rpc) (use_sse : bool) : option Response :=
  match call_open u with
  | Err status => upstream_error status r
  | Ok (initial, stream) =>
      match rp_response r with
      | RHttpBody _ => http_body_stream (sm_items stream) r initial
      | RJson _ =>
          let headers := up_headers (absorb upstream_default initial (rp_denied_headers r)) in
          let! frames := json_frames (fun status => error_body status (rp_error_details r)) (sm_items stream) in
          let response := if use_sse then sse_response frames else ndjson_response frames (rp_ndjson_envelope r) in
          Some (with_upstream_headers response headers)
      end
  end.

(** The call a route makes, answered ([serve_begun] on a call). *)
Definition answer_call (u : Upstream) (r : Rpc) (use_sse : bool) : option Response :=
  if rp_streaming r then streaming_call u r use_sse else unary_call u r.
End Answer.
Arguments with_initial : simpl never.

(** * Laws *)

(** [serde_json] escapes control characters, so what it writes is one line. *)
Class ResponseLaws {P : ProstLib} (RL : ResponseLib) : Prop := {
  text_one_line m s : dm_to_text m = Ok s -> NEWLINE ∉ s;
  value_one_line v : NEWLINE ∉ value_to_text v;
}.

Section Laws.
Context {HT : HttpLib} {HL : HttpLaws HT} {P : ProstLib} {SL : ServiceLib} {D : DetailLib} {DL : DetailLaws D} {RL : ResponseLib}.
Context (json_headers sse_headers : HeaderMap).

Lemma render_total (status : TStatus) (details : option StatusDetails) :
  exists code v faithful, status_render status details = Some (code, v, faithful) /\
    if faithful then code = st_code status else code = CInternal.
Proof using DL.
  unfold status_render. destruct details as [d|]; [|by eexists _, _, _].
  assert (H : exists r, details_render d status = Some r).
  { unfold details_render. destruct (st_details status) as [|c raw]; [by eexists|].
    destruct (status_decode (c :: raw)) as [decoded|]; [|by eexists]. destruct (negb _ || negb _); [by eexists|].
    destruct (render_details_ok d (ps_details decoded) 0 no_details ltac:(constructor) ltac:(constructor)) as (r & -> & _).
    by eexists. }
  destruct H as [[rendered|[]] ->]; by eexists _, _, _.
Qed.

Lemma merge_key (s : HeaderMap * option text) (name : text) (vs : list text) (n : text) :
  hm_get_all (foldl merge_item s (key_items name vs)).1 n = hm_get_all s.1 n ++ if decide (name = n) then vs else [].
Proof using HL.
  destruct s as [h last], vs as [|v vs]; cbn [key_items foldl].
  { case_decide; by rewrite app_nil_r. }
  cbn [merge_item fst snd].
  assert (H : forall h', (foldl merge_item (h', Some name) (pair None <$> vs)).1 = foldl (fun h v => hm_append h name v) h' vs).
  { induction vs as [|w vs IH]; intros h'; [done|]. cbn. apply IH. }
  rewrite H, append_all_lookup, get_all_append. cbn [fst].
  case_decide; [|done]. by rewrite <- app_assoc.
Qed.

(** A failure after the response headers carries their metadata first, then its own. *)
Lemma with_initial_ok (status : TStatus) (initial : HeaderMap) (n : text) :
  hm_get_all (st_metadata (with_initial status initial)) n = hm_get_all initial n ++ hm_get_all (st_metadata status) n.
Proof using HL.
  unfold with_initial, into_iter. cbn [st_metadata]. rewrite foldl_items, <- (assoc_entries (st_metadata status) n).
  assert (H : forall es s, NoDup es.*1 ->
    hm_get_all (foldl (fun s kv => foldl merge_item s (key_items kv.1 kv.2)) s es).1 n = hm_get_all s.1 n ++ default [] (assoc n es)).
  { induction es as [|[k vs] es IH]; intros s Hd; cbn [foldl assoc fst snd]; [cbn; by rewrite app_nil_r|].
    inversion Hd as [|? ? Hk Hd']; subst. rewrite IH, merge_key by done.
    destruct (decide (k = n)) as [->|]; [|by rewrite app_nil_r]. rewrite (assoc_not_in n es) by done. cbn. by rewrite app_nil_r. }
  apply H. apply entries_nodup.
Qed.

Lemma with_initial_same (status : TStatus) (initial : HeaderMap) :
  st_code (with_initial status initial) = st_code status /\ st_message (with_initial status initial) = st_message status /\
  st_details (with_initial status initial) = st_details status.
Proof. done. Qed.

(** What the upstream says under a name, over the whole of a unary call. *)
Definition upstream_values (u : Upstream) (n : text) : list text :=
  match u with
  | NotReady _ | TimedOut => []
  | Refused status => hm_get_all (st_metadata status) n
  | Accepted initial stream =>
      hm_get_all initial n ++
      match sm_items stream with
      | [] => []
      | Err status :: _ => hm_get_all (st_metadata status) n
      | Ok _ :: _ =>
          match sm_trailers stream with
          | Ok trailers => match trailers with Some t => hm_get_all t n | None => [] end
          | Err status => hm_get_all (st_metadata status) n
          end
      end
  end.

Lemma call_unary_values (u : Upstream) :
  match call_unary u with
  | Ok a => forall n, upstream_values u n =
              hm_get_all (ua_initial a) n ++ match ua_trailers a with Some t => hm_get_all t n | None => [] end
  | Err status => forall n, hm_get_all (st_metadata status) n = upstream_values u n
  end.
Proof using HL.
  destruct u as [e|status|initial stream|]; cbn; try (intros n; by rewrite get_all_empty); [done|].
  destruct (sm_items stream) as [|[m|status] items]; cbn.
  - intros n. rewrite with_initial_ok. cbn. by rewrite get_all_empty.
  - destruct (sm_trailers stream) as [t|status]; [done|]. intros n. apply with_initial_ok.
  - intros n. apply with_initial_ok.
Qed.

(** ** Unary answers *)

(** The content a successful answer has: its type and bytes, [None] when it has no
    HTTP form. *)
Definition unary_content (r : Rpc) (message : DynamicMessage) : option (option text * text) :=
  match rp_response r with
  | RHttpBody path =>
      let raw := take_raw message path in
      match content_type_header (raw_content_type raw) with
      | Ok content_type => Some (content_type, raw_data raw)
      | Err _ => None
      end
  | RJson response_body =>
      match json_body message response_body with Ok json => Some (Some APPLICATION_JSON, json) | Err _ => None end
  end.

Definition bodiless (status : Z) : bool := bool_decide (status ∈ [204; 205; 304]).

(** The values of a header of the answer: the proxy's own, else what the upstream
    says under a name that is forwarded. *)
Definition carried (u : Upstream) (r : Rpc) (n : text) (own : list text) : list text :=
  match own with
  | [] => if forwards (rp_denied_headers r) n then upstream_values u n else []
  | own => own
  end.

Definition answered (u : Upstream) (r : Rpc) (response : Response) : Prop :=
  match call_unary u with
  | Ok a =>
      match status_of (upstream_values u HTTP_CODE_KEY), unary_content r (ua_message a) with
      | Ok status, Some (content_type, b) =>
          let s := default 200 status in
          rs_status response = s /\ rs_body response = BBytes (if bodiless s then [] else b) /\
          forall n, hm_get_all (rs_headers response) n =
            carried u r n (if bodiless s then [] else if decide (n = CONTENT_TYPE) then option_list content_type else [])
      | _, _ => rs_status response = 500 /\ rs_headers response = json_headers
      end
  | Err status =>
      match status_render status (rp_error_details r) with
      | Some (code, v, true) =>
          rs_status response = grpc_to_http_status code /\ rs_body response = BJson v /\
          forall n, hm_get_all (rs_headers response) n = carried u r n (hm_get_all json_headers n)
      | Some (_, v, false) => rs_status response = 500 /\ rs_body response = BJson v /\ rs_headers response = json_headers
      | None => False
      end
  end.

Lemma content_type_kept (deny : list text) : forwards deny CONTENT_TYPE = false.
Proof. unfold forwards. by rewrite andb_false_r. Qed.

Lemma bodiless_test (status : Z) : (status =? 204) || (status =? 205) || (status =? 304) = bodiless status.
Proof.
  unfold bodiless. apply eq_true_iff_eq. rewrite bool_decide_eq_true, !orb_true_iff, !Z.eqb_eq, !elem_of_cons, elem_of_nil. tauto.
Qed.

Lemma unary_success_ok (u : Upstream) (r : Rpc) (a : UnaryAnswer) :
  call_unary u = Ok a -> exists response, unary_success json_headers r a = Some response /\ answered u r response.
Proof using HL DL.
  intros Ha. pose proof (call_unary_values u) as Hv. rewrite Ha in Hv. unfold answered. rewrite Ha.
  unfold unary_success. set (deny := rp_denied_headers r).
  set (up := match ua_trailers a with Some _ => _ | None => _ end).
  assert (Hup : (forall n, hm_get_all (up_headers up) n = if forwards deny n then upstream_values u n else []) /\
                upstream_status up = status_of (upstream_values u HTTP_CODE_KEY)).
  { rewrite Hv. unfold up. destruct (absorb_ok upstream_default (ua_initial a) deny) as [H1 H2].
    destruct (ua_trailers a) as [t|]; [destruct (absorb_ok (absorb upstream_default (ua_initial a) deny) t deny) as [H3 H4]|].
    - split; [|apply recorded_status; by rewrite H4, H2, foldl_app]. intros n. rewrite H3, H1, Hv. cbn [up_headers upstream_default].
      rewrite get_all_empty. by destruct (forwards deny n).
    - split; [|apply recorded_status; by rewrite app_nil_r]. intros n. rewrite H1, Hv, app_nil_r.
      cbn [up_headers upstream_default]. by rewrite get_all_empty. }
  clearbody up. destruct Hup as [Hh Hs]. rewrite Hs. unfold unary_content.
  destruct (status_of _) as [status|]; [|by eexists].
  assert (Hb : forall content_type b, exists response,
    Some (build_response (default 200 status) (up_headers up) content_type (BBytes b)) = Some response /\
    let s := default 200 status in
    rs_status response = s /\ rs_body response = BBytes (if bodiless s then [] else b) /\
    forall n, hm_get_all (rs_headers response) n =
      carried u r n (if bodiless s then [] else if decide (n = CONTENT_TYPE) then option_list content_type else [])).
  { intros content_type b. eexists. split; [done|]. cbn zeta. split; [done|]. split.
    - cbn. rewrite bodiless_test. by destruct (bodiless _).
    - intros n. rewrite build_response_headers. fold (bodiless (default 200 status)). rewrite Hh. unfold carried. fold deny.
      destruct content_type as [ct|]; cbn [option_list]; destruct (bodiless _); try done; by case_decide. }
  destruct (rp_response r) as [response_body|path].
  - destruct (json_body _ _) as [json|e]; [apply Hb|].
    unfold status_to_response, status_response.
    destruct (render_total (new_status CInternal (txt "failed to serialize response")) (rp_error_details r)) as (code & v & ok & -> & Hok).
    eexists. split; [done|]. cbn. split; [|done]. destruct ok; by subst code.
  - destruct (content_type_header _) as [content_type|]; [apply Hb|by eexists].
Qed.

(** What the answer to a failure carries. *)
Lemma upstream_error_ok (u : Upstream) (status : TStatus) (r : Rpc) :
  (forall n, hm_get_all (st_metadata status) n = upstream_values u n) ->
  exists response, upstream_error json_headers status r = Some response /\
    match status_render status (rp_error_details r) with
    | Some (code, v, true) =>
        rs_status response = grpc_to_http_status code /\ rs_body response = BJson v /\
        forall n, hm_get_all (rs_headers response) n = carried u r n (hm_get_all json_headers n)
    | Some (_, v, false) => rs_status response = 500 /\ rs_body response = BJson v /\ rs_headers response = json_headers
    | None => False
    end.
Proof using HL DL.
  intros Hv. unfold upstream_error, status_response.
  destruct (render_total status (rp_error_details r)) as (code & v & ok & -> & Hok). cbn [mbind option_bind].
  destruct ok; cbn [negb orb]; [|eexists; split; [done|]; by subst code].
  set (response := json_response json_headers (grpc_to_http_status code) v).
  assert (H : forall up, (forall n, hm_get_all up n = if forwards (rp_denied_headers r) n then upstream_values u n else []) ->
    forall n, hm_get_all (rs_headers (with_upstream_headers response up)) n = carried u r n (hm_get_all json_headers n)).
  { intros up Hup n. destruct (with_upstream_ok response up) as (_ & _ & ->). cbn [response json_response rs_headers].
    unfold carried. rewrite Hup. by destruct (hm_get_all json_headers n). }
  destruct (hm_is_empty (st_metadata status)) eqn:Ee; eexists; (split; [done|]).
  - split_and!; [done..|]. intros n. cbn [response json_response rs_headers]. unfold carried.
    destruct (hm_get_all json_headers n); [|done]. rewrite <- Hv, (is_empty_get _ Ee). by destruct (forwards _ _).
  - set (up := up_headers (absorb upstream_default (st_metadata status) (rp_denied_headers r))).
    destruct (with_upstream_ok response up) as (-> & -> & _). split_and!; [done..|]. apply H. intros n. unfold up.
    destruct (absorb_ok upstream_default (st_metadata status) (rp_denied_headers r)) as [-> _].
    cbn [up_headers upstream_default]. rewrite get_all_empty, Hv. by destruct (forwards _ _).
Qed.

Lemma unary_call_ok (u : Upstream) (r : Rpc) :
  exists response, unary_call json_headers u r = Some response /\ answered u r response.
Proof using HL DL.
  unfold unary_call. destruct (call_unary u) as [a|status] eqn:Ea; [by apply unary_success_ok|].
  pose proof (call_unary_values u) as Hv. rewrite Ea in Hv. unfold answered. rewrite Ea. by apply upstream_error_ok.
Qed.


(** ** Streams *)

(** The bytes a reader gets of a streamed body, and whether it gets to the end. *)
Fixpoint read_body (chunks : list (option text)) : text * bool :=
  match chunks with
  | [] => ([], true)
  | Some chunk :: chunks => let '(b, whole) := read_body chunks in (chunk ++ b, whole)
  | None :: _ => ([], false)
  end.

(** What ends a stream after its messages, and the status that tells the client. *)
Inductive stream_end : list (result DynamicMessage TStatus) -> option TStatus -> Prop :=
| EndDone : stream_end [] None
| EndFailed status rest : stream_end (Err status :: rest) (Some status)
| EndUnwritable msg e rest : dm_to_text msg = Err e ->
    stream_end (Ok msg :: rest) (Some (new_status CInternal (txt "serialization error: " ++ e))).

(** The lines of an NDJSON body: one per message, and the last the error. *)
Definition data_line (envelope : bool) (s : text) : text := if envelope then RESULT_OPEN ++ s ++ txt "}" else s.
Definition error_line (envelope : bool) (v : Value) : text :=
  if envelope then value_to_text (Object [(txt "error", v)])
  else value_to_text (match v with Object fields => Object (map_put AT_TYPE (Str STATUS_TYPE_URL) fields) | v => v end).

Lemma ndjson_lines (envelope : bool) (frame : StreamFrame) :
  ndjson_line envelope frame =
  match frame with FData s => data_line envelope s | FError v => error_line envelope v end ++ [NEWLINE].
Proof. by destruct frame, envelope. Qed.

Lemma read_lines (lines : list text) :
  Forall (fun line => NEWLINE ∉ line) lines ->
  let '(b, whole) := read_body ((fun line => Some (line ++ [NEWLINE])) <$> lines) in
  whole = true /\ split NEWLINE b = lines ++ [[]].
Proof.
  induction 1 as [|line lines Hl _ IH]; [done|]. cbn [fmap list_fmap read_body].
  destruct (read_body _) as [b whole]. destruct IH as [-> IH]. split; [done|].
  rewrite <- app_assoc. change ([NEWLINE] ++ b) with (NEWLINE :: b). by rewrite split_cons_sep, IH.
Qed.

Context {RLL : ResponseLaws RL}.

Lemma data_line_one (envelope : bool) (msg : DynamicMessage) (s : text) :
  dm_to_text msg = Ok s -> NEWLINE ∉ data_line envelope s.
Proof using RLL.
  intros Hs%text_one_line. unfold data_line. destruct envelope; [|done]. rewrite !not_elem_of_app. split_and!; [|done|].
  - apply (bool_decide_eq_true_1 (NEWLINE ∉ RESULT_OPEN)). vm_compute. reflexivity.
  - apply (bool_decide_eq_true_1 (NEWLINE ∉ txt "}")). vm_compute. reflexivity.
Qed.

Lemma frames_ok (render_error : TStatus -> option Value) (msgs : list DynamicMessage) (texts : list text)
    (tail : list (result DynamicMessage TStatus)) (ending : option TStatus) :
  (forall status, is_Some (render_error status)) ->
  Forall2 (fun msg s => dm_to_text msg = Ok s) msgs texts -> stream_end tail ending ->
  exists last, json_frames render_error ((Ok <$> msgs) ++ tail) = Some ((FData <$> texts) ++ last) /\
    match ending with None => last = [] | Some status => exists v, render_error status = Some v /\ last = [FError v] end.
Proof.
  intros Hr HF He. induction HF as [|msg s msgs texts Hs _ (last & IH & Hl)]; cbn [fmap list_fmap app json_frames].
  - inversion He as [|status rest|msg e rest Hm]; subst; cbn [json_frames].
    + by exists [].
    + destruct (Hr status) as [v Hv]. rewrite Hv. eexists. split; [done|]. eauto.
    + rewrite Hm. set (status := new_status CInternal (txt "serialization error: " ++ e)) in *.
      destruct (Hr status) as [v Hv]. rewrite Hv. eexists. split; [done|]. eauto.
  - rewrite Hs, IH. cbn. eauto.
Qed.

(** Every stream is answered: with frames up to its end, or an error. *)
Lemma frames_total (render_error : TStatus -> option Value) (items : list (result DynamicMessage TStatus)) :
  (forall status, is_Some (render_error status)) -> is_Some (json_frames render_error items).
Proof.
  intros Hr. induction items as [|[msg|status] items [frames IH]]; cbn [json_frames]; [done| |].
  - destruct (dm_to_text msg) as [s|e]; [by rewrite IH|]. set (status := new_status _ _). destruct (Hr status) as [v ->]. done.
  - destruct (Hr status) as [v ->]. done.
Qed.

Lemma error_body_total (details : option StatusDetails) (status : TStatus) : is_Some (error_body status details).
Proof using DL. unfold error_body. destruct (render_total status details) as (c & v & ok & -> & _). by eexists. Qed.

Lemma upstream_error_total (status : TStatus) (r : Rpc) : is_Some (upstream_error json_headers status r).
Proof using HL DL.
  destruct (upstream_error_ok (Refused status) status r) as (response & -> & _); [done|]. done.
Qed.

Lemma answer_call_total (u : Upstream) (r : Rpc) (use_sse : bool) : is_Some (answer_call json_headers sse_headers u r use_sse).
Proof using HL DL.
  unfold answer_call. destruct (rp_streaming r); [|destruct (unary_call_ok u r) as (response & -> & _); done].
  unfold streaming_call. destruct (call_open u) as [[initial stream]|status]; [|apply upstream_error_total].
  destruct (rp_response r) as [path|path] eqn:Ep.
  - destruct (frames_total (fun status => error_body status (rp_error_details r)) (sm_items stream)
      (error_body_total (rp_error_details r))) as [frames ->]. done.
  - unfold http_body_stream. destruct (sm_items stream) as [|[message|status] items]; [| |apply upstream_error_total];
      by destruct (content_type_header _).
Qed.

(** C17: an NDJSON answer reads back line by line. Of a stream of messages and whatever follows them (its end, a
    failure, or a message that has no JSON form), the client gets a complete body; split at newlines it is
    one line of JSON per message, in order and with nothing lost, then, when the stream failed, one last line with the
    error body, and nothing of what the upstream sends after that. The headers are the initial metadata's. *)
Theorem ndjson_read_back (initial : HeaderMap) (stream : Streaming) (r : Rpc) (path : option text)
    (msgs : list DynamicMessage) (texts : list text) (tail : list (result DynamicMessage TStatus)) (ending : option TStatus) :
  rp_response r = RJson path -> sm_items stream = (Ok <$> msgs) ++ tail ->
  Forall2 (fun msg s => dm_to_text msg = Ok s) msgs texts -> stream_end tail ending ->
  exists response chunks body,
    streaming_call json_headers sse_headers (Accepted initial stream) r false = Some response /\
    rs_status response = 200 /\ rs_body response = BStream chunks /\ read_body chunks = (body, true) /\
    (exists last, split NEWLINE body = (data_line (rp_ndjson_envelope r) <$> texts) ++ last ++ [[]] /\
       match ending with
       | None => last = []
       | Some status => exists v, error_body status (rp_error_details r) = Some v /\
                          last = [error_line (rp_ndjson_envelope r) v]
       end) /\
    forall n, hm_get_all (rs_headers response) n =
      if decide (n = CONTENT_TYPE) then [NDJSON]
      else if forwards (rp_denied_headers r) n then hm_get_all initial n else [].
Proof using HL DL RLL.
  intros Hp Hi HF He. unfold streaming_call. cbn [call_open]. rewrite Hp, Hi.
  destruct (frames_ok (fun status => error_body status (rp_error_details r)) msgs texts tail ending) as (last & -> & Hl).
  { apply error_body_total. } { done. } { done. }
  cbn [mbind option_bind]. set (up := up_headers _). set (frames := (FData <$> texts) ++ last).
  destruct (with_upstream_ok (ndjson_response frames (rp_ndjson_envelope r)) up) as (H1 & H2 & H3).
  set (lines := (fun f => match f with FData s => data_line (rp_ndjson_envelope r) s | FError v => error_line (rp_ndjson_envelope r) v end) <$> frames).
  assert (Hlines : Forall (fun line => NEWLINE ∉ line) lines).
  { unfold lines, frames. apply Forall_fmap, Forall_app. split.
    - apply Forall_fmap. clear -HF RLL. induction HF; constructor; [by eapply data_line_one|done].
    - destruct ending as [status|]; [destruct Hl as (v & _ & ->)|by subst last].
      constructor; [|constructor]. cbn. unfold error_line. destruct (rp_ndjson_envelope r); apply value_one_line. }
  pose proof (read_lines lines Hlines) as Hr.
  destruct (read_body ((fun line => Some (line ++ [NEWLINE])) <$> lines)) as [body whole] eqn:Eb. destruct Hr as [-> Hr].
  eexists _, _, body. split; [reflexivity|]. split; [by rewrite H1|]. split; [exact H2|]. split.
  { refine (eq_trans (f_equal read_body _) Eb). unfold lines. rewrite <- list_fmap_compose.
    apply list_fmap_ext. intros i f _. unfold compose. by rewrite ndjson_lines. }
  split.
  - exists (drop (length texts) lines). split.
    + rewrite Hr. unfold lines, frames. rewrite fmap_app, <- list_fmap_compose, <- app_assoc.
      rewrite drop_app_length' by (by rewrite length_fmap). done.
    + unfold lines, frames. rewrite fmap_app, drop_app_length' by (by rewrite !length_fmap).
      destruct ending as [status|]; [destruct Hl as (v & Hv & ->)|by rewrite Hl]. by exists v.
  - intros n. rewrite H3. cbn [ndjson_response rs_headers]. header_simpl.
    destruct (decide (CONTENT_TYPE = n)) as [<-|Hn]; [by rewrite decide_True|]. rewrite decide_False by congruence. header_simpl.
    unfold up. destruct (absorb_ok upstream_default initial (rp_denied_headers r)) as [-> _].
    cbn [up_headers upstream_default]. by rewrite get_all_empty.
Qed.

Lemma read_nonempty (chunks : list (option text)) :
  read_body (filter (fun chunk => chunk <> Some []) chunks) = read_body chunks.
Proof.
  induction chunks as [|[c|] chunks IH]; [done| |done]. rewrite filter_cons. case_decide as Hc; cbn [read_body]; rewrite IH.
  - done.
  - destruct c as [|a c]; [by destruct (read_body chunks)|]. discriminate Hc.
Qed.

Lemma read_messages (r : Rpc) (path : list FieldDescriptor) (msgs : list DynamicMessage)
    (tail : list (result DynamicMessage TStatus)) (whole : bool) :
  rp_response r = RHttpBody path ->
  (whole = true /\ tail = [] \/ whole = false /\ exists status rest, tail = Err status :: rest) ->
  read_body (raw_chunk r <$> (Ok <$> msgs) ++ tail) = (mjoin ((fun m => raw_data (take_raw m path)) <$> msgs), whole).
Proof.
  intros Hp Ht. induction msgs as [|m msgs IH]; cbn [fmap list_fmap app read_body mjoin list_join raw_chunk].
  - by destruct Ht as [[-> ->]|[-> (status & rest & ->)]].
  - rewrite IH. unfold raw_body. by rewrite Hp.
Qed.

(** A stream of HttpBody messages is their bytes. Once the upstream sends a first message whose content type can
    be a header, the client gets a 200 with that type, the forwarded initial metadata, and the data of every message
    in order, whether it comes in one chunk or none; the transfer completes exactly when the stream does, and
    is cut off after the messages before a failure. *)
Theorem raw_stream_bytes (initial : HeaderMap) (stream : Streaming) (r : Rpc) (path : list FieldDescriptor)
    (first : DynamicMessage) (msgs : list DynamicMessage) (tail : list (result DynamicMessage TStatus)) (whole : bool)
    (content_type : option text) :
  rp_response r = RHttpBody path -> sm_items stream = Ok first :: (Ok <$> msgs) ++ tail ->
  (whole = true /\ tail = [] \/ whole = false /\ exists status rest, tail = Err status :: rest) ->
  content_type_header (raw_content_type (take_raw first path)) = Ok content_type ->
  exists response chunks,
    streaming_call json_headers sse_headers (Accepted initial stream) r false = Some response /\
    rs_status response = 200 /\ rs_body response = BStream chunks /\
    read_body chunks = (mjoin ((fun m => raw_data (take_raw m path)) <$> first :: msgs), whole) /\
    forall n, hm_get_all (rs_headers response) n =
      if decide (n = CONTENT_TYPE) then option_list content_type
      else if forwards (rp_denied_headers r) n then hm_get_all initial n else [].
Proof using HL.
  intros Hp Hi Ht Hc. unfold streaming_call. cbn [call_open]. rewrite Hp, Hi. unfold http_body_stream, raw_body at 1.
  rewrite Hp. cbn [default from_option id]. rewrite Hc. eexists _, _. split; [reflexivity|].
  split; [done|]. split; [done|]. split.
  - rewrite read_nonempty. cbn [read_body]. unfold raw_body. rewrite Hp. cbn [from_option id].
    by rewrite (read_messages r path msgs tail whole Hp Ht).
  - intros n. rewrite build_response_headers. change (bool_decide (200 ∈ [204; 205; 304])) with false. cbn iota.
    destruct (absorb_ok upstream_default initial (rp_denied_headers r)) as [Hh _]. rewrite Hh.
    cbn [up_headers upstream_default]. rewrite get_all_empty. cbn [app].
    destruct content_type as [ct|]; cbn [option_list]; [by case_decide|]. case_decide as Hn; [|done].
    subst n. by rewrite content_type_kept.
Qed.
End Laws.

(** * Witnesses *)

Module Demo.
Import Details.Model Http.Model.
#[local] Existing Instances Details.Model.lib Details.Model.services Details.Model.details Details.Model.laws.

(** Notes are written without their line breaks, objects as their members' names. *)
#[local] Instance written : ResponseLib := {|
  dm_to_text m := match m with MNote s => Ok (filter (fun c => c <> NEWLINE) s) | _ => Err (txt "no JSON form") end;
  dm_to_value m := Ok (json m);
  value_to_text v := match v with Object fields => filter (fun c => c <> NEWLINE) (join (txt ",") fields.*1) | _ => txt "?" end;
  header_value s := Some s;
  sse_event name data := default [] name ++ data;
|}.

#[local] Instance written_laws : ResponseLaws written.
Proof.
  split; cbn.
  - intros [u v| |s|cs] t; intros [= <-]. rewrite list_elem_of_filter. by intros [? _].
  - intros [| | | | |fields]; try (intros H; by vm_compute in H; apply (bool_decide_eq_true_2 (NEWLINE ∈ txt "?")) in H; vm_compute in H).
    rewrite list_elem_of_filter. by intros [? _].
Qed.

Definition json_headers : HeaderMap := hm_insert hm_empty CONTENT_TYPE APPLICATION_JSON.
Definition initial : HeaderMap := hm_append (hm_append hm_empty (txt "x-note") (txt "a")) (txt "x-debug") (txt "b").
Definition trailers : HeaderMap := hm_append (hm_append hm_empty (txt "x-note") (txt "c")) HTTP_CODE_KEY (txt "201").

Definition route (details : option StatusDetails) : Rpc :=
  mkRpc (tt : MethodDescriptor) true (Parsed MapNone) (RJson None) details true false [txt "x-debug"].

Definition created : Upstream := Accepted initial (mkStreaming [Ok (MNote (txt "hi") : DynamicMessage)] (Ok (Some trailers))).


(** Two notes and a failure, then one the client never sees. *)
Definition failing : list (result DynamicMessage TStatus) :=
  [Ok (MNote (txt "one")); Ok (MNote (txt "two")); Err (new_status CInternal (txt "down")); Ok (MNote (txt "late"))].

Lemma ndjson_read_back_witness :
  exists response chunks body,
    streaming_call json_headers json_headers (Accepted initial (mkStreaming failing (Ok None))) (route None) false = Some response /\
    rs_body response = BStream chunks /\ read_body chunks = (body, true) /\ length (split NEWLINE body) = 4%nat.
Proof.
  destruct (ndjson_read_back json_headers json_headers initial (mkStreaming failing (Ok None)) (route None) None
    [MNote (txt "one"); MNote (txt "two")] [txt "one"; txt "two"]
    [Err (new_status CInternal (txt "down")); Ok (MNote (txt "late"))] (Some (new_status CInternal (txt "down")))
    ltac:(reflexivity) ltac:(reflexivity) ltac:(repeat constructor) ltac:(constructor))
    as (response & chunks & body & E & _ & Hb & Hr & (last & Hs & v & _ & ->) & _).
  exists response, chunks, body. split; [exact E|]. split; [exact Hb|]. split; [exact Hr|]. rewrite Hs. reflexivity.
Defined.
End Demo.

Module RawDemo.
Import Protobuf.Model Http.Model.
#[local] Existing Instances Protobuf.Model.lib.

#[local] Instance services : ServiceLib := {|
  DescriptorPool := unit; ServiceDescriptor := unit; MethodDescriptor := unit; ExtensionDescriptor := unit;
  pool_services _ := []; pool_service_by_name _ _ := None; pool_extension_by_name _ _ := None;
  pool_message_by_name _ _ := None; pool_all_messages _ := []; sd_full_name _ := []; sd_methods _ := [];
  mt_name _ := []; mt_parent _ := tt; mt_input _ := TBody; mt_output _ := TBody;
  mt_client_streaming _ := false; mt_server_streaming _ := true; mt_options _ := MBody [] [];
  dm_has_extension _ _ := false; dm_get_extension _ _ := PBool false;
|}.

(** The stream of the witness has no error, so nothing of these is read. *)
#[local] Instance details : DetailLib := {|
  dm_put m _ _ := m; dm_clear m _ := m; ext_values _ := []; ext_kind _ := KBool; ext_put m _ _ := m; ext_clear m _ := m;
  dm_decode _ _ := None; dm_encode _ := []; dm_json _ := None; status_decode _ := None; base64_encode b := b; dm_weight _ := O;
|}.

#[local] Instance written : ResponseLib := {|
  dm_to_text _ := Err []; dm_to_value _ := Err []; value_to_text _ := []; header_value s := Some s; sse_event _ data := data;
|}.

Definition route : Rpc := mkRpc (tt : MethodDescriptor) true (Parsed MapNone) (RHttpBody []) None false false [].
Definition first : @DynamicMessage Protobuf.Model.lib := MBody (txt "text/csv") (txt "a").
Definition parts : list (@DynamicMessage Protobuf.Model.lib) := [MBody [] []; MBody [] (txt "b")].
Definition cut : list (result (@DynamicMessage Protobuf.Model.lib) TStatus) := [Err (new_status CInternal (txt "down"))].
Definition stream : Streaming := mkStreaming (Ok first :: (Ok <$> parts) ++ cut) (Ok None).

Lemma raw_stream_bytes_witness :
  exists response chunks,
    streaming_call hm_empty hm_empty (Accepted hm_empty stream) route false = Some response /\
    rs_body response = BStream chunks /\ read_body chunks = (txt "ab", false).
Proof.
  destruct (raw_stream_bytes hm_empty hm_empty hm_empty stream route [] first parts cut false (Some (txt "text/csv"))
    ltac:(reflexivity) ltac:(reflexivity) ltac:(right; unfold cut; eauto) ltac:(reflexivity))
    as (response & chunks & E & _ & Hb & Hr & _).
  exists response, chunks. split; [exact E|]. split; [exact Hb|]. rewrite Hr. reflexivity.
Defined.
End RawDemo.
