(* ===== verification/Transcode.v ===== *)
(** * Transcoded requests ([src/transcode/mod.rs], [src/transcode/body.rs])

    A request on a transcoded route: its captures and its body bound to the RPC's
    message, the call made of it and the answer to the call. Served by a router
    ([dispatch]) or straight from the proxy's own match ([serve]). [None] is a panic;
    the upstream is a function of the call. *)

From Stdlib Require Import Floats.SpecFloat.
From S2P Require Import Prelude Rust Json Http Net ClientAddress Protobuf Numbers Presence Request BindPairs Path Shape Table Status Response Rule HttpBody Codec Metadata BuildRequest Details Mount Answer.

(** ** What the client accepts *)

Definition ACCEPT : text := txt "accept".
Definition ALLOW : text := txt "allow".
Definition CONTENT_LENGTH : text := txt "content-length".

(** The loop over the parameters of a media range: the first [q] decides. *)
Fixpoint quality_selects (params : list text) : bool :=
  match params with
  | [] => true
  | param :: params =>
      let '(key, value) := match split_once (ch "=") param with Some kv => kv | None => (param, []) end in
      if eq_ignore_ascii_case (trim key) (txt "q") then
        SFltb (S754_zero false) (match parse_f32_std (trim value) with Ok q => q | Err _ => S754_finite false 8388608 (-23) end)
      else quality_selects params
  end.

Definition accept_range_selects_sse (range : text) : bool :=
  match split (ch ";") range with
  | media :: params => eq_ignore_ascii_case (trim media) EVENT_STREAM && quality_selects params
  | [] => false
  end.

Section Headers.
Context {HT : HttpLib}.

Definition wants_sse (headers : HeaderMap) : bool :=
  existsb accept_range_selects_sse (accept ← omap value_str (hm_get_all headers ACCEPT); split (ch ",") accept).

(** [content_type] of [body.rs]. *)
Definition media_type (headers : HeaderMap) : option text :=
  (fun ct => trim (default ct (head (split (ch ";") ct)))) <$> hm_get_str headers CONTENT_TYPE.

Definition request_content_type (headers : HeaderMap) : result text text :=
  match hm_get headers CONTENT_TYPE with
  | None => Ok []
  | Some value =>
      match value_str value with
      | Some s => Ok s
      | None => Err (txt "request Content-Type is not a visible ASCII string")
      end
  end.
End Headers.

(** [http::Uri]. *)
Record Uri := mkUri { uri_path : text; uri_query : option text; uri_path_and_query : option text }.

(** The router of one path: the captures of a path it matches, undecoded. *)
Class RouteLib : Type := { route_at : text -> text -> option params }.

Definition UPSTREAM_DEADLINE : Z := from_secs 5.

Section Data.
Context {HT : HttpLib} {P : ProstLib} (Conn : Type).

(** What a request holds that the handlers read. [q_body] is what reading the body
    answers; [q_captures] the router's captures, decoded. *)
Record TRequest := mkRequest {
  q_method : text;
  q_uri : Uri;
  q_headers : HeaderMap;
  q_body : result text Response;
  q_chosen : option Choice;
  q_original : option Uri;
  q_connection : option Conn;
  q_address : option ClientAddress;
  q_captures : result params Response;
}.

(** [Client], with its [Origin] and its [RequestLine]. *)
Record Client := mkTClient {
  cl_headers : HeaderMap;
  cl_connection : option Conn;
  cl_address : option ClientAddress;
  cl_method : text;
  cl_uri : Uri;
}.

(** [Call], with the extensions of its request; [ca_timeout] is what
    [apply_request_deadline] sets. *)
Record Call := mkCall {
  ct_message : DynamicMessage;
  ct_metadata : HeaderMap;
  ct_timeout : option Z;
  ct_connection : option Conn;
  ct_address : option ClientAddress;
  ct_received : option (text * text * text);
  ct_deadline : Z;
}.

(** [Begun]. *)
Inductive Begun :=
| BCall (call : Call) (sse : bool)
| BAnswered (response : Response).
End Data.
Arguments mkRequest {HT Conn}. Arguments q_method {HT Conn}. Arguments q_uri {HT Conn}. Arguments q_headers {HT Conn}.
Arguments q_body {HT Conn}. Arguments q_chosen {HT Conn}. Arguments q_original {HT Conn}. Arguments q_connection {HT Conn}.
Arguments q_address {HT Conn}. Arguments q_captures {HT Conn}.
Arguments mkTClient {HT Conn}. Arguments cl_headers {HT Conn}. Arguments cl_connection {HT Conn}. Arguments cl_address {HT Conn}.
Arguments cl_method {HT Conn}. Arguments cl_uri {HT Conn}.
Arguments mkCall {HT P Conn}. Arguments ct_message {HT P Conn}. Arguments ct_metadata {HT P Conn}. Arguments ct_timeout {HT P Conn}.
Arguments ct_connection {HT P Conn}. Arguments ct_address {HT P Conn}. Arguments ct_received {HT P Conn}. Arguments ct_deadline {HT P Conn}.
Arguments BCall {HT P Conn}. Arguments BAnswered {HT P Conn}.

Section Request.
Context {HT : HttpLib} {P : ProstLib} {B : BodyLib} {SL : ServiceLib}.

(** ** The message of the RPC *)

(** What the route reads of the request: the mapping, the parsed body, the query. *)
Definition parsed_parts (body : RequestBody) (headers : HeaderMap) (raw_query : option text) (bytes : text)
    : BodyMapping * RBody * option text :=
  match body with
  | Parsed MapNone => (MapNone, Absent, raw_query)
  | Parsed mapping => (mapping, body_new (media_type headers) bytes, raw_query)
  | RawRoot => (MapNone, Absent, None)
  | RawField mapping _ _ => (mapping, Absent, raw_query)
  end.

Definition decode_request (r : Rpc) (headers : HeaderMap) (path_params : params) (raw_query : option text) (bytes : text)
    : option (result DynamicMessage text) :=
  let '(mapping, body, raw_query) := parsed_parts (rp_request_body r) headers raw_query bytes in
  let! built := build_message (mt_input (rp_method r)) mapping body path_params raw_query in
  Some (let? message := built in
        match rp_request_body r with
        | Parsed _ => Ok message
        | RawRoot => let? content_type := request_content_type headers in Ok (fill message content_type bytes)
        | RawField _ field http_body =>
            let? content_type := request_content_type headers in
            Ok (dm_set message field (PMessage (fill (dm_new http_body) content_type bytes)))
        end).

(** ** The call *)

Context {T : TonicLib} {Conn : Type}.

Definition forwarded_error (e : InvalidForwardedHeader) : text :=
  txt "header `" ++ if_header e ++ txt "` has a value gRPC metadata cannot carry".

Definition set_timeout (call : Call Conn) (timeout : Z) : Call Conn :=
  mkCall (ct_message call) (ct_metadata call) (Some timeout) (ct_connection call) (ct_address call) (ct_received call)
    (ct_deadline call).
Definition set_deadline (call : Call Conn) (deadline : Z) : Call Conn :=
  mkCall (ct_message call) (ct_metadata call) (ct_timeout call) (ct_connection call) (ct_address call) (ct_received call)
    deadline.
Definition set_received (call : Call Conn) (received : text * text * text) : Call Conn :=
  mkCall (ct_message call) (ct_metadata call) (ct_timeout call) (ct_connection call) (ct_address call) (Some received)
    (ct_deadline call).

(** What the proxy forwards, and the random source of a fresh trace. *)
Context (forwarded : Forwarded) (random : option Z * option Z).

Definition prepare (client : Client Conn) (path_params : params) (raw_query : option text) (bytes : text) (r : Rpc)
    : option (result (Call Conn) text) :=
  match forwarded_metadata random.1 random.2 (cl_headers client) forwarded (bool_decide (is_Some (cl_address client))) with
  | Err e => Some (Err (forwarded_error e))
  | Ok metadata =>
      let! ms := metadata in
      let! decoded := decode_request r (cl_headers client) path_params raw_query bytes in
      match decoded with
      | Err e => Some (Err e)
      | Ok message =>
          let call := mkCall message ms.1 None (cl_connection client) (cl_address client) None UPSTREAM_DEADLINE in
          let! timed := apply_request_deadline set_timeout call (cl_headers client) in
          Some (Ok (set_deadline timed.1
                      (match timed.2 with Some client => Z.min client UPSTREAM_DEADLINE | None => UPSTREAM_DEADLINE end)))
      end
  end.

(** [RequestLine::received]. *)
Definition received (client : Client Conn) (grpc_path : text) : result (text * text * text) text :=
  match uri_path_and_query (cl_uri client) with
  | Some path_and_query => Ok (cl_method client, path_and_query, grpc_path)
  | None => Err (txt "the request target has no path")
  end.

(** The call, and whether a streamed answer goes out as SSE. *)
Definition start (client : Client Conn) (path_params : params) (bytes : text) (entry : RouteEntry (Rpc := Rpc))
    : option (result (Call Conn * bool) text) :=
  let! prepared := prepare client path_params (uri_query (cl_uri client)) bytes (e_rpc entry) in
  Some (let? call := prepared in
        let? line := received client (e_grpc_path entry) in
        Ok (set_received call line, rp_streaming (e_rpc entry) && wants_sse (cl_headers client))).
End Request.

(** ** Serving *)

Section Serve.
Context {HT : HttpLib} {P : ProstLib} {B : BodyLib} {SL : ServiceLib} {D : DetailLib} {RL : ResponseLib} {T : TonicLib}.
Context {PT : PercentLib} {ROL : RouteLib} {Conn : Type}.
Context (forwarded : Forwarded) (random : option Z * option Z).
(** The headers [axum] gives a JSON body and an event stream. *)
Context (json_headers sse_headers : HeaderMap).
(** What the upstream makes of a call on a route. *)
Context (upstream : RouteEntry (Rpc := Rpc) -> Call Conn -> Upstream).

(** A response, and the call it took. *)
Abbreviation outcome := (Response * option (Call Conn))%type.

(** [Unmappable::into_response]. *)
Definition unmappable (message : text) (entry : RouteEntry (Rpc := Rpc)) : option Response :=
  status_to_response json_headers (new_status CInvalidArgument message) (rp_error_details (e_rpc entry)).

(** [self.bindings[index].entry] and [multi_segment]. *)
Definition entry_of (t : PathTable (Rpc := Rpc)) (index : nat) : option RouteEntry := b_entry <$> p_bindings t !! index.
Definition multi_segment_of (t : PathTable (Rpc := Rpc)) (index : nat) : option (list nat) := b_multi_segment <$> p_bindings t !! index.

(** The turns of [capture], from a position. *)
Fixpoint decode_captures (multi_segment : list nat) (position : nat) (found : params) : result params text :=
  match found with
  | [] => Ok []
  | (name, raw) :: found =>
      let decoded := if decide (position ∈ multi_segment) then decode_multi_segment raw else percent_decode raw in
      if utf8_valid decoded then
        let? rest := decode_captures multi_segment (S position) found in Ok ((name, decoded) :: rest)
      else Err (txt "path parameter " ++ name ++ txt " is not valid UTF-8")
  end.

(** [capture], after the parameters [ps]. *)
Definition capture (routes : Routes (Rpc := Rpc)) (table : nat) (multi_segment : list nat) (path : text) (ps : params)
    : option (result params text) :=
  let! found := route_at (p_path (get_table routes table)) path in
  Some (let? decoded := decode_captures multi_segment 0 found in Ok (ps ++ decoded)).

Definition begin (routes : Routes (Rpc := Rpc)) (table index : nat) (q : TRequest Conn) (path_params : params) (uri : Uri)
    : option (Begun Conn) :=
  let! path_params := bind_params (get_table routes table) index path_params in
  let client := mkTClient (q_headers q) (q_connection q) (q_address q) (q_method q) uri in
  match q_body q with
  | Err rejection => Some (BAnswered rejection)
  | Ok bytes =>
      let! entry := entry_of (get_table routes table) index in
      let! started := start forwarded random client path_params bytes entry in
      match started with
      | Ok (call, sse) => Some (BCall call sse)
      | Err message => let! response := unmappable message entry in Some (BAnswered response)
      end
  end.

Definition serve_begun (begun : Begun Conn) (entry : RouteEntry (Rpc := Rpc)) : option outcome :=
  match begun with
  | BAnswered response => Some (response, None)
  | BCall call sse =>
      let! response := answer_call json_headers sse_headers (upstream entry call) (e_rpc entry) sse in
      Some (response, Some call)
  end.

(** The 405 and the 404. *)
Definition not_allowed (allow : text) : Response := mkResponse 405 (hm_insert hm_empty ALLOW allow) (BBytes []) None.
Definition not_found : Response := mkResponse 404 hm_empty (BBytes []) None.

(** What [dispatch] and [serve] share once the captures are read. *)
Definition serve_route (routes : Routes (Rpc := Rpc)) (table index : nat) (q : TRequest Conn)
    (captured : option (result params text)) : option outcome :=
  let! captured := captured in
  let! entry := entry_of (get_table routes table) index in
  match captured with
  | Err message => let! response := unmappable message entry in Some (response, None)
  | Ok path_params =>
      let! begun := begin routes table index q path_params (default (q_uri q) (q_original q)) in
      serve_begun begun entry
  end.

(** [dispatch]: the request was matched to the table [matched] by the router. The
    captures are the router's, unless another table answers or a variable over
    several segments keeps its escapes. *)
Definition dispatch (routes : Routes (Rpc := Rpc)) (empty_last : bool) (matched : nat) (q : TRequest Conn) : option outcome :=
  let path := uri_path (q_uri q) in
  let choice := default (choose empty_last routes matched (q_method q) path) (q_chosen q) in
  match choice with
  | NotFound => Some (not_found, None)
  | MethodNotAllowed _ allow => Some (not_allowed allow, None)
  | Route table index =>
      match q_captures q with
      | Err rejection => Some (rejection, None)
      | Ok captured =>
          let! multi_segment := multi_segment_of (get_table routes table) index in
          serve_route routes table index q
            (if negb (table =? matched)%nat || negb (bool_decide (multi_segment = [])) then
               let own := length (p_captures (get_table routes matched)) in
               let! prefixes := if (own <=? length captured)%nat then Some (length captured - own)%nat else None in
               capture routes table multi_segment path (take prefixes captured)
             else Some (Ok captured))
      end
  end.

(** The answer of [serve] before the length of its body is seen to. *)
Definition serve_chosen (routes : Routes (Rpc := Rpc)) (q : TRequest Conn) : option outcome :=
  match default NotFound (q_chosen q) with
  | NotFound => Some (not_found, None)
  | MethodNotAllowed _ allow => Some (not_allowed allow, None)
  | Route table index =>
      let! multi_segment := multi_segment_of (get_table routes table) index in
      serve_route routes table index q (capture routes table multi_segment (uri_path (q_uri q)) [])
  end.

(** [size_hint().exact()]. *)
Definition body_size (b : Body) : option Z :=
  match b with
  | BBytes bytes => Some (Z.of_nat (length bytes))
  | BJson v => Some (Z.of_nat (length (value_to_text v)))
  | BStream _ => None
  end.

Definition CONNECT : text := txt "CONNECT".
Definition is_success (status : Z) : bool := (200 <=? status) && (status <=? 299).

(** What [serve] makes of the answer to a request of [method]. *)
Definition finish (method : text) (response : Response) : Response :=
  let status := rs_status response in
  if bool_decide (method = CONNECT) && is_success status then
    mkResponse status (hm_remove (rs_headers response) CONTENT_LENGTH) (BBytes []) (rs_rejection response)
  else
    let headers :=
      if negb (status =? 204) && negb (status =? 304) && negb (hm_contains (rs_headers response) CONTENT_LENGTH) then
        match body_size (rs_body response) with
        | Some length => hm_insert (rs_headers response) CONTENT_LENGTH (show_u64 length)
        | None => rs_headers response
        end
      else rs_headers response in
    mkResponse status headers (if bool_decide (method = HEAD) then BBytes [] else rs_body response) (rs_rejection response).

(** [serve]. *)
Definition serve (routes : Routes (Rpc := Rpc)) (q : TRequest Conn) : option outcome :=
  let! served := serve_chosen routes q in Some (finish (q_method q) served.1, served.2).
End Serve.

(** ** The choice before the layers *)

Section Choose.
Context {Rpc : Type} (empty_last : bool).

(** [choose] of [mod.rs]: the choice that rides on the request, unless no binding
    answers it. *)
Definition choose_request (routes : Routes (Rpc := Rpc)) (ranked : option Ranked) (table : nat) (method path : text)
    : option Choice :=
  let choice :=
    match ranked with
    | Some ranked =>
        match choose_ranked empty_last routes table method path (fun other => ranks_first empty_last ranked other method path) with
        | MethodNotAllowed table allow => MethodNotAllowed table (ranked_allow ranked table allow)
        | choice => choice
        end
    | None => choose empty_last routes table method path
    end in
  match choice with NotFound => None | choice => Some choice end.

(** [Direct::takes]. *)
Definition direct_takes (routes : Routes (Rpc := Rpc)) (ranked : Ranked) (method path : text) : option Choice :=
  let! table := ranked_table empty_last ranked method path in choose_request routes (Some ranked) table method path.

(** [local_path]. *)
Definition local_path (matched : text) (nested : option text) : option text :=
  match nested with
  | None => Some matched
  | Some nested =>
      let! local := strip_prefix (trim_end_matches (txt "/") nested) matched in
      Some (match local with [] => txt "/" | _ => local end)
  end.

(** Where [ChooseRouted::call] sends a request the router matched at [matched],
    nested at [nested]: to the route, with the choice when one was made, or
    elsewhere. *)
Inductive Routed := ToRoute (chosen : option Choice) | Elsewhere.

Definition choose_routed (routes : Routes (Rpc := Rpc)) (ranked : option Ranked) (matched nested : option text)
    (method path : text) : Routed :=
  match let! matched := matched in let! path := local_path matched nested in table_at routes path with
  | None => ToRoute None
  | Some table =>
      match choose_request routes ranked table method path with
      | Some choice => ToRoute (Some choice)
      | None => Elsewhere
      end
  end.
End Choose.

(** * Theorems *)

(** The router of a path it holds: a path the proxy says it matches it does match,
    and captures a text for each of its variables. *)
Class RouteLaws (empty_last : bool) (ROL : RouteLib) (accepts : text -> Prop) : Prop := {
  route_found p path :
    accepts p -> path_matches empty_last p path = true ->
    exists found, route_at p path = Some found /\ length found = braces p;
}.

(** ** The message *)

Section Message.
Context {HT : HttpLib} {P : ProstLib} {PL : ProstLaws P} {B : BodyLib} {BL : BodyLaws B} {SL : ServiceLib}.

Lemma message_built (input : MessageDescriptor) (mapping : BodyMapping) (body : RBody) (pp : params) (raw_query : option text) :
  exists r, build_message input mapping body pp raw_query = Some r /\ forall m, r = Ok m -> dm_descriptor m = input.
Proof using PL BL.
  unfold build_message.
  destruct (request_built input mapping body pp (match raw_query with Some q => form_parse q | None => [] end)) as (r & -> & H).
  exists r. split; [done|]. intros m Hm. destruct (H m Hm) as (b0 & i0 & b1 & i1 & _ & _ & _ & [Hd _] & ops & Hw & _).
  by rewrite (writes_descriptor _ _ _ Hw), Hd.
Qed.

Lemma fill_descriptor (m : DynamicMessage) (content_type data : text) : dm_descriptor (fill m content_type data) = dm_descriptor m.
Proof using PL. unfold fill, dm_set_by_name. by repeat case_match; rewrite ?set_descriptor. Qed.

Lemma message_decoded (r : Rpc) (headers : HeaderMap) (pp : params) (raw_query : option text) (bytes : text) :
  exists res, decode_request r headers pp raw_query bytes = Some res /\
    forall m, res = Ok m -> dm_descriptor m = mt_input (rp_method r).
Proof using PL BL.
  unfold decode_request. destruct (parsed_parts _ _ _ _) as [[mapping body] query].
  destruct (message_built (mt_input (rp_method r)) mapping body pp query) as (built & -> & H). cbn [mbind option_bind].
  eexists. split; [done|]. intros m. destruct built as [m0|]; [|done]. cbn [result_bind]. specialize (H m0 eq_refl).
  destruct (rp_request_body r) as [mp| |mp field hb]; [by intros [= <-]|..];
    destruct (request_content_type headers) as [ct|]; try done; cbn [result_bind]; intros [= <-].
  - by rewrite fill_descriptor. - by rewrite set_descriptor.
Qed.

(** C21: the message of a request is of the type its RPC takes, whatever the body, the query and the path say and
    however the route reads them. *)
Theorem message_typed (r : Rpc) (headers : HeaderMap) (pp : params) (raw_query : option text) (bytes : text) (m : DynamicMessage) :
  decode_request r headers pp raw_query bytes = Some (Ok m) -> dm_descriptor m = mt_input (rp_method r).
Proof using PL BL.
  intros E. destruct (message_decoded r headers pp raw_query bytes) as (res & E' & H). rewrite E in E'.
  injection E' as <-. by apply H.
Qed.

(** C18: a raw body arrives as it was sent. The message of an RPC that takes [google.api.HttpBody], itself or in the
    field its rule names, holds there the request's content type and its bytes, whatever they are; in the second case
    the path and the query, and nothing else, made the rest of the message. *)
Theorem raw_body_received (r : Rpc) (mapping : BodyMapping) (headers : HeaderMap) (pp : params) (raw_query : option text)
    (bytes : text) (m : DynamicMessage) :
  rp_request_body r = request_body (mt_input (rp_method r)) mapping ->
  decode_request r headers pp raw_query bytes = Some (Ok m) ->
  match rp_request_body r with
  | Parsed _ => True
  | RawRoot => apart_fields (mt_input (rp_method r)) -> exists content_type,
      request_content_type headers = Ok content_type /\ take_raw m [] = mkRaw content_type bytes
  | RawField _ field http_body => apart_fields http_body -> fd_is_map field = false -> exists content_type m0,
      request_content_type headers = Ok content_type /\ take_raw m [field] = mkRaw content_type bytes /\
      build_message (mt_input (rp_method r)) mapping Absent pp raw_query = Some (Ok m0) /\
      forall g, g ∈ md_fields (mt_input (rp_method r)) -> g <> field -> ~ rivals field g -> dm_get m g = dm_get m0 g
  end.
Proof using PL BL.
  set (input := mt_input (rp_method r)). intros Hb. unfold decode_request. fold input. rewrite Hb. unfold request_body.
  assert (Hroot : is_http_body input = true ->
    (let '(mapping, body, raw_query) := parsed_parts RawRoot headers raw_query bytes in
     let! built := build_message input mapping body pp raw_query in
     Some (let? message := built in
           let? content_type := request_content_type headers in Ok (fill message content_type bytes))) = Some (Ok m) ->
    apart_fields input -> exists content_type,
      request_content_type headers = Ok content_type /\ take_raw m [] = mkRaw content_type bytes).
  { intros Hi. cbn [parsed_parts]. destruct (message_built input MapNone Absent pp None) as (built & -> & Hd).
    cbn [mbind option_bind]. destruct built as [m0|]; [|done]. cbn [result_bind].
    destruct (request_content_type headers) as [ct|]; [|done]. cbn [result_bind]. intros [= <-] Hap.
    exists ct. split; [done|]. specialize (Hd m0 eq_refl). apply take_fill; by rewrite Hd. }
  destruct mapping as [| |name]; [done|destruct (is_http_body input) eqn:Hi; [by apply Hroot|done]|].
  destruct (http_body_field input name) as [[field inner]|] eqn:Ef; [|done]. cbn [parsed_parts].
  destruct (message_built input (MapField name) Absent pp raw_query) as (built & Eb & Hd). rewrite Eb.
  cbn [mbind option_bind]. destruct built as [m0|]; [|done]. cbn [result_bind]. specialize (Hd m0 eq_refl).
  destruct (request_content_type headers) as [ct|]; [|done]. cbn [result_bind]. intros [= <-] Hap Hm.
  unfold http_body_field in Ef. destruct (md_field_by_name input name) as [f|] eqn:En; [|done]. cbn [mbind option_bind] in Ef.
  destruct (fd_kind f) as [| | | | | | | | | | | | | | |d|] eqn:Ek; try done. destruct (negb (fd_is_list f)) eqn:El; [|done]. cbn [andb] in Ef.
  destruct (is_http_body d) eqn:Hi; [|done].
  injection Ef as -> ->. apply negb_true_iff in El.
  assert (Hl : field ∈ md_fields input) by by eapply field_by_name_listed.
  exists ct, m0. split; [done|]. split; [apply take_field_fill; by rewrite ?Hd|]. split; [done|].
  intros g Hg Hne Hr. apply get_set_other; rewrite ?Hd; try done; [|by left].
  split; [done|]. rewrite El, Ek. cbn [kind_valid]. by rewrite fill_descriptor, new_descriptor.
Qed.
End Message.

(** ** The length of an answer *)

Section Framing.
Context {HT : HttpLib} {HL : HttpLaws HT} {P : ProstLib} {SL : ServiceLib} {D : DetailLib} {DL : DetailLaws D} {RL : ResponseLib}.
Context (json_headers sse_headers : HeaderMap).

(** A header no upstream sets and the proxy does not, in what is absorbed. *)
Lemma absorbed_withheld (metadata : HeaderMap) (deny : list text) (u : UpstreamHeaders) (n : text) :
  is_withheld n = true -> hm_get_all (up_headers u) n = [] -> hm_get_all (up_headers (absorb u metadata deny)) n = [].
Proof using HL.
  intros Hw Hu. destruct (absorb_ok u metadata deny) as [-> _]. rewrite Hu. unfold forwards. by rewrite Hw, andb_false_r.
Qed.

Section Withheld.
Context (n : text) (Hw : is_withheld n = true) (Hct : n <> CONTENT_TYPE).
Context (Hj : hm_get_all json_headers n = []) (Hs : hm_get_all sse_headers n = []).

Lemma carried_withheld (u : Upstream) (r : Rpc) (own : list text) : own = [] -> carried u r n own = [].
Proof using Hw. intros ->. unfold carried, forwards. by rewrite Hw, andb_false_r. Qed.

Lemma error_withheld (status : TStatus) (r : Rpc) (response : Response) :
  upstream_error json_headers status r = Some response -> hm_get_all (rs_headers response) n = [].
Proof using HL DL Hw Hj.
  intros E. destruct (upstream_error_ok json_headers (Refused status) status r) as (response' & E' & H); [done|].
  rewrite E in E'. injection E' as <-. destruct (status_render _ _) as [[[code v] [|]]|]; [|by destruct H as (_ & _ & ->)|done].
  destruct H as (_ & _ & ->). by apply carried_withheld.
Qed.

Lemma unary_withheld (u : Upstream) (r : Rpc) (response : Response) :
  unary_call json_headers u r = Some response -> hm_get_all (rs_headers response) n = [].
Proof using HL DL Hw Hj Hct.
  intros E. destruct (unary_call_ok json_headers u r) as (response' & E' & H). rewrite E in E'. injection E' as <-.
  unfold answered in H. destruct (call_unary u) as [a|status].
  - destruct (status_of _) as [status|]; [|by destruct H as [_ ->]].
    destruct (unary_content _ _) as [[ct b]|]; [|by destruct H as [_ ->]]. destruct H as (_ & _ & ->).
    apply carried_withheld. by destruct (bodiless _); [|rewrite decide_False].
  - destruct (status_render _ _) as [[[code v] [|]]|]; [|by destruct H as (_ & _ & ->)|done].
    destruct H as (_ & _ & ->). by apply carried_withheld.
Qed.

Lemma answer_withheld (u : Upstream) (r : Rpc) (use_sse : bool) (response : Response) :
  answer_call json_headers sse_headers u r use_sse = Some response -> hm_get_all (rs_headers response) n = [].
Proof using HL DL Hw Hct Hj Hs.
  unfold answer_call. destruct (rp_streaming r); [|apply unary_withheld].
  unfold streaming_call. destruct (call_open u) as [[initial stream]|status]; [|apply error_withheld].
  assert (Habs : hm_get_all (up_headers (absorb upstream_default initial (rp_denied_headers r))) n = []).
  { apply absorbed_withheld; [done|]. apply get_all_empty. }
  destruct (rp_response r) as [path|path].
  - destruct (json_frames _ _) as [frames|]; [|done]. cbn [mbind option_bind]. intros [= <-].
    set (own := if use_sse then _ else _).
    destruct (with_upstream_ok own (up_headers (absorb upstream_default initial (rp_denied_headers r)))) as (_ & _ & ->).
    assert (Ho : hm_get_all (rs_headers own) n = []).
    { unfold own. destruct use_sse; [done|]. cbn [ndjson_response rs_headers]. rewrite get_all_insert, decide_False by done.
      apply get_all_empty. }
    by rewrite Ho.
  - unfold http_body_stream. assert (Hst : forall raw b, match content_type_header (raw_content_type raw) with
      | Ok content_type => Some (build_response 200 (up_headers (absorb upstream_default initial (rp_denied_headers r))) content_type b)
      | Err _ => Some (route_malformed json_headers r)
      end = Some response -> hm_get_all (rs_headers response) n = []).
    { intros raw b. destruct (content_type_header _) as [ct|]; intros [= <-]; [|done]. rewrite build_response_headers.
      destruct ct as [ct|]; [|done]. repeat case_match; done. }
    destruct (sm_items stream) as [|[message|status] items]; [apply Hst|apply Hst|apply error_withheld].
Qed.
End Withheld.

(** The bytes of a body of known size. *)
Definition body_bytes (b : Body) : option text :=
  match b with BBytes bytes => Some bytes | BJson v => Some (value_to_text v) | BStream _ => None end.

Lemma body_size_bytes (b : Body) : body_size b = Z.of_nat ∘ length <$> body_bytes b.
Proof. by destruct b. Qed.

(** C19: the answer to a call, served without a router, is framed as HTTP asks. Whatever the upstream says, its
    [Content-Length] is the exact length of the body the answer has, once, and there is none on a stream, a 204, a 304
    or a successful CONNECT; only a HEAD, which keeps the length its body would have, and a successful CONNECT lose
    their body. The status is the answer's, and so is every other header. *)
Theorem answer_framed (method : text) (u : Upstream) (r : Rpc) (use_sse : bool) (response : Response) :
  hm_get_all json_headers CONTENT_LENGTH = [] -> hm_get_all sse_headers CONTENT_LENGTH = [] ->
  answer_call json_headers sse_headers u r use_sse = Some response ->
  let sent := finish method response in
  let tunnel := bool_decide (method = CONNECT) && is_success (rs_status response) in
  rs_status sent = rs_status response /\
  rs_body sent = (if tunnel || bool_decide (method = HEAD) then BBytes [] else rs_body response) /\
  forall n, hm_get_all (rs_headers sent) n =
    if decide (n = CONTENT_LENGTH) then
      if tunnel || bool_decide (rs_status response = 204 \/ rs_status response = 304) then []
      else match body_bytes (rs_body response) with Some bytes => [show_u64 (Z.of_nat (length bytes))] | None => [] end
    else hm_get_all (rs_headers response) n.
Proof using HL DL.
  intros Hj Hs E. apply (answer_withheld CONTENT_LENGTH) in E; [|done..]. unfold finish, CONNECT, HEAD.
  destruct (bool_decide (method = txt "CONNECT") && is_success (rs_status response)); cbn [orb rs_status rs_body rs_headers].
  { split_and!; [done..|]. intros n. rewrite get_all_remove. case_decide; case_decide; congruence || done. }
  split; [done|]. split; [done|]. intros n. rewrite <- negb_orb.
  replace ((rs_status response =? 204) || (rs_status response =? 304))
    with (bool_decide (rs_status response = 204 \/ rs_status response = 304))
    by (apply eq_true_iff_eq; by rewrite bool_decide_eq_true, orb_true_iff, !Z.eqb_eq).
  destruct (bool_decide (_ \/ _)); cbn [negb andb]; [case_decide; congruence|].
  replace (hm_contains (rs_headers response) CONTENT_LENGTH) with false; cycle 1.
  { symmetry. unfold hm_contains. by rewrite E. }
  cbn [negb]. rewrite body_size_bytes. destruct (body_bytes (rs_body response)) as [bytes|]; cbn.
  - rewrite get_all_insert. case_decide; case_decide; congruence || done.
  - case_decide; congruence.
Qed.
End Framing.

(** ** The call *)

Section Started.
Context {HT : HttpLib} {HL : HttpLaws HT} {P : ProstLib} {PL : ProstLaws P} {B : BodyLib} {BL : BodyLaws B} {SL : ServiceLib}.
Context {T : TonicLib} {TL : TonicLaws T} {Conn : Type} (forwarded : Forwarded) (random : option Z * option Z).

(** The call a request makes of an RPC: its metadata and its message, where it came
    from and the target as received, and the deadline: the client's, when it sets
    one sooner than the proxy's. *)
Record called (client : Client Conn) (pp : params) (bytes : text) (entry : RouteEntry (Rpc := Rpc)) (call : Call Conn) (sse : bool) : Prop := {
  cd_metadata : exists state,
    forwarded_metadata random.1 random.2 (cl_headers client) forwarded (bool_decide (is_Some (cl_address client)))
      = Ok (Some (ct_metadata call, state));
  cd_message : decode_request (e_rpc entry) (cl_headers client) pp (uri_query (cl_uri client)) bytes = Some (Ok (ct_message call));
  cd_origin : ct_connection call = cl_connection client /\ ct_address call = cl_address client;
  cd_received : exists target, uri_path_and_query (cl_uri client) = Some target /\
    ct_received call = Some (cl_method client, target, e_grpc_path entry);
  cd_timeout d : ct_timeout call = Some d <-> exists v, hm_get_str (cl_headers client) (txt "grpc-timeout") = Some v /\ timeout_of v d;
  cd_deadline : ct_deadline call = Z.min UPSTREAM_DEADLINE (default UPSTREAM_DEADLINE (ct_timeout call)) /\
    0 < ct_deadline call <= UPSTREAM_DEADLINE;
  cd_sse : sse = rp_streaming (e_rpc entry) && wants_sse (cl_headers client);
}.

Lemma start_ok (client : Client Conn) (pp : params) (bytes : text) (entry : RouteEntry) :
  exists res, start forwarded random client pp bytes entry = Some res /\
    forall call sse, res = Ok (call, sse) -> called client pp bytes entry call sse.
Proof using HL TL PL BL.
  unfold start, prepare.
  destruct (forwarded_metadata _ _ _ _ _) as [metadata|e] eqn:Em; [|by eexists].
  destruct metadata as [[m st]|]; [|by apply forwarded_total in Em]. cbn [mbind option_bind].
  destruct (message_decoded (e_rpc entry) (cl_headers client) pp (uri_query (cl_uri client)) bytes) as (decoded & Ed & _).
  rewrite Ed. cbn [mbind option_bind fst]. destruct decoded as [message|e]; [|by eexists].
  set (call0 := mkCall message m None (cl_connection client) (cl_address client) None UPSTREAM_DEADLINE).
  destruct (request_deadline_ok set_timeout call0 (cl_headers client)) as (timed & applied & -> & Ha & Hs & Hn).
  cbn [mbind option_bind fst snd]. eexists. split; [reflexivity|]. intros call sse. cbn [result_bind].
  destruct (received client (e_grpc_path entry)) as [line|] eqn:El; [|done]. cbn [result_bind]. intros [= <- <-].
  assert (Ht : ct_message timed = message /\ ct_metadata timed = m /\ ct_connection timed = cl_connection client /\
    ct_address timed = cl_address client /\ ct_timeout timed = applied).
  { destruct applied as [d|]; [by destruct (Hs d eq_refl) as [-> _]|by rewrite Hn]. }
  destruct Ht as (H1 & H2 & H3 & H4 & H5).
  split; cbn [set_received set_deadline ct_message ct_metadata ct_timeout ct_connection ct_address ct_received ct_deadline];
    rewrite ?H1, ?H2, ?H3, ?H4, ?H5; try done.
  - by exists st.
  - unfold received in El. destruct (uri_path_and_query _) as [target|]; [|done]. injection El as <-. by exists target.
  - destruct applied as [d|]; cbn [default].
    + destruct (Hs d eq_refl) as [_ Hd]. split; [apply Z.min_comm|]. assert (0 < UPSTREAM_DEADLINE) by done. lia.
    + split; [by rewrite Z.min_id|]. by assert (0 < UPSTREAM_DEADLINE) by done.
Qed.
End Started.

(** ** Serving *)

Section Served.
Context {HT : HttpLib} {HL : HttpLaws HT} {P : ProstLib} {PL : ProstLaws P} {B : BodyLib} {BL : BodyLaws B} {SL : ServiceLib}.
Context {D : DetailLib} {DL : DetailLaws D} {RL : ResponseLib} {T : TonicLib} {TL : TonicLaws T} {PT : PercentLib}.
Context {ROL : RouteLib} {Conn : Type} (forwarded : Forwarded) (random : option Z * option Z).
Context (json_headers sse_headers : HeaderMap) (upstream : RouteEntry (Rpc := Rpc) -> Call Conn -> Upstream).

Definition client_of (q : TRequest Conn) : Client Conn :=
  mkTClient (q_headers q) (q_connection q) (q_address q) (q_method q) (default (q_uri q) (q_original q)).

(** How a request on a binding is answered, and the call it takes: what reading its
    body answered, an error of its own, or the answer to its call. *)
Inductive served (q : TRequest Conn) (entry : RouteEntry (Rpc := Rpc)) (pp : params) : Response -> option (Call Conn) -> Prop :=
| served_rejected rejection : q_body q = Err rejection -> served q entry pp rejection None
| served_unmappable bytes message response :
    q_body q = Ok bytes -> start forwarded random (client_of q) pp bytes entry = Some (Err message) ->
    unmappable json_headers message entry = Some response -> served q entry pp response None
| served_called bytes call sse response :
    q_body q = Ok bytes -> called forwarded random (client_of q) pp bytes entry call sse ->
    answer_call json_headers sse_headers (upstream entry call) (e_rpc entry) sse = Some response ->
    served q entry pp response (Some call).

(** ... once its captures are read. *)
Inductive answered_on (q : TRequest Conn) (t : PathTable (Rpc := Rpc)) (index : nat) (entry : RouteEntry (Rpc := Rpc))
    : result params text -> Response -> option (Call Conn) -> Prop :=
| on_capture message response :
    unmappable json_headers message entry = Some response -> answered_on q t index entry (Err message) response None
| on_served captured bound response call :
    bind_params t index captured = Some bound -> served q entry bound response call ->
    answered_on q t index entry (Ok captured) response call.

Lemma unmappable_total (message : text) (entry : RouteEntry) : is_Some (unmappable json_headers message entry).
Proof using DL.
  unfold unmappable, status_to_response, status_response.
  by destruct (render_total (new_status CInvalidArgument message) (rp_error_details (e_rpc entry))) as (? & ? & ? & -> & _).
Qed.

Lemma serve_route_ok (routes : Routes) (tb : PathTable) (table index : nat) (b : Binding) (q : TRequest Conn) (captured : result params text) :
  r_tables routes !! table = Some tb -> p_bindings tb !! index = Some b -> binding_ok tb b ->
  (forall captures, captured = Ok captures -> (length (p_captures tb) <= length captures)%nat) ->
  exists response call,
    serve_route forwarded random json_headers sse_headers upstream routes table index q (Some captured) = Some (response, call) /\
    answered_on q tb index (b_entry b) captured response call.
Proof using HL PL BL DL TL.
  intros Ht Hb Hok Hlen. unfold serve_route, begin. replace (get_table routes table) with tb by (unfold get_table; by rewrite Ht).
  unfold entry_of. rewrite Hb. cbn [mbind option_bind fmap option_fmap option_map].
  destruct captured as [captures|message].
  2:{ destruct (unmappable_total message (b_entry b)) as [response E]. rewrite E. eexists _, _. split; [done|]. by constructor. }
  specialize (Hlen _ eq_refl). set (n := (length captures - length (p_captures tb))%nat).
  destruct (bind_params_ok tb index b (take n captures) (drop n captures) Hb Hok) as (values & _ & Hbind).
  { rewrite length_drop. lia. }
  rewrite take_drop in Hbind. rewrite Hbind. cbn [mbind option_bind].
  set (bound := take n captures ++ _) in *. clearbody bound.
  change (mkTClient _ _ _ _ _) with (client_of q).
  destruct (q_body q) as [bytes|rejection] eqn:Eq.
  2:{ cbn. eexists _, _. split; [done|]. eapply on_served; [done|]. by constructor. }
  destruct (start_ok forwarded random (client_of q) bound bytes (b_entry b)) as (res & Es & Hs). rewrite Es.
  cbn [mbind option_bind]. destruct res as [[call sse]|message].
  - specialize (Hs call sse eq_refl). cbn [mbind option_bind serve_begun].
    destruct (answer_call_total json_headers sse_headers (upstream (b_entry b) call) (e_rpc (b_entry b)) sse) as [response E].
    rewrite E. cbn [mbind option_bind]. eexists _, _. split; [done|]. eapply on_served; [done|]. by eapply served_called.
  - destruct (unmappable_total message (b_entry b)) as [response E]. rewrite E. cbn. eexists _, _. split; [done|].
    eapply on_served; [done|]. by eapply served_unmappable.
Qed.

Lemma decoded_length (multi_segment : list nat) (position : nat) (found captures : params) :
  decode_captures multi_segment position found = Ok captures -> length captures = length found.
Proof.
  revert position captures. induction found as [|[name raw] found IH]; intros position captures; cbn [decode_captures]; [by intros [= <-]|].
  destruct (utf8_valid _); [|done]. destruct (decode_captures _ _ found) as [rest|] eqn:E; [|done].
  intros [= <-]. cbn [length]. by rewrite (IH _ _ E).
Qed.
End Served.

Section Program.
Context {HT : HttpLib} {HL : HttpLaws HT} {P : ProstLib} {PL : ProstLaws P} {B : BodyLib} {BL : BodyLaws B} {SL : ServiceLib}.
Context {D : DetailLib} {DL : DetailLaws D} {RL : ResponseLib} {T : TonicLib} {TL : TonicLaws T} {PT : PercentLib}.
Context {UL : UriLib} {ML : MatchitLib} {MLL : MatchitLaws ML} {GL : GlobLib} (completed : DescriptorPool -> DescriptorPool).
Context (empty_last : bool) {ROL : RouteLib} {RLL : RouteLaws empty_last ROL (fun p => mountable insert_error p = Ok tt)}.
Context {Conn : Type} (forwarded : Forwarded) (random : option Z * option Z) (json_headers sse_headers : HeaderMap).
Context (upstream : RouteEntry (Rpc := Rpc) -> Call Conn -> Upstream).

(** The captures the handler goes on with: the router's, or those of the chosen path
    after the prefixes'. *)
Definition captures_read (own_path : bool) (b : Binding (Rpc := Rpc)) (prefixes : nat) (captured found : params)
    : result params text :=
  if own_path && bool_decide (b_multi_segment b = []) then Ok captured
  else let? decoded := decode_captures (b_multi_segment b) 0 found in Ok (take prefixes captured ++ decoded).

(** C9: from the request to the answer, whatever the descriptors, the options, the request and the upstream. A
    request the router matched to a mounted path is always answered, and as the choice among all routes says, which is
    the right one: 404 and 405 before anything of it is read; on a binding, that serves its method and follows its
    path, with at most one call, the call its captures, its body and its headers make, and then the answer is that of
    the call; without a call the answer is the rejection of the captures or of the body, or the 400 of a request that
    cannot be mapped. Nothing panics on the way: every capture the binding names is there. *)
Theorem request_served (pool : DescriptorPool) (aliases : list AliasConfig) (options : TranscodeOptions)
    (matched : nat) (q : TRequest Conn) :
  let tables := path_tables completed pool aliases options in
  let routes := routes_new tables in
  let path := uri_path (q_uri q) in
  let choice := choose empty_last routes matched (q_method q) path in
  let own := length (p_captures (get_table routes matched)) in
  url_table empty_last tables path matched ->
  (q_chosen q = None \/ q_chosen q = Some choice) ->
  (forall captured, q_captures q = Ok captured -> (own <= length captured)%nat) ->
  exists response call,
    dispatch forwarded random json_headers sse_headers upstream routes empty_last matched q = Some (response, call) /\
    choice_ok empty_last tables (q_method q) path choice /\
    match choice with
    | NotFound => response = not_found /\ call = None
    | MethodNotAllowed _ allow => response = not_allowed allow /\ call = None
    | Route table index =>
        match q_captures q with
        | Err rejection => response = rejection /\ call = None
        | Ok captured => exists tb b found,
            tables !! table = Some tb /\ p_bindings tb !! index = Some b /\ route_at (p_path tb) path = Some found /\
            answered_on forwarded random json_headers sse_headers upstream q tb index (b_entry b)
              (captures_read (table =? matched)%nat b (length captured - own) captured found) response call
        end
    end.
Proof using HL PL BL DL TL MLL RLL.
  intros tables routes path choice own Hm Hchosen Hcap. destruct (mounted_held completed pool aliases options) as [Hheld Hok].
  fold tables in Hheld, Hok. destruct (routes_new_indexes tables) as (Hr & _). fold routes in Hr.
  pose proof (choose_correct_aux empty_last tables Hok matched (q_method q) path Hm) as Hc. fold routes choice in Hc.
  unfold dispatch. fold path. replace (default (choose empty_last routes matched (q_method q) path) (q_chosen q)) with choice
    by (by destruct Hchosen as [-> | ->]).
  destruct choice as [table index|t allow|]; [|by eexists _, _..].
  destruct (q_captures q) as [captured|rejection]; [|by eexists _, _]. specialize (Hcap captured eq_refl).
  destruct Hc as (tb & b & Htb & Hb & Hpm & Hrest).
  assert (Hin : tb ∈ tables) by by eapply list_elem_of_lookup_2.
  rewrite Forall_forall in Hheld. destruct (Hheld tb Hin) as [[Htok Hlen] Hmount].
  destruct (route_found (p_path tb) path Hmount Hpm) as (found & Hf & Hfl).
  assert (Hg : get_table routes table = tb) by (unfold get_table; by rewrite Hr, Htb).
  unfold multi_segment_of. rewrite Hg, Hb. cbn [mbind option_bind fmap option_fmap option_map]. fold own.
  assert (Hread : (if negb (table =? matched)%nat || negb (bool_decide (b_multi_segment b = [])) then
      let! prefixes := if (own <=? length captured)%nat then Some (length captured - own)%nat else None in
      capture routes table (b_multi_segment b) path (take prefixes captured)
    else Some (Ok captured)) =
    Some (captures_read (table =? matched)%nat b (length captured - own) captured found)).
  { unfold captures_read. rewrite <- negb_andb. destruct ((table =? matched)%nat && _); [done|]. cbn [negb].
    rewrite leb_correct by done. cbn [mbind option_bind]. unfold capture. by rewrite Hg, Hf. }
  rewrite Hread.
  destruct (serve_route_ok forwarded random json_headers sse_headers upstream routes tb table index b q
    (captures_read (table =? matched)%nat b (length captured - own) captured found)) as (response & call & E & Hans).
  - by rewrite Hr.
  - done.
  - pose proof (tk_bindings _ Htok) as HF. rewrite Forall_forall in HF. apply HF. by eapply list_elem_of_lookup_2.
  - intros captures. unfold captures_read. destruct ((table =? matched)%nat && _) eqn:Eo.
    + intros [= <-]. apply andb_true_iff in Eo as [->%Nat.eqb_eq _]. unfold own in Hcap. by rewrite Hg in Hcap.
    + destruct (decode_captures _ _ found) as [decoded|] eqn:Ed; [|done]. intros [= <-].
      rewrite length_app, (decoded_length _ _ _ _ Ed), Hfl, Hlen. lia.
  - eexists response, call. split; [exact E|]. split; [by exists tb, b|]. by exists tb, b, found.
Qed.

Lemma direct_dispatched (routes : Routes (Rpc := Rpc)) (matched : nat) (q : TRequest Conn) (choice : Choice) (found captured : params) :
  q_chosen q = Some choice ->
  route_at (p_path (get_table routes matched)) (uri_path (q_uri q)) = Some found ->
  length found = length (p_captures (get_table routes matched)) ->
  decode_captures [] 0 found = Ok captured -> q_captures q = Ok captured ->
  serve_chosen forwarded random json_headers sse_headers upstream routes q =
  dispatch forwarded random json_headers sse_headers upstream routes empty_last matched q.
Proof.
  intros Hc Hf Hlen Hd Hq. unfold serve_chosen, dispatch. rewrite Hc, Hq. cbn [default from_option id]. destruct choice as [table index|t allow|]; try done. cbn [id].
  destruct (multi_segment_of (get_table routes table) index) as [multi_segment|]; [|done]. cbn [mbind option_bind].
  destruct (negb _ || negb _) eqn:Eo.
  - rewrite (decoded_length _ _ _ _ Hd), Hlen, leb_correct by lia. cbn [mbind option_bind]. by rewrite Nat.sub_diag.
  - apply orb_false_iff in Eo as [E1%negb_false_iff%Nat.eqb_eq E2%negb_false_iff%bool_decide_eq_true]. subst table multi_segment.
    unfold capture. rewrite Hf. cbn [mbind option_bind]. by rewrite Hd.
Qed.
End Program.

(** * Witnesses *)

(** Rules and books, each of one text. *)
Module Model.
Inductive Type_ := TRule | TBook.
Inductive Field := FGet | FId.
Abbreviation Message := (Type_ * text)%type.

#[export] Instance type_eq : EqDecision Type_.
Proof. solve_decision. Defined.

Definition owner (f : Field) : Type_ := match f with FGet => TRule | FId => TBook end.
Definition field (d : Type_) : Field := match d with TRule => FGet | TBook => FId end.
Definition name (f : Field) : text := match f with FGet => txt "get" | FId => txt "id" end.
Definition by_name (d : Type_) (n : text) : option Field := if decide (name (field d) = n) then Some (field d) else None.
Definition owned (m : Message) (f : Field) : bool := bool_decide (owner f = m.1).
Definition has (m : Message) (f : Field) : bool := owned m f && negb (bool_decide (m.2 = [])).
Definition get (m : Message) (f : Field) : PValue_ Message := if owned m f then PString m.2 else PBool false.
Definition set (m : Message) (f : Field) (v : PValue_ Message) : Message :=
  match v with PString s => if owned m f then (m.1, s) else m | _ => m end.
Definition set_fields (m : Message) : list (Field * PValue_ Message) := match m.2 with [] => [] | s => [(field m.1, PString s)] end.

#[local] Instance lib : ProstLib := {|
  MessageDescriptor := Type_; FieldDescriptor := Field; EnumDescriptor := Empty_set; DynamicMessage := Message;
  md_full_name d := match d with TRule => txt "google.api.HttpRule" | TBook => txt "demo.Book" end;
  md_fields d := [field d]; md_extensions _ := []; md_field_by_name := by_name; md_field_by_json_name := by_name;
  fd_name := name; fd_full_name := name; fd_json_name := name; fd_number _ := 1; fd_kind _ := KString;
  fd_is_list _ := false; fd_is_map _ := false; fd_required _ := false; fd_oneof _ := None; ed_value_by_name _ _ := None;
  dm_new d := (d, []); dm_descriptor m := m.1; dm_has := has; dm_get := get; dm_set := set;
  dm_take m f := (if has m f then Some (get m f) else None, if owned m f then (m.1, []) else m);
  dm_fields := set_fields; dm_extensions _ := []; dm_depth _ := 0%nat;
|}.

Lemma owned_field (d : Type_) (f : Field) : f ∈ [field d] <-> f = field d.
Proof. apply list_elem_of_singleton. Qed.

Lemma fields_plain (m : Message) (f : Field) (v : PValue_ Message) (m' : Message) :
  (f, v) ∈ set_fields m -> m' ∈ @messages_of lib v -> False.
Proof. unfold set_fields. destruct m.2; [by intros ?%elem_of_nil|]. intros [= -> ->]%list_elem_of_singleton. by intros ?%elem_of_nil. Qed.

(** A field is its type's only one. *)
Ltac alone := repeat match goal with
  | H : _ ∈ @md_fields lib _ |- _ => apply owned_field in H; subst
  | H : @field_valid lib _ _ |- _ => destruct H as [_ H]; cbn in H
  end.

#[local] Instance laws : ProstLaws lib.
Proof.
  split.
  - intros d n f. cbn. unfold by_name. case_decide; [|done]. by intros [= <-].
  - intros d n f. cbn. unfold by_name. case_decide; [|done]. intros [= <-]. by left.
  - intros d n f. cbn. unfold by_name. case_decide; [|done]. intros [= <-]. unfold field_of. cbn. unfold by_name.
    by rewrite decide_True.
  - intros d f _. destruct f; apply (bool_decide_eq_true_1 _); vm_compute; reflexivity.
  - intros d f g Hf Hg _. by alone.
  - done.
  - intros [] []; done.
  - intros [[] s] [] []; done.
  - intros [[] s] f v Hf Hv; alone; by destruct v.
  - intros [[] s] f v g Hf Hg _ Hne; by alone.
  - intros [[] s] f v Hf _ Hv; alone; destruct v as [| | | | | | |[]| | | | |]; try done; by (left; reflexivity) || right.
  - intros [[] s] f v g Hf Hg _ Hne; by alone.
  - done.
  - intros [[] s] []; done.
  - intros [[] s] f g Hf Hg Hne; by alone.
  - done.
  - intros [[] s] f Hf _ _; by alone.
  - done.
  - done.
  - intros [d []] f v; cbn; unfold set_fields; cbn; [by intros ?%elem_of_nil|].
    intros H%list_elem_of_singleton. injection H as -> _. by left.
  - intros m f v m' H1 H2. destruct (fields_plain m f v m' H1 H2).
  - intros m v m' H. by apply elem_of_nil in H.
  - intros m f v m' H1 H2. destruct (fields_plain m f v m' H1 H2).
  - intros m v m' H. by apply elem_of_nil in H.
Qed.
End Model.

Module Demo.
Import Model Http.Model PercentModel Matchit Metadata.Demo.
#[local] Existing Instances Model.lib Model.laws.

#[local] Instance body_lib : BodyLib := {|
  Read := unit;
  reader := {| St := unit; nullable _ := None; ask _ := AForward (fun _ => Err (txt "not read")); on_key _ _ := Ok tt;
               on_value _ _ _ := Ok tt; at_end _ := Ok tt; not_a_map _ _ := [] |};
  start_of _ := tt; message_read _ := Model.lib.(dm_new) TBook; message_from_str _ _ := Err (txt "not read");
  json_doc _ := Err (txt "expected value"); json_value _ := None; json_write _ := Ok tt; form_parse _ := [];
  base64_standard _ := Err OtherBase64; base64_url_safe _ := Err OtherBase64; base64_display _ := [];
|}.

#[local] Instance body_laws : BodyLaws body_lib.
Proof. split; [done|]. by intros d []. Qed.

(** [get: "/v1/books/{id}"]. *)
#[local] Instance services : ServiceLib := {|
  DescriptorPool := unit; ServiceDescriptor := unit; MethodDescriptor := unit; ExtensionDescriptor := unit;
  pool_services _ := [tt]; pool_service_by_name _ _ := Some tt; pool_extension_by_name _ _ := Some tt;
  pool_message_by_name _ _ := None; pool_all_messages _ := [TRule; TBook]; sd_full_name _ := txt "demo.Books";
  sd_methods _ := [tt]; mt_name _ := txt "GetBook"; mt_parent _ := tt; mt_input _ := TBook; mt_output _ := TBook;
  mt_client_streaming _ := false; mt_server_streaming _ := false; mt_options _ := (TRule, txt "/v1/books/{id}");
  dm_has_extension _ _ := true; dm_get_extension m _ := PMessage m;
|}.

#[local] Instance details : DetailLib := {|
  dm_put := Model.set; dm_clear m _ := (m.1, []); ext_values _ := []; ext_kind _ := KBool; ext_put m _ _ := m; ext_clear m _ := m;
  dm_decode _ _ := None; dm_encode _ := []; dm_json _ := None; status_decode _ := None; base64_encode b := b; dm_weight _ := 1%nat;
|}.

Lemma set_field (m : Message) (g : Field) (w : PValue_ Message) :
  (g, w) ∈ set_fields m <-> g = field m.1 /\ w = PString m.2 /\ m.2 <> [].
Proof.
  unfold set_fields. destruct m.2; [split; [by intros ?%elem_of_nil|by intros (_ & _ & [])]|].
  rewrite list_elem_of_singleton. split; [intros H; by injection H as -> ->|by intros (-> & -> & _)].
Qed.

Lemma set_apart (m : Message) (f : Field) (v : PValue_ Message) : f <> field m.1 -> set m f v = m.
Proof. intros Hf. destruct m as [[] s], f, v; done. Qed.

Lemma field_cases (m : Message) (f : Field) : f = field m.1 \/ f <> field m.1.
Proof. destruct m as [[] s], f; (by left) || by right. Qed.

#[local] Instance detail_laws : DetailLaws details.
Proof.
  split; try done.
  - intros m f v g w H. destruct (field_cases m f) as [->|Hf].
    + left. cbn in H. apply set_field in H as (Hg & -> & _). destruct m as [[] s], v; (split; [done|]); by intros x ?%elem_of_nil.
    + right. cbn in H. rewrite set_apart in H by done. split; [|done]. apply set_field in H as (-> & _). congruence.
  - intros m f v (-> & -> & _)%set_field. by destruct m as [[] s].
  - intros m f v. by destruct m as [[] s], f, v.
  - intros * H. by apply elem_of_nil in H.
  - intros * H. by apply elem_of_nil in H.
  - intros * H. by apply elem_of_nil in H.
  - intros m f v m' H Hm'. destruct (fields_plain m f v m' H Hm').
  - intros * H. by apply elem_of_nil in H.
  - intros m f v m' H Hm'. destruct (fields_plain m f v m' H Hm').
  - intros * H. by apply elem_of_nil in H.
  - intros [[] s]; vm_compute; constructor.
  - intros [[] s] b; by intros H.
Qed.

#[local] Instance written : ResponseLib := {|
  dm_to_text m := Ok m.2; dm_to_value m := Ok (Str m.2); value_to_text _ := txt "{}"; header_value s := Some s;
  sse_event _ data := data;
|}.
#[local] Instance uri : UriLib := {| path_and_query s := Some s |}.
#[local] Instance globs : GlobLib := {| Glob := text; glob_build p := Ok p; glob_match g p := bool_decide (g = p) |}.

(** A router that captures the last segment for each variable. *)
#[local] Instance router_at : RouteLib := {|
  route_at p path := if path_matches false p path then Some (replicate (braces p) (txt "id", default [] (last (split (ch "/") path)))) else None;
|}.

#[local] Instance router_at_laws : RouteLaws false router_at (fun p => mountable insert_error p = Ok tt).
Proof. split. intros p path _ H. cbn. rewrite H. eexists. split; [done|]. by rewrite length_replicate. Qed.

Definition json_headers : HeaderMap := hm_insert hm_empty CONTENT_TYPE APPLICATION_JSON.

(** An upstream that answers the book it is asked for. *)
Definition echo (entry : RouteEntry (Rpc := Rpc)) (call : Call unit) : Upstream :=
  Accepted hm_empty (mkStreaming [Ok (ct_message call)] (Ok None)).

Definition target (s : string) : Uri := mkUri (txt s) None (Some (txt s)).
Definition get_book (chosen : option Choice) : TRequest unit :=
  mkRequest GET (target "/v1/books/7") hm_empty (Ok []) chosen None (Some tt) None (Ok [(txt "id", txt "7")]).

Definition pool : DescriptorPool := tt.
Abbreviation tables := (path_tables id pool [] transcode_options_default).
Abbreviation routes := (routes_new tables).

Lemma book_url : url_table false tables (txt "/v1/books/7") 0.
Proof.
  assert (H : option_map (fun t => path_matches false (p_path t) (txt "/v1/books/7")) (tables !! 0%nat) = Some true)
    by (vm_compute; reflexivity).
  destruct (tables !! 0%nat) as [t|] eqn:E; [|done]. exists t. by injection H as ->.
Qed.

Lemma book_captured (captured : params) :
  q_captures (get_book None) = Ok captured -> (length (p_captures (get_table routes 0)) <= length captured)%nat.
Proof.
  intros H. injection H as <-. assert (E : length (p_captures (get_table routes 0)) = 1%nat) by (vm_compute; reflexivity).
  by rewrite E.
Qed.

Definition book_answer (response : Response) (call : option (Call unit)) : Prop :=
  exists call', call = Some call' /\ dm_get (ct_message call') FId = PString (txt "7") /\ rs_body response = BBytes (txt "7").

Lemma book_answered (response : Response) (call : option (Call unit)) :
  dispatch (Listed []) (None, None) json_headers json_headers echo routes false 0 (get_book None) = Some (response, call) ->
  book_answer response call.
Proof.
  assert (Hc : match dispatch (Listed []) (None, None) json_headers json_headers echo routes false 0 (get_book None) with
    | Some (response, Some call) => dm_get (ct_message call) FId = PString (txt "7") /\ rs_body response = BBytes (txt "7")
    | _ => False
    end) by (vm_compute; by split).
  intros E. rewrite E in Hc. destruct call as [call|]; [|destruct Hc]. exists call. split; [reflexivity|exact Hc].
Qed.

Lemma request_served_witness :
  exists response call,
    dispatch (Listed []) (None, None) json_headers json_headers echo routes false 0 (get_book None) = Some (response, call) /\
    book_answer response call.
Proof.
  destruct (request_served id false (Listed []) (None, None) json_headers json_headers echo pool [] transcode_options_default 0
    (get_book None) book_url (or_introl eq_refl) book_captured) as (response & call & E & _).
  exists response, call. split; [exact E|]. exact (book_answered response call E).
Defined.

Definition direct : TRequest unit := get_book (Some (Route 0 0)).

Lemma direct_found : route_at (p_path (get_table routes 0)) (uri_path (q_uri direct)) = Some [(txt "id", txt "7")].
Proof. vm_compute. reflexivity. Qed.
Lemma direct_length : length [(txt "id", txt "7")] = length (p_captures (get_table routes 0)).
Proof. vm_compute. reflexivity. Qed.
Lemma direct_decoded : decode_captures [] 0 [(txt "id", txt "7")] = Ok [(txt "id", txt "7")].
Proof. vm_compute. reflexivity. Qed.
Example direct_served :
  match serve (Listed []) (None, None) json_headers json_headers echo routes direct with
  | Some (response, Some _) => hm_get_all (rs_headers response) CONTENT_LENGTH = [txt "1"]
  | _ => False
  end.
Proof. vm_compute. reflexivity. Qed.


Definition rpc : Rpc := mkRpc (tt : MethodDescriptor) false (Parsed MapNone) (RJson None) None true false [].

Lemma message_typed_witness :
  decode_request rpc hm_empty [(txt "id", txt "7")] None [] = Some (Ok (TBook, txt "7")) /\
  dm_descriptor ((TBook, txt "7") : DynamicMessage) = TBook.
Proof.
  assert (E : decode_request rpc hm_empty [(txt "id", txt "7")] None [] = Some (Ok (TBook, txt "7"))) by (vm_compute; reflexivity).
  split; [exact E|]. exact (message_typed rpc hm_empty [(txt "id", txt "7")] None [] (TBook, txt "7") E).
Defined.

(** The book of a GET, five bytes long. *)
Definition title : Upstream := Accepted hm_empty (mkStreaming [Ok ((TBook, txt "Emile") : DynamicMessage)] (Ok None)).

Lemma title_answered :
  exists response, answer_call json_headers json_headers title rpc false = Some response /\
    rs_body response = BBytes (txt "Emile") /\ rs_status response = 200.
Proof.
  assert (H : match answer_call json_headers json_headers title rpc false with
    | Some response => rs_body response = BBytes (txt "Emile") /\ rs_status response = 200
    | None => False
    end) by (vm_compute; by split).
  destruct (answer_call _ _ _ _ _) as [response|]; [|destruct H]. by exists response.
Qed.

Lemma no_length : hm_get_all json_headers CONTENT_LENGTH = [].
Proof. vm_compute. reflexivity. Qed.

Lemma answer_framed_witness :
  exists response, answer_call json_headers json_headers title rpc false = Some response /\
    hm_get_all (rs_headers (finish HEAD response)) CONTENT_LENGTH = [txt "5"] /\ rs_body (finish HEAD response) = BBytes [].
Proof.
  destruct title_answered as (response & E & Hb & Hs). exists response. split; [exact E|].
  destruct (answer_framed json_headers json_headers HEAD title rpc false response no_length no_length E) as (_ & Hbody & Hh).
  split; [rewrite Hh, Hb, Hs; reflexivity|]. rewrite Hbody. reflexivity.
Defined.
End Demo.

(** An upload, its file sent raw. *)
Module RawDemo.
Import Protobuf.Model Request.Model Http.Model.
#[local] Existing Instances Protobuf.Model.lib Protobuf.Model.laws Request.Model.body_lib Request.Model.body_laws.

#[local] Instance services : ServiceLib := {|
  DescriptorPool := unit; ServiceDescriptor := unit; MethodDescriptor := unit; ExtensionDescriptor := unit;
  pool_services _ := []; pool_service_by_name _ _ := None; pool_extension_by_name _ _ := None;
  pool_message_by_name _ _ := None; pool_all_messages _ := []; sd_full_name _ := []; sd_methods _ := [];
  mt_name _ := []; mt_parent _ := tt; mt_input _ := TUpload; mt_output _ := TUpload;
  mt_client_streaming _ := false; mt_server_streaming _ := false; mt_options _ := MBody [] [];
  dm_has_extension _ _ := false; dm_get_extension _ _ := PBool false;
|}.

Definition upload : Rpc :=
  mkRpc (tt : MethodDescriptor) false (RawField (MapField (txt "file")) FFile TBody) (RJson None) None true false [].
Definition csv : HeaderMap := hm_insert hm_empty CONTENT_TYPE (txt "text/csv").

Lemma raw_body_received_witness :
  exists content_type m0 : _, request_content_type csv = Ok content_type /\
    take_raw (MUpload (txt "a") (Some (txt "text/csv", txt "1,2"))) [FFile : FieldDescriptor] = mkRaw content_type (txt "1,2") /\
    build_message (TUpload : MessageDescriptor) (MapField (txt "file")) Absent [(txt "name", txt "a")] None = Some (Ok m0) /\
    forall g, g ∈ md_fields (TUpload : MessageDescriptor) -> g <> (FFile : FieldDescriptor) -> ~ rivals (FFile : FieldDescriptor) g ->
      dm_get (MUpload (txt "a") (Some (txt "text/csv", txt "1,2"))) g = dm_get m0 g.
Proof.
  refine (raw_body_received upload (MapField (txt "file")) csv [(txt "name", txt "a")] None (txt "1,2")
    (MUpload (txt "a") (Some (txt "text/csv", txt "1,2"))) ltac:(vm_compute; reflexivity) ltac:(vm_compute; reflexivity) _ eq_refl).
  intros ct data _ (n & fs & H & _). discriminate H.
Defined.
End RawDemo.
