(* ===== verification/Config.v ===== *)
(** * Configuration ([src/config.rs])

    The sections of the configuration the assembly reads with their defaults, the
    settings of the transcoding that live beside it, reading one YAML text as them,
    and the checks across sections. What [serde] and the YAML parser make of a text
    is an argument. *)

From S2P Require Import Prelude Rust Http Net ClientAddress Path Status ShieldRules Shield Guard Auth ClaimsCache Cors Protobuf Rule Details Mount.

Definition LF : ascii := of_code 10.
Definition CR : ascii := of_code 13.

(** [str::lines]: the last line ends with the text. *)
Fixpoint lines_of (pieces : list text) : list text :=
  match pieces with
  | [] => []
  | [rest] => match rest with [] => [] | _ => [rest] end
  | line :: pieces => default line (strip_suffix [CR] line) :: lines_of pieces
  end.
Definition lines (s : text) : list text := lines_of (split LF s).

(** ** The sections *)

Record UpstreamConfig := mkUpstream { uc_default : text }.

Inductive DescriptorSource :=
| DFile (file : text)
| DReflection (reflection : text)
| DEmbedded (bytes : text).

Inductive ClientAuth := Required | Optional.

Record ListenTlsConfig := mkListenTls {
  tl_cert_file : text;
  tl_key_file : text;
  tl_client_ca_file : option text;
  tl_client_auth : option ClientAuth;
  tl_handshake_timeout_secs : Z;
}.

Record ListenConfig := mkListen {
  ln_http : text;
  ln_max_connections : option Z;
  ln_tls : option ListenTlsConfig;
  ln_idle_timeout_secs : Z;
  ln_header_read_timeout_secs : Z;
  ln_drain_timeout_secs : Z;
}.
Definition listen_default : ListenConfig := mkListen (txt "0.0.0.0:8080") None None 60 30 25.
Definition listen_tls_new (cert_file key_file : text) : ListenTlsConfig := mkListenTls cert_file key_file None None 10.

Record HealthConfig := mkHealth {
  hc_enabled : bool;
  hc_path : text;
  hc_live_path : text;
  hc_ready_path : text;
  hc_startup_path : text;
}.
Definition health_default : HealthConfig :=
  mkHealth true (txt "/health") (txt "/health/live") (txt "/health/ready") (txt "/health/startup").

Record MetricsConfig := mkMetrics { mc_enabled : bool; mc_path : text }.
Definition metrics_default : MetricsConfig := mkMetrics true (txt "/metrics").

Record MaintenanceConfig := mkMaintenanceConfig {
  mn_enabled : bool;
  mn_exempt_paths : list text;
  mn_message : text;
  mn_scope : option ScopeConfig;
}.
Definition maintenance_default : MaintenanceConfig :=
  mkMaintenanceConfig false [txt "/health/**"; txt "/.well-known/**"; txt "/metrics"; txt "/auth/verify"]
    (txt "Service is under maintenance. Please try again later.") None.

Record OpenApiConfig := mkOpenApi {
  oa_enabled : bool;
  oa_path : text;
  oa_docs_path : text;
  oa_title : option text;
  oa_version : option text;
}.

Record SigningKeyConfig := mkSigningKey { sk_algorithm : text; sk_public_key_pem_file : text }.
Record OidcDiscoveryConfig := mkOidcConfig {
  oc_enabled : bool;
  oc_issuer : text;
  oc_authorization_endpoint : option text;
  oc_token_endpoint : option text;
  oc_userinfo_endpoint : option text;
  oc_jwks_uri : option text;
  oc_signing_key : option SigningKeyConfig;
}.

Record ForwardAuthConfig := mkForwardAuth {
  fa_enabled : bool;
  fa_path : text;
  fa_policies : list RoutePolicyConfig;
  fa_login_url : option text;
}.
Record JwtConfig := mkJwt {
  jw_jwks_uri : option text;
  jw_jwks_max_age_secs : Z;
  jw_issuer : option text;
  jw_audience : option text;
  jw_public_key_pem_file : option text;
  jw_claims_headers : list (text * text);
  jw_roles_claim : text;
  jw_cache : JwtCacheConfig;
}.
Record AuthzConfig := mkAuthzConfig {
  zc_enabled : bool;
  zc_endpoint : text;
  zc_timeout_ms : Z;
  zc_failure_mode_allow : bool;
  zc_scope : option ScopeConfig;
}.
Record AuthConfig := mkAuthConfig {
  ac_mode : text;
  ac_jwt : option JwtConfig;
  ac_forward_auth : option ForwardAuthConfig;
  ac_authz : option AuthzConfig;
  ac_scope : option ScopeConfig;
}.

Record ConcurrencyConfig := mkConcurrency { cn_max_in_flight : Z; cn_scope : option ScopeConfig }.

Definition default_forwarded_headers : list text :=
  [txt "authorization"; txt "dpop"; txt "x-request-id"; txt "x-forwarded-proto"; txt "accept-language";
   txt "user-agent"; txt "idempotency-key"].

Definition cors_default : CorsConfig := mkCorsConfig [] [] None true.

Section Proxy.
Context {FL : FleetLib}.

(** The sections the proxy is assembled from; a [shield] section's scope is kept
    beside what [Shield::build] reads of it. *)
Record ProxyConfig := mkProxyConfig {
  pc_upstream : option UpstreamConfig;
  pc_descriptors : list DescriptorSource;
  pc_listen : ListenConfig;
  pc_service_name : text;
  pc_aliases : list AliasConfig;
  pc_openapi : option OpenApiConfig;
  pc_auth : option AuthConfig;
  pc_shield : option (ShieldConfig * option ScopeConfig);
  pc_oidc_discovery : option OidcDiscoveryConfig;
  pc_health : HealthConfig;
  pc_metrics : MetricsConfig;
  pc_maintenance : MaintenanceConfig;
  pc_cors : CorsConfig;
  pc_forwarded_headers : list text;
  pc_sse_keep_alive_secs : Z;
  pc_concurrency : option ConcurrencyConfig;
  pc_grpc_web_translate : bool;
  pc_transcode_only : list text;
  pc_client_address : ClientAddressConfig;
}.

Definition forward_default : ForwardConfig := mkForwardConfig XVerified (Some (txt "x-real-ip")) None.
Definition client_address_default : ClientAddressConfig := mkAddressConfig [] FXForwardedFor false forward_default.

Definition proxy_default : ProxyConfig :=
  mkProxyConfig None [] listen_default (txt "structured-proxy") [] None None None None health_default metrics_default
    maintenance_default cors_default default_forwarded_headers 15 None false [] client_address_default.
End Proxy.

(** ** Keys of rate rules

    What [KeySourceConfig] makes of the fields given. *)

Inductive key_error :=
| TakesNoFields
| TakesName
| TakesClaim
| MissingField (name : text)
| UnknownVariant (kind : text).

Definition key_source_of (kind : text) (name claim : option text) : result KeySource key_error :=
  if decide (kind = txt "ip") then
    match name, claim with None, None => Ok KIp | _, _ => Err TakesNoFields end
  else if decide (kind = txt "header") then
    match claim with
    | Some _ => Err TakesName
    | None => match name with Some name => Ok (KHeader name) | None => Err (MissingField (txt "name")) end
    end
  else if decide (kind = txt "jwt_claim") then
    match name with
    | Some _ => Err TakesClaim
    | None => match claim with Some claim => Ok (KJwtClaim claim) | None => Err (MissingField (txt "claim")) end
    end
  else Err (UnknownVariant kind).

(** ** The settings of the transcoding beside the configuration *)

Record ErrorDetailsRouteFileConfig := mkDetailsRoute {
  dr_pattern : text;
  dr_enabled : option bool;
  dr_opaque : option bool;
}.
Record ErrorDetailsFileConfig := mkDetailsFile {
  df_enabled : bool;
  df_opaque : bool;
  df_routes : list ErrorDetailsRouteFileConfig;
}.
Record TranscodeFileConfig := mkTranscodeFile {
  tf_error_details : option ErrorDetailsFileConfig;
  tf_ndjson_envelope : bool;
  tf_response_headers : option (list text);
}.
Definition transcode_file_default : TranscodeFileConfig := mkTranscodeFile None false None.

Inductive options_error :=
| DeniedName (name : text)
| NoSwitch (pattern : text)
| DetailsRoute (e : pattern_error).

Section Options.
Context {HT : HttpLib} {GL : GlobLib}.

Definition denied_name (name : text) : result text options_error :=
  match header_name name with Some n => Ok n | None => Err (DeniedName name) end.

(** [try_fold] of the rules. *)
Definition add_rule (policy : ErrorDetailsPolicy) (rule : ErrorDetailsRouteFileConfig)
    : result ErrorDetailsPolicy options_error :=
  match dr_enabled rule, dr_opaque rule with
  | None, None => Err (NoSwitch (dr_pattern rule))
  | _, _ =>
      match policy_rule policy (dr_pattern rule) (dr_enabled rule) (dr_opaque rule) with
      | Ok policy => Ok policy
      | Err e => Err (DetailsRoute e)
      end
  end.

Fixpoint add_rules (policy : ErrorDetailsPolicy) (rules : list ErrorDetailsRouteFileConfig)
    : result ErrorDetailsPolicy options_error :=
  match rules with
  | [] => Ok policy
  | rule :: rules => let? policy := add_rule policy rule in add_rules policy rules
  end.

Definition details_base (cfg : ErrorDetailsFileConfig) : ErrorDetailsPolicy :=
  with_opaque_details (if df_enabled cfg then policy_default else policy_disabled) (df_opaque cfg).

(** [TranscodeFileConfig::options]. *)
Definition file_options (c : TranscodeFileConfig) : result TranscodeOptions options_error :=
  let options := mkOptions policy_default (tf_ndjson_envelope c) [] (mkSelection []) in
  let? options :=
    match tf_response_headers c with
    | None => Ok options
    | Some deny =>
        let? denied := collect_results denied_name deny in
        Ok (mkOptions (op_error_details options) (op_ndjson_envelope options) denied (op_selection options))
    end in
  match tf_error_details c with
  | None => Ok options
  | Some cfg =>
      let? policy := add_rules (details_base cfg) (df_routes cfg) in
      Ok (mkOptions policy (op_ndjson_envelope options) (op_denied_response_headers options) (op_selection options))
  end.
End Options.

(** ** Reading a text *)

(** [has_no_node]: every line is blank, a comment, a directive or a document marker. *)
Definition no_node_line (line : text) : bool :=
  let line := trim line in
  let rest :=
    trim_start match strip_prefix (txt "---") line with
               | Some rest => rest
               | None => default line (strip_prefix (txt "...") line)
               end in
  bool_decide (rest = []) || starts_with (txt "#") rest || starts_with (txt "%") line.

Definition has_no_node (yaml : text) : bool := forallb no_node_line (lines yaml).

Section Yaml.
(** What the YAML parser and [serde] make of a text as a [T]; whether it reads as
    one null document. *)
Context {T : Type} (parse_document : text -> result T text) (null_document : text -> bool).

Definition is_one_empty_document (yaml : text) : bool := has_no_node yaml && null_document yaml.

Definition parse_yaml (yaml : text) : result T text :=
  match parse_document yaml with
  | Err refused =>
      if is_one_empty_document yaml
      then match parse_document (txt "{}") with Ok t => Ok t | Err _ => Err refused end
      else Err refused
  | read => read
  end.
End Yaml.

Definition KNOWN_TOP_LEVEL_KEYS : list text :=
  [txt "upstream"; txt "descriptors"; txt "listen"; txt "service"; txt "aliases"; txt "openapi"; txt "auth";
   txt "shield"; txt "oidc_discovery"; txt "health"; txt "metrics"; txt "maintenance"; txt "cors"; txt "logging";
   txt "metrics_classes"; txt "forwarded_headers"; txt "streaming"; txt "error_details"; txt "response_headers";
   txt "runtime"; txt "concurrency"; txt "grpc_web"; txt "transcode"; txt "client_address"].
Definition KNOWN_STREAMING_KEYS : list text := [txt "sse_keep_alive_secs"; txt "ndjson_envelope"].

(** A map as the deserializer hands it over: the entries in order, a key that is text
    or another scalar, and the keys of a value that is itself a map or null. *)
Abbreviation yaml_map := (list (option text * option (list (option text)))).

Record ConfigKeys := mkKeys { ck_top : list text; ck_streaming : list text }.

(** [visit_map] of [ConfigKeys]; [None] is a deserialization error. *)
Fixpoint config_keys (keys : ConfigKeys) (map : yaml_map) : option ConfigKeys :=
  match map with
  | [] => Some keys
  | (None, _) :: map => config_keys keys map
  | (Some key, value) :: map =>
      if decide (key = txt "streaming") then
        let! inner := value in config_keys (mkKeys (ck_top keys ++ [key]) (omap id inner)) map
      else config_keys (mkKeys (ck_top keys ++ [key]) (ck_streaming keys)) map
  end.

(** [unknown_config_keys] of the map the text reads as, if it reads as one. *)
Definition unknown_config_keys (map : option yaml_map) : list text :=
  match (let! map := map in config_keys (mkKeys [] []) map) with
  | None => []
  | Some keys =>
      filter (fun key => key ∉ KNOWN_TOP_LEVEL_KEYS) (ck_top keys) ++
      ((fun key => txt "streaming." ++ key) <$> filter (fun key => key ∉ KNOWN_STREAMING_KEYS) (ck_streaming keys))
  end.

(** ** The checks across sections *)

Inductive config_error :=
| BadYaml (e : text)
| MovedTrustedProxies
| ZeroKeepAlive
| TranslateWithoutCors
| BadClientAddress (e : build_error)
| EdgeRelative (label path : text)
| EdgeDuplicate (label path : text).

Section Validate.
Context {HT : HttpLib} {N : IpNetLib} {FL : FleetLib}.

(** The built-in endpoints, labelled, in the order they are checked. *)
Definition edge_endpoints (c : ProxyConfig) : list (text * text) :=
  (if hc_enabled (pc_health c) then
     [(txt "health.path", hc_path (pc_health c)); (txt "health.live_path", hc_live_path (pc_health c));
      (txt "health.ready_path", hc_ready_path (pc_health c)); (txt "health.startup_path", hc_startup_path (pc_health c))]
   else []) ++
  (if mc_enabled (pc_metrics c) then [(txt "metrics.path", mc_path (pc_metrics c))] else []) ++
  match pc_openapi c with
  | Some o => if oa_enabled o then [(txt "openapi.path", oa_path o); (txt "openapi.docs_path", oa_docs_path o)] else []
  | None => []
  end.

Fixpoint check_edges (seen : gset text) (edges : list (text * text)) : result unit config_error :=
  match edges with
  | [] => Ok tt
  | (label, path) :: edges =>
      if negb (starts_with (txt "/") path) then Err (EdgeRelative label path)
      else if decide (path ∈ seen) then Err (EdgeDuplicate label path)
      else check_edges ({[path]} ∪ seen) edges
  end.

Definition validate_edge_paths (c : ProxyConfig) : result unit config_error := check_edges ∅ (edge_endpoints c).

(** [ProxyConfig::validate]; [Ok None] is the panic of [Resolver::build]. *)
Definition validate (c : ProxyConfig) : result (option unit) config_error :=
  if pc_sse_keep_alive_secs c =? 0 then Err ZeroKeepAlive
  else if pc_grpc_web_translate c && negb (cc_grpc_web (pc_cors c)) then Err TranslateWithoutCors
  else match resolver_build (pc_client_address c) with
       | Err e => Err (BadClientAddress e)
       | Ok None => Ok None
       | Ok (Some _) => let? _ := validate_edge_paths c in Ok (Some tt)
       end.

(** What a text reads as: the configuration, the settings beside it, the setting that
    moved. *)
Context (parse_config : text -> result ProxyConfig text) (parse_file : text -> result TranscodeFileConfig text)
  (parse_moved : text -> result (option bool) text) (null_document : text -> bool).

Definition moved_setting (yaml : text) : bool :=
  match parse_yaml parse_moved null_document yaml with Ok (Some named) => named | _ => false end.

(** [ProxyConfig::from_yaml_str]. *)
Definition config_from_yaml (yaml : text) : result (option ProxyConfig) config_error :=
  match parse_yaml parse_config null_document yaml with
  | Err e => Err (if moved_setting yaml then MovedTrustedProxies else BadYaml e)
  | Ok config => let? valid := validate config in Ok ((fun _ => config) <$> valid)
  end.

Inductive server_error :=
| BadConfig (e : config_error)
| BadTranscoding (e : options_error).

Context {GL : GlobLib}.

(** [ProxyServer::from_yaml_str]: the configuration and the options of the transcoding. *)
Definition server_from_yaml (yaml : text) : result (option (ProxyConfig * TranscodeOptions)) server_error :=
  match config_from_yaml yaml with
  | Err e => Err (BadConfig e)
  | Ok None => Ok None
  | Ok (Some config) =>
      match parse_yaml parse_file null_document yaml with
      | Err e => Err (BadConfig (BadYaml e))
      | Ok settings =>
          match file_options settings with
          | Err e => Err (BadTranscoding e)
          | Ok options => Ok (Some (config, options))
          end
      end
  end.
End Validate.

(** * Laws *)

Section Laws.
Context {HT : HttpLib} {N : IpNetLib} {FL : FleetLib} {GL : GlobLib}.

Lemma check_edges_ok (seen : gset text) (edges : list (text * text)) :
  check_edges seen edges = Ok tt <->
  Forall (fun path => starts_with (txt "/") path = true /\ path ∉ seen) edges.*2 /\ NoDup edges.*2.
Proof.
  revert seen. induction edges as [|[label path] edges IH]; intros seen; cbn [check_edges fmap list_fmap snd].
  { split; [|done]. intros _. split; constructor. }
  rewrite Forall_cons, NoDup_cons. destruct (starts_with _ path); cbn [negb]; [|naive_solver].
  destruct (decide (path ∈ seen)); [naive_solver|]. rewrite IH, !Forall_forall. set_solver.
Qed.


(** A text read as the defaults holds no node. *)
Lemma parse_yaml_read {T} (parse_document : text -> result T text) (null_document : text -> bool) (yaml : text) (t : T) :
  parse_yaml parse_document null_document yaml = Ok t ->
  parse_document yaml = Ok t \/
  (parse_document (txt "{}") = Ok t /\ null_document yaml = true /\ Forall (fun l => no_node_line l = true) (lines yaml)).
Proof.
  unfold parse_yaml. destruct (parse_document yaml) as [t'|e]; [by left|]. unfold is_one_empty_document.
  destruct (has_no_node yaml) eqn:Hn; [|done]. destruct (null_document yaml); [|done]. cbn [andb].
  intros H. right. destruct (parse_document _); [|done]. split_and!; [done..|].
  apply Forall_forall. intros l Hl. unfold has_no_node in Hn. rewrite forallb_forall in Hn. by apply Hn, list_elem_of_In.
Qed.

(** The rules of a file, as it lists them: the first that matches the route and sets
    the switch decides it. *)
Fixpoint file_switch (rules : list ErrorDetailsRouteFileConfig) (route : text)
    (switch : ErrorDetailsRouteFileConfig -> option bool) : option bool :=
  match rules with
  | [] => None
  | rule :: rules =>
      match switch rule, glob_build (dr_pattern rule) with
      | Some b, Ok g => if glob_match g route then Some b else file_switch rules route switch
      | _, _ => file_switch rules route switch
      end
  end.

(** A compiled rule is the one of the file. *)
Definition compiled (rule : ErrorDetailsRouteFileConfig) (r : RouteRule) : Prop :=
  glob_build (dr_pattern rule) = Ok (rr_matcher r) /\ rr_enabled r = dr_enabled rule /\ rr_opaque r = dr_opaque rule.

Definition sound_rule (rule : ErrorDetailsRouteFileConfig) : Prop :=
  starts_with (txt "/") (dr_pattern rule) = true /\ (dr_enabled rule <> None \/ dr_opaque rule <> None).

Lemma add_rules_ok (policy policy' : ErrorDetailsPolicy) (rules : list ErrorDetailsRouteFileConfig) :
  add_rules policy rules = Ok policy' ->
  Forall sound_rule rules /\ pl_enabled policy' = pl_enabled policy /\ pl_opaque policy' = pl_opaque policy /\
  exists rs, pl_routes policy' = pl_routes policy ++ rs /\ Forall2 compiled rules rs.
Proof.
  revert policy. induction rules as [|rule rules IH]; intros policy; cbn [add_rules].
  { intros [= <-]. split_and!; [constructor|done..|]. exists []. by rewrite app_nil_r. }
  destruct (add_rule policy rule) as [p|e] eqn:Ea; [|done]. intros H%IH. unfold add_rule, policy_rule, path_glob in Ea.
  destruct (starts_with _ (dr_pattern rule)) eqn:Es; cbn [negb] in Ea; [|by destruct (dr_enabled rule), (dr_opaque rule)].
  destruct (glob_build (dr_pattern rule)) as [g|e] eqn:Eg; cbn [result_bind] in Ea; [|by destruct (dr_enabled rule), (dr_opaque rule)].
  assert (p = Status.mkPolicy (pl_enabled policy) (pl_opaque policy)
                (pl_routes policy ++ [mkRouteRule g (dr_enabled rule) (dr_opaque rule)]) /\ sound_rule rule) as [-> Hs].
  { unfold sound_rule. destruct (dr_enabled rule), (dr_opaque rule); naive_solver. }
  destruct H as (HF & -> & -> & rs & E & H2). split_and!; [by constructor|done..|].
  eexists (_ :: rs). rewrite E. cbn [pl_routes]. rewrite <- app_assoc. split; [done|]. by constructor.
Qed.

Lemma switch_of_rules (policy : ErrorDetailsPolicy) (rules : list ErrorDetailsRouteFileConfig) (route : text)
    (switch : RouteRule -> option bool) (file : ErrorDetailsRouteFileConfig -> option bool) :
  Forall2 compiled rules (pl_routes policy) -> (forall rule r, compiled rule r -> switch r = file rule) ->
  policy_decide policy route switch = file_switch rules route file.
Proof.
  intros H2 Hs. unfold policy_decide. induction H2 as [|rule r rules rs Hc _ IH]; [done|].
  cbn [omap list_omap file_switch]. rewrite (Hs _ _ Hc). destruct (file rule) as [b|]; cbn; [|done].
  destruct Hc as (-> & _ & _). by destruct (glob_match _ _).
Qed.

(** The options read from a file are what it says: its envelope switch, its denied headers (all header names, in
    order), and for every route the first rule in file order that matches it and sets a switch decides that switch,
    the section's own setting (details on, opaque ones off without a section) where none does; every rule accepted
    is absolute and sets a switch. *)
Theorem file_options_correct (c : TranscodeFileConfig) (o : TranscodeOptions) (cfg : ErrorDetailsFileConfig) :
  cfg = default (mkDetailsFile true false []) (tf_error_details c) -> file_options c = Ok o ->
  op_ndjson_envelope o = tf_ndjson_envelope c /\
  Forall2 (fun name n => header_name name = Some n) (default [] (tf_response_headers c)) (op_denied_response_headers o) /\
  Forall sound_rule (df_routes cfg) /\
  (forall route,
     enabled_for (op_error_details o) route = default (df_enabled cfg) (file_switch (df_routes cfg) route dr_enabled) /\
     opaque_for (op_error_details o) route = default (df_opaque cfg) (file_switch (df_routes cfg) route dr_opaque)).
Proof.
  intros -> H. unfold file_options in H.
  assert (exists denied, Forall2 (fun name n => header_name name = Some n) (default [] (tf_response_headers c)) denied /\
    match tf_error_details c with
    | None => Ok (mkOptions policy_default (tf_ndjson_envelope c) denied (mkSelection []))
    | Some cfg => let? policy := add_rules (details_base cfg) (df_routes cfg) in
                  Ok (mkOptions policy (tf_ndjson_envelope c) denied (mkSelection []))
    end = Ok o) as (denied & Hd & H').
  { destruct (tf_response_headers c) as [deny|]; cbn [default result_bind] in H |- *.
    - destruct (collect_results denied_name deny) as [denied|] eqn:Ec; [|done]. exists denied. split; [|done].
      clear H. revert denied Ec. induction deny as [|name deny IH]; intros denied; cbn; [intros [= <-]; constructor|].
      unfold denied_name at 1. destruct (header_name name) as [n|] eqn:En; [|done]. cbn.
      destruct (collect_results denied_name deny); [|done]. intros [= <-]. constructor; [done|]. by apply IH.
    - by exists []. }
  clear H. destruct (tf_error_details c) as [cfg|]; cbn [default].
  - destruct (add_rules (details_base cfg) (df_routes cfg)) as [policy|] eqn:Ea; [|done]. injection H' as <-.
    apply add_rules_ok in Ea as (HF & Ee & Eo & rs & Er & H2). cbn [op_ndjson_envelope op_denied_response_headers op_error_details].
    replace (pl_routes (details_base cfg)) with (@nil RouteRule) in Er by (unfold details_base; by destruct (df_enabled cfg)).
    cbn in Er. subst rs. split_and!; [done..|]. intros route. unfold enabled_for, opaque_for.
    rewrite (switch_of_rules _ (df_routes cfg) route rr_enabled dr_enabled), (switch_of_rules _ (df_routes cfg) route rr_opaque dr_opaque)
      by (done || by intros ? ? (? & ? & ?)).
    rewrite Ee, Eo. unfold details_base, id. by destruct (df_enabled cfg) eqn:E.
  - injection H' as <-. by split_and!.
Qed.
End Laws.

(** ** A file *)

Module Demo.
Import Http.Model NetModel Shield.Demo.

Definition config : ProxyConfig := proxy_default.

Lemma default_resolves : exists r, resolver_build (pc_client_address config) = Ok (Some r).
Proof.
  assert (H : match resolver_build (pc_client_address config) with Ok (Some _) => true | _ => false end = true)
    by (vm_compute; reflexivity).
  destruct (resolver_build _) as [[r|]|]; [by exists r|done..].
Qed.


(** Details off, but on under [/v1/public]. *)
Definition file : TranscodeFileConfig :=
  mkTranscodeFile
    (Some (mkDetailsFile false false [mkDetailsRoute (txt "/v1/public") (Some true) None; mkDetailsRoute (txt "/v1/public") (Some false) (Some true)]))
    true (Some [txt "X-Debug"]).

Lemma file_options_correct_witness :
  exists o, file_options file = Ok o /\ op_denied_response_headers o = [txt "x-debug"] /\
    enabled_for (op_error_details o) (txt "/v1/public") = true /\ opaque_for (op_error_details o) (txt "/v1/public") = true /\
    enabled_for (op_error_details o) (txt "/v1/private") = false.
Proof.
  assert (H : match file_options file with Ok o => op_denied_response_headers o = [txt "x-debug"] | Err _ => False end)
    by (vm_compute; reflexivity).
  destruct (file_options file) as [o|] eqn:E; [|done]. exists o. split; [done|]. split; [done|].
  destruct (file_options_correct file o _ eq_refl E) as (_ & _ & _ & Hr).
  destruct (Hr (txt "/v1/public")) as [-> ->]. destruct (Hr (txt "/v1/private")) as [-> _].
  split_and!; vm_compute; reflexivity.
Defined.

(** A comment alone reads as the defaults; a text with a node does not. *)
Example nodeless : has_no_node (txt "# defaults" ++ [LF] ++ txt "--- # nothing" ++ [LF]) = true.
Proof. reflexivity. Qed.
Example with_node : has_no_node (txt "---" ++ [LF] ++ txt "listen: {}") = false.
Proof. reflexivity. Qed.
Example misspelt :
  unknown_config_keys (Some [(Some (txt "listn"), None); (None, None); (Some (txt "streaming"), Some [Some (txt "keep_alive")])])
    = [txt "listn"; txt "streaming.keep_alive"].
Proof. reflexivity. Qed.
End Demo.
