(* ===== verification/Oidc.v ===== *)
(** * The OpenID Connect discovery surface ([src/oidc/mod.rs])

    The metadata document and the JWKS the proxy serves, from the configuration and the
    signing key's file. Reading files, base64 and SHA-256 are arguments. *)

From S2P Require Import Prelude Rust Json ShieldRules Mount Config.

(** [str::split_once] at a text. *)
Fixpoint split_once_at (sep s : text) : option (text * text) :=
  match strip_prefix sep s with
  | Some rest => Some ([], rest)
  | None => match s with
            | [] => None
            | c :: s => '(l, r) ← split_once_at sep s; Some (c :: l, r)
            end
  end.

Definition DISCOVERY_PATH : text := txt "/.well-known/openid-configuration".
Definition DEFAULT_JWKS : text := txt "/.well-known/jwks.json".

(** [jwks_uri_path]. *)
Definition jwks_uri_path (uri : text) : text :=
  match split_once_at (txt "://") uri with
  | Some (_, rest) =>
      match position (fun c => bool_decide (c = ch "/")) rest with
      | Some idx => drop idx rest
      | None => DEFAULT_JWKS
      end
  | None => if starts_with (txt "/") uri then uri else DEFAULT_JWKS
  end.

Definition strings (l : list text) : Value := Array (Str <$> l).

Definition member (name : text) (v : option text) : list (text * Value) :=
  match v with Some v => [(name, Str v)] | None => [] end.

(** [discovery_document], its members as they are inserted. *)
Definition discovery_document (config : OidcDiscoveryConfig) (alg jwks_uri : text) : Value :=
  Object (
    [(txt "issuer", Str (oc_issuer config))] ++
    member (txt "authorization_endpoint") (oc_authorization_endpoint config) ++
    member (txt "token_endpoint") (oc_token_endpoint config) ++
    member (txt "userinfo_endpoint") (oc_userinfo_endpoint config) ++
    [(txt "jwks_uri", Str jwks_uri);
     (txt "response_types_supported", strings [txt "code"; txt "id_token"; txt "token id_token"]);
     (txt "subject_types_supported", strings [txt "public"]);
     (txt "id_token_signing_alg_values_supported", strings [alg]);
     (txt "scopes_supported", strings [txt "openid"; txt "profile"; txt "email"]);
     (txt "token_endpoint_auth_methods_supported", strings [txt "client_secret_basic"; txt "client_secret_post"])]).

Definition ED25519_PUBLIC_KEY_LEN : nat := 32.
Definition ED25519_SPKI_PREFIX : text :=
  of_code <$> [48; 42; 48; 5; 6; 3; 43; 101; 112; 3; 33; 0].

Definition HEX : text := txt "0123456789abcdef".
Definition hex_byte (c : ascii) : text :=
  [default (ch "0") (HEX !! Z.to_nat (code c / 16)); default (ch "0") (HEX !! Z.to_nat (code c mod 16))].

(** [hex16]. *)
Definition hex16 (bytes : text) : text := mjoin (hex_byte <$> take 8 bytes).

Inductive oidc_error :=
| UnsupportedAlgorithm (alg : text)
| UnreadableKey (file reason : text)
| BadPem (reason : text)
| NotEd25519.

Record Oidc := mkOidc { od_discovery : Value; od_jwks : Value; od_jwks_path : text }.

Section Oidc.
(** [fs::read_to_string], base64's [STANDARD.decode] and [URL_SAFE_NO_PAD.encode]. *)
Context {SH : ShaLib} (read_to_string : text -> result text text) (decode : text -> result text text)
  (encode_url : text -> text).

Definition key_id (raw : text) : text := hex16 (sha256 raw).

Definition decode_pem_body (pem : text) : result text oidc_error :=
  match decode (trim (mjoin (filter (fun l => starts_with (txt "-----") l = false) (lines pem)))) with
  | Ok der => Ok der
  | Err e => Err (BadPem e)
  end.

Definition ed25519_jwk (pem_path alg : text) : result Value oidc_error :=
  if negb (bool_decide (alg = txt "EdDSA") || bool_decide (alg = txt "Ed25519")) then Err (UnsupportedAlgorithm alg)
  else
    match read_to_string pem_path with
    | Err e => Err (UnreadableKey pem_path e)
    | Ok pem =>
        let? der := decode_pem_body pem in
        if negb (bool_decide (length der = (length ED25519_SPKI_PREFIX + ED25519_PUBLIC_KEY_LEN)%nat))
           || negb (bool_decide (take (length ED25519_SPKI_PREFIX) der = ED25519_SPKI_PREFIX))
        then Err NotEd25519
        else
          let raw := drop (length ED25519_SPKI_PREFIX) der in
          Ok (Object [(txt "kty", Str (txt "OKP")); (txt "crv", Str (txt "Ed25519")); (txt "use", Str (txt "sig"));
                      (txt "alg", Str (txt "EdDSA")); (txt "kid", Str (key_id raw)); (txt "x", Str (encode_url raw))])
    end.

Definition advertised_uri (config : OidcDiscoveryConfig) : text :=
  match oc_jwks_uri config with
  | Some uri => uri
  | None => trim_end_matches (txt "/") (oc_issuer config) ++ DEFAULT_JWKS
  end.

(** [Oidc::build]. *)
Definition oidc_build (config : OidcDiscoveryConfig) : result (option Oidc) oidc_error :=
  if negb (oc_enabled config) then Ok None
  else
    let alg := default (txt "EdDSA") (sk_algorithm <$> oc_signing_key config) in
    let jwks_uri := advertised_uri config in
    let discovery := discovery_document config alg jwks_uri in
    let? keys :=
      match oc_signing_key config with
      | Some sk => let? jwk := ed25519_jwk (sk_public_key_pem_file sk) alg in Ok [jwk]
      | None => Ok []
      end in
    Ok (Some (mkOidc discovery (Object [(txt "keys", Array keys)]) (jwks_uri_path jwks_uri))).

Definition oidc_paths (o : Oidc) : list text := [DISCOVERY_PATH; od_jwks_path o].

(** What a route serves: a document as JSON, or the key set under its own media type. *)
Inductive Served := ServesJson (v : Value) | ServesKeys (v : Value).

(** [Oidc::routes]. *)
Definition oidc_routes (o : Oidc) : list (text * Served) :=
  [(DISCOVERY_PATH, ServesJson (od_discovery o)); (od_jwks_path o, ServesKeys (od_jwks o))].
End Oidc.

(** * Laws *)

Lemma split_once_at_Some (sep s l r : text) :
  split_once_at sep s = Some (l, r) -> s = l ++ sep ++ r.
Proof.
  revert l r. induction s as [|c s IH]; intros l r; cbn [split_once_at].
  - destruct (strip_prefix sep []) as [rest|] eqn:E; [|done]. intros [= <- <-]. by apply strip_prefix_Some in E.
  - destruct (strip_prefix sep (c :: s)) as [rest|] eqn:E.
    { intros [= <- <-]. by apply strip_prefix_Some in E. }
    destruct (split_once_at sep s) as [[l' r']|]; [|done]. cbn. intros [= <- <-]. cbn. by rewrite (IH _ _ eq_refl).
Qed.

Lemma split_once_at_scheme (scheme r : text) :
  ch ":" ∉ scheme -> split_once_at (txt "://") (scheme ++ txt "://" ++ r) = Some (scheme, r).
Proof.
  induction scheme as [|c scheme IH]; intros Hc; [done|]. apply not_elem_of_cons in Hc as [Hne Hc].
  specialize (IH Hc). cbn [app split_once_at].
  destruct (strip_prefix (txt "://") (c :: scheme ++ txt "://" ++ r)) as [rest|] eqn:E; [|by rewrite IH].
  apply strip_prefix_Some in E. by injection E as ->.
Qed.

(** The path served is absolute. *)
Lemma jwks_path_absolute (uri : text) : starts_with (txt "/") (jwks_uri_path uri) = true.
Proof.
  unfold jwks_uri_path. destruct (split_once_at _ _) as [[l r]|].
  - destruct (position _ r) as [i|] eqn:E; [|done]. apply position_Some in E as [(x & Hx & Hs) _].
    apply bool_decide_eq_true in Hs as ->. rewrite (drop_S _ _ _ Hx). apply starts_with_true. by eexists.
  - destruct (starts_with (txt "/") uri) eqn:E; [done|reflexivity].
Qed.

(** Of an absolute URI whose authority ends at its first slash, the path is what
    follows the authority. *)
Lemma jwks_path_of (scheme host path : text) :
  ch ":" ∉ scheme -> ch "/" ∉ host -> starts_with (txt "/") path = true ->
  jwks_uri_path (scheme ++ txt "://" ++ host ++ path) = path.
Proof.
  intros Hs Hh (p & ->)%starts_with_true. unfold jwks_uri_path. rewrite split_once_at_scheme by done.
  assert (E : position (fun c => bool_decide (c = ch "/")) (host ++ txt "/" ++ p) = Some (length host)).
  { apply position_Some. split.
    - exists (ch "/"). split; [|done]. rewrite lookup_app_r, Nat.sub_diag by done. done.
    - intros j y Hj Hy. rewrite lookup_app_l in Hy by done. apply bool_decide_eq_false. intros ->.
      by apply list_elem_of_lookup_2 in Hy. }
  by rewrite E, drop_app_length.
Qed.

Section Laws.
Context {SH : ShaLib} (read_to_string : text -> result text text) (decode : text -> result text text)
  (encode_url : text -> text).

(** A key as the set publishes it. *)
Definition published (alg raw : text) (jwk : Value) : Prop :=
  value_get jwk (txt "x") = Some (Str (encode_url raw)) /\ value_get jwk (txt "kid") = Some (Str (key_id raw)) /\
  value_get jwk (txt "kty") = Some (Str (txt "OKP")) /\ value_get jwk (txt "crv") = Some (Str (txt "Ed25519")).

Lemma ed25519_jwk_ok (pem_path alg : text) (jwk : Value) :
  ed25519_jwk read_to_string decode encode_url pem_path alg = Ok jwk ->
  alg ∈ [txt "EdDSA"; txt "Ed25519"] /\
  exists pem raw, read_to_string pem_path = Ok pem /\ decode_pem_body decode pem = Ok (ED25519_SPKI_PREFIX ++ raw) /\
    length raw = ED25519_PUBLIC_KEY_LEN /\ published alg raw jwk.
Proof.
  unfold ed25519_jwk. destruct (_ || _) eqn:Ea; cbn [negb]; [|done].
  assert (alg ∈ [txt "EdDSA"; txt "Ed25519"]).
  { apply orb_true_iff in Ea as [Ea|Ea]; apply bool_decide_eq_true in Ea as ->; set_solver. }
  destruct (read_to_string pem_path) as [pem|e]; [|done]. destruct (decode_pem_body decode pem) as [der|e] eqn:Ed; cbn [result_bind]; [|done].
  clear Ea. destruct (_ || _) eqn:El; [done|]. intros [= <-]. bool_simpl. split; [done|].
  match goal with H : take _ der = _ |- _ => rename H into Ht end.
  match goal with H : length der = _ |- _ => rename H into Hn end.
  exists pem, (drop (length ED25519_SPKI_PREFIX) der). split_and!; [done| | |done].
  - rewrite Ed. f_equal. rewrite <- (take_drop (length ED25519_SPKI_PREFIX) der) at 1. by rewrite Ht.
  - rewrite length_drop. unfold ED25519_PUBLIC_KEY_LEN in *. lia.
Qed.

(** What OpenID discovery serves. It is off exactly when the section is; on, both paths are absolute, the document
    names the advertised key-set URI, and the keys are served at that URI's own path wherever it is absolute with a path
    after its authority, or a path itself; without a signing key the set is empty, and with one it holds a single
    Ed25519 key, taken from a file that holds exactly the SPKI form of a 32-byte Ed25519 key, under the id its digest
    gives it. *)
Theorem discovery_served (config : OidcDiscoveryConfig) (served : option Oidc) :
  oidc_build read_to_string decode encode_url config = Ok served ->
  (served = None <-> oc_enabled config = false) /\
  (forall o, served = Some o ->
     Forall (fun path => starts_with (txt "/") path = true) (oidc_paths o) /\
     value_get (od_discovery o) (txt "jwks_uri") = Some (Str (advertised_uri config)) /\
     value_get (od_discovery o) (txt "issuer") = Some (Str (oc_issuer config)) /\
     (forall scheme host path, ch ":" ∉ scheme -> ch "/" ∉ host -> starts_with (txt "/") path = true ->
        advertised_uri config = scheme ++ txt "://" ++ host ++ path -> od_jwks_path o = path) /\
     match oc_signing_key config with
     | None => od_jwks o = Object [(txt "keys", Array [])]
     | Some sk => exists pem raw jwk, od_jwks o = Object [(txt "keys", Array [jwk])] /\
         read_to_string (sk_public_key_pem_file sk) = Ok pem /\
         decode_pem_body decode pem = Ok (ED25519_SPKI_PREFIX ++ raw) /\ length raw = ED25519_PUBLIC_KEY_LEN /\
         published (sk_algorithm sk) raw jwk
     end).
Proof.
  unfold oidc_build. destruct (oc_enabled config); cbn [negb]; [|by intros [= <-]].
  set (keys := match oc_signing_key config with Some _ => _ | None => _ end).
  destruct keys as [ks|e] eqn:Ek; [|done]. cbn [result_bind]. intros [= <-]. split; [done|].
  intros o [= <-]. unfold oidc_paths. cbn [od_jwks od_discovery od_jwks_path]. split_and!.
  - repeat constructor. apply jwks_path_absolute.
  - unfold discovery_document, member. by destruct (oc_authorization_endpoint _), (oc_token_endpoint _), (oc_userinfo_endpoint _).
  - done.
  - intros scheme host path Hs Hh Hp ->. by apply jwks_path_of.
  - unfold keys in Ek. destruct (oc_signing_key config) as [sk|]; [|by injection Ek as <-]. cbn in Ek.
    destruct (ed25519_jwk _ _ _ _ _) as [jwk|] eqn:Ej; [|done]. injection Ek as <-.
    apply ed25519_jwk_ok in Ej as (_ & pem & raw & ? & ? & ? & ?). by exists pem, raw, jwk.
Qed.
End Laws.

(** ** A provider *)

Module Demo.
Import Shield.Demo.

Definition config : OidcDiscoveryConfig :=
  mkOidcConfig true (txt "https://id.example/") None (Some (txt "https://id.example/token")) None
    (Some (txt "https://id.example/keys.json")) (Some (mkSigningKey (txt "EdDSA") (txt "key.pem"))).

(** A file that holds a key, base64 as the identity. *)
Definition file (path : text) : result text text :=
  Ok (txt "-----BEGIN PUBLIC KEY-----" ++ [LF] ++ ED25519_SPKI_PREFIX ++ replicate 32 (ch "k") ++ [LF] ++
      txt "-----END PUBLIC KEY-----" ++ [LF]).
Definition plain (s : text) : result text text := Ok s.

Lemma discovery_served_witness :
  exists o, oidc_build file plain id config = Ok (Some o) /\ od_jwks_path o = txt "/keys.json" /\
    value_get (od_discovery o) (txt "jwks_uri") = Some (Str (txt "https://id.example/keys.json")).
Proof.
  assert (H : match oidc_build file plain id config with Ok (Some _) => true | _ => false end = true)
    by (vm_compute; reflexivity).
  destruct (oidc_build file plain id config) as [[o|]|e] eqn:E; [|done..]. exists o. split; [done|].
  destruct (discovery_served file plain id config (Some o) E) as [_ Ho].
  destruct (Ho o eq_refl) as (_ & Hu & _ & Hp & _). split; [|exact Hu].
  apply (Hp (txt "https") (txt "id.example") (txt "/keys.json")); [..|vm_compute; reflexivity|vm_compute; reflexivity];
    apply (bool_decide_unpack _); vm_compute; exact I.
Defined.

(** A query in the URI stays in the path the keys are served at. *)
Example query_kept : jwks_uri_path (txt "https://id.example/keys?v=1") = txt "/keys?v=1".
Proof. reflexivity. Qed.

(** A key of another length is refused. *)
Example long_key :
  ed25519_jwk file (fun s => Ok (s ++ txt "k")) id (txt "key.pem") (txt "EdDSA") = Err NotEd25519.
Proof. vm_compute. reflexivity. Qed.
End Demo.
