(* ===== verification/Edge.v ===== *)
(** * The assembly of the edge ([src/lib.rs])

    What the proxy mounts beside its transcoded routes, the check of the whole edge
    before a router is built, what maintenance leaves reachable, the headers forwarded,
    and the guards with their scopes. [axum]'s method filter and the router are
    interfaces; what the embedder's hooks list is data. *)

From Stdlib Require Import Floats.SpecFloat.
From stdpp Require Import gmap.
From S2P Require Import Prelude Rust Json Http Net ClientAddress Gcra GcraStore Path Shape Status ShieldRules LimitService Shield Guard Jwks ClaimsCache Auth Cors Protobuf Rule Table Mount Transcode Config Oidc.

(** ** What is mounted *)

(** [OidcBackend] as the assembly reads it: the paths of its documents, of its keys
    and of its user-info endpoint. *)
Record OidcBackend := mkOidcBackend { ob_documents : list text; ob_jwks : text; ob_userinfo : text }.

(** [ExtraRoute], without its handler. *)
Record ExtraRoute := mkExtraRoute { er_method : text; er_path : text }.

(** A route: an uppercase method ([*] answers every method) and a path. *)
Abbreviation route := (text * text)%type.

Definition GET : text := txt "GET".
Definition STAR : text := txt "*".

(** [normalize_route_shape]. *)
Definition normalize_segment (seg : text) : text :=
  if starts_with (txt "{*") seg && ends_with (txt "}") seg then txt "{*}"
  else if starts_with (txt "{") seg && ends_with (txt "}") seg then txt "{}"
  else seg.
Definition normalize_route_shape (path : text) : text := join (txt "/") (normalize_segment <$> split (ch "/") path).

Inductive edge_error :=
| BadSetup (e : config_error)
| UnreadDescriptors (file reason : text)
| BadDescriptors (source reason : text)
| BadOnly (e : selection_error)
| BadOidc (e : oidc_error)
| RelativeRoute (path : text)
| RegisteredTwice (path : text)
| RouterConflict (path reason : text)
| NotForwardable (name : text)
| BadResolver (e : build_error)
| BadCors (e : cors_error)
| BadPolicy (pattern reason : text)
| BadVerifier (reason : text)
| ClaimOntoClient (header : text)
| ClaimOntoForwarding (header : text)
| BadConcurrency (max : Z)
| BadShield (e : shield_error)
| BadAuthz (reason : text)
| BadScopeOf (what : text) (e : scope_error).

(** A method of a scope name in an error's text. *)
Definition lift {A E} (f : E -> edge_error) (r : result A E) : result A edge_error :=
  match r with Ok a => Ok a | Err e => Err (f e) end.

Section Server.
Context {FL : FleetLib} {GL : GlobLib} {HT : HttpLib} {P : ProstLib} {SL : ServiceLib}.

(** [ProxyServer]: the configuration, and what the embedder injected. The hooks
    themselves act in the guards and the routes; here they are there or not. *)
Record ProxyServer := mkServer {
  sv_config : ProxyConfig;
  sv_transcode : TranscodeOptions;
  sv_descriptor_pool : option DescriptorPool;
  sv_auth_decider : bool;
  sv_auth_decider_scope : option ScopeConfig;
  sv_oidc_backend : option OidcBackend;
  sv_extra_routes : list ExtraRoute;
  sv_verify_path : option text;
  sv_token_verifier : bool;
}.

(** [ProxyServer::from_config]. *)
Definition from_config (c : ProxyConfig) : ProxyServer :=
  mkServer c transcode_options_default None false None None [] None false.

(** [decider_verify_path]. *)
Definition decider_verify_path (s : ProxyServer) : text :=
  match sv_verify_path s with
  | Some path => path
  | None => default (txt "/auth/verify") (fa_path <$> (let! a := pc_auth (sv_config s) in ac_forward_auth a))
  end.

(** [mounted_verify_path]. *)
Definition mounted_verify_path (s : ProxyServer) : option text :=
  if sv_auth_decider s then Some (decider_verify_path s)
  else
    let! a := pc_auth (sv_config s) in
    if negb (bool_decide (ac_mode a = txt "jwt")) then None
    else fa_path <$> ofilter fa_enabled (ac_forward_auth a).

Context {SH : ShaLib} (read_to_string : text -> result text text) (decode : text -> result text text)
  (encode_url : text -> text).
(** [MethodFilter::try_from(method).is_ok()]. *)
Context (method_filter : text -> bool).

Definition mountable_route (r : ExtraRoute) : bool := method_filter (er_method r).

Definition get (path : text) : route := (GET, path).

Definition oidc_routes_of (s : ProxyServer) : result (list route) oidc_error :=
  match sv_oidc_backend s with
  | Some backend => Ok (get <$> ob_documents backend ++ [ob_jwks backend; ob_userinfo backend])
  | None =>
      match pc_oidc_discovery (sv_config s) with
      | Some cfg =>
          let? oidc := oidc_build read_to_string decode encode_url cfg in
          Ok (match oidc with Some o => get <$> oidc_paths o | None => [] end)
      | None => Ok []
      end
  end.

(** [endpoint_routes]. *)
Definition endpoint_routes (s : ProxyServer) : result (list route) oidc_error :=
  let c := sv_config s in
  let? oidc := oidc_routes_of s in
  Ok ((if hc_enabled (pc_health c) then
         get <$> [hc_path (pc_health c); hc_live_path (pc_health c); hc_ready_path (pc_health c); hc_startup_path (pc_health c)]
       else []) ++
      (if mc_enabled (pc_metrics c) then [get (mc_path (pc_metrics c))] else []) ++
      match pc_openapi c with
      | Some o => if oa_enabled o then [get (oa_path o); get (oa_docs_path o)] else []
      | None => []
      end ++
      oidc ++
      ((fun r => (er_method r, er_path r)) <$> filter (fun r => mountable_route r = true) (sv_extra_routes s))).

(** *** The routers, as they are built *)

(** A router: its paths in order, each with the methods it answers. *)
Abbreviation routes_built := (list (text * list text)).

Definition health_routes (s : ProxyServer) : routes_built :=
  let h := pc_health (sv_config s) in
  if hc_enabled h then
    (fun path => (path, [GET])) <$> [hc_path h; hc_live_path h; hc_ready_path h; hc_startup_path h]
  else [].

Definition metrics_routes (s : ProxyServer) : routes_built :=
  let m := pc_metrics (sv_config s) in if mc_enabled m then [(mc_path m, [GET])] else [].

(** [build_openapi_routes]. *)
Definition openapi_routes (s : ProxyServer) : routes_built :=
  match pc_openapi (sv_config s) with
  | Some o => if oa_enabled o then [(oa_path o, [GET]); (oa_docs_path o, [GET])] else []
  | None => []
  end.

(** [oidc_backend_routes]. *)
Definition oidc_backend_routes (b : OidcBackend) : routes_built :=
  ((fun path => (path, [GET])) <$> ob_documents b) ++ [(ob_jwks b, [GET]); (ob_userinfo b, [GET])].

Definition oidc_router (s : ProxyServer) : result routes_built oidc_error :=
  match sv_oidc_backend s with
  | Some backend => Ok (oidc_backend_routes backend)
  | None =>
      match pc_oidc_discovery (sv_config s) with
      | Some cfg =>
          let? oidc := oidc_build read_to_string decode encode_url cfg in
          Ok (match oidc with Some o => (fun ps => (ps.1, [GET])) <$> oidc_routes o | None => [] end)
      | None => Ok []
      end
  end.

(** [extra_routes_router]: the methods of a path, merged in the order they come; the
    paths in the order of a hash map, here their first. *)
Fixpoint merge_route (built : routes_built) (method path : text) : routes_built :=
  match built with
  | [] => [(path, [method])]
  | (p, methods) :: built =>
      if decide (p = path) then (p, methods ++ [method]) :: built else (p, methods) :: merge_route built method path
  end.
Definition extra_routes_router (routes : list ExtraRoute) : routes_built :=
  foldl (fun built r => if mountable_route r then merge_route built (er_method r) (er_path r) else built) [] routes.

(** The router of the endpoints. *)
Definition endpoints_router (s : ProxyServer) : result routes_built oidc_error :=
  let? oidc := oidc_router s in
  Ok (health_routes s ++ metrics_routes s ++ openapi_routes s ++ oidc ++ extra_routes_router (sv_extra_routes s)).

(** The methods and paths a router answers. *)
Definition answers (built : routes_built) : list route :=
  p ← built; (fun method => (method, p.1)) <$> p.2.
End Server.

(** ** The check of the edge *)

(** [methods_by_shape]. *)
Definition conflicts (methods : gset text) (method : text) : bool :=
  if decide (method = STAR) then negb (bool_decide (methods = ∅))
  else bool_decide (STAR ∈ methods) || bool_decide (method ∈ methods).

Fixpoint check_shapes (seen : gmap text (gset text)) (mounted : list route) : result unit edge_error :=
  match mounted with
  | [] => Ok tt
  | (method, path) :: mounted =>
      if negb (starts_with (txt "/") path) then Err (RelativeRoute path)
      else
        let shape := normalize_route_shape path in
        let methods := default ∅ (seen !! shape) in
        if conflicts methods method then Err (RegisteredTwice path)
        else check_shapes (<[shape := {[method]} ∪ methods]> seen) mounted
  end.

Section Check.
Context {ML : MatchitLib}.

Fixpoint check_paths (router : Router) (seen : gset text) (mounted : list route) : result unit edge_error :=
  match mounted with
  | [] => Ok tt
  | (_, path) :: mounted =>
      if decide (path ∈ seen) then check_paths router seen mounted
      else
        let '(router, error) := router_insert router path in
        match error with
        | Some e => Err (RouterConflict path e)
        | None => check_paths router ({[path]} ∪ seen) mounted
        end
  end.

Definition check_edge (mounted : list route) : result unit edge_error :=
  let? _ := check_shapes ∅ mounted in check_paths router_new ∅ mounted.
End Check.

(** ** The guards *)

(** The bind of results that may panic ([None]). *)
Definition outcome_bind {A B} (r : option (result A edge_error)) (k : A -> option (result B edge_error))
    : option (result B edge_error) :=
  match r with
  | Some (Ok a) => k a
  | Some (Err e) => Some (Err e)
  | None => None
  end.
Notation "'let*' x := e 'in' k" := (outcome_bind e (fun x => k))
  (at level 10, x name, e at level 100, k at level 200).

Section Assembly.
Context {HT : HttpLib} {HV : HeaderValueLib} {GL : GlobLib} {GS : GlobSetLib} {N : IpNetLib} {SH : ShaLib} {FL : FleetLib}.
Context {P : ProstLib} {SL : ServiceLib} {UL : UriLib} {ML : MatchitLib} {PT : PercentLib}.
Context (to_uppercase : text -> text).
(** A key as [jsonwebtoken] takes it from a PEM; the HTTPS client of a JWKS and the
    channel to the authorizer are made, or refused for a reason. *)
Context {DecodingKey : Type} (from_ed_pem : text -> result DecodingKey text) (jwks_client channel : text -> result unit text).
Context (read_file : text -> result text text).

(** [ConfigVerifier::build]: where the keys come from. *)
Definition config_verifier_build (jwt : JwtConfig) : result (VerifierKeys (DecodingKey := DecodingKey)) text :=
  match jw_jwks_uri jwt, jw_public_key_pem_file jwt with
  | Some uri, _ =>
      match jwks_build (DecodingKey := DecodingKey) (jw_jwks_max_age_secs jwt) with
      | None => Err (txt "auth.jwt.jwks_max_age_secs must be at least 60")
      | Some _ => let? _ := jwks_client uri in Ok FromJwks
      end
  | None, Some pem_path =>
      let? pem := read_file pem_path in let? key := from_ed_pem pem in Ok (Pem key)
  | None, None => Err (txt "auth.jwt requires either jwks_uri or public_key_pem_file")
  end.

(** [builtin_verifier]: the verifier and its cache. *)
Definition builtin_verifier (config : AuthConfig)
    : result (VerifierKeys (DecodingKey := DecodingKey) * option ClaimsCache) text :=
  match ac_jwt config with
  | None => Err (txt "auth.jwt is not set")
  | Some jwt =>
      let? keys := config_verifier_build jwt in
      let? cache := cache_build (jw_cache jwt) in
      Ok (keys, cache)
  end.

(** [Auth::build]. *)
Definition auth_build (config : AuthConfig) (injected : bool) : result (option Auth) edge_error :=
  if negb (bool_decide (ac_mode config = txt "jwt")) then Ok None
  else
    let? _ :=
      if injected then Ok None else let? built := lift BadVerifier (builtin_verifier config) in Ok (Some built) in
    let? policies :=
      match ac_forward_auth config with
      | Some fa => lift (fun e => BadPolicy e.1 e.2) (policies_compile to_uppercase (fa_policies fa))
      | None => Ok []
      end in
    let headers := match ac_jwt config with Some jwt => jw_claims_headers jwt | None => [] end in
    let roles_claim := match ac_jwt config with Some jwt => jw_roles_claim jwt | None => txt "roles" end in
    match find_first owns headers.*2 with
    | Some header => Err (ClaimOntoClient header)
    | None => Ok (Some (mkAuth headers roles_claim policies))
    end.

(** [ForwardAuth::build]: the path it answers at. *)
Definition forward_auth_build (config : AuthConfig) : option text := fa_path <$> ofilter fa_enabled (ac_forward_auth config).

(** [Authz::build_reserving]. *)
Definition authz_build (config : AuthzConfig) (reserved : list text) : result (option Authz) edge_error :=
  if negb (zc_enabled config) then Ok None
  else let? _ := lift BadAuthz (channel (zc_endpoint config)) in
       Ok (Some (mkAuthz (zc_failure_mode_allow config) reserved)).

(** [Guards] as the assembly makes them, each with its scope: the layers of the three
    that are layers come of their settings. *)
Record BuiltGuards := mkBuiltGuards {
  bg_client_address : Resolver;
  bg_require_client : option Scope;
  bg_maintenance : option (Maintenance * Scope);
  bg_concurrency : option (nat * Scope);
  bg_shield : option (Shield * Scope);
  bg_auth : option (Auth * Scope);
  bg_authz : option (Authz * Scope);
  bg_decider : option (list text * Scope);
}.

Section Guards.
Context (s : ProxyServer) (resolver : Resolver) (auth : option Auth) (maintenance_exempt : list text) (routed : Guard.Routed).

Definition scope (config : option ScopeConfig) (dflt : list Traffic) (what : text) : result Scope edge_error :=
  lift (BadScopeOf what) (scope_compile config dflt routed).

(** Beside a guard, its scope. *)
Definition scoped_with {A} (a : A) (config : option ScopeConfig) (dflt : list Traffic) (what : text)
    : result (option (A * Scope)) edge_error :=
  let? sc := scope config dflt what in Ok (Some (a, sc)).

Definition require_client_of : result (option Scope) edge_error :=
  if r_required resolver then let? sc := scope None [TAll] (txt "client_address") in Ok (Some sc) else Ok None.

Definition maintenance_of (m : MaintenanceConfig) : result (option (Maintenance * Scope)) edge_error :=
  if mn_enabled m
  then scoped_with (mkMaintenance maintenance_exempt (mn_message m)) (mn_scope m) [TTranscoded; TEndpoints] (txt "maintenance")
  else Ok None.

Definition concurrency_of (config : option ConcurrencyConfig) : result (option (nat * Scope)) edge_error :=
  match config with
  | None => Ok None
  | Some cfg =>
      match concurrency_build (cn_max_in_flight cfg) with
      | None => Err (BadConcurrency (cn_max_in_flight cfg))
      | Some slots => scoped_with slots (cn_scope cfg) [TTranscoded; TGrpc] (txt "concurrency")
      end
  end.

Definition shield_of (config : option (ShieldConfig * option ScopeConfig)) : option (result (option (Shield * Scope)) edge_error) :=
  match config with
  | None => Some (Ok None)
  | Some (cfg, sc) =>
      match shield_build cfg with
      | Err e => Some (Err (BadShield e))
      | Ok None => Some (Ok None)
      | Ok (Some None) => None
      | Ok (Some (Some shield)) => Some (scoped_with shield sc [TTranscoded; TEndpoints] (txt "shield"))
      end
  end.

Definition auth_of : result (option (Auth * Scope)) edge_error :=
  match auth with
  | None => Ok None
  | Some a => scoped_with a (let! c := pc_auth (sv_config s) in ac_scope c) [TTranscoded; TEndpoints] (txt "auth")
  end.

Definition authz_of (reserved : list text) : result (option (Authz * Scope)) edge_error :=
  match (let! a := pc_auth (sv_config s) in ac_authz a) with
  | None => Ok None
  | Some cfg =>
      let? z := authz_build cfg reserved in
      match z with
      | None => Ok None
      | Some z => scoped_with z (zc_scope cfg) [TTranscoded] (txt "auth.authz")
      end
  end.

Definition decider_of (reserved : list text) : result (option (list text * Scope)) edge_error :=
  if sv_auth_decider s then scoped_with reserved (sv_auth_decider_scope s) [TTranscoded] (txt "auth_decider") else Ok None.

(** The claim headers of the configuration. *)
Definition claim_headers : list text :=
  match (let! a := pc_auth (sv_config s) in ac_jwt a) with Some jwt => (jw_claims_headers jwt).*2 | None => [] end.

(** [guards]. *)
Definition guards : option (result BuiltGuards edge_error) :=
  let reserved := configured_headers resolver in
  match find_first (reserves resolver) claim_headers with
  | Some header => Some (Err (ClaimOntoForwarding header))
  | None =>
      let* require_client := Some require_client_of in
      let* maintenance := Some (maintenance_of (pc_maintenance (sv_config s))) in
      let* concurrency := Some (concurrency_of (pc_concurrency (sv_config s))) in
      let* shield := shield_of (pc_shield (sv_config s)) in
      let* auth := Some auth_of in
      let* authz := Some (authz_of reserved) in
      let* decider := Some (decider_of reserved) in
      Some (Ok (mkBuiltGuards resolver require_client maintenance concurrency shield auth authz decider))
  end.
End Guards.

(** ** The whole edge *)

Context (pool_new : DescriptorPool) (pool_add : DescriptorPool -> text -> result DescriptorPool text).

Definition add_source (pool : DescriptorPool) (source : DescriptorSource) : result DescriptorPool edge_error :=
  match source with
  | DFile file =>
      match read_file file with
      | Err e => Err (UnreadDescriptors file e)
      | Ok bytes => lift (BadDescriptors file) (pool_add pool bytes)
      end
  | DReflection _ => Ok pool
  | DEmbedded bytes => lift (BadDescriptors (txt "embedded")) (pool_add pool bytes)
  end.

Fixpoint add_sources (pool : DescriptorPool) (sources : list DescriptorSource) : result DescriptorPool edge_error :=
  match sources with
  | [] => Ok pool
  | source :: sources => let? pool := add_source pool source in add_sources pool sources
  end.

(** [load_descriptors]. *)
Definition load_descriptors (s : ProxyServer) : result DescriptorPool edge_error :=
  match sv_descriptor_pool s with
  | Some pool => Ok pool
  | None => add_sources pool_new (pc_descriptors (sv_config s))
  end.

(** What the edge mounts, in the order it is checked. *)
Definition mounted_of (endpoints : list route) (pool : DescriptorPool) (c : ProxyConfig) (selection : RpcSelection)
    (verify_path : option text) : list route :=
  endpoints ++ route_paths pool (pc_aliases c) selection ++
  match verify_path with Some path => [(STAR, path)] | None => [] end.

(** The paths maintenance leaves reachable. *)
Definition maintenance_exempt (c : ProxyConfig) (verify_path : option text) : list text :=
  mn_exempt_paths (pc_maintenance c) ++
  (if hc_enabled (pc_health c) then
     [hc_path (pc_health c); hc_live_path (pc_health c); hc_ready_path (pc_health c); hc_startup_path (pc_health c)]
   else []) ++
  (if mc_enabled (pc_metrics c) then [mc_path (pc_metrics c)] else []) ++
  option_list verify_path.

(** The headers forwarded to a transcoded call. *)
Definition forwarded_list (c : ProxyConfig) (resolver : Resolver) : list text :=
  filter (fun name => reserves resolver name = false) (pc_forwarded_headers c) ++ forwarded_headers resolver.

(** The methods of the routes, for the scopes. *)
Definition routed_of (mounted : list route) (bound : BoundMethods) (verify_path : option text) : Guard.Routed :=
  let methods := omap (fun mp => if decide (mp.1 = STAR) then None else method_of mp.1) mounted in
  let routed := routed_new (methods ++ bm_methods bound) in
  let routed := if bm_every bound then routed_every routed CTranscoded else routed in
  match verify_path with Some _ => routed_every routed CVerify | None => routed end.

(** [Built], with what the routers and the state hold. *)
Record Built := mkBuilt {
  bt_transcoded : option (list RouterRoute * Routes (Rpc := Rpc));
  bt_endpoints : list (text * list text);
  bt_verify : option text;
  bt_others : list (option text * text);
  bt_forwarded_headers : list text;
  bt_forwarded_names : list text;
  bt_sse_keep_alive_secs : Z;
  bt_cors : Cors.Policy;
  bt_guards : BuiltGuards;
}.

Context (read_to_string : text -> result text text) (decode : text -> result text text) (encode_url : text -> text)
  (method_filter : text -> bool) (completed : DescriptorPool -> DescriptorPool).

(** The router of the verify endpoint: the decider's, else forward-auth's. *)
Definition verify_router (s : ProxyServer) (auth : option Auth) : option text :=
  if sv_auth_decider s then Some (decider_verify_path s)
  else match auth with
       | Some _ => let! c := pc_auth (sv_config s) in forward_auth_build c
       | None => None
       end.

(** [ProxyServer::routes]. *)
Definition routes (s : ProxyServer) : option (result Built edge_error) :=
  let c := sv_config s in
  let* _ := match validate c with Err e => Some (Err (BadSetup e)) | Ok None => None | Ok (Some _) => Some (Ok tt) end in
  let* pool := Some (load_descriptors s) in
  let* selection := Some (lift BadOnly (selection_new pool (pc_transcode_only c))) in
  let verify_path := mounted_verify_path s in
  let* endpoints := Some (lift BadOidc (endpoint_routes read_to_string decode encode_url method_filter s)) in
  let mounted := mounted_of endpoints pool c selection verify_path in
  let* _ := Some (check_edge mounted) in
  let* _ := match find_first (fun name => negb (is_grpc_key name)) (pc_forwarded_headers c) with
            | Some name => Some (Err (NotForwardable name))
            | None => Some (Ok tt)
            end in
  let* resolver := match resolver_build (pc_client_address c) with
                   | Err e => Some (Err (BadResolver e))
                   | Ok None => None
                   | Ok (Some r) => Some (Ok r)
                   end in
  let forwarded := forwarded_list c resolver in
  let* cors := match build_cors (pc_cors c) with
               | None => None
               | Some (Err e) => Some (Err (BadCors e))
               | Some (Ok p) => Some (Ok p)
               end in
  let options := mkOptions (op_error_details (sv_transcode s)) (op_ndjson_envelope (sv_transcode s))
                   (op_denied_response_headers (sv_transcode s)) selection in
  let transcoded := routes_and_choices completed pool (pc_aliases c) options in
  let* auth := Some match pc_auth c with
                    | Some cfg => auth_build cfg (sv_token_verifier s)
                    | None => Ok None
                    end in
  let bound := bound_methods pool (pc_aliases c) selection in
  let* gs := guards s resolver auth (maintenance_exempt c verify_path) (routed_of mounted bound verify_path) in
  let* built := Some (lift BadOidc (endpoints_router read_to_string decode encode_url method_filter s)) in
  let others := ((fun mp => (method_of mp.1, mp.2)) <$> endpoints) ++
                match verify_path with Some path => [(None, path)] | None => [] end in
  Some (Ok (mkBuilt transcoded built (verify_router s auth) others forwarded (omap header_name forwarded)
              (pc_sse_keep_alive_secs c) cors gs)).
End Assembly.

(** * Laws *)

(** ** The check *)

(** Two routes the edge holds together: of one shape only with different methods,
    neither of which is every method. *)
Definition compatible (a b : route) : Prop :=
  normalize_route_shape a.2 = normalize_route_shape b.2 -> a.1 <> b.1 /\ a.1 <> STAR /\ b.1 <> STAR.

Definition absolute (r : route) : Prop := starts_with (txt "/") r.2 = true.

Lemma conflicts_add (m m0 : text) (ms : gset text) :
  conflicts ({[m0]} ∪ ms) m = false <-> conflicts ms m = false /\ m <> m0 /\ m <> STAR /\ m0 <> STAR.
Proof.
  unfold conflicts. destruct (decide (m = STAR)) as [->|Hm].
  - rewrite bool_decide_eq_false_2 by set_solver. cbn [negb]. naive_solver.
  - rewrite !orb_false_iff, !bool_decide_eq_false. set_solver.
Qed.

Lemma conflicts_none (m : text) : conflicts ∅ m = false.
Proof. unfold conflicts. case_decide; [by rewrite bool_decide_eq_true_2|]. by rewrite !bool_decide_eq_false_2 by set_solver. Qed.

Lemma check_shapes_seen (seen : gmap text (gset text)) (mounted : list route) :
  check_shapes seen mounted = Ok tt <->
  Forall absolute mounted /\
  Forall (fun r => conflicts (default ∅ (seen !! normalize_route_shape r.2)) r.1 = false) mounted /\
  ForallOrdPairs compatible mounted.
Proof.
  revert seen. induction mounted as [|[m p] mounted IH]; intros seen; cbn [check_shapes].
  { split; [|done]. intros _. split_and!; constructor. }
  rewrite !Forall_cons. unfold absolute at 1. cbn [fst snd].
  destruct (starts_with _ p) eqn:Ep; cbn [negb]; [|naive_solver].
  destruct (conflicts _ m) eqn:Ec; [naive_solver|]. rewrite IH. clear IH.
  assert (Hs : forall r, conflicts (default ∅ (<[normalize_route_shape p := {[m]} ∪ default ∅ (seen !! normalize_route_shape p)]> seen
                                   !! normalize_route_shape r.2)) r.1 = false <->
    conflicts (default ∅ (seen !! normalize_route_shape r.2)) r.1 = false /\ compatible (m, p) r).
  { intros [m' p']. cbn [fst snd]. destruct (decide (normalize_route_shape p = normalize_route_shape p')) as [E|E].
    - rewrite <- E, lookup_insert_eq. cbn [default option_rect]. unfold id. rewrite conflicts_add. unfold compatible. cbn. naive_solver.
    - rewrite lookup_insert_ne by done. unfold compatible. cbn. naive_solver. }
  split.
  - intros (Ha & Hc & HP). rewrite Forall_forall in Hc. split_and!; try done.
    + apply Forall_forall. intros r Hr. by apply Hs, Hc.
    + constructor; [|done]. apply List.Forall_forall. intros r Hr%list_elem_of_In. by apply Hs, Hc.
  - intros ((_ & Ha) & (_ & Hc) & HP). inversion HP as [|? ? Hm HP']; subst. split_and!; [done| |done].
    rewrite Forall_forall in Hc. apply Forall_forall. intros r Hr. apply Hs. split; [by apply Hc|].
    rewrite List.Forall_forall in Hm. by apply Hm, list_elem_of_In.
Qed.

Lemma check_shapes_ok (mounted : list route) :
  check_shapes ∅ mounted = Ok tt <-> Forall absolute mounted /\ ForallOrdPairs compatible mounted.
Proof.
  rewrite check_shapes_seen. split; [tauto|]. intros [??]. split_and!; [done| |done].
  apply Forall_forall. intros r _. rewrite lookup_empty. apply conflicts_none.
Qed.

Section Router.
Context {ML : MatchitLib}.

(** The paths of the routes, each at its first route. *)
Fixpoint first_paths (seen : gset text) (mounted : list route) : list text :=
  match mounted with
  | [] => []
  | (_, path) :: mounted =>
      if decide (path ∈ seen) then first_paths seen mounted else path :: first_paths ({[path]} ∪ seen) mounted
  end.

(** The router after the paths, when it takes them all. *)
Fixpoint insert_all (router : Router) (paths : list text) : option Router :=
  match paths with
  | [] => Some router
  | path :: paths => match router_insert router path with (router, None) => insert_all router paths | _ => None end
  end.

Lemma first_paths_spec (seen : gset text) (mounted : list route) :
  NoDup (first_paths seen mounted) /\
  forall path, path ∈ first_paths seen mounted <-> (path ∉ seen) /\ path ∈ mounted.*2.
Proof.
  revert seen. induction mounted as [|[m p] mounted IH]; intros seen; cbn [first_paths fmap list_fmap snd].
  { split; [constructor|]. set_solver. }
  case_decide.
  - destruct (IH seen) as [Hn Hp]. split; [done|]. intros q. rewrite Hp. set_solver.
  - destruct (IH ({[p]} ∪ seen)) as [Hn Hp]. split.
    + constructor; [|done]. rewrite Hp. set_solver.
    + intros q. rewrite elem_of_cons, Hp. destruct (decide (q = p)); set_solver.
Qed.

Lemma check_paths_ok (router : Router) (seen : gset text) (mounted : list route) :
  check_paths router seen mounted = Ok tt <-> is_Some (insert_all router (first_paths seen mounted)).
Proof.
  revert router seen. induction mounted as [|[m p] mounted IH]; intros router seen; cbn [check_paths first_paths].
  { split; [by eexists|done]. }
  case_decide; [apply IH|]. cbn [insert_all]. destruct (router_insert router p) as [router' [e|]]; [|apply IH].
  split; [done|]. by intros [].
Qed.

Lemma insert_all_paths {MLL : MatchitLaws ML} (router router' : Router) (paths : list text) :
  insert_all router paths = Some router' -> router_paths router' = router_paths router ++ paths.
Proof.
  revert router. induction paths as [|p paths IH]; intros router; cbn [insert_all]; [intros [= <-]; by rewrite app_nil_r|].
  destruct (router_insert router p) as [r [e|]] eqn:E; [done|]. intros ->%IH. rewrite (insert_paths _ _ _ E), <- app_assoc. done.
Qed.

Lemma check_edge_spec {MLL : MatchitLaws ML} (mounted : list route) :
  check_edge mounted = Ok tt <->
  Forall absolute mounted /\ ForallOrdPairs compatible mounted /\
  exists router, insert_all router_new (first_paths ∅ mounted) = Some router /\
    forall path, path ∈ router_paths router <-> path ∈ mounted.*2.
Proof.
  unfold check_edge. assert (Hr : check_paths router_new ∅ mounted = Ok tt <->
    exists router, insert_all router_new (first_paths ∅ mounted) = Some router /\
      forall path, path ∈ router_paths router <-> path ∈ mounted.*2).
  { rewrite check_paths_ok. split; [|intros (r & -> & _); by eexists]. intros [r Hr]. exists r. split; [done|].
    intros path. rewrite (insert_all_paths _ _ _ Hr), new_paths. cbn [app].
    rewrite (proj2 (first_paths_spec ∅ mounted)). set_solver. }
  rewrite <- Hr. pose proof (check_shapes_ok mounted) as Hs. destruct (check_shapes ∅ mounted) as [[]|e]; cbn [result_bind].
  - naive_solver.
  - split; [done|]. intros (H1 & H2 & _). by assert (Err e = Ok tt) by (apply Hs; done).
Qed.

(** C13: the edge is accepted exactly when every route is absolute, any two routes of one shape answer different
    methods, neither of them every method, and the router takes the paths, each once, in order; the router then holds
    exactly the paths of the routes. *)
Theorem check_edge_ok {MLL : MatchitLaws ML} (mounted : list route) :
  check_edge mounted = Ok tt <->
  Forall absolute mounted /\ ForallOrdPairs compatible mounted /\
  exists router, insert_all router_new (first_paths ∅ mounted) = Some router /\
    forall path, path ∈ router_paths router <-> path ∈ mounted.*2.
Proof. apply check_edge_spec. Qed.
End Router.

(** ** What is checked is what is mounted *)

Section Listed.
Context {FL : FleetLib} {GL : GlobLib} {HT : HttpLib} {P : ProstLib} {SL : ServiceLib} {SH : ShaLib}.
Context (read_to_string : text -> result text text) (decode : text -> result text text) (encode_url : text -> text).
Context (method_filter : text -> bool).

Lemma answers_app (a b : list (text * list text)) : answers (a ++ b) = answers a ++ answers b.
Proof. apply bind_app. Qed.

Lemma answers_get (paths : list text) : answers ((fun path => (path, [GET])) <$> paths) = get <$> paths.
Proof. induction paths as [|p paths IH]; [done|]. cbn. by rewrite <- IH. Qed.

Lemma merge_route_answers (built : list (text * list text)) (method path : text) :
  answers (merge_route built method path) ≡ₚ answers built ++ [(method, path)].
Proof.
  induction built as [|[p ms] built IH]; [done|]. cbn [merge_route]. case_decide as E; [subst p|];
    unfold answers; rewrite !bind_cons; cbn [fst snd]; fold (answers built).
  - rewrite fmap_app, <- !app_assoc. cbn [fmap list_fmap]. f_equiv. apply Permutation_app_comm.
  - fold (answers (merge_route built method path)). by rewrite IH, app_assoc.
Qed.

Lemma extra_routes_answers (routes : list ExtraRoute) :
  answers (extra_routes_router method_filter routes) ≡ₚ
  (fun r => (er_method r, er_path r)) <$> filter (fun r => mountable_route method_filter r = true) routes.
Proof.
  unfold extra_routes_router. induction routes as [|r routes IH] using rev_ind; [done|].
  rewrite foldl_app, filter_app, fmap_app. cbn [foldl]. rewrite filter_cons, filter_nil.
  destruct (mountable_route method_filter r) eqn:E.
  - rewrite decide_True by done. cbn [fmap list_fmap]. rewrite merge_route_answers. by rewrite IH.
  - rewrite decide_False by congruence. cbn [fmap list_fmap]. by rewrite app_nil_r.
Qed.

Lemma oidc_listed (s : ProxyServer) :
  oidc_routes_of read_to_string decode encode_url s =
  match oidc_router read_to_string decode encode_url s with Ok built => Ok (answers built) | Err e => Err e end.
Proof.
  unfold oidc_routes_of, oidc_router. destruct (sv_oidc_backend s) as [b|].
  - unfold oidc_backend_routes. rewrite answers_app, answers_get, fmap_app. done.
  - destruct (pc_oidc_discovery (sv_config s)) as [cfg|]; [|done].
    destruct (oidc_build _ _ _ cfg) as [[o|]|e]; done.
Qed.

(** The endpoints checked are those the router answers. *)
Lemma endpoints_listed (s : ProxyServer) :
  match endpoint_routes read_to_string decode encode_url method_filter s,
        endpoints_router read_to_string decode encode_url method_filter s with
  | Ok listed, Ok built => answers built ≡ₚ listed
  | Err e, Err e' => e = e'
  | _, _ => False
  end.
Proof.
  unfold endpoint_routes, endpoints_router. rewrite oidc_listed.
  destruct (oidc_router _ _ _ s) as [oidc|e]; cbn [result_bind]; [|done].
  rewrite !answers_app, extra_routes_answers. unfold health_routes, metrics_routes, openapi_routes.
  repeat apply Permutation_app; [..|done|done].
  - destruct (hc_enabled _); [by rewrite answers_get|done].
  - by destruct (mc_enabled _).
  - destruct (pc_openapi _) as [o|]; [|done]. by destruct (oa_enabled o).
Qed.
End Listed.

(** ** What maintenance leaves reachable *)

(** A path is matched by its own pattern. *)
Lemma exempts_itself (m : Maintenance) (path : text) : path ∈ mt_exempt m -> exempts m path = true.
Proof.
  intros Hp. apply existsb_exists. exists path. split; [by apply list_elem_of_In|].
  destruct (strip_suffix (txt "/**") path) as [prefix|] eqn:E; [|by apply bool_decide_eq_true].
  apply strip_suffix_Some in E as ->. by rewrite (proj2 (strip_prefix_Some prefix _ _) eq_refl).
Qed.

(** ** The guards *)

Section Guards.
Context {HT : HttpLib} {HL : HttpLaws HT} {HV : HeaderValueLib} {GL : GlobLib} {GS : GlobSetLib} {GSL : GlobSetLaws GS}.
Context {N : IpNetLib} {SH : ShaLib} {FL : FleetLib} {P : ProstLib} {SL : ServiceLib} {UL : UriLib} {ML : MatchitLib}.
Context (channel : text -> result unit text).

(** A scope covers the traffic its configuration names, else its default. *)
Definition covers_as (sc : Scope) (config : option ScopeConfig) (dflt : list Traffic) : Prop :=
  forall cl, covers sc cl = existsb (fun t => names_class t cl) (default dflt (let! c := config in sc_traffic c)).

(** A guard in place: on, under its scope. *)
Definition placed {A} (o : option (A * Scope)) (config : option ScopeConfig) (dflt : list Traffic) (Q : A -> Prop) : Prop :=
  exists a sc, o = Some (a, sc) /\ covers_as sc config dflt /\ Q a.

Lemma scope_covers (routed : Guard.Routed) (config : option ScopeConfig) (dflt : list Traffic) (what : text) (sc : Scope) :
  scope routed config dflt what = Ok sc -> covers_as sc config dflt.
Proof.
  unfold scope. destruct (scope_compile config dflt routed) as [sc'|] eqn:E; [|done]. intros [= ->].
  apply scope_compile_ok in E as (Hc & _). exact Hc.
Qed.

Lemma scoped_with_ok {A} (routed : Guard.Routed) (a : A) (config : option ScopeConfig) (dflt : list Traffic) (what : text)
    (o : option (A * Scope)) (Q : A -> Prop) :
  scoped_with routed a config dflt what = Ok o -> Q a -> placed o config dflt Q.
Proof.
  unfold scoped_with. destruct (scope routed config dflt what) as [sc|] eqn:E; [|done]. intros [= <-] HQ.
  exists a, sc. split_and!; [done|by eapply scope_covers|done].
Qed.

(** A guard is in place exactly when its section asks for it. *)
Definition on_when {A} (o : option (A * Scope)) (asked : Prop) (config : option ScopeConfig) (dflt : list Traffic)
    (Q : A -> Prop) : Prop :=
  (asked /\ placed o config dflt Q) \/ (~ asked /\ o = None).

Definition shield_asked (s : ProxyServer) : Prop :=
  exists cfg sc, pc_shield (sv_config s) = Some (cfg, sc) /\ sc_enabled cfg = true.
Definition authz_asked (s : ProxyServer) : Prop :=
  exists a z, pc_auth (sv_config s) = Some a /\ ac_authz a = Some z /\ zc_enabled z = true.

Lemma guards_parts (s : ProxyServer) (resolver : Resolver) (auth : option Auth) (exempt : list text) (routed : Guard.Routed)
    (g : BuiltGuards) :
  guards channel s resolver auth exempt routed = Some (Ok g) ->
  Forall (fun h => reserves resolver h = false) (claim_headers s) /\ bg_client_address g = resolver /\
  require_client_of resolver routed = Ok (bg_require_client g) /\
  maintenance_of exempt routed (pc_maintenance (sv_config s)) = Ok (bg_maintenance g) /\
  concurrency_of routed (pc_concurrency (sv_config s)) = Ok (bg_concurrency g) /\
  shield_of routed (pc_shield (sv_config s)) = Some (Ok (bg_shield g)) /\
  auth_of s auth routed = Ok (bg_auth g) /\
  authz_of channel s routed (configured_headers resolver) = Ok (bg_authz g) /\
  decider_of s routed (configured_headers resolver) = Ok (bg_decider g).
Proof.
  unfold guards. destruct (find_first _ _) as [h|] eqn:Ef; [done|]. apply find_first_None in Ef.
  destruct (require_client_of _ _) as [rc|]; [|done]. cbn [outcome_bind].
  destruct (maintenance_of _ _ _) as [mt|]; [|done]. cbn [outcome_bind].
  destruct (concurrency_of _ _) as [cn|]; [|done]. cbn [outcome_bind].
  destruct (shield_of _ _) as [[sh|]|]; [|done..]. cbn [outcome_bind].
  destruct (auth_of _ _ _) as [au|]; [|done]. cbn [outcome_bind].
  destruct (authz_of _ _ _ _) as [az|]; [|done]. cbn [outcome_bind].
  destruct (decider_of _ _ _) as [de|]; [|done]. cbn [outcome_bind]. by intros [= <-].
Qed.

End Guards.

(** ** What a build comes to *)

Section Routes.
Context {HT : HttpLib} {HL : HttpLaws HT} {HV : HeaderValueLib} {GL : GlobLib} {GS : GlobSetLib} {N : IpNetLib} {SH : ShaLib} {FL : FleetLib}.
Context {P : ProstLib} {SL : ServiceLib} {UL : UriLib} {ML : MatchitLib} {MLL : MatchitLaws ML} {PT : PercentLib}.
Context (to_uppercase : text -> text) {DecodingKey : Type} (from_ed_pem : text -> result DecodingKey text).
Context (jwks_client channel : text -> result unit text).
Context (read_file : text -> result text text) (pool_new : DescriptorPool)
  (pool_add : DescriptorPool -> text -> result DescriptorPool text).
Context (read_to_string : text -> result text text) (decode : text -> result text text) (encode_url : text -> text)
  (method_filter : text -> bool) (completed : DescriptorPool -> DescriptorPool).

Abbreviation build := (routes to_uppercase from_ed_pem jwks_client channel read_file pool_new pool_add read_to_string decode
                         encode_url method_filter completed).

(** The steps of a successful build. *)
Record built_from (s : ProxyServer) (b : Built) (pool : DescriptorPool) (selection : RpcSelection) (endpoints : list route)
    (resolver : Resolver) (auth : option Auth) : Prop := {
  bf_valid : validate (sv_config s) = Ok (Some tt);
  bf_pool : load_descriptors read_file pool_new pool_add s = Ok pool;
  bf_selection : selection_new pool (pc_transcode_only (sv_config s)) = Ok selection;
  bf_endpoints : endpoint_routes read_to_string decode encode_url method_filter s = Ok endpoints;
  bf_checked : check_edge (mounted_of endpoints pool (sv_config s) selection (mounted_verify_path s)) = Ok tt;
  bf_forwarded : Forall (fun name => is_grpc_key name = true) (pc_forwarded_headers (sv_config s));
  bf_resolver : resolver_build (pc_client_address (sv_config s)) = Ok (Some resolver);
  bf_cors : build_cors (pc_cors (sv_config s)) = Some (Ok (bt_cors b));
  bf_auth : match pc_auth (sv_config s) with
            | Some cfg => auth_build to_uppercase from_ed_pem jwks_client read_file cfg (sv_token_verifier s)
            | None => Ok None
            end = Ok auth;
  bf_guards : guards channel s resolver auth (maintenance_exempt (sv_config s) (mounted_verify_path s))
                (routed_of (mounted_of endpoints pool (sv_config s) selection (mounted_verify_path s))
                   (bound_methods pool (pc_aliases (sv_config s)) selection) (mounted_verify_path s)) = Some (Ok (bt_guards b));
  bf_router : endpoints_router read_to_string decode encode_url method_filter s = Ok (bt_endpoints b);
  bf_verify : bt_verify b = verify_router s auth;
  bf_headers : bt_forwarded_headers b = forwarded_list (sv_config s) resolver;
  bf_transcoded : bt_transcoded b =
    routes_and_choices completed pool (pc_aliases (sv_config s))
      (mkOptions (op_error_details (sv_transcode s)) (op_ndjson_envelope (sv_transcode s))
         (op_denied_response_headers (sv_transcode s)) selection);
}.

(** What the forwarding writes is a metadata key. *)
Lemma configured_keys (config : ClientAddressConfig) (r : Resolver) :
  resolver_build config = Ok (Some r) -> Forall (fun name => is_grpc_key name = true) (configured_headers r).
Proof.
  unfold resolver_build. destruct (collect_results _ _) as [nets|]; cbn; [|done].
  destruct (transpose_map _ (f_client_header _)) as [ch|] eqn:Hc; cbn; [|done].
  destruct (transpose_map _ (f_audit_header _)) as [au|] eqn:Ha; cbn; [|done].
  destruct (mapM id nets) as [trusted|]; cbn; [|done]. intros [= <-].
  assert (Hk : forall setting name taken n, forward_header setting name taken = Ok n -> is_grpc_key n = true).
  { intros setting name taken n. unfold forward_header. destruct (header_name name) as [h|]; [|done].
    destruct (is_grpc_key h) eqn:E; [|done]. repeat case_match; try done. by intros [= <-]. }
  unfold configured_headers. cbn. apply Forall_app. split.
  - destruct ch as [n|]; [|constructor]. destruct (transpose_map_ok _ _ n _ Hc eq_refl) as [name Hn]. repeat constructor. by eapply Hk.
  - destruct au as [n|]; [|constructor]. destruct (transpose_map_ok _ _ n _ Ha eq_refl) as [name Hn]. repeat constructor. by eapply Hk.
Qed.

Lemma lift_ok {A E} (f : E -> edge_error) (r : result A E) (a : A) : lift f r = Ok a <-> r = Ok a.
Proof. destruct r; cbn; naive_solver. Qed.

Lemma routes_built_from (s : ProxyServer) (b : Built) :
  build s = Some (Ok b) -> exists pool selection endpoints resolver auth, built_from s b pool selection endpoints resolver auth.
Proof.
  unfold routes. destruct (validate (sv_config s)) as [[[]|]|e] eqn:Ev; [|done..]. cbn [outcome_bind].
  destruct (load_descriptors _ _ _ s) as [pool|] eqn:Ep; [|done]. cbn [outcome_bind].
  destruct (lift _ (selection_new _ _)) as [selection|] eqn:Es; [|done]. cbn [outcome_bind].
  destruct (lift _ (endpoint_routes _ _ _ _ s)) as [endpoints|] eqn:Ee; [|done]. cbn [outcome_bind].
  destruct (check_edge _) as [[]|] eqn:Ec; [|done]. cbn [outcome_bind].
  destruct (find_first _ _) as [name|] eqn:Ef; [done|]. cbn [outcome_bind].
  destruct (resolver_build _) as [[resolver|]|] eqn:Er; [|done..]. cbn [outcome_bind].
  destruct (build_cors _) as [[cors|]|] eqn:Eo; [|done..]. cbn [outcome_bind].
  destruct (match pc_auth _ with Some _ => _ | None => _ end) as [auth|] eqn:Ea; [|done]. cbn [outcome_bind].
  destruct (guards _ _ _ _ _ _) as [[gs|]|] eqn:Eg; [|done..]. cbn [outcome_bind].
  destruct (lift _ (endpoints_router _ _ _ _ s)) as [built|] eqn:Eb; [|done]. cbn [outcome_bind].
  intros [= <-]. apply lift_ok in Es, Ee, Eb. exists pool, selection, endpoints, resolver, auth. split; try done.
  apply find_first_None in Ef. eapply Forall_impl; [exact Ef|]. intros name Hname. cbn in Hname. by destruct (is_grpc_key name).
Qed.

Lemma auth_build_mode (cfg : AuthConfig) (injected : bool) (auth : option Auth) :
  auth_build to_uppercase from_ed_pem jwks_client read_file cfg injected = Ok auth ->
  (is_Some auth <-> ac_mode cfg = txt "jwt").
Proof.
  unfold auth_build. destruct (bool_decide (ac_mode cfg = txt "jwt")) eqn:E; cbn [negb]; bool_simpl.
  - destruct (if injected then _ else _) as [verifier|]; [|done]. cbn [result_bind].
    destruct (match ac_forward_auth cfg with Some _ => _ | None => _ end) as [policies|]; [|done]. cbn [result_bind].
    destruct (find_first owns _); [done|]. intros [= <-]. split; [done|by eexists].
  - intros [= <-]. split; [by intros []|done].
Qed.

(** The verify endpoint is mounted where the check expects it. *)
Lemma verify_mounted (s : ProxyServer) (b : Built) (pool : DescriptorPool) (selection : RpcSelection)
    (endpoints : list route) (resolver : Resolver) (auth : option Auth) :
  built_from s b pool selection endpoints resolver auth -> bt_verify b = mounted_verify_path s.
Proof.
  intros H. rewrite (bf_verify _ _ _ _ _ _ _ H). unfold verify_router, mounted_verify_path.
  destruct (sv_auth_decider s); [done|]. pose proof (bf_auth _ _ _ _ _ _ _ H) as Ha.
  destruct (pc_auth (sv_config s)) as [cfg|]; [|by injection Ha as <-]. cbn.
  apply auth_build_mode in Ha. destruct (bool_decide (ac_mode cfg = txt "jwt")) eqn:E; cbn [negb]; bool_simpl.
  - destruct auth; [done|]. destruct Ha as [_ []]; done.
  - destruct auth; [|done]. destruct E. apply Ha. by eexists.
Qed.

(** C11: the edge that is mounted is the edge that was checked. When the proxy builds, the routes its endpoint router
    answers are exactly the endpoints listed for the check, its verify endpoint answers at the path the check holds
    against the others, and together with the transcoded routes they are absolute, no two answer the same method of one
    shape, and the router takes all their paths. Every header forwarded to a transcoded call is a metadata key. *)
Theorem edge_sound (s : ProxyServer) (b : Built) :
  build s = Some (Ok b) ->
  exists pool selection endpoints,
    load_descriptors read_file pool_new pool_add s = Ok pool /\
    selection_new pool (pc_transcode_only (sv_config s)) = Ok selection /\
    answers (bt_endpoints b) ≡ₚ endpoints /\
    let mounted := mounted_of endpoints pool (sv_config s) selection (bt_verify b) in
    Forall absolute mounted /\ ForallOrdPairs compatible mounted /\
    (exists router, insert_all router_new (first_paths ∅ mounted) = Some router /\
       forall path, path ∈ router_paths router <-> path ∈ mounted.*2) /\
    Forall (fun name => is_grpc_key name = true) (bt_forwarded_headers b).
Proof using HL MLL.
  intros (pool & selection & endpoints & resolver & auth & H)%routes_built_from. exists pool, selection, endpoints.
  rewrite (verify_mounted _ _ _ _ _ _ _ H). destruct H.
  apply check_edge_spec in bf_checked0 as (Ha & Hp & Hr). cbn zeta. split_and!; try done.
  - pose proof (endpoints_listed read_to_string decode encode_url method_filter s) as Hl. by rewrite bf_endpoints0, bf_router0 in Hl.
  - rewrite bf_headers0. unfold forwarded_list, forwarded_headers. rewrite !Forall_app. split_and!.
    + apply Forall_forall. intros n [_ Hn]%list_elem_of_filter. rewrite Forall_forall in bf_forwarded0. by apply bf_forwarded0.
    + by repeat constructor.
    + by eapply configured_keys.
Qed.

(** Maintenance leaves the probes reachable. When the proxy builds with maintenance on, the gate never turns away a
    request for a health probe, for the metrics or for the verify endpoint, at whatever path the configuration or the
    embedder put them, nor one whose path is itself listed as exempt. *)
Theorem maintenance_leaves (s : ProxyServer) (b : Built) (m : Maintenance) (sc : Scope) (path : text) :
  build s = Some (Ok b) -> bg_maintenance (bt_guards b) = Some (m, sc) ->
  path ∈ mn_exempt_paths (pc_maintenance (sv_config s)) \/ (GET, path) ∈ answers (health_routes s ++ metrics_routes s) \/
  bt_verify b = Some path ->
  exempts m path = true.
Proof using HL MLL.
  intros (pool & selection & endpoints & resolver & auth & H)%routes_built_from Hm Hp. apply exempts_itself.
  assert (Em : mt_exempt m = maintenance_exempt (sv_config s) (mounted_verify_path s)).
  { pose proof (guards_parts _ _ _ _ _ _ _ (bf_guards _ _ _ _ _ _ _ H)) as (_ & _ & _ & Hmt & _). rewrite Hm in Hmt.
    unfold maintenance_of, scoped_with in Hmt. destruct (mn_enabled _); [|done]. destruct (scope _ _ _ _); [|done].
    by injection Hmt as <- _. }
  rewrite (verify_mounted _ _ _ _ _ _ _ H) in Hp. rewrite Em. unfold maintenance_exempt. rewrite !elem_of_app.
  destruct Hp as [Hp|[Hp| ->]]; [by left| |right; right; right; by left]. right.
  rewrite answers_app, elem_of_app in Hp. unfold health_routes, metrics_routes in Hp. destruct Hp as [Hp|Hp].
  - left. destruct (hc_enabled _); [|by apply elem_of_nil in Hp]. rewrite answers_get in Hp.
    apply list_elem_of_fmap in Hp as (q & [= <-] & Hq). done.
  - right. left. destruct (mc_enabled _); [|by apply elem_of_nil in Hp]. cbn in Hp. apply list_elem_of_singleton in Hp as [= ->]. by left.
Qed.
End Routes.

(** ** The transcoded routes among themselves *)

(** A literal is its own shape; a variable, that of its kind. *)
Lemma normalize_plain (s : text) : plain_text s -> normalize_segment s = s.
Proof.
  intros Hs. unfold normalize_segment.
  assert (H : forall p, starts_with (ch "{" :: p) s = false).
  { intros p. destruct (starts_with _ s) eqn:E; [|done]. apply starts_with_true in E as [r ->]. by inversion Hs. }
  change (txt "{*") with (ch "{" :: txt "*"). change (txt "{") with [ch "{"]. by rewrite !H.
Qed.

Lemma normalize_capture (name : text) (c : bool) :
  (c = false -> starts_with STAR name = false) ->
  normalize_segment (piece_axum (PieceCap name c)) = piece_shape (PieceCap name c).
Proof.
  intros Hn. unfold normalize_segment, piece_axum, piece_shape.
  assert (He : ends_with (txt "}") (opening c ++ name ++ txt "}") = true).
  { unfold ends_with. apply bool_decide_eq_true. exists (opening c ++ name). apply strip_suffix_Some. by rewrite app_assoc. }
  rewrite He, !andb_true_r. destruct c.
  - by rewrite (proj2 (starts_with_true _ _)) by (by eexists).
  - destruct (starts_with (txt "{*") _) eqn:E.
    + apply starts_with_true in E as [r E]. cbn in E. injection E as E. specialize (Hn eq_refl). destruct name as [|a name].
      * cbn in E. discriminate.
      * cbn in E. injection E as -> E. by rewrite (proj2 (starts_with_true STAR _)) in Hn by (by eexists).
    + by rewrite (proj2 (starts_with_true _ _)) by (by eexists).
Qed.

Lemma normalize_pieces (ps : list piece) :
  Forall piece_plain ps -> (forall name c, PieceCap name c ∈ ps -> ch "/" ∉ name) ->
  (forall name, PieceCap name false ∈ ps -> starts_with STAR name = false) ->
  normalize_route_shape (join (txt "/") (piece_axum <$> ps)) = join (txt "/") (piece_shape <$> ps).
Proof.
  intros Hp Hs Hn. destruct (decide (ps = [])) as [->|Hne]; [done|]. unfold normalize_route_shape.
  rewrite split_join_pieces by (by destruct ps). rewrite <- (join_split (ch "/") (join (txt "/") (piece_shape <$> ps))).
  rewrite split_join_pieces by (by destruct ps). change [ch "/"] with (txt "/"). f_equal. clear Hne.
  induction Hp as [|p ps Hp _ IH]; [done|]. cbn [fmap list_fmap mjoin list_join]. rewrite fmap_app. f_equal.
  - destruct p as [s|name c]; cbn [piece_axum piece_shape].
    + apply (split_plain (ch "/")) in Hp. clear -Hp. induction Hp as [|x l Hx _ IH]; [done|]. cbn. by rewrite normalize_plain, IH.
    + assert (Hx : ch "/" ∉ opening c ++ name ++ txt "}").
      { rewrite !not_elem_of_app. split_and!; [by destruct c; set_solver|by eapply Hs; left|set_solver]. }
      rewrite split_no_sep by done. rewrite split_no_sep by (by destruct c; set_solver). cbn [fmap list_fmap]. f_equal.
      apply (normalize_capture name c). intros ->. apply Hn. by left.
  - apply IH; [intros name c ?; apply (Hs name c)|intros name ?; apply Hn]; by right.
Qed.

Section Transcoded.
Context {HT : HttpLib} {HL : HttpLaws HT} {P : ProstLib} {SL : ServiceLib} {UL : UriLib}.
Context {ML : MatchitLib} {MLL : MatchitLaws ML} {GL : GlobLib} {PT : PercentLib}.


(** No capture is named with a leading star, which the router takes for a catch-all. *)
Definition unstarred (b : RouteBinding) : Prop := Forall (fun n => starts_with STAR n = false) (m_captures (bd_mount b)).

(** The shape the edge compares a transcoded route by is the shape it is grouped by. *)
Lemma normalize_shape (b : RouteBinding) :
  bd_ok b -> unstarred b -> normalize_route_shape (m_axum (bd_mount b)) = shape_of b.
Proof.
  intros ((t & E) & Hr & _) Hu. unfold shape_of, unstarred in *. rewrite E in *.
  apply routable_pieces in Hr as (ps & -> & -> & Ec & Hp & Hs). apply normalize_pieces; [done|done|].
  intros name Hin. rewrite Ec, Forall_forall in Hu. apply Hu. apply list_elem_of_omap. by exists (PieceCap name false).
Qed.

Lemma retain_sublist {A} (path : A -> text) (items : list A) : sublist (retain_mountable path items) items.
Proof.
  unfold retain_mountable. generalize router_new. induction items as [|x items IH]; intros r; cbn [retain_from]; [constructor|].
  destruct (router_insert r (path x)) as [r' [e|]]; by constructor.
Qed.

Definition group_shape (bs : list RouteBinding) : text := default [] (shape_of <$> head bs).

(** The listed groups: bindings of one shape each, no two of the same. *)
Lemma listed_groups (pool : DescriptorPool) (aliases : list AliasConfig) (selection : RpcSelection) :
  NoDup (group_shape <$> shape_bindings pool aliases selection) /\
  Forall (fun bs => bs <> [] /\ Forall (fun b => b ∈ route_bindings pool aliases selection) bs)
    (shape_bindings pool aliases selection).
Proof.
  unfold shape_bindings, group_by_shape. set (bindings := route_bindings pool aliases selection).
  destruct (group_grouped bindings) as [Hg Hp].
  set (gs := (foldl (group_step (fun b => [b]) (fun bs b => bs ++ [b])) ([], ∅) bindings).1) in *.
  assert (Hi : forall i g, gs !! i = Some g -> exists s, (foldl (group_step (fun b => [b]) (fun bs b => bs ++ [b])) ([], ∅) bindings).2 !! s = Some i /\
    g <> [] /\ group_shape g = s).
  { intros i g Hgi. destruct (gr_group _ _ Hg _ _ Hgi) as [s Hs]. exists s. split; [done|].
    destruct (gr_index _ _ Hg _ _ Hs) as (g' & Hi & Hn & HF). rewrite Hgi in Hi. injection Hi as <-. split; [done|].
    destruct g as [|b g]; [done|]. inversion HF; subst. done. }
  split.
  - eapply sublist_NoDup; [|apply fmap_sublist, retain_sublist]. apply NoDup_alt. intros i j s Hsi Hsj.
    rewrite list_lookup_fmap in Hsi, Hsj. destruct (gs !! i) as [g|] eqn:Ei; [|done]. destruct (gs !! j) as [g'|] eqn:Ej; [|done].
    cbn in Hsi, Hsj. injection Hsi as Hsi. injection Hsj as Hsj.
    destruct (Hi _ _ Ei) as (s1 & H1 & _ & E1), (Hi _ _ Ej) as (s2 & H2 & _ & E2). congruence.
  - apply retain_Forall, Forall_forall. intros g Hin. pose proof Hin as [i Hgi]%list_elem_of_lookup.
    destruct (Hi _ _ Hgi) as (_ & _ & Hn & _). split; [done|]. apply Forall_forall. intros b Hb.
    rewrite <- Hp. apply list_elem_of_join. by exists g.
Qed.

(** Methods of one path that answer apart. *)
Definition apart (m n : text) : Prop := m <> n /\ m <> STAR /\ n <> STAR.

Lemma shape_paths_apart (bs : list RouteBinding) :
  ForallOrdPairs compatible (shape_paths bs) <-> ForallOrdPairs apart (listed_methods bs ++ clashing_methods bs).
Proof.
  unfold shape_paths. generalize (listed_methods bs ++ clashing_methods bs). intros ms.
  induction ms as [|m ms IH]; [split; constructor|]. cbn [fmap list_fmap].
  assert (Hm : List.Forall (compatible (m, default [] (m_axum ∘ bd_mount <$> head bs)))
                 ((fun m => (m, default [] (m_axum ∘ bd_mount <$> head bs))) <$> ms) <-> List.Forall (apart m) ms).
  { rewrite !List.Forall_forall. setoid_rewrite <- list_elem_of_In. split.
    - intros H n Hn. apply (H (n, default [] (m_axum ∘ bd_mount <$> head bs))); [|done]. apply list_elem_of_fmap. by exists n.
    - intros H r (n & -> & Hn)%list_elem_of_fmap _. by apply H. }
  split; intros H; inversion H; subst; constructor; tauto.
Qed.

(** The methods listed of a shape answer apart. *)
Lemma listed_apart (bs : list RouteBinding) :
  Forall (fun b => e_http_method (bd_entry b) <> One STAR) bs -> ForallOrdPairs apart (listed_methods bs).
Proof.
  intros Hs. unfold listed_methods. destruct (existsb _ bs) eqn:Ex; [repeat constructor|].
  assert (Hn : Forall (fun b => method_str (e_http_method (bd_entry b)) <> STAR) bs).
  { apply Forall_forall. intros b Hb. rewrite Forall_forall in Hs. specialize (Hs b Hb).
    destruct (e_http_method (bd_entry b)) as [m|] eqn:Em; [cbn; congruence|]. exfalso.
    assert (Ht : existsb (fun b => bool_decide (e_http_method (bd_entry b) = Any) || bool_decide (is_Some (m_verb (bd_mount b)))) bs = true).
    { apply existsb_exists. exists b. split; [by apply list_elem_of_In|]. by rewrite Em. }
    congruence. }
  clear Hs Ex. assert (H : forall l acc, Forall (fun b => method_str (e_http_method (bd_entry b)) <> STAR) l ->
    NoDup acc -> Forall (fun m => m <> STAR) acc ->
    let ms := foldl (fun methods b => let method := method_str (e_http_method (bd_entry b)) in
                       if decide (method ∈ methods) then methods else methods ++ [method]) acc l in
    NoDup ms /\ Forall (fun m => m <> STAR) ms).
  { intros l. induction l as [|b l IH]; intros acc Hl Hd Ha; [done|]. inversion Hl; subst. cbn [foldl]. apply IH; [done|..]; case_decide; try done.
    - rewrite NoDup_app. split_and!; [done|set_solver|apply NoDup_singleton].
    - apply Forall_app. by repeat constructor. }
  destruct (H bs [] Hn (NoDup_nil_2) (Forall_nil_2 _)) as [Hd Ha]. cbn zeta in Hd, Ha. clear H Hn. revert Hd Ha.
  generalize (foldl (fun methods b => if decide (method_str (e_http_method (bd_entry b)) ∈ methods) then methods
    else methods ++ [method_str (e_http_method (bd_entry b))]) [] bs). intros ms Hd Ha.
  induction Hd as [|m ms Hm _ IH]; [constructor|]. inversion Ha; subst. constructor; [|by apply IH].
  apply List.Forall_forall. intros n Hn%list_elem_of_In. rewrite Forall_forall in Ha. split_and!; [set_solver|done|by apply Ha; right].
Qed.

Lemma shape_compatible (bs : list RouteBinding) :
  Forall (fun b => e_http_method (bd_entry b) <> One STAR) bs ->
  (ForallOrdPairs compatible (shape_paths bs) <-> clashing_methods bs = []).
Proof.
  intros Hs. rewrite shape_paths_apart. split; [|intros ->; rewrite app_nil_r; by apply listed_apart].
  intros HP. destruct (clashing_methods bs) as [|m ms] eqn:Ec; [done|]. exfalso.
  assert (Hm : m ∈ clashing_methods bs) by (rewrite Ec; by left). unfold clashing_methods in Hm.
  apply list_elem_of_omap in Hm as ([i b] & Hin & Hb). cbn in Hb. destruct (existsb _ _); [|done]. injection Hb as <-.
  assert (Hbs : b ∈ bs) by (by eapply elem_of_zip_r in Hin). destruct (listed_covers bs b Hbs) as [El|Hl].
  - rewrite El in HP. cbn in HP. inversion HP as [|? ? Hf _]; subst. rewrite List.Forall_forall in Hf.
    destruct (Hf (method_str (e_http_method (bd_entry b)))) as (_ & H & _); [by left|done].
  - apply list_elem_of_split in Hl as (l1 & l2 & El). rewrite El, <- app_assoc in HP. clear -HP.
    induction l1 as [|x l1 IH]; cbn in HP; inversion HP as [|? ? Hf HP']; subst; [|by apply IH].
    rewrite List.Forall_forall in Hf. destruct (Hf (method_str (e_http_method (bd_entry b)))) as (H & _); [|done].
    apply in_or_app. right. by left.
Qed.

(** Ordered pairs of a concatenation, when members of different parts always agree. *)
Lemma pairs_join {A} (R : A -> A -> Prop) (ls : list (list A)) :
  ForallOrdPairs (fun l1 l2 => forall x y, x ∈ l1 -> y ∈ l2 -> R x y) ls ->
  (ForallOrdPairs R (mjoin ls) <-> Forall (ForallOrdPairs R) ls).
Proof.
  induction 1 as [|l ls Hl _ IH]; [split; constructor|]. cbn [mjoin list_join]. rewrite Forall_cons, <- IH. clear IH.
  assert (Hx : forall x y, x ∈ l -> y ∈ mjoin ls -> R x y).
  { intros x y Hx (l' & Hy & Hin)%list_elem_of_join. rewrite List.Forall_forall in Hl. apply (Hl l'); [by apply list_elem_of_In|done..]. }
  clear Hl. induction l as [|a l IH]; cbn [app]; [split; [intros H; split; [constructor|done]|tauto]|].
  assert (Ha : List.Forall (R a) (l ++ mjoin ls) <-> List.Forall (R a) l).
  { rewrite List.Forall_app. split; [tauto|]. intros H. split; [done|]. apply List.Forall_forall. intros y Hy%list_elem_of_In.
    apply Hx; [by left|done]. }
  assert (IH' : ForallOrdPairs R (l ++ mjoin ls) <-> ForallOrdPairs R l /\ ForallOrdPairs R (mjoin ls)).
  { apply IH. intros x y Hin. apply Hx. by right. }
  split.
  - intros H. inversion H; subst. split; [constructor|]; tauto.
  - intros [H1 H2]. inversion H1; subst. constructor; tauto.
Qed.

(** Transcoded routes never stand in each other's way but where two of them claim the same requests. The check of the
    edge accepts the transcoded routes by themselves exactly when no binding clashes with an earlier one of its shape:
    routes of different shapes never collide, since the shape the check compares is the one the bindings are grouped by,
    and the methods listed of one shape are pairwise different. *)
Theorem transcoded_compatible (pool : DescriptorPool) (aliases : list AliasConfig) (selection : RpcSelection) :
  Forall unstarred (route_bindings pool aliases selection) ->
  (ForallOrdPairs compatible (route_paths pool aliases selection) <->
   Forall (fun bs => clashing_methods bs = []) (shape_bindings pool aliases selection)).
Proof using HL MLL.
  intros Hu. destruct (listed_groups pool aliases selection) as [Hd Hg]. unfold route_paths.
  assert (Hin : forall bs r, bs ∈ shape_bindings pool aliases selection -> r ∈ shape_paths bs -> normalize_route_shape r.2 = group_shape bs).
  { intros bs r Hbs (m & -> & _)%list_elem_of_fmap. rewrite Forall_forall in Hg. destruct (Hg bs Hbs) as [Hn HF].
    destruct bs as [|b bs]; [done|]. cbn. inversion HF as [|? ? Hb _]; subst. rewrite Forall_forall in Hu.
    apply normalize_shape; [|by apply Hu]. by apply route_binding_from in Hb as [? _]. }
  rewrite pairs_join.
  - rewrite !Forall_forall. setoid_rewrite list_elem_of_fmap.
    assert (Hc : forall bs, bs ∈ shape_bindings pool aliases selection ->
      (ForallOrdPairs compatible (shape_paths bs) <-> clashing_methods bs = [])).
    { intros bs Hbs. apply shape_compatible. rewrite Forall_forall in Hg. destruct (Hg bs Hbs) as [_ HF].
      eapply Forall_impl; [exact HF|]. intros b Hb. by apply route_binding_from in Hb as [_ ?]. }
    split.
    + intros H bs Hbs. apply Hc; [done|]. apply H. by exists bs.
    + intros H l (bs & -> & Hbs). apply Hc; [done|]. by apply H.
  - clear Hu Hg. revert Hd Hin. generalize (shape_bindings pool aliases selection). intros gs Hd Hin.
    induction gs as [|g gs IH]; [constructor|]. cbn [fmap list_fmap] in Hd |- *. apply NoDup_cons in Hd as [Hg Hd].
    constructor; [|apply IH; [done|]; intros bs r Hbs; apply Hin; by right].
    apply List.Forall_forall. intros l (g' & -> & Hg')%list_elem_of_In%list_elem_of_fmap x y Hx Hy E. exfalso. apply Hg.
    rewrite (Hin g x), (Hin g' y) in E by (done || by left || by right). rewrite E. apply list_elem_of_fmap. by exists g'.
Qed.
End Transcoded.

(** ** A proxy in front of one service *)

Module Demo.
Import Http.Model NetModel PercentModel Matchit Shield.Demo Guard.Demo Auth.Demo.
#[local] Existing Instances Transcode.Model.lib Transcode.Demo.services Transcode.Demo.uri.

(** JWT authentication with a verify endpoint and maintenance on, the readiness probe moved. *)
Definition config : ProxyConfig :=
  let d := proxy_default in
  mkProxyConfig (pc_upstream d) [] (pc_listen d) (txt "demo") [] None
    (Some (mkAuthConfig (txt "jwt")
             (Some (mkJwt None 300 None None (Some (txt "key.pem")) [(txt "sub", txt "x-user")] (txt "roles") (mkCacheConfig true 10 60 4096)))
             (Some (mkForwardAuth true (txt "/internal/verify") [] None)) None None))
    None None (mkHealth true (txt "/health") (txt "/health/live") (txt "/internal/ready") (txt "/health/startup"))
    (pc_metrics d) (mkMaintenanceConfig true (mn_exempt_paths maintenance_default) (txt "back soon") None) (pc_cors d)
    (pc_forwarded_headers d) 15 None false [] (pc_client_address d).

Definition server : ProxyServer := from_config config.

Definition pool : DescriptorPool := tt.

(** The one file there is: the key. *)
Definition files (name : text) : result text text :=
  if decide (name = txt "key.pem") then Ok (txt "-----BEGIN PUBLIC KEY-----") else Err (txt "no such file").

Abbreviation build := (routes id (fun pem => Ok pem) (fun _ => Ok tt) (fun _ => Ok tt) files pool
  (fun pool _ => Ok pool) (fun _ => Err (txt "no file")) (fun s => Ok s) id (fun _ => true) id).

Definition books : list route :=
  [(GET, txt "/health"); (GET, txt "/health/live"); (GET, txt "/internal/ready"); (GET, txt "/health/startup"); (GET, txt "/metrics");
   (GET, txt "/v1/books/{id}"); (STAR, txt "/internal/verify")].

Lemma check_edge_ok_witness : check_edge books = Ok tt /\ Forall absolute books /\ ForallOrdPairs compatible books.
Proof.
  assert (H : check_edge books = Ok tt) by (vm_compute; reflexivity). split; [done|].
  destruct (check_edge_ok books) as [Hc _]. destruct (Hc H) as (Ha & Hp & _). done.
Defined.

Example same_shape : check_edge [(GET, txt "/v1/{a}"); (STAR, txt "/v1/{b}")] = Err (RegisteredTwice (txt "/v1/{b}")).
Proof. vm_compute. reflexivity. Qed.

(** A name with a leading star is a catch-all to the router, not in the shape. *)
Example starred_shape :
  m_shape (mounted_new (txt "/v1/{*x}")) = txt "/v1/{}" /\
  normalize_route_shape (m_axum (mounted_new (txt "/v1/{*x}"))) = txt "/v1/{*}".
Proof. split; vm_compute; reflexivity. Qed.

Lemma builds : exists b, build server = Some (Ok b) /\ bt_verify b = Some (txt "/internal/verify") /\
  match bg_maintenance (bt_guards b) with Some _ => True | None => False end.
Proof.
  assert (H : match build server with
              | Some (Ok b) => bt_verify b = Some (txt "/internal/verify") /\ match bg_maintenance (bt_guards b) with Some _ => True | None => False end
              | _ => False
              end) by (vm_compute; split; [reflexivity|exact I]).
  destruct (build server) as [[b|]|]; [|done..]. by exists b.
Qed.

Lemma edge_sound_witness :
  exists b endpoints, build server = Some (Ok b) /\ answers (bt_endpoints b) ≡ₚ endpoints /\
    Forall (fun name => is_grpc_key name = true) (bt_forwarded_headers b).
Proof.
  destruct builds as (b & Hb & _).
  destruct (edge_sound _ _ _ _ _ _ _ _ _ _ _ _ server b Hb) as (pool & selection & endpoints & _ & _ & Hp & _ & _ & _ & Hk).
  by exists b, endpoints.
Defined.

Lemma maintenance_leaves_witness :
  exists b m sc, build server = Some (Ok b) /\ bg_maintenance (bt_guards b) = Some (m, sc) /\
    exempts m (txt "/internal/ready") = true /\ exempts m (txt "/internal/verify") = true.
Proof.
  destruct builds as (b & Hb & Hv & Hm). destruct (bg_maintenance (bt_guards b)) as [[m sc]|] eqn:E; [|done].
  exists b, m, sc. split_and!; [done|done| |].
  - apply (maintenance_leaves _ _ _ _ _ _ _ _ _ _ _ _ server b m sc _ Hb E). right. left.
    apply (bool_decide_unpack _). vm_compute. exact I.
  - apply (maintenance_leaves _ _ _ _ _ _ _ _ _ _ _ _ server b m sc _ Hb E). by right; right.
Defined.

Definition resolver : Resolver := mkResolver [] FXForwardedFor true XVerified (Some (txt "x-real-ip")) None.


Lemma transcoded_compatible_witness :
  length (route_paths pool [] (mkSelection [])) = 1%nat /\
  ForallOrdPairs compatible (route_paths pool [] (mkSelection [])).
Proof.
  split; [vm_compute; reflexivity|]. apply transcoded_compatible.
  - apply (bool_decide_eq_true_1 _). vm_compute. reflexivity.
  - apply (bool_decide_eq_true_1 _). vm_compute. reflexivity.
Defined.
End Demo.
