(* ===== verification/Upstream.v ===== *)
(** * The pass-through to the upstream ([src/upstream.rs])

    One native gRPC request on its way through an upstream: the future that waits for
    the upstream to be ready, calls it and answers with its response, as a state machine
    driven by polls. What the upstream says to a poll is an input, so the theorems hold
    for every upstream and every order of wake-ups. *)

From S2P Require Import Prelude Rust Http Status.

(** [std::task::Poll]. *)
Inductive Poll (A : Type) := Pending | Complete (a : A).
Arguments Pending {A}.
Arguments Complete {A} a.

Section PassThrough.
Context {HT : HttpLib} {Req E : Type}.
(** [Status::from_error(error).into_http()]. *)
Context (error_into_http : E -> Response).

(** The states, without the handle of the upstream and the future of the call. *)
Inductive PassThrough :=
| Ready (request : Req) (protocol : GrpcProtocol)
| Calling (protocol : GrpcProtocol)
| Done.

Definition pass_new (request : Req) (protocol : GrpcProtocol) : PassThrough := Ready request protocol.

(** What the upstream says while one poll runs: whether it is ready, when it is asked,
    and what the future of the call gives, when that is polled. *)
Record Said := mkSaid {
  sd_ready : Poll (result unit E);
  sd_answer : Poll (result Response E);
}.

(** What the proxy does to the upstream. *)
Inductive Event := AskReady | CallWith (request : Req) | PollCall.

(** [failure]. *)
Definition failure (error : E) (protocol : GrpcProtocol) : Response := in_protocol (error_into_http error) protocol.

(** A round of the loop in the state of a call. *)
Definition poll_call (protocol : GrpcProtocol) (said : Said) : Poll Response * PassThrough * list Event :=
  match sd_answer said with
  | Pending => (Pending, Calling protocol, [PollCall])
  | Complete (Ok response) => (Complete response, Done, [PollCall])
  | Complete (Err e) => (Complete (failure e protocol), Done, [PollCall])
  end.

(** [PassThrough::poll]; [None] is its panic. *)
Definition pass_poll (s : PassThrough) (said : Said) : option (Poll Response * PassThrough * list Event) :=
  match s with
  | Ready request protocol =>
      match sd_ready said with
      | Pending => Some (Pending, s, [AskReady])
      | Complete (Err e) => Some (Complete (failure e protocol), Done, [AskReady])
      | Complete (Ok _) =>
          let '(p, s, did) := poll_call protocol said in Some (p, s, AskReady :: CallWith request :: did)
      end
  | Calling protocol => Some (poll_call protocol said)
  | Done => None
  end.

(** The executor polls until the future completes or is dropped: what came of the
    polls, and everything done to the upstream. *)
Fixpoint pass_run (s : PassThrough) (polls : list Said) : option (Poll Response * list Event) :=
  match polls with
  | [] => Some (Pending, [])
  | said :: polls =>
      match pass_poll s said with
      | None => None
      | Some (Complete response, _, did) => Some (Complete response, did)
      | Some (Pending, s, did) => let! r := pass_run s polls in Some (r.1, did ++ r.2)
      end
  end.

(** ** What becomes of a request *)

(** The upstream as the request meets it: not ready yet; failed before the call; called,
    and not answered yet; called, and done. *)
Inductive Fate :=
| Waiting
| Unready (e : E)
| Open
| Called (answer : result Response E).

Fixpoint answer_of (polls : list Said) : Fate :=
  match polls with
  | [] => Open
  | said :: polls => match sd_answer said with Pending => answer_of polls | Complete a => Called a end
  end.

Fixpoint fate_of (polls : list Said) : Fate :=
  match polls with
  | [] => Waiting
  | said :: rest =>
      match sd_ready said with
      | Pending => fate_of rest
      | Complete (Err e) => Unready e
      | Complete (Ok _) => answer_of polls
      end
  end.

(** The answer to a request whose fate is settled. *)
Definition settled (protocol : GrpcProtocol) (fate : Fate) : Poll Response :=
  match fate with
  | Waiting | Open => Pending
  | Unready e | Called (Err e) => Complete (failure e protocol)
  | Called (Ok response) => Complete response
  end.

Definition called_with (request : Req) (fate : Fate) : list Req :=
  match fate with Waiting | Unready _ => [] | Open | Called _ => [request] end.

Definition calls_of (did : list Event) : list Req :=
  omap (fun e => match e with CallWith r => Some r | _ => None end) did.

(** The upstream is asked whether it is ready until it says so, then called, then only
    its answer is waited for. *)
Definition in_order (did : list Event) : Prop :=
  exists asks polls, did = replicate asks AskReady \/
    exists request, did = replicate asks AskReady ++ CallWith request :: replicate polls PollCall.

Lemma calling_run (protocol : GrpcProtocol) (polls : list Said) :
  exists n, pass_run (Calling protocol) polls = Some (settled protocol (answer_of polls), replicate n PollCall).
Proof.
  induction polls as [|said polls [n IH]]; [by exists 0%nat|]. cbn [pass_run pass_poll answer_of]. unfold poll_call.
  destruct (sd_answer said) as [|[response|e]]; [|by exists 1%nat..]. exists (S n). by rewrite IH.
Qed.

Lemma calls_asks (n : nat) (did : list Event) : calls_of (replicate n AskReady ++ did) = calls_of did.
Proof. induction n as [|n IH]; [done|]. exact IH. Qed.

Lemma calls_polls (n : nat) : calls_of (replicate n PollCall) = [].
Proof. induction n as [|n IH]; [done|]. exact IH. Qed.

Lemma ready_run (request : Req) (protocol : GrpcProtocol) (polls : list Said) :
  exists did, pass_run (Ready request protocol) polls = Some (settled protocol (fate_of polls), did) /\
    calls_of did = called_with request (fate_of polls) /\ in_order did.
Proof.
  induction polls as [|said polls (did & IH & Hc & a & p & Ho)].
  - exists []. split_and!; [done|done|]. exists 0%nat, 0%nat. by left.
  - cbn [pass_run pass_poll fate_of]. destruct (sd_ready said) as [|[[]|e]].
    + exists (AskReady :: did). rewrite IH. split_and!; [done|exact Hc|]. exists (S a), p.
      destruct Ho as [->|[r ->]]; [by left|]. right. by exists r.
    + cbn [answer_of]. unfold poll_call. destruct (sd_answer said) as [|[response|e]].
      * destruct (calling_run protocol polls) as [n En]. exists (AskReady :: CallWith request :: PollCall :: replicate n PollCall).
        rewrite En. split_and!; [done| |].
        -- change (calls_of _) with (request :: calls_of (replicate n PollCall)). rewrite calls_polls.
           clear. by induction polls as [|said polls IH]; [|cbn; destruct (sd_answer said)].
        -- exists 1%nat, (S n). right. by exists request.
      * eexists. split_and!; [done..|]. exists 1%nat, 1%nat. right. by exists request.
      * eexists. split_and!; [done..|]. exists 1%nat, 1%nat. right. by exists request.
    + eexists. split_and!; [done..|]. exists 1%nat, 0%nat. by left.
Qed.

(** C34: a native gRPC request passes through exactly once. However the future is polled, it never panics before it
    completes; it calls the upstream at most once, with the request as it was given, and only once the upstream said it
    is ready; it completes as soon as the upstream has answered or failed, with the upstream's response, or with the
    failure in the protocol of the request; and it keeps waiting in every other case. *)
Theorem pass_through_once (request : Req) (protocol : GrpcProtocol) (polls : list Said) :
  exists did, pass_run (pass_new request protocol) polls = Some (settled protocol (fate_of polls), did) /\
    calls_of did = called_with request (fate_of polls) /\ in_order did.
Proof. apply ready_run. Qed.

(** Completed, it is not polled again: that panics. *)
Lemma done_panics (said : Said) : pass_poll Done said = None.
Proof. done. Qed.
End PassThrough.
