(* ===== verification/Service.v ===== *)
(** * The proxy as one service ([src/service.rs])

    Which way a request takes: native gRPC and gRPC-Web to the upstream, behind the
    guards and through translation where they are on, a browser's preflight for a
    gRPC-Web call beside it, everything else to the routes and what no route answers to
    the fallback. The services are those of [Guard], with what a request carries beside
    its head; tonic-web's translator, axum's router and the upstream are parameters. *)

From Stdlib Require Import Floats.SpecFloat.
From S2P Require Import Prelude Rust Json Http Net ClientAddress Status ShieldRules Shield Guard Auth Cors Upstream.

(** ** The connection *)

Record TcpConnectInfo := mkTcp { tc_local : option SocketAddr; tc_remote : option SocketAddr }.

(** tonic's record of a TLS connection: the TCP ends and the client's certificates. *)
Record TlsConnectInfo := mkTls { tl_tcp : TcpConnectInfo; tl_certs : option (list text) }.

Record ConnectionInfo := mkConnection { ci_tcp : TcpConnectInfo; ci_tls : option TlsConnectInfo }.

Definition remote_addr (c : ConnectionInfo) : option SocketAddr := tc_remote (ci_tcp c).
Definition peer_certs (c : ConnectionInfo) : option (list text) := let! tls := ci_tls c in tl_certs tls.
Definition from_tcp (tcp : TcpConnectInfo) : ConnectionInfo := mkConnection tcp None.
Definition connection_tls (tls : TlsConnectInfo) : ConnectionInfo := mkConnection (tl_tcp tls) (Some tls).

(** What a request carries beside its head: its version, whether its body announces a
    size, and the extensions that name its connection. *)
Record Carried := mkCarried {
  cr_http2 : bool;
  cr_sized : bool;
  cr_tcp : option TcpConnectInfo;
  cr_tls : option TlsConnectInfo;
  cr_connection : option ConnectionInfo;
}.

(** [ConnectionInfo::into_tonic_extensions]. *)
Definition into_tonic_extensions (c : ConnectionInfo) (x : Carried) : Carried :=
  mkCarried (cr_http2 x) (cr_sized x) (Some (ci_tcp c))
    match ci_tls c with Some tls => Some tls | None => cr_tls x end (cr_connection x).

Definition with_connection (x : Carried) (c : ConnectionInfo) : Carried :=
  mkCarried (cr_http2 x) (cr_sized x) (cr_tcp x) (cr_tls x) (Some c).

Section Peer.
Context {HT : HttpLib}.

Definition with_connect_info (q : Request) (remote : SocketAddr) : Request :=
  mkReq (q_method q) (q_path q) (q_headers q) (q_client q) (Some remote) (q_claims q).

(** [connection_of]. *)
Definition connection_of (connection : option ConnectionInfo) (q : Request) : option ConnectionInfo :=
  match connection with
  | Some c => Some c
  | None => let! remote := q_connect_info q in Some (from_tcp (mkTcp None (Some remote)))
  end.
End Peer.

Section Service.
Context {HT : HttpLib} {N : IpNetLib} {GL : GlobLib} {GS : GlobSetLib} {SH : ShaLib} {FL : FleetLib}.
Context (float_text : spec_float -> text) (json_headers : HeaderMap) {X E : Type}.

Local Abbreviation World := (World (X := X)).
Local Abbreviation Svc := (Svc (X := X)).
Local Abbreviation Guards := (Guards (X := X)).

(** A service of requests with what they carry. *)
Definition Service : Type := Carried -> Svc.

(** [Status::into_http], [StatusCode::canonical_reason], and both of an error. *)
Context (status_into_http : Code -> text -> Response) (canonical_reason : Z -> option text)
  (error_into_http : E -> Response).
(** What becomes of a request given to the upstream ([Upstream.Fate]), and the translator of [tonic_web]. *)
Context (upstream : Carried -> Request -> World -> Fate (E := E) * World) (web_layer : Service -> Service).

(** *** The client's address *)

(** [Resolver::apply] on a request. *)
Definition resolved (r : Resolver) (peer : option SocketAddr) (q : Request) : Request :=
  let '(headers, client) := apply r (q_headers q) peer in
  mkReq (q_method q) (q_path q) headers (Some client) (q_connect_info q) (q_claims q).

(** [ClientAddressService]: the peer is axum's record, or tonic's. *)
Definition peer_of (x : Carried) (q : Request) : option SocketAddr :=
  match q_connect_info q with
  | Some peer => Some peer
  | None => let! tcp := match cr_tcp x with Some tcp => Some tcp | None => tl_tcp <$> cr_tls x end in tc_remote tcp
  end.

Definition resolve_layer (r : Resolver) (inner : Service) : Service :=
  fun x q w => inner x (resolved r (peer_of x q) q) w.

(** *** To the upstream *)

(** [Forward]: the pass-through of a request; no answer while it waits. *)
Definition forward (protocol : GrpcProtocol) : Service := fun x q w =>
  let '(fate, w) := upstream x q w in
  match settled error_into_http protocol fate with
  | Complete response => Some (mkAnswer response 0, w)
  | Pending => None
  end.

(** [Translated]: as gRPC, an HTTP/2 request whose body goes without a length. *)
Definition translated : Service := fun x =>
  forward Grpc (mkCarried true false (cr_tcp x) (cr_tls x) (cr_connection x)).

(** [Guards::service] and [GrpcRejections]. *)
Definition guarded_service (g : Guards) (c : Class_) (inner : Service) : Service :=
  fun x => guard_stack float_text json_headers g (inner x) c.

Definition grpc_rejections (protocol : GrpcProtocol) (inner : Service) : Service := fun x q w =>
  let! aw := inner x q w in
  Some (mkAnswer (in_grpc status_into_http canonical_reason (an_response aw.1) protocol) (an_slots aw.1), aw.2).

Definition in_cors (policy : Policy) (inner : Service) : Service := fun x => cors_layer policy (inner x).

(** *** The routes *)

(** An axum router: the service of the route that matches a request's path, and what
    answers a request no route matches. *)
Record Router := mkRouter { rt_route : Request -> option Service; rt_fallback : Service }.

Definition router_serve (r : Router) : Service := fun x q w =>
  match rt_route r q with Some route => route x q w | None => rt_fallback r x q w end.

Definition fallback_service (r : Router) (fallback : Service) : Router := mkRouter (rt_route r) fallback.

(** [Chooser]: whether a binding of the path the router matched answers a request, and
    the other routes. *)
Record Chooser := mkChooser { co_answers : Request -> bool; co_elsewhere : Router }.

(** [Chooser::with_fallback]. *)
Definition chooser_with_fallback (c : Chooser) (fallback : Service) : Chooser :=
  mkChooser (co_answers c) (fallback_service (co_elsewhere c) fallback).

(** [Chooser::layer]: around every route, and around a fallback, which no path was
    matched for. *)
Definition chooser_layer (c : Chooser) (r : Router) : Router :=
  mkRouter
    (fun q => let! route := rt_route r q in
              Some (fun x q w => if co_answers c q then route x q w else router_serve (co_elsewhere c) x q w))
    (rt_fallback r).

(** [Direct]: which requests it takes, and the transcoded routes behind their layers. *)
Record Direct := mkDirect { dr_takes : Request -> bool; dr_service : Service }.

Inductive Routing :=
| RDirect (direct : Direct) (others : Router)
| RRouted (router : Router) (chooser : option Chooser) (served : Router).

(** [Routing::routed]. *)
Definition routed (router : Router) (chooser : option Chooser) : Routing :=
  RRouted router chooser match chooser with Some c => chooser_layer c router | None => router end.

(** [Routing::with_fallback]. *)
Definition routing_with_fallback (routing : Routing) (fallback : Service) : Routing :=
  match routing with
  | RDirect direct others => RDirect direct (fallback_service others fallback)
  | RRouted router chooser _ =>
      routed (fallback_service router fallback) ((fun c => chooser_with_fallback c fallback) <$> chooser)
  end.

Definition routing_serve (routing : Routing) : Service := fun x q w =>
  match routing with
  | RDirect direct others => if dr_takes direct q then dr_service direct x q w else router_serve others x q w
  | RRouted _ _ served => router_serve served x q w
  end.

(** *** The service *)

Record BoxedGrpc := mkBoxed { bx_grpc : option Service; bx_web : option Service; bx_web_text : option Service }.
Record GrpcWebCors := mkWebCors { wc_web : Service; wc_web_text : Service }.

(** [ProxyService], with the resolver of its guards. *)
Record ProxyService := mkService {
  ps_routing : Routing;
  ps_grpc_web : option GrpcWebCors;
  ps_boxed : BoxedGrpc;
  ps_guards : Guards;
  ps_resolver : Resolver;
  ps_connection : option ConnectionInfo;
}.

Definition is_web (protocol : GrpcProtocol) : bool := negb (bool_decide (protocol = Grpc)).

Section New.
Context (cors : option Policy) (g : Guards) (translate : bool).

(** The closure [stack] of [ProxyService::new]. *)
Definition stack (protocol : GrpcProtocol) : Service :=
  let service := if is_web protocol && translate then web_layer translated else forward protocol in
  let service :=
    if cover g CGrpc then grpc_rejections protocol (guarded_service g CGrpc service) else service in
  match cors with
  | Some policy => if is_web protocol then in_cors policy service else service
  | None => service
  end.

(** [ProxyService::new]. *)
Definition service_new (routing : Routing) (resolver : Resolver) : ProxyService :=
  let guard_grpc := cover g CGrpc in
  let boxed_web := guard_grpc || translate in
  mkService routing
    ((fun policy => mkWebCors (in_cors policy (forward Web)) (in_cors policy (forward WebText))) <$> cors)
    (mkBoxed (if guard_grpc then Some (stack Grpc) else None) (if boxed_web then Some (stack Web) else None)
       (if boxed_web then Some (stack WebText) else None))
    g resolver None.
End New.

(** [ProxyService::for_connection]. *)
Definition for_connection (s : ProxyService) (c : ConnectionInfo) : ProxyService :=
  mkService (ps_routing s) (ps_grpc_web s) (ps_boxed s) (ps_guards s) (ps_resolver s) (Some c).

(** [ProxyService::with_fallback]. *)
Definition with_fallback (s : ProxyService) (fallback : Service) : ProxyService :=
  let guarded :=
    if cover (ps_guards s) CFallback then guarded_service (ps_guards s) CFallback fallback else fallback in
  mkService (routing_with_fallback (ps_routing s) (resolve_layer (ps_resolver s) guarded)) (ps_grpc_web s) (ps_boxed s)
    (ps_guards s) (ps_resolver s) (ps_connection s).

(** [ProxyService::call]. *)
Definition call (s : ProxyService) : Service := fun x q w =>
  let grpc_call := grpc_protocol (q_headers q) in
  let protocol :=
    match grpc_call with
    | Some p => Some p
    | None => if is_grpc_web_preflight (q_method q) (q_headers q) then Some Web else None
    end in
  let boxed :=
    match grpc_call with
    | Some Grpc => bx_grpc (ps_boxed s)
    | Some Web => bx_web (ps_boxed s)
    | Some WebText => bx_web_text (ps_boxed s)
    | None => None
    end in
  match protocol with
  | Some protocol =>
      let connection := connection_of (ps_connection s) q in
      let peer := let! c := connection in remote_addr c in
      let q := resolved (ps_resolver s) peer q in
      let x := match connection with Some c => into_tonic_extensions c x | None => x end in
      match boxed with
      | Some service => service x q w
      | None =>
          match ps_grpc_web s, protocol with
          | Some cors, Web => wc_web cors x q w
          | Some cors, WebText => wc_web_text cors x q w
          | _, _ => forward protocol x q w
          end
      end
  | None =>
      let '(x, q) :=
        match ps_connection s with
        | Some c =>
            (with_connection x c, match remote_addr c with Some remote => with_connect_info q remote | None => q end)
        | None => (match connection_of None q with Some c => with_connection x c | None => x end, q)
        end in
      routing_serve (ps_routing s) x q w
  end.
End Service.

(** * Laws *)

Section Laws.
Context {HT : HttpLib} {HL : HttpLaws HT} {N : IpNetLib} {GL : GlobLib} {GS : GlobSetLib} {SH : ShaLib} {FL : FleetLib}.
Context (float_text : spec_float -> text) (json_headers : HeaderMap) {X E : Type}.

Local Abbreviation World := (World (X := X)).
Local Abbreviation Service := (Service (X := X)).
Local Abbreviation Guards := (Guards (X := X)).

Context (status_into_http : Code -> text -> Response) (canonical_reason : Z -> option text)
  (error_into_http : E -> Response).
Context (upstream : Carried -> Request -> World -> Fate (E := E) * World) (web_layer : Service -> Service).

Local Abbreviation forwarded := (forward error_into_http upstream).
Local Abbreviation in_answers := (grpc_rejections (X := X) status_into_http canonical_reason).
Local Abbreviation serve := (call error_into_http upstream).
Local Abbreviation built :=
  (service_new float_text json_headers status_into_http canonical_reason error_into_http upstream web_layer).

(** Where a call of a protocol ends: at the upstream, through the translator when it is
    gRPC-Web and translated. *)
Definition call_target (translate : bool) (protocol : GrpcProtocol) : Service :=
  if is_web protocol && translate then web_layer (translated error_into_http upstream) else forwarded protocol.

(** The policy stands around gRPC-Web alone. *)
Definition under_cors (cors : option Policy) (protocol : GrpcProtocol) (inner : Service) : Service :=
  match cors with
  | Some policy => if is_web protocol then in_cors policy inner else inner
  | None => inner
  end.

(** An answer a gRPC client reads, and not a guard's. *)
Definition grpc_answer (r : Response) : Prop := rs_rejection r = None /\ is_Some (grpc_protocol (rs_headers r)).
Definition speaks_grpc (s : Service) : Prop :=
  forall x q w a w', s x q w = Some (a, w') -> grpc_answer (an_response a).

(** What the request is when the upstream's way is taken, and what it carries. *)
Definition sent (r : Resolver) (connection : option ConnectionInfo) (q : Request) : Request :=
  resolved r (let! c := connection_of connection q in remote_addr c) q.
Definition carrying (connection : option ConnectionInfo) (q : Request) (x : Carried) : Carried :=
  match connection_of connection q with Some c => into_tonic_extensions c x | None => x end.

(** The same on the way to the routes. *)
Definition arrived (connection : option ConnectionInfo) (q : Request) : Request :=
  match connection with
  | Some c => match remote_addr c with Some remote => with_connect_info q remote | None => q end
  | None => q
  end.
Definition arriving (connection : option ConnectionInfo) (q : Request) (x : Carried) : Carried :=
  match connection_of connection q with Some c => with_connection x c | None => x end.

Lemma in_cors_ext (policy : Policy) (s1 s2 : Service) x q w :
  s1 x q w = s2 x q w -> in_cors policy s1 x q w = in_cors policy s2 x q w.
Proof. intros H. unfold in_cors, cors_layer. by rewrite H. Qed.

Lemma under_cors_ext (cors : option Policy) (p : GrpcProtocol) (s1 s2 : Service) x q w :
  s1 x q w = s2 x q w -> under_cors cors p s1 x q w = under_cors cors p s2 x q w.
Proof. intros H. unfold under_cors. destruct cors, (is_web p); by auto using in_cors_ext. Qed.

Lemma answers_ext (p : GrpcProtocol) (s1 s2 : Service) x q w :
  s1 x q w = s2 x q w -> in_answers p s1 x q w = in_answers p s2 x q w.
Proof. intros H. unfold grpc_rejections. by rewrite H. Qed.

(** An answer in gRPC passes as it is. *)
Lemma answers_speak (p : GrpcProtocol) (s : Service) x q w : speaks_grpc s -> in_answers p s x q w = s x q w.
Proof.
  intros Hs. unfold grpc_rejections. destruct (s x q w) as [[a w']|] eqn:Ea; [|done]. cbn.
  destruct (Hs _ _ _ _ _ Ea) as [Hr [p' Hp]]. unfold in_grpc. rewrite Hr, Hp. by destruct a.
Qed.

(** The stack of a protocol, and where its boxed form stands. *)
Lemma stack_unfold (cors : option Policy) (g : Guards) (translate : bool) (p : GrpcProtocol) :
  stack float_text json_headers status_into_http canonical_reason error_into_http upstream web_layer cors g translate p =
  under_cors cors p
    (if cover g CGrpc
     then in_answers p (guarded_service float_text json_headers g CGrpc (call_target translate p)) else call_target translate p).
Proof. done. Qed.

(** A call goes through the stack of its protocol, boxed or not. *)
Lemma call_stack (cors : option Policy) (g : Guards) (translate : bool) (routing : Routing) (r : Resolver)
    (connection : option ConnectionInfo) (p : GrpcProtocol) x q w :
  grpc_protocol (q_headers q) = Some p ->
  let s := built cors g translate routing r in
  serve (match connection with Some c => for_connection s c | None => s end) x q w =
  stack float_text json_headers status_into_http canonical_reason error_into_http upstream web_layer cors g translate p
    (carrying connection q x) (sent r connection q) w.
Proof.
  intros Hp s. rewrite stack_unfold. unfold call. rewrite Hp.
  replace (ps_boxed _) with (ps_boxed s) by (by destruct connection).
  replace (ps_grpc_web _) with (ps_grpc_web s) by (by destruct connection).
  replace (ps_resolver _) with r by (by destruct connection).
  replace (ps_connection _) with connection by (by destruct connection).
  fold (sent r connection q). fold (carrying connection q x). cbn [s service_new ps_boxed ps_grpc_web bx_grpc bx_web bx_web_text].
  unfold call_target. destruct p, (cover g CGrpc) eqn:Ec, translate, cors as [policy|]; cbn; rewrite ?stack_unfold, ?Ec; done.
Qed.

(** The guards' pipeline around a service. *)
Definition piped (g : Guards) (c : Class_) (s : Service) : Service := fun x => pipeline float_text json_headers g (s x) c.

Definition extensional (g : Guards) : Prop :=
  (forall l sc, auth g = Some (l, sc) -> Proper (svc_eq ==> svc_eq) l) /\
  (forall l sc, authz g = Some (l, sc) -> Proper (svc_eq ==> svc_eq) l) /\
  (forall l sc, decider g = Some (l, sc) -> Proper (svc_eq ==> svc_eq) l).

Lemma guarded_piped (g : Guards) (c : Class_) (s : Service) x q w :
  extensional g -> guarded_service float_text json_headers g c s x q w = piped g c s x q w.
Proof. intros (Ha & Hz & Hd). by apply stack_pipeline. Qed.

Lemma uncovered_piped (g : Guards) (c : Class_) (s : Service) x q w :
  extensional g -> cover g c = false -> piped g c s x q w = s x q w.
Proof.
  intros Hg Hc. rewrite <- guarded_piped by done. unfold guarded_service. by rewrite uncovered_untouched.
Qed.

Lemma call_served (cors : option Policy) (g : Guards) (translate : bool) (routing : Routing) (r : Resolver)
    (connection : option ConnectionInfo) (p : GrpcProtocol) x q w :
  extensional g -> (cover g CGrpc = false -> speaks_grpc (call_target translate p)) ->
  grpc_protocol (q_headers q) = Some p ->
  let s := built cors g translate routing r in
  serve (match connection with Some c => for_connection s c | None => s end) x q w =
  under_cors cors p (in_answers p (piped g CGrpc (call_target translate p))) (carrying connection q x) (sent r connection q) w.
Proof.
  intros Hg Hs Hp s. unfold s. rewrite call_stack with (p := p) by done. rewrite stack_unfold. apply under_cors_ext.
  destruct (cover g CGrpc) eqn:Ec.
  - apply answers_ext. by apply guarded_piped.
  - rewrite <- (answers_speak p) by auto. apply answers_ext. by rewrite uncovered_piped.
Qed.

(** *** What is not a call *)

Lemma call_preflight (cors : option Policy) (g : Guards) (translate : bool) (routing : Routing) (r : Resolver)
    (connection : option ConnectionInfo) x q w :
  grpc_protocol (q_headers q) = None -> is_grpc_web_preflight (q_method q) (q_headers q) = true ->
  let s := built cors g translate routing r in
  serve (match connection with Some c => for_connection s c | None => s end) x q w =
  under_cors cors Web (forwarded Web) (carrying connection q x) (sent r connection q) w.
Proof.
  intros Hp Hf s. unfold call. rewrite Hp, Hf.
  replace (ps_grpc_web _) with (ps_grpc_web s) by (by destruct connection).
  replace (ps_resolver _) with r by (by destruct connection).
  replace (ps_connection _) with connection by (by destruct connection).
  fold (sent r connection q). fold (carrying connection q x). unfold s, service_new. cbn. by destruct cors.
Qed.

Lemma call_routes (s : ProxyService) x q w :
  grpc_protocol (q_headers q) = None -> is_grpc_web_preflight (q_method q) (q_headers q) = false ->
  serve s x q w =
  routing_serve (ps_routing s) (arriving (ps_connection s) q x) (arrived (ps_connection s) q) w.
Proof. intros Hp Hf. unfold call. rewrite Hp, Hf. unfold arriving, arrived. by destruct (ps_connection s). Qed.

(** C5: every request takes one way, and meets on it exactly what is meant for it. A gRPC call is answered as its client
    is to read it: the guards of gRPC traffic run on it, each on the requests its scope selects, then the upstream, or the
    translator for gRPC-Web when it is on; a guard's rejection comes back as a status of the protocol, and the CORS policy
    stands around gRPC-Web, rejections included. That holds whether or not a boxed stack was built for the protocol, as
    long as an upstream no guard stands before speaks gRPC. A gRPC-Web preflight meets the policy, or goes to the upstream
    when that owns CORS; any other request goes to the routes. The client's address is resolved once on the upstream's
    way, from the connection, and is left to the routes' own layers on theirs. *)
Theorem call_ways (cors : option Policy) (g : Guards) (translate : bool) (routing : Routing) (r : Resolver)
    (connection : option ConnectionInfo) (x : Carried) (q : Request) (w : World) :
  extensional g -> (forall p, cover g CGrpc = false -> speaks_grpc (call_target translate p)) ->
  let s := built cors g translate routing r in
  serve (match connection with Some c => for_connection s c | None => s end) x q w =
  match grpc_protocol (q_headers q) with
  | Some p =>
      under_cors cors p (in_answers p (piped g CGrpc (call_target translate p))) (carrying connection q x) (sent r connection q) w
  | None =>
      if is_grpc_web_preflight (q_method q) (q_headers q)
      then under_cors cors Web (forwarded Web) (carrying connection q x) (sent r connection q) w
      else routing_serve routing (arriving connection q x) (arrived connection q) w
  end.
Proof.
  intros Hg Hs s. destruct (grpc_protocol (q_headers q)) as [p|] eqn:Hp; [by apply call_served; auto|].
  destruct (is_grpc_web_preflight _ _) eqn:Hf; [by apply call_preflight|].
  rewrite call_routes by done. by destruct connection.
Qed.

(** *** The preflight *)

Lemma sent_lookup (config : ClientAddressConfig) (r : Resolver) (connection : option ConnectionInfo) (q : Request) (n : text) :
  resolver_build config = Ok (Some r) -> n ∉ configured_headers r -> n ∉ [X_FORWARDED_FOR; X_REAL_IP; FORWARDED] ->
  hm_get_all (q_headers (sent r connection q)) n = hm_get_all (q_headers q) n.
Proof.
  intros Hr Hn Ho. unfold sent, resolved.
  pose proof (apply_lookup r (q_headers q) (let! c := connection_of connection q in remote_addr c) n
                (proj1 (build_fields _ _ Hr))) as [_ L].
  destruct (apply _ _ _) as [h c]. cbn [q_headers fst] in *. rewrite L.
  unfold configured_headers in Hn. rewrite not_elem_of_app in Hn. destruct Hn as [Hn1 Hn2].
  rewrite !not_elem_of_cons in Ho. destruct Ho as (? & ? & ? & _).
  rewrite decide_False by (intros En; rewrite En in Hn1; apply Hn1; by left).
  rewrite decide_False by (intros En; rewrite En in Hn2; apply Hn2; by left).
  rewrite decide_False by (by intros [_ ->]). rewrite decide_False; [done|].
  intros [_ Hin]. rewrite !elem_of_cons in Hin. destruct Hin as [?|[?|Hin]]; [done..|]. by apply elem_of_nil in Hin.
Qed.

Lemma sent_method (r : Resolver) (connection : option ConnectionInfo) (q : Request) :
  q_method (sent r connection q) = q_method q /\ q_path (sent r connection q) = q_path q /\
  q_claims (sent r connection q) = q_claims q.
Proof. unfold sent, resolved. by destruct (apply _ _ _). Qed.

(** A browser's preflight for a gRPC-Web call is answered before everything. Under the proxy's policy it is answered
    by that policy, on the headers it came with, and nothing else sees it: no guard is asked, no slot taken, the upstream
    not called, so whatever the guards and the upstream are the world stays as it was. *)
Theorem preflight_answered (config : ClientAddressConfig) (policy : Policy) (g : Guards) (translate : bool) (routing : Routing)
    (r : Resolver) (connection : option ConnectionInfo) (x : Carried) (q : Request) (w : World) :
  resolver_build config = Ok (Some r) -> (forall n, n ∈ [ORIGIN; REQUEST_METHOD; REQUEST_HEADERS] -> n ∉ configured_headers r) ->
  grpc_protocol (q_headers q) = None -> is_grpc_web_preflight (q_method q) (q_headers q) = true ->
  let s := built (Some policy) g translate routing r in
  serve (match connection with Some c => for_connection s c | None => s end) x q w =
  Some (mkAnswer (mkResponse 200 (preflight policy (q_headers q)) (BBytes []) None) 0, w).
Proof.
  intros Hr Hn Hp Hf s. unfold s. rewrite call_preflight by done. unfold under_cors.
  change (is_web Web) with true. unfold in_cors, cors_layer.
  assert (L : forall n, n ∈ [ORIGIN; REQUEST_METHOD; REQUEST_HEADERS] ->
                hm_get_all (q_headers (sent r connection q)) n = hm_get_all (q_headers q) n).
  { intros n Hin. apply (sent_lookup config); [done|by apply Hn|].
    intros Hown. rewrite !elem_of_cons in Hin. rewrite !elem_of_cons in Hown.
    destruct Hin as [->|[->|[->|Hin]]]; [..|by apply elem_of_nil in Hin];
      (destruct Hown as [Hown|[Hown|[Hown|Hown]]]; [done..|by apply elem_of_nil in Hown]). }
  assert (Hc : forall n, n ∈ [ORIGIN; REQUEST_METHOD; REQUEST_HEADERS] ->
                 hm_get (q_headers (sent r connection q)) n = hm_get (q_headers q) n /\
                 hm_contains (q_headers (sent r connection q)) n = hm_contains (q_headers q) n).
  { intros n Hin. unfold hm_get, hm_contains. by rewrite L. }
  destruct (Hc ORIGIN) as [G1 C1]; [by left|]. destruct (Hc REQUEST_METHOD) as [G2 C2]; [by right; left|].
  destruct (Hc REQUEST_HEADERS) as [G3 _]; [by right; right; left|].
  unfold is_preflight. rewrite C1, C2, (proj1 (sent_method _ _ _)).
  unfold is_grpc_web_preflight in Hf. change (txt "origin") with ORIGIN in Hf.
  change (txt "access-control-request-method") with REQUEST_METHOD in Hf.
  apply andb_true_iff in Hf as [Hf _]. rewrite Hf. unfold preflight. by rewrite G1, G2, G3.
Qed.

(** *** The fallback *)

Definition is_some {A} (o : option A) : bool := match o with Some _ => true | None => false end.

(** A route takes a request: a transcoded one, or another. *)
Definition routes_take (routing : Routing (X := X)) (q : Request) : bool :=
  match routing with
  | RDirect direct others => dr_takes direct q || is_some (rt_route others q)
  | RRouted router chooser _ =>
      is_some (rt_route router q) &&
      match chooser with Some c => co_answers c q || is_some (rt_route (co_elsewhere c) q) | None => true end
  end.

(** As [Routing::Direct] and [Routing::routed] make them. *)
Definition well_routed (routing : Routing (X := X)) : Prop :=
  match routing with RDirect _ _ => True | RRouted router chooser _ => routing = routed router chooser end.

Lemma routing_fallback (routing : Routing) (fallback : Service) x q w :
  well_routed routing ->
  routing_serve (routing_with_fallback routing fallback) x q w =
  if routes_take routing q then routing_serve routing x q w else fallback x q w.
Proof.
  destruct routing as [direct others|router chooser served]; cbn.
  - intros _. destruct (dr_takes direct q); cbn; [done|]. unfold router_serve. cbn. by destruct (rt_route others q).
  - intros H. injection H as ->. unfold router_serve. destruct chooser as [c|]; cbn; destruct (rt_route router q); cbn; try done.
    destruct (co_answers c q); cbn; [done|]. unfold router_serve. cbn. by destruct (rt_route (co_elsewhere c) q).
Qed.

(** A fallback answers exactly what nothing else does. Set on a service it leaves every gRPC call, every gRPC-Web
    preflight and every request a route takes as they were; any other request reaches it, with its client's address
    resolved by the proxy and behind the guards of fallback traffic alone. *)
Theorem fallback_answers (s : ProxyService) (fallback : Service) (x : Carried) (q : Request) (w : World) :
  well_routed (ps_routing s) -> extensional (ps_guards s) ->
  let on_upstream := is_some (grpc_protocol (q_headers q)) || is_grpc_web_preflight (q_method q) (q_headers q) in
  serve (with_fallback float_text json_headers s fallback) x q w =
  if on_upstream || routes_take (ps_routing s) (arrived (ps_connection s) q) then serve s x q w
  else resolve_layer (ps_resolver s) (piped (ps_guards s) CFallback fallback) (arriving (ps_connection s) q x)
         (arrived (ps_connection s) q) w.
Proof.
  intros Hr Hg on_upstream. unfold on_upstream. destruct (grpc_protocol (q_headers q)) as [p|] eqn:Hp; cbn [is_some orb].
  { unfold call. by rewrite Hp. }
  destruct (is_grpc_web_preflight _ _) eqn:Hf; cbn [orb]; [unfold call; by rewrite Hp, Hf|].
  rewrite !call_routes by done. cbn [with_fallback ps_routing ps_connection]. rewrite routing_fallback by done.
  destruct (routes_take _ _); [done|]. unfold resolve_layer.
  destruct (cover (ps_guards s) CFallback) eqn:Ec; [by apply guarded_piped|by rewrite uncovered_piped].
Qed.
End Laws.

(** ** What reaches the upstream *)

Section Protected.
Context {HT : HttpLib} {HL : HttpLaws HT} {HV : HeaderValueLib} {HVL : HeaderValueLaws HV} {N : IpNetLib}.
Context {GL : GlobLib} {GS : GlobSetLib} {SH : ShaLib} {FL : FleetLib}.
Context (float_text : spec_float -> text) (json_headers : HeaderMap) (into_response : Z -> HeaderMap -> text -> Response).
Context (check : Request -> World (X := AuthState) -> result CheckResponse unit)
  (decide_request : Request -> World (X := AuthState) -> Auth.Decision).
Context {E : Type} (status_into_http : Code -> text -> Response) (canonical_reason : Z -> option text)
  (error_into_http : E -> Response).
Context (web_layer : Service (X := AuthState) -> Service (X := AuthState)).

Local Abbreviation Upstream := (Carried -> Request -> World (X := AuthState) -> Fate (E := E) * World (X := AuthState)).

End Protected.

(** ** A proxy in front of an upstream that answers only the claims it knows *)

Module Demo.
Import Model NetModel Shield.Demo Guard.Demo Auth.Demo.

Definition grpc_headers (content_type : string) : HeaderMap := hm_insert hm_empty CONTENT_TYPE (txt content_type).
Definition call_of (content_type : string) : Request :=
  mkReq (txt "POST") (txt "/demo.Books/GetBook") (grpc_headers content_type) None None None.
Definition in_status (code : Code) (message : text) : Response := respond 200 (grpc_headers "application/grpc") message.
Definition carried : Carried := mkCarried true true None None None.

Definition answering : Carried -> Request -> World (X := AuthState) -> Fate (E := unit) * World (X := AuthState) :=
  fun _ _ w => (Called (Ok (in_status COk [])), w).
(** It hangs on a request without claims. *)
Definition careless_upstream : Carried -> Request -> World (X := AuthState) -> Fate (E := unit) * World (X := AuthState) :=
  fun x q w => match q_claims q with Some _ => answering x q w | None => (Open, w) end.

Definition no_routes : Router (X := AuthState) := mkRouter (fun _ => None) (fun _ => okay).
Definition routing : Routing (X := AuthState) := routed no_routes None.
Definition resolver : Resolver := ClientAddress.Demo.resolver.

Abbreviation service cors g u :=
  (service_new no_float json in_status (fun _ => None) (fun _ : unit => in_status CUnavailable []) u id cors g false routing resolver).
Abbreviation serve u := (call (fun _ : unit => in_status CUnavailable []) u).

Lemma open_extensional : extensional open.
Proof. by split_and!. Qed.

Lemma answering_speaks (p : GrpcProtocol) :
  speaks_grpc (call_target (fun _ : unit => in_status CUnavailable []) answering id false p).
Proof.
  intros x q w a w'. unfold call_target. rewrite andb_false_r. intros H. injection H as <- _. split; [done|]. exists Grpc.
  vm_compute. reflexivity.
Qed.

Lemma call_ways_witness :
  serve answering (service None open answering) carried (call_of "application/grpc") world =
  Some (mkAnswer (in_status COk []) 0, world).
Proof.
  rewrite (call_ways no_float json in_status (fun _ => None) (fun _ : unit => in_status CUnavailable []) answering id
             None open false routing resolver None carried (call_of "application/grpc") world open_extensional
             (fun p _ => answering_speaks p)).
  vm_compute. reflexivity.
Defined.

(** A browser asks before a gRPC-Web call. *)
Definition asking : Request :=
  mkReq (txt "OPTIONS") (txt "/demo.Books/GetBook")
    (hm_insert (hm_insert (hm_insert hm_empty ORIGIN (txt "https://app.example")) REQUEST_METHOD (txt "POST"))
       REQUEST_HEADERS (txt "content-type,x-grpc-web")) None None None.

Lemma preflight_answered_witness :
  option_map snd (serve careless_upstream (service (Some Cors.Demo.policy) open careless_upstream) carried asking world) = Some world /\
  option_map (fun aw => hm_get_all (rs_headers (an_response aw.1)) ALLOW_ORIGIN)
    (serve careless_upstream (service (Some Cors.Demo.policy) open careless_upstream) carried asking world) =
  Some [txt "https://app.example"].
Proof.
  pose proof (preflight_answered no_float json in_status (fun _ => None) (fun _ : unit => in_status CUnavailable [])
    careless_upstream id ClientAddress.Demo.config Cors.Demo.policy open false routing resolver None carried asking world
    ClientAddress.Demo.resolver_built) as H.
  cbn zeta iota in H. rewrite H.
  - split; [done|]. vm_compute. reflexivity.
  - assert (Hc : configured_headers resolver = [txt "x-real-ip"; txt "x-original-forwarded-for"]) by (vm_compute; reflexivity).
    intros n Hn. rewrite Hc, !elem_of_cons in *. intros Hin.
    destruct Hin as [->|[->|Hin]]; [destruct Hn as [Hn|[Hn|[Hn|Hn]]]; [done..|]..|]; by apply elem_of_nil in Hn || apply elem_of_nil in Hin.
  - vm_compute. reflexivity.
  - vm_compute. reflexivity.
Defined.

Definition page : Request := mkReq (txt "GET") (txt "/index.html") hm_empty None None None.

Lemma fallback_answers_witness :
  serve answering (with_fallback no_float json (service None open answering) (fun _ => okay)) carried page world =
  Some (mkAnswer (respond 200 hm_empty []) 0, world).
Proof.
  rewrite (fallback_answers no_float json (fun _ : unit => in_status CUnavailable []) answering
             (service None open answering) (fun _ => okay) carried page world eq_refl open_extensional).
  vm_compute. reflexivity.
Defined.

Definition guarded : Guards (X := AuthState) :=
  with_gates no_float json respond (fun _ _ => Err tt) (fun _ _ => DecAllow hm_empty) open (Some (a, every)) None None.


(** Behind a tonic server, which records the peer its own way, the routes know their client and the upstream's way does
    not. *)
Example tonic_peer :
  let x := mkCarried true true (Some (mkTcp None (Some ClientAddress.Demo.outsider))) None None in
  (ca_resolution <$> q_client (resolved resolver (peer_of x page) page)) = Some (Peer (V4 3405803784)) /\
  (ca_resolution <$> q_client (sent resolver None (call_of "application/grpc"))) = Some Unavailable.
Proof. split; vm_compute; reflexivity. Qed.
End Demo.
