(* ===== verification/OpenApi.v ===== *)
(** * The OpenAPI document ([src/openapi.rs])

    The document generated from the descriptors: the operations of the mounted bindings,
    their parameters and bodies, and the schemas they refer to. A JSON object is the list
    of its members; names are those of the descriptors. The recursions over messages run
    on fuel, and the theorems give the fuel that is enough for a pool. *)

From stdpp Require Import gmap.
From S2P Require Import Prelude Rust Json Http Path Shape Protobuf Presence Request BuildRequest HttpBody Rule Table Mount Config.

(** What the document reads of the descriptors beside [ProstLib] and [ServiceLib]: short
    names, and the names of an enum and of its values. *)
Class NameLib {P : ProstLib} {SL : ServiceLib} : Type := {
  md_name : MessageDescriptor -> text;
  sd_name : ServiceDescriptor -> text;
  ed_full_name : EnumDescriptor -> text;
  ed_values : EnumDescriptor -> list text;
}.

Inductive Encoding := JsonEncoding | Param.

(** The operations of a path item, and the text of a JSON string. *)
Definition OPERATIONS : list text :=
  [txt "get"; txt "put"; txt "post"; txt "delete"; txt "options"; txt "head"; txt "patch"; txt "trace"].

(** [json!] of an object with constant keys. *)
Definition obj (members : list (string * Value)) : Value := Object ((fun m => (txt m.1, m.2)) <$> members).
Definition str (s : string) : Value := Str (txt s).

(** [value[key] = v] of an object. *)
Definition put (v : Value) (key : string) (w : Value) : Value :=
  match v with Object members => Object (map_put (txt key) w members) | v => v end.

Definition REF : text := txt "$ref".
Definition SCHEMAS : text := txt "#/components/schemas/".
Definition ref_to (name : text) : Value := Object [(REF, Str (SCHEMAS ++ name))].

Definition null_schema : Value := obj [("nullable", Bool true); ("enum", Array [Null])].
Definition raw_content : Value :=
  obj [("*/*", obj [("schema", obj [("type", str "string"); ("format", str "binary")])])].

(** [operation_methods]. *)
Definition METHOD_OPERATIONS : list (text * text) :=
  [(txt "GET", txt "get"); (txt "PUT", txt "put"); (txt "POST", txt "post"); (txt "DELETE", txt "delete");
   (txt "OPTIONS", txt "options"); (txt "HEAD", txt "head"); (txt "PATCH", txt "patch"); (txt "TRACE", txt "trace")].
Definition operation_methods (method : RouteMethod) : list text :=
  match method with
  | Any => OPERATIONS
  | One method => option_list (assoc method METHOD_OPERATIONS)
  end.

(** [strip_response_content]. *)
Definition strip_content (response : text * Value) : text * Value :=
  (response.1, match response.2 with Object members => Object (map_remove (txt "content") members) | v => v end).
Definition strip_response_content (operation : Value) : Value :=
  match value_get operation (txt "responses") with
  | Some (Object responses) => put operation "responses" (Object (strip_content <$> responses))
  | _ => operation
  end.

(** [unique_id]: [n] is the last suffix tried, and the fuel one more than the ids taken. *)
Fixpoint unique_from (fuel : nat) (ids : gset text) (base : text) (n : Z) (id : text) : option (text * gset text) :=
  match fuel with
  | O => None
  | S fuel =>
      if decide (id ∈ ids) then unique_from fuel ids base (n + 1) (base ++ txt "_" ++ show_u64 (n + 1))
      else Some (id, {[id]} ∪ ids)
  end.
Definition unique_id (ids : gset text) (base : text) : option (text * gset text) :=
  unique_from (S (S (size ids))) ids base 1 base.

(** [extract_path_params]: the state of the scan is whether it is in braces, and what
    they hold so far. *)
Fixpoint path_params_from (in_brace : bool) (current path : text) : list text :=
  match path with
  | [] => []
  | c :: path =>
      if decide (c = ch "{") then path_params_from true [] path
      else if decide (c = ch "}") then
        let name := default [] (head (split (ch "=") current)) in
        (if decide (name = []) then [] else [name]) ++ path_params_from false current path
      else path_params_from in_brace (if in_brace then current ++ [c] else current) path
  end.
Definition extract_path_params (path : text) : list text := path_params_from false [] path.

(** [add_path_operation]. *)
Definition add_path_operation (paths : list (text * Value)) (path method : text) (operation : Value) : list (text * Value) :=
  match default (Object []) (assoc path paths) with
  | Object operations => map_put path (Object (map_put method operation operations)) paths
  | item => map_put path item paths
  end.

(** A loop over a list whose body may run out of fuel. *)
Fixpoint ofold {A B} (f : A -> B -> option A) (a : A) (l : list B) : option A :=
  match l with [] => Some a | b :: l => let! a := f a b in ofold f a l end.

(** ** Schemas *)

Section Schemas.
Context {P : ProstLib} {SL : ServiceLib} {NL : NameLib}.

Definition is_well_known (msg : MessageDescriptor) : bool := has_special_json msg.

Definition STRING_FORMS : list text :=
  [txt "google.protobuf.Timestamp"; txt "google.protobuf.Duration"; txt "google.protobuf.FieldMask"; txt "google.protobuf.Value";
   txt "google.protobuf.DoubleValue"; txt "google.protobuf.FloatValue"; txt "google.protobuf.Int64Value";
   txt "google.protobuf.UInt64Value"; txt "google.protobuf.Int32Value"; txt "google.protobuf.UInt32Value";
   txt "google.protobuf.BoolValue"; txt "google.protobuf.StringValue"; txt "google.protobuf.BytesValue"].
Definition has_string_form (msg : MessageDescriptor) : bool := bool_decide (md_full_name msg ∈ STRING_FORMS).

Definition typed (type : string) : Value := obj [("type", str type)].
Definition formatted (type format : string) : Value := obj [("type", str type); ("format", str format)].

(** [well_known_schema]. *)
Definition WELL_KNOWN : list (text * Value) :=
  [(txt "google.protobuf.Timestamp", formatted "string" "date-time");
   (txt "google.protobuf.Duration", obj [("type", str "string"); ("format", str "duration"); ("example", str "3.5s")]);
   (txt "google.protobuf.Empty", typed "object"); (txt "google.protobuf.Struct", typed "object");
   (txt "google.protobuf.Value", Object []);
   (txt "google.protobuf.ListValue", obj [("type", str "array"); ("items", Object [])]);
   (txt "google.protobuf.StringValue", typed "string"); (txt "google.protobuf.BytesValue", typed "string");
   (txt "google.protobuf.BoolValue", typed "boolean");
   (txt "google.protobuf.Int32Value", typed "integer"); (txt "google.protobuf.UInt32Value", typed "integer");
   (txt "google.protobuf.Int64Value", formatted "string" "int64");
   (txt "google.protobuf.UInt64Value", formatted "string" "uint64");
   (txt "google.protobuf.FloatValue", typed "number"); (txt "google.protobuf.DoubleValue", typed "number");
   (txt "google.protobuf.FieldMask", obj [("type", str "string"); ("description", str "Comma-separated field paths")]);
   (txt "google.protobuf.Any",
      obj [("type", str "object"); ("properties", obj [("@type", typed "string")]); ("additionalProperties", Bool true)])].
Definition well_known_schema (msg : MessageDescriptor) : Value :=
  default (typed "object") (assoc (md_full_name msg) WELL_KNOWN).

(** The schema of one value of a kind. *)
Definition kind_schema (kind : Kind) (encoding : Encoding) : Value :=
  match kind with
  | KDouble | KFloat => formatted "number" "double"
  | KInt32 | KSint32 | KSfixed32 => formatted "integer" "int32"
  | KInt64 | KSint64 | KSfixed64 =>
      obj [("type", str "string"); ("format", str "int64"); ("description", str "64-bit integer (string-encoded)")]
  | KUint32 | KFixed32 => formatted "integer" "uint32"
  | KUint64 | KFixed64 =>
      obj [("type", str "string"); ("format", str "uint64"); ("description", str "64-bit unsigned integer (string-encoded)")]
  | KBool => typed "boolean"
  | KString => typed "string"
  | KBytes => formatted "string" "byte"
  | KEnum e =>
      match encoding with
      | JsonEncoding =>
          if decide (ed_full_name e = txt "google.protobuf.NullValue") then null_schema
          else obj [("type", str "string"); ("enum", Array (Str <$> ed_values e))]
      | Param => obj [("type", str "string"); ("enum", Array (Str <$> ed_values e))]
      end
  | KMessage msg =>
      match encoding with
      | Param =>
          if decide (md_full_name msg = txt "google.protobuf.Value") then typed "string"
          else if is_well_known msg then well_known_schema msg else ref_to (md_name msg)
      | JsonEncoding => if is_well_known msg then well_known_schema msg else ref_to (md_name msg)
      end
  end.

(** [field_to_schema]; the [value] of a map's entry is no map itself, so its schema goes
    no deeper. *)
Definition flat_schema (field : FieldDescriptor) (encoding : Encoding) : Value :=
  let base := kind_schema (fd_kind field) encoding in
  if fd_is_list field then obj [("type", str "array"); ("items", base)] else base.

Definition field_to_schema (field : FieldDescriptor) (encoding : Encoding) : Value :=
  if fd_is_list field then flat_schema field encoding
  else if fd_is_map field then
    match fd_kind field with
    | KMessage entry =>
        let value_schema :=
          match md_field_by_name entry (txt "value") with Some f => flat_schema f encoding | None => Object [] end in
        obj [("type", str "object"); ("additionalProperties", value_schema)]
    | _ => typed "object"
    end
  else flat_schema field encoding.

(** [Map<String, Value>] of the schemas. *)
Abbreviation Schemas := (list (text * Value)).

(** [message_to_schema] without what it registers. *)
Definition included (exclude : list text) (msg : MessageDescriptor) : list FieldDescriptor :=
  filter (fun f => fd_name f ∉ exclude) (md_fields msg).
Definition object_schema (msg : MessageDescriptor) (exclude : list text) : Value :=
  obj [("type", str "object");
       ("properties",
          Object (foldl (fun properties f => map_put (fd_json_name f) (field_to_schema f JsonEncoding) properties) []
                    (included exclude msg)))].

(** [register_nested], in terms of [message_to_schema]. *)
Definition register_with (rec : MessageDescriptor -> Schemas -> option (Value * Schemas)) (schemas : Schemas)
    (field : FieldDescriptor) : option Schemas :=
  match fd_kind field with
  | KMessage nested =>
      if is_well_known nested || map_contains (md_name nested) schemas then Some schemas
      else
        let schemas := map_put (md_name nested) (typed "object") schemas in
        let! built := rec nested schemas in Some (map_put (md_name nested) built.1 built.2)
  | _ => Some schemas
  end.

(** [message_to_schema]. *)
Fixpoint message_to_schema (fuel : nat) (msg : MessageDescriptor) (exclude : list text) (schemas : Schemas)
    : option (Value * Schemas) :=
  match fuel with
  | O => None
  | S fuel =>
      let! schemas := ofold (register_with (fun m => message_to_schema fuel m [])) schemas (included exclude msg) in
      Some (object_schema msg exclude, schemas)
  end.

Definition register_nested (fuel : nat) : Schemas -> FieldDescriptor -> option Schemas :=
  register_with (fun m => message_to_schema fuel m []).

(** The schema of a whole message, put under its name. *)
Definition put_message (fuel : nat) (msg : MessageDescriptor) (exclude : list text) (schemas : list (text * Value))
    : option (list (text * Value)) :=
  let! built := message_to_schema fuel msg exclude schemas in Some (map_put (md_name msg) built.1 built.2).

(** [message_ref_or_inline]. *)
Definition message_ref_or_inline (fuel : nat) (msg : MessageDescriptor) (schemas : Schemas) : option (Value * Schemas) :=
  let name := md_name msg in
  let! schemas :=
    if map_contains name schemas then Some schemas
    else put_message fuel msg [] schemas in
  Some (ref_to name, schemas).

(** ** Parameters *)

Definition query_param (key : text) (field : FieldDescriptor) : Value :=
  Object [(txt "name", Str key); (txt "in", str "query"); (txt "required", Bool false);
          (txt "schema", field_to_schema field Param)].

(** [query_params]: the parameters pushed, in order. *)
Fixpoint query_params (fuel : nat) (msg : MessageDescriptor) (prefix : text) (bound : text -> bool) (on_the_way : list text)
    : option (list Value) :=
  match fuel with
  | O => None
  | S fuel =>
      ofold (fun params field =>
          let key := prefix ++ fd_name field in
          if bound key || fd_is_map field then Some params
          else
            match fd_kind field with
            | KMessage inner =>
                if has_string_form inner then Some (params ++ [query_param key field])
                else if fd_is_list field || bool_decide (md_full_name inner ∈ on_the_way) then Some params
                else
                  let! nested := query_params fuel inner (key ++ txt ".") bound (on_the_way ++ [md_full_name inner]) in
                  Some (params ++ nested)
            | _ => Some (params ++ [query_param key field])
            end) [] (md_fields msg)
  end.

Definition path_param (input : MessageDescriptor) (name : text) : Value :=
  Object [(txt "name", Str name); (txt "in", str "path"); (txt "required", Bool true);
          (txt "schema", match md_field_by_name input name with
                         | Some field => field_to_schema field Param
                         | None => typed "string"
                         end)].

(** [response_field]. *)
Fixpoint response_field (desc : MessageDescriptor) (segments : list text) : option FieldDescriptor :=
  match segments with
  | [] => None
  | segment :: segments =>
      let! field := md_field_by_name desc segment in
      match segments with
      | [] => Some field
      | _ =>
          match fd_kind field with
          | KMessage inner => if fd_is_list field || fd_is_map field then None else response_field inner segments
          | _ => None
          end
      end
  end.
End Schemas.

(** ** Operations *)

Section Generate.
Context {HT : HttpLib} {P : ProstLib} {SL : ServiceLib} {UL : UriLib} {ML : MatchitLib} {NL : NameLib}.

Definition json_content (schema : Value) : Value := obj [("application/json", obj [("schema", schema)])].
Definition described (description : string) (content : Value) : Value :=
  obj [("description", str description); ("content", content)].
Definition ok_response (response : Value) : list (text * Value) := [(txt "200", response)].

(** The body of the request. *)
Definition request_body_of (fuel : nat) (input : MessageDescriptor) (body : BodyMapping) (path_params : list text)
    (schemas : list (text * Value)) : option (option Value * list (text * Value)) :=
  let required content := Some (obj [("required", Bool true); ("content", content)]) in
  match body with
  | MapNone => Some (None, schemas)
  | MapRoot =>
      if is_http_body input then Some (required raw_content, schemas)
      else if existsb (fun f => negb (bool_decide (fd_name f ∈ path_params))) (md_fields input) then
        let! schemas := put_message fuel input path_params schemas in
        Some (required (json_content (ref_to (md_name input))), schemas)
      else Some (None, schemas)
  | MapField name =>
      match md_field_by_name input name with
      | None => Some (None, schemas)
      | Some field =>
          match http_body_field input name with
          | Some _ => Some (required raw_content, schemas)
          | None =>
              let! schemas := register_nested fuel schemas field in
              Some (required (json_content (field_to_schema field JsonEncoding)), schemas)
          end
      end
  end.

(** The parameters: those of the path, then those of the query. *)
Definition parameters_of (fuel : nat) (input : MessageDescriptor) (body : BodyMapping) (path_params : list text)
    : option (list Value) :=
  let params := path_param input <$> path_params in
  let bound key :=
    existsb (fun p => bool_decide (p = key)) path_params ||
    match body with MapField name => bool_decide (name = key) | MapNone | MapRoot => false end in
  match body with
  | MapRoot => Some params
  | _ => let! query := query_params fuel input [] bound [md_full_name input] in Some (params ++ query)
  end.

(** The responses, without the errors. *)
Definition responses_of (fuel : nat) (output : MessageDescriptor) (server_streaming : bool) (response_body : option text)
    (schemas : list (text * Value)) : option (list (text * Value) * list (text * Value)) :=
  let raw_response :=
    match response_body with
    | None => is_http_body output
    | Some path => bool_decide (is_Some (http_body_path output path))
    end in
  if raw_response then
    let description :=
      if server_streaming then "Server-streaming raw body (the data of every message, concatenated)"%string else "Success"%string in
    Some (ok_response (described description raw_content), schemas)
  else if server_streaming then
    let! built := message_ref_or_inline fuel output schemas in
    Some (ok_response (described "Server-streaming response (NDJSON)"
                         (obj [("application/x-ndjson", obj [("schema", built.1)])])), built.2)
  else
    match response_body with
    | Some path =>
        match response_field output (split (ch ".") path) with
        | Some field =>
            let! schemas := register_nested fuel schemas field in
            Some (ok_response (described "Success" (json_content (field_to_schema field JsonEncoding))), schemas)
        | None => Some (ok_response (described "Success" (json_content null_schema)), schemas)
        end
    | None =>
        if decide (md_full_name output = txt "google.protobuf.Empty")
        then Some (ok_response (obj [("description", str "Success (empty response)")]), schemas)
        else
          let! schemas := put_message fuel output [] schemas in
          Some (ok_response (described "Success" (json_content (ref_to (md_name output)))), schemas)
    end.

Definition ERRORS : list (text * Value) :=
  [(txt "400", obj [("description", str "Invalid argument")]); (txt "401", obj [("description", str "Unauthenticated")]);
   (txt "403", obj [("description", str "Permission denied")]); (txt "404", obj [("description", str "Not found")]);
   (txt "503", obj [("description", str "Service unavailable")])].

(** [build_operation]; no comment of the descriptors is read ([get_comments]). *)
Definition build_operation (fuel : nat) (method : MethodDescriptor) (service_name : text) (binding : HttpBinding)
    (schemas : list (text * Value)) : option (Value * list (text * Value)) :=
  let input := mt_input method in
  let path_params := extract_path_params (hb_path binding) in
  let op := [(txt "tags", Array [Str service_name]); (txt "summary", Str (mt_name method))] in
  '(body, schemas) ← request_body_of fuel input (hb_body binding) path_params schemas;
  let op := match body with Some body => op ++ [(txt "requestBody", body)] | None => op end in
  let! params := parameters_of fuel input (hb_body binding) path_params in
  let op := match params with [] => op | _ => op ++ [(txt "parameters", Array params)] end in
  '(responses, schemas) ←
    responses_of fuel (mt_output method) (mt_server_streaming method) (hb_response_body binding) schemas;
  Some (Object (op ++ [(txt "responses", Object (responses ++ ERRORS))]), schemas).

(** ** The document *)

(** What the loops of [generate] fill. *)
Record Doc := mkDoc {
  dc_paths : list (text * Value);
  dc_schemas : list (text * Value);
  dc_tags : list Value;
  dc_ids : gset text;
}.

Section Loops.
Context (aliases : list AliasConfig) (selection : RpcSelection) (mounted : gset text) (fuel : nat).

Definition targets (path : text) : list text := path :: omap (alias_path path) aliases.

(** One target of an operation. *)
Definition add_target (http_method id : text) (operation : Value) (doc : Doc) (path : text) : option Doc :=
  let mount := mounted_new path in
  if negb (is_routable mount) || bool_decide (m_shape mount ∉ mounted) then Some doc
  else
    let operation := if decide (http_method = txt "head") then strip_response_content operation else operation in
    '(id, ids) ← unique_id (dc_ids doc) id;
    Some (mkDoc (add_path_operation (dc_paths doc) path http_method (put operation "operationId" (Str id)))
            (dc_schemas doc) (dc_tags doc) ids).

Definition add_operation (path : text) (operation : Value) (base : text) (expanded : bool) (doc : Doc) (http_method : text)
    : option Doc :=
  let id := if expanded then base ++ txt "_" ++ http_method else base in
  ofold (add_target http_method id operation) doc (targets path).

Definition add_binding_to (service : ServiceDescriptor) (method : MethodDescriptor) (doc : Doc) (binding : HttpBinding)
    : option Doc :=
  match operation_methods (hb_method binding) with
  | [] => Some doc
  | operations =>
      '(operation, schemas) ← build_operation fuel method (sd_name service) binding (dc_schemas doc);
      ofold (add_operation (hb_path binding) operation (sd_name service ++ txt "." ++ mt_name method)
               (1 <? length operations)%nat)
        (mkDoc (dc_paths doc) schemas (dc_tags doc) (dc_ids doc)) operations
  end.

Definition add_method (http_ext : ExtensionDescriptor) (service : ServiceDescriptor) (doc : Doc) (method : MethodDescriptor)
    : option Doc :=
  if mt_client_streaming method || negb (selects selection method) then Some doc
  else ofold (add_binding_to service method) doc (http_bindings method http_ext).

Definition add_service (http_ext : option ExtensionDescriptor) (doc : Doc) (service : ServiceDescriptor) : option Doc :=
  if negb (is_all selection) && negb (existsb (selects selection) (sd_methods service)) then Some doc
  else
    let doc := mkDoc (dc_paths doc) (dc_schemas doc) (dc_tags doc ++ [Object [(txt "name", Str (sd_name service))]]) (dc_ids doc) in
    match http_ext with
    | None => Some doc
    | Some http_ext => ofold (add_method http_ext service) doc (sd_methods service)
    end.
End Loops.

Definition SECURITY : Value :=
  obj [("bearerAuth", obj [("type", str "http"); ("scheme", str "bearer"); ("bearerFormat", str "JWT")])].

(** The loops over a pool. *)
Definition document (pool : DescriptorPool) (aliases : list AliasConfig) (selection : RpcSelection) (fuel : nat) : option Doc :=
  ofold (add_service aliases selection (mounted_shapes pool aliases selection) fuel
           (pool_extension_by_name pool (txt "google.api.http")))
    (mkDoc [] [] [] ∅) (pool_services pool).

Definition assemble (config : OpenApiConfig) (doc : Doc) : Value :=
  let components :=
    (match dc_schemas doc with [] => [] | schemas => [(txt "schemas", Object schemas)] end) ++
    [(txt "securitySchemes", SECURITY)] in
  Object [(txt "openapi", str "3.0.3");
          (txt "info", Object [(txt "title", Str (default (txt "API") (oa_title config)));
                               (txt "version", Str (default (txt "1.0.0") (oa_version config)))]);
          (txt "paths", Object (dc_paths doc)); (txt "tags", Array (dc_tags doc));
          (txt "components", Object components)].

(** [generate], with fuel for the types of the pool. *)
Definition generate (pool : DescriptorPool) (config : OpenApiConfig) (aliases : list AliasConfig) (selection : RpcSelection)
    : option Value :=
  assemble config <$> document pool aliases selection (S (length (pool_all_messages pool))).
End Generate.

(** * Laws *)

(** ** The loops *)

Lemma ofold_inv {A B} (f : A -> B -> option A) (I : A -> Prop) (l : list B) (a a' : A) :
  (forall a b a', b ∈ l -> I a -> f a b = Some a' -> I a') -> I a -> ofold f a l = Some a' -> I a'.
Proof.
  revert a. induction l as [|b l IH]; intros a Hf Ha; cbn; [by intros [= <-]|].
  destruct (f a b) as [a1|] eqn:E; [|done]. cbn. apply IH; [|eapply Hf; [by left|done..]].
  intros a2 b2 a3 Hb. apply Hf. by right.
Qed.

(** Each turn adds at most its weight to a measure that has room for all of them. *)
Lemma ofold_total {A B} (f : A -> B -> option A) (I : A -> Prop) (measure : A -> nat) (weight : B -> nat) (room : nat)
    (l : list B) (a : A) :
  (forall a b, b ∈ l -> I a -> (measure a + weight b <= room)%nat ->
     exists a', f a b = Some a' /\ I a' /\ (measure a' <= measure a + weight b)%nat) ->
  I a -> (measure a + sum_list_with weight l <= room)%nat ->
  exists a', ofold f a l = Some a' /\ I a' /\ (measure a' <= measure a + sum_list_with weight l)%nat.
Proof.
  revert a. induction l as [|b l IH]; intros a Hf Ha Hr; cbn in *; [exists a; split_and!; [done..|lia]|].
  destruct (Hf a b) as (a1 & -> & Ha1 & Hm); [by left|done|lia|]. cbn.
  destruct (IH a1) as (a2 & -> & Ha2 & Hm2); [|done|lia|]; [|exists a2; split_and!; [done..|lia]].
  intros a3 b3 Hb. apply Hf. by right.
Qed.

(** The same of a loop that only keeps an invariant. *)
Lemma ofold_some {A B} (f : A -> B -> option A) (I : A -> Prop) (l : list B) (a : A) :
  (forall a b, b ∈ l -> I a -> exists a', f a b = Some a' /\ I a') -> I a -> exists a', ofold f a l = Some a' /\ I a'.
Proof.
  intros Hf Ha. destruct (ofold_total f I (fun _ => 0%nat) (fun _ => 0%nat) 0 l a) as (a' & H1 & H2 & _); [|done| |by exists a'].
  - intros a1 b Hb Ha1 _. destruct (Hf a1 b Hb Ha1) as (a2 & H1 & H2). by exists a2.
  - induction l as [|b l IH]; cbn; [lia|]. apply IH. intros a1 b1 Hb. apply Hf. by right.
Qed.

(** ** References *)

(** The schema a member names. *)
Definition ref_of (m : text * Value) : list text :=
  match m.2 with
  | Str s => if decide (m.1 = REF) then option_list (strip_prefix SCHEMAS s) else []
  | _ => []
  end.

(** The schemas a value refers to, at any depth. *)
Fixpoint refs (v : Value) : list text :=
  match v with
  | Array items => (fix go l := match l with [] => [] | x :: l => refs x ++ go l end) items
  | Object members => (fix go l := match l with [] => [] | m :: l => ref_of m ++ refs m.2 ++ go l end) members
  | _ => []
  end.

Definition resolves (names : list text) (v : Value) : Prop := forall n, n ∈ refs v -> n ∈ names.
Definition member_resolves (names : list text) (m : text * Value) : Prop :=
  (forall n, n ∈ ref_of m -> n ∈ names) /\ resolves names m.2.

Lemma resolves_array (names : list text) (items : list Value) :
  resolves names (Array items) <-> Forall (resolves names) items.
Proof.
  unfold resolves. induction items as [|v items IH]; [split; [constructor|by intros _ n ?%elem_of_nil]|].
  rewrite Forall_cons, <- IH. cbn. setoid_rewrite elem_of_app. firstorder.
Qed.

Lemma resolves_object (names : list text) (members : list (text * Value)) :
  resolves names (Object members) <-> Forall (member_resolves names) members.
Proof.
  unfold resolves. induction members as [|m members IH]; [split; [constructor|by intros _ n ?%elem_of_nil]|].
  rewrite Forall_cons, <- IH. unfold member_resolves, resolves. cbn. setoid_rewrite elem_of_app. setoid_rewrite elem_of_app.
  firstorder.
Qed.

Lemma resolves_mono (names names' : list text) (v : Value) : names ⊆ names' -> resolves names v -> resolves names' v.
Proof. intros Hs H n Hn. by apply Hs, H. Qed.

Lemma member_mono (names names' : list text) (m : text * Value) :
  names ⊆ names' -> member_resolves names m -> member_resolves names' m.
Proof. intros Hs [H1 H2]. split; [|by eapply resolves_mono]. intros n Hn. by apply Hs, H1. Qed.

(** A member whose value is no text, or whose key is another, names nothing itself. *)
Lemma member_value (names : list text) (k : text) (v : Value) :
  (k <> REF \/ forall s, v <> Str s) -> resolves names v -> member_resolves names (k, v).
Proof.
  intros H Hv. split; [|done]. intros n. unfold ref_of. cbn. destruct v; try by intros ?%elem_of_nil.
  destruct H as [H|H]; [|by destruct (H s)]. rewrite decide_False by done. by intros ?%elem_of_nil.
Qed.

Lemma resolves_plain (names : list text) (v : Value) : refs v = [] -> resolves names v.
Proof. unfold resolves. intros ->. by intros n ?%elem_of_nil. Qed.

Lemma map_put_keys (key : text) (v : Value) (members : list (text * Value)) (n : text) :
  n ∈ (map_put key v members).*1 <-> n = key \/ n ∈ members.*1.
Proof.
  induction members as [|[k w] members IH]; cbn [map_put].
  - cbn. rewrite list_elem_of_singleton, elem_of_nil. tauto.
  - case_decide as Hk; subst; cbn; rewrite !elem_of_cons, ?IH; tauto.
Qed.

Lemma map_put_Forall (Q : text * Value -> Prop) (key : text) (v : Value) (members : list (text * Value)) :
  Q (key, v) -> Forall Q members -> Forall Q (map_put key v members).
Proof.
  intros Hv H. induction H as [|[k w] members Hm HF IH]; cbn [map_put]; [by constructor|].
  case_decide as Hk; subst; by constructor.
Qed.

Lemma map_contains_keys (key : text) (members : list (text * Value)) :
  map_contains key members = true <-> key ∈ members.*1.
Proof.
  unfold map_contains. rewrite bool_decide_eq_true. induction members as [|[k w] members IH]; cbn.
  - rewrite elem_of_nil. split; [by intros []|done].
  - rewrite elem_of_cons. case_decide as Hk; subst; [split; [by left|by eexists]|]. rewrite IH.
    split; [tauto|]. intros [->|?]; done.
Qed.

Lemma resolves_ref (names : list text) (n : text) : resolves names (ref_to n) <-> n ∈ names.
Proof.
  unfold resolves, ref_to. cbn -[SCHEMAS]. unfold ref_of. cbn [fst snd].
  rewrite decide_True by done.
  assert (Hs : strip_prefix SCHEMAS (SCHEMAS ++ n) = Some n) by (by apply strip_prefix_Some). rewrite Hs. cbn. split; [intros H; apply H; by left|].
  intros H m Hm. apply elem_of_cons in Hm as [->|Hm]; [done|by apply elem_of_nil in Hm].
Qed.

(** Through the members of an object with constant keys. *)
Ltac resolve :=
  repeat match goal with
    | |- resolves _ (obj _) => apply resolves_object; cbn [fmap list_fmap fst snd]
    | |- resolves _ (json_content _) => unfold json_content
    | |- resolves _ (typed _) => unfold typed
    | |- resolves _ (Object _) => apply resolves_object
    | |- resolves _ (Array _) => apply resolves_array
    | |- Forall _ (_ :: _) => constructor
    | |- Forall _ [] => constructor
    | |- member_resolves _ (_, _) => apply member_value; [by left|]
    | |- resolves _ (Str _) => by apply resolves_plain
    | |- resolves _ (str _) => by apply resolves_plain
    | |- resolves _ (Bool _) => by apply resolves_plain
    end.

(** What the document relies on of the descriptors: a field found by name is one of the message's,
    and a map field is one of entries, with a [key] that is no message and a [value] that is no map. *)
Class DescriptorLaws (P : ProstLib) : Prop := {
  named_field d n f : md_field_by_name d n = Some f -> f ∈ md_fields d;
  entry_fields f :
    fd_is_map f = true ->
    fd_is_list f = false /\
    exists e key value, fd_kind f = KMessage e /\ has_special_json e = false /\ md_fields e = [key; value] /\
      md_field_by_name e (txt "value") = Some value /\ kind_message (fd_kind key) = None /\ fd_is_map value = false;
}.

Lemma string_form_special {P : ProstLib} (m : MessageDescriptor) : has_string_form m = true -> has_special_json m = true.
Proof.
  unfold has_string_form, has_special_json. rewrite !bool_decide_eq_true. revert m.
  assert (H : Forall (fun n => n ∈ special_names) STRING_FORMS) by (apply (bool_decide_unpack _); by vm_compute).
  intros m. by apply (proj1 (Forall_forall _ _) H).
Qed.

Section References.
Context {P : ProstLib} {DL : DescriptorLaws P} {SL : ServiceLib} {NL : NameLib}.

(** The message a field refers to by name. *)
Definition nested_of (f : FieldDescriptor) : option MessageDescriptor :=
  match fd_kind f with KMessage n => if is_well_known n then None else Some n | _ => None end.
Definition registered (names : list text) (f : FieldDescriptor) : Prop := forall n, nested_of f = Some n -> md_name n ∈ names.

Lemma registered_mono (names names' : list text) (f : FieldDescriptor) :
  names ⊆ names' -> registered names f -> registered names' f.
Proof. intros Hs H n Hn. by apply Hs, H. Qed.

Lemma well_known_plain (names : list text) (m : MessageDescriptor) : resolves names (well_known_schema m).
Proof.
  apply resolves_plain. unfold well_known_schema.
  assert (H : Forall (fun kv => refs kv.2 = []) WELL_KNOWN) by (repeat constructor).
  destruct (assoc (md_full_name m) WELL_KNOWN) as [v|] eqn:E; [|done]. cbn. revert H E. generalize WELL_KNOWN. intros l H.
  induction H as [|[k w] l Hk HF IH]; cbn; [done|]. case_decide; [by intros [= <-]|done].
Qed.

Lemma values_plain (names l : list text) : resolves names (Array (Str <$> l)).
Proof. apply resolves_array. induction l as [|s l IH]; cbn; constructor; [by apply resolves_plain|done]. Qed.

Lemma kind_resolves (names : list text) (f : FieldDescriptor) (encoding : Encoding) :
  registered names f -> resolves names (kind_schema (fd_kind f) encoding).
Proof.
  unfold registered, nested_of. destruct (fd_kind f); intros H; try by apply resolves_plain.
  - cbn. assert (Hm : resolves names (if is_well_known m then well_known_schema m else ref_to (md_name m))).
    { destruct (is_well_known m); [apply well_known_plain|]. apply resolves_ref. by apply H. }
    destruct encoding; [done|]. case_decide; [by apply resolves_plain|done].
  - cbn. assert (He : resolves names (obj [("type", str "string"); ("enum", Array (Str <$> ed_values e))])).
    { apply resolves_object. repeat (constructor; [apply member_value|]); [by left|by apply resolves_plain|by left|apply values_plain|constructor]. }
    destruct encoding; [|done]. case_decide; [by apply resolves_plain|done].
Qed.

Lemma flat_resolves (names : list text) (f : FieldDescriptor) (encoding : Encoding) :
  registered names f -> resolves names (flat_schema f encoding).
Proof.
  intros H. unfold flat_schema. destruct (fd_is_list f); [|by apply kind_resolves]. apply resolves_object.
  repeat (constructor; [apply member_value|]); [by left|by apply resolves_plain|by left|by apply kind_resolves|constructor].
Qed.

(** The types of the document: closed under their fields. *)
Context (D : MessageDescriptor -> Prop).
Hypothesis D_fields : forall m f n, D m -> f ∈ md_fields m -> fd_kind f = KMessage n -> D n.

Definition entry (e : MessageDescriptor) (value : FieldDescriptor) : Prop :=
  exists m f, D m /\ f ∈ md_fields m /\ fd_is_map f = true /\ fd_kind f = KMessage e /\
    md_field_by_name e (txt "value") = Some value.

(** The values of the entries named are registered, but for those excused. *)
Definition values_but (excused : MessageDescriptor -> FieldDescriptor -> Prop) (schemas : list (text * Value)) : Prop :=
  forall e value, entry e value -> md_name e ∈ schemas.*1 -> registered schemas.*1 value \/ excused e value.
Definition values_in : list (text * Value) -> Prop := values_but (fun _ _ => False).
Definition sound (schemas : list (text * Value)) : Prop := Forall (member_resolves schemas.*1) schemas.

Definition grows (s s' : list (text * Value)) : Prop := s.*1 ⊆ s'.*1 /\ values_in s' /\ (sound s -> sound s').

Lemma entry_known (e : MessageDescriptor) (value : FieldDescriptor) :
  entry e value -> D e /\ is_well_known e = false /\ exists key, md_fields e = [key; value] /\ kind_message (fd_kind key) = None.
Proof.
  intros (m & f & Hm & Hf & Hmap & Hk & Hv). split; [by eapply D_fields|].
  destruct (entry_fields f Hmap) as (_ & e' & key & value' & Hk' & Hw & Hl & Hv' & Hkey & _).
  rewrite Hk in Hk'. injection Hk' as <-. rewrite Hv in Hv'. injection Hv' as <-. split; [done|]. by exists key.
Qed.

Lemma field_resolves (m : MessageDescriptor) (f : FieldDescriptor) (schemas : list (text * Value)) (encoding : Encoding) :
  D m -> f ∈ md_fields m -> values_in schemas -> registered schemas.*1 f -> resolves schemas.*1 (field_to_schema f encoding).
Proof.
  intros Hm Hf Hg Hr. unfold field_to_schema. destruct (fd_is_list f); [by apply flat_resolves|].
  destruct (fd_is_map f) eqn:Emap; [|by apply flat_resolves].
  destruct (entry_fields f Emap) as (_ & e & key & value & Hk & Hw & Hl & Hv & Hkey & _). rewrite Hk, Hv.
  apply resolves_object. constructor; [apply member_value; [by left|by apply resolves_plain]|].
  constructor; [|constructor]. apply member_value; [by left|]. apply flat_resolves.
  destruct (Hg e value) as [?|[]]; [|apply Hr|done].
  - by exists m, f.
  - unfold nested_of, is_well_known. by rewrite Hk, Hw.
Qed.

Lemma well_known_object (m : MessageDescriptor) : exists members, well_known_schema m = Object members.
Proof.
  unfold well_known_schema.
  assert (H : Forall (fun kv => exists members, kv.2 = Object members) WELL_KNOWN) by (repeat constructor; by eexists).
  revert H. generalize WELL_KNOWN. intros l H.
  induction H as [|[k w] l [ms Hk] HF IH]; cbn; [by eexists|]. case_decide; [|done]. cbn in *. rewrite Hk. by eexists.
Qed.

Lemma field_schema_object (f : FieldDescriptor) (encoding : Encoding) (s : text) : field_to_schema f encoding <> Str s.
Proof.
  assert (Hk : forall k, kind_schema k encoding <> Str s).
  { intros k. destruct k; try done.
    - unfold kind_schema. destruct (well_known_object m) as [ms Hm]. destruct encoding, (is_well_known m); rewrite ?Hm; try case_decide; done.
    - unfold kind_schema. destruct encoding; [case_decide|]; done. }
  assert (Hf : flat_schema f encoding <> Str s) by (unfold flat_schema; destruct (fd_is_list f); [done|apply Hk]).
  unfold field_to_schema. destruct (fd_is_list f); [done|]. destruct (fd_is_map f); [|done]. by destruct (fd_kind f).
Qed.

Lemma object_resolves (m : MessageDescriptor) (exclude : list text) (schemas : list (text * Value)) :
  D m -> values_in schemas -> Forall (registered schemas.*1) (included exclude m) ->
  resolves schemas.*1 (object_schema m exclude).
Proof.
  intros Hm Hg HF. apply resolves_object. constructor; [apply member_value; [by left|by apply resolves_plain]|].
  constructor; [|constructor]. apply member_value; [by left|]. apply resolves_object.
  assert (Hin : Forall (fun f => f ∈ md_fields m) (included exclude m)).
  { apply Forall_forall. intros f Hf. by apply list_elem_of_filter in Hf as [_ ?]. }
  assert (Hacc : forall acc, Forall (member_resolves schemas.*1) acc ->
            Forall (member_resolves schemas.*1)
              (foldl (fun ps f => map_put (fd_json_name f) (field_to_schema f JsonEncoding) ps) acc (included exclude m))).
  { revert HF Hin. generalize (included exclude m). intros l HF Hin.
    induction HF as [|f l Hf HF IH]; intros acc Ha; [done|]. inversion Hin; subst. apply IH; [done|].
    apply map_put_Forall; [|done]. apply member_value; [|by eapply field_resolves]. right. apply field_schema_object. }
  by apply Hacc.
Qed.

(** No message but the entry has the short name of a map's entry. *)
Hypothesis D_entries : forall e value m, entry e value -> D m -> md_name m = md_name e -> m = e.

(** A message's schema is built in full: of what it is called with, [message_to_schema] keeps
    the schemas there and answers one that resolves beside them. *)
Definition builds (rec : MessageDescriptor -> list (text * Value) -> option (Value * list (text * Value))) : Prop :=
  forall msg s v s', D msg -> rec msg s = Some (v, s') -> values_but (fun e _ => e = msg) s ->
    grows s s' /\ resolves s'.*1 v /\ forall t, v <> Str t.

Lemma values_keys (s s' : list (text * Value)) : s.*1 ⊆ s'.*1 -> s'.*1 ⊆ s.*1 -> values_in s -> values_in s'.
Proof.
  intros H1 H2 Hv e value He Hn. destruct (Hv e value He (H2 _ Hn)) as [?|[]]. left. by eapply registered_mono.
Qed.

Lemma grows_trans (s1 s2 s3 : list (text * Value)) : grows s1 s2 -> grows s2 s3 -> grows s1 s3.
Proof. intros (H1 & H2 & H3) (H4 & H5 & H6). split; [set_solver|]. split; [done|tauto]. Qed.

Lemma grows_refl (s : list (text * Value)) : values_in s -> grows s s.
Proof. by split. Qed.

Lemma grows_put (s : list (text * Value)) (key : text) (v : Value) :
  values_in s -> key ∈ s.*1 -> (forall t, v <> Str t) -> resolves s.*1 v -> grows s (map_put key v s).
Proof.
  intros Hv Hk Hno Hr. assert (H1 : s.*1 ⊆ (map_put key v s).*1) by (intros n Hn; apply map_put_keys; tauto).
  assert (H2 : (map_put key v s).*1 ⊆ s.*1) by (intros n [->|Hn]%map_put_keys; done).
  split; [done|]. split; [by eapply values_keys|]. intros Hs. apply map_put_Forall.
  - apply (member_mono s.*1); [done|]. by apply member_value; [right|].
  - eapply Forall_impl; [done|]. intros m. by apply member_mono.
Qed.

Lemma registered_excused (s : list (text * Value)) (Q : MessageDescriptor -> FieldDescriptor -> Prop) :
  (forall e value, entry e value -> Q e value -> registered s.*1 value) -> values_but Q s -> values_in s.
Proof. intros H Hv e value He Hn. destruct (Hv e value He Hn) as [?|HQ]; left; [done|by eapply H]. Qed.

Lemma register_grows rec (m : MessageDescriptor) (f : FieldDescriptor) (s s' : list (text * Value)) :
  builds rec -> D m -> f ∈ md_fields m -> register_with rec s f = Some s' -> values_but (fun _ value => value = f) s ->
  grows s s' /\ registered s'.*1 f.
Proof.
  intros Hrec Hm Hf H Hv. assert (Hkeep : s' = s -> registered s.*1 f -> grows s s' /\ registered s'.*1 f).
  { intros -> Hr. split; [|done]. apply grows_refl. eapply registered_excused; [|done]. by intros e value _ ->. }
  unfold register_with in H. unfold registered, nested_of in *. destruct (fd_kind f) eqn:Ek;
    try (apply Hkeep; [congruence|by intros n [=]]).
  destruct (is_well_known m0) eqn:Ew; [apply Hkeep; [cbn in H; congruence|by intros n [=]]|].
  destruct (map_contains (md_name m0) s) eqn:Ec; cbn [orb] in H.
  { apply Hkeep; [congruence|]. intros n [= <-]. by apply map_contains_keys. }
  assert (Hn : D m0) by by eapply D_fields.
  set (s1 := map_put (md_name m0) (typed "object") s) in *.
  destruct (rec m0 s1) as [[v s2]|] eqn:Er; [|done]. injection H as <-. cbn [fst snd].
  assert (Hk1 : s.*1 ⊆ s1.*1) by (intros n ?; apply map_put_keys; tauto).
  assert (Hin : md_name m0 ∈ s1.*1) by (apply map_put_keys; tauto).
  destruct (Hrec m0 s1 v s2 Hn Er) as [(G1 & G2 & G3) [Hr Hno]].
  { intros e value He [Hname|Hname]%map_put_keys; [right; symmetry; by eapply D_entries|].
    left. destruct (Hv e value He Hname) as [?| ->]; [by eapply registered_mono|].
    intros n. unfold nested_of. rewrite Ek, Ew. by intros [= <-]. }
  destruct (grows_put s2 (md_name m0) v G2 (G1 _ Hin) Hno Hr) as (P1 & P2 & P3).
  split; [|intros n [= <-]; by apply P1, G1]. split; [set_solver|]. split; [done|]. intros Hs. apply P3, G3.
  apply map_put_Forall; [apply member_value; [by right|by apply resolves_plain]|].
  eapply Forall_impl; [exact Hs|]. intros x. by apply member_mono.
Qed.

Lemma fields_grow rec (m : MessageDescriptor) (l : list FieldDescriptor) (s s' : list (text * Value)) :
  builds rec -> D m -> l ⊆ md_fields m -> ofold (register_with rec) s l = Some s' ->
  values_but (fun e value => e = m /\ value ∈ l) s ->
  grows s s' /\ Forall (registered s'.*1) l.
Proof.
  intros Hrec Hm. revert s. induction l as [|f l IH]; intros s Hl H Hv.
  - injection H as <-. split; [|constructor]. apply grows_refl. eapply registered_excused; [|done].
    by intros e value _ [_ ?%elem_of_nil].
  - cbn in H. destruct (register_with rec s f) as [s1|] eqn:Er; [|done]. cbn in H.
    assert (Hf : f ∈ md_fields m) by (apply Hl; by left). assert (Hl' : l ⊆ md_fields m) by set_solver.
    destruct (kind_message (fd_kind f)) as [n|] eqn:Ek.
    + destruct (register_grows rec m f s s1 Hrec Hm Hf Er) as [Hg Hr].
      { intros e value He Hn. destruct (Hv e value He Hn) as [?|[-> Hin]]; [by left|]. right.
        destruct (entry_known m value He) as (_ & _ & key & Hfields & Hkey).
        rewrite Hfields in Hf. apply elem_of_cons in Hf as [->|Hf%list_elem_of_singleton]; [congruence|done]. }
      destruct (IH s1 Hl' H) as [Hg' HF].
      { intros e value He Hn. destruct Hg as (_ & Hg & _). destruct (Hg e value He Hn) as [?|[]]. by left. }
      split; [by eapply grows_trans|]. constructor; [|done]. eapply registered_mono; [apply Hg'|done].
    + assert (Hfree : forall names, registered names f).
      { intros names n. unfold nested_of. destruct (fd_kind f); try done. }
      assert (s1 = s) as -> by (unfold register_with in Er; destruct (fd_kind f); cbn in Ek; congruence).
      destruct (IH s Hl' H) as [Hg HF]; [|by split; [|constructor]].
      intros e value He Hn. destruct (Hv e value He Hn) as [?|[-> Hin]]; [by left|].
      apply elem_of_cons in Hin as [->|Hin]; [left; apply Hfree|by right].
Qed.

Lemma schema_grows (fuel : nat) (msg : MessageDescriptor) (exclude : list text) (s : list (text * Value)) (v : Value)
    (s' : list (text * Value)) :
  D msg -> message_to_schema fuel msg exclude s = Some (v, s') ->
  values_but (fun e value => e = msg /\ value ∈ included exclude msg) s ->
  grows s s' /\ resolves s'.*1 v /\ forall t, v <> Str t.
Proof.
  revert msg exclude s v s'. induction fuel as [|fuel IH]; intros msg exclude s v s' Hm H Hv; [done|].
  cbn [message_to_schema] in H.
  destruct (ofold _ s (included exclude msg)) as [s1|] eqn:Ef; [|done]. cbn in H. injection H as <- <-.
  destruct (fields_grow (fun m => message_to_schema fuel m []) msg (included exclude msg) s s1) as [Hg HF]; try done.
  - intros m s2 v2 s3 Hd H2 Hv2. eapply IH; [done..|]. intros e value He Hn.
    destruct (Hv2 e value He Hn) as [?| ->]; [by left|]. right. split; [done|].
    destruct (entry_known m value He) as (_ & _ & key & Hfields & _). apply list_elem_of_filter.
    split; [by intros ?%elem_of_nil|]. rewrite Hfields. set_solver.
  - intros f Hf. by apply list_elem_of_filter in Hf as [_ ?].
  - split; [done|]. split; [|done]. apply object_resolves; [done|apply Hg|done].
Qed.

Lemma fuel_builds (fuel : nat) : builds (fun m => message_to_schema fuel m []).
Proof.
  intros m s v s' Hm H Hv. eapply schema_grows; [done..|]. intros e value He Hn.
  destruct (Hv e value He Hn) as [?| ->]; [by left|]. right. split; [done|].
  destruct (entry_known m value He) as (_ & _ & key & Hfields & _). apply list_elem_of_filter.
  split; [by intros ?%elem_of_nil|]. rewrite Hfields. set_solver.
Qed.

(** From a state whose entries are whole. *)
Lemma nested_grows (fuel : nat) (m : MessageDescriptor) (f : FieldDescriptor) (s s' : list (text * Value)) :
  D m -> f ∈ md_fields m -> register_nested fuel s f = Some s' -> values_in s ->
  grows s s' /\ forall encoding, resolves s'.*1 (field_to_schema f encoding).
Proof.
  intros Hm Hf H Hv. destruct (register_grows _ m f s s' (fuel_builds fuel) Hm Hf H) as [Hg Hr].
  { intros e value He Hn. destruct (Hv e value He Hn) as [?|[]]. by left. }
  split; [done|]. intros encoding. eapply field_resolves; [done..|apply Hg|done].
Qed.

Lemma put_grows (fuel : nat) (m : MessageDescriptor) (exclude : list text) (s s' : list (text * Value)) :
  D m -> (forall value, ~ entry m value) -> values_in s ->
  put_message fuel m exclude s = Some s' ->
  grows s s' /\ md_name m ∈ s'.*1.
Proof.
  intros Hm Hne Hv H. unfold put_message in H. destruct (message_to_schema fuel m exclude s) as [[v s1]|] eqn:Es; [|done]. cbn in H. injection H as <-.
  destruct (schema_grows fuel m exclude s v s1 Hm Es) as [Hg [Hr Hno]].
  { intros e value He Hn. destruct (Hv e value He Hn) as [?|[]]. by left. }
  assert (Hk : md_name m ∈ (map_put (md_name m) v s1).*1) by (apply map_put_keys; tauto). split; [|done].
  assert (H1 : s1.*1 ⊆ (map_put (md_name m) v s1).*1) by (intros n Hn; apply map_put_keys; tauto).
  eapply grows_trans; [exact Hg|]. destruct Hg as (_ & Hg & _). split; [done|]. split.
  - intros e value He [Hname|Hname]%map_put_keys.
    + pose proof (D_entries e value m He Hm (eq_sym Hname)). subst. by destruct (Hne value).
    + destruct (Hg e value He Hname) as [?|[]]. left. by eapply registered_mono.
  - intros Hs. apply map_put_Forall.
    + apply (member_mono s1.*1); [done|]. apply member_value; [by right|done].
    + eapply Forall_impl; [exact Hs|]. intros x. by apply member_mono.
Qed.

(** A field that names no schema refers to none. *)
Lemma plain_field (names : list text) (f : FieldDescriptor) (encoding : Encoding) :
  nested_of f = None -> resolves names (field_to_schema f encoding).
Proof.
  intros Hn. assert (Hf : resolves names (flat_schema f encoding)) by (apply flat_resolves; intros n; congruence).
  unfold field_to_schema. destruct (fd_is_list f); [done|]. destruct (fd_is_map f) eqn:Em; [|done].
  destruct (entry_fields f Em) as (_ & e & _ & _ & Hk & Hw & _). unfold nested_of, is_well_known in Hn. by rewrite Hk, Hw in Hn.
Qed.

Lemma params_resolve (names : list text) (fuel : nat) (msg : MessageDescriptor) (prefix : text) (bound : text -> bool)
    (seen : list text) (params : list Value) :
  query_params fuel msg prefix bound seen = Some params -> Forall (resolves names) params.
Proof.
  revert msg prefix seen params. induction fuel as [|fuel IH]; intros msg prefix seen params; [done|]. cbn [query_params].
  apply ofold_inv; [|constructor]. intros acc f acc' _ Hacc H. cbn beta zeta in H.
  assert (Hp : nested_of f = None -> Forall (resolves names) (acc ++ [query_param (prefix ++ fd_name f) f])).
  { intros Hn. apply Forall_app. split; [done|]. constructor; [|constructor]. unfold query_param. resolve. by apply plain_field. }
  destruct (bound _ || _); [by injection H as <-|]. unfold nested_of in Hp.
  destruct (fd_kind f) eqn:Ek; try (injection H as <-; by apply Hp).
  destruct (has_string_form m) eqn:Es.
  - injection H as <-. apply Hp. unfold is_well_known. rewrite string_form_special; done.
  - destruct (_ || _); [by injection H as <-|]. destruct (query_params fuel m _ bound _) as [nested|] eqn:Eq; [|done].
    injection H as <-. apply Forall_app. split; [done|]. by eapply IH.
Qed.

Lemma body_grows (fuel : nat) (input : MessageDescriptor) (body : BodyMapping) (path_params : list text)
    (s : list (text * Value)) (b : option Value) (s' : list (text * Value)) :
  D input -> (forall value, ~ entry input value) -> values_in s ->
  request_body_of fuel input body path_params s = Some (b, s') -> grows s s' /\ forall v, b = Some v -> resolves s'.*1 v.
Proof.
  intros Hd Hne Hv H. unfold request_body_of in H. destruct body as [| |name].
  - injection H as <- <-. by split; [apply grows_refl|].
  - destruct (is_http_body input).
    + injection H as <- <-. split; [by apply grows_refl|]. intros v [= <-]. by apply resolves_plain.
    + destruct (existsb _ _); [|injection H as <- <-; by split; [apply grows_refl|]].
      destruct (put_message fuel input path_params s) as [s1|] eqn:Ep; [|done]. injection H as <- <-.
      apply put_grows in Ep as [Hg Hin]; [|done..]. split; [done|]. intros v [= <-]. resolve. by apply resolves_ref.
  - destruct (md_field_by_name input name) as [f|] eqn:Ef; [|injection H as <- <-; by split; [apply grows_refl|]].
    destruct (http_body_field input name).
    + injection H as <- <-. split; [by apply grows_refl|]. intros v [= <-]. by apply resolves_plain.
    + destruct (register_nested fuel s f) as [s1|] eqn:Er; [|done]. injection H as <- <-.
      apply named_field in Ef. destruct (nested_grows fuel input f s s1 Hd Ef Er Hv) as [Hg Hr].
      split; [done|]. intros v [= <-]. resolve. apply Hr.
Qed.

Lemma response_field_known (m : MessageDescriptor) (segments : list text) (f : FieldDescriptor) :
  D m -> response_field m segments = Some f -> exists m', D m' /\ f ∈ md_fields m'.
Proof.
  revert m. induction segments as [|segment segments IH]; intros m Hm H; cbn in H; [done|].
  destruct (md_field_by_name m segment) as [g|] eqn:Eg; [|done]. cbn in H. apply named_field in Eg.
  destruct segments as [|segment' segments]; [injection H as <-; by exists m|].
  destruct (fd_kind g) eqn:Ek; try done. destruct (_ || _); [done|]. apply IH in H; [done|]. by eapply D_fields.
Qed.

Lemma responses_grow (fuel : nat) (output : MessageDescriptor) (streaming : bool) (response_body : option text)
    (s : list (text * Value)) (responses s' : list (text * Value)) :
  D output -> (forall value, ~ entry output value) -> values_in s ->
  responses_of fuel output streaming response_body s = Some (responses, s') ->
  grows s s' /\ Forall (member_resolves s'.*1) responses.
Proof.
  intros Hd Hne Hv H. unfold responses_of in H. destruct (match response_body with Some _ => _ | None => _ end).
  { injection H as <- <-. split; [by apply grows_refl|]. unfold ok_response, described. resolve. by apply resolves_plain. }
  destruct streaming.
  { destruct (message_ref_or_inline fuel output s) as [[v s1]|] eqn:Em; [|done]. injection H as <- <-. cbn [fst snd].
    unfold message_ref_or_inline in Em. destruct (map_contains (md_name output) s) eqn:Ec.
    - injection Em as <- <-. split; [by apply grows_refl|]. unfold ok_response, described. resolve.
      apply resolves_ref. by apply map_contains_keys.
    - destruct (put_message fuel output [] s) as [s2|] eqn:Ep; [|done]. injection Em as <- <-.
      apply put_grows in Ep as [Hg Hin]; [|done..]. split; [done|]. unfold ok_response, described. resolve. by apply resolves_ref. }
  destruct response_body as [path|].
  - destruct (response_field output _) as [f|] eqn:Ef.
    + destruct (register_nested fuel s f) as [s1|] eqn:Er; [|done]. injection H as <- <-.
      apply response_field_known in Ef as (m & Hm & Hf); [|done]. destruct (nested_grows fuel m f s s1 Hm Hf Er Hv) as [Hg Hr].
      split; [done|]. unfold ok_response, described, json_content. resolve. apply Hr.
    + injection H as <- <-. split; [by apply grows_refl|]. unfold ok_response, described, json_content. resolve.
      by apply resolves_plain.
  - case_decide.
    + injection H as <- <-. split; [by apply grows_refl|]. unfold ok_response. by resolve.
    + destruct (put_message fuel output [] s) as [s1|] eqn:Ep; [|done]. injection H as <- <-.
      apply put_grows in Ep as [Hg Hin]; [|done..]. split; [done|]. unfold ok_response, described, json_content. resolve.
      by apply resolves_ref.
Qed.

(** The operation of a binding whose path variables name no message. *)
Lemma operation_grows (fuel : nat) (method : MethodDescriptor) (service_name : text) (binding : HttpBinding)
    (s : list (text * Value)) (op : Value) (s' : list (text * Value)) :
  D (mt_input method) -> D (mt_output method) ->
  (forall value, ~ entry (mt_input method) value) -> (forall value, ~ entry (mt_output method) value) ->
  Forall (fun name => forall f, md_field_by_name (mt_input method) name = Some f -> nested_of f = None)
    (extract_path_params (hb_path binding)) ->
  values_in s -> build_operation fuel method service_name binding s = Some (op, s') -> grows s s' /\ resolves s'.*1 op.
Proof.
  intros Hi Ho Hni Hno Hpath Hv H. unfold build_operation in H.
  destruct (request_body_of _ _ _ _ s) as [[body s1]|] eqn:Eb; [|done]. cbn in H.
  destruct (body_grows _ _ _ _ _ _ _ Hi Hni Hv Eb) as [Hg1 Hb].
  destruct (parameters_of _ _ _ _) as [params|] eqn:Ep; [|done]. cbn in H.
  destruct (responses_of _ _ _ _ s1) as [[rs s2]|] eqn:Er; [|done]. cbn in H.
  assert (Hv1 : values_in s1) by apply Hg1. destruct (responses_grow _ _ _ _ _ _ _ Ho Hno Hv1 Er) as [Hg2 Hr].
  injection H as <- <-. split; [by eapply grows_trans|].
  assert (Hparams : resolves s2.*1 (Array params)).
  { apply resolves_array. unfold parameters_of in Ep.
    assert (Hps : Forall (resolves s2.*1) (path_param (mt_input method) <$> extract_path_params (hb_path binding))).
    { apply Forall_fmap. eapply Forall_impl; [exact Hpath|]. intros name Hn. cbn. unfold path_param. resolve.
      destruct (md_field_by_name _ name) as [f|] eqn:Ef; [apply plain_field; by apply Hn|by resolve]. }
    destruct (hb_body binding); try (injection Ep as <-; done);
      (destruct (query_params _ _ _ _ _) as [query|] eqn:Eq; [|done]); injection Ep as <-; apply Forall_app;
      (split; [done|]); by eapply params_resolve. }
  assert (Hbase : Forall (member_resolves s2.*1) [(txt "tags", Array [Str service_name]); (txt "summary", Str (mt_name method))])
    by (by resolve).
  apply resolves_object. apply Forall_app. split.
  - assert (Hop : Forall (member_resolves s2.*1) (match body with Some b => [(txt "requestBody", b)] | None => [] end)).
    { destruct body as [b|]; [|constructor]. constructor; [|constructor]. apply member_value; [by left|].
      eapply resolves_mono; [apply Hg2|]. by apply Hb. }
    assert (Hpar : Forall (member_resolves s2.*1) [(txt "parameters", Array params)])
      by (constructor; [by apply member_value; [left|]|constructor]).
    destruct body as [b|], params as [|p params]; rewrite ?Forall_app, ?Forall_cons in *; tauto.
  - constructor; [|constructor]. apply member_value; [by left|]. apply resolves_object. apply Forall_app. split; [done|].
    unfold ERRORS. by resolve.
Qed.
End References.

(** ** The loops end *)

(** The names not seen yet. *)
Definition missing (names seen : list text) : nat := length (filter (fun n => n ∉ seen) names).

Lemma missing_le (names seen seen' : list text) : seen ⊆ seen' -> (missing names seen' <= missing names seen)%nat.
Proof.
  intros Hs. unfold missing. induction names as [|n names IH]; [done|]. rewrite !filter_cons.
  destruct (decide (n ∉ seen')) as [H1|H1], (decide (n ∉ seen)) as [H2|H2]; cbn; try lia. destruct H2. set_solver.
Qed.

Lemma missing_lt (names seen seen' : list text) (n : text) :
  seen ⊆ seen' -> n ∈ names -> n ∉ seen -> n ∈ seen' -> (missing names seen' < missing names seen)%nat.
Proof.
  intros Hs Hn H1 H2. induction names as [|k names IH]; [by apply elem_of_nil in Hn|].
  pose proof (missing_le names seen seen' Hs) as Hle. unfold missing in *. rewrite !filter_cons.
  apply elem_of_cons in Hn as [<-|Hn].
  - rewrite (decide_True (P := n ∉ seen)) by done. rewrite decide_False by (intros H; by apply H). cbn. lia.
  - specialize (IH Hn). destruct (decide (k ∉ seen')) as [E1|E1], (decide (k ∉ seen)) as [E2|E2]; cbn; try lia.
    destruct E2. set_solver.
Qed.

Lemma missing_length (names seen : list text) : (missing names seen <= length names)%nat.
Proof. apply length_filter. Qed.

(** [unique_id] finds an id that is free: it has one more to try than are taken. *)
Definition suffixed (base : text) (n : Z) : text := base ++ txt "_" ++ show_u64 n.

Lemma suffixed_inj (base : text) (m n : Z) : in_u64 m -> in_u64 n -> suffixed base m = suffixed base n -> m = n.
Proof.
  intros Hm Hn H. apply (app_inv_head base), (app_inv_head (txt "_")) in H.
  pose proof (parse_show_u64 m Hm) as Pm. rewrite H, (parse_show_u64 n Hn) in Pm. congruence.
Qed.

Lemma suffixed_base (base : text) (n : Z) : suffixed base n <> base.
Proof.
  unfold suffixed. intros H. apply (f_equal length) in H. rewrite !length_app in H. change (length (txt "_")) with 1%nat in H. lia.
Qed.

(** The ids tried from the [n]th on. *)
Definition tried (base : text) (n : Z) (fuel : nat) : list text := (fun i => suffixed base (n + Z.of_nat i)) <$> seq 1 fuel.

Lemma tried_NoDup (base : text) (n : Z) (fuel : nat) : 0 <= n -> n + Z.of_nat fuel < 2 ^ 64 -> NoDup (tried base n fuel).
Proof.
  intros Hn Hf. apply NoDup_fmap_2_strong; [|apply NoDup_seq]. intros i j Hi Hj H.
  apply elem_of_seq in Hi, Hj. apply suffixed_inj in H; unfold in_u64, U64_MAX in *; lia.
Qed.

Lemma unique_from_none (fuel : nat) (ids : gset text) (base : text) (n : Z) (id : text) :
  unique_from (S fuel) ids base n id = None -> id ∈ ids /\ Forall (fun i => i ∈ ids) (tried base n fuel).
Proof.
  assert (Hstep : forall fuel n id, unique_from (S fuel) ids base n id = None ->
    id ∈ ids /\ unique_from fuel ids base (n + 1) (suffixed base (n + 1)) = None).
  { intros f m i. cbn [unique_from]. destruct (decide (i ∈ ids)); [by split|done]. }
  revert n id. induction fuel as [|fuel IH]; intros n id H; apply Hstep in H as [Hid H]; (split; [done|]).
  - constructor.
  - apply IH in H as [H1 H2]. unfold tried in *. cbn [seq fmap list_fmap]. constructor; [exact H1|].
    rewrite <- seq_shift. apply Forall_fmap, List.Forall_map. apply Forall_fmap in H2.
    eapply Forall_impl; [exact H2|]. intros i. cbn. by replace (n + 1 + Z.of_nat i) with (n + Z.of_nat (S i)) by lia.
Qed.

Lemma unique_from_some (fuel : nat) (ids : gset text) (base : text) (n : Z) (id i : text) (ids' : gset text) :
  unique_from fuel ids base n id = Some (i, ids') -> (i ∉ ids) /\ ids' = {[i]} ∪ ids.
Proof.
  revert n id. induction fuel as [|fuel IH]; intros n id; cbn; [done|]. case_decide; [apply IH|]. by intros [= <- <-].
Qed.

Lemma unique_id_some (ids : gset text) (base : text) :
  Z.of_nat (size ids) < 2 ^ 32 -> exists i, unique_id ids base = Some (i, {[i]} ∪ ids) /\ i ∉ ids.
Proof.
  intros Hs. destruct (unique_id ids base) as [[i ids']|] eqn:E; unfold unique_id in E.
  - apply unique_from_some in E as [H ->]. by exists i.
  - exfalso. apply unique_from_none in E as [H1 H2].
    assert (Hd : NoDup (base :: tried base 1 (S (size ids)))).
    { constructor; [|apply tried_NoDup; lia]. intros (j & Hj & _)%list_elem_of_fmap. by apply (suffixed_base base (1 + Z.of_nat j)). }
    assert (Hin : list_to_set (C := gset text) (base :: tried base 1 (S (size ids))) ⊆ ids).
    { intros x. rewrite elem_of_list_to_set, elem_of_cons. intros [->|Hx]; [done|]. by eapply Forall_forall in H2. }
    apply subseteq_size in Hin. rewrite size_list_to_set in Hin by done. cbn in Hin. unfold tried in Hin.
    rewrite length_fmap, length_seq in Hin. lia.
Qed.

Section Ends.
Context {P : ProstLib} {SL : ServiceLib} {NL : NameLib}.

(** The messages of a pool, with those of their fields. *)
Context (types : list MessageDescriptor).
Hypothesis types_fields : forall m f n, m ∈ types -> f ∈ md_fields m -> fd_kind f = KMessage n -> n ∈ types.

Abbreviation names := (md_name <$> types).
Abbreviation full_names := (md_full_name <$> types).

Lemma put_missing (s : list (text * Value)) (key : text) (v : Value) :
  s.*1 ⊆ (map_put key v s).*1 /\ (key ∈ names -> key ∉ s.*1 -> missing names (map_put key v s).*1 < missing names s.*1)%nat.
Proof.
  assert (H : s.*1 ⊆ (map_put key v s).*1) by (intros n Hn; apply map_put_keys; tauto). split; [done|].
  intros Hk Hn. eapply missing_lt; [done..|]. apply map_put_keys. by left.
Qed.

Lemma schema_total (fuel : nat) (msg : MessageDescriptor) (exclude : list text) (s : list (text * Value)) :
  msg ∈ types -> (missing names s.*1 < fuel)%nat ->
  exists v s', message_to_schema fuel msg exclude s = Some (v, s') /\ s.*1 ⊆ s'.*1.
Proof.
  revert msg exclude s. induction fuel as [|fuel IH]; intros msg exclude s Hm Hf; [lia|]. cbn [message_to_schema].
  destruct (ofold_some (register_with (fun m => message_to_schema fuel m [])) (fun s' => s.*1 ⊆ s'.*1)
              (included exclude msg) s) as (s' & -> & Hs); [|done|by exists (object_schema msg exclude), s'].
  intros s1 f [_ Hin]%list_elem_of_filter Hs1. unfold register_with. destruct (fd_kind f) eqn:Ek; eauto.
  destruct (is_well_known m); cbn [orb]; eauto. destruct (map_contains (md_name m) s1) eqn:Ec; eauto.
  assert (Hk : md_name m ∉ s1.*1) by (intros H%map_contains_keys; congruence).
  assert (Ht : m ∈ types) by by eapply types_fields.
  destruct (put_missing s1 (md_name m) (typed "object")) as [Hp Hlt].
  specialize (Hlt (list_elem_of_fmap_2 md_name _ _ Ht) Hk). pose proof (missing_le names _ _ Hs1).
  destruct (IH m [] (map_put (md_name m) (typed "object") s1) Ht) as (v & s2 & -> & Hs2); [lia|]. cbn.
  eexists. split; [done|]. destruct (put_missing s2 (md_name m) v) as [Hp2 _]. set_solver.
Qed.

Lemma params_total (fuel : nat) (msg : MessageDescriptor) (prefix : text) (bound : text -> bool) (on_the_way : list text) :
  msg ∈ types -> (missing full_names on_the_way < fuel)%nat ->
  exists params, query_params fuel msg prefix bound on_the_way = Some params.
Proof.
  revert msg prefix on_the_way. induction fuel as [|fuel IH]; intros msg prefix seen Hm Hf; [lia|]. cbn [query_params].
  match goal with |- context [ofold ?f ?a ?l] => destruct (ofold_some f (fun _ => True) l a) as (ps & -> & _); [|done|by exists ps] end.
  intros acc f Hin _. cbn beta zeta. destruct (bound _ || _); [by eexists|].
  destruct (fd_kind f) eqn:Ek; try by eexists. destruct (has_string_form m); [by eexists|].
  destruct (fd_is_list f); cbn [orb]; [by eexists|]. case_bool_decide as Hseen; [by eexists|].
  assert (Ht : m ∈ types) by by eapply types_fields.
  destruct (IH m (prefix ++ fd_name f ++ txt ".") (seen ++ [md_full_name m]) Ht) as [nested Hn].
  { enough (missing full_names (seen ++ [md_full_name m]) < missing full_names seen)%nat by lia.
    eapply missing_lt; [|by eapply list_elem_of_fmap_2|done|]; set_solver. }
  rewrite <- app_assoc, Hn. by eexists.
Qed.
End Ends.

(** ** The loops of the document *)

Lemma assoc_map_put (key : text) (v : Value) (members : list (text * Value)) (n : text) :
  assoc n (map_put key v members) = if decide (n = key) then Some v else assoc n members.
Proof.
  induction members as [|[k w] members IH]; cbn.
  - destruct (decide (key = n)), (decide (n = key)); congruence.
  - destruct (decide (k = key)) as [->|Hk]; cbn.
    + destruct (decide (key = n)), (decide (n = key)); congruence.
    + rewrite IH. destruct (decide (k = n)), (decide (n = key)); congruence.
Qed.

(** The operation documented for a method of a path. *)
Definition op_at (doc : Doc) (path method : text) : option Value :=
  match assoc path (dc_paths doc) with Some (Object operations) => assoc method operations | _ => None end.

(** Every path item is an object. *)
Definition items_ok (doc : Doc) : Prop := Forall (fun item => exists operations, item.2 = Object operations) (dc_paths doc).

(** The document with an operation more. *)
Definition with_op (doc : Doc) (path method : text) (operation : Value) (id : text) : Doc :=
  mkDoc (add_path_operation (dc_paths doc) path method (put operation "operationId" (Str id)))
    (dc_schemas doc) (dc_tags doc) ({[id]} ∪ dc_ids doc).

Lemma items_at (doc : Doc) (path : text) (v : Value) :
  items_ok doc -> assoc path (dc_paths doc) = Some v -> exists operations, v = Object operations.
Proof.
  unfold items_ok. induction 1 as [|[k w] items [ops Hw] _ IH]; cbn; [done|]. case_decide; [|done].
  intros [= <-]. by exists ops.
Qed.

Lemma with_op_paths (doc : Doc) (path method : text) (operation : Value) (id : text) :
  items_ok doc ->
  exists operations,
    dc_paths (with_op doc path method operation id) =
      map_put path (Object (map_put method (put operation "operationId" (Str id)) operations)) (dc_paths doc) /\
    (forall m, assoc m operations = op_at doc path m) /\
    (assoc path (dc_paths doc) = Some (Object operations) \/ operations = []).
Proof.
  intros Hi. cbn. unfold add_path_operation, op_at. destruct (assoc path (dc_paths doc)) as [v|] eqn:E; cbn.
  - destruct (items_at doc path v Hi E) as [ops ->]. exists ops. split_and!; [done..|by left].
  - exists []. split_and!; [done..|by right].
Qed.

Lemma with_op_items (doc : Doc) (path method : text) (operation : Value) (id : text) :
  items_ok doc -> items_ok (with_op doc path method operation id).
Proof.
  intros Hi. destruct (with_op_paths doc path method operation id Hi) as (ops & Hp & _). unfold items_ok. rewrite Hp.
  apply map_put_Forall; [by eexists|done].
Qed.

Lemma with_op_at (doc : Doc) (path method : text) (operation : Value) (id p m : text) :
  items_ok doc ->
  op_at (with_op doc path method operation id) p m =
    if decide (p = path /\ m = method) then Some (put operation "operationId" (Str id)) else op_at doc p m.
Proof.
  intros Hi. destruct (with_op_paths doc path method operation id Hi) as (ops & Hp & Ho & _).
  unfold op_at at 1. rewrite Hp, assoc_map_put. destruct (decide (p = path)) as [->|Hn].
  - rewrite assoc_map_put, Ho. destruct (decide (m = method)), (decide (path = path /\ m = method)); try done; intuition congruence.
  - rewrite decide_False by (by intros [? _]). done.
Qed.

Lemma op_kept (doc : Doc) (path method : text) (operation : Value) (id p m : text) :
  items_ok doc -> is_Some (op_at doc p m) -> is_Some (op_at (with_op doc path method operation id) p m).
Proof. intros Hi Hs. rewrite with_op_at by done. case_decide; [by eexists|done]. Qed.

Section Document.
Context {HT : HttpLib} {P : ProstLib} {SL : ServiceLib} {UL : UriLib} {ML : MatchitLib} {NL : NameLib}.
Context (aliases : list AliasConfig) (selection : RpcSelection) (mounted : gset text) (fuel : nat).

(** A path the router mounts. *)
Definition servable (path : text) : Prop :=
  is_routable (mounted_new path) = true /\ m_shape (mounted_new path) ∈ mounted.

(** A binding of a method the document describes. *)
Definition described_by (http_ext : ExtensionDescriptor) (method : MethodDescriptor) (binding : HttpBinding) : Prop :=
  mt_client_streaming method = false /\ selects selection method = true /\ binding ∈ http_bindings method http_ext.

Definition with_tag (doc : Doc) (tag : Value) : Doc := mkDoc (dc_paths doc) (dc_schemas doc) (dc_tags doc ++ [tag]) (dc_ids doc).
Definition with_schemas (doc : Doc) (schemas : list (text * Value)) : Doc :=
  mkDoc (dc_paths doc) schemas (dc_tags doc) (dc_ids doc).

(** The operation as the target of a method gets it. *)
Definition of_method (http_method : text) (operation : Value) : Value :=
  if decide (http_method = txt "head") then strip_response_content operation else operation.

Section Induction.
(** What holds of the document between bindings, and while the targets of an operation are
    added to it. *)
Context (I : Doc -> Prop) (J : HttpBinding -> Value -> Doc -> Prop).
Context (services : list ServiceDescriptor) (http_ext : ExtensionDescriptor).
Hypothesis I_tag : forall doc service, service ∈ services -> I doc -> I (with_tag doc (Object [(txt "name", Str (sd_name service))])).
Hypothesis I_build :
  forall doc service method binding op schemas,
    service ∈ services -> method ∈ sd_methods service -> described_by http_ext method binding -> I doc ->
    build_operation fuel method (sd_name service) binding (dc_schemas doc) = Some (op, schemas) ->
    J binding op (with_schemas doc schemas).
Hypothesis J_add :
  forall doc service method binding op http_method path id,
    service ∈ services -> method ∈ sd_methods service -> described_by http_ext method binding ->
    http_method ∈ operation_methods (hb_method binding) -> path ∈ targets aliases (hb_path binding) -> servable path ->
    id ∉ dc_ids doc -> J binding op doc -> J binding op (with_op doc path http_method (of_method http_method op) id).
Hypothesis J_done : forall doc binding op, J binding op doc -> I doc.

Lemma target_ind (service : ServiceDescriptor) (method : MethodDescriptor) (binding : HttpBinding)
    (op : Value) (http_method id path : text) (doc doc' : Doc) :
  service ∈ services -> method ∈ sd_methods service -> described_by http_ext method binding ->
  http_method ∈ operation_methods (hb_method binding) -> path ∈ targets aliases (hb_path binding) ->
  J binding op doc -> add_target mounted http_method id op doc path = Some doc' -> J binding op doc'.
Proof using J_add.
  intros Hs Hm Hd Hh Hp HJ H. unfold add_target in H. destruct (negb _ || _) eqn:E; [by injection H as <-|].
  apply orb_false_iff in E as [E1 E2]. apply negb_false_iff in E1. apply bool_decide_eq_false, dec_stable in E2.
  destruct (unique_id (dc_ids doc) id) as [[i ids]|] eqn:Eu; [|done]. injection H as <-.
  unfold unique_id in Eu. apply unique_from_some in Eu as [Hi ->].
  exact (J_add doc service method binding op http_method path i Hs Hm Hd Hh Hp (conj E1 E2) Hi HJ).
Qed.

Lemma operation_ind (service : ServiceDescriptor) (method : MethodDescriptor) (binding : HttpBinding)
    (op : Value) (base http_method : text) (expanded : bool) (doc doc' : Doc) :
  service ∈ services -> method ∈ sd_methods service -> described_by http_ext method binding ->
  http_method ∈ operation_methods (hb_method binding) ->
  J binding op doc -> add_operation aliases mounted (hb_path binding) op base expanded doc http_method = Some doc' -> J binding op doc'.
Proof using J_add.
  intros Hs Hm Hd Hh. apply ofold_inv. intros a path a' Hp. by eapply target_ind.
Qed.

Lemma binding_ind (service : ServiceDescriptor) (method : MethodDescriptor) (binding : HttpBinding) (doc doc' : Doc) :
  service ∈ services -> method ∈ sd_methods service -> described_by http_ext method binding ->
  I doc -> add_binding_to aliases mounted fuel service method doc binding = Some doc' -> I doc'.
Proof using I_build J_add J_done.
  intros Hs Hm Hd HI H. unfold add_binding_to in H. destruct (operation_methods (hb_method binding)) as [|h hs] eqn:Eo; [by injection H as <-|].
  destruct (build_operation _ _ _ _ _) as [[op schemas]|] eqn:Eb; [|done]. cbn -[ofold] in H.
  apply (J_done doc' binding op). revert H. apply ofold_inv.
  - intros a h' a' Hh HJ. apply (operation_ind service method); try done. by rewrite Eo.
  - by apply (I_build doc service method).
Qed.

Lemma method_ind (service : ServiceDescriptor) (method : MethodDescriptor) (doc doc' : Doc) :
  service ∈ services -> method ∈ sd_methods service ->
  I doc -> add_method aliases selection mounted fuel http_ext service doc method = Some doc' -> I doc'.
Proof using I_build J_add J_done.
  intros Hs Hm HI H. unfold add_method in H. destruct (_ || _) eqn:E; [by injection H as <-|].
  apply orb_false_iff in E as [E1 E2]. apply negb_false_iff in E2. revert H. apply ofold_inv; [|done].
  intros a b a' Hb. by apply (binding_ind service).
Qed.

Lemma service_ind (service : ServiceDescriptor) (doc doc' : Doc) :
  service ∈ services -> I doc -> add_service aliases selection mounted fuel (Some http_ext) doc service = Some doc' -> I doc'.
Proof.
  intros Hs HI H. unfold add_service in H. destruct (_ && _); [by injection H as <-|]. revert H.
  apply ofold_inv; [|by apply (I_tag doc service)]. intros a m a' Hm. by apply method_ind.
Qed.
End Induction.

(** What no turn of the loops undoes. *)
Record stable (I : Doc -> Prop) : Prop := {
  st_tag d tag : I d -> I (with_tag d tag);
  st_schemas d schemas : I d -> I (with_schemas d schemas);
  st_op d path method op id : I d -> I (with_op d path method op id);
}.

Section Stable.
Context (I : Doc -> Prop) (HI : stable I) (http_ext : ExtensionDescriptor) (service : ServiceDescriptor).
Context (method : MethodDescriptor) (binding : HttpBinding).
Hypothesis Hm : method ∈ sd_methods service.
Hypothesis Hd : described_by http_ext method binding.

Lemma service_stable (d d' : Doc) : I d -> add_service aliases selection mounted fuel (Some http_ext) d service = Some d' -> I d'.
Proof using HI.
  apply (service_ind I (fun _ _ => I) [service] http_ext); try done.
  - intros. by apply (st_tag I HI).
  - intros. by apply (st_schemas I HI).
  - intros. by apply (st_op I HI).
  - by left.
Qed.

Lemma method_stable (d d' : Doc) : I d -> add_method aliases selection mounted fuel http_ext service d method = Some d' -> I d'.
Proof using HI Hm.
  apply (method_ind I (fun _ _ => I) [service] http_ext); try done.
  - intros. by apply (st_schemas I HI).
  - intros. by apply (st_op I HI).
  - by left.
Qed.

Lemma binding_stable (d d' : Doc) : I d -> add_binding_to aliases mounted fuel service method d binding = Some d' -> I d'.
Proof using HI Hm Hd.
  apply (binding_ind I (fun _ _ => I) [service] http_ext); try done.
  - intros. by apply (st_schemas I HI).
  - intros. by apply (st_op I HI).
  - by left.
Qed.

Lemma operation_stable (op : Value) (base http_method : text) (expanded : bool) (d d' : Doc) :
  http_method ∈ operation_methods (hb_method binding) -> I d ->
  add_operation aliases mounted (hb_path binding) op base expanded d http_method = Some d' -> I d'.
Proof using HI Hm Hd.
  intros Hh. apply (operation_ind (fun _ _ => I) [service] http_ext) with service method; try done.
  - intros. by apply (st_op I HI).
  - by left.
Qed.

Lemma target_stable (op : Value) (http_method id path : text) (d d' : Doc) :
  http_method ∈ operation_methods (hb_method binding) -> path ∈ targets aliases (hb_path binding) -> I d ->
  add_target mounted http_method id op d path = Some d' -> I d'.
Proof using HI Hm Hd.
  intros Hh Hp. apply (target_ind (fun _ _ => I) [service] http_ext) with service method binding; try done.
  - intros. by apply (st_op I HI).
  - by left.
Qed.
End Stable.
End Document.

Lemma ofold_hits {A B} (f : A -> B -> option A) (I Q : A -> Prop) (l : list B) (b : B) (a a' : A) :
  b ∈ l -> (forall a c a', c ∈ l -> I a -> f a c = Some a' -> I a') ->
  (forall a c a', c ∈ l -> Q a -> f a c = Some a' -> Q a') -> (forall a a', I a -> f a b = Some a' -> Q a') ->
  I a -> ofold f a l = Some a' -> Q a'.
Proof.
  revert a. induction l as [|c l IH]; intros a Hb HI HQ Hhit Ha; cbn; [by apply elem_of_nil in Hb|].
  destruct (f a c) as [a1|] eqn:E; [|done]. cbn. apply elem_of_cons in Hb as [<-|Hb].
  - apply ofold_inv; [|by eapply Hhit]. intros a2 c2 a3 Hc. apply HQ. by right.
  - apply IH; [done| | |done|].
    + intros a2 c2 a3 Hc. apply HI. by right.
    + intros a2 c2 a3 Hc. apply HQ. by right.
    + eapply HI; [by left|done..].
Qed.

Lemma operation_object {P : ProstLib} {SL : ServiceLib} {NL : NameLib} (fuel : nat) (method : MethodDescriptor) (service_name : text)
    (binding : HttpBinding) (s : list (text * Value)) (op : Value) (s' : list (text * Value)) :
  build_operation fuel method service_name binding s = Some (op, s') -> exists members, op = Object members.
Proof.
  unfold build_operation. destruct (request_body_of _ _ _ _ s) as [[body s1]|]; [|done]. cbn.
  destruct (parameters_of _ _ _ _); [|done]. cbn. destruct (responses_of _ _ _ _ s1) as [[rs s2]|]; [|done]. cbn.
  intros [= <- <-]. by eexists.
Qed.

Lemma of_method_object (http_method : text) (members : list (text * Value)) :
  exists members', of_method http_method (Object members) = Object members'.
Proof.
  unfold of_method, strip_response_content. case_decide; [|by eexists]. cbn. repeat case_match; by eexists.
Qed.

(** The operation of a method at a path of the document. *)
Definition documented (spec : Value) (path method : text) : option Value :=
  let! paths := value_get spec (txt "paths") in let! item := value_get paths path in value_get item method.
Definition operation_id (operation : Value) : option Value := value_get operation (txt "operationId").

Lemma documented_at (config : OpenApiConfig) (doc : Doc) (path method : text) :
  documented (assemble config doc) path method = op_at doc path method.
Proof.
  change (documented (assemble config doc) path method) with
    (let! item := assoc path (dc_paths doc) in value_get item method).
  unfold op_at. destruct (assoc path (dc_paths doc)) as [v|]; [|done]. by destruct v.
Qed.

(** Every operation has an id, and no two have the same. *)
Record ids_ok (doc : Doc) : Prop := {
  io_items : items_ok doc;
  io_taken p m o : op_at doc p m = Some o -> exists id, operation_id o = Some (Str id) /\ id ∈ dc_ids doc;
  io_distinct p m o p' m' o' :
    op_at doc p m = Some o -> op_at doc p' m' = Some o' -> operation_id o = operation_id o' -> p = p' /\ m = m';
}.

Lemma with_op_ids (doc : Doc) (path method : text) (members : list (text * Value)) (id : text) :
  ids_ok doc -> id ∉ dc_ids doc -> ids_ok (with_op doc path method (Object members) id).
Proof.
  intros [Hi Ht Hd] Hid.
  assert (Hnew : operation_id (put (Object members) "operationId" (Str id)) = Some (Str id)).
  { unfold operation_id, put. cbn [value_get]. by rewrite assoc_map_put, decide_True. }
  assert (Hat : forall p m o, op_at (with_op doc path method (Object members) id) p m = Some o ->
    (p = path /\ m = method /\ operation_id o = Some (Str id)) \/ op_at doc p m = Some o).
  { intros p m o. rewrite with_op_at by done. destruct (decide _) as [[-> ->]|]; [|by right]. intros [= <-]. by left. }
  assert (Hfresh : forall p m o, op_at doc p m = Some o -> operation_id o <> Some (Str id)).
  { intros p m o Ho E. destruct (Ht p m o Ho) as (i & Hi' & Hin). rewrite E in Hi'. by injection Hi' as ->. }
  split; [by apply with_op_items| |].
  - intros p m o [(-> & -> & Ho)|Ho]%Hat; [exists id; cbn; set_solver|]. destruct (Ht p m o Ho) as (i & ? & ?). exists i. cbn. set_solver.
  - intros p m o p' m' o' [(-> & -> & Ho)|Ho]%Hat [(-> & -> & Ho')|Ho']%Hat E; try done.
    + rewrite Ho in E. symmetry in E. by apply Hfresh in Ho'.
    + rewrite Ho' in E. by apply Hfresh in Ho.
    + by eapply Hd.
Qed.

Section Spec.
Context {HT : HttpLib} {P : ProstLib} {SL : ServiceLib} {UL : UriLib} {ML : MatchitLib} {NL : NameLib}.
Context (pool : DescriptorPool) (aliases : list AliasConfig) (selection : RpcSelection).

Abbreviation mounted := (mounted_shapes pool aliases selection).
Abbreviation ext := (pool_extension_by_name pool (txt "google.api.http")).

(** A rule of [google.api.http] that puts a method at a path the router mounts. *)
Definition ruled (path http_method : text) : Prop :=
  exists http_ext service method binding,
    ext = Some http_ext /\ service ∈ pool_services pool /\ method ∈ sd_methods service /\
    described_by selection http_ext method binding /\ http_method ∈ operation_methods (hb_method binding) /\
    path ∈ targets aliases (hb_path binding) /\ servable mounted path.

Lemma document_ind (fuel : nat) (I : Doc -> Prop) (J : HttpBinding -> Value -> Doc -> Prop) (doc : Doc) :
  (forall d service, I d -> I (with_tag d (Object [(txt "name", Str (sd_name service))]))) ->
  (forall d http_ext service method binding op schemas,
    ext = Some http_ext -> service ∈ pool_services pool -> method ∈ sd_methods service ->
    described_by selection http_ext method binding -> I d ->
    build_operation fuel method (sd_name service) binding (dc_schemas d) = Some (op, schemas) ->
    J binding op (with_schemas d schemas)) ->
  (forall d binding op http_method path id,
    ruled path http_method -> id ∉ dc_ids d -> J binding op d ->
    J binding op (with_op d path http_method (of_method http_method op) id)) ->
  (forall d binding op, J binding op d -> I d) ->
  I (mkDoc [] [] [] ∅) -> document pool aliases selection fuel = Some doc -> I doc.
Proof.
  intros Ht Hb Ha Hd H0. unfold document. destruct ext as [http_ext|] eqn:Ee; apply ofold_inv; try done; intros d service d' Hs HI.
  - apply (service_ind aliases selection mounted fuel I J (pool_services pool) http_ext); try done.
    + intros d1 s _. apply Ht.
    + intros d1 s m b op schemas Hs1 Hm1 Hd1 HI1. by apply Hb with http_ext.
    + intros d1 s m b op h p id Hs1 Hm1 Hd1 Hh Hp Hsv. apply Ha. by exists http_ext, s, m, b.
  - unfold add_service. destruct (_ && _); intros [= <-]; [done|by apply Ht].
Qed.

Lemma document_ids (fuel : nat) (doc : Doc) : document pool aliases selection fuel = Some doc -> ids_ok doc.
Proof.
  apply (document_ind fuel ids_ok (fun _ op d => ids_ok d /\ exists members, op = Object members)).
  - intros d s [H1 H2 H3]. by split.
  - intros d ext' s m b op schemas _ _ _ _ [H1 H2 H3] Hop. split; [by split|]. by eapply operation_object.
  - intros d b op h p id _ Hid [HI [ms ->]]. split; [|by eexists]. destruct (of_method_object h ms) as [ms' ->].
    by apply with_op_ids.
  - by intros d b op [].
  - split; [constructor|..]; by intros.
Qed.

(** Only rules are documented. *)
Lemma document_described (fuel : nat) (doc : Doc) (path method : text) :
  document pool aliases selection fuel = Some doc -> is_Some (op_at doc path method) -> ruled path method.
Proof.
  intros H. enough (Hall : items_ok doc /\ forall p m, is_Some (op_at doc p m) -> ruled p m) by apply Hall. revert H.
  apply (document_ind fuel (fun d => items_ok d /\ forall p m, is_Some (op_at d p m) -> ruled p m)
           (fun _ _ d => items_ok d /\ forall p m, is_Some (op_at d p m) -> ruled p m)); try done.
  - intros d b op h p id Hd Hid [Hi Hall]. split; [by apply with_op_items|]. intros p' m'. rewrite with_op_at by done.
    destruct (decide _) as [[-> ->]|]; [done|apply Hall].
  - split; [constructor|]. by intros p m [].
Qed.

(** Every rule is documented. *)
Definition holds_at (path method : text) (doc : Doc) : Prop := items_ok doc /\ is_Some (op_at doc path method).

Lemma items_stable : stable items_ok.
Proof. split; try done. intros. by apply with_op_items. Qed.

Lemma holds_stable (path method : text) : stable (holds_at path method).
Proof. split; try done. intros d p m op id [Hi Hs]. split; [by apply with_op_items|by apply op_kept]. Qed.

Lemma document_hits (fuel : nat) (doc : Doc) (path method : text) :
  document pool aliases selection fuel = Some doc -> ruled path method -> is_Some (op_at doc path method).
Proof.
  intros H (http_ext & s & m & b & He & Hs & Hm & (Hc & Hsel & Hb) & Hh & Hp & [Hr Hin]).
  set (Q := holds_at path method). enough (HQ : Q doc) by apply HQ.
  pose proof items_stable as SI. pose proof (holds_stable path method) as SQ.
  assert (Hd : described_by selection http_ext m b) by done.
  unfold document in H. rewrite He in H.
  revert H. apply (ofold_hits _ items_ok _ _ s); [done| | |clear doc; intros d doc Hi H|constructor].
  1,2: intros d s' d' _; by apply service_stable.
  assert (Hex : existsb (selects selection) (sd_methods s) = true) by (apply existsb_exists; exists m; by rewrite <- list_elem_of_In).
  unfold add_service in H. rewrite Hex, andb_false_r in H.
  revert H. apply (ofold_hits _ items_ok _ _ m); [done| | |clear d doc Hi; intros d doc Hi H|exact Hi].
  1,2: intros d1 m' d' Hm'; by apply method_stable.
  unfold add_method in H. rewrite Hc, Hsel in H. cbn [negb orb] in H.
  revert H. apply (ofold_hits _ items_ok _ _ b); [done| | |clear d doc Hi; intros d doc Hi H|exact Hi].
  1,2: intros d1 b' d' Hb'; first [by apply (binding_stable aliases selection mounted fuel _ SI http_ext)|by apply (binding_stable aliases selection mounted fuel _ SQ http_ext)].
  unfold add_binding_to in H. destruct (operation_methods (hb_method b)) as [|h0 hs] eqn:Eo; [by apply elem_of_nil in Hh|].
  destruct (build_operation _ _ _ _ _) as [[op schemas]|] eqn:Eb; [|done]. cbn -[ofold] in H. rewrite <- Eo in Hh, H.
  revert H. apply (ofold_hits _ items_ok _ _ method); [done| | |clear d doc Hi Eb; intros d doc Hi H|exact Hi].
  1,2: intros d1 h d' Hh1; first [by apply (operation_stable aliases selection mounted _ SI http_ext s m b)|by apply (operation_stable aliases selection mounted _ SQ http_ext s m b)].
  revert H. apply (ofold_hits _ items_ok _ _ path); [done| | |clear d doc Hi; intros d doc Hi H|exact Hi].
  1,2: intros d1 p d' Hp1; first [by apply (target_stable aliases selection mounted _ SI http_ext s m b)|by apply (target_stable aliases selection mounted _ SQ http_ext s m b)].
  unfold add_target in H. rewrite Hr, bool_decide_eq_false_2 in H by tauto. cbn [negb orb] in H.
  destruct (unique_id _ _) as [[id ids]|] eqn:Eu; [|done]. injection H as <-.
  unfold unique_id in Eu. apply unique_from_some in Eu as [_ ->]. split; [by apply (with_op_items d)|].
  fold (of_method method op). fold (with_op d path method (of_method method op) id).
  rewrite with_op_at, decide_True by done. by eexists.
Qed.
End Spec.

(** ** What the document promises *)

(** A pool whose messages are listed with those of their fields, and whose methods take and answer them. *)
Record closed_pool {P : ProstLib} {SL : ServiceLib} (pool : DescriptorPool) : Prop := {
  cp_fields m f n : m ∈ pool_all_messages pool -> f ∈ md_fields m -> fd_kind f = KMessage n -> n ∈ pool_all_messages pool;
  cp_methods s m : s ∈ pool_services pool -> m ∈ sd_methods s ->
    mt_input m ∈ pool_all_messages pool /\ mt_output m ∈ pool_all_messages pool;
}.

Section Promises.
Context {HT : HttpLib} {P : ProstLib} {DL : DescriptorLaws P} {SL : ServiceLib} {UL : UriLib} {ML : MatchitLib}
  {NL : NameLib}.
Context (pool : DescriptorPool) (aliases : list AliasConfig) (selection : RpcSelection).
Hypothesis Hpool : closed_pool pool.

(** A documented operation is one of a route the router has. *)
Lemma ruled_served (path http_method : text) :
  (forall s m, s ∈ pool_services pool -> m ∈ sd_methods s ->
     is_Some (path_and_query (txt "/" ++ sd_full_name s ++ txt "/" ++ mt_name m))) ->
  ruled pool aliases selection path http_method ->
  exists b, b ∈ route_bindings pool aliases selection /\ bd_mount b = mounted_new path /\
    http_method ∈ operation_methods (e_http_method (bd_entry b)).
Proof using DL.
  intros Hnames (http_ext & s & m & b & He & Hs & Hm & (Hc & Hsel & Hb) & Hh & Hp & [Hr Hin]).
  destruct (Hnames s m Hs Hm) as [grpc_path Hg].
  assert (Hentry : exists entry, entry ∈ extract_routes pool selection /\ e_http_path entry = hb_path b /\
    e_http_method entry = hb_method b).
  { exists (mkEntry (hb_path b) (hb_method b) grpc_path
      (mkRpc m (mt_server_streaming m) (request_body (mt_input m) (hb_body b))
         (response_shape (mt_output m) (hb_response_body b)) None false (required_of pool (mt_output m)) [])).
    split; [|done]. unfold extract_routes. rewrite He. apply list_elem_of_bind. exists s. split; [|done].
    apply list_elem_of_bind. exists m. split; [|done]. unfold method_entries. rewrite Hc, Hsel, Hg. cbn.
    apply list_elem_of_fmap. by exists b. }
  destruct Hentry as (entry & Hin' & Hpath & Hmeth). exists (mkRouteBinding entry (mounted_new path)).
  split; [|split; [done|cbn; by rewrite Hmeth]].
  unfold route_bindings. apply list_elem_of_bind. exists entry. split; [|done]. apply list_elem_of_omap.
  exists path. unfold push_binding. rewrite Hr. split; [|done]. rewrite Hpath. apply elem_of_app.
  apply elem_of_cons in Hp as [->|Hp]; [right; by left|by left].
Qed.

Abbreviation types := (pool_all_messages pool).
Abbreviation fuel := (S (length types)).

Lemma missing_fuel (f : MessageDescriptor -> text) (seen : list text) : (missing (f <$> types) seen < fuel)%nat.
Proof using. pose proof (missing_length (f <$> types) seen). rewrite length_fmap in *. lia. Qed.

Lemma put_total (m : MessageDescriptor) (exclude : list text) (s : list (text * Value)) :
  m ∈ types -> exists s', put_message fuel m exclude s = Some s'.
Proof using Hpool DL.
  intros Hm. unfold put_message.
  destruct (schema_total types (cp_fields pool Hpool) fuel m exclude s Hm (missing_fuel _ _)) as (v & s' & -> & _). by eexists.
Qed.

Lemma nested_total (m : MessageDescriptor) (f : FieldDescriptor) (s : list (text * Value)) :
  m ∈ types -> f ∈ md_fields m -> exists s', register_nested fuel s f = Some s'.
Proof using Hpool DL.
  intros Hm Hf. unfold register_nested, register_with. destruct (fd_kind f) eqn:Ek; eauto. destruct (_ || _); eauto.
  destruct (schema_total types (cp_fields pool Hpool) fuel m0 [] (map_put (md_name m0) (typed "object") s)
    (cp_fields pool Hpool _ _ _ Hm Hf Ek) (missing_fuel _ _)) as (v & s' & -> & _). by eexists.
Qed.

Lemma operation_total (service : ServiceDescriptor) (method : MethodDescriptor) (binding : HttpBinding) (s : list (text * Value)) :
  service ∈ pool_services pool -> method ∈ sd_methods service ->
  exists op s', build_operation fuel method (sd_name service) binding s = Some (op, s').
Proof using Hpool DL.
  intros Hs Hm. destruct (cp_methods pool Hpool service method Hs Hm) as [Hi Ho]. unfold build_operation.
  set (pp := extract_path_params (hb_path binding)).
  assert (Hb : exists b s1, request_body_of fuel (mt_input method) (hb_body binding) pp s = Some (b, s1)).
  { unfold request_body_of. destruct (hb_body binding) as [| |name]; [by do 2 eexists|..].
    - destruct (is_http_body _); [by do 2 eexists|]. destruct (existsb _ _); [|by do 2 eexists].
      destruct (put_total (mt_input method) pp s Hi) as [s1 ->]. by do 2 eexists.
    - destruct (md_field_by_name _ name) as [f|] eqn:Ef; [|by do 2 eexists]. destruct (http_body_field _ _); [by do 2 eexists|].
      apply named_field in Ef. destruct (nested_total _ f s Hi Ef) as [s1 ->]. by do 2 eexists. }
  destruct Hb as (b & s1 & ->). cbn.
  assert (Hp : exists params, parameters_of fuel (mt_input method) (hb_body binding) pp = Some params).
  { unfold parameters_of.
    assert (Hq : forall bound, exists params, query_params fuel (mt_input method) [] bound [md_full_name (mt_input method)] = Some params)
      by (intros bound; by apply (params_total types (cp_fields pool Hpool)), missing_fuel).
    destruct (hb_body binding); try by eexists.
    all: match goal with |- context [query_params _ _ _ ?bound _] => destruct (Hq bound) as [ps ->] end; by eexists. }
  destruct Hp as [params ->]. cbn.
  enough (Hr : exists rs s2, responses_of fuel (mt_output method) (mt_server_streaming method) (hb_response_body binding) s1 = Some (rs, s2))
    by (destruct Hr as (rs & s2 & ->); by do 2 eexists).
  unfold responses_of. destruct (match hb_response_body binding with Some _ => _ | None => _ end); [by do 2 eexists|].
  destruct (mt_server_streaming method).
  { unfold message_ref_or_inline. destruct (map_contains _ _); [by do 2 eexists|].
    destruct (put_total (mt_output method) [] s1 Ho) as [s2 ->]. by do 2 eexists. }
  destruct (hb_response_body binding) as [path|].
  - destruct (response_field _ _) as [f|] eqn:Ef; [|by do 2 eexists].
    apply (response_field_known (fun m => m ∈ types) (cp_fields pool Hpool)) in Ef as (m & Hm' & Hf); [|done].
    destruct (nested_total m f s1 Hm' Hf) as [s2 ->]. by do 2 eexists.
  - case_decide; [by do 2 eexists|]. destruct (put_total (mt_output method) [] s1 Ho) as [s2 ->]. by do 2 eexists.
Qed.

(** The operations the rules of a pool ask for. *)
Definition operations_of (binding : HttpBinding) : nat :=
  length (operation_methods (hb_method binding)) * length (targets aliases (hb_path binding)).
Definition asked_operations : nat :=
  match pool_extension_by_name pool (txt "google.api.http") with
  | None => 0
  | Some http_ext =>
      sum_list_with (fun s => sum_list_with (fun m => sum_list_with operations_of (http_bindings m http_ext)) (sd_methods s))
        (pool_services pool)
  end.

Section Totals.
Hypothesis Hroom : Z.of_nat asked_operations < 2 ^ 31 - 1.
Abbreviation mounted := (mounted_shapes pool aliases selection).
Abbreviation ids d := (size (dc_ids d)).

Lemma add_target_total (http_method id : text) (op : Value) (d : Doc) (path : text) :
  (ids d + 1 <= asked_operations)%nat ->
  exists d', add_target mounted http_method id op d path = Some d' /\ True /\ (ids d' <= ids d + 1)%nat.
Proof using Hroom.
  intros Hd. unfold add_target. destruct (_ || _); [exists d; split_and!; [done..|lia]|].
  destruct (unique_id_some (dc_ids d) id) as (i & -> & Hi); [lia|]. cbn. eexists. split_and!; [done..|]. cbn.
  rewrite size_union by (by apply disjoint_singleton_l). rewrite size_singleton. lia.
Qed.

Lemma sum_ones {A} (l : list A) : sum_list_with (fun _ => 1%nat) l = length l.
Proof using. induction l as [|x l IH]; cbn; [done|]. by rewrite IH. Qed.

Lemma sum_const {A} (l : list A) (n : nat) : sum_list_with (fun _ => n) l = (length l * n)%nat.
Proof using. induction l as [|x l IH]; cbn; [done|]. by rewrite IH. Qed.

Lemma add_binding_total (service : ServiceDescriptor) (method : MethodDescriptor) (d : Doc) (binding : HttpBinding) :
  service ∈ pool_services pool -> method ∈ sd_methods service -> (ids d + operations_of binding <= asked_operations)%nat ->
  exists d', add_binding_to aliases mounted fuel service method d binding = Some d' /\ True /\
    (ids d' <= ids d + operations_of binding)%nat.
Proof using Hroom Hpool DL.
  intros Hs Hm Hd. unfold add_binding_to, operations_of in *.
  destruct (operation_methods (hb_method binding)) as [|h hs] eqn:Eo; [exists d; split_and!; [done..|lia]|].
  destruct (operation_total service method binding (dc_schemas d) Hs Hm) as (op & s' & ->). cbn -[ofold operations_of length]. rewrite <- Eo in *.
  rewrite <- (sum_const (operation_methods (hb_method binding)) (length (targets aliases (hb_path binding)))) in *.
  pose (weight := fun _ : text => length (targets aliases (hb_path binding))).
  match goal with |- context [ofold ?f ?a ?l] => apply (ofold_total f (fun _ => True) (fun d => ids d) weight asked_operations l a) end;
    [|done|done].
  intros d1 h1 _ _ Hd1. subst weight. cbn beta in *. unfold add_operation.
  rewrite <- (sum_ones (targets aliases (hb_path binding))) in *.
  apply (ofold_total _ (fun _ => True) (fun d => ids d) (fun _ => 1%nat) asked_operations); [|done|done].
  intros d2 p _ _. by apply add_target_total.
Qed.

Lemma add_method_total (http_ext : ExtensionDescriptor) (service : ServiceDescriptor) (d : Doc) (method : MethodDescriptor) :
  service ∈ pool_services pool -> method ∈ sd_methods service ->
  (ids d + sum_list_with operations_of (http_bindings method http_ext) <= asked_operations)%nat ->
  exists d', add_method aliases selection mounted fuel http_ext service d method = Some d' /\ True /\
    (ids d' <= ids d + sum_list_with operations_of (http_bindings method http_ext))%nat.
Proof using Hroom Hpool DL.
  intros Hs Hm Hd. unfold add_method. destruct (_ || _); [exists d; split_and!; [done..|lia]|].
  apply (ofold_total _ (fun _ => True) (fun d => ids d) _ asked_operations); [|done|done].
  intros d1 b _ _. by apply add_binding_total.
Qed.

Lemma document_total : exists doc, document pool aliases selection fuel = Some doc.
Proof using Hroom Hpool DL.
  unfold document. destruct (pool_extension_by_name pool _) as [http_ext|] eqn:Ee.
  - pose (weight := fun s => sum_list_with (fun m => sum_list_with operations_of (http_bindings m http_ext)) (sd_methods s)).
    destruct (ofold_total (add_service aliases selection mounted fuel (Some http_ext)) (fun _ => True) (fun d => ids d) weight
      asked_operations (pool_services pool) (mkDoc [] [] [] ∅)) as (doc & H & _); [|done| |by exists doc].
    + intros d s Hs _ Hd. unfold add_service. destruct (_ && _); [exists d; split_and!; [done..|apply Nat.le_add_r]|].
      match goal with |- context [ofold ?f ?a ?l] =>
        apply (ofold_total f (fun _ => True) (fun d => ids d) (fun m => sum_list_with operations_of (http_bindings m http_ext))
          asked_operations l a) end; [|done|exact Hd].
      intros d1 m Hm _. by apply add_method_total.
    + unfold asked_operations. rewrite Ee. cbn [dc_ids]. rewrite size_empty. done.
  - destruct (ofold_some (add_service aliases selection mounted fuel None) (fun _ => True) (pool_services pool) (mkDoc [] [] [] ∅))
      as (doc & H & _); [|done|by exists doc].
    intros d s _ _. unfold add_service. destruct (_ && _); by eexists.
Qed.
End Totals.

(** ** The document's references *)

(** What the references need: no message has the short name of another's map entry, no method takes or
    answers a bare entry, and no path variable names a message field with a schema of its own. *)
Record distinct_entries : Prop := {
  de_names e value m : entry (fun m => m ∈ types) e value -> m ∈ types -> md_name m = md_name e -> m = e;
  de_methods s m value : s ∈ pool_services pool -> m ∈ sd_methods s ->
    ~ entry (fun m => m ∈ types) (mt_input m) value /\ ~ entry (fun m => m ∈ types) (mt_output m) value;
  de_paths s m http_ext binding : s ∈ pool_services pool -> m ∈ sd_methods s ->
    pool_extension_by_name pool (txt "google.api.http") = Some http_ext -> binding ∈ http_bindings m http_ext ->
    Forall (fun name => forall f, md_field_by_name (mt_input m) name = Some f -> nested_of f = None)
      (extract_path_params (hb_path binding));
}.

Record refs_ok (d : Doc) : Prop := {
  ro_items : items_ok d;
  ro_values : values_in (fun m => m ∈ types) (dc_schemas d);
  ro_sound : sound (dc_schemas d);
  ro_paths : Forall (member_resolves (dc_schemas d).*1) (dc_paths d);
  ro_tags : Forall (resolves (dc_schemas d).*1) (dc_tags d);
}.

Lemma resolves_assoc (names : list text) (members : list (text * Value)) (k : text) (v : Value) :
  Forall (member_resolves names) members -> assoc k members = Some v -> resolves names v.
Proof using.
  induction 1 as [|[k' w] members [_ Hw] _ IH]; cbn; [done|]. case_decide; [by intros [= <-]|done].
Qed.

Lemma resolves_put (names : list text) (members : list (text * Value)) (k : text) (v : Value) :
  (k <> REF \/ forall s, v <> Str s) -> Forall (member_resolves names) members -> resolves names v ->
  Forall (member_resolves names) (map_put k v members).
Proof using. intros Hk Hm Hv. apply map_put_Forall; [by apply member_value|done]. Qed.

Lemma of_method_resolves (names : list text) (http_method : text) (members : list (text * Value)) :
  Forall (member_resolves names) members -> resolves names (of_method http_method (Object members)).
Proof using.
  intros H. unfold of_method, strip_response_content. case_decide; [|by apply resolves_object]. cbn [value_get].
  destruct (assoc _ members) as [v|] eqn:E; [|by apply resolves_object]. destruct v; try by apply resolves_object.
  apply resolves_object, resolves_put; [by left|done|]. apply resolves_assoc with (1 := H) in E.
  apply resolves_object in E. apply resolves_object, Forall_fmap. eapply Forall_impl; [exact E|].
  intros [k w] [Hk Hw]. cbn [fst snd] in *. unfold compose, strip_content. cbn [fst snd].
  destruct w; try (split; [exact Hk|exact Hw]). apply member_value; [by right|]. apply resolves_object in Hw.
  apply resolves_object. rewrite Forall_forall in *. intros x [_ Hx]%list_elem_of_filter. by apply Hw.
Qed.

Lemma with_op_refs (d : Doc) (path http_method id : text) (members : list (text * Value)) :
  refs_ok d -> Forall (member_resolves (dc_schemas d).*1) members ->
  refs_ok (with_op d path http_method (of_method http_method (Object members)) id).
Proof using.
  intros [H1 H2 H3 H4 H5] Hm. split; [by apply with_op_items|done|done| |done].
  destruct (with_op_paths d path http_method (of_method http_method (Object members)) id H1) as (ops & Hp & _ & Hold).
  cbn [with_op dc_paths dc_schemas] in *. rewrite Hp.
  apply resolves_put; [by right|done|]. apply resolves_object. apply resolves_put.
  - right. intros s. destruct (of_method_object http_method members) as [ms' ->]. done.
  - destruct Hold as [Hold| ->]; [|constructor]. apply resolves_assoc with (1 := H4) in Hold. by apply resolves_object.
  - pose proof (of_method_resolves (dc_schemas d).*1 http_method members Hm) as Ho.
    destruct (of_method_object http_method members) as [ms' Hms]. rewrite Hms in *. apply resolves_object in Ho.
    apply resolves_object, resolves_put; [by left|done|by apply resolves_plain].
Qed.

Lemma document_refs (doc : Doc) :
  distinct_entries -> document pool aliases selection fuel = Some doc -> refs_ok doc.
Proof using Hpool DL.
  intros [Hn Hmeth Hpath].
  apply (document_ind pool aliases selection fuel refs_ok
    (fun _ op d => refs_ok d /\ exists members, op = Object members /\ Forall (member_resolves (dc_schemas d).*1) members)).
  - intros d s [H1 H2 H3 H4 H5]. split; try done. cbn. apply Forall_app. split; [done|]. constructor; [|constructor]. by resolve.
  - intros d http_ext s m b op schemas He Hs Hm (_ & _ & Hb) [H1 H2 H3 H4 H5] Hop.
    destruct (cp_methods pool Hpool s m Hs Hm) as [Hi Ho]. destruct (operation_object _ _ _ _ _ _ _ Hop) as [ms ->].
    destruct (operation_grows (fun m => m ∈ types) (cp_fields pool Hpool) Hn fuel m (sd_name s) b (dc_schemas d) (Object ms) schemas)
      as [(G1 & G2 & G3) Hr]; try done.
    + intros value. by destruct (Hmeth s m value Hs Hm).
    + intros value. by destruct (Hmeth s m value Hs Hm).
    + by apply (Hpath s m http_ext b).
    + split; [|exists ms; split; [done|by apply resolves_object]]. split; cbn; [done..|by apply G3| |].
      * eapply Forall_impl; [exact H4|]. intros x. by apply member_mono.
      * eapply Forall_impl; [exact H5|]. intros x. by apply resolves_mono.
  - intros d b op h p id _ Hid [HI (ms & -> & Hms)]. split; [by apply with_op_refs|by exists ms].
  - by intros d b op [].
  - split; try by constructor. intros e value _ H. by apply elem_of_nil in H.
Qed.

(** The names of the document's schemas. *)
Definition schema_names (spec : Value) : list text :=
  match value_get spec (txt "components") with
  | Some components => match value_get components (txt "schemas") with Some (Object schemas) => schemas.*1 | _ => [] end
  | None => []
  end.

Lemma assemble_refs (config : OpenApiConfig) (doc : Doc) :
  refs_ok doc -> resolves (schema_names (assemble config doc)) (assemble config doc).
Proof using.
  intros [H1 H2 H3 H4 H5].
  assert (Hnames : schema_names (assemble config doc) = (dc_schemas doc).*1) by (by destruct doc as [paths [|kv schemas] tags ids]).
  rewrite Hnames. unfold assemble. resolve.
  - done.
  - done.
  - apply Forall_app. split; [|unfold SECURITY; by resolve]. destruct (dc_schemas doc); [constructor|].
    constructor; [|constructor]. apply member_value; [by left|]. by apply resolves_object.
Qed.

Lemma generate_total :
  Z.of_nat asked_operations < 2 ^ 31 - 1 ->
  forall config, exists doc, document pool aliases selection fuel = Some doc /\
    generate pool config aliases selection = Some (assemble config doc).
Proof using Hpool DL.
  intros Hroom config. destruct (document_total Hroom) as [doc Hdoc]. exists doc. split; [done|]. unfold generate. by rewrite Hdoc.
Qed.


End Promises.

(** * Witnesses *)

(** Books with an author, who has books, and a map of their reviews. *)
Module Demo.
Import Http.Model PercentModel Matchit.

Inductive Type_ := TRule | TBook | TAuthor | TReviews | TReview | TStamp.
Inductive Field := FGet | FPost | FBody | FMore | FName | FAuthor | FReviews | FBooks | FKey | FValue | FText | FSeen.
Inductive Rule_ := ARule (strings : list (text * text)) (more : list Rule_).

#[local] Instance field_eq : EqDecision Field.
Proof. solve_decision. Defined.

Definition fields_of (d : Type_) : list Field :=
  match d with
  | TRule => [FGet; FPost; FBody; FMore] | TBook => [FName; FAuthor; FReviews] | TAuthor => [FName; FBooks]
  | TReviews => [FKey; FValue] | TReview => [FText; FSeen] | TStamp => []
  end.
Definition field_name (f : Field) : text :=
  txt (match f with
       | FGet => "get" | FPost => "post" | FBody => "body" | FMore => "additional_bindings" | FName => "name"
       | FAuthor => "author" | FReviews => "reviews" | FBooks => "books" | FKey => "key" | FValue => "value"
       | FText => "text" | FSeen => "seen_at"
       end).
Definition kind_of (f : Field) : Kind_ Type_ Empty_set :=
  match f with
  | FAuthor => KMessage TAuthor | FReviews => KMessage TReviews | FBooks => KMessage TBook | FValue => KMessage TReview
  | FSeen => KMessage TStamp | FMore => KMessage TRule | _ => KString
  end.
Definition type_name (d : Type_) : string :=
  match d with
  | TRule => "HttpRule" | TBook => "Book" | TAuthor => "Author" | TReviews => "ReviewsEntry" | TReview => "Review"
  | TStamp => "Timestamp"
  end.
Definition rule_get (m : Rule_) (f : Field) : PValue_ Rule_ :=
  let 'ARule strings more := m in
  match f with FMore => PList (PMessage <$> more) | f => PString (default [] (assoc (field_name f) strings)) end.
Definition by_name (d : Type_) (n : text) : option Field :=
  find_map (fun f => if decide (field_name f = n) then Some f else None) (fields_of d).

#[local] Instance prost : ProstLib := {|
  MessageDescriptor := Type_; FieldDescriptor := Field; EnumDescriptor := Empty_set; DynamicMessage := Rule_;
  md_full_name d := match d with TStamp => txt "google.protobuf.Timestamp" | d => txt "demo." ++ txt (type_name d) end;
  md_fields := fields_of; md_extensions _ := []; md_field_by_name := by_name; md_field_by_json_name := by_name;
  fd_name := field_name; fd_full_name := field_name; fd_json_name f := match f with FSeen => txt "seenAt" | f => field_name f end;
  fd_number _ := 1; fd_kind := kind_of; fd_is_list f := match f with FBooks | FMore => true | _ => false end;
  fd_is_map f := match f with FReviews => true | _ => false end;
  fd_required _ := false; fd_oneof _ := None; ed_value_by_name _ _ := None;
  dm_new _ := ARule [] []; dm_descriptor _ := TRule; dm_has _ _ := true; dm_get := rule_get;
  dm_set m _ _ := m; dm_take m _ := (None, m); dm_fields _ := []; dm_extensions _ := []; dm_depth _ := O;
|}.

#[local] Instance descriptor_laws : DescriptorLaws prost.
Proof.
  split.
  - intros d n f. cbn. unfold by_name. induction (fields_of d) as [|g l IH]; cbn; [done|].
    case_decide; [intros [= <-]; by left|]. intros Hf. right. by apply IH.
  - intros [] Hf; try discriminate Hf. split; [done|]. exists TReviews, FKey, FValue. by split_and!.
Qed.

Inductive Method := GetBook | AddBook | SendBooks.

Definition rule (verb path body : string) (more : list Rule_) : Rule_ := ARule [(txt verb, txt path); (txt "body", txt body)] more.

#[local] Instance services : ServiceLib := {|
  DescriptorPool := unit; ServiceDescriptor := unit; MethodDescriptor := Method; ExtensionDescriptor := unit;
  pool_services _ := [tt]; pool_service_by_name _ _ := Some tt; pool_extension_by_name _ _ := Some tt;
  pool_message_by_name _ _ := None; pool_all_messages _ := [TRule; TBook; TAuthor; TReviews; TReview; TStamp];
  sd_full_name _ := txt "demo.Library"; sd_methods _ := [GetBook; AddBook; SendBooks];
  mt_name m := txt (match m with GetBook => "GetBook" | AddBook => "AddBook" | SendBooks => "SendBooks" end);
  mt_parent _ := tt; mt_input _ := TBook; mt_output _ := TBook;
  mt_client_streaming m := match m with SendBooks => true | _ => false end; mt_server_streaming _ := false;
  mt_options m :=
    match m with
    | GetBook => rule "get" "/v1/books/{name}" "" [rule "get" "/v1/shelf/{name=books/*}" "" []]
    | AddBook => rule "post" "/v1/books" "*" []
    | SendBooks => rule "post" "/v1/sent" "*" []
    end;
  dm_has_extension _ _ := true; dm_get_extension m _ := PMessage m;
|}.

#[local] Instance names : NameLib := {|
  md_name d := txt (type_name d); sd_name _ := txt "Library"; ed_full_name e := match e with end; ed_values e := match e with end;
|}.
#[local] Instance uri : UriLib := {| path_and_query s := Some s |}.

Definition all : RpcSelection := mkSelection [].
Definition aliases : list AliasConfig := [mkAlias (txt "/api/{path}") (txt "/v1")].
Definition config : OpenApiConfig := mkOpenApi true [] [] (Some (txt "Books")) None.

Definition params_of (spec : Value) (path method : text) : list (option Value) :=
  match documented spec path method ≫= (fun o => value_get o (txt "parameters")) with
  | Some (Array ps) => (fun p => value_get p (txt "name")) <$> ps
  | _ => []
  end.

(** The recursive messages are schemas once, and the well-known one none; a message of the path's query is one
    parameter for each of its fields, and is not entered again. *)
Example generated :
  (fun spec => (schema_names spec, params_of spec (txt "/api/books/{name}") (txt "get"),
     operation_id <$> documented spec (txt "/v1/shelf/{name=books/*}") (txt "get"))) <$> generate tt config aliases all =
  Some ([txt "Author"; txt "Book"; txt "ReviewsEntry"; txt "Review"],
        [Some (str "name"); Some (str "author.name")],
        Some (Some (str "Library.GetBook_3"))).
Proof. vm_compute. reflexivity. Qed.

Lemma pool_closed : closed_pool tt.
Proof.
  split.
  - intros m f n _ _ _. destruct n; repeat first [by left|right].
  - intros s m _ _. split; right; by left.
Qed.

Lemma entries_distinct : distinct_entries tt.
Proof.
  assert (He : forall e value, entry (fun m => m ∈ pool_all_messages tt) e value -> e = TReviews).
  { intros e value (m & f & _ & _ & Hf & Hk & _). destruct f; try discriminate Hf. by injection Hk as <-. }
  split.
  - intros e value m ->%He _. by destruct m.
  - intros s m value _ _. split; by intros ?%He.
  - intros s m ext b _ _ _ Hb.
    assert (HF : Forall (fun b => extract_path_params (hb_path b) = [txt "name"] \/ extract_path_params (hb_path b) = [])
      (http_bindings m ext)) by (destruct m; repeat constructor; by left || by right).
    destruct (proj1 (Forall_forall _ _) HF b Hb) as [->| ->]; repeat constructor. by intros f [= <-].
Qed.

Lemma asked_few : Z.of_nat (asked_operations tt aliases) < 2 ^ 31 - 1.
Proof. vm_compute. reflexivity. Qed.


End Demo.
