(* ===== verification/Listen.v ===== *)
(** * What a listener is made with ([src/tls.rs], [src/runtime.rs], [serve_options] of [src/lib.rs])

    The TLS server of a listener from its files, its options from the configuration,
    and the worker count of the standalone binary's runtime. Parsing PEM, checking
    certificates and the crypto are rustls's: an interface. *)

From S2P Require Import Prelude Rust ShieldRules Guard Serve Config.

(** ** TLS *)

(** What the code uses of rustls, [None] and [Err] being the failures it reports. *)
Class TlsLib : Type := {
  CryptoProvider : Type;
  Certificate : Type;
  PrivateKey : Type;
  RootStore : Type;
  ClientVerifier : Type;
  ServerConfig : Type;
  (** [CryptoProvider::get_default], and the provider of the crypto backend compiled in. *)
  installed_provider : option CryptoProvider;
  builtin_provider : option CryptoProvider;
  (** The PEM files of a path: its certificates, its private key. *)
  pem_certs : text -> option (list Certificate);
  pem_key : text -> option PrivateKey;
  roots_empty : RootStore;
  roots_add : RootStore -> Certificate -> option RootStore;
  (** [with_safe_default_protocol_versions]. *)
  versions_known : CryptoProvider -> bool;
  (** [WebPkiClientVerifier::builder_with_provider(..).build()], with [allow_unauthenticated] or not. *)
  verifier_build : RootStore -> CryptoProvider -> bool -> option ClientVerifier;
  (** [with_single_cert], after [with_no_client_auth] or [with_client_cert_verifier]. *)
  single_cert : CryptoProvider -> option ClientVerifier -> list Certificate -> PrivateKey -> option ServerConfig;
  alpn_protocols : ServerConfig -> list text;
  set_alpn_protocols : ServerConfig -> list text -> ServerConfig;
}.

Inductive tls_error :=
| PolicyWithoutCa
| NoProvider
| NoVersions
| BadCertificates (path : text)
| NoCertificate (path : text)
| BadKey (path : text)
| BadRoot (path : text)
| BadVerifier (path : text)
| BadChain (path : text).

Section Tls.
Context {TL : TlsLib}.

Definition select_provider (installed builtin : option CryptoProvider) : result CryptoProvider tls_error :=
  match installed with
  | Some provider => Ok provider
  | None => match builtin with Some provider => Ok provider | None => Err NoProvider end
  end.

(** The closure [certs] of [server_config]. *)
Definition certs (path : text) : result (list Certificate) tls_error :=
  match pem_certs path with
  | None => Err (BadCertificates path)
  | Some [] => Err (NoCertificate path)
  | Some certs => Ok certs
  end.

(** The loop that fills the root store. *)
Fixpoint add_roots (path : text) (roots : RootStore) (certs : list Certificate) : result RootStore tls_error :=
  match certs with
  | [] => Ok roots
  | cert :: certs =>
      match roots_add roots cert with Some roots => add_roots path roots certs | None => Err (BadRoot path) end
  end.

(** The verifier of client certificates. *)
Definition client_verifier (provider : CryptoProvider) (path : text) (client_auth : option ClientAuth)
    : result ClientVerifier tls_error :=
  let? cas := certs path in
  let? roots := add_roots path roots_empty cas in
  let allow_unauthenticated := match default Required client_auth with Required => false | Optional => true end in
  match verifier_build roots provider allow_unauthenticated with
  | Some verifier => Ok verifier
  | None => Err (BadVerifier path)
  end.

Definition ALPN : list text := [txt "h2"; txt "http/1.1"].

Definition server_config (config : ListenTlsConfig) : result ServerConfig tls_error :=
  if bool_decide (is_Some (tl_client_auth config)) && bool_decide (tl_client_ca_file config = None) then Err PolicyWithoutCa
  else
    let? provider := select_provider installed_provider builtin_provider in
    let? chain := certs (tl_cert_file config) in
    match pem_key (tl_key_file config) with
    | None => Err (BadKey (tl_key_file config))
    | Some key =>
        if negb (versions_known provider) then Err NoVersions
        else
          let? verifier :=
            match tl_client_ca_file config with
            | None => Ok None
            | Some path => let? verifier := client_verifier provider path (tl_client_auth config) in Ok (Some verifier)
            end in
          match single_cert provider verifier chain key with
          | None => Err (BadChain (tl_cert_file config))
          | Some server => Ok (set_alpn_protocols server ALPN)
          end
    end.

(** ** The options of the listener *)

Inductive listen_error :=
| ZeroHeaderTimeout
| ZeroConnections
| ZeroHandshakeTimeout
| InvalidTls (error : tls_error).

Definition over_zero (secs : Z) : option Z := if 0 <? secs then Some (from_secs secs) else None.

(** The part of [serve_options] for [listen.tls]. *)
Definition tls_options (tls_config : option ListenTlsConfig) (options : ServeOptions ServerConfig)
    : result (ServeOptions ServerConfig) listen_error :=
  match tls_config with
  | None => Ok options
  | Some config =>
      if negb (0 <? tl_handshake_timeout_secs config) then Err ZeroHandshakeTimeout
      else
        match server_config config with
        | Err e => Err (InvalidTls e)
        | Ok server =>
            Ok (tls_handshake_timeout (tls alpn_protocols set_alpn_protocols options server)
                  (from_secs (tl_handshake_timeout_secs config)))
        end
  end.

(** [ProxyServer::serve_options]; [None] is a panic. *)
Definition serve_options (listen : ListenConfig) : option (result (ServeOptions ServerConfig) listen_error) :=
  if negb (0 <? ln_header_read_timeout_secs listen) then Some (Err ZeroHeaderTimeout)
  else
    let options :=
      drain_timeout
        (header_read_timeout (idle_timeout options_default (over_zero (ln_idle_timeout_secs listen)))
           (from_secs (ln_header_read_timeout_secs listen)))
        (over_zero (ln_drain_timeout_secs listen)) in
    match ln_max_connections listen with
    | None => Some (tls_options (ln_tls listen) options)
    | Some max =>
        if negb (0 <? max) then Some (Err ZeroConnections)
        else let! options := max_connections options max in Some (tls_options (ln_tls listen) options)
    end.
End Tls.

(** ** The runtime of the binary *)

Definition MAX_BLOCKING_THREADS : Z := 512.

Inductive WorkerSource := FromConfig | FromEnvironment | AvailableParallelism.

Inductive runtime_error :=
| NotPositive (raw : text)
| TooLarge (source : WorkerSource) (workers : Z).

(** [RuntimeConfig::build_with] up to the builder of tokio: the workers and where they
    came from. [configured] is [worker_threads], a positive [usize]; [env] the bytes of
    [TOKIO_WORKER_THREADS]; [available] the available parallelism. *)
Definition build_with (configured : option Z) (env : option text) (available : option Z) : result (Z * WorkerSource) runtime_error :=
  let? found :=
    match configured, env with
    | Some n, _ => Ok (n, FromConfig)
    | None, Some raw =>
        match (if utf8_valid raw then parse_uint U64_MAX (trim raw) else None) with
        | Some n => if n =? 0 then Err (NotPositive raw) else Ok (n, FromEnvironment)
        | None => Err (NotPositive raw)
        end
    | None, None => Ok (default 1 available, AvailableParallelism)
    end in
  let '(workers, source) := found in
  if U64_MAX <? workers + MAX_BLOCKING_THREADS then Err (TooLarge source workers) else Ok (workers, source).

(** * Laws *)

#[local] Instance client_auth_eq : EqDecision ClientAuth.
Proof. solve_decision. Defined.

Section Laws.
Context {TL : TlsLib}.

(** A root store of all the certificates of a file, at least one. *)
Definition roots_of (path : text) (roots : RootStore) : Prop :=
  exists cas, pem_certs path = Some cas /\ cas <> [] /\ add_roots path roots_empty cas = Ok roots.

(** The verifier of client certificates a configuration asks for. *)
Definition verifies (config : ListenTlsConfig) (provider : CryptoProvider) (verifier : option ClientVerifier) : Prop :=
  match tl_client_ca_file config with
  | None => tl_client_auth config = None /\ verifier = None
  | Some path =>
      exists roots v, roots_of path roots /\ verifier = Some v /\
        verifier_build roots provider (bool_decide (tl_client_auth config = Some Optional)) = Some v
  end.

(** The server a configuration asks for. *)
Definition serves (config : ListenTlsConfig) (server : ServerConfig) : Prop :=
  exists provider verifier chain key made,
    (installed_provider = Some provider \/ installed_provider = None /\ builtin_provider = Some provider) /\
    versions_known provider = true /\ verifies config provider verifier /\
    pem_certs (tl_cert_file config) = Some chain /\ chain <> [] /\ pem_key (tl_key_file config) = Some key /\
    single_cert provider verifier chain key = Some made /\ server = set_alpn_protocols made ALPN.

Lemma certs_ok (path : text) (cs : list Certificate) : certs path = Ok cs <-> pem_certs path = Some cs /\ cs <> [].
Proof.
  unfold certs. destruct (pem_certs path) as [[|c l]|]; split; try done; try by intros [[= <-] ?].
  by intros [= <-].
Qed.

Lemma provider_ok (installed builtin : option CryptoProvider) (p : CryptoProvider) :
  select_provider installed builtin = Ok p <-> installed = Some p \/ installed = None /\ builtin = Some p.
Proof. unfold select_provider. destruct installed, builtin; naive_solver. Qed.

Lemma verifier_ok (provider : CryptoProvider) (path : text) (auth : option ClientAuth) (v : ClientVerifier) :
  client_verifier provider path auth = Ok v <->
  exists roots, roots_of path roots /\ verifier_build roots provider (bool_decide (auth = Some Optional)) = Some v.
Proof.
  assert (Ha : match default Required auth with Required => false | Optional => true end = bool_decide (auth = Some Optional))
    by by destruct auth as [[]|].
  unfold client_verifier, roots_of. rewrite Ha. clear Ha. destruct (certs path) as [cas|e] eqn:Ec; cbn.
  - pose proof Ec as [Hp Hn]%certs_ok. destruct (add_roots path roots_empty cas) as [roots|e] eqn:Er; cbn.
    + split.
      * destruct (verifier_build _ _ _) as [v'|] eqn:Ev; [intros [= <-]|done]. exists roots. split; [by exists cas|done].
      * intros (roots' & (cas' & Hp' & _ & Hr') & Hv). rewrite Hp in Hp'. injection Hp' as <-. rewrite Er in Hr'.
        injection Hr' as <-. by rewrite Hv.
    + split; [done|]. intros (roots' & (cas' & Hp' & _ & Hr') & _). rewrite Hp in Hp'. injection Hp' as <-. congruence.
  - split; [done|]. intros (roots' & (cas' & Hp' & Hn' & _) & _). assert (Hc : certs path = Ok cas') by by apply certs_ok. congruence.
Qed.

(** The TLS of the listener is built if and only if it can be what the configuration asks for. *)
Lemma server_config_ok (config : ListenTlsConfig) (server : ServerConfig) :
  server_config config = Ok server <-> serves config server.
Proof.
  unfold server_config, serves, verifies. destruct (bool_decide _ && bool_decide _) eqn:Ep.
  - apply andb_true_iff in Ep as [Ha%bool_decide_eq_true Hc%bool_decide_eq_true]. split; [done|]. rewrite Hc.
    intros (p & v & ch & k & m & _ & _ & [Hn _] & _). rewrite Hn in Ha. by destruct Ha.
  - assert (Hauth : tl_client_ca_file config = None -> tl_client_auth config = None).
    { intros Hc. rewrite Hc in Ep. destruct (tl_client_auth config); [done|done]. }
    clear Ep. split.
    + destruct (select_provider _ _) as [provider|] eqn:Es; [|done]. cbn. apply provider_ok in Es.
      destruct (certs (tl_cert_file config)) as [chain|] eqn:Ec; [|done]. cbn. apply certs_ok in Ec as [Hp Hn].
      destruct (pem_key _) as [key|] eqn:Ek; [|done]. destruct (versions_known provider) eqn:Ev; [|done]. cbn.
      destruct (tl_client_ca_file config) as [path|].
      * destruct (client_verifier _ _ _) as [v|] eqn:Ev'; [|done]. cbn. apply verifier_ok in Ev' as (roots & Hr & Hb).
        destruct (single_cert _ _ _ _) as [made|] eqn:Em; [|done]. intros [= <-]. exists provider, (Some v), chain, key, made.
        split_and!; try done. by exists roots, v.
      * cbn. destruct (single_cert _ _ _ _) as [made|] eqn:Em; [|done]. intros [= <-].
        exists provider, None, chain, key, made. split_and!; try done. by apply Hauth.
    + intros (provider & verifier & chain & key & made & Hprov & Hv & Hver & Hc & Hn & Hk & Hm & ->).
      apply provider_ok in Hprov as ->. cbn. assert (certs (tl_cert_file config) = Ok chain) as -> by by apply certs_ok. cbn.
      rewrite Hk, Hv. cbn. destruct (tl_client_ca_file config) as [path|].
      * destruct Hver as (roots & v & Hr & -> & Hb). assert (client_verifier provider path (tl_client_auth config) = Ok v) as ->
          by (apply verifier_ok; by exists roots). cbn. by rewrite Hm.
      * destruct Hver as [_ ->]. cbn. by rewrite Hm.
Qed.

(** What the options hold of a configuration. *)
Definition opts_of (listen : ListenConfig) (o : ServeOptions ServerConfig) : Prop :=
  so_idle_timeout o = over_zero (ln_idle_timeout_secs listen) /\ so_drain_timeout o = over_zero (ln_drain_timeout_secs listen) /\
  so_header_read_timeout o = from_secs (ln_header_read_timeout_secs listen) /\
  so_max_connections o = (fun max => Z.min max MAX_PERMITS) <$> ln_max_connections listen /\
  match ln_tls listen with
  | None => so_tls o = None
  | Some config => exists server, so_tls o = Some server /\ serves config server /\ alpn_protocols server = ALPN /\
                     so_tls_handshake_timeout o = from_secs (tl_handshake_timeout_secs config)
  end.

(** What makes a configuration unusable. *)
Definition refused (listen : ListenConfig) (e : listen_error) : Prop :=
  match e with
  | ZeroHeaderTimeout => ln_header_read_timeout_secs listen <= 0
  | ZeroConnections => exists max, ln_max_connections listen = Some max /\ max <= 0
  | ZeroHandshakeTimeout => exists config, ln_tls listen = Some config /\ tl_handshake_timeout_secs config <= 0
  | InvalidTls error => exists config, ln_tls listen = Some config /\ server_config config = Err error
  end.

Lemma tls_options_ok (tls_config : option ListenTlsConfig) (o : ServeOptions ServerConfig) :
  (forall s protocols, alpn_protocols (set_alpn_protocols s protocols) = protocols) ->
  match tls_options tls_config o with
  | Ok o' =>
      so_idle_timeout o' = so_idle_timeout o /\ so_drain_timeout o' = so_drain_timeout o /\
      so_header_read_timeout o' = so_header_read_timeout o /\ so_max_connections o' = so_max_connections o /\
      match tls_config with
      | None => so_tls o' = so_tls o
      | Some config => exists server, so_tls o' = Some server /\ serves config server /\ alpn_protocols server = ALPN /\
                         so_tls_handshake_timeout o' = from_secs (tl_handshake_timeout_secs config)
      end
  | Err e => exists config, tls_config = Some config /\
      match e with
      | ZeroHandshakeTimeout => tl_handshake_timeout_secs config <= 0
      | InvalidTls error => server_config config = Err error
      | _ => False
      end
  end.
Proof.
  intros Halpn. unfold tls_options. destruct tls_config as [config|]; [|by split_and!].
  destruct (Z.ltb_spec 0 (tl_handshake_timeout_secs config)) as [Hh|Hh]; cbn [negb]; [|by exists config].
  destruct (server_config config) as [server|e] eqn:Es; [|by exists config]. apply server_config_ok in Es.
  split_and!; try done. cbn. destruct (alpn_protocols server) eqn:Ea.
  - destruct Es as (p & v & ch & k & m & H1 & H2 & H3 & H4 & H5 & H6 & H7 & ->). by rewrite Halpn in Ea.
  - exists server. split_and!; try done. destruct Es as (? & ? & ? & ? & m & _ & _ & _ & _ & _ & _ & _ & ->). by rewrite Halpn.
Qed.

End Laws.

(** The runtime gets a positive number of workers, within what tokio adds its blocking threads to; a configured
    count wins over the environment, which wins over the machine; an environment that is no positive integer is
    refused only when it is used. *)
Theorem workers_usable (configured : option Z) (env : option text) (available : option Z) :
  (forall n, configured = Some n -> 0 < n) -> (forall n, available = Some n -> 0 < n) ->
  match build_with configured env available with
  | Ok (workers, source) =>
      0 < workers /\ workers + MAX_BLOCKING_THREADS <= U64_MAX /\
      match source with
      | FromConfig => configured = Some workers
      | FromEnvironment => configured = None /\ exists raw, env = Some raw /\ parse_uint U64_MAX (trim raw) = Some workers
      | AvailableParallelism => configured = None /\ env = None /\ workers = default 1 available
      end
  | Err (NotPositive raw) =>
      configured = None /\ env = Some raw /\
      forall n, utf8_valid raw = true -> parse_uint U64_MAX (trim raw) = Some n -> n = 0
  | Err (TooLarge source workers) => U64_MAX < workers + MAX_BLOCKING_THREADS
  end.
Proof.
  intros Hc Ha. unfold build_with. destruct configured as [n|].
  - cbn. destruct (Z.ltb_spec U64_MAX (n + MAX_BLOCKING_THREADS)) as [H|H]; [done|]. split_and!; [by apply Hc|lia|done].
  - destruct env as [raw|].
    + destruct (utf8_valid raw) eqn:Eu; [|cbn; split_and!; try done; congruence].
      destruct (parse_uint U64_MAX (trim raw)) as [n|] eqn:Ep; [|cbn; split_and!; try done; congruence].
      pose proof (parse_uint_range U64_MAX _ _ ltac:(done) Ep). destruct (Z.eqb_spec n 0) as [->|Hn].
      { cbn. split_and!; try done. intros n _ H'. congruence. }
      cbn. destruct (Z.ltb_spec U64_MAX (n + MAX_BLOCKING_THREADS)) as [H'|H']; [done|]. split_and!; [lia|lia|done|].
      by exists raw.
    + cbn. destruct (Z.ltb_spec U64_MAX (default 1 available + MAX_BLOCKING_THREADS)) as [H|H]; [done|].
      split_and!; try done. destruct available as [n|]; cbn; [by apply Ha|lia].
Qed.

(** * Witnesses *)

Module Demo.
(** A server of a chain, a key, and the CAs with whether a client may go without. *)
Record TlsServer := mkServer { sv_chain : list text; sv_key : text; sv_clients : option (list text * bool); sv_alpn : list text }.

#[local] Instance tls_lib : TlsLib := {|
  CryptoProvider := unit; Certificate := text; PrivateKey := text; RootStore := list text; ClientVerifier := list text * bool;
  ServerConfig := TlsServer; installed_provider := None; builtin_provider := Some tt;
  pem_certs path := if decide (path = txt "none.pem") then Some [] else Some [path];
  pem_key path := Some path; roots_empty := []; roots_add roots cert := Some (roots ++ [cert]); versions_known _ := true;
  verifier_build roots _ optional := Some (roots, optional);
  single_cert _ verifier chain key := Some (mkServer chain key verifier []);
  alpn_protocols := sv_alpn; set_alpn_protocols s protocols := mkServer (sv_chain s) (sv_key s) (sv_clients s) protocols;
|}.

Definition mutual : ListenConfig :=
  mkListen (txt "0.0.0.0:8443") (Some 100)
    (Some (mkListenTls (txt "tls.crt") (txt "tls.key") (Some (txt "ca.crt")) (Some Optional) 5)) 0 30 25.

(** Mutual TLS whose clients may go without a certificate, and no idle timeout. *)
Example mutual_options :
  serve_options mutual =
  Some (Ok (mkOptions TlsServer (Some 100) (Some (mkServer [txt "tls.crt"] (txt "tls.key") (Some ([txt "ca.crt"], true)) ALPN)) None
              (from_secs 30) (from_secs 5) (Some (from_secs 25)))).
Proof. vm_compute. reflexivity. Qed.

(** A policy with no CA, and a CA file without a certificate, are refused. *)
Example no_silent_mtls :
  server_config (mkListenTls (txt "tls.crt") (txt "tls.key") None (Some Required) 5) = Err PolicyWithoutCa /\
  server_config (mkListenTls (txt "tls.crt") (txt "tls.key") (Some (txt "none.pem")) None 5) = Err (NoCertificate (txt "none.pem")).
Proof. split; vm_compute; reflexivity. Qed.


Lemma workers_usable_witness :
  build_with None (Some (txt " 4 ")) None = Ok (4, FromEnvironment) /\ 0 < 4 /\ 4 + MAX_BLOCKING_THREADS <= U64_MAX.
Proof.
  split; [vm_compute; reflexivity|].
  pose proof (workers_usable None (Some (txt " 4 ")) None ltac:(done) ltac:(done)) as H.
  assert (E : build_with None (Some (txt " 4 ")) None = Ok (4, FromEnvironment)) by (vm_compute; reflexivity).
  rewrite E in H. exact (conj (proj1 H) (proj1 (proj2 H))).
Defined.
End Demo.
