(* ===== verification/Embed.v ===== *)
(** * The embedder's hooks ([src/embed.rs], and the check request of [src/auth/authz.rs])

    What a decider is asked inline and at the verify endpoint and what becomes of its
    answer, the userinfo endpoint of an OIDC backend, the handlers of extra routes, and
    the request an external authorizer is sent. The hooks are functions; the gates
    themselves are in [Auth]. *)

From stdpp Require Import gmap.
From S2P Require Import Prelude Rust Json Http Net ClientAddress Status ShieldRules Shield Guard Auth.

Section Embed.
Context {HT : HttpLib} {HV : HeaderValueLib}.
(** [IntoResponse] of a status, headers and a body. *)
Context (into_response : Z -> HeaderMap -> text -> Response).

(** ** The decider *)

(** [RequestParts]. *)
Record RequestParts := mkParts {
  pt_method : text;
  pt_path : text;
  pt_query : option text;
  pt_headers : HeaderMap;
  pt_client : ClientAddress;
}.

(** [client_of]: the resolved address, or that of the peer. *)
Definition client_of (q : Request) : ClientAddress :=
  match q_client q with Some client => client | None => from_peer (q_connect_info q) end.

(** What [auth_decider_gate] asks of a request whose URI has this query. *)
Definition gate_parts (q : Request) (query : option text) : RequestParts :=
  mkParts (q_method q) (q_path q) query (q_headers q) (client_of q).

(** [auth_decider_gate] up to [next]. *)
Definition decider_gate (decide : RequestParts -> Decision) (reserved : list text) (q : Request) (query : option text)
    : Response + Request :=
  decider_filter into_response reserved (decide (gate_parts q query)) q.

(** [original_method], [original_target]: what a fronting proxy says of the request it asks about. *)
Definition forwarded_method (headers : HeaderMap) : option text :=
  let! raw := forwarded headers [txt "x-forwarded-method"; txt "x-original-method"] in method_of (to_ascii_uppercase raw).

Definition original_target (headers : HeaderMap) : option (text * option text) :=
  let! raw := forwarded headers [txt "x-forwarded-uri"; txt "x-original-uri"] in
  Some match split_once (ch "?") raw with Some (path, query) => (path, Some query) | None => (raw, None) end.

Definition verify_parts (q : Request) (query : option text) : RequestParts :=
  let target := default (q_path q, query) (original_target (q_headers q)) in
  mkParts (default (q_method q) (forwarded_method (q_headers q))) target.1 target.2 (q_headers q) (client_of q).

(** [verify_via_decider]. *)
Definition verify_via_decider (decide : RequestParts -> Decision) (q : Request) (query : option text) : Response :=
  match decide (verify_parts q query) with
  | DecAllow inject => into_response 200 inject []
  | DecDeny status body => deny_response into_response status body
  | DecRedirect location => redirect_response into_response 401 location
  end.

(** ** The userinfo endpoint *)

Definition APPLICATION_JSON : text := txt "application/json".

Definition unauthorized_with_challenge (body : text) (challenge : text) : Response :=
  into_response 401 (hm_insert (hm_insert hm_empty CONTENT_TYPE APPLICATION_JSON) (txt "www-authenticate") challenge) body.

(** [bearer_token]: the scheme in any case. *)
Definition userinfo_token (headers : HeaderMap) : option text :=
  let! value := hm_get_str headers (txt "authorization") in
  '(scheme, rest) ← split_once (ch " ") value;
  if negb (eq_ignore_ascii_case scheme (txt "bearer")) then None
  else match trim rest with [] => None | token => Some token end.

(** The JSON text of an error and its message. *)
Definition QUOTE : ascii := of_code 34.
Definition quoted (s : string) : text := QUOTE :: txt s ++ [QUOTE].
Definition error_text (error message : string) : text :=
  txt "{" ++ quoted "error" ++ txt ":" ++ quoted error ++ txt "," ++ quoted "message" ++ txt ":" ++ quoted message ++ txt "}".
Definition INVALID_TOKEN : text := txt "Bearer error=" ++ quoted "invalid_token".

(** [Json]. *)
Context (json_response : Value -> Response).

(** The handler of [userinfo_path]. *)
Definition userinfo (backend : text -> option Value) (headers : HeaderMap) : Response :=
  match userinfo_token headers with
  | None => unauthorized_with_challenge (error_text "invalid_request" "missing bearer token") (txt "Bearer")
  | Some token =>
      match backend token with
      | Some claims => json_response claims
      | None => unauthorized_with_challenge (error_text "invalid_token" "invalid or expired token") INVALID_TOKEN
      end
  end.

(** ** Extra routes *)

Definition MAX_EXTRA_ROUTE_BODY : nat := 16 * 1024 * 1024.

(** [RouteRequest], [RouteResponse]. *)
Record RouteRequest := mkRouteRequest {
  rr_method : text;
  rr_path : text;
  rr_query : option text;
  rr_headers : HeaderMap;
  rr_body : text;
  rr_client : ClientAddress;
}.
Record RouteResponse := mkRouteResponse { ro_status : Z; ro_headers : HeaderMap; ro_body : text }.

(** [axum::body::to_bytes] of a body, with its limit. *)
Context {B : Type} (to_bytes : B -> nat -> option text).

(** The service of a route of [extra_routes_router]. *)
Definition serve_extra (handle : RouteRequest -> RouteResponse) (q : Request) (query : option text) (body : B) : Response :=
  match to_bytes body MAX_EXTRA_ROUTE_BODY with
  | None => deny_response into_response 413 (error_text "payload_too_large" "request body exceeded limit or could not be read")
  | Some body =>
      let resp := handle (mkRouteRequest (q_method q) (q_path q) query (q_headers q) body (client_of q)) in
      mkResponse (ro_status resp) (ro_headers resp) (BBytes (ro_body resp)) None
  end.

(** ** The request an authorizer is sent *)

(** The HTTP attributes of a [CheckRequest]. *)
Record HttpRequest := mkHttpRequest {
  hr_method : text;
  hr_path : text;
  hr_query : text;
  hr_host : text;
  hr_scheme : text;
  hr_headers : gmap text text;
}.

(** The values a map takes of one name: each that is text, over the one before. *)
Definition put_values (m : gmap text text) (name : text) (values : list text) : gmap text text :=
  foldl (fun m value => match value_str value with Some v => <[name := v]> m | None => m end) m values.

Definition build_check_request (headers : HeaderMap) (method path : text) (query : option text) : HttpRequest :=
  mkHttpRequest method path (default [] query) (default [] (hm_get_str headers (txt "host")))
    (default (txt "http") (hm_get_str headers (txt "x-forwarded-proto")))
    (foldl (fun m kv => put_values m kv.1 kv.2) ∅ (hm_entries headers)).
End Embed.

(** * Laws *)

Section Laws.
Context {HT : HttpLib} {HL : HttpLaws HT} {HV : HeaderValueLib}.
Context (into_response : Z -> HeaderMap -> text -> Response).

(** A fronting proxy asks about [asked] as it forwards: its method and its target. *)
Definition asks_for (q : Request) (method path : text) (query : option text) : Prop :=
  forwarded (q_headers q) [txt "x-forwarded-method"; txt "x-original-method"] = Some method /\
  forwarded (q_headers q) [txt "x-forwarded-uri"; txt "x-original-uri"] =
    Some (path ++ match query with Some query => ch "?" :: query | None => [] end).

(** C36: the verify endpoint decides what the inline gate decides. Asked by a fronting proxy about a method and a
    target, with the headers and the client of the request it fronts, the decider is asked the same as inline; what
    the gate lets through is answered 200 with the headers it would inject, what it denies with the same status and
    body, and a redirect with 401 and the same location, never with one a fronting proxy would follow. *)
Theorem verify_as_gate (decide : RequestParts -> Decision) (reserved : list text) (q asked : Request)
    (query own_query : option text) :
  asks_for q (q_method asked) (q_path asked) query -> ch "?" ∉ q_path asked ->
  method_of (to_ascii_uppercase (q_method asked)) = Some (q_method asked) ->
  q_headers asked = q_headers q -> client_of asked = client_of q ->
  verify_parts q own_query = gate_parts asked query /\
  match decide (gate_parts asked query) with
  | DecAllow inject =>
      verify_via_decider into_response decide q own_query = into_response 200 inject [] /\
      decider_gate into_response decide reserved asked query =
        inr (with_request_headers asked (strip_then_insert (q_headers asked) inject reserved))
  | DecDeny status body =>
      exists r, decider_gate into_response decide reserved asked query = inl (mark_rejection r (http_to_grpc_code status)
                  (txt "denied by the auth decider")) /\ verify_via_decider into_response decide q own_query = r
  | DecRedirect location =>
      verify_via_decider into_response decide q own_query = redirect_response into_response 401 location /\
      decider_gate into_response decide reserved asked query =
        inl (mark_rejection (redirect_response into_response 302 location) CUnauthenticated (txt "authentication required"))
  end.
Proof.
  intros [Hm Ht] Hplain Hmethod Hheaders Hclient.
  assert (Htarget : original_target (q_headers q) = Some (q_path asked, query)).
  { unfold original_target. rewrite Ht. cbn [mbind option_bind]. destruct query as [query|].
    - assert (split_once (ch "?") (q_path asked ++ ch "?" :: query) = Some (q_path asked, query)) as ->
        by (by apply split_once_Some). done.
    - rewrite app_nil_r. assert (split_once (ch "?") (q_path asked) = None) as -> by (by apply split_once_None). done. }
  assert (Hparts : verify_parts q own_query = gate_parts asked query).
  { unfold verify_parts, gate_parts, forwarded_method. rewrite Hm, Htarget. cbn. by rewrite Hmethod, Hheaders, Hclient. }
  split; [done|]. unfold verify_via_decider, decider_gate. rewrite Hparts.
  destruct (decide (gate_parts asked query)) as [inject|status body|location]; cbn; [done| |done]. by eexists.
Qed.

(** A token as the endpoint takes it. *)
Definition presented (headers : HeaderMap) (token : text) : Prop :=
  exists scheme rest, hm_get_str headers (txt "authorization") = Some (scheme ++ ch " " :: rest) /\ (ch " " ∉ scheme) /\
    eq_ignore_ascii_case scheme (txt "bearer") = true /\ token = trim rest /\ token <> [].

Lemma userinfo_token_ok (headers : HeaderMap) (token : text) : userinfo_token headers = Some token <-> presented headers token.
Proof using.
  unfold userinfo_token, presented. split.
  - destruct (hm_get_str headers _) as [value|]; [|done]. cbn [mbind option_bind].
    destruct (split_once (ch " ") value) as [[scheme rest]|] eqn:Es; [|done]. cbn [mbind option_bind].
    apply split_once_Some in Es as [-> Hs]. destruct (eq_ignore_ascii_case scheme _) eqn:Ec; [|done]. cbn [negb].
    destruct (trim rest) as [|c t] eqn:Et; [done|]. intros [= <-]. exists scheme, rest. by rewrite Et.
  - intros (scheme & rest & -> & Hs & Hc & -> & Hne). cbn [mbind option_bind].
    assert (split_once (ch " ") (scheme ++ ch " " :: rest) = Some (scheme, rest)) as -> by (by apply split_once_Some).
    cbn [mbind option_bind]. rewrite Hc. cbn [negb]. by destruct (trim rest).
Qed.

(** The backend of the userinfo endpoint is asked for the bearer token of a request and nothing else: a token is
    what follows a scheme that is [bearer] in any case, trimmed and never empty. Without one the answer is 401 and
    does not depend on the backend; with one it is the claims, or 401 with the error a client can tell it by. *)
Theorem userinfo_sound (json_response : Value -> Response) (backend : text -> option Value) (headers : HeaderMap) :
  let answer := userinfo into_response json_response backend headers in
  (forall token, presented headers token ->
     answer = match backend token with
              | Some claims => json_response claims
              | None => unauthorized_with_challenge into_response (error_text "invalid_token" "invalid or expired token") INVALID_TOKEN
              end) /\
  ((forall token, ~ presented headers token) ->
     forall other, userinfo into_response json_response other headers =
       unauthorized_with_challenge into_response (error_text "invalid_request" "missing bearer token") (txt "Bearer")).
Proof.
  cbn zeta. split_and!.
  - intros token Ht%userinfo_token_ok. unfold userinfo. by rewrite Ht.
  - intros Hn other. unfold userinfo. destruct (userinfo_token headers) as [token|] eqn:E; [|done].
    apply userinfo_token_ok in E. by destruct (Hn token).
Qed.

(** ** Bodies of extra routes *)

Section ExtraRoutes.
(** A body holds bytes or fails on the way; [to_bytes] reads all it holds, and nothing past its limit. *)
Context {B : Type} (to_bytes : B -> nat -> option text) (held : B -> option text).
Hypothesis to_bytes_reads : forall body limit,
  to_bytes body limit = (let! bytes := held body in if (length bytes <=? limit)%nat then Some bytes else None).

Local Abbreviation served := (serve_extra into_response to_bytes).
Local Abbreviation too_large := (deny_response into_response 413
  (error_text "payload_too_large" "request body exceeded limit or could not be read")).

(** The handler of an extra route gets the whole body of its request or is not called: a body that failed on the
    way, or of more than 16 MiB, is answered 413 whatever the handler; any other reaches it entire, with the request's
    method, target, headers and client, and what it answers is the answer. *)
Theorem extra_body_whole (handle : RouteRequest -> RouteResponse) (q : Request) (query : option text) (body : B) :
  match held body with
  | Some bytes =>
      if (length bytes <=? MAX_EXTRA_ROUTE_BODY)%nat then
        exists given, rr_body given = bytes /\ rr_method given = q_method q /\ rr_path given = q_path q /\ rr_query given = query /\
          rr_headers given = q_headers q /\ rr_client given = client_of q /\
          served handle q query body =
            mkResponse (ro_status (handle given)) (ro_headers (handle given)) (BBytes (ro_body (handle given))) None
      else served handle q query body = too_large
  | None => served handle q query body = too_large
  end.
Proof.
  unfold serve_extra. rewrite to_bytes_reads. destruct (held body) as [bytes|]; cbn [mbind option_bind]; [|done].
  destruct (length bytes <=? MAX_EXTRA_ROUTE_BODY)%nat; [|done].
  exists (mkRouteRequest (q_method q) (q_path q) query (q_headers q) bytes (client_of q)). by split_and!.
Qed.
End ExtraRoutes.

(** ** What an authorizer is told *)

Lemma put_values_lookup (m : gmap text text) (name n : text) (values : list text) :
  put_values m name values !! n = if decide (name = n) then
    match last (omap value_str values) with Some v => Some v | None => m !! n end else m !! n.
Proof using.
  unfold put_values. revert m. induction values as [|v values IH] using rev_ind; intros m; [by case_decide|].
  rewrite foldl_app, omap_app. cbn. rewrite last_app. destruct (value_str v) as [s|]; cbn.
  - case_decide as E; [subst; by rewrite lookup_insert_eq|]. rewrite lookup_insert_ne by done. rewrite IH. by repeat case_decide.
  - rewrite IH. done.
Qed.

(** An authorizer is told the last text value of every header the request has, and of no other; the method, the
    path and the query as they are; and as host and scheme the first value of [host] and of [x-forwarded-proto]. *)
Theorem authorizer_told (headers : HeaderMap) (method path : text) (query : option text) :
  let told := build_check_request headers method path query in
  (forall name, hr_headers told !! name = last (omap value_str (hm_get_all headers name))) /\
  hr_method told = method /\ hr_path told = path /\ hr_query told = default [] query /\
  hr_host told = default [] (hm_get headers (txt "host") ≫= value_str) /\
  hr_scheme told = default (txt "http") (hm_get headers (txt "x-forwarded-proto") ≫= value_str).
Proof.
  cbn zeta. split; [|done]. intros name. cbn [hr_headers build_check_request].
  assert (H : forall es m, NoDup es.*1 -> foldl (fun m kv => put_values m kv.1 kv.2) m es !! name =
    match assoc name es with Some vs => match last (omap value_str vs) with Some v => Some v | None => m !! name end | None => m !! name end).
  { induction es as [|[k vs] es IH]; intros m Hd; [done|]. inversion Hd as [|? ? Hk Hd']; subst.
    cbn [foldl assoc fst snd]. rewrite IH by done. rewrite !put_values_lookup. destruct (decide (k = name)) as [->|]; [|done]. by rewrite assoc_not_in. }
  rewrite H by apply entries_nodup. pose proof (assoc_entries_cases headers name) as Hc.
  destruct (assoc name (hm_entries headers)) as [vs|].
  - destruct Hc as [-> _]. by destruct (last (omap value_str vs)).
  - by rewrite Hc.
Qed.
End Laws.

(** * Witnesses *)

Module Demo.
Import Http.Model.

#[local] Instance header_values : HeaderValueLib := {| header_value s := Some s |}.
Definition respond (status : Z) (headers : HeaderMap) (body : text) : Response := mkResponse status headers (BBytes body) None.

Definition local : ClientAddress := from_peer (Some (mkSocket (V4 2130706433) 40000)).
Definition headers : HeaderMap :=
  hm_append (hm_append (hm_insert (hm_insert hm_empty (txt "x-forwarded-method") (txt "GET"))
    (txt "x-forwarded-uri") (txt "/v1/books?page=2")) (txt "accept") (txt "text/html")) (txt "accept") (txt "application/json").
Definition sub_request : Request := mkReq (txt "POST") (txt "/verify") headers (Some local) None None.
Definition asked : Request := mkReq (txt "GET") (txt "/v1/books") headers (Some local) None None.

(** Readers of books only. *)
Definition decide (parts : RequestParts) : Decision :=
  if starts_with (txt "/v1/books") (pt_path parts) && bool_decide (pt_method parts = txt "GET")
  then DecAllow (hm_insert hm_empty (txt "x-user") (txt "reader")) else DecDeny 403 [].

Lemma verify_as_gate_witness :
  asks_for sub_request (txt "GET") (txt "/v1/books") (Some (txt "page=2")) /\
  verify_parts sub_request None = gate_parts asked (Some (txt "page=2")) /\
  verify_via_decider respond decide sub_request None = respond 200 (hm_insert hm_empty (txt "x-user") (txt "reader")) [].
Proof.
  assert (Ha : asks_for sub_request (txt "GET") (txt "/v1/books") (Some (txt "page=2"))) by (split; vm_compute; reflexivity).
  split; [exact Ha|].
  destruct (verify_as_gate respond decide [] sub_request asked (Some (txt "page=2")) None Ha
    ltac:(apply (bool_decide_eq_true_1 _); vm_compute; reflexivity) ltac:(vm_compute; reflexivity) eq_refl eq_refl) as [Hp Hd].
  split; [exact Hp|]. vm_compute in Hd |- *. exact (proj1 Hd).
Defined.

(** Of a header sent twice the authorizer is told the last value only. *)
Lemma authorizer_told_witness :
  hr_headers (build_check_request headers (txt "GET") (txt "/v1/books") None) !! txt "accept" = Some (txt "application/json") /\
  hr_headers (build_check_request headers (txt "GET") (txt "/v1/books") None) !! txt "cookie" = None.
Proof.
  destruct (authorizer_told headers (txt "GET") (txt "/v1/books") None) as [H _].
  split; rewrite H; vm_compute; reflexivity.
Defined.

(** No token, and one in a scheme of any case. *)
Example tokens :
  userinfo_token (hm_insert hm_empty (txt "authorization") (txt "bEARER  a.b.c ")) = Some (txt "a.b.c") /\
  userinfo_token (hm_insert hm_empty (txt "authorization") (txt "Bearer  ")) = None.
Proof. split; vm_compute; reflexivity. Qed.

(** A body of chunks, an error of it among them. *)
Definition held (chunks : list (option text)) : option text := mjoin <$> mapM id chunks.
Definition read (chunks : list (option text)) (limit : nat) : option text :=
  let! bytes := held chunks in if (length bytes <=? limit)%nat then Some bytes else None.
Definition echo (given : RouteRequest) : RouteResponse := mkRouteResponse 200 hm_empty (rr_method given ++ rr_body given).

Lemma extra_body_whole_witness :
  serve_extra respond read echo asked None [Some (txt "a"); Some (txt "b")] = mkResponse 200 hm_empty (BBytes (txt "GETab")) None /\
  rs_status (serve_extra respond read echo asked None [Some (txt "a"); None]) = 413.
Proof.
  split.
  - destruct (extra_body_whole respond read held (fun _ _ => eq_refl) echo asked None [Some (txt "a"); Some (txt "b")])
      as (given & Hb & Hm & _ & _ & _ & _ & ->). cbn. by rewrite Hb, Hm.
  - exact (f_equal rs_status (extra_body_whole respond read held (fun _ _ => eq_refl) echo asked None [Some (txt "a"); None])).
Defined.
End Demo.
