(* ===== verification/Canonical.v ===== *)
(** * The pool of the status details ([complete_with_canonical] of [src/transcode/error.rs])

    The canonical descriptors merged into the product's, type by type: what the product
    defines wins, what it lacks goes in through a copy of its canonical file. The
    descriptor pool is [prost_reflect]'s, an interface with the laws the merge relies on. *)

From stdpp Require Import gmap.
From S2P Require Import Prelude Rust Json.

(** ** Files and pools *)

(** The part of a [FileDescriptorProto] the merge reads or writes; the options, services and
    extensions, which a copy carries over unread, are left out. *)
Record FileProto {M E : Type} := mkFile {
  fp_name : text;
  fp_package : text;
  fp_messages : list M;
  fp_enums : list E;
  fp_dependency : list text;
  fp_public : list Z;
  fp_weak : list Z;
  fp_source_info : bool;
}.
Arguments FileProto : clear implicits.

Inductive SymbolKind := SMessage | SEnum | SOther.

#[export] Instance symbol_kind_eq : EqDecision SymbolKind.
Proof. solve_decision. Defined.

Class PoolLib : Type := {
  MessageProto : Type;
  EnumProto : Type;
  message_name : MessageProto -> text;
  enum_name : EnumProto -> text;
  Pool : Type;
  (** What a full name is in a pool, and the file that defines it. *)
  pool_symbol : Pool -> text -> option (SymbolKind * text);
  pool_has_file : Pool -> text -> bool;
  (** [add_file_descriptor_proto]. *)
  pool_add : Pool -> FileProto MessageProto EnumProto -> option Pool;
}.

Section Complete.
Context {PL : PoolLib}.

Abbreviation File := (FileProto MessageProto EnumProto).

Definition full (package name : text) : text := match package with [] => name | _ => package ++ txt "." ++ name end.

(** [get_message_by_name], [get_enum_by_name], by the file of what they find. *)
Definition message_file (pool : Pool) (name : text) : option text :=
  match pool_symbol pool name with Some (SMessage, file) => Some file | _ => None end.
Definition enum_file (pool : Pool) (name : text) : option text :=
  match pool_symbol pool name with Some (SEnum, file) => Some file | _ => None end.

(** [retain]: the types no file of the pool defines, and the files that define the others. *)
Fixpoint retain_missing {A} (file_of : A -> option text) (types : list A) (defining : gset text) : list A * gset text :=
  match types with
  | [] => ([], defining)
  | t :: types =>
      match file_of t with
      | Some file => retain_missing file_of types ({[file]} ∪ defining)
      | None => let '(kept, defining) := retain_missing file_of types defining in (t :: kept, defining)
      end
  end.

(** The files importers of a canonical file import in its place. *)
Abbreviation StandIns := (gmap text (gset text)).

Definition CANONICAL : text := txt "structured-proxy/canonical/".

(** What a copy imports for a dependency. *)
Definition imports (stand_ins : StandIns) (pool : Pool) (dep : text) : gset text :=
  match stand_ins !! dep with
  | Some files => (if pool_has_file pool dep then {[dep]} else ∅) ∪ files
  | None => {[dep]}
  end.

(** One canonical file: a turn of the loop. The dependencies are those of a set, in the order of its elements. *)
Definition merge_file (state : StandIns * Pool) (file : File) : StandIns * Pool :=
  let '(stand_ins, pool) := state in
  let full := full (fp_package file) in
  let '(messages, defining) := retain_missing (fun m => message_file pool (full (message_name m))) (fp_messages file) ∅ in
  let '(enums, defining) := retain_missing (fun e => enum_file pool (full (enum_name e))) (fp_enums file) defining in
  let file_present := pool_has_file pool (fp_name file) in
  if match messages, enums with [], [] => true | _, _ => false end then
    (if file_present then stand_ins else <[fp_name file := defining]> stand_ins, pool)
  else
    let renamed := negb (bool_decide (defining = ∅)) || file_present in
    let name := if renamed then CANONICAL ++ fp_name file else fp_name file in
    let provided_by := if renamed then {[name]} ∪ defining else defining in
    let dependencies := ⋃ (imports stand_ins pool <$> fp_dependency file) ∪ defining in
    let proto := mkFile _ _ name (fp_package file) messages enums (elements dependencies) [] [] false in
    match pool_add pool proto with
    | Some pool => (if renamed then <[fp_name file := provided_by]> stand_ins else stand_ins, pool)
    | None => (stand_ins, pool)
    end.

(** [complete_with_canonical], of the files of the canonical pool. *)
Definition complete_with_canonical (pool : Pool) (canonical : list File) : Pool :=
  (foldl merge_file (∅, pool) canonical).2.
End Complete.

(** * Laws *)

(** The types a file defines at its top level. *)
Definition defines {PL : PoolLib} (file : FileProto MessageProto EnumProto) (name : text) (kind : SymbolKind) : Prop :=
  (kind = SMessage /\ exists m, m ∈ fp_messages file /\ name = full (fp_package file) (message_name m)) \/
  (kind = SEnum /\ exists e, e ∈ fp_enums file /\ name = full (fp_package file) (enum_name e)).
Definition top_names {PL : PoolLib} (file : FileProto MessageProto EnumProto) : list text :=
  ((fun m => full (fp_package file) (message_name m)) <$> fp_messages file) ++
  ((fun e => full (fp_package file) (enum_name e)) <$> fp_enums file).

(** A file with some of the types of another. *)
Definition part_of {PL : PoolLib} (part file : FileProto MessageProto EnumProto) : Prop :=
  fp_package part = fp_package file /\ fp_messages part ⊆ fp_messages file /\ fp_enums part ⊆ fp_enums file.

(** What [prost_reflect] documents of a pool: a symbol is of one of its files; a file whose name and symbols are new,
    whose imports are there and define what its messages refer to, is added, and adds the symbols it declares.
    [refers m n] says that a message has a field of the type [n] outside of it; [declares] also counts the types
    inside the messages of a file. *)
Class PoolLaws {PL : PoolLib} (refers : MessageProto -> text -> Prop)
    (declares : FileProto MessageProto EnumProto -> text -> SymbolKind -> Prop) : Prop := {
  declares_top file n k : defines file n k -> declares file n k;
  declares_part part file n k : part_of part file -> declares part n k -> declares file n k;
  symbol_file pool n k file : pool_symbol pool n = Some (k, file) -> pool_has_file pool file = true;
  add_accepts pool file :
    pool_has_file pool (fp_name file) = false ->
    (forall dep, dep ∈ fp_dependency file -> pool_has_file pool dep = true) ->
    (forall n k, declares file n k -> pool_symbol pool n = None) ->
    NoDup (top_names file) ->
    (forall m n, m ∈ fp_messages file -> refers m n ->
       (exists k, defines file n k) \/ exists k dep, pool_symbol pool n = Some (k, dep) /\ dep ∈ fp_dependency file) ->
    is_Some (pool_add pool file);
  add_declared pool file pool' n k :
    pool_add pool file = Some pool' -> declares file n k -> pool_symbol pool' n = Some (k, fp_name file);
  add_others pool file pool' n :
    pool_add pool file = Some pool' -> (forall k, ~ declares file n k) -> pool_symbol pool' n = pool_symbol pool n;
  add_files pool file pool' name :
    pool_add pool file = Some pool' ->
    pool_has_file pool' name = bool_decide (name = fp_name file) || pool_has_file pool name;
}.

Section Laws.
Context {PL : PoolLib} (refers : MessageProto -> text -> Prop)
  (declares : FileProto MessageProto EnumProto -> text -> SymbolKind -> Prop) {HL : PoolLaws refers declares}.

Abbreviation File := (FileProto MessageProto EnumProto).

Lemma retain_missing_ok {A} (file_of : A -> option text) (types : list A) (defining : gset text) :
  (retain_missing file_of types defining).1 = filter (fun t => file_of t = None) types /\
  forall file, file ∈ (retain_missing file_of types defining).2 <-> file ∈ defining \/ exists t, t ∈ types /\ file_of t = Some file.
Proof using.
  revert defining. induction types as [|t types IH]; intros defining; cbn [retain_missing].
  - split; [done|]. intros file. split; [by left|]. intros [?|(t & Ht & _)]; [done|by apply elem_of_nil in Ht].
  - rewrite filter_cons. destruct (file_of t) as [f|] eqn:Et.
    + rewrite decide_False by congruence. destruct (IH ({[f]} ∪ defining)) as [H1 H2]. split; [done|]. intros file.
      rewrite H2, elem_of_union, elem_of_singleton. split.
      * intros [[->|?]|(t' & ? & ?)]; [right; exists t; by split; [left|]|by left|right; exists t'; by split; [right|]].
      * intros [?|(t' & [->|?]%elem_of_cons & Hf)]; [tauto|left; left; congruence|right; by exists t'].
    + rewrite decide_True by done. specialize (IH defining). destruct (retain_missing file_of types defining) as [kept def].
      cbn in *. destruct IH as [-> H2]. split; [done|]. intros file. rewrite H2. split.
      * intros [?|(t' & ? & ?)]; [by left|right; exists t'; by split; [right|]].
      * intros [?|(t' & [->|?]%elem_of_cons & Hf)]; [by left|congruence|right; by exists t'].
Qed.

(** The canonical files, and what they and a product need of each other. *)
Context (product : Pool) (canonical : list File).

Definition has (n : text) (k : SymbolKind) (file : text) : Prop := pool_symbol product n = Some (k, file).

Record mergeable : Prop := {
  mg_names : NoDup (fp_name <$> canonical);
  mg_copies f g : f ∈ canonical -> g ∈ canonical -> CANONICAL ++ fp_name f <> fp_name g;
  mg_fresh f : f ∈ canonical -> pool_has_file product (CANONICAL ++ fp_name f) = false;
  (** A file comes after those it imports, and its messages refer to types of it or of those. *)
  mg_deps before f after dep : canonical = before ++ f :: after -> dep ∈ fp_dependency f -> exists g, g ∈ before /\ fp_name g = dep;
  mg_refs f m n : f ∈ canonical -> m ∈ fp_messages f -> refers m n ->
    (exists k, defines f n k) \/ exists g k, g ∈ canonical /\ fp_name g ∈ fp_dependency f /\ defines g n k;
  mg_distinct f g n k k' : f ∈ canonical -> g ∈ canonical -> declares f n k -> declares g n k' -> f = g /\ k = k';
  mg_top f : f ∈ canonical -> NoDup (top_names f);
  (** A product without some of the types of a file has nothing under their names. *)
  mg_fits f part n k : f ∈ canonical -> part_of part f -> (forall n k file, defines part n k -> ~ has n k file) ->
    declares part n k -> pool_symbol product n = None;
  (** A product that has a file of that name and all of its types has them in it. *)
  mg_present f : f ∈ canonical -> pool_has_file product (fp_name f) = true ->
    (forall n k, defines f n k -> exists file, has n k file) -> forall n k, defines f n k -> has n k (fp_name f);
}.
Hypothesis Hok : mergeable.

(** After the files of [done]. *)
Record merged (done : list File) (stand_ins : gmap text (gset text)) (pool : Pool) : Prop := {
  md_kept n s : pool_symbol product n = Some s -> pool_symbol pool n = Some s;
  md_others n : (forall f k, f ∈ done -> ~ declares f n k) -> pool_symbol pool n = pool_symbol product n;
  md_done f n k : f ∈ done -> defines f n k ->
    exists file, pool_symbol pool n = Some (k, file) /\ file ∈ imports stand_ins pool (fp_name f);
  md_files name : pool_has_file pool name = true ->
    pool_has_file product name = true \/ exists f, f ∈ done /\ (name = fp_name f \/ name = CANONICAL ++ fp_name f);
  md_product name : pool_has_file product name = true -> pool_has_file pool name = true;
  md_imports f file : f ∈ done -> file ∈ imports stand_ins pool (fp_name f) -> pool_has_file pool file = true;
  md_keys d : is_Some (stand_ins !! d) -> exists f, f ∈ done /\ fp_name f = d;
}.

(** The next file, of which nothing is there but what the product has. *)
Section Next.
Context (before after : list File) (f : File).
Hypothesis Hsplit : canonical = before ++ f :: after.
Context (stand_ins : gmap text (gset text)) (pool : Pool).
Hypothesis Hm : merged before stand_ins pool.

Lemma next_in : f ∈ canonical.
Proof using Hsplit. rewrite Hsplit. apply elem_of_app. right. by left. Qed.

Lemma before_in (g : File) : g ∈ before -> g ∈ canonical.
Proof using Hsplit. rewrite Hsplit. intros Hg. apply elem_of_app. by left. Qed.

Lemma next_new (g : File) : g ∈ before -> fp_name g <> fp_name f.
Proof using Hsplit Hok.
  intros Hg E. pose proof (mg_names Hok) as Hn. rewrite Hsplit, fmap_app, fmap_cons in Hn.
  apply NoDup_app in Hn as (_ & Hn & _). apply (Hn (fp_name f)); [rewrite <- E; by apply list_elem_of_fmap_2|by left].
Qed.

Lemma next_apart (g : File) (n : text) (k k' : SymbolKind) : g ∈ before -> declares f n k -> ~ declares g n k'.
Proof using Hsplit Hok.
  intros Hg Hf Hd. destruct (mg_distinct Hok g f n k' k (before_in g Hg) next_in Hd Hf) as [-> _]. by apply (next_new f Hg).
Qed.

Lemma next_symbol (n : text) (k : SymbolKind) : declares f n k -> pool_symbol pool n = pool_symbol product n.
Proof using Hsplit Hok Hm. intros Hd. apply (md_others _ _ _ Hm). intros g k' Hg. by apply next_apart with k. Qed.

Lemma next_file : pool_has_file pool (fp_name f) = pool_has_file product (fp_name f).
Proof using Hsplit Hok Hm.
  destruct (pool_has_file product (fp_name f)) eqn:E; [by apply (md_product _ _ _ Hm)|].
  destruct (pool_has_file pool (fp_name f)) eqn:E'; [|done].
  apply (md_files _ _ _ Hm) in E' as [?|(g & Hg & [Hn|Hn])]; [congruence| |].
  - by destruct (next_new g Hg).
  - by destruct (mg_copies Hok g f (before_in g Hg) next_in).
Qed.

Lemma next_copy : pool_has_file pool (CANONICAL ++ fp_name f) = false.
Proof using Hsplit Hok Hm.
  destruct (pool_has_file pool (CANONICAL ++ fp_name f)) eqn:E; [|done].
  apply (md_files _ _ _ Hm) in E as [H|(g & Hg & [Hn|Hn])].
  - rewrite (mg_fresh Hok f next_in) in H. done.
  - by destruct (mg_copies Hok f g next_in (before_in g Hg)).
  - apply app_inv_head in Hn. by destruct (next_new g Hg).
Qed.

Lemma next_unseen : stand_ins !! fp_name f = None.
Proof using Hsplit Hok Hm.
  destruct (stand_ins !! fp_name f) as [files|] eqn:E; [|done]. destruct (md_keys _ _ _ Hm (fp_name f)) as (g & Hg & Hn); [by eexists|].
  by destruct (next_new g Hg).
Qed.

(** Adding a copy, or the file itself, for the types [pool] lacks of it. *)
Abbreviation full_name := (full (fp_package f)).
Abbreviation kept_messages := (filter (fun m => message_file pool (full_name (message_name m)) = None) (fp_messages f)).
Abbreviation kept_enums := (filter (fun e => enum_file pool (full_name (enum_name e)) = None) (fp_enums f)).

(** The files of the pool that define types of the file. *)
Definition defined_in (file : text) : Prop := exists n k, defines f n k /\ pool_symbol pool n = Some (k, file).

Lemma next_defining (defining : gset text) :
  (forall file, file ∈ defining <->
     (exists m, m ∈ fp_messages f /\ message_file pool (full_name (message_name m)) = Some file) \/
     (exists e, e ∈ fp_enums f /\ enum_file pool (full_name (enum_name e)) = Some file)) ->
  forall file, file ∈ defining <-> defined_in file.
Proof using.
  intros H file. rewrite H. unfold defined_in, defines, message_file, enum_file. split.
  - intros [(m & Hin & Hf)|(e & Hin & Hf)]; (destruct (pool_symbol pool _) as [[[] file']|] eqn:E; [..|done]; try done); injection Hf as ->;
      [exists (full_name (message_name m)), SMessage|exists (full_name (enum_name e)), SEnum]; split; try done; [left|right]; split; try done; by eexists.
  - intros (n & k & [[-> (m & Hin & ->)]|[-> (e & Hin & ->)]] & Hs); [left; exists m|right; exists e]; split; try done; by rewrite Hs.
Qed.

(** A type of the file is missing, and kept, or there. *)
Lemma next_cases (n : text) (k : SymbolKind) (name : text) (deps : list text) :
  defines f n k ->
  defines (mkFile _ _ name (fp_package f) kept_messages kept_enums deps [] [] false) n k \/
  exists file, pool_symbol pool n = Some (k, file) /\ defined_in file.
Proof using.
  intros Hd. destruct (pool_symbol pool n) as [[k' file]|] eqn:E.
  - destruct (decide (k = k')) as [<-|Hk]; [right; exists file; split; [done|]; by exists n, k|]. left.
    destruct Hd as [[-> (m & Hin & ->)]|[-> (e & Hin & ->)]]; [left|right]; (split; [done|]); cbn.
    + exists m. split; [|done]. apply list_elem_of_filter. split; [|done]. unfold message_file. rewrite E. by destruct k'.
    + exists e. split; [|done]. apply list_elem_of_filter. split; [|done]. unfold enum_file. rewrite E. by destruct k'.
  - left. destruct Hd as [[-> (m & Hin & ->)]|[-> (e & Hin & ->)]]; [left|right]; (split; [done|]); cbn.
    + exists m. split; [|done]. apply list_elem_of_filter. split; [|done]. unfold message_file. by rewrite E.
    + exists e. split; [|done]. apply list_elem_of_filter. split; [|done]. unfold enum_file. by rewrite E.
Qed.

(** Nothing of the product stands in the way of what is kept. *)
Lemma kept_free (name : text) (deps : list text) (n : text) (k : SymbolKind) :
  let proto := mkFile _ _ name (fp_package f) kept_messages kept_enums deps [] [] false in
  part_of proto f /\ (declares proto n k -> pool_symbol product n = None /\ pool_symbol pool n = None).
Proof using Hsplit Hok Hm HL.
  cbn zeta. set (proto := mkFile _ _ _ _ _ _ _ _ _ _). assert (Hpart : part_of proto f).
  { split; [done|]. split; intros x Hx; cbn in Hx; by apply list_elem_of_filter in Hx as [_ ?]. }
  split; [done|]. intros Hd. assert (Hnone : pool_symbol product n = None).
  { apply (mg_fits Hok f proto n k next_in Hpart); [|done]. intros n' k' file Hd' Hhas.
    apply (md_kept _ _ _ Hm) in Hhas. destruct Hd' as [[-> (m & Hin & ->)]|[-> (e & Hin & ->)]]; cbn in Hin;
      apply list_elem_of_filter in Hin as [Hin _]; unfold message_file, enum_file in Hin; cbn in Hhas; by rewrite Hhas in Hin. }
  split; [done|]. rewrite (next_symbol n k); [done|]. by apply (declares_part proto).
Qed.

(** The types of the file are all there: nothing is added. *)
Lemma merged_present (defining : gset text) :
  (forall file, file ∈ defining <-> defined_in file) ->
  (forall n k, defines f n k -> exists file, pool_symbol pool n = Some (k, file)) ->
  merged (before ++ [f]) (if pool_has_file pool (fp_name f) then stand_ins else <[fp_name f := defining]> stand_ins) pool.
Proof using Hsplit Hok Hm HL.
  intros Hdef Hall. set (stand_ins' := if pool_has_file pool (fp_name f) then stand_ins else <[fp_name f := defining]> stand_ins).
  assert (Hother : forall g, g ∈ before -> imports stand_ins' pool (fp_name g) = imports stand_ins pool (fp_name g)).
  { intros g Hg. unfold imports, stand_ins'. destruct (pool_has_file pool (fp_name f)); [done|].
    rewrite lookup_insert_ne by (intros E; by apply (next_new g Hg)). done. }
  assert (Hown : forall file, file ∈ imports stand_ins' pool (fp_name f) <->
            if pool_has_file pool (fp_name f) then file = fp_name f else file ∈ defining).
  { intros file. unfold imports, stand_ins'. destruct (pool_has_file pool (fp_name f)) eqn:E.
    - rewrite next_unseen. apply elem_of_singleton.
    - rewrite lookup_insert_eq. set_solver. }
  split.
  - apply (md_kept _ _ _ Hm).
  - intros n Hn. apply (md_others _ _ _ Hm). intros g k Hg. apply Hn. apply elem_of_app. by left.
  - intros g n k [Hg| ->%list_elem_of_singleton]%elem_of_app Hd.
    + destruct (md_done _ _ _ Hm g n k Hg Hd) as (file & Hs & Hi). exists file. split; [done|]. by rewrite Hother.
    + destruct (Hall n k Hd) as [file Hs]. exists file. split; [done|]. apply Hown.
      destruct (pool_has_file pool (fp_name f)) eqn:E; [|apply Hdef; by exists n, k]. rewrite next_file in E.
      assert (Hp : has n k (fp_name f)).
      { apply (mg_present Hok f next_in E); [|done]. intros n' k' Hd'. destruct (Hall n' k' Hd') as [file' Hs']. exists file'.
        unfold has. rewrite <- (next_symbol n' k'); [done|]. by apply declares_top. }
      apply (md_kept _ _ _ Hm) in Hp. rewrite Hs in Hp. by injection Hp as ->.
  - intros name Hf. apply (md_files _ _ _ Hm) in Hf as [?|(g & Hg & ?)]; [by left|]. right. exists g.
    split; [apply elem_of_app; by left|done].
  - apply (md_product _ _ _ Hm).
  - intros g file [Hg| ->%list_elem_of_singleton]%elem_of_app Hi.
    + rewrite Hother in Hi by done. by apply (md_imports _ _ _ Hm g).
    + apply Hown in Hi. destruct (pool_has_file pool (fp_name f)) eqn:E; [by subst|].
      apply Hdef in Hi as (n & k & _ & Hs). by eapply symbol_file.
  - intros d Hd. unfold stand_ins' in Hd. assert (Hcase : d = fp_name f \/ is_Some (stand_ins !! d)).
    { destruct (pool_has_file pool (fp_name f)); [by right|]. destruct (decide (d = fp_name f)) as [|Hn]; [by left|].
      right. by rewrite lookup_insert_ne in Hd. }
    destruct Hcase as [->|Hs]; [exists f; split; [apply elem_of_app; right; by left|done]|].
    destruct (md_keys _ _ _ Hm d Hs) as (g & Hg & Hn). exists g. split; [apply elem_of_app; by left|done].
Qed.

(** A file is added with the types missing, under its own name or as a copy. *)
Lemma merged_added (defining : gset text) (renamed : bool) (pool' : Pool) (deps : list text) :
  let name := if renamed then CANONICAL ++ fp_name f else fp_name f in
  let proto := mkFile _ _ name (fp_package f) kept_messages kept_enums deps [] [] false in
  (forall file, file ∈ defining <-> defined_in file) ->
  (renamed = false -> defining = ∅ /\ pool_has_file pool (fp_name f) = false) ->
  pool_add pool proto = Some pool' ->
  merged (before ++ [f]) (if renamed then <[fp_name f := {[name]} ∪ defining]> stand_ins else stand_ins) pool'.
Proof using Hsplit Hok Hm HL.
  cbn zeta. set (name := if renamed then CANONICAL ++ fp_name f else fp_name f). set (proto := mkFile _ _ _ _ _ _ _ _ _ _).
  intros Hdef Hrenamed Hadd. set (stand_ins' := if renamed then <[fp_name f := {[name]} ∪ defining]> stand_ins else stand_ins).
  destruct (kept_free name deps [] SOther) as [Hpart _]. fold proto in Hpart.
  assert (Hfree : forall n k, declares proto n k -> pool_symbol product n = None /\ pool_symbol pool n = None).
  { intros n k. by apply (kept_free name deps n k). }
  assert (Hkeep : forall n s, pool_symbol pool n = Some s -> pool_symbol pool' n = Some s).
  { intros n s Hs. rewrite (add_others pool proto pool' n Hadd); [done|]. intros k Hd. destruct (Hfree n k Hd). congruence. }
  assert (Hhas : forall file, pool_has_file pool' file = bool_decide (file = name) || pool_has_file pool file)
    by (intros file; by rewrite (add_files pool proto pool' file Hadd)).
  assert (Hother : forall g, g ∈ before -> imports stand_ins' pool' (fp_name g) = imports stand_ins pool (fp_name g)).
  { intros g Hg. assert (Hn : fp_name g <> fp_name f) by by apply next_new. assert (Hg' : fp_name g <> name).
    { unfold name. destruct renamed; [|done]. intros E. by apply (mg_copies Hok f g next_in (before_in g Hg)). }
    unfold imports, stand_ins'. rewrite Hhas, bool_decide_eq_false_2 by done. cbn [orb].
    destruct renamed; [by rewrite lookup_insert_ne|done]. }
  assert (Hown : forall file, file ∈ imports stand_ins' pool' (fp_name f) ->
            file = name \/ file ∈ defining \/ (file = fp_name f /\ pool_has_file pool' (fp_name f) = true)).
  { intros file. unfold imports, stand_ins'. destruct renamed.
    - rewrite lookup_insert_eq. destruct (pool_has_file pool' (fp_name f)); set_solver.
    - rewrite next_unseen. intros ->%elem_of_singleton. by left. }
  assert (Hname : name ∈ imports stand_ins' pool' (fp_name f)).
  { unfold imports, stand_ins', name. destruct renamed; [rewrite lookup_insert_eq|rewrite next_unseen]; set_solver. }
  split.
  - intros n s Hs. by apply Hkeep, (md_kept _ _ _ Hm).
  - intros n Hn. rewrite (add_others pool proto pool' n Hadd).
    + apply (md_others _ _ _ Hm). intros g k Hg. apply Hn. apply elem_of_app. by left.
    + intros k Hd. apply (Hn f k); [apply elem_of_app; right; by left|]. by apply (declares_part proto).
  - intros g n k [Hg| ->%list_elem_of_singleton]%elem_of_app Hd.
    + destruct (md_done _ _ _ Hm g n k Hg Hd) as (file & Hs & Hi). exists file. split; [by apply Hkeep|]. by rewrite Hother.
    + destruct (next_cases n k name deps Hd) as [Hk|(file & Hs & Hin)].
      * exists name. split; [|done]. by apply (add_declared pool proto pool'), declares_top.
      * exists file. split; [by apply Hkeep|]. apply Hdef in Hin. unfold imports, stand_ins'. destruct renamed.
        -- rewrite lookup_insert_eq. set_solver.
        -- destruct Hrenamed as [He _]; [done|]. rewrite He in Hin. by apply not_elem_of_empty in Hin.
  - intros file Hf. rewrite Hhas in Hf. apply orb_true_iff in Hf as [->%bool_decide_eq_true|Hf].
    + right. exists f. split; [apply elem_of_app; right; by left|]. unfold name. destruct renamed; [by right|by left].
    + apply (md_files _ _ _ Hm) in Hf as [?|(g & Hg & ?)]; [by left|]. right. exists g. split; [apply elem_of_app; by left|done].
  - intros file Hf. rewrite Hhas. apply orb_true_iff. right. by apply (md_product _ _ _ Hm).
  - intros g file [Hg| ->%list_elem_of_singleton]%elem_of_app Hi.
    + rewrite Hother in Hi by done. rewrite Hhas. apply orb_true_iff. right. by apply (md_imports _ _ _ Hm g).
    + apply Hown in Hi as [->|[Hi|[-> Hi]]]; [rewrite Hhas, bool_decide_eq_true_2; done| |done].
      apply Hdef in Hi as (n & k & _ & Hs). rewrite Hhas. apply orb_true_iff. right. by eapply symbol_file.
  - intros d Hd. assert (Hcase : d = fp_name f \/ is_Some (stand_ins !! d)).
    { unfold stand_ins' in Hd. destruct renamed; [|by right]. destruct (decide (d = fp_name f)) as [|Hn]; [by left|].
      right. by rewrite lookup_insert_ne in Hd. }
    destruct Hcase as [->|Hs]; [exists f; split; [apply elem_of_app; right; by left|done]|].
    destruct (md_keys _ _ _ Hm d Hs) as (g & Hg & Hn). exists g. split; [apply elem_of_app; by left|done].
Qed.

(** The pool takes what the merge gives it. *)
Lemma next_accepted (defining : gset text) (renamed : bool) (deps : list text) :
  let name := if renamed then CANONICAL ++ fp_name f else fp_name f in
  let proto := mkFile _ _ name (fp_package f) kept_messages kept_enums deps [] [] false in
  (forall file, file ∈ defining <-> defined_in file) ->
  (renamed = false -> pool_has_file pool (fp_name f) = false) ->
  (forall dep, dep ∈ deps <-> dep ∈ ⋃ (imports stand_ins pool <$> fp_dependency f) ∪ defining) ->
  is_Some (pool_add pool proto).
Proof using Hsplit Hok Hm HL.
  cbn zeta. set (name := if renamed then CANONICAL ++ fp_name f else fp_name f). set (proto := mkFile _ _ _ _ _ _ _ _ _ _).
  intros Hdef Hrenamed Hdeps.
  assert (Himport : forall dep, dep ∈ fp_dependency f -> exists g, g ∈ before /\ fp_name g = dep)
    by (intros dep Hd; by apply (mg_deps Hok before f after)).
  apply add_accepts.
  - cbn. unfold name. destruct renamed; [apply next_copy|by apply Hrenamed].
  - cbn. intros dep Hd. apply Hdeps in Hd. apply elem_of_union in Hd as [Hd|Hd].
    + apply elem_of_union_list in Hd as (files & Hfiles & Hd). apply list_elem_of_fmap in Hfiles as (d & -> & Hin).
      destruct (Himport d Hin) as (g & Hg & <-). by apply (md_imports _ _ _ Hm g).
    + apply Hdef in Hd as (n & k & _ & Hs). by eapply symbol_file.
  - intros n k Hd. by apply (kept_free name deps n k).
  - pose proof (mg_top Hok f next_in) as Hn. unfold top_names in *. cbn.
    apply NoDup_app in Hn as (H1 & H2 & H3). apply NoDup_app. split_and!.
    + eapply sublist_NoDup; [exact H1|]. apply fmap_sublist, sublist_filter.
    + intros x (m & -> & [_ Hin]%list_elem_of_filter)%list_elem_of_fmap (e & He & [_ Hin']%list_elem_of_filter)%list_elem_of_fmap.
      apply (H2 (full_name (message_name m))); apply list_elem_of_fmap; [by exists m|by exists e].
    + eapply sublist_NoDup; [exact H3|]. apply fmap_sublist, sublist_filter.
  - cbn. intros m n [_ Hin]%list_elem_of_filter Hr. destruct (mg_refs Hok f m n next_in Hin Hr) as [[k Hd]|(g & k & Hg & Hdep & Hd)].
    + destruct (next_cases n k name deps Hd) as [Hk|(file & Hs & Hf)]; [left; by exists k|]. right. exists k, file. split; [done|].
      apply Hdeps, elem_of_union. right. by apply Hdef.
    + destruct (Himport (fp_name g) Hdep) as (g' & Hg' & Hname).
      assert (g' = g) as ->.
      { pose proof (mg_names Hok) as Hn. apply before_in in Hg'. apply list_elem_of_lookup in Hg' as [i Hi], Hg as [j Hj].
        assert (i = j) as ->; [|congruence].
        eapply NoDup_lookup; [exact Hn|by rewrite list_lookup_fmap, Hi|]. rewrite list_lookup_fmap, Hj. cbn. by rewrite Hname. }
      destruct (md_done _ _ _ Hm g n k Hg' Hd) as (file & Hs & Hi). right. exists k, file. split; [done|].
      apply Hdeps, elem_of_union. left. apply elem_of_union_list. exists (imports stand_ins pool (fp_name g)).
      split; [by apply list_elem_of_fmap_2|done].
Qed.

Lemma merge_step : let after_f := merge_file (stand_ins, pool) f in merged (before ++ [f]) after_f.1 after_f.2.
Proof using Hsplit Hok Hm HL.
  cbn zeta. unfold merge_file.
  pose proof (retain_missing_ok (fun m => message_file pool (full_name (message_name m))) (fp_messages f) ∅) as [Hk1 Hd1].
  destruct (retain_missing (fun m => message_file pool (full_name (message_name m))) (fp_messages f) ∅) as [messages d1].
  pose proof (retain_missing_ok (fun e => enum_file pool (full_name (enum_name e))) (fp_enums f) d1) as [Hk2 Hd2].
  destruct (retain_missing (fun e => enum_file pool (full_name (enum_name e))) (fp_enums f) d1) as [enums defining].
  cbn [fst snd] in *. subst messages enums.
  assert (Hdef : forall file, file ∈ defining <-> defined_in file).
  { apply next_defining. intros file. rewrite Hd2, Hd1. set_solver. }
  destruct (match kept_messages, kept_enums with [], [] => true | _, _ => false end) eqn:Enone.
  - apply merged_present; [done|]. intros n k Hd.
    destruct (next_cases n k [] [] Hd) as [Hk|(file & Hs & _)]; [|by exists file]. exfalso.
    destruct Hk as [[_ (m & Hin & _)]|[_ (e & Hin & _)]]; cbn in Hin;
      destruct kept_messages, kept_enums; try done; by apply elem_of_nil in Hin.
  - set (renamed := negb _ || _).
    assert (Hren : renamed = false -> defining = ∅ /\ pool_has_file pool (fp_name f) = false).
    { intros [He Hf]%orb_false_iff. by apply negb_false_iff, bool_decide_eq_true in He. }
    set (deps := elements _). destruct (next_accepted defining renamed deps Hdef) as [pool' Hadd].
    + intros Hr. by apply Hren.
    + intros dep. unfold deps. by rewrite elem_of_elements.
    + rewrite Hadd. pose proof (merged_added defining renamed pool' deps Hdef Hren Hadd) as Hmerged. cbn zeta in Hmerged.
      by destruct renamed.
Qed.
End Next.

Lemma merge_all (before after : list File) (stand_ins : gmap text (gset text)) (pool : Pool) :
  canonical = before ++ after -> merged before stand_ins pool ->
  let all := foldl merge_file (stand_ins, pool) after in merged canonical all.1 all.2.
Proof using Hok HL.
  revert before stand_ins pool. induction after as [|f after IH]; intros before stand_ins pool Hs Hm.
  - cbn. by rewrite Hs, app_nil_r.
  - cbn [foldl]. pose proof (merge_step before after f Hs stand_ins pool Hm) as Hstep. cbn zeta in Hstep.
    destruct (merge_file (stand_ins, pool) f) as [st p]. apply (IH (before ++ [f])); [|done]. by rewrite Hs, <- app_assoc.
Qed.

End Laws.

(** * Witnesses *)

(** Pools as the files added, each with its symbols; a message is its name and the types it refers to. *)
Module Demo.
Abbreviation Msg := (text * list text)%type.
Abbreviation Symbols := (list (text * list (text * SymbolKind))).

Fixpoint symbol (p : Symbols) (n : text) : option (SymbolKind * text) :=
  match p with
  | [] => None
  | (file, symbols) :: p => match assoc n symbols with Some k => Some (k, file) | None => symbol p n end
  end.
Definition has_file (p : Symbols) (file : text) : bool := bool_decide (file ∈ p.*1).
Definition names_of (f : FileProto Msg text) : list text :=
  ((fun m => full (fp_package f) m.1) <$> fp_messages f) ++ ((fun e => full (fp_package f) e) <$> fp_enums f).
Definition symbols_of (f : FileProto Msg text) : list (text * SymbolKind) :=
  ((fun m => (full (fp_package f) m.1, SMessage)) <$> fp_messages f) ++ ((fun e => (full (fp_package f) e, SEnum)) <$> fp_enums f).
Definition visible (p : Symbols) (f : FileProto Msg text) (n : text) : bool :=
  bool_decide (n ∈ names_of f) || match symbol p n with Some (_, dep) => bool_decide (dep ∈ fp_dependency f) | None => false end.
Definition addable (p : Symbols) (f : FileProto Msg text) : bool :=
  negb (has_file p (fp_name f)) && forallb (has_file p) (fp_dependency f) &&
  forallb (fun n => bool_decide (symbol p n = None)) (names_of f) && bool_decide (NoDup (names_of f)) &&
  forallb (fun m => forallb (visible p f) m.2) (fp_messages f).

#[local] Instance pools : PoolLib := {|
  MessageProto := Msg; EnumProto := text; message_name := fst; enum_name e := e; Pool := Symbols;
  pool_symbol := symbol; pool_has_file := has_file;
  pool_add p f := if addable p f then Some (p ++ [(fp_name f, symbols_of f)]) else None;
|}.

Definition refers (m : MessageProto) (n : text) : Prop := n ∈ (m : Msg).2.
Definition declares (f : FileProto MessageProto EnumProto) (n : text) (k : SymbolKind) : Prop := defines f n k.

Lemma defines_symbols (f : FileProto Msg text) (n : text) (k : SymbolKind) : @defines pools f n k <-> (n, k) ∈ symbols_of f.
Proof.
  unfold defines, symbols_of. cbn. rewrite elem_of_app, !list_elem_of_fmap. split.
  - intros [[-> (m & Hm & ->)]|[-> (e & He & ->)]]; [left; by exists m|right; by exists e].
  - intros [(m & [= -> ->] & Hm)|(e & [= -> ->] & He)]; [left; split; [done|by exists m]|right; split; [done|by exists e]].
Qed.

Lemma names_symbols (f : FileProto Msg text) : names_of f = (symbols_of f).*1.
Proof. unfold names_of, symbols_of. by rewrite fmap_app, <- !list_fmap_compose. Qed.

Lemma assoc_elem (n : text) (k : SymbolKind) (l : list (text * SymbolKind)) : NoDup l.*1 -> (n, k) ∈ l -> assoc n l = Some k.
Proof.
  induction l as [|[n' k'] l IH]; cbn; intros Hd Hin; [by apply elem_of_nil in Hin|]. apply NoDup_cons in Hd as [Hn Hd].
  apply elem_of_cons in Hin as [[= <- <-]|Hin]; [by rewrite decide_True|].
  rewrite decide_False; [by apply IH|]. intros ->. apply Hn. by apply (list_elem_of_fmap_2 fst l (n, k)).
Qed.

Lemma assoc_none (n : text) (l : list (text * SymbolKind)) : (forall k, (n, k) ∉ l) -> assoc n l = None.
Proof.
  induction l as [|[n' k'] l IH]; cbn; intros Hn; [done|]. rewrite decide_False; [apply IH; intros k Hk; apply (Hn k); by right|].
  intros ->. apply (Hn k'). by left.
Qed.

Lemma symbol_app (p q : Symbols) (n : text) : symbol (p ++ q) n = match symbol p n with Some s => Some s | None => symbol q n end.
Proof. induction p as [|[file symbols] p IH]; cbn; [done|]. by destruct (assoc n symbols). Qed.

Lemma symbol_listed (p : Symbols) (n : text) (k : SymbolKind) (file : text) : symbol p n = Some (k, file) -> file ∈ p.*1.
Proof.
  induction p as [|[file' symbols] p IH]; cbn; [done|]. destruct (assoc n symbols); [intros [= _ ->]; by left|].
  intros H. right. by apply IH.
Qed.

#[local] Instance pool_laws : PoolLaws refers declares.
Proof.
  split.
  - done.
  - intros part file n k (Hp & Hm & He) [[-> (m & Hin & ->)]|[-> (e & Hin & ->)]]; [left|right]; (split; [done|]); rewrite Hp;
      [exists m|exists e]; split; try done; [by apply Hm|by apply He].
  - intros p n k file H. apply bool_decide_eq_true. by eapply symbol_listed.
  - intros p f Hname Hdeps Hnew Hnd Hrefs. cbn in *. assert (addable p f = true) as ->; [|by eexists].
    unfold addable. rewrite Hname. cbn. rewrite !andb_true_iff. split_and!.
    + apply forallb_forall. intros d Hd. apply Hdeps. by apply list_elem_of_In.
    + apply forallb_forall. intros n Hn%list_elem_of_In. apply bool_decide_eq_true. rewrite names_symbols in Hn.
      apply list_elem_of_fmap in Hn as ([n' k] & -> & Hn). apply (Hnew n' k). by apply defines_symbols.
    + by apply bool_decide_eq_true.
    + apply forallb_forall. intros m Hm%list_elem_of_In. apply forallb_forall. intros n Hn%list_elem_of_In. unfold visible.
      apply orb_true_iff. destruct (Hrefs m n Hm Hn) as [[k Hk]|(k & dep & Hs & Hd)].
      * left. apply bool_decide_eq_true. rewrite names_symbols. apply defines_symbols in Hk.
        by apply (list_elem_of_fmap_2 fst (symbols_of f) (n, k)).
      * right. rewrite Hs. by apply bool_decide_eq_true.
  - intros p f p' n k. cbn. destruct (addable p f) eqn:Ea; [|done]. intros [= <-] Hd%defines_symbols.
    unfold addable in Ea. rewrite !andb_true_iff in Ea. destruct Ea as [[[_ Hnew] Hnd%bool_decide_eq_true] _].
    rewrite forallb_forall in Hnew. rewrite symbol_app. rewrite names_symbols in *.
    assert (symbol p n = None) as ->.
    { specialize (Hnew n). rewrite bool_decide_eq_true in Hnew. apply Hnew. apply list_elem_of_In. by apply (list_elem_of_fmap_2 fst (symbols_of f) (n, k)). }
    cbn. by rewrite (assoc_elem n k).
  - intros p f p' n. cbn. destruct (addable p f); [|done]. intros [= <-] Hn. rewrite symbol_app. destruct (symbol p n); [done|].
    cbn. rewrite assoc_none; [done|]. intros k Hk. apply (Hn k). by apply defines_symbols.
  - intros p f p' n. cbn. destruct (addable p f); [|done]. intros [= <-]. unfold has_file. rewrite fmap_app. cbn.
    apply Bool.eq_iff_eq_true. rewrite orb_true_iff, !bool_decide_eq_true, elem_of_app, list_elem_of_singleton. tauto.
Qed.

Definition any : FileProto Msg text :=
  mkFile _ _ (txt "google/protobuf/any.proto") (txt "google.protobuf") [(txt "Any", [])] [] [] [] [] false.
Definition status : FileProto Msg text :=
  mkFile _ _ (txt "google/rpc/status.proto") (txt "google.rpc")
    [(txt "Status", [txt "google.protobuf.Any"]); (txt "Help", [])] [] [fp_name any] [] [] false.
Definition files : list (FileProto Msg text) := [any; status].

(** A product with an [Any] in a file of its own and its own [Help]. *)
Definition product : Symbols :=
  [(txt "acme/types.proto", [(txt "google.protobuf.Any", SMessage)]); (txt "acme/help.proto", [(txt "google.rpc.Help", SMessage)])].

Example merged_pool :
  complete_with_canonical (product : Pool) files =
  product ++ [(txt "structured-proxy/canonical/google/rpc/status.proto", [(txt "google.rpc.Status", SMessage)])].
Proof. vm_compute. reflexivity. Qed.

(** A product whose file of a canonical name lacks the type it has elsewhere: importers are not told, and the file
    that refers to it is refused. *)
Example misplaced_type :
  symbol (complete_with_canonical ((txt "google/protobuf/any.proto", []) :: product : Pool) files) (txt "google.rpc.Status") = None.
Proof. vm_compute. reflexivity. Qed.

Lemma files_mergeable : mergeable refers declares (product : Pool) (files : list (FileProto MessageProto EnumProto)).
Proof.
  assert (Hdecl : forall f n k, f ∈ files -> declares f n k ->
    (f = any /\ n = txt "google.protobuf.Any" /\ k = SMessage) \/
    (f = status /\ (n = txt "google.rpc.Status" \/ n = txt "google.rpc.Help") /\ k = SMessage)).
  { intros f n k [->|[->|H]%elem_of_cons]%elem_of_cons Hd%defines_symbols; [| |by apply elem_of_nil in H]; vm_compute in Hd.
    - apply list_elem_of_singleton in Hd as [= -> ->]. by left.
    - apply elem_of_cons in Hd as [[= -> ->]|[= -> ->]%list_elem_of_singleton]; right; (split; [done|]); split; try done; [by left|by right]. }
  assert (Hin : forall f, f ∈ files -> f = any \/ f = status)
    by (intros f [->|[->|H]%elem_of_cons]%elem_of_cons; [by left|by right|by apply elem_of_nil in H]).
  split.
  - apply (bool_decide_eq_true_1 _). vm_compute. reflexivity.
  - intros f g [->| ->]%Hin [->| ->]%Hin E; vm_compute in E; discriminate E.
  - intros f [->| ->]%Hin; reflexivity.
  - intros before f after dep Hs Hd. destruct before as [|a [|b before]]; cbn in Hs.
    + injection Hs as <- _. by apply elem_of_nil in Hd.
    + injection Hs as <- <- _. apply list_elem_of_singleton in Hd as ->. exists any. split; [by left|done].
    + injection Hs as _ _ Hs. by destruct before.
  - intros f m n [->| ->]%Hin Hm Hr.
    + apply list_elem_of_singleton in Hm as ->. by apply elem_of_nil in Hr.
    + apply elem_of_cons in Hm as [->| ->%list_elem_of_singleton]; [|by apply elem_of_nil in Hr].
      apply list_elem_of_singleton in Hr as ->. right. exists any, SMessage. split_and!; [by left|by left|].
      left. split; [done|]. exists (txt "Any", []). split; [by left|done].
  - intros f g n k k' Hf Hg Hd Hd'. apply Hdecl in Hd; [|done]. apply Hdecl in Hd'; [|done].
    destruct Hd as [(-> & -> & ->)|(-> & [->| ->] & ->)], Hd' as [(-> & E & ->)|(-> & [E|E] & ->)];
      try (split; reflexivity); vm_compute in E; discriminate E.
  - intros f [->| ->]%Hin; apply (bool_decide_eq_true_1 _); vm_compute; reflexivity.
  - intros f part n k Hf Hpart Hno Hd. pose proof (declares_part (refers := refers) part f n k Hpart Hd) as Hd'.
    apply Hdecl in Hd'; [|done]. destruct Hd' as [(-> & -> & ->)|(-> & [->| ->] & ->)].
    + by destruct (Hno _ _ (txt "acme/types.proto") Hd).
    + reflexivity.
    + by destruct (Hno _ _ (txt "acme/help.proto") Hd).
  - intros f [->| ->]%Hin Hf; vm_compute in Hf; discriminate Hf.
Qed.

End Demo.
